(* ===== verification/_CoqProject ===== *)
-Q . S2P
Prelude.v
Wire.v
Errors.v
Options.v
Packet.v
Reader.v
Framer.v
Decoder.v
Types.v
Protocol.v
Result.v
Response.v
Attributes.v
Filter.v
Operations.v
Search.v
Bind.v
Extended.v
Codecs.v
Endpoint.v
Conn.v
ConnSafety.v
Trace.v
Telemetry.v
ConnRun.v
ConnRefine.v
ConnWrite.v
PoolOptions.v
Pool.v
PoolSafety.v
PoolRun.v
PoolRefine.v
Client.v
ClientSafety.v
Stack.v
WhoAmI.v
Session.v
Setup.v
Auth.v
Gssapi.v
GssapiSafety.v
ModelCodecs.v
Model.v
ModelSafety.v
PosixAccount.v
Tools.v
Gen.v
GenSafety.v
Command.v
CommandSafety.v
