(* ===== verification/Prelude.v ===== *)
(** * Arden: a verification library

    Arden is an LDAP client for Go. This library models its packages as Rocq
    functions and step relations and proves what makes them correct. All file
    names below are under src/.

    ** The program

    - ber/ is a BER codec: packets that write themselves, a bounded reader, a
      framer that cuts a byte stream into elements, a decoder with a first error.
    - rfc4511/, rfc4532/ and protocol/ are the LDAP messages: types, requests and
      responses, filters, controls, and the framing pattern of each operation
      (which response identifiers it expects, and which one ends it).
    - The root package is the connection: [Dialer] connects and sets up a [Conn];
      [Conn] multiplexes operations over one transport by message identifier.
      One goroutine reads and routes responses to the queues of the operations,
      one watches each operation's context, and callers write requests and read
      response streams. bootstrap.go authenticates and initializes a new
      connection through a bounded session. client.go runs ordinary operations
      (single responses, searches with RFC 2696 paging) over any executor.
    - pool/ shares connections between operations and leases.
    - auth/ and auth/gssapi/ are the authentication mechanisms.
    - ldapmodel/ maps entries to typed models and back: attribute codecs, queries,
      additions and modifications.
    - gen/ generates such models from a schema description.
    - freeipa/cmd/whoami and cmd/arden-gssapi-smoke dial a server with GSSAPI and ask
      it who they are.

    ** The files

    Encoding.
    - Prelude.v: Go values (bytes as [Z], machine integers with explicit
      wrap-around, errors as data with [errors.Is]), results, the state-passing
      notation, and shared lemmas, tactics and hints.
    - Wire.v (ber/identifier.go, length.go, limits.go, errors.go), Packet.v
      (ber/packet.go), Reader.v (ber/reader.go), Framer.v (ber/framer.go),
      Decoder.v (ber/decoder.go). The reference is the element tree [tlv] with its
      encoding [enc]; packets are shown to write a tree, the reader and decoder to
      accept exactly the trees within their limits, the framer to find exactly the
      elements of a stream.
    - Types.v (rfc4511/types.go, codec.go), Result.v (result.go, control.go,
      attribute.go, assertion.go), Attributes.v (attributes.go,
      attribute_selectors.go), Filter.v, Operations.v (add.go, delete.go, modify.go,
      modifydn.go, compare.go, abandon.go), Search.v, Bind.v, Extended.v, Codecs.v. The class [Codec] is what a message type
      promises its clients, an encoder and a decoder with a round trip; each file
      gives the instances, Codecs.v collects them. Attributes.v refines the indexed
      collection to an ordered map.
    - Protocol.v (protocol/operation.go) and Response.v (response.go and the request
      encoders of connection.go): patterns, and the LDAPMessage envelope.

    The connection.
    - Errors.v (errors.go), Options.v (options of connection.go and the life-cycle
      states), Endpoint.v (endpoint.go).
    - Conn.v: the state of [Conn] and each critical section under [c.mu] as a
      function, and the relation [step] of all interleavings. ConnSafety.v: the
      invariant, monotonicity, in-order delivery, identifier reservation,
      retirement, the end of every operation. Trace.v (trace.go and the reports of
      connection.go): the observer of each operation beside the steps.
      Telemetry.v (trace.go, otelldap/trace.go): its hooks and log lines, and the
      OpenTelemetry adapter.
    - ConnRun.v: the whole functions ([do], [readLoop], [Next], [CloseContext] and
      the others), which run several critical sections and wait in between, and
      the callback that takes over a write whose context ends.
      ConnRefine.v: they refine [step], with exact ownership: what a handler and the
      others hold together is what is reserved, pending, abandoned or about to be
      closed, and the one writer token, and each handler gives back what it took.
      ConnWrite.v: what the bytes on the transport say about a request's reported
      outcome.
    - Client.v and ClientSafety.v (client.go, entry.go), over the class [Executor].
    - Stack.v: the client over the handlers of a connection, the envelope, the framer
      and a network with a server; the connection implements [Executor]. WhoAmI.v
      (rfc4532/whoami.go): one extended operation, over any executor and over it.
    - Session.v and Setup.v (bootstrap.go, [Dialer.dial]); the session implements
      [Executor] over the connection's.
    - Auth.v (auth/auth.go, simple.go), Gssapi.v and GssapiSafety.v (auth/gssapi).

    The tools.
    - Tools.v (freeipa/cmd/whoami, cmd/arden-gssapi-smoke, auth/gssapi/native): the
      configuration with the durations of package time, and the runs of both
      commands over the class [Connections], with the deadline of their context.

    The pool.
    - PoolOptions.v (pool/options.go, selection.go), Pool.v (pool.go, lease.go,
      stats.go) and PoolSafety.v: critical sections under [p.mu], their
      interleavings with what callers hold, exact in-flight counts and bounds.
    - PoolRun.v: the whole functions of the pool ([acquire], [Do], [Lease], leases and
      streams, [dialEndpoint], [replace], [watchConnection], [maintain],
      [CloseContext], [New]). PoolRefine.v: they refine the interleavings, with exact
      ownership of capacity, calls and replacing marks, and each gives back what it
      took.

    The model mapping.
    - ModelCodecs.v (ldapmodel/codecs.go, uint32.go): value codecs, with the decimal
      numbers of strconv and the calendar of time. Model.v (the other files of
      ldapmodel/) and ModelSafety.v: typed attributes, additions with RFC 4514
      escaping, modifications, and queries over the client. PosixAccount.v
      (freeipa/posixaccount): a complete model over them.

    The generator.
    - Gen.v (gen/) and GenSafety.v: resolution of a schema and its models, with
      inheritance of attributes and object classes, and the checks of names.
    - Command.v (cmd/gen/main.go, and the reader of gen/config.go) and
      CommandSafety.v: the command over a file system whose calls may fail, some
      half way.

    ** What the theorems show

    - Exactness of the codecs: decoders accept precisely what encoders write (headers,
      integers, frames, nested elements, schema values) and messages survive the wire;
      a typed account that is added is the one that is read.
    - Safety over all interleavings: identifiers are never shared or reused while a
      response may come, responses arrive in order, retirement is final, streams end,
      the pool's counts and limits hold, tracing never blocks a connection and
      accounts for every operation once, with safe metadata.
    - Composition: a client's request goes through all layers to the bytes of one
      message, and the server's replies come back as the values it encoded, whatever
      the sizes of the writes and the other operations under way.
    - Refinement: the multi-section handlers of connections and of the pool are
      sequences of steps that leak no identifier, entry, writer token, capacity or
      obligation; the attribute collection is an ordered map.
    - Outcomes: a request's error class tells what was written; a set-up connection
      is published only when finished; a GSSAPI success means protected mutual
      authentication; resources (streams, GSS handles, secrets, the connections of the
      tools) are released.
    - The generator's walks end for every schema and succeed exactly for the valid
      ones; what it accepts is well formed. The command never changes its input, a
      handwritten file or, in check mode, anything; files change only to complete
      outputs, whichever system calls fail.
    - Defects of the source, as theorems about the faithful model: the framer's size
      check overflows, the pool can exceed its connection limit and leak a waiter, an
      unsent request can match both outcome classes, the generator command can
      write two outputs to one file.

    ** Bounds and fuel

    Integers of a Go width carry their range or wrap explicitly ([uwrap], [swrap]).
    Recursion over nested elements takes fuel from the input length or the limits,
    which the exactness theorems show to be enough; the walks of the generator take the
    number of definitions, which [members_exact] shows to be enough. [writeAll] takes the length of
    the message as fuel, and [write_all_exact] shows it always suffices. Loops that wait for the
    outside without a bound of their own (the reader's loop, [reserveMessageID],
    [Next]) take fuel and return an explicit out-of-fuel outcome, which the theorems
    about them account for; their loop bodies are the critical sections of Conn.v.
    Stack.v uses one round of [reserveMessageID] and two of [Next], and its theorem
    shows that they suffice there. A duration takes its length as fuel, which
    [ParseDuration_loop_total] shows to be enough.

    ** Parameters

    Code that is not part of the repository is a parameter: Go's Unicode tables (the
    classes [GoUnicode] of Attributes.v and [GoFold] of Model.v), Go's expression parser
    and template engine (the classes [GoSource] and [Templates] of Gen.v), the YAML
    library (the class [Yaml] of Command.v), the GSS library (the class [Provider] and the
    flags [GssConstants] of Gssapi.v), the network, TLS, contexts and the scheduler
    (the section variables of ConnRun.v, PoolRun.v and Setup.v), certificate pools,
    files and the clock (the class [Platform] of Tools.v). The refinement theorems
    assume of the scheduler only that what others do are steps that leave alone what
    the handler holds (the records [scheduled] and [pool_scheduled]). Executors are interfaces of the source: the
    class [Executor]. The network and the server of Stack.v are definitions of the
    statement, not of the program.

    ** Not modelled

    Log lines other than those of operations. Timers and clocks are arguments. The
    texts of [Error] methods are kept only where they are the error's identity.
    Sharing of one attribute store between copies, and erasing of token buffers, are
    not in the state. change.go, filter.go and ldap_types.go of the root package are
    aliases of the modelled types. integration/ is test set-up and
    gen/internal/clientmodel is generated. The C library behind auth/gssapi/native is
    a parameter, and the tools' flag parsing and printed text are not modelled. Of the
    generator, the text of the templates is not modelled.

    ** Plan

    Every package with logic of its own is modelled. What remains are the parts named
    above. *)

From Stdlib Require Import ZArith Lia.
From stdpp Require Export base tactics numbers list strings pretty gmap.

#[export] Set Default Goal Selector "!".

Declare Scope go_scope.
Delimit Scope go_scope with go.
Open Scope Z_scope.

(** ** Go values *)

(** A byte is a [Z] (0..255 in every value the code builds with [uint8]); a
    [[]byte] or a Go [string] is the list of its bytes. *)
Abbreviation bytes := (list Z).

(** [len] on slices, strings and maps is a Go [int]. *)
Definition len {A} (l : list A) : Z := Z.of_nat (length l).

(** The bytes of an (ASCII) string literal of the source. *)
Fixpoint bs (s : string) : bytes :=
  match s with
  | EmptyString => []
  | String a s' => Z.of_N (Ascii.N_of_ascii a) :: bs s'
  end.

(** Wrap-around of unsigned and signed machine integers. *)
Definition uwrap (w z : Z) : Z := z mod 2 ^ w.
Definition swrap (w z : Z) : Z := (z + 2 ^ (w - 1)) mod 2 ^ w - 2 ^ (w - 1).

(** A Go integer type: the type argument of the generic codecs. *)
Record inttype := IntType { it_bits : Z; it_signed : bool }.

Definition int8 := IntType 8 true.
Definition int16 := IntType 16 true.
Definition int32 := IntType 32 true.
Definition int64 := IntType 64 true.
Definition int := IntType 64 true.
Definition uint8 := IntType 8 false.
Definition uint16 := IntType 16 false.
Definition uint32 := IntType 32 false.
Definition uint64 := IntType 64 false.

(** The conversion [T(z)]. *)
Definition conv (T : inttype) (z : Z) : Z :=
  if it_signed T then swrap (it_bits T) z else uwrap (it_bits T) z.

#[global] Arguments conv : simpl never.
#[global] Arguments uwrap : simpl never.
#[global] Arguments swrap : simpl never.
#[global] Arguments Z.shiftl : simpl never.
#[global] Arguments Z.shiftr : simpl never.
#[global] Arguments Z.lor : simpl never.
#[global] Arguments Z.land : simpl never.
#[global] Arguments Z.ltb : simpl never.
#[global] Arguments Z.leb : simpl never.
#[global] Arguments Z.gtb : simpl never.
#[global] Arguments Z.geb : simpl never.

(** [z] is a value of the type [T]. *)
Definition in_type (T : inttype) (z : Z) : bool :=
  if it_signed T
  then (- 2 ^ (it_bits T - 1) <=? z) && (z <? 2 ^ (it_bits T - 1))
  else (0 <=? z) && (z <? 2 ^ it_bits T).

(** The widths Go has. *)
Definition go_type (T : inttype) : bool :=
  (it_bits T =? 8) || (it_bits T =? 16) || (it_bits T =? 32) || (it_bits T =? 64).

Definition MaxInt : Z := 2 ^ 63 - 1.
Definition MaxInt32 : Z := 2 ^ 31 - 1.
Definition MinInt64 : Z := - 2 ^ 63.
Definition MaxUint32 : Z := 2 ^ 32 - 1.
Definition MaxUint64 : Z := 2 ^ 64 - 1.

(** [math/bits.Len]: the number of bits of an unsigned value. *)
Definition bits_Len (x : Z) : Z := if x =? 0 then 0 else Z.log2 x + 1.

Definition is_byte (b : Z) : Prop := 0 <= b < 256.

(** ** Errors

    A Go error value: a sentinel or [errors.New] text, [fmt.Errorf] without
    and with [%w], and the two structured errors of package [ber].
    [FormatError] is an [fmt.Errorf] without [%w] whose rendering of the
    operands is not modelled: it keeps the format and the operands' bytes.
    [FuelExhausted] is no Go error: the recursive model functions return it
    when their fuel runs out, and the theorems show that it never happens. *)
Inductive error :=
| ErrorString (text : string)
| FormatError (format : string) (operands : list bytes)
| WrapError (wrapped : error) (text : string)
| DecodeError (Offset : Z) (Err : error)
| BerLimitError (Limit : string) (Value Max : Z)
| FuelExhausted.

#[export] Instance error_eq_dec : EqDecision error.
Proof. solve_decision. Defined.

(** [io.EOF], and [errors.Is] along the wrapped errors. *)
Definition EOF : error := ErrorString "EOF".
Fixpoint errors_Is (err target : error) : bool :=
  bool_decide (err = target) ||
  match err with
  | WrapError wrapped _ => errors_Is wrapped target
  | DecodeError _ wrapped => errors_Is wrapped target
  | _ => false
  end.

(** ** Results *)

Inductive result (A : Type) :=
| Ok (a : A)
| Err (e : error).
Arguments Ok {A} a.
Arguments Err {A} e.

#[export] Instance result_ret : MRet result := fun A a => Ok a.
#[export] Instance result_bind : MBind result := fun A B f m =>
  match m with Ok a => f a | Err e => Err e end.

(** The zero value of a Go type. *)
Class Zero (A : Type) := zero : A.
#[export] Instance Zero_Z : Zero Z := 0.
#[export] Instance Zero_bool : Zero bool := false.
#[export] Instance Zero_unit : Zero unit := tt.
#[export] Instance Zero_list {A} : Zero (list A) := [].
#[export] Instance Zero_option {A} : Zero (option A) := None.

(** ** Automation *)

Create HintDb arden discriminated.

(** Reflect the boolean comparisons of the model into hypotheses for [lia]. *)
Ltac zbool :=
  repeat match goal with
  | H : (_ && _)%bool = true |- _ => apply andb_true_iff in H; destruct H
  | H : (_ || _)%bool = false |- _ => apply orb_false_iff in H; destruct H
  | H : (_ && _)%bool = false |- _ => apply andb_false_iff in H
  | H : (_ || _)%bool = true |- _ => apply orb_true_iff in H
  | H : (_ =? _) = true |- _ => apply Z.eqb_eq in H
  | H : (_ =? _) = false |- _ => apply Z.eqb_neq in H
  | H : (_ <? _) = true |- _ => apply Z.ltb_lt in H
  | H : (_ <? _) = false |- _ => apply Z.ltb_ge in H
  | H : (_ <=? _) = true |- _ => apply Z.leb_le in H
  | H : (_ <=? _) = false |- _ => apply Z.leb_gt in H
  | H : (_ >? _) = true |- _ => rewrite Z.gtb_ltb in H; apply Z.ltb_lt in H
  | H : (_ >? _) = false |- _ => rewrite Z.gtb_ltb in H; apply Z.ltb_ge in H
  end.

(** Case on every [if] whose test is a boolean, remembering the test. *)
Ltac case_ifs :=
  repeat match goal with
  | |- context [if ?b then _ else _] =>
      lazymatch type of b with bool => destruct b eqn:? end
  | H : context [if ?b then _ else _] |- _ =>
      lazymatch type of b with bool => destruct b eqn:? end
  end.

(** Case on the scrutinee of a [match] in a hypothesis. *)
Ltac case_match_in H :=
  match type of H with
  | context [match ?x with _ => _ end] => destruct x eqn:?
  end.

(** ** Lengths *)

Lemma len_nil {A} : len (@nil A) = 0.
Proof. done. Qed.

Lemma len_cons {A} (x : A) l : len (x :: l) = 1 + len l.
Proof. unfold len. rewrite length_cons. lia. Qed.

Lemma len_app {A} (l k : list A) : len (l ++ k) = len l + len k.
Proof. unfold len. rewrite length_app. lia. Qed.

Lemma len_nonneg {A} (l : list A) : 0 <= len l.
Proof. unfold len. lia. Qed.

Lemma len_zero {A} (l : list A) : len l = 0 <-> l = [].
Proof. unfold len. destruct l; split; intros; [done|done|simpl in *; lia|done]. Qed.

Lemma len_to_nat {A} (l : list A) : Z.to_nat (len l) = length l.
Proof. unfold len. lia. Qed.

Create Rewrite HintDb arden_len.
#[export] Hint Rewrite @len_nil @len_cons @len_app : arden_len.

(** The number of elements with a property. *)
Definition countb {A} (f : A -> bool) (l : list A) : Z := foldr (fun x n => (if f x then 1 else 0) + n) 0 l.

Lemma countb_snoc {A} (f : A -> bool) l x : countb f (l ++ [x]) = countb f l + (if f x then 1 else 0).
Proof. induction l as [|y l IH]; cbn; [lia|]. fold (countb f (l ++ [x])) (countb f l). lia. Qed.

Ltac len_simpl := autorewrite with arden_len in *.

(** ** Slices

    [slice_from l i] is Go's [l[i:]] and [slice l i j] its [l[i:j]]; both are
    used only inside the bounds of the list. *)
Definition slice_from {A} (l : list A) (i : Z) : list A := drop (Z.to_nat i) l.
Definition slice {A} (l : list A) (i j : Z) : list A :=
  take (Z.to_nat (j - i)) (drop (Z.to_nat i) l).

Lemma slice_from_app {A} (l k : list A) i :
  i = len l -> slice_from (l ++ k) i = k.
Proof. intros ->. unfold slice_from. rewrite len_to_nat. by rewrite drop_app_length. Qed.

Lemma slice_from_from {A} (l : list A) i j :
  0 <= i -> 0 <= j -> slice_from l (i + j) = slice_from (slice_from l i) j.
Proof. intros. unfold slice_from. rewrite drop_drop. f_equal. lia. Qed.

Lemma slice_prefix {A} (l k m : list A) i j :
  i = len l -> j = len l + len k -> slice (l ++ k ++ m) i j = k.
Proof.
  intros -> ->. unfold slice. rewrite len_to_nat, drop_app_length.
  replace (len l + len k - len l) with (len k) by lia.
  rewrite len_to_nat. by rewrite take_app_length.
Qed.

Lemma len_slice_from {A} (l : list A) i :
  0 <= i <= len l -> len (slice_from l i) = len l - i.
Proof. unfold len, slice_from. rewrite length_drop. lia. Qed.

Lemma len_slice {A} (l : list A) i j :
  0 <= i <= j -> j <= len l -> len (slice l i j) = j - i.
Proof. unfold len, slice. rewrite length_take, length_drop. lia. Qed.

(** A slice of a tail is a slice of the whole. *)
Lemma slice_of_from {A} (l : list A) s i j :
  0 <= s -> 0 <= i <= j ->
  slice l (s + i) (s + j) = slice (slice_from l s) i j.
Proof.
  intros. unfold slice, slice_from. rewrite drop_drop.
  f_equal; [lia|f_equal; lia].
Qed.

(** ** Machine integers *)

Lemma uwrap_small w z : 0 <= z < 2 ^ w -> uwrap w z = z.
Proof. intros. unfold uwrap. by apply Z.mod_small. Qed.

Lemma uwrap_range w z : 0 <= w -> 0 <= uwrap w z < 2 ^ w.
Proof. intros. unfold uwrap. apply Z.mod_pos_bound. lia. Qed.

Lemma pow2_half w : 0 < w -> 2 ^ w = 2 * 2 ^ (w - 1).
Proof. intros. rewrite <- Z.pow_succ_r by lia. f_equal. lia. Qed.

Lemma swrap_small w z :
  0 < w -> - 2 ^ (w - 1) <= z < 2 ^ (w - 1) -> swrap w z = z.
Proof.
  intros Hw Hz. unfold swrap. rewrite (pow2_half w) by done.
  rewrite Z.mod_small; lia.
Qed.

Lemma swrap_range w z : 0 < w -> - 2 ^ (w - 1) <= swrap w z < 2 ^ (w - 1).
Proof.
  intros Hw. unfold swrap. rewrite (pow2_half w) by done.
  assert (0 < 2 ^ (w - 1)) by (apply Z.pow_pos_nonneg; lia).
  pose proof (Z.mod_pos_bound (z + 2 ^ (w - 1)) (2 * 2 ^ (w - 1))). lia.
Qed.

Lemma go_type_pos T : go_type T = true -> 8 <= it_bits T <= 64.
Proof. unfold go_type. intros. destruct T as [b s]; simpl in *.
  repeat (apply orb_true_iff in H as [H|H]); zbool; lia. Qed.

Lemma conv_id T z : go_type T = true -> in_type T z = true -> conv T z = z.
Proof.
  intros Ht Hz. pose proof (go_type_pos T Ht). unfold in_type, conv in *.
  destruct (it_signed T); zbool; [apply swrap_small|apply uwrap_small]; lia.
Qed.

Lemma conv_in_type T z : go_type T = true -> in_type T (conv T z) = true.
Proof.
  intros Ht. pose proof (go_type_pos T Ht). unfold in_type, conv.
  destruct (it_signed T).
  - pose proof (swrap_range (it_bits T) z). lia.
  - pose proof (uwrap_range (it_bits T) z). lia.
Qed.

Lemma in_int64 z : - 2 ^ 63 <= z < 2 ^ 63 -> in_type int64 z = true.
Proof. intros. unfold in_type. cbn [it_bits it_signed int64]. lia. Qed.

Lemma in_uint64 z : 0 <= z < 2 ^ 64 -> in_type uint64 z = true.
Proof. intros. unfold in_type. cbn [it_bits it_signed uint64]. lia. Qed.

Lemma in_uint32 z : 0 <= z < 2 ^ 32 -> in_type uint32 z = true.
Proof. intros. unfold in_type. cbn [it_bits it_signed uint32]. lia. Qed.

Lemma conv_uint8_small z : 0 <= z < 256 -> conv uint8 z = z.
Proof. intros. apply uwrap_small. done. Qed.

(** ** Bits as arithmetic *)

Lemma lor_shiftl_add v n b :
  0 <= n -> 0 <= b < 2 ^ n -> Z.lor (Z.shiftl v n) b = v * 2 ^ n + b.
Proof.
  intros Hn Hb. rewrite <- Z.add_nocarry_lor; [by rewrite Z.shiftl_mul_pow2|].
  apply Z.bits_inj'. intros i Hi. rewrite Z.land_spec, Z.bits_0.
  destruct (Z.lt_ge_cases i n).
  - by rewrite Z.shiftl_spec_low.
  - destruct (decide (b = 0)) as [->|]; [by rewrite Z.bits_0, andb_false_r|].
    rewrite (Z.bits_above_log2 b), andb_false_r; [done|lia|].
    apply Z.log2_lt_pow2; [lia|].
    eapply Z.lt_le_trans; [apply Hb|]. apply Z.pow_le_mono_r; lia.
Qed.

Lemma land_7f z : Z.land z 0x7f = z mod 128.
Proof. change 0x7f with (Z.ones 7). by rewrite Z.land_ones. Qed.

Lemma shiftr_div z n : 0 <= n -> Z.shiftr z n = z / 2 ^ n.
Proof. apply Z.shiftr_div_pow2. Qed.

(** A boolean property of bytes holds if it holds of the 256 of them. *)
Lemma byte_check (P : Z -> bool) :
  forallb P (seqZ 0 256) = true -> forall b, is_byte b -> P b = true.
Proof.
  intros Hall b Hb. rewrite forallb_forall in Hall. apply Hall.
  apply list_elem_of_In, elem_of_seqZ. unfold is_byte in Hb. lia.
Qed.

(** Equations on bytes, decided by enumeration. *)
Ltac byte_enum P b :=
  let H := fresh in
  assert (H : P b = true) by (apply (byte_check P); [vm_compute; reflexivity|assumption]);
  cbv beta in H.

Lemma byte_high b : is_byte b -> (Z.land b 0x80 =? 0) = (b <? 128).
Proof.
  intros. byte_enum (fun b => Bool.eqb (Z.land b 0x80 =? 0) (b <? 128)) b.
  by apply Bool.eqb_prop.
Qed.

(** ** Big-endian numbers *)

(** The number a list of digits in base [B] stands for, most significant
    first. *)
Definition be (B : Z) (ds : list Z) : Z := foldl (fun v d => v * B + d) 0 ds.

Lemma be_foldl B v ds :
  foldl (fun v d => v * B + d) v ds = v * B ^ len ds + be B ds.
Proof.
  unfold be. revert v. induction ds as [|d ds IH]; intros v; simpl.
  - rewrite len_nil. lia.
  - rewrite (IH (v * B + d)), (IH (0 * B + d)), len_cons, Z.pow_add_r;
      [|lia|apply len_nonneg]. lia.
Qed.

Lemma be_cons B d ds : be B (d :: ds) = d * B ^ len ds + be B ds.
Proof. unfold be. simpl. by rewrite be_foldl, Z.add_0_l. Qed.

Lemma be_snoc B ds d : be B (ds ++ [d]) = be B ds * B + d.
Proof. unfold be. by rewrite foldl_app. Qed.

Lemma be_range B ds :
  0 < B -> Forall (fun d => 0 <= d < B) ds -> 0 <= be B ds < B ^ len ds.
Proof.
  intros HB H. induction H as [|d ds Hd H IH]; [done|].
  rewrite be_cons, len_cons, Z.pow_add_r; [|lia|apply len_nonneg]. nia.
Qed.

(** ** State passing *)

Definition ST (S A : Type) : Type := S -> A * S.
Definition sret {S A} (x : A) : ST S A := fun s => (x, s).
Definition sbind {S A B} (m : ST S A) (k : A -> ST S B) : ST S B := fun s => let '(x, s) := m s in k x s.

Declare Scope run_scope.
Delimit Scope run_scope with run.
Notation "'let*' x := m 'in' k" :=
  (sbind m (fun x => k)) (at level 10, x pattern, m at level 100, k at level 200) : run_scope.
Notation "m ;; k" := (sbind m (fun _ => k)) (at level 100, right associativity) : run_scope.
