(* ===== verification/Wire.v ===== *)
(** * BER wire primitives: identifiers, lengths, limits, integers

    Models src/ber/identifier.go, length.go, limits.go, errors.go, the integer
    encoder of packet.go and the header and integer decoders of reader.go.
    The theorems show that the header encoders and decoders are inverse to each
    other in both directions (the decoders accept only the canonical, shortest
    encodings), that the length computations agree with the bytes written, and
    that the integer codec is exact two's complement with range checks for
    every Go integer type. *)

From S2P Require Import Prelude.

(** ** Errors of package ber *)

Definition ErrTruncated := ErrorString "ber: truncated value".
Definition ErrInvalidIdentifier := ErrorString "ber: invalid identifier".
Definition ErrInvalidLength := ErrorString "ber: invalid length".
Definition ErrIndefiniteLength := ErrorString "ber: indefinite length is not allowed".
Definition ErrLengthOverflow := ErrorString "ber: length overflows int".
Definition ErrTrailingData := ErrorString "ber: trailing data".
Definition ErrUnexpectedIdentifier := ErrorString "ber: unexpected identifier".
Definition ErrPrimitiveRequired := ErrorString "ber: primitive value required".
Definition ErrConstructedRequired := ErrorString "ber: constructed value required".
Definition ErrInvalidBoolean := ErrorString "ber: invalid boolean".
Definition ErrInvalidInteger := ErrorString "ber: invalid integer".
Definition ErrInvalidNull := ErrorString "ber: invalid null".
Definition ErrNoProgress := ErrorString "ber: decoder consumed no value".

(** [errors.AsType[*DecodeError]]: some error of the [Unwrap] chain is a
    [DecodeError]. *)
Fixpoint asDecodeError (err : error) : bool :=
  match err with
  | DecodeError _ _ => true
  | WrapError wrapped _ => asDecodeError wrapped
  | _ => false
  end.

Definition decodeError (offset : Z) (err : error) : error :=
  if asDecodeError err then err else DecodeError offset err.

(** ** Identifiers *)

Definition Class := Z.
Definition ClassUniversal : Class := 0.
Definition ClassApplication : Class := 1.
Definition ClassContextSpecific : Class := 2.
Definition ClassPrivate : Class := 3.

Record Identifier := MkId {
  id_Class : Class;
  id_Constructed : bool;
  id_Number : Z
}.

#[export] Instance Identifier_eq_dec : EqDecision Identifier.
Proof. solve_decision. Defined.

#[export] Instance Identifier_countable : Countable Identifier.
Proof.
  refine (inj_countable' (fun i => (id_Class i, id_Constructed i, id_Number i))
                         (fun '(c, k, n) => MkId c k n) _).
  by intros [].
Defined.

#[export] Instance Zero_Identifier : Zero Identifier := MkId 0 false 0.

Definition BooleanIdentifier := MkId ClassUniversal false 1.
Definition IntegerIdentifier := MkId ClassUniversal false 2.
Definition OctetStringIdentifier := MkId ClassUniversal false 4.
Definition NullIdentifier := MkId ClassUniversal false 5.
Definition EnumeratedIdentifier := MkId ClassUniversal false 10.
Definition SequenceIdentifier := MkId ClassUniversal true 16.
Definition SetIdentifier := MkId ClassUniversal true 17.

(** [Identifier.Valid]. *)
Definition Identifier_Valid (id : Identifier) : bool := id_Class id <=? ClassPrivate.

(** [Class.String] and [Identifier.String]. *)
Definition Class_String (c : Class) : string :=
  if c =? ClassUniversal then "universal"
  else if c =? ClassApplication then "application"
  else if c =? ClassContextSpecific then "context-specific"
  else if c =? ClassPrivate then "private"
  else ("class(" +:+ pretty c +:+ ")")%string.

Definition Identifier_String (id : Identifier) : string :=
  (Class_String (id_Class id) +:+ "/" +:+
   (if id_Constructed id then "constructed" else "primitive") +:+ "/" +:+
   pretty (id_Number id))%string.

(** [appendIdentifier]. The source fills an array of five bytes from its end;
    [identifier_groups] is that loop with the part of the array written so far
    as accumulator and the array's size as fuel. *)
Fixpoint identifier_groups (room : nat) (value : Z) (encoded : bytes) : bytes :=
  match room with
  | O => encoded
  | S room' =>
      let encoded := conv uint8 (Z.land value 0x7f) :: encoded in
      let value := Z.shiftr value 7 in
      if value =? 0 then encoded else identifier_groups room' value encoded
  end.

(** The second loop: every group but the last gets the continuation bit. *)
Fixpoint continuation_bits (encoded : bytes) : bytes :=
  match encoded with
  | [] => []
  | [last] => [last]
  | b :: rest => Z.lor b 0x80 :: continuation_bits rest
  end.

Definition appendIdentifier (dst : bytes) (id : Identifier) : bytes :=
  let first := conv uint8 (Z.shiftl (id_Class id) 6) in
  let first := if id_Constructed id then Z.lor first 0x20 else first in
  if id_Number id <? 31
  then dst ++ [Z.lor first (conv uint8 (id_Number id))]
  else
    let first := Z.lor first 0x1f in
    (dst ++ [first]) ++ continuation_bits (identifier_groups 5 (id_Number id) []).

(** [identifierLength] with the loop's remaining rounds as fuel. *)
Fixpoint identifierLength_loop (fuel : nat) (number length : Z) : Z :=
  match fuel with
  | O => length
  | S fuel' =>
      let length := length + 1 in
      if number <? 0x80 then length
      else identifierLength_loop fuel' (Z.shiftr number 7) length
  end.

Definition identifierLength (id : Identifier) : Z :=
  if id_Number id <? 31 then 1
  else identifierLength_loop 5 (id_Number id) 1.

(** [decodeIdentifier]: the identifier and the number of bytes it takes. *)
Fixpoint decodeIdentifier_loop (data : bytes) (i number maxTagNumber : Z)
    (id : Identifier) : result (Identifier * Z) :=
  match data with
  | [] => Err ErrTruncated
  | b :: data' =>
      if (i =? 1) && (Z.land b 0x7f =? 0) then Err ErrInvalidIdentifier
      else if number >? Z.shiftr MaxUint32 7 then Err ErrInvalidIdentifier
      else
        let number := Z.lor (Z.shiftl number 7) (Z.land b 0x7f) in
        if number >? maxTagNumber
        then Err (BerLimitError "tag number" number maxTagNumber)
        else if Z.land b 0x80 =? 0
        then if number <? 31 then Err ErrInvalidIdentifier
             else Ok (MkId (id_Class id) (id_Constructed id) (conv uint32 number), i + 1)
        else decodeIdentifier_loop data' (i + 1) number maxTagNumber id
  end.

Definition decodeIdentifier (data : bytes) (maxTagNumber : Z) : result (Identifier * Z) :=
  match data with
  | [] => Err ErrTruncated
  | first :: rest =>
      let id := MkId (Z.shiftr first 6) (negb (Z.land first 0x20 =? 0))
                     (Z.land first 0x1f) in
      if negb (id_Number id =? 0x1f) then Ok (id, 1)
      else if len data =? 1 then Err ErrTruncated
      else decodeIdentifier_loop rest 1 0 maxTagNumber id
  end.

(** ** Lengths *)

(** The loop of [appendLength] over [shift], from [8 * (n-1)] down to [0]. *)
Fixpoint length_bytes (n : nat) (length : Z) : bytes :=
  match n with
  | O => []
  | S n' => conv uint8 (Z.shiftr length (8 * Z.of_nat n')) :: length_bytes n' length
  end.

Definition appendLength (dst : bytes) (length : Z) : bytes :=
  if length <? 128 then dst ++ [conv uint8 length]
  else
    let n := (bits_Len length + 7) / 8 in
    (dst ++ [Z.lor 0x80 (conv uint8 n)]) ++ length_bytes (Z.to_nat n) length.

(** [lengthLength] with the loop's remaining rounds as fuel: an [int] has
    eight bytes. *)
Fixpoint lengthLength_loop (fuel : nat) (length bytes : Z) : Z :=
  match fuel with
  | O => bytes
  | S fuel' =>
      if length >? 0 then lengthLength_loop fuel' (Z.shiftr length 8) (bytes + 1)
      else bytes
  end.

Definition lengthLength (length : Z) : Z :=
  if length <? 128 then 1 else 1 + lengthLength_loop 8 length 0.

(** [decodeLength]: the length and the number of bytes it takes. *)
Fixpoint decodeLength_loop (data : bytes) (value : Z) : result Z :=
  match data with
  | [] => Ok value
  | b :: data' =>
      if value >? Z.shiftr MaxInt 8 then Err ErrLengthOverflow
      else decodeLength_loop data' (Z.lor (Z.shiftl value 8) b)
  end.

Definition decodeLength (data : bytes) : result (Z * Z) :=
  match data with
  | [] => Err ErrTruncated
  | first :: rest =>
      if Z.land first 0x80 =? 0 then Ok (first, 1)
      else
        let n := Z.land first 0x7f in
        if n =? 0 then Err ErrIndefiniteLength
        else if n >? len data - 1 then Err ErrTruncated
        else if (n >? 8) || ((n >? 1) && (default 0 (rest !! 0%nat) =? 0))
        then Err ErrInvalidLength
        else
          value ← decodeLength_loop (slice data 1 (n + 1)) 0;
          if value <? 128 then Err ErrInvalidLength
          else if value >? MaxInt then Err ErrLengthOverflow
          else Ok (value, n + 1)
  end.

(** ** Limits *)

Record Limits := MkLimits {
  MaxFrameBytes : Z;
  MaxDepth : Z;
  MaxElements : Z;
  MaxIntegerBytes : Z;
  MaxTagNumber : Z
}.

#[export] Instance Limits_eq_dec : EqDecision Limits.
Proof. solve_decision. Defined.

Definition DefaultLimits : Limits :=
  {| MaxFrameBytes := Z.shiftl 16 20;
     MaxDepth := 32;
     MaxElements := 100000;
     MaxIntegerBytes := 8;
     MaxTagNumber := MaxUint32 |}.

(** [Limits.Validate]: [None] is a nil error. *)
Definition Limits_Validate (l : Limits) : option error :=
  if MaxFrameBytes l <=? 0 then Some (ErrorString "ber: MaxFrameBytes must be positive")
  else if MaxDepth l <=? 0 then Some (ErrorString "ber: MaxDepth must be positive")
  else if MaxElements l <=? 0 then Some (ErrorString "ber: MaxElements must be positive")
  else if MaxIntegerBytes l <=? 0 then Some (ErrorString "ber: MaxIntegerBytes must be positive")
  else if MaxTagNumber l =? 0 then Some (ErrorString "ber: MaxTagNumber must be positive")
  else None.

(** ** Integers *)

(** [integerBytes]. A negative value is written into eight bytes, from the
    last to the first, and its redundant leading [0xff] bytes are dropped; a
    nonnegative value is written until it is used up, into an array of nine
    bytes, and gets a leading zero when its top bit is set. *)
Fixpoint negative_raw (room : nat) (n : Z) (raw : bytes) : bytes :=
  match room with
  | O => raw
  | S room' => negative_raw room' (Z.shiftr n 8) (conv uint8 n :: raw)
  end.

Fixpoint negative_trim (raw : bytes) : bytes :=
  match raw with
  | b :: ((b' :: _) as rest) =>
      if (b =? 0xff) && negb (Z.land b' 0x80 =? 0) then negative_trim rest else raw
  | _ => raw
  end.

Fixpoint nonnegative_raw (room : nat) (n : Z) (raw : bytes) : bytes :=
  match room with
  | O => raw
  | S room' =>
      let raw := conv uint8 n :: raw in
      let n := Z.shiftr n 8 in
      if n =? 0 then raw else nonnegative_raw room' n raw
  end.

Definition integerBytes (value : Z) : bytes :=
  if value <? 0 then negative_trim (negative_raw 8 value [])
  else
    let raw := nonnegative_raw 9 value [] in
    match raw with
    | b :: _ => if negb (Z.land b 0x80 =? 0) then 0 :: raw else raw
    | [] => raw
    end.

(** [decodeInteger[T]]. *)
Fixpoint decodeInteger_loop (value : bytes) (bits : Z) : result Z :=
  match value with
  | [] => Ok bits
  | b :: value' =>
      if bits >? Z.shiftr MaxUint64 8 then Err ErrInvalidInteger
      else decodeInteger_loop value' (Z.lor (conv uint64 (Z.shiftl bits 8)) b)
  end.

Definition decodeInteger (T : inttype) (value : bytes) (maxBytes : Z) : result Z :=
  match value with
  | [] => Err ErrInvalidInteger
  | first :: _ =>
      if len value >? maxBytes
      then Err (BerLimitError "integer bytes" (len value) maxBytes)
      else
        let negative := negb (Z.land first 0x80 =? 0) in
        if (len value >? 9) || ((len value =? 9) && (negative || negb (first =? 0)))
        then Err ErrInvalidInteger
        else
          bits ← decodeInteger_loop value 0;
          if (negative : bool) then
            let bits :=
              if len value <? 8
              then Z.lor bits (conv uint64 (Z.shiftl MaxUint64 (len value * 8)))
              else bits in
            let n := conv int64 bits in
            let converted := conv T n in
            if (converted >=? 0) || negb (conv int64 converted =? n)
            then Err ErrInvalidInteger
            else Ok converted
          else
            let converted := conv T bits in
            if (converted <? 0) || negb (conv uint64 converted =? bits)
            then Err ErrInvalidInteger
            else Ok converted
  end.

(** ** Length bytes as big-endian numbers *)

Lemma len_length_bytes n v : len (length_bytes n v) = Z.of_nat n.
Proof. induction n as [|n IH]; [done|]. simpl. rewrite len_cons, IH. lia. Qed.

Lemma length_bytes_bytes n v : Forall is_byte (length_bytes n v).
Proof.
  induction n as [|n IH]; simpl; constructor; [|done].
  apply (uwrap_range 8). lia.
Qed.

Lemma length_bytes_snoc n v :
  length_bytes (S n) v = length_bytes n (Z.shiftr v 8) ++ [conv uint8 v].
Proof.
  induction n as [|n IH].
  - simpl. by rewrite Z.shiftr_0_r.
  - change (length_bytes (S (S n)) v)
      with (conv uint8 (Z.shiftr v (8 * Z.of_nat (S n))) :: length_bytes (S n) v).
    rewrite IH. simpl. f_equal. f_equal.
    rewrite Z.shiftr_shiftr by lia. f_equal. lia.
Qed.

Lemma be_length_bytes n v : be 256 (length_bytes n v) = v mod 256 ^ Z.of_nat n.
Proof.
  revert v. induction n as [|n IH]; intros v; [by rewrite Z.mod_1_r|].
  rewrite length_bytes_snoc, be_snoc, IH.
  change (conv uint8 v) with (v mod 256).
  rewrite shiftr_div by lia. change (2 ^ 8) with 256.
  rewrite Nat2Z.inj_succ, Z.pow_succ_r by lia.
  rewrite Z.rem_mul_r; lia.
Qed.

(** The bytes of a number are the only ones of that length that denote it. *)
Lemma length_bytes_be ds :
  Forall is_byte ds -> length_bytes (length ds) (be 256 ds) = ds.
Proof.
  induction ds as [|d ds IH] using rev_ind; intros H; [done|].
  apply Forall_app in H as [H Hd]. rewrite Forall_singleton in Hd.
  rewrite length_app, Nat.add_comm, be_snoc.
  change (1 + length ds)%nat with (S (length ds)). rewrite length_bytes_snoc.
  unfold is_byte in Hd. f_equal.
  - rewrite shiftr_div by lia. change (2 ^ 8) with 256.
    rewrite Z.div_add_l, Z.div_small, Z.add_0_r by lia. by apply IH.
  - f_equal. change (conv uint8 (be 256 ds * 256 + d))
      with ((be 256 ds * 256 + d) mod 256).
    rewrite Z.add_comm, Z.mod_add, Z.mod_small; lia.
Qed.

(** The byte count [appendLength] computes is the number of base-256 digits. *)
Lemma byte_count v n :
  0 < n -> 256 ^ (n - 1) <= v < 256 ^ n -> (bits_Len v + 7) / 8 = n.
Proof.
  intros Hn [Hlo Hhi]. unfold bits_Len.
  assert (0 < 256 ^ (n - 1)) by (apply Z.pow_pos_nonneg; lia).
  assert (0 < v) by lia. replace (v =? 0) with false by lia.
  change 256 with (2 ^ 8) in *. rewrite <- Z.pow_mul_r in Hlo, Hhi by lia.
  apply Z.log2_le_pow2 in Hlo; [|lia]. apply Z.log2_lt_pow2 in Hhi; [|lia].
  symmetry. apply Z.div_unique with (r := (Z.log2 v + 1 + 7) - 8 * n); lia.
Qed.

Lemma byte_count_exists v :
  0 < v -> exists n, 0 < n /\ 256 ^ (n - 1) <= v < 256 ^ n.
Proof.
  intros Hv. pose proof (Z.log2_nonneg v). pose proof (Z.log2_spec v Hv) as [Hlo Hhi].
  pose proof (Z.div_mod (Z.log2 v) 8 ltac:(lia)).
  pose proof (Z.mod_pos_bound (Z.log2 v) 8 ltac:(lia)).
  assert (0 <= Z.log2 v / 8) by (apply Z.div_pos; lia).
  exists (Z.log2 v / 8 + 1). split; [lia|].
  change 256 with (2 ^ 8). rewrite <- !Z.pow_mul_r by lia. split.
  - etrans; [|exact Hlo]. apply Z.pow_le_mono_r; lia.
  - eapply Z.lt_le_trans; [exact Hhi|]. apply Z.pow_le_mono_r; lia.
Qed.

Lemma pow256_mono a b : 0 <= a -> a <= b -> 256 ^ a <= 256 ^ b.
Proof. intros. apply Z.pow_le_mono_r; lia. Qed.

Lemma byte_count_le v n k :
  0 < n -> 256 ^ (n - 1) <= v -> v < 256 ^ k -> n <= k.
Proof.
  intros Hn Hlo Hhi. destruct (Z.le_gt_cases n k); [done|exfalso].
  destruct (Z.lt_ge_cases k 0).
  - rewrite (Z.pow_neg_r 256 k) in Hhi by lia.
    assert (0 < 256 ^ (n - 1)) by (apply Z.pow_pos_nonneg; lia). lia.
  - pose proof (pow256_mono k (n - 1)). lia.
Qed.

(** ** Length round trip and canonicity *)

Lemma decodeLength_loop_spec ds v :
  Forall is_byte ds -> 0 <= v -> v * 256 ^ len ds + be 256 ds <= MaxInt ->
  decodeLength_loop ds v = Ok (v * 256 ^ len ds + be 256 ds).
Proof.
  revert v. induction ds as [|d ds IH]; intros v Hds Hv Hmax; simpl.
  - f_equal. rewrite len_nil. unfold be. simpl. lia.
  - inversion_clear Hds as [|? ? Hd Hds']. unfold is_byte in Hd.
    pose proof (be_range 256 ds ltac:(lia) Hds') as Hr.
    rewrite be_cons, len_cons, Z.pow_add_r in Hmax; [|lia|apply len_nonneg].
    assert (1 <= 256 ^ len ds) by (apply (pow256_mono 0); [lia|apply len_nonneg]).
    assert (Z.shiftr MaxInt 8 = 2 ^ 55 - 1) as -> by done. unfold MaxInt in Hmax.
    case_ifs; zbool; [nia|].
    rewrite lor_shiftl_add by lia. change (2 ^ 8) with 256.
    rewrite IH; [|done|lia|unfold MaxInt; nia].
    f_equal. rewrite be_cons, len_cons, Z.pow_add_r; [lia|lia|apply len_nonneg].
Qed.

Lemma decodeLength_loop_inv ds v w :
  Forall is_byte ds -> 0 <= v -> decodeLength_loop ds v = Ok w ->
  w = v * 256 ^ len ds + be 256 ds.
Proof.
  revert v. induction ds as [|d ds IH]; intros v Hds Hv Hw; simpl in Hw.
  - injection Hw as <-. rewrite len_nil. unfold be. simpl. lia.
  - inversion_clear Hds as [|? ? Hd Hds']. unfold is_byte in Hd.
    case_ifs; [done|]. rewrite lor_shiftl_add in Hw by lia.
    change (2 ^ 8) with 256 in Hw. apply IH in Hw; [|done|lia].
    rewrite Hw, be_cons, len_cons, Z.pow_add_r; [lia|lia|apply len_nonneg].
Qed.

Lemma appendLength_dst dst n : appendLength dst n = dst ++ appendLength [] n.
Proof. unfold appendLength. case_ifs; [done|]. by rewrite <- !app_assoc. Qed.

(** The long form of [appendLength], with its number of length bytes. *)
Lemma appendLength_long n :
  128 <= n <= MaxInt -> exists k, 0 < k <= 8 /\ 256 ^ (k - 1) <= n < 256 ^ k /\
    appendLength [] n = Z.lor 0x80 k :: length_bytes (Z.to_nat k) n.
Proof.
  intros Hn. destruct (byte_count_exists n) as (k & Hk & Hlo & Hhi); [lia|].
  assert (k <= 8) by (apply (byte_count_le n); unfold MaxInt in *; lia).
  exists k. split; [lia|]. split; [done|].
  unfold appendLength. replace (n <? 128) with false by lia.
  rewrite (byte_count n k) by lia. simpl. by rewrite conv_uint8_small by lia.
Qed.

(** The first byte of the long form, for the eight counts it can hold. *)
Lemma length_first_byte k :
  0 < k <= 8 -> Z.land (Z.lor 0x80 k) 0x80 = 0x80 /\ Z.land (Z.lor 0x80 k) 0x7f = k.
Proof.
  intros. assert (In k [1; 2; 3; 4; 5; 6; 7; 8]) as Hin by (simpl; lia).
  repeat (destruct Hin as [<-|Hin]; [done|]). destruct Hin.
Qed.

Lemma be_head_zero ds : default 0 (ds !! 0%nat) = 0 ->
  0 < len ds -> Forall is_byte ds -> be 256 ds < 256 ^ (len ds - 1).
Proof.
  intros H0 Hlen Hds. destruct ds as [|d ds]; [done|]. simpl in H0. subst.
  inversion_clear Hds as [|? ? _ Hds']. pose proof (be_range 256 ds ltac:(lia) Hds').
  rewrite be_cons, len_cons. replace (1 + len ds - 1) with (len ds) by lia. lia.
Qed.

Lemma decodeLength_append n rest :
  0 <= n <= MaxInt ->
  decodeLength (appendLength [] n ++ rest) = Ok (n, len (appendLength [] n)).
Proof.
  intros Hn. destruct (Z.lt_ge_cases n 128) as [Hlt|Hge].
  - unfold appendLength. replace (n <? 128) with true by lia. simpl.
    rewrite conv_uint8_small by lia.
    rewrite byte_high by (unfold is_byte; lia). by replace (n <? 128) with true by lia.
  - destruct (appendLength_long n) as (k & Hk & Hkn & ->); [lia|].
    destruct (length_first_byte k Hk) as [H80 H7f]. simpl. rewrite H80, H7f. simpl.
    set (ds := length_bytes (Z.to_nat k) n).
    assert (len ds = k) as Hds by (unfold ds; rewrite len_length_bytes; lia).
    assert (be 256 ds = n) as Hbe.
    { unfold ds. rewrite be_length_bytes, Z2Nat.id, Z.mod_small; lia. }
    assert (Forall is_byte ds) as Hby by apply length_bytes_bytes.
    len_simpl. pose proof (len_nonneg rest).
    replace (k =? 0) with false by lia.
    replace (k >? 1 + (len ds + len rest) - 1) with false by lia.
    replace (k >? 8) with false by lia. simpl.
    destruct ((k >? 1) && _) eqn:Hz.
    + exfalso. zbool. rewrite lookup_app_l in H1 by (unfold len in Hds; lia).
      pose proof (be_head_zero ds H1). rewrite Hds, Hbe in H2. specialize (H2 ltac:(lia) Hby). lia.
    + replace (slice _ 1 (k + 1)) with ds.
      2:{ symmetry. apply (slice_prefix [_] ds rest); len_simpl; lia. }
      rewrite decodeLength_loop_spec; [|done|lia|rewrite Hbe; lia].
      simpl. rewrite Hbe, Z.mul_0_l, Z.add_0_l. replace (n <? 128) with false by lia.
      replace (n >? MaxInt) with false by lia. do 2 f_equal. lia.
Qed.

Lemma be_head_nonzero ds : default 0 (ds !! 0%nat) <> 0 ->
  Forall is_byte ds -> 256 ^ (len ds - 1) <= be 256 ds.
Proof.
  intros H0 Hds. destruct ds as [|d ds]; [done|]. simpl in H0.
  inversion_clear Hds as [|? ? Hd Hds']. pose proof (be_range 256 ds ltac:(lia) Hds').
  unfold is_byte in Hd. rewrite be_cons, len_cons.
  replace (1 + len ds - 1) with (len ds) by lia. nia.
Qed.

(** What [decodeLength] accepts is what [appendLength] writes. *)
Lemma decodeLength_inv data n k :
  Forall is_byte data -> decodeLength data = Ok (n, k) ->
  0 <= n <= MaxInt /\ exists rest, data = appendLength [] n ++ rest /\
    k = len (appendLength [] n).
Proof.
  intros Hb Hd. destruct data as [|first rest]; [done|].
  inversion_clear Hb as [|? ? Hf Hr]. unfold decodeLength in Hd.
  rewrite byte_high in Hd by done. destruct (first <? 128) eqn:Hf128.
  - injection Hd as <- <-. zbool. unfold is_byte in Hf. split; [unfold MaxInt; lia|].
    exists rest. unfold appendLength. replace (first <? 128) with true by lia.
    by rewrite conv_uint8_small by lia.
  - zbool. unfold is_byte in Hf.
    rewrite land_7f in Hd. set (c := first mod 128) in Hd.
    assert (first = 128 + c) as Hc.
    { unfold c. rewrite (Z.div_mod first 128) at 1 by lia.
      rewrite <- (Z.div_unique first 128 1 (first - 128)); lia. }
    assert (0 <= c) by (apply Z.mod_pos_bound; lia). rewrite len_cons in Hd.
    destruct (c =? 0) eqn:?; [done|].
    destruct (c >? _) eqn:?; [done|].
    destruct ((c >? 8) || _) eqn:Hform; [done|]. zbool.
    assert (slice (first :: rest) 1 (c + 1) = take (Z.to_nat c) rest) as Hsl.
    { unfold slice. simpl. rewrite drop_0. f_equal. lia. }
    rewrite Hsl in Hd. set (ds := take (Z.to_nat c) rest) in *.
    assert (Forall is_byte ds) as Hds by (by apply Forall_take).
    assert (len ds = c) as Hlen by (unfold ds, len; rewrite length_take; unfold len in *; lia).
    destruct (decodeLength_loop ds 0) as [v|] eqn:Hv; [|done]. simpl in Hd.
    apply decodeLength_loop_inv in Hv; [|done|lia].
    rewrite Z.mul_0_l, Z.add_0_l in Hv. subst v.
    destruct (_ <? 128) eqn:?; [done|]. destruct (_ >? MaxInt) eqn:?; [done|].
    injection Hd as <- <-. zbool. split; [lia|].
    exists (drop (Z.to_nat c) rest).
    assert (256 ^ (c - 1) <= be 256 ds) as Hlo.
    { destruct H1 as [H1|H1]; zbool.
      - replace c with 1 by lia. change (256 ^ (1 - 1)) with 1. lia.
      - rewrite <- Hlen. apply be_head_nonzero; [|done].
        unfold ds. rewrite lookup_take_lt by lia. done. }
    pose proof (be_range 256 ds ltac:(lia) Hds) as Hr'. rewrite Hlen in Hr'.
    unfold appendLength. replace (be 256 ds <? 128) with false by lia.
    rewrite (byte_count _ c) by lia.
    replace (Z.to_nat c) with (length ds) at 1 3
      by (rewrite <- Hlen; by rewrite len_to_nat).
    rewrite length_bytes_be by done. rewrite conv_uint8_small by lia.
    simpl. split.
    + f_equal.
      * rewrite Hc. change 0x80 with (Z.shiftl 1 7). by rewrite lor_shiftl_add by lia.
      * unfold ds. by rewrite take_drop.
    + rewrite len_cons, Hlen. lia.
Qed.

Lemma lengthLength_loop_spec n : forall fuel v b,
  (n <= fuel)%nat -> (n = 0%nat \/ 256 ^ (Z.of_nat n - 1) <= v) -> 0 <= v < 256 ^ Z.of_nat n ->
  lengthLength_loop fuel v b = b + Z.of_nat n.
Proof.
  induction n as [|n IH]; intros fuel v b Hf Hlo Hhi.
  - assert (v = 0) as -> by (change (256 ^ Z.of_nat 0) with 1 in Hhi; lia).
    destruct fuel; simpl; lia.
  - destruct fuel as [|fuel]; [lia|]. destruct Hlo as [?|Hlo]; [done|].
    replace (Z.of_nat (S n) - 1) with (Z.of_nat n) in Hlo by lia.
    rewrite Nat2Z.inj_succ, Z.pow_succ_r in Hhi by lia.
    assert (0 < 256 ^ Z.of_nat n) by (apply Z.pow_pos_nonneg; lia). simpl.
    replace (v >? 0) with true by lia. rewrite shiftr_div by lia. change (2 ^ 8) with 256.
    rewrite IH; [lia|lia| |].
    + destruct n as [|n]; [by left|right]. apply Z.div_le_lower_bound; [lia|].
      rewrite <- Z.pow_succ_r by lia. etrans; [|exact Hlo]. apply pow256_mono; lia.
    + split; [apply Z.div_pos; lia|apply Z.div_lt_upper_bound; lia].
Qed.

(** [lengthLength] is the number of bytes [appendLength] writes. *)
Lemma lengthLength_correct n :
  0 <= n <= MaxInt -> len (appendLength [] n) = lengthLength n.
Proof.
  intros Hn. unfold lengthLength. destruct (n <? 128) eqn:?; zbool.
  - unfold appendLength. by replace (n <? 128) with true by lia.
  - destruct (appendLength_long n) as (k & Hk & Hkn & ->); [lia|].
    rewrite len_cons, len_length_bytes.
    rewrite (lengthLength_loop_spec (Z.to_nat k)); [lia|lia| |].
    + right. rewrite Z2Nat.id; lia.
    + rewrite Z2Nat.id; lia.
Qed.

(** ** Identifier round trip and canonicity *)

(** The identifiers Go can hold whose class BER can encode. *)
Definition wf_id (id : Identifier) : Prop :=
  0 <= id_Class id <= 3 /\ 0 <= id_Number id < 2 ^ 32.

(** The leading identifier byte for a five-bit tag field. *)
Definition first_byte (c : Class) (constructed : bool) (n : Z) : Z :=
  let first := conv uint8 (Z.shiftl c 6) in
  Z.lor (if constructed then Z.lor first 0x20 else first) n.

Lemma first_byte_fields c k n :
  0 <= c <= 3 -> 0 <= n < 32 ->
  Z.shiftr (first_byte c k n) 6 = c /\
  negb (Z.land (first_byte c k n) 0x20 =? 0) = k /\
  Z.land (first_byte c k n) 0x1f = n.
Proof.
  intros Hc Hn.
  assert (forallb (fun c => forallb (fun k => forallb (fun n =>
    (Z.shiftr (first_byte c k n) 6 =? c) &&
    Bool.eqb (negb (Z.land (first_byte c k n) 0x20 =? 0)) k &&
    (Z.land (first_byte c k n) 0x1f =? n)) (seqZ 0 32)) [true; false]) (seqZ 0 4)
    = true) as H by (vm_compute; reflexivity).
  rewrite forallb_forall in H.
  specialize (H c ltac:(apply list_elem_of_In, elem_of_seqZ; lia)).
  rewrite forallb_forall in H. specialize (H k ltac:(destruct k; simpl; auto)).
  rewrite forallb_forall in H.
  specialize (H n ltac:(apply list_elem_of_In, elem_of_seqZ; lia)).
  zbool. repeat split; auto. by apply Bool.eqb_prop.
Qed.

Lemma first_byte_inv b : is_byte b ->
  first_byte (Z.shiftr b 6) (negb (Z.land b 0x20 =? 0)) (Z.land b 0x1f) = b /\
  0 <= Z.shiftr b 6 <= 3 /\ 0 <= Z.land b 0x1f < 32.
Proof.
  intros. byte_enum (fun b =>
    (first_byte (Z.shiftr b 6) (negb (Z.land b 0x20 =? 0)) (Z.land b 0x1f) =? b) &&
    ((0 <=? Z.shiftr b 6) && (Z.shiftr b 6 <=? 3)) &&
    ((0 <=? Z.land b 0x1f) && (Z.land b 0x1f <? 32))) b.
  zbool. lia.
Qed.

Lemma appendIdentifier_dst dst id :
  appendIdentifier dst id = dst ++ appendIdentifier [] id.
Proof. unfold appendIdentifier. case_ifs; by rewrite <- ?app_assoc. Qed.

Lemma appendIdentifier_low c k n :
  0 <= n < 31 -> appendIdentifier [] (MkId c k n) = [first_byte c k n].
Proof.
  intros. unfold appendIdentifier, first_byte. cbn [id_Number id_Class id_Constructed app].
  replace (n <? 31) with true by lia. by rewrite (conv_uint8_small n) by lia.
Qed.

Lemma appendIdentifier_high c k n :
  31 <= n -> appendIdentifier [] (MkId c k n) =
    first_byte c k 0x1f :: continuation_bits (identifier_groups 5 n []).
Proof.
  intros. unfold appendIdentifier, first_byte. cbn [id_Number id_Class id_Constructed app].
  by replace (n <? 31) with false by lia.
Qed.

Abbreviation septet := (fun d : Z => 0 <= d < 128).

(** One round of the group loop. *)
Lemma identifier_groups_step room v d acc :
  0 <= v -> septet d ->
  identifier_groups (S room) (v * 128 + d) acc =
    if v =? 0 then d :: acc else identifier_groups room v (d :: acc).
Proof.
  intros Hv Hd. cbv beta in Hd. simpl. rewrite land_7f, shiftr_div by lia. change (2 ^ 7) with 128.
  replace ((v * 128 + d) mod 128) with d
    by (rewrite Z.add_comm, Z.mod_add, Z.mod_small; lia).
  rewrite Z.div_add_l, (Z.div_small d), Z.add_0_r by lia.
  by rewrite conv_uint8_small by lia.
Qed.

(** The group loop computes the base-128 digits without leading zeros. *)
Lemma identifier_groups_be ds : forall room acc,
  Forall septet ds -> ds <> [] -> (length ds <= room)%nat ->
  (length ds = 1%nat \/ default 0 (ds !! 0%nat) <> 0) ->
  identifier_groups room (be 128 ds) acc = ds ++ acc.
Proof.
  induction ds as [|d ds IH] using rev_ind; intros room acc Hds Hne Hlen Hhd; [done|].
  apply Forall_app in Hds as [Hds Hd]. rewrite Forall_singleton in Hd.
  cbv beta in Hd. rewrite length_app in *. simpl in *. destruct room as [|room]; [lia|].
  pose proof (be_range 128 ds ltac:(lia) Hds).
  rewrite be_snoc, identifier_groups_step by (done || lia).
  destruct ds as [|d0 ds]; [done|]. destruct Hhd as [?|Hhd]; [simpl in *; lia|].
  simpl in Hhd. inversion_clear Hds as [|? ? Hd0 Hds']. cbv beta in Hd0.
  assert (be 128 (d0 :: ds) <> 0).
  { rewrite be_cons. pose proof (be_range 128 ds ltac:(lia) Hds').
    assert (0 < 128 ^ len ds) by (apply Z.pow_pos_nonneg; [lia|apply len_nonneg]). nia. }
  replace (be 128 (d0 :: ds) =? 0) with false by lia.
  rewrite IH; [by rewrite <- app_assoc|by constructor|done|lia|by right].
Qed.

(** Every 32-bit number has such digits, five at most. *)
Lemma base128_digits room : forall v,
  0 <= v < 128 ^ Z.of_nat room -> (0 < room)%nat ->
  exists ds, Forall septet ds /\ ds <> [] /\ (length ds <= room)%nat /\
    (v = 0 \/ default 0 (ds !! 0%nat) <> 0) /\ be 128 ds = v.
Proof.
  induction room as [|room IH]; intros v Hv Hr; [lia|].
  rewrite Nat2Z.inj_succ, Z.pow_succ_r in Hv by lia.
  pose proof (Z.div_mod v 128 ltac:(lia)) as Hdm.
  pose proof (Z.mod_pos_bound v 128 ltac:(lia)) as Hm.
  destruct (decide (v < 128)) as [Hs|Hs].
  - exists [v]. split; [constructor; [lia|done]|]. split; [done|]. simpl.
    split; [lia|]. split; [lia|]. unfold be. simpl. lia.
  - destruct room as [|room]; [change (128 ^ Z.of_nat 0) with 1 in Hv; lia|].
    destruct (IH (v / 128)) as (ds & H1 & H2 & H3 & H4 & H5).
    + split; [apply Z.div_pos; lia|apply Z.div_lt_upper_bound; lia].
    + lia.
    + exists (ds ++ [v mod 128]). split; [apply Forall_app; split; [done|by constructor]|].
      split; [by destruct ds|]. rewrite length_app. simpl. split; [lia|].
      split; [right; destruct ds; [done|simpl in *; lia]|]. rewrite be_snoc. lia.
Qed.

Lemma septet_continuation d : septet d ->
  Z.land (Z.lor d 0x80) 0x7f = d /\ (Z.land (Z.lor d 0x80) 0x80 =? 0) = false /\
  is_byte (Z.lor d 0x80) /\ Z.land d 0x7f = d /\ (Z.land d 0x80 =? 0) = true.
Proof.
  intros Hd. cbv beta in *. assert (is_byte d) by (unfold is_byte; lia).
  byte_enum (fun d => negb (d <? 128) || ((Z.land (Z.lor d 0x80) 0x7f =? d) &&
    negb (Z.land (Z.lor d 0x80) 0x80 =? 0) &&
    ((0 <=? Z.lor d 0x80) && (Z.lor d 0x80 <? 256)) &&
    (Z.land d 0x7f =? d) && (Z.land d 0x80 =? 0))) d.
  apply orb_true_iff in H0 as [H0|H0]; [apply negb_true_iff in H0; zbool; lia|].
  rewrite !andb_true_iff, negb_true_iff, !Z.eqb_eq, Z.leb_le, Z.ltb_lt in H0.
  destruct H0 as ((((H1 & H2) & H3) & H4) & H5). unfold is_byte.
  rewrite H5. repeat split; auto; lia.
Qed.

Lemma len_continuation_bits ds : len (continuation_bits ds) = len ds.
Proof.
  induction ds as [|d [|d' ds] IH]; [done|done|].
  change (continuation_bits (d :: d' :: ds))
    with (Z.lor d 0x80 :: continuation_bits (d' :: ds)).
  by rewrite len_cons, IH, (len_cons d).
Qed.

(** The tag loop accumulates the digits and stops after the last one. *)
Lemma decodeIdentifier_loop_digits ds : forall i v m id rest,
  Forall septet ds -> ds <> [] -> 0 <= v -> 0 < i ->
  (i = 1 -> default 0 (ds !! 0%nat) <> 0) ->
  let n := v * 128 ^ len ds + be 128 ds in
  31 <= n < 2 ^ 32 -> n <= m ->
  decodeIdentifier_loop (continuation_bits ds ++ rest) i v m id =
    Ok (MkId (id_Class id) (id_Constructed id) n, i + len ds).
Proof.
  induction ds as [|d ds IH]; intros i v m id rest Hds Hne Hv Hi Hhd n Hn Hm; [done|].
  inversion_clear Hds as [|? ? Hd Hds']. simpl in Hhd. cbv beta in Hd.
  destruct (septet_continuation d Hd) as (H1 & H2 & _ & H3 & H4).
  pose proof (be_range 128 ds ltac:(lia) Hds') as Hr.
  assert (1 <= 128 ^ len ds) as Hp.
  { change 1 with (128 ^ 0). apply Z.pow_le_mono_r; [lia|apply len_nonneg]. }
  assert (n = (v * 128 + d) * 128 ^ len ds + be 128 ds) as En.
  { unfold n. rewrite be_cons, len_cons, Z.pow_add_r; [lia|lia|apply len_nonneg]. }
  clearbody n.
  assert (Z.shiftr MaxUint32 7 = 2 ^ 25 - 1) as Hmax by done.
  assert (Z.lor (Z.shiftl v 7) d = v * 128 + d) as Hlor by (by apply lor_shiftl_add).
  assert (forall b, b = d -> ((i =? 1) && (b =? 0)) = false) as Hfirst.
  { intros b ->. destruct (i =? 1) eqn:Ei; [|done]. zbool.
    specialize (Hhd Ei). simpl. lia. }
  destruct ds as [|d' ds].
  - simpl. rewrite H3, H4, Hfirst, Hmax, Hlor by done.
    rewrite len_nil in En. unfold be in En. simpl in En.
    replace (v >? 2 ^ 25 - 1) with false by lia.
    replace (v * 128 + d >? m) with false by lia.
    replace (v * 128 + d <? 31) with false by lia.
    rewrite conv_id; [|done|apply in_uint32; lia].
    replace (v * 128 + d) with n by lia. done.
  - change (continuation_bits (d :: d' :: ds) ++ rest)
      with (Z.lor d 0x80 :: (continuation_bits (d' :: ds) ++ rest)).
    cbn [decodeIdentifier_loop]. rewrite H1, H2, Hfirst, Hmax, Hlor by done.
    replace (v >? 2 ^ 25 - 1) with false by nia.
    replace (v * 128 + d >? m) with false by nia.
    rewrite IH; [|done|done|lia|lia|lia|lia|lia].
    rewrite <- En. do 2 f_equal. rewrite (len_cons d). lia.
Qed.

Lemma decodeIdentifier_append id m rest :
  wf_id id -> (id_Number id < 31 \/ id_Number id <= m) ->
  decodeIdentifier (appendIdentifier [] id ++ rest) m =
    Ok (id, len (appendIdentifier [] id)).
Proof.
  destruct id as [c k n]. intros [Hc Hn] Hm. simpl in *.
  destruct (Z.lt_ge_cases n 31) as [Hlt|Hge].
  - rewrite appendIdentifier_low by lia. simpl.
    destruct (first_byte_fields c k n) as (-> & -> & ->); [lia|lia|].
    by replace (n =? 31) with false by lia.
  - rewrite appendIdentifier_high by lia.
    destruct (base128_digits 5 n) as (ds & H1 & H2 & H3 & H4 & H5); [lia|lia|].
    destruct H4 as [?|H4]; [lia|]. rewrite <- H5.
    rewrite identifier_groups_be, app_nil_r by auto.
    unfold decodeIdentifier. cbn [app].
    destruct (first_byte_fields c k 0x1f) as (-> & -> & ->); [lia|lia|].
    rewrite !len_cons, len_app, len_continuation_bits.
    cbn [id_Number Z.eqb negb].
    assert (0 < len ds) by (destruct ds; [done|unfold len; simpl; lia]).
    pose proof (len_nonneg rest).
    replace (1 + (len ds + len rest) =? 1) with false by lia.
    rewrite decodeIdentifier_loop_digits by (auto || lia).
    by rewrite Z.mul_0_l, Z.add_0_l.
Qed.

(** What the tag loop accepts: minimal base-128 digits. *)
Lemma decodeIdentifier_loop_inv data : forall i v m id id' k,
  Forall is_byte data -> 0 <= v -> 0 < i ->
  decodeIdentifier_loop data i v m id = Ok (id', k) ->
  exists ds rest, data = continuation_bits ds ++ rest /\ k = i + len ds /\
    Forall septet ds /\ ds <> [] /\ (i = 1 -> default 0 (ds !! 0%nat) <> 0) /\
    let n := v * 128 ^ len ds + be 128 ds in
    id' = MkId (id_Class id) (id_Constructed id) n /\ 31 <= n < 2 ^ 32 /\ n <= m.
Proof.
  induction data as [|b data IH]; intros i v m id id' k Hb Hv Hi Hd; [done|].
  inversion_clear Hb as [|? ? Hbb Hb']. cbn [decodeIdentifier_loop] in Hd.
  rewrite land_7f, byte_high in Hd by done.
  set (d := b mod 128) in Hd. assert (septet d) as Hdr by (apply Z.mod_pos_bound; lia).
  cbv beta in Hdr. rewrite lor_shiftl_add in Hd by lia. change (2 ^ 7) with 128 in Hd.
  destruct ((i =? 1) && _) eqn:H1; [done|].
  destruct (v >? _) eqn:H2; [done|]. destruct (_ >? m) eqn:H3; [done|].
  assert (i = 1 -> d <> 0) as Hhd by (intros ->; zbool; destruct H1; zbool; lia).
  zbool. change (Z.shiftr MaxUint32 7) with (2 ^ 25 - 1) in H2.
  unfold is_byte in Hbb. destruct (b <? 128) eqn:Hb128; zbool.
  - destruct (_ <? 31) eqn:H4; [done|]. injection Hd as <- <-. zbool.
    assert (d = b) as Hdb by (apply Z.mod_small; lia). clearbody d. subst d.
    exists [b], data. rewrite len_cons, len_nil. unfold be. simpl.
    rewrite conv_id; [|done|apply in_uint32; lia].
    replace (v * 128 ^ (1 + 0) + (0 * 128 + b)) with (v * 128 + b) by lia.
    repeat split; auto; lia.
  - assert (b = Z.lor d 0x80) as Hbd.
    { change 0x80 with (Z.shiftl 1 7). rewrite Z.lor_comm, lor_shiftl_add by lia.
      unfold d. rewrite (Z.div_mod b 128) at 1 by lia.
      rewrite <- (Z.div_unique b 128 1 (b - 128)); lia. }
    apply IH in Hd as (ds & rest & -> & -> & Hds & Hne & _ & Hn & Hr & Hm); [|done|lia|lia].
    exists (d :: ds), rest. rewrite be_cons, len_cons, Z.pow_add_r; [|lia|apply len_nonneg].
    replace (v * (128 ^ 1 * 128 ^ len ds) + (d * 128 ^ len ds + be 128 ds))
      with ((v * 128 + d) * 128 ^ len ds + be 128 ds) by lia.
    split; [destruct ds; [done|by rewrite Hbd]|].
    repeat split; auto; lia.
Qed.

(** What [decodeIdentifier] accepts is what [appendIdentifier] writes. *)
Lemma decodeIdentifier_inv data m id k :
  Forall is_byte data -> decodeIdentifier data m = Ok (id, k) ->
  wf_id id /\ (id_Number id < 31 \/ id_Number id <= m) /\
  exists rest, data = appendIdentifier [] id ++ rest /\ k = len (appendIdentifier [] id).
Proof.
  intros Hb Hd. destruct data as [|first data]; [done|].
  inversion_clear Hb as [|? ? Hf Hr]. destruct (first_byte_inv first Hf) as (Hfb & Hc & Hn).
  unfold decodeIdentifier in Hd. cbn [id_Number] in Hd.
  destruct (negb _) eqn:Hlow.
  - apply negb_true_iff in Hlow. zbool. injection Hd as <- <-. unfold wf_id. simpl.
    split; [lia|]. split; [lia|]. exists data.
    rewrite appendIdentifier_low by lia. by rewrite Hfb.
  - apply negb_false_iff in Hlow. zbool. destruct (len _ =? 1); [done|].
    apply decodeIdentifier_loop_inv in Hd
      as (ds & rest & -> & -> & Hds & Hne & Hhd & -> & Hrange & Hm); [|done|lia|lia].
    cbn [id_Class id_Constructed id_Number] in *.
    rewrite Z.mul_0_l, Z.add_0_l in *. unfold wf_id. simpl.
    split; [lia|]. split; [lia|]. exists rest.
    assert ((length ds <= 5)%nat) as Hlen.
    { destruct ds as [|d ds]; [done|]. inversion_clear Hds as [|? ? Hd Hds'].
      pose proof (be_range 128 ds ltac:(lia) Hds'). specialize (Hhd eq_refl). simpl in Hhd.
      rewrite be_cons in Hrange. cbv beta in Hd.
      destruct (Nat.le_gt_cases (length (d :: ds)) 5); [done|exfalso].
      assert (128 ^ 5 <= 128 ^ len ds).
      { apply Z.pow_le_mono_r; [lia|]. unfold len. simpl in *. lia. } nia. }
    rewrite appendIdentifier_high by lia.
    rewrite identifier_groups_be, app_nil_r by auto.
    rewrite Hlow in Hfb. rewrite Hfb. split; [done|].
    rewrite len_cons, len_continuation_bits. lia.
Qed.

Lemma identifierLength_loop_digits ds : forall fuel n,
  Forall septet ds -> ds <> [] -> (length ds <= fuel)%nat ->
  (length ds = 1%nat \/ default 0 (ds !! 0%nat) <> 0) ->
  identifierLength_loop fuel (be 128 ds) n = n + len ds.
Proof.
  induction ds as [|d ds IH] using rev_ind; intros fuel n Hds Hne Hlen Hhd; [done|].
  apply Forall_app in Hds as [Hds Hd]. rewrite Forall_singleton in Hd. cbv beta in Hd.
  rewrite length_app in *. simpl in *. destruct fuel as [|fuel]; [lia|].
  rewrite be_snoc, len_app. simpl. pose proof (be_range 128 ds ltac:(lia) Hds).
  destruct ds as [|d0 ds].
  - unfold be. simpl. replace (0 * 128 + d <? 128) with true by lia. done.
  - destruct Hhd as [?|Hhd]; [simpl in *; lia|]. simpl in Hhd.
    assert (1 <= be 128 (d0 :: ds)).
    { inversion_clear Hds as [|? ? Hd0 Hds']. cbv beta in Hd0. rewrite be_cons.
      pose proof (be_range 128 ds ltac:(lia) Hds').
      assert (0 < 128 ^ len ds) by (apply Z.pow_pos_nonneg; [lia|apply len_nonneg]). nia. }
    replace (_ <? 128) with false by lia. rewrite shiftr_div by lia. change (2 ^ 7) with 128.
    rewrite Z.div_add_l, (Z.div_small d), Z.add_0_r by lia.
    rewrite IH; [rewrite !len_cons, len_nil; lia|done|done|lia|by right].
Qed.

(** [identifierLength] is the number of bytes [appendIdentifier] writes. *)
Lemma identifierLength_correct id :
  wf_id id -> len (appendIdentifier [] id) = identifierLength id.
Proof.
  destruct id as [c k n]. intros [Hc Hn]. unfold identifierLength.
  cbn [id_Class id_Constructed id_Number] in *. destruct (n <? 31) eqn:Hlow; zbool.
  - by rewrite appendIdentifier_low by lia.
  - rewrite appendIdentifier_high by lia.
    destruct (base128_digits 5 n) as (ds & H1 & H2 & H3 & H4 & H5); [lia|lia|].
    destruct H4 as [?|H4]; [lia|]. rewrite <- H5.
    rewrite identifier_groups_be, app_nil_r, len_cons, len_continuation_bits by auto.
    rewrite identifierLength_loop_digits by auto. lia.
Qed.

Lemma appendIdentifier_nonempty id : 0 < len (appendIdentifier [] id).
Proof.
  unfold appendIdentifier. case_ifs; len_simpl;
    pose proof (len_nonneg (continuation_bits (identifier_groups 5 (id_Number id) []))); lia.
Qed.

Lemma appendLength_nonempty n : 0 < len (appendLength [] n).
Proof. unfold appendLength. case_ifs; len_simpl; try rewrite len_length_bytes; lia. Qed.

(** ** Integers are two's complement *)

(** The value of a big-endian two's complement number. *)
Definition twos (ds : bytes) : Z :=
  if default 0 (ds !! 0%nat) <? 128 then be 256 ds else be 256 ds - 256 ^ len ds.

Lemma negative_raw_bytes room : forall n raw,
  negative_raw room n raw = length_bytes room n ++ raw.
Proof.
  induction room as [|room IH]; intros n raw; [done|].
  cbn [negative_raw]. rewrite IH, length_bytes_snoc, <- app_assoc. done.
Qed.

Lemma nonnegative_raw_bytes room : forall n raw,
  (0 < room)%nat -> 0 <= n < 256 ^ Z.of_nat room ->
  exists k, (0 < k <= room)%nat /\ nonnegative_raw room n raw = length_bytes k n ++ raw /\
    n < 256 ^ Z.of_nat k /\ (k = 1%nat \/ 256 ^ (Z.of_nat k - 1) <= n).
Proof.
  induction room as [|room IH]; intros n raw Hr Hn; [lia|].
  rewrite Nat2Z.inj_succ, Z.pow_succ_r in Hn by lia. cbn [nonnegative_raw].
  rewrite shiftr_div by lia. change (2 ^ 8) with 256.
  pose proof (Z.div_mod n 256 ltac:(lia)). pose proof (Z.mod_pos_bound n 256 ltac:(lia)).
  destruct (n / 256 =? 0) eqn:E; zbool.
  - exists 1%nat. split; [lia|]. split; [|lia].
    simpl. by rewrite Z.shiftr_0_r.
  - destruct room as [|room]; [change (256 ^ Z.of_nat 0) with 1 in Hn; nia|].
    destruct (IH (n / 256) (conv uint8 n :: raw)) as (k & Hk & -> & Hhi & Hlo).
    + lia.
    + split; [apply Z.div_pos; lia|apply Z.div_lt_upper_bound; lia].
    + exists (S k). split; [lia|]. rewrite length_bytes_snoc, <- app_assoc.
      rewrite shiftr_div by lia. split; [done|].
      rewrite Nat2Z.inj_succ, Z.pow_succ_r by lia. split; [nia|]. right.
      replace (Z.succ (Z.of_nat k) - 1) with (Z.succ (Z.of_nat k - 1)) by lia.
      rewrite Z.pow_succ_r by lia. destruct Hlo as [->|Hlo]; [simpl; lia|nia].
Qed.

Lemma twos_trim ds : Forall is_byte ds -> ds <> [] ->
  twos (negative_trim ds) = twos ds /\ Forall is_byte (negative_trim ds) /\
  1 <= len (negative_trim ds) <= len ds /\
  (default 0 (ds !! 0%nat) <? 128) = (default 0 (negative_trim ds !! 0%nat) <? 128).
Proof.
  induction ds as [|b [|b' ds] IH]; intros Hds Hne; [done|done|].
  inversion_clear Hds as [|? ? Hb Hds'].
  change (negative_trim (b :: b' :: ds)) with
    (if (b =? 0xff) && negb (Z.land b' 0x80 =? 0) then negative_trim (b' :: ds)
     else b :: b' :: ds).
  pose proof (Forall_inv Hds') as Hb'. rewrite byte_high by done.
  pose proof (len_nonneg ds).
  destruct ((b =? 255) && _) eqn:E.
  - zbool. subst b. apply negb_true_iff in H1. zbool.
    destruct IH as (H2 & H3 & H4 & H5); [done|done|].
    rewrite H2. split; [|split; [done|split]].
    + unfold twos. simpl. replace (b' <? 128) with false by lia.
      change (255 <? 128) with false. rewrite (be_cons 256 255), (len_cons 255).
      rewrite Z.pow_add_r; [lia|lia|apply len_nonneg].
    + rewrite (len_cons 255). lia.
    + rewrite <- H5. simpl. by replace (b' <? 128) with false by lia.
  - split; [done|]. split; [by constructor|]. len_simpl. split; [lia|done].
Qed.

(** The head byte of [n] bytes holding [v] is [v]'s top byte. *)
Lemma length_bytes_head n v :
  (0 < n)%nat -> 0 <= v < 256 ^ Z.of_nat n ->
  (default 0 (length_bytes n v !! 0%nat) <? 128) = (2 * v <? 256 ^ Z.of_nat n).
Proof.
  intros Hn Hv. destruct n as [|n]; [lia|]. simpl.
  rewrite shiftr_div by lia. rewrite Z.pow_mul_r by lia. change (2 ^ 8) with 256.
  rewrite Nat2Z.inj_succ, Z.pow_succ_r in * by lia.
  assert (0 < 256 ^ Z.of_nat n) by (apply Z.pow_pos_nonneg; lia).
  assert (0 <= v / 256 ^ Z.of_nat n < 256).
  { split; [apply Z.div_pos; lia|apply Z.div_lt_upper_bound; lia]. }
  rewrite conv_uint8_small by lia.
  pose proof (Z.div_mod v (256 ^ Z.of_nat n) ltac:(lia)).
  pose proof (Z.mod_pos_bound v (256 ^ Z.of_nat n) ltac:(lia)).
  destruct (_ <? 128) eqn:E1; destruct (2 * v <? _) eqn:E2; zbool; try done; nia.
Qed.

(** [integerBytes] writes the two's complement form of every Go integer, in at
    most eight bytes when it fits an [int64] and at most nine otherwise. *)
Lemma integerBytes_twos v :
  - 2 ^ 63 <= v < 2 ^ 64 ->
  let ds := integerBytes v in
  twos ds = v /\ Forall is_byte ds /\ 1 <= len ds <= 9 /\
  (v < 2 ^ 63 -> len ds <= 8) /\ (len ds = 9 -> default 0 (ds !! 0%nat) = 0).
Proof.
  intros Hv ds. unfold ds, integerBytes. destruct (v <? 0) eqn:Hneg; zbool.
  - rewrite negative_raw_bytes, app_nil_r.
    destruct (twos_trim (length_bytes 8 v)) as (H1 & H2 & H3 & _).
    { apply length_bytes_bytes. } { done. }
    rewrite len_length_bytes in H3. rewrite H1. split; [|repeat split; auto; lia].
    assert (length_bytes 8 v = length_bytes 8 (v + 2 ^ 64)) as ->.
    { rewrite <- (length_bytes_be (length_bytes 8 v)) by apply length_bytes_bytes.
      rewrite <- (length_bytes_be (length_bytes 8 (v + 2 ^ 64))) by apply length_bytes_bytes.
      change (length (length_bytes 8 v)) with 8%nat.
      change (length (length_bytes 8 (v + 2 ^ 64))) with 8%nat.
      f_equal. rewrite !be_length_bytes.
      change (256 ^ Z.of_nat 8) with (2 ^ 64).
      by rewrite <- Z.add_mod_idemp_r, Z.mod_same, Z.add_0_r by lia. }
    unfold twos. rewrite length_bytes_head, be_length_bytes, len_length_bytes; [|lia|].
    + change (256 ^ Z.of_nat 8) with (2 ^ 64). rewrite Z.mod_small by lia.
      replace (_ <? _) with false by lia. lia.
    + change (256 ^ Z.of_nat 8) with (2 ^ 64). lia.
  - destruct (nonnegative_raw_bytes 9 v []) as (k & Hk & Hraw & Hhi & Hlo); [lia| |].
    { change (256 ^ Z.of_nat 9) with (2 ^ 72). lia. }
    rewrite app_nil_r in Hraw. rewrite Hraw.
    assert (Z.of_nat k <= 8) as Hk8.
    { destruct Hlo as [->|Hlo]; [lia|]. apply (byte_count_le v); [lia|done|].
      change (256 ^ 8) with (2 ^ 64). lia. }
    pose proof (length_bytes_head k v ltac:(lia) ltac:(lia)) as Hhead.
    pose proof (be_length_bytes k v) as Hbe. rewrite Z.mod_small in Hbe by lia.
    pose proof (len_length_bytes k v) as Hlen. pose proof (length_bytes_bytes k v) as Hby.
    destruct (length_bytes k v) as [|b raw] eqn:Hl; [unfold len in Hlen; simpl in Hlen; lia|].
    rewrite byte_high by (by apply Forall_inv in Hby). simpl in Hhead.
    destruct (b <? 128) eqn:Hb; simpl.
    + unfold twos. simpl. rewrite Hb, Hlen. repeat split; auto; lia.
    + assert (v < 2 ^ 63 -> Z.of_nat k <= 7) as Hk7.
      { intros. symmetry in Hhead. apply Z.ltb_ge in Hhead.
        destruct (Z.le_gt_cases (Z.of_nat k) 7); [done|].
        replace (Z.of_nat k) with 8 in Hhead by lia. change (256 ^ 8) with (2 ^ 64) in Hhead. lia. }
      unfold twos. rewrite (be_cons 256 0), (len_cons 0), Hlen, Hbe. simpl.
      change (0 <? 128) with true. repeat split; auto; try lia.
      by constructor; [unfold is_byte; lia|].
Qed.

Lemma decodeInteger_loop_spec ds : forall v,
  Forall is_byte ds -> 0 <= v -> v * 256 ^ len ds + be 256 ds < 2 ^ 64 ->
  decodeInteger_loop ds v = Ok (v * 256 ^ len ds + be 256 ds).
Proof.
  induction ds as [|d ds IH]; intros v Hds Hv Hmax; simpl.
  - f_equal. rewrite len_nil. unfold be. simpl. lia.
  - inversion_clear Hds as [|? ? Hd Hds']. unfold is_byte in Hd.
    pose proof (be_range 256 ds ltac:(lia) Hds') as Hr.
    rewrite be_cons, len_cons, Z.pow_add_r in Hmax; [|lia|apply len_nonneg].
    assert (1 <= 256 ^ len ds) by (apply (pow256_mono 0); [lia|apply len_nonneg]).
    change (Z.shiftr MaxUint64 8) with (2 ^ 56 - 1).
    destruct (_ >? _) eqn:E; zbool; [nia|].
    rewrite conv_id; [|done|apply in_uint64; rewrite Z.shiftl_mul_pow2; lia].
    rewrite lor_shiftl_add by lia. change (2 ^ 8) with 256.
    rewrite IH; [|done|lia|nia].
    f_equal. rewrite be_cons, len_cons, Z.pow_add_r; [lia|lia|apply len_nonneg].
Qed.

(** Narrowing to a Go type keeps a negative value exactly when it is one of the
    type's values, and likewise a nonnegative one. *)
Lemma narrow_negative T n :
  go_type T = true -> - 2 ^ 63 <= n < 0 ->
  ((conv T n >=? 0) || negb (conv int64 (conv T n) =? n)) = negb (in_type T n).
Proof.
  intros HT Hn. destruct (in_type T n) eqn:E.
  - rewrite (conv_id T n) by done. rewrite (conv_id int64 n); [|done|apply in_int64; lia].
    replace (n =? n) with true by lia. rewrite orb_false_r. lia.
  - destruct (conv T n >=? 0) eqn:E0; [done|]. cbn [orb negb].
    destruct (_ =? n) eqn:E1; [|done]. exfalso. zbool.
    pose proof (conv_in_type T n HT) as Hin. pose proof (go_type_pos T HT).
    assert (conv T n < 0) by lia.
    rewrite conv_id in E1; [rewrite E1 in Hin; congruence|done|]. apply in_int64.
    unfold in_type in Hin. destruct (it_signed T); zbool; [|lia].
    assert (2 ^ (it_bits T - 1) <= 2 ^ 63) by (apply Z.pow_le_mono_r; lia). lia.
Qed.

Lemma narrow_nonnegative T n :
  go_type T = true -> 0 <= n < 2 ^ 64 ->
  ((conv T n <? 0) || negb (conv uint64 (conv T n) =? n)) = negb (in_type T n).
Proof.
  intros HT Hn. destruct (in_type T n) eqn:E.
  - rewrite (conv_id T n) by done. rewrite (conv_id uint64 n); [|done|apply in_uint64; lia].
    replace (n =? n) with true by lia. rewrite orb_false_r. lia.
  - destruct (conv T n <? 0) eqn:E0; [done|]. cbn [orb negb].
    destruct (_ =? n) eqn:E1; [|done]. exfalso. zbool.
    pose proof (conv_in_type T n HT) as Hin. pose proof (go_type_pos T HT).
    rewrite conv_id in E1; [rewrite E1 in Hin; congruence|done|]. apply in_uint64.
    unfold in_type in Hin.
    assert (2 ^ (it_bits T - 1) <= 2 ^ 64) by (apply Z.pow_le_mono_r; lia).
    assert (2 ^ it_bits T <= 2 ^ 64) by (apply Z.pow_le_mono_r; lia).
    destruct (it_signed T); zbool; lia.
Qed.

Lemma twos_range ds : Forall is_byte ds -> ds <> [] ->
  let h := default 0 (ds !! 0%nat) in
  (h < 128 -> 0 <= twos ds < 256 ^ len ds) /\
  (128 <= h -> - 256 ^ len ds <= 2 * twos ds < 0).
Proof.
  intros Hds Hne h. unfold twos, h. destruct ds as [|d ds]; [done|]. simpl.
  inversion_clear Hds as [|? ? Hd Hds']. unfold is_byte in Hd.
  pose proof (be_range 256 ds ltac:(lia) Hds') as Hr.
  rewrite be_cons, len_cons, Z.pow_add_r; [|lia|apply len_nonneg].
  split; intros; case_ifs; zbool; try lia; nia.
Qed.

(** Sign extension of a short negative number to 64 bits. *)
Lemma sign_fill v n :
  0 < n < 8 -> 0 <= v < 256 ^ n ->
  Z.lor v (conv uint64 (Z.shiftl MaxUint64 (n * 8))) = v + (2 ^ 64 - 256 ^ n).
Proof.
  intros Hn Hv. rewrite Z.shiftl_mul_pow2 by lia.
  assert (256 ^ n = 2 ^ (n * 8)) as Hp.
  { change 256 with (2 ^ 8). rewrite <- Z.pow_mul_r by lia. f_equal. lia. }
  rewrite Hp in *.
  assert (2 ^ 64 = 2 ^ (64 - n * 8) * 2 ^ (n * 8)) as H64.
  { rewrite <- Z.pow_add_r by lia. f_equal. lia. }
  assert (conv uint64 (MaxUint64 * 2 ^ (n * 8)) = Z.shiftl (2 ^ (64 - n * 8) - 1) (n * 8)) as ->.
  { rewrite Z.shiftl_mul_pow2 by lia.
    change (conv uint64 ?x) with (x mod 2 ^ 64).
    replace (MaxUint64 * 2 ^ (n * 8))
      with (((2 ^ (64 - n * 8) - 1) * 2 ^ (n * 8)) + (2 ^ (n * 8) - 1) * 2 ^ 64)
      by (unfold MaxUint64; nia).
    rewrite Z.mod_add by lia. apply Z.mod_small.
    assert (0 < 2 ^ (64 - n * 8)) by (apply Z.pow_pos_nonneg; lia).
    assert (0 < 2 ^ (n * 8)) by (apply Z.pow_pos_nonneg; lia). nia. }
  rewrite Z.lor_comm, lor_shiftl_add by lia. lia.
Qed.

(** The reference meaning of [decodeInteger]. *)
Definition integer_spec (T : inttype) (value : bytes) (maxBytes : Z) : result Z :=
  if len value =? 0 then Err ErrInvalidInteger
  else if len value >? maxBytes
  then Err (BerLimitError "integer bytes" (len value) maxBytes)
  else if (len value >? 9) || ((len value =? 9) && negb (default 0 (value !! 0%nat) =? 0))
  then Err ErrInvalidInteger
  else if in_type T (twos value) then Ok (twos value) else Err ErrInvalidInteger.

Lemma decodeInteger_eq T value maxBytes :
  go_type T = true -> Forall is_byte value ->
  decodeInteger T value maxBytes = integer_spec T value maxBytes.
Proof.
  intros HT Hb. destruct value as [|first rest]; [done|].
  pose proof (Forall_inv Hb) as Hf. pose proof (len_nonneg rest).
  pose proof (twos_range (first :: rest) Hb ltac:(done)) as [Hpos Hneg]. simpl in Hpos, Hneg.
  unfold decodeInteger, integer_spec. change (default 0 ((first :: rest) !! 0%nat)) with first.
  set (value := first :: rest) in *.
  assert (len value = 1 + len rest) as Hlen by apply len_cons.
  replace (len value =? 0) with false by lia.
  destruct (len value >? maxBytes); [done|]. rewrite byte_high by done.
  replace (negb (first <? 128) || negb (first =? 0)) with (negb (first =? 0))
    by (unfold is_byte in Hf; lia).
  destruct ((len value >? 9) || _) eqn:Hform; [done|]. zbool.
  pose proof (be_range 256 value ltac:(lia) Hb) as Hr.
  assert (256 ^ len value <= 2 ^ 64 \/ (len value = 9 /\ first = 0)) as Hsz.
  { destruct (Z.le_gt_cases (len value) 8).
    - left. change (2 ^ 64) with (256 ^ 8). apply pow256_mono; lia.
    - right. split; [lia|]. destruct H1; zbool; [lia|]. apply negb_false_iff in H1. zbool. lia. }
  assert (be 256 value < 2 ^ 64) as Hbe.
  { destruct Hsz as [?|[H9 ->]]; [lia|]. inversion_clear Hb as [|? ? _ Hb'].
    pose proof (be_range 256 rest ltac:(lia) Hb') as Hr'.
    unfold value. rewrite be_cons. replace (len rest) with 8 in * by lia.
    change (256 ^ 8) with (2 ^ 64) in *. lia. }
  rewrite decodeInteger_loop_spec; [|done|lia|lia]. cbn [mbind result_bind].
  rewrite Z.mul_0_l, Z.add_0_l. unfold is_byte in Hf.
  destruct (first <? 128) eqn:Hs; zbool; cbn [negb].
  - assert (twos value = be 256 value) as Ht.
    { unfold twos, value. simpl. by replace (first <? 128) with true by lia. }
    rewrite narrow_nonnegative, Ht by (done || lia). destruct (in_type T _) eqn:E; cbn [negb]; [|done].
    by rewrite conv_id.
  - assert (twos value = be 256 value - 256 ^ len value) as Ht.
    { unfold twos, value. simpl. by replace (first <? 128) with false by lia. }
    specialize (Hneg Hs). assert (len value <= 8) by lia.
    assert (256 ^ len value <= 2 ^ 64) as Hp.
    { change (2 ^ 64) with (256 ^ 8). apply pow256_mono; lia. }
    assert (conv int64 (if len value <? 8
      then Z.lor (be 256 value) (conv uint64 (Z.shiftl MaxUint64 (len value * 8)))
      else be 256 value) = twos value) as ->.
    { assert (conv int64 (be 256 value + (2 ^ 64 - 256 ^ len value)) = twos value) as Hc.
      { change (conv int64 ?x) with ((x + 2 ^ 63) mod 2 ^ 64 - 2 ^ 63).
        replace (be 256 value + (2 ^ 64 - 256 ^ len value) + 2 ^ 63)
          with (twos value + 2 ^ 63 + 1 * 2 ^ 64) by lia.
        rewrite Z.mod_add, Z.mod_small; lia. }
      destruct (len value <? 8) eqn:E8; zbool.
      - rewrite <- Hc. f_equal. apply sign_fill; [lia|]. lia.
      - rewrite <- Hc. f_equal. replace (len value) with 8 by lia.
        change (256 ^ 8) with (2 ^ 64). lia. }
    rewrite narrow_negative by (done || lia). destruct (in_type T _) eqn:E; cbn [negb]; [|done].
    by rewrite conv_id.
Qed.

Lemma go_type_range T v : go_type T = true -> in_type T v = true -> - 2 ^ 63 <= v < 2 ^ 64.
Proof.
  intros HT Hv. pose proof (go_type_pos T HT). unfold in_type in Hv.
  assert (2 ^ (it_bits T - 1) <= 2 ^ 63) by (apply Z.pow_le_mono_r; lia).
  assert (2 ^ it_bits T <= 2 ^ 64) by (apply Z.pow_le_mono_r; lia).
  destruct (it_signed T); zbool; lia.
Qed.

Lemma integerBytes_decode T v maxBytes :
  go_type T = true -> in_type T v = true -> len (integerBytes v) <= maxBytes ->
  decodeInteger T (integerBytes v) maxBytes = Ok v.
Proof.
  intros HT Hv Hmax.
  destruct (integerBytes_twos v (go_type_range T v HT Hv)) as (H1 & H2 & H3 & _ & H5).
  rewrite decodeInteger_eq by done. unfold integer_spec. rewrite H1, Hv.
  replace (len (integerBytes v) =? 0) with false by lia.
  replace (len (integerBytes v) >? maxBytes) with false by lia.
  replace (len (integerBytes v) >? 9) with false by lia. cbn [orb].
  destruct (len (integerBytes v) =? 9) eqn:E; [|done]. zbool. by rewrite H5.
Qed.

#[global] Arguments appendIdentifier : simpl never.
#[global] Arguments appendLength : simpl never.
#[global] Arguments identifierLength : simpl never.
#[global] Arguments lengthLength : simpl never.
#[global] Arguments decodeIdentifier : simpl never.
#[global] Arguments decodeLength : simpl never.
#[global] Arguments decodeInteger : simpl never.
#[global] Arguments integerBytes : simpl never.

(** ** Properties *)

(** The identifier codec is exact. *)
Lemma identifier_codec_exact (id : Identifier) (m k : Z) (data : bytes)
    (Hbytes : Forall is_byte data) :
  decodeIdentifier data m = Ok (id, k) <->
  wf_id id /\ (id_Number id < 31 \/ id_Number id <= m) /\
  exists rest, data = appendIdentifier [] id ++ rest /\ k = identifierLength id.
Proof.
  split.
  - intros H. apply decodeIdentifier_inv in H as (Hwf & Hm & rest & -> & ->); [|done].
    split; [done|]. split; [done|]. exists rest. by rewrite identifierLength_correct.
  - intros (Hwf & Hm & rest & -> & ->). rewrite decodeIdentifier_append by done.
    by rewrite identifierLength_correct.
Qed.

(** The length codec is exact. *)
Lemma length_codec_exact (n k : Z) (data : bytes) (Hbytes : Forall is_byte data) :
  decodeLength data = Ok (n, k) <->
  0 <= n <= MaxInt /\
  exists rest, data = appendLength [] n ++ rest /\ k = lengthLength n.
Proof.
  split.
  - intros H. apply decodeLength_inv in H as (Hn & rest & -> & ->); [|done].
    split; [done|]. exists rest. by rewrite lengthLength_correct.
  - intros (Hn & rest & -> & ->). rewrite decodeLength_append by done.
    by rewrite lengthLength_correct.
Qed.

(** C34. The codecs of BER primitives are exact. On byte input [decodeIdentifier]
    accepts precisely the inputs that start with the encoding [appendIdentifier]
    writes of an identifier (two-bit class, 32-bit number, number below 31 or
    within the tag limit), and returns that identifier with the length of its
    encoding; [decodeLength] accepts precisely the encodings [appendLength] writes
    of the lengths [0..MaxInt]. So headers round-trip, overlong or out-of-limit
    tags and indefinite, non-minimal or overflowing lengths are rejected, and
    [identifierLength] and [lengthLength] are the numbers of bytes used. For every
    Go integer type [decodeInteger] is the reference [integer_spec] (the
    two's-complement value of the bytes if it is one of the type's values,
    otherwise an error; at most [maxBytes] bytes; nine only for a leading zero),
    and what [integerBytes] writes for a value of the type decodes to that value. *)
Theorem primitive_codecs_exact (m k : Z) (T : inttype) (maxBytes : Z) (data : bytes)
    (Hbytes : Forall is_byte data) (HT : go_type T = true) :
  (forall id, decodeIdentifier data m = Ok (id, k) <->
     wf_id id /\ (id_Number id < 31 \/ id_Number id <= m) /\
     exists rest, data = appendIdentifier [] id ++ rest /\ k = identifierLength id) /\
  (forall n, decodeLength data = Ok (n, k) <->
     0 <= n <= MaxInt /\ exists rest, data = appendLength [] n ++ rest /\ k = lengthLength n) /\
  decodeInteger T data maxBytes = integer_spec T data maxBytes /\
  (forall v, in_type T v = true -> len (integerBytes v) <= maxBytes ->
     decodeInteger T (integerBytes v) maxBytes = Ok v).
Proof.
  split_and!; intros; [by apply identifier_codec_exact|by apply length_codec_exact|
    by apply decodeInteger_eq|by apply integerBytes_decode].
Qed.

Lemma primitive_codecs_exact_witness :
  Forall is_byte [0x7f; 0x82; 0x2c; 9] /\
  decodeIdentifier [0x7f; 0x82; 0x2c; 9] MaxUint32 = Ok (MkId 1 true 300, 3) /\
  decodeInteger int32 [0xff; 0x7f] 8 = Ok (-129).
Proof.
  assert (Forall is_byte [0x7f; 0x82; 0x2c; 9]) as Hb
    by (repeat constructor; unfold is_byte; lia).
  destruct (primitive_codecs_exact MaxUint32 3 int32 8 _ Hb eq_refl) as (Hid & _ & _ & Hint).
  split_and!; [exact Hb| |apply (Hint (-129)); vm_compute; congruence].
  apply Hid. split; [unfold wf_id; simpl; lia|]. split; [right; vm_compute; discriminate|].
  exists [9]. split; reflexivity.
Defined.
