(* ===== verification/Errors.v ===== *)
(** * Connection errors

    Models src/errors.go: the typed errors of the connection runtime around the
    errors of the lower packages, and their classification with [errors.Is]. *)

From S2P Require Import Prelude Wire.

Inductive TransportStage := StageDial | StageTLS | StageRead | StageWrite | StagePeerClose.
Inductive RequestOutcome := OutcomeNotApplicable | OutcomeDefinitelyUnsent | OutcomeAmbiguous.
Inductive ProtocolErrorKind :=
| ProtocolFraming | ProtocolEnvelope | ProtocolUnexpectedMessageID | ProtocolUnexpectedIdentifier.
Inductive SetupStage := SetupAuthentication | SetupInitialization | SetupProfileMismatch.

#[export] Instance TransportStage_eq_dec : EqDecision TransportStage.
Proof. solve_decision. Defined.
#[export] Instance RequestOutcome_eq_dec : EqDecision RequestOutcome.
Proof. solve_decision. Defined.
#[export] Instance ProtocolErrorKind_eq_dec : EqDecision ProtocolErrorKind.
Proof. solve_decision. Defined.
#[export] Instance SetupStage_eq_dec : EqDecision SetupStage.
Proof. solve_decision. Defined.

(** [Plain] is an error of a lower package, a context or the network.
    [WrapC] is [fmt.Errorf] with [%w] around an error of this package. The
    errors of the packages auth and auth/gssapi are here too, and [errors.Join]
    of one or two errors. *)
Inductive cerror :=
| Plain (e : error)
| WrapC (text : string) (err : cerror)
| TransportError (Stage : TransportStage) (Outcome : RequestOutcome) (Err : cerror)
| ProtocolError (Kind : ProtocolErrorKind) (MessageID : Z) (Got : Identifier) (Err : option cerror)
| LimitError (Limit : string) (Value Max : Z)
| RouteError (Endpoint : string) (Err : cerror)
| SetupError (Endpoint : string) (Stage : SetupStage) (Err : cerror)
| ProfileMismatchError (Err : option cerror)
| NoticeError (ResultCode : Z) (Diagnostic : bytes)
| BindError (ResultCode : Z)
| NegotiationError (Step Failure ResultCode OfferedLayers : Z)
| GssError (Operation : string) (Major : Z) (MajorKnown : bool) (Err : cerror)
| JoinError (err : cerror) (rest : option cerror).

Definition ErrClosed := Plain (ErrorString "arden: closed").
Definition ErrTransport := Plain (ErrorString "arden: transport failure").
Definition ErrProtocol := Plain (ErrorString "arden: protocol failure").
Definition ErrResourceLimit := Plain (ErrorString "arden: resource limit exceeded").
Definition ErrAmbiguousOutcome := Plain (ErrorString "arden: request outcome is ambiguous").
Definition ErrDefinitelyUnsent := Plain (ErrorString "arden: request was definitely not sent").
Definition ErrEndpointUnavailable := Plain (ErrorString "arden: endpoint unavailable").
Definition ErrSetup := Plain (ErrorString "arden: connection setup failed").
Definition ErrProfileMismatch := Plain (ErrorString "arden: endpoint profile mismatch").
Definition ErrConnectionNotReady := Plain (ErrorString "arden: connection is not ready").
Definition ErrInitializationClosed := Plain (ErrorString "arden: initialization session is closed").
Definition ErrAssociationChange :=
  Plain (ErrorString "arden: association-changing operation is restricted to initialization").
Definition ErrNoticeOfDisconnection := Plain (ErrorString "arden: notice of disconnection").

Definition ErrNegotiation := Plain (ErrorString "arden/auth/gssapi: negotiation failed").

(** The sentinels are told apart by their text. *)
Definition sentinel (target : cerror) : option error :=
  match target with Plain e => Some e | _ => None end.
Definition is_sentinel (target sentinel : cerror) : bool :=
  match target, sentinel with Plain a, Plain b => bool_decide (a = b) | _, _ => false end.

Definition ambiguous (o : RequestOutcome) : bool := bool_decide (o = OutcomeAmbiguous).
Definition unsent (o : RequestOutcome) : bool := bool_decide (o = OutcomeDefinitelyUnsent).

(** [errors.Is(err, target)] for a sentinel target: the [Is] methods, then
    [Unwrap]. *)
Fixpoint Is (err target : cerror) : bool :=
  match err with
  | Plain e => match target with Plain t => errors_Is e t | _ => false end
  | WrapC _ err => Is err target
  | TransportError _ outcome err =>
      is_sentinel target ErrTransport ||
      (is_sentinel target ErrDefinitelyUnsent && unsent outcome) ||
      (is_sentinel target ErrAmbiguousOutcome && ambiguous outcome) || Is err target
  | ProtocolError _ _ _ err =>
      is_sentinel target ErrProtocol || match err with Some err => Is err target | None => false end
  | LimitError _ _ _ => is_sentinel target ErrResourceLimit
  | RouteError _ err => is_sentinel target ErrEndpointUnavailable || Is err target
  | SetupError _ _ err => is_sentinel target ErrSetup || Is err target
  | ProfileMismatchError err =>
      is_sentinel target ErrProfileMismatch || match err with Some err => Is err target | None => false end
  | NoticeError _ _ => is_sentinel target ErrNoticeOfDisconnection
  | BindError _ => false
  | NegotiationError _ _ _ _ => is_sentinel target ErrNegotiation
  | GssError _ _ _ err => Is err target
  | JoinError err rest => Is err target || match rest with Some err => Is err target | None => false end
  end.

(** [errors.As(err, **TransportError)]: the outermost transport error. *)
Fixpoint asTransport (err : cerror) : option (TransportStage * RequestOutcome * cerror) :=
  match err with
  | TransportError stage outcome err => Some (stage, outcome, err)
  | WrapC _ err | RouteError _ err | SetupError _ _ err | GssError _ _ _ err => asTransport err
  | ProtocolError _ _ _ (Some err) | ProfileMismatchError (Some err) => asTransport err
  | JoinError err rest =>
      match asTransport err, rest with
      | Some found, _ => Some found
      | None, Some err => asTransport err
      | None, None => None
      end
  | _ => None
  end.

(** [errors.As(err, **SetupError)] succeeds. *)
Fixpoint isSetup (err : cerror) : bool :=
  match err with
  | SetupError _ _ _ => true
  | WrapC _ err | TransportError _ _ err | RouteError _ err | GssError _ _ _ err => isSetup err
  | ProtocolError _ _ _ (Some err) | ProfileMismatchError (Some err) => isSetup err
  | JoinError err rest => isSetup err || match rest with Some err => isSetup err | None => false end
  | _ => false
  end.

(** [errors.Join] of two errors, nil when both are. *)
Definition join (a b : option cerror) : option cerror :=
  match a, b with
  | Some a, b => Some (JoinError a b)
  | None, Some b => Some (JoinError b None)
  | None, None => None
  end.

(** [errors.As] for [*ber.LimitError] and [*ber.DecodeError]. *)
Fixpoint asBerLimit (err : error) : option (string * Z * Z) :=
  match err with
  | BerLimitError limit value max => Some (limit, value, max)
  | WrapError err _ => asBerLimit err
  | DecodeError _ err => asBerLimit err
  | _ => None
  end.

(** [translateBERLimit] of connection.go. *)
Definition translateBERLimit (err : error) : cerror :=
  match asBerLimit err with
  | Some (limit, value, max) => LimitError ("BER " +:+ limit) value max
  | None => Plain err
  end.

(** ** Properties *)

(** A transport error belongs to at most one of the two outcome classes
    through its own [Is] method, and always to [ErrTransport]. *)
Lemma transport_outcome stage outcome err :
  Is err ErrDefinitelyUnsent = false -> Is err ErrAmbiguousOutcome = false ->
  Is (TransportError stage outcome err) ErrTransport = true /\
  Is (TransportError stage outcome err) ErrDefinitelyUnsent = unsent outcome /\
  Is (TransportError stage outcome err) ErrAmbiguousOutcome = ambiguous outcome.
Proof. intros H1 H2. cbn. rewrite H1, H2. by destruct outcome. Qed.
