(* ===== verification/Options.v ===== *)
(** * Connection options and the connection's life cycle

    Models [ConnectionOptions] of src/connection.go with its defaults and
    validation, and [advanceConnectionState] of src/bootstrap.go. *)

From S2P Require Import Prelude Wire Errors.

Record ConnectionOptions := MkConnectionOptions {
  BERLimits : Limits;
  MaxQueuedResponses : Z;
  MaxQueuedResponseBytes : Z;
  MaxUnsolicitedResponses : Z;
  MaxUnsolicitedResponseBytes : Z;
  CancellationWriteTimeout : Z;
  CloseTimeout : Z;
  InitializationTimeout : Z;
  MaxInitializationOperations : Z
}.

(** Durations are nanoseconds. *)
Definition DefaultConnectionOptions : ConnectionOptions :=
  {| BERLimits := DefaultLimits;
     MaxQueuedResponses := 16;
     MaxQueuedResponseBytes := Z.shiftl 4 20;
     MaxUnsolicitedResponses := 8;
     MaxUnsolicitedResponseBytes := Z.shiftl 1 20;
     CancellationWriteTimeout := 5000000000;
     CloseTimeout := 5000000000;
     InitializationTimeout := 30000000000;
     MaxInitializationOperations := 16 |}.

Definition zeroLimits : Limits := MkLimits 0 0 0 0 0.
Definition or_default (value default : Z) : Z := if value =? 0 then default else value.

(** The options with the defaults for zero fields. *)
Definition with_defaults (o : ConnectionOptions) : ConnectionOptions :=
  let d := DefaultConnectionOptions in
  {| BERLimits := if bool_decide (BERLimits o = zeroLimits) then BERLimits d else BERLimits o;
     MaxQueuedResponses := or_default (MaxQueuedResponses o) (MaxQueuedResponses d);
     MaxQueuedResponseBytes := or_default (MaxQueuedResponseBytes o) (MaxQueuedResponseBytes d);
     MaxUnsolicitedResponses := or_default (MaxUnsolicitedResponses o) (MaxUnsolicitedResponses d);
     MaxUnsolicitedResponseBytes :=
       or_default (MaxUnsolicitedResponseBytes o) (MaxUnsolicitedResponseBytes d);
     CancellationWriteTimeout := or_default (CancellationWriteTimeout o) (CancellationWriteTimeout d);
     CloseTimeout := or_default (CloseTimeout o) (CloseTimeout d);
     InitializationTimeout := or_default (InitializationTimeout o) (InitializationTimeout d);
     MaxInitializationOperations :=
       or_default (MaxInitializationOperations o) (MaxInitializationOperations d) |}.

Definition ConnectionOptions_normalized (o : ConnectionOptions) : result ConnectionOptions :=
  let o := with_defaults o in
  match Limits_Validate (BERLimits o) with
  | Some err => Err err
  | None =>
      if MaxQueuedResponses o <? 0
      then Err (ErrorString "arden: MaxQueuedResponses must be positive")
      else if MaxQueuedResponseBytes o <? 0
      then Err (ErrorString "arden: MaxQueuedResponseBytes must be positive")
      else if MaxUnsolicitedResponses o <? 0
      then Err (ErrorString "arden: MaxUnsolicitedResponses must be positive")
      else if MaxUnsolicitedResponseBytes o <? 0
      then Err (ErrorString "arden: MaxUnsolicitedResponseBytes must be positive")
      else if CancellationWriteTimeout o <? 0
      then Err (ErrorString "arden: CancellationWriteTimeout must be positive")
      else if CloseTimeout o <? 0
      then Err (ErrorString "arden: CloseTimeout must be positive")
      else if InitializationTimeout o <? 0
      then Err (ErrorString "arden: InitializationTimeout must be positive")
      else if MaxInitializationOperations o <? 0
      then Err (ErrorString "arden: MaxInitializationOperations must be positive")
      else Ok o
  end.

Definition ConnectionOptions_Validate (o : ConnectionOptions) : option error :=
  match ConnectionOptions_normalized o with Ok _ => None | Err err => Some err end.

(** Every bound is explicit and positive: zero never means unbounded. *)
Definition limits_positive (l : Limits) : Prop :=
  0 < MaxFrameBytes l /\ 0 < MaxDepth l /\ 0 < MaxElements l /\ 0 < MaxIntegerBytes l /\
  MaxTagNumber l <> 0.

Definition options_positive (o : ConnectionOptions) : Prop :=
  limits_positive (BERLimits o) /\ 0 < MaxQueuedResponses o /\ 0 < MaxQueuedResponseBytes o /\
  0 < MaxUnsolicitedResponses o /\ 0 < MaxUnsolicitedResponseBytes o /\
  0 < CancellationWriteTimeout o /\ 0 < CloseTimeout o /\ 0 < InitializationTimeout o /\
  0 < MaxInitializationOperations o.

Lemma Limits_Validate_exact l : Limits_Validate l = None <-> limits_positive l.
Proof.
  unfold Limits_Validate, limits_positive. split.
  - case_ifs; try done. zbool. lia.
  - intros (H1 & H2 & H3 & H4 & H5). replace (_ <=? 0) with false by lia.
    replace (MaxDepth l <=? 0) with false by lia. replace (MaxElements l <=? 0) with false by lia.
    replace (MaxIntegerBytes l <=? 0) with false by lia. by replace (MaxTagNumber l =? 0) with false by lia.
Qed.

Lemma or_default_neg v d : 0 < d -> (or_default v d <? 0) = false -> 0 < or_default v d.
Proof. unfold or_default. case_ifs; intros; zbool; lia. Qed.

Lemma or_default_pos v d : 0 < v -> or_default v d = v.
Proof. unfold or_default. intros. by replace (v =? 0) with false by lia. Qed.

Lemma normalized_positive o o' : ConnectionOptions_normalized o = Ok o' -> options_positive o'.
Proof.
  unfold ConnectionOptions_normalized. destruct (Limits_Validate _) eqn:El; [done|].
  apply Limits_Validate_exact in El. repeat (destruct (_ <? 0) eqn:? in |- *; [done|]).
  intros [= <-]. unfold options_positive. split; [done|].
  repeat split; (apply or_default_neg; [vm_compute; reflexivity|done]).
Qed.

Lemma with_defaults_positive o : options_positive o -> with_defaults o = o.
Proof.
  intros (Hl & H1 & H2 & H3 & H4 & H5 & H6 & H7 & H8).
  destruct o as [lim ? ? ? ? ? ? ? ?]. cbn in *. unfold with_defaults. cbn.
  rewrite !or_default_pos by done. rewrite bool_decide_false; [done|].
  intros ->. destruct Hl as [Hl _]. cbn in Hl. lia.
Qed.

(** Normalized options bound everything: whatever [normalized] accepts has
    valid positive BER limits and strictly positive queue, unsolicited, timeout
    and initialization bounds, and options that are already positive are
    returned unchanged; so normalization is idempotent. *)
Theorem normalized_options_positive o :
  (forall o', ConnectionOptions_normalized o = Ok o' -> options_positive o') /\
  (options_positive o -> ConnectionOptions_normalized o = Ok o).
Proof.
  split; [apply normalized_positive|]. intros Hpos. pose proof Hpos as (Hl & H1 & H2 & H3 & H4 & H5 & H6 & H7 & H8).
  unfold ConnectionOptions_normalized. rewrite with_defaults_positive by done.
  rewrite (proj2 (Limits_Validate_exact _) Hl).
  repeat match goal with |- context [?x <? 0] => replace (x <? 0) with false by lia end. done.
Qed.

Lemma normalized_options_positive_witness :
  options_positive DefaultConnectionOptions /\
  ConnectionOptions_normalized (MkConnectionOptions zeroLimits 0 0 0 0 0 0 0 0) = Ok DefaultConnectionOptions.
Proof.
  split; [|vm_compute; reflexivity].
  apply (proj1 (normalized_options_positive (MkConnectionOptions zeroLimits 0 0 0 0 0 0 0 0))).
  vm_compute. reflexivity.
Defined.

(** ** States *)

Inductive connectionState :=
| stateDialing | stateTransportSetup | stateAuthenticating | stateInitializing
| stateReady | stateDraining | stateClosed.

#[export] Instance connectionState_eq_dec : EqDecision connectionState.
Proof. solve_decision. Defined.

Definition advanceConnectionState (from to : connectionState) : result connectionState :=
  let valid :=
    match from with
    | stateDialing => bool_decide (to = stateTransportSetup)
    | stateTransportSetup => bool_decide (to = stateAuthenticating)
    | stateAuthenticating => bool_decide (to = stateInitializing)
    | stateInitializing => bool_decide (to = stateReady)
    | stateReady => bool_decide (to = stateDraining)
    | stateDraining => bool_decide (to = stateClosed)
    | stateClosed => false
    end in
  let valid := if bool_decide (to = stateClosed) && negb (bool_decide (from = stateClosed))
               then true else valid in
  if negb valid then Err (ErrorString "arden: invalid connection state transition")
  else Ok to.

(** The place of a state in the life cycle. *)
Definition rank (s : connectionState) : Z :=
  match s with
  | stateDialing => 1 | stateTransportSetup => 2 | stateAuthenticating => 3
  | stateInitializing => 4 | stateReady => 5 | stateDraining => 6 | stateClosed => 7
  end.

Lemma advance_rank from to next : advanceConnectionState from to = Ok next ->
  next = to /\ (rank to = rank from + 1 \/ to = stateClosed /\ rank from < 7).
Proof. destruct from, to; intros [= <-]; cbn; auto with lia. Qed.
