(* ===== verification/Packet.v ===== *)
(** * The BER packet encoder

    Models src/ber/packet.go: packets, envelopes and their serialization. The
    abstract side is [tlv], the BER element tree, with its encoding [enc];
    [encodes p t] says that packet [p] serializes to [enc t] and announces its
    length exactly. Every packet constructor of the source is shown to
    implement the corresponding tree, and [AppendTo] is shown to append. *)

From S2P Require Import Prelude Wire.

(** ** Packets *)

Inductive Packet := MkPacket {
  pk_identifier : Identifier;
  pk_value : bytes;
  pk_children : list Packet;
  pk_encoded : bool;
  pk_opaque : bool
}.

(** The interface [Packeter]. *)
Class Packeter (T : Type) := BERPacket : T -> Packet.
#[export] Instance Packet_Packeter : Packeter Packet := fun p => p.

Definition primitive (id : Identifier) (value : bytes) : Packet :=
  MkPacket (MkId (id_Class id) false (id_Number id)) value [] false false.

Definition Primitive (id : Identifier) (value : bytes) : Packet := primitive id value.

Definition WithContents (id : Identifier) (value : bytes) : Packet :=
  MkPacket id value [] false true.

Definition Encoded (value : bytes) : Packet :=
  MkPacket zero value [] true false.

Definition OctetString (value : bytes) : Packet := Primitive OctetStringIdentifier value.

Definition integerPacket (id : Identifier) (value : Z) : Packet :=
  primitive id (integerBytes value).

Definition Integer (value : Z) : Packet := integerPacket IntegerIdentifier value.
Definition IntegerWithIdentifier (id : Identifier) (value : Z) : Packet :=
  integerPacket id value.
Definition Enumerated (value : Z) : Packet := integerPacket EnumeratedIdentifier value.

Definition Boolean (value : bool) : Packet :=
  let b := if value then 0xff else 0 in
  primitive BooleanIdentifier [b].

Definition Null : Packet := primitive NullIdentifier [].

(** [encodedLength] and [contentLength] call each other on the children. *)
Fixpoint encodedLength (p : Packet) : Z :=
  if pk_encoded p then len (pk_value p)
  else
    let contentLength :=
      if negb (id_Constructed (pk_identifier p)) || pk_opaque p then len (pk_value p)
      else foldr Z.add 0 (map encodedLength (pk_children p)) in
    identifierLength (pk_identifier p) + lengthLength contentLength + contentLength.

Definition contentLength (p : Packet) : Z :=
  if negb (id_Constructed (pk_identifier p)) || pk_opaque p then len (pk_value p)
  else foldr Z.add 0 (map encodedLength (pk_children p)).

Fixpoint AppendTo (p : Packet) (dst : bytes) : bytes :=
  if pk_encoded p then dst ++ pk_value p
  else
    let contentLength := contentLength p in
    let dst := appendIdentifier dst (pk_identifier p) in
    let dst := appendLength dst contentLength in
    if negb (id_Constructed (pk_identifier p)) || pk_opaque p then dst ++ pk_value p
    else
      (fix range (children : list Packet) (dst : bytes) : bytes :=
         match children with
         | [] => dst
         | child :: children => range children (AppendTo child dst)
         end) (pk_children p) dst.

Definition Encode (p : Packet) : bytes := AppendTo p [].

(** ** Envelopes

    An [*Envelope] is a constructed packet under construction; its methods
    return the updated envelope. *)
Record Envelope := MkEnvelope { env_packet : Packet }.

Definition Constructed (id : Identifier) : Envelope :=
  MkEnvelope (MkPacket (MkId (id_Class id) true (id_Number id)) [] [] false false).

Definition Sequence : Envelope := Constructed SequenceIdentifier.
Definition Set_ : Envelope := Constructed SetIdentifier.

Definition Add {T} `{Packeter T} (e : Envelope) (cs : list T) : Envelope :=
  let p := env_packet e in
  MkEnvelope (MkPacket (pk_identifier p) (pk_value p) (pk_children p ++ map BERPacket cs)
                       (pk_encoded p) (pk_opaque p)).

#[export] Instance Envelope_Packeter : Packeter Envelope := env_packet.

(** ** Element trees *)

Inductive tlv :=
| Prim (id : Identifier) (contents : bytes)
| Cons (id : Identifier) (ts : list tlv).

Definition tid (t : tlv) : Identifier :=
  match t with Prim id _ => id | Cons id _ => id end.

(** Header of an element with [n] bytes of contents. *)
Definition header (id : Identifier) (n : Z) : bytes :=
  appendIdentifier [] id ++ appendLength [] n.

Fixpoint enc (t : tlv) : bytes :=
  match t with
  | Prim id v => header id (len v) ++ v
  | Cons id ts =>
      let v := concat (map enc ts) in header id (len v) ++ v
  end.

Definition contents (t : tlv) : bytes :=
  match t with Prim _ v => v | Cons _ ts => concat (map enc ts) end.

(** Elements a decoder charges for the tree, and the nesting it enters. *)
Fixpoint count (t : tlv) : Z :=
  match t with
  | Prim _ _ => 1
  | Cons _ ts => 1 + foldr Z.add 0 (map count ts)
  end.

Fixpoint height (t : tlv) : Z :=
  match t with
  | Prim _ _ => 0
  | Cons _ ts => 1 + foldr Z.max 0 (map height ts)
  end.

(** A tree Go can hold and a decoder with tag limit [m] admits: the form bit
    tells primitive from constructed, the class has two bits, the number is a
    [uint32] below the tag limit and the contents are no longer than [MaxInt]. *)
Definition id_ok (m : Z) (id : Identifier) : bool :=
  (0 <=? id_Class id) && (id_Class id <=? 3) &&
  (0 <=? id_Number id) && (id_Number id <? 2 ^ 32) &&
  ((id_Number id <? 31) || (id_Number id <=? m)).

Fixpoint wf_tlv (m : Z) (t : tlv) : bool :=
  id_ok m (tid t) && (len (contents t) <=? MaxInt) &&
  match t with
  | Prim id _ => negb (id_Constructed id)
  | Cons id ts => id_Constructed id && forallb (wf_tlv m) ts
  end.

Section tlv_induction.
Context (P : tlv -> Prop).
Context (HPrim : forall id v, P (Prim id v)).
Context (HCons : forall id ts, Forall P ts -> P (Cons id ts)).

Fixpoint tlv_nested_ind (t : tlv) : P t :=
  match t with
  | Prim id v => HPrim id v
  | Cons id ts =>
      HCons id ts ((fix go (l : list tlv) : Forall P l :=
        match l with
        | [] => Forall_nil_2 _
        | x :: l' => Forall_cons_2 _ _ _ (tlv_nested_ind x) (go l')
        end) ts)
  end.
End tlv_induction.

Section Packet_induction.
Context (P : Packet -> Prop).
Context (HP : forall id v cs e o, Forall P cs -> P (MkPacket id v cs e o)).

Fixpoint Packet_nested_ind (p : Packet) : P p :=
  match p with
  | MkPacket id v cs e o =>
      HP id v cs e o ((fix go (l : list Packet) : Forall P l :=
        match l with
        | [] => Forall_nil_2 _
        | x :: l' => Forall_cons_2 _ _ _ (Packet_nested_ind x) (go l')
        end) cs)
  end.
End Packet_induction.

Lemma enc_eq t : enc t = header (tid t) (len (contents t)) ++ contents t.
Proof. by destruct t. Qed.

Lemma enc_nonempty t : 2 <= len (enc t).
Proof.
  rewrite enc_eq. unfold header. len_simpl.
  pose proof (appendIdentifier_nonempty (tid t)).
  pose proof (appendLength_nonempty (len (contents t))).
  pose proof (len_nonneg (contents t)). lia.
Qed.

Lemma contents_lt_enc t : len (contents t) + 2 <= len (enc t).
Proof.
  rewrite (enc_eq t). unfold header. len_simpl.
  pose proof (appendIdentifier_nonempty (tid t)).
  pose proof (appendLength_nonempty (len (contents t))). lia.
Qed.

Lemma id_ok_wf m id : id_ok m id = true ->
  wf_id id /\ (id_Number id < 31 \/ id_Number id <= m).
Proof.
  unfold id_ok, wf_id. intros H. zbool.
  destruct (id_Number id <? 31) eqn:E; zbool; [lia|].
  destruct H0 as [H0|H0]; zbool; lia.
Qed.

Lemma wf_tlv_id m t : wf_tlv m t = true ->
  id_ok m (tid t) = true /\ len (contents t) <= MaxInt.
Proof. destruct t; simpl; intros H; zbool; auto. Qed.

Lemma wf_tlv_cons m id ts : wf_tlv m (Cons id ts) = true ->
  id_ok m id = true /\ id_Constructed id = true /\ Forall (fun t => wf_tlv m t = true) ts /\
  len (concat (map enc ts)) <= MaxInt.
Proof.
  simpl. intros H. zbool. repeat split; auto.
  apply Forall_forall. rewrite forallb_forall in H1. intros t Ht.
  apply H1. by apply list_elem_of_In.
Qed.

Lemma count_pos t : 1 <= count t.
Proof.
  induction t as [id v|id ts IH] using tlv_nested_ind; simpl; [lia|].
  assert (0 <= foldr Z.add 0 (map count ts)); [|lia].
  induction IH; simpl; lia.
Qed.

Lemma height_nonneg t : 0 <= height t.
Proof.
  destruct t; simpl; [lia|]. assert (0 <= foldr Z.max 0 (map height ts)); [|lia].
  induction ts; simpl; lia.
Qed.

(** ** Appending *)

Lemma AppendTo_range cs dst :
  Forall (fun p => forall dst, AppendTo p dst = dst ++ Encode p) cs ->
  (fix range (children : list Packet) (dst : bytes) : bytes :=
     match children with
     | [] => dst
     | child :: children => range children (AppendTo child dst)
     end) cs dst = dst ++ concat (map Encode cs).
Proof.
  intros H. revert dst. induction H as [|p cs Hp H IH]; intros dst; simpl.
  - by rewrite app_nil_r.
  - by rewrite IH, Hp, <- app_assoc.
Qed.

Lemma AppendTo_app p : forall dst, AppendTo p dst = dst ++ Encode p.
Proof.
  induction p as [id v cs e o IH] using Packet_nested_ind. intros dst.
  unfold Encode. simpl. destruct e; [done|].
  rewrite (appendLength_dst (appendIdentifier dst id)), (appendIdentifier_dst dst).
  rewrite (appendLength_dst (appendIdentifier [] id)).
  case_ifs; [by rewrite <- !app_assoc|].
  rewrite !AppendTo_range by done. by rewrite <- !app_assoc.
Qed.

(** The serialization of a packet, unfolded once. *)
Lemma Encode_eq p : Encode p =
  if pk_encoded p then pk_value p
  else header (pk_identifier p) (contentLength p) ++
    (if negb (id_Constructed (pk_identifier p)) || pk_opaque p then pk_value p
     else concat (map Encode (pk_children p))).
Proof.
  destruct p as [id v cs e o]. unfold Encode at 1, header. simpl. destruct e; [done|].
  rewrite (appendLength_dst (appendIdentifier [] id)).
  case_ifs; [by rewrite <- !app_assoc|].
  rewrite AppendTo_range; [by rewrite <- !app_assoc|].
  apply Forall_forall. intros. apply AppendTo_app.
Qed.

Lemma encodedLength_eq p : encodedLength p =
  if pk_encoded p then len (pk_value p)
  else identifierLength (pk_identifier p) + lengthLength (contentLength p) + contentLength p.
Proof. by destruct p. Qed.

(** ** Packets implement trees *)

Definition encodes (p : Packet) (t : tlv) : Prop :=
  Encode p = enc t /\ encodedLength p = len (enc t).

Lemma len_header id n : wf_id id -> 0 <= n <= MaxInt ->
  len (header id n) = identifierLength id + lengthLength n.
Proof.
  intros. unfold header. rewrite len_app, identifierLength_correct, lengthLength_correct; done.
Qed.

Lemma encodes_primitive m id v :
  wf_tlv m (Prim id v) = true -> encodes (primitive id v) (Prim id v).
Proof.
  destruct id as [c k n]. intros H. simpl in H. zbool. apply negb_true_iff in H0. simpl in H0. subst k.
  apply id_ok_wf in H as [H _]. pose proof (len_nonneg v).
  split; [by rewrite Encode_eq|].
  rewrite encodedLength_eq, enc_eq, len_app, len_header; auto.
Qed.

Lemma encodes_children ps ts : Forall2 encodes ps ts ->
  concat (map Encode ps) = concat (map enc ts) /\
  foldr Z.add 0 (map encodedLength ps) = len (concat (map enc ts)).
Proof.
  induction 1 as [|p t ps ts [H1 H2] H [IH1 IH2]]; [done|]. simpl.
  rewrite len_app. split; congruence.
Qed.

Lemma encodes_constructed m id ps ts :
  wf_tlv m (Cons id ts) = true -> Forall2 encodes ps ts ->
  encodes (MkPacket id [] ps false false) (Cons id ts).
Proof.
  intros Hwf Hps. apply wf_tlv_cons in Hwf as (Hid & Hc & _ & Hlen).
  apply id_ok_wf in Hid as [Hid _]. destruct (encodes_children ps ts Hps) as [H1 H2].
  pose proof (len_nonneg (concat (map enc ts))).
  assert (contentLength (MkPacket id [] ps false false) = len (concat (map enc ts))) as Hcl.
  { unfold contentLength. simpl. rewrite Hc. simpl. done. }
  split.
  - rewrite Encode_eq, Hcl. simpl. rewrite Hc. simpl. by rewrite H1.
  - rewrite encodedLength_eq, Hcl, enc_eq. simpl. rewrite len_app, len_header; auto.
Qed.

Lemma encodes_Encoded raw t : raw = enc t -> encodes (Encoded raw) t.
Proof. intros ->. split; done. Qed.

(** An envelope holds the trees added so far. *)
Definition holds (e : Envelope) (id : Identifier) (ts : list tlv) : Prop :=
  exists ps, env_packet e = MkPacket id [] ps false false /\ Forall2 encodes ps ts.

Lemma holds_Constructed id : id_Constructed id = true -> holds (Constructed id) id [].
Proof. destruct id as [c k n]. simpl. intros ->. by exists []. Qed.

Lemma holds_Add {T} `{Packeter T} e id ts (cs : list T) ts' :
  holds e id ts -> Forall2 (fun c t => encodes (BERPacket c) t) cs ts' ->
  holds (Add e cs) id (ts ++ ts').
Proof.
  intros (ps & He & Hps) Hcs. exists (ps ++ map BERPacket cs). split.
  - unfold Add. rewrite He. done.
  - apply Forall2_app; [done|]. by apply Forall2_fmap_l.
Qed.

Lemma holds_encodes m e id ts :
  holds e id ts -> wf_tlv m (Cons id ts) = true -> encodes (BERPacket e) (Cons id ts).
Proof.
  intros (ps & He & Hps) Hwf. unfold BERPacket, Envelope_Packeter. rewrite He.
  by apply (encodes_constructed m).
Qed.

(** ** The serializer is exact *)

(** A packet Go can hold: every identifier is in range and no contents are
    longer than an [int] counts. *)
Fixpoint packet_ok (p : Packet) : Prop :=
  if pk_encoded p then True
  else wf_id (pk_identifier p) /\ contentLength p <= MaxInt /\
    (if negb (id_Constructed (pk_identifier p)) || pk_opaque p then True
     else foldr (fun c P => packet_ok c /\ P) True (pk_children p)).

Lemma children_length cs : Forall (fun p => packet_ok p -> encodedLength p = len (Encode p)) cs ->
  foldr (fun c P => packet_ok c /\ P) True cs ->
  foldr Z.add 0 (map encodedLength cs) = len (concat (map Encode cs)).
Proof.
  induction 1 as [|p cs Hp H IH]; [done|]. cbn. intros [H1 H2]. rewrite len_app, IH, Hp by done. done.
Qed.

Lemma encodedLength_exact p : packet_ok p -> encodedLength p = len (Encode p).
Proof.
  induction p as [id v cs e o IH] using Packet_nested_ind. intros Hok.
  rewrite encodedLength_eq, Encode_eq. cbn [pk_encoded packet_ok] in *. destruct e; [done|].
  destruct Hok as (Hid & Hmax & Hcs). cbn [pk_identifier pk_value pk_children pk_opaque] in *.
  assert (contentLength (MkPacket id v cs false o) =
          len (if negb (id_Constructed id) || o then v else concat (map Encode cs))) as Hc.
  { unfold contentLength. cbn [pk_identifier pk_value pk_children pk_opaque].
    destruct (negb _ || o); [done|]. by apply children_length. }
  rewrite len_app, Hc in *. pose proof (len_nonneg (if negb (id_Constructed id) || o then v else concat (map Encode cs))).
  rewrite len_header by (done || lia). lia.
Qed.

(** The serializer is exact: [AppendTo] appends the encoding of the packet to
    whatever is in the buffer, the length computed in advance by
    [encodedLength] (the capacity [Encode] allocates, and the length octets of
    the enclosing element) is the number of bytes written, and the encoding is
    the identifier, the definite length of the contents, and the contents
    (the raw bytes, or the encodings of the children in order). *)
Theorem serializer_exact p dst : packet_ok p ->
  AppendTo p dst = dst ++ Encode p /\ encodedLength p = len (Encode p) /\
  Encode p =
    if pk_encoded p then pk_value p
    else
      let value := if negb (id_Constructed (pk_identifier p)) || pk_opaque p then pk_value p
                   else concat (map Encode (pk_children p)) in
      appendIdentifier [] (pk_identifier p) ++ appendLength [] (len value) ++ value.
Proof.
  intros Hok. split; [apply AppendTo_app|]. split; [by apply encodedLength_exact|].
  rewrite Encode_eq. destruct p as [id v cs e o]. cbn [pk_encoded packet_ok] in *. destruct e; [done|].
  destruct Hok as (_ & _ & Hcs). unfold header, contentLength.
  cbn [pk_identifier pk_value pk_children pk_opaque] in *.
  destruct (negb _ || o); cbn zeta; [by rewrite <- app_assoc|].
  rewrite children_length, <- app_assoc; [done| |done].
  apply Forall_forall. intros. by apply encodedLength_exact.
Qed.

Lemma serializer_exact_witness :
  let p := BERPacket (Add Sequence [Integer 5; OctetString [1; 2]]) in
  packet_ok p /\ AppendTo p [7] = [7; 48; 7; 2; 1; 5; 4; 2; 1; 2].
Proof.
  intros p. assert (packet_ok p) as H.
  { cbn. repeat split; try done; vm_compute; discriminate. }
  split; [exact H|]. rewrite (proj1 (serializer_exact p [7] H)). vm_compute. reflexivity.
Defined.
