(* ===== verification/Reader.v ===== *)
(** * The bounded BER reader

    Models src/ber/reader.go. A [Reader] is a cursor over a byte slice with the
    decoding limits and a counter of elements read. In the source the counter
    is shared by a reader and the readers of its nested elements through the
    pointer [state]; here the field [r_elements] is its current value, every
    operation returns the reader it leaves, and whoever enters a nested reader
    writes the counter back ([with_elements]).

    The theorems: reading the encoding of an element tree returns exactly that
    element, advances by its length and charges its elements
    ([ReadElement_enc], [SkipElement_enc]); a failing read leaves the reader
    where it was; a successful one returns a canonical encoding inside the
    bounds of the data; the limits are never exceeded; and validation of nested
    contents terminates. *)

From S2P Require Import Prelude Wire Packet.

Record Element := MkElement {
  e_Identifier : Identifier;
  e_Value : bytes;
  e_Raw : bytes;
  e_Offset : Z
}.

#[export] Instance Element_eq_dec : EqDecision Element.
Proof. solve_decision. Defined.

Record Reader := MkReader {
  r_data : bytes;
  r_pos : Z;
  r_base : Z;
  r_depth : Z;
  r_limits : Limits;
  r_elements : Z
}.

Definition with_pos (r : Reader) (pos : Z) : Reader :=
  MkReader (r_data r) pos (r_base r) (r_depth r) (r_limits r) (r_elements r).
Definition with_elements (r : Reader) (n : Z) : Reader :=
  MkReader (r_data r) (r_pos r) (r_base r) (r_depth r) (r_limits r) n.
Definition with_data (r : Reader) (data : bytes) : Reader :=
  MkReader data (r_pos r) (r_base r) (r_depth r) (r_limits r) (r_elements r).

Definition NewReader (data : bytes) (limits : Limits) : result Reader :=
  match Limits_Validate limits with
  | Some err => Err err
  | None =>
      if len data >? MaxFrameBytes limits
      then Err (BerLimitError "frame bytes" (len data) (MaxFrameBytes limits))
      else Ok (MkReader data 0 0 0 limits 0)
  end.

Definition Offset (r : Reader) : Z := r_base r + r_pos r.
Definition Remaining (r : Reader) : Z := len (r_data r) - r_pos r.
Definition Empty (r : Reader) : bool := Remaining r =? 0.

(** A nil error is [None]. *)
Definition RequireEmpty (r : Reader) : option error :=
  if negb (Empty r) then Some (decodeError (Offset r) ErrTrailingData) else None.

Definition Reader_PeekIdentifier (r : Reader) : result Identifier :=
  match decodeIdentifier (slice_from (r_data r) (r_pos r)) (MaxTagNumber (r_limits r)) with
  | Ok (id, _) => Ok id
  | Err err => Err (decodeError (Offset r) err)
  end.

Definition ReadElement (r : Reader) : result Element * Reader :=
  let start := r_pos r in
  let absolute := r_base r + start in
  match decodeIdentifier (slice_from (r_data r) start) (MaxTagNumber (r_limits r)) with
  | Err err => (Err (decodeError absolute err), r)
  | Ok (id, idBytes) =>
      match decodeLength (slice_from (r_data r) (start + idBytes)) with
      | Err err => (Err (decodeError (absolute + idBytes) err), r)
      | Ok (length, lengthBytes) =>
          let header := idBytes + lengthBytes in
          if length >? len (r_data r) - start - header
          then (Err (decodeError (absolute + header) ErrTruncated), r)
          else
            let end_ := start + header + length in
            if r_elements r =? MaxElements (r_limits r)
            then (Err (decodeError absolute
                   (BerLimitError "elements" (r_elements r + 1) (MaxElements (r_limits r)))), r)
            else
              let r := with_elements r (r_elements r + 1) in
              let e := MkElement id (slice (r_data r) (start + header) end_)
                         (slice (r_data r) start end_) absolute in
              (Ok e, with_pos r end_)
      end
  end.

(** The reader of the contents of [e]. *)
Definition childReader (r : Reader) (e : Element) : Reader :=
  MkReader (e_Value e) 0 (e_Offset e + len (e_Raw e) - len (e_Value e))
           (r_depth r + 1) (r_limits r) (r_elements r).

Definition depthError (r : Reader) (e : Element) : error :=
  decodeError (e_Offset e)
    (BerLimitError "depth" (r_depth r + 1) (MaxDepth (r_limits r))).

(** [validateContents] and its loop over the nested elements of [child]. Both
    return the error, if any, and the number of elements read so far; every
    round of the loop consumes input, so the length of the contents is enough
    fuel ([validateLoop_inv]). *)
Fixpoint validateLoop (fuel : nat) (child : Reader) : option error * Z :=
  if Empty child then (None, r_elements child)
  else
    match fuel with
    | O => (Some FuelExhausted, r_elements child)
    | S fuel' =>
        match ReadElement child with
        | (Err err, child) => (Some err, r_elements child)
        | (Ok nested, child) =>
            let '(err, elements) :=
              if negb (id_Constructed (e_Identifier nested)) then (None, r_elements child)
              else if r_depth child =? MaxDepth (r_limits child)
              then (Some (depthError child nested), r_elements child)
              else validateLoop fuel' (childReader child nested) in
            match err with
            | Some err => (Some err, elements)
            | None => validateLoop fuel' (with_elements child elements)
            end
        end
    end.

Definition validateContents (r : Reader) (e : Element) : option error * Z :=
  if negb (id_Constructed (e_Identifier e)) then (None, r_elements r)
  else if r_depth r =? MaxDepth (r_limits r)
  then (Some (depthError r e), r_elements r)
  else validateLoop (length (e_Value e)) (childReader r e).

Definition SkipElement (r : Reader) : result Element * Reader :=
  match ReadElement r with
  | (Err err, r) => (Err err, r)
  | (Ok e, r) =>
      let '(err, elements) := validateContents r e in
      let r := with_elements r elements in
      match err with
      | Some err => (Err err, r)
      | None => (Ok e, r)
      end
  end.

(** [fmt.Errorf("%w: got %s, want %s", ...)] and [fmt.Errorf("%w: %s", ...)]. *)
Definition unexpectedError (got want : Identifier) : error :=
  WrapError ErrUnexpectedIdentifier
    (": got " +:+ Identifier_String got +:+ ", want " +:+ Identifier_String want)%string.
Definition formError (err : error) (id : Identifier) : error :=
  WrapError err (": " +:+ Identifier_String id)%string.

(** Undo a read: the reader back at [r0]'s position and element count. *)
Definition restore (r r0 : Reader) : Reader :=
  with_elements (with_pos r (r_pos r0)) (r_elements r0).

Definition Reader_Primitive (r : Reader) (id : Identifier) : result bytes * Reader :=
  let r0 := r in
  match ReadElement r with
  | (Err err, r) => (Err err, r)
  | (Ok e, r) =>
      if negb (bool_decide (e_Identifier e = id)) then
        let r := restore r r0 in
        if (id_Class (e_Identifier e) =? id_Class id) &&
           (id_Number (e_Identifier e) =? id_Number id) && id_Constructed (e_Identifier e)
        then (Err (decodeError (e_Offset e) (formError ErrPrimitiveRequired id)), r)
        else (Err (decodeError (e_Offset e) (unexpectedError (e_Identifier e) id)), r)
      else if id_Constructed (e_Identifier e) then
        let r := restore r r0 in
        (Err (decodeError (e_Offset e) (formError ErrPrimitiveRequired id)), r)
      else (Ok (e_Value e), r)
  end.

(** The parent is returned advanced past the child. *)
Definition Reader_Constructed (r : Reader) (id : Identifier) : result Reader * Reader :=
  let r0 := r in
  match ReadElement r with
  | (Err err, r) => (Err err, r)
  | (Ok e, r) =>
      if negb (bool_decide (e_Identifier e = id)) then
        let r := restore r r0 in
        if (id_Class (e_Identifier e) =? id_Class id) &&
           (id_Number (e_Identifier e) =? id_Number id) && negb (id_Constructed (e_Identifier e))
        then (Err (decodeError (e_Offset e) (formError ErrConstructedRequired id)), r)
        else (Err (decodeError (e_Offset e) (unexpectedError (e_Identifier e) id)), r)
      else if negb (id_Constructed (e_Identifier e)) then
        let r := restore r r0 in
        (Err (decodeError (e_Offset e) (formError ErrConstructedRequired id)), r)
      else if r_depth r =? MaxDepth (r_limits r) then
        let r := restore r r0 in
        (Err (depthError r e), r)
      else (Ok (childReader r e), r)
  end.

Definition validBoolean (value : bytes) : bool :=
  (len value =? 1) && ((default 0 (value !! 0%nat) =? 0) || (default 0 (value !! 0%nat) =? 0xff)).

Definition Reader_Boolean (r : Reader) : result bool * Reader :=
  let r0 := r in
  match Reader_Primitive r BooleanIdentifier with
  | (Err err, r) => (Err err, r)
  | (Ok value, r) =>
      if negb (validBoolean value)
      then (Err (decodeError (r_base r0 + r_pos r0) ErrInvalidBoolean), restore r r0)
      else (Ok (default 0 (value !! 0%nat) =? 0xff), r)
  end.

Definition Reader_integer (T : inttype) (r : Reader) (id : Identifier) : result Z * Reader :=
  let r0 := r in
  match Reader_Primitive r id with
  | (Err err, r) => (Err err, r)
  | (Ok value, r) =>
      match decodeInteger T value (MaxIntegerBytes (r_limits r)) with
      | Err err => (Err (decodeError (r_base r0 + r_pos r0) err), restore r r0)
      | Ok result => (Ok result, r)
      end
  end.

Definition Reader_Integer (r : Reader) := Reader_integer int64 r IntegerIdentifier.
Definition Reader_IntegerWithIdentifier (r : Reader) (id : Identifier) := Reader_integer int64 r id.
Definition Reader_Enumerated (r : Reader) := Reader_integer int64 r EnumeratedIdentifier.

Definition Reader_OctetString (r : Reader) := Reader_Primitive r OctetStringIdentifier.

Definition Reader_Null (r : Reader) : result unit * Reader :=
  let r0 := r in
  match Reader_Primitive r NullIdentifier with
  | (Err err, r) => (Err err, r)
  | (Ok value, r) =>
      if negb (len value =? 0)
      then (Err (decodeError (r_base r0 + r_pos r0) ErrInvalidNull), restore r r0)
      else (Ok tt, r)
  end.

Definition Reader_Sequence (r : Reader) := Reader_Constructed r SequenceIdentifier.
Definition Reader_Set (r : Reader) := Reader_Constructed r SetIdentifier.

Definition DecodeElement (data : bytes) (limits : Limits) : result Element :=
  r ← NewReader data limits;
  match ReadElement r with
  | (Err err, _) => Err err
  | (Ok e, r) =>
      match RequireEmpty r with
      | Some err => Err err
      | None => Ok e
      end
  end.

(** ** Reading encodings *)

(** The bytes not read yet. *)
Definition unread (r : Reader) : bytes := slice_from (r_data r) (r_pos r).

(** The reader after [n] bytes and [k] elements. *)
Definition advance (r : Reader) (n k : Z) : Reader :=
  MkReader (r_data r) (r_pos r + n) (r_base r) (r_depth r) (r_limits r) (r_elements r + k).

(** The cursor is inside the data and the counter inside its limit. *)
Definition reader_ok (r : Reader) : Prop :=
  0 <= r_pos r <= len (r_data r) /\ r_elements r <= MaxElements (r_limits r).

(** The limits of [r] admit the element tree [t] next. *)
Definition fits (r : Reader) (t : tlv) : Prop :=
  wf_tlv (MaxTagNumber (r_limits r)) t = true /\
  r_elements r + count t <= MaxElements (r_limits r) /\
  r_depth r + height t <= MaxDepth (r_limits r).

Definition element_of (t : tlv) (off : Z) : Element :=
  MkElement (tid t) (contents t) (enc t) off.

Lemma len_unread r : reader_ok r -> len (unread r) = Remaining r.
Proof. intros [H _]. unfold unread, Remaining. rewrite len_slice_from; lia. Qed.

Lemma unread_advance r n k l rest :
  0 <= r_pos r -> unread r = l ++ rest -> n = len l -> unread (advance r n k) = rest.
Proof.
  unfold unread. simpl. intros Hp Hu ->. pose proof (len_nonneg l).
  rewrite slice_from_from, Hu by lia. by apply slice_from_app.
Qed.

Lemma advance_advance r n k n' k' :
  advance (advance r n k) n' k' = advance r (n + n') (k + k').
Proof. unfold advance. simpl. f_equal; lia. Qed.

Lemma advance_ok r n k l rest :
  reader_ok r -> unread r = l ++ rest -> n = len l -> r_elements r + k <= MaxElements (r_limits r) ->
  reader_ok (advance r n k).
Proof.
  intros [Hp He] Hu -> Hk. split; [|done]. simpl. pose proof (len_nonneg l).
  assert (len (unread r) = len (r_data r) - r_pos r) as H1 by (unfold unread; rewrite len_slice_from; lia).
  rewrite Hu, len_app in H1. pose proof (len_nonneg rest). lia.
Qed.

Lemma Empty_unread r : reader_ok r -> Empty r = true <-> unread r = [].
Proof.
  intros Hr. rewrite <- len_zero, len_unread by done. unfold Empty. lia.
Qed.

Lemma PeekIdentifier_enc r t rest :
  unread r = enc t ++ rest -> wf_tlv (MaxTagNumber (r_limits r)) t = true ->
  Reader_PeekIdentifier r = Ok (tid t).
Proof.
  intros Hu Hwf. apply wf_tlv_id in Hwf as [Hid _]. apply id_ok_wf in Hid as [Hid Hm].
  unfold Reader_PeekIdentifier. change (slice_from (r_data r) (r_pos r)) with (unread r).
  rewrite Hu, enc_eq. unfold header. rewrite <- !app_assoc.
  by rewrite decodeIdentifier_append.
Qed.

Lemma ReadElement_enc r t rest :
  reader_ok r -> unread r = enc t ++ rest ->
  wf_tlv (MaxTagNumber (r_limits r)) t = true ->
  r_elements r < MaxElements (r_limits r) ->
  ReadElement r = (Ok (element_of t (Offset r)), advance r (len (enc t)) 1).
Proof.
  intros [Hp He] Hu Hwf Hmax. apply wf_tlv_id in Hwf as [Hid Hlen].
  apply id_ok_wf in Hid as [Hid Hm].
  assert (len (unread r) = len (r_data r) - r_pos r) as Hul
    by (unfold unread; rewrite len_slice_from; lia).
  assert (unread r = appendIdentifier [] (tid t) ++ appendLength [] (len (contents t)) ++
            contents t ++ rest) as Hu'.
  { rewrite Hu, enc_eq. unfold header. by rewrite <- !app_assoc. }
  pose proof (len_nonneg (contents t)). pose proof (len_nonneg rest).
  pose proof (appendIdentifier_nonempty (tid t)).
  pose proof (appendLength_nonempty (len (contents t))).
  unfold ReadElement. change (slice_from (r_data r) (r_pos r)) with (unread r).
  rewrite Hu', decodeIdentifier_append by done.
  rewrite slice_from_from by lia. change (slice_from (r_data r) (r_pos r)) with (unread r).
  rewrite Hu', slice_from_app by done. rewrite decodeLength_append by lia.
  assert (len (enc t) = len (appendIdentifier [] (tid t)) +
            len (appendLength [] (len (contents t))) + len (contents t)) as Henc.
  { rewrite (enc_eq t). unfold header. rewrite !len_app. lia. }
  assert (len (unread r) = len (enc t) + len rest) as Hul' by (rewrite Hu, len_app; lia).
  replace (len (contents t) >? _) with false by lia.
  replace (r_elements r =? _) with false by lia.
  unfold element_of, Offset, advance, with_pos, with_elements. cbn [r_data r_pos r_base r_depth r_limits r_elements].
  f_equal; [|f_equal; lia]. f_equal. f_equal.
  - rewrite <- (Z.add_assoc (r_pos r)), slice_of_from by lia.
    change (slice_from (r_data r) (r_pos r)) with (unread r). rewrite Hu', app_assoc.
    apply slice_prefix; rewrite len_app; lia.
  - rewrite <- (Z.add_0_r (r_pos r)) at 1. rewrite <- (Z.add_assoc (r_pos r) _ (len (contents t))), slice_of_from by lia.
    change (slice_from (r_data r) (r_pos r)) with (unread r). rewrite Hu.
    apply (slice_prefix [] (enc t)); [done|rewrite len_nil; lia].
Qed.

Lemma fits_tail_count (ts : list tlv) : 0 <= foldr Z.add 0 (map count ts).
Proof. induction ts as [|t ts IH]; simpl; [lia|]. pose proof (count_pos t). lia. Qed.

Lemma fits_tail_height (ts : list tlv) : 0 <= foldr Z.max 0 (map height ts).
Proof. induction ts as [|t ts IH]; simpl; lia. Qed.

(** A reader over the encodings [ts] of nested elements, with room for them. *)
Definition fits_all (r : Reader) (ts : list tlv) : Prop :=
  Forall (fun t => wf_tlv (MaxTagNumber (r_limits r)) t = true) ts /\
  r_elements r + foldr Z.add 0 (map count ts) <= MaxElements (r_limits r) /\
  r_depth r + foldr Z.max 0 (map height ts) <= MaxDepth (r_limits r).

Lemma fits_all_nil r : reader_ok r -> fits_all r [] \/ MaxDepth (r_limits r) < r_depth r.
Proof.
  intros [_ H]. destruct (Z.le_gt_cases (r_depth r) (MaxDepth (r_limits r))); [left|by right].
  unfold fits_all. simpl. repeat split; auto; lia.
Qed.

Lemma fits_all_cons r t ts : fits_all r (t :: ts) ->
  fits r t /\ fits_all (advance r (len (enc t)) (count t)) ts.
Proof.
  intros (H1 & H2 & H3). inversion_clear H1. simpl in *.
  pose proof (count_pos t). pose proof (fits_tail_count ts). pose proof (fits_tail_height ts).
  unfold fits, fits_all. simpl. repeat split; auto; lia.
Qed.

(** Entering a constructed element: the child reader holds its elements. *)
Lemma childReader_enc r id ts rest :
  reader_ok r -> unread r = enc (Cons id ts) ++ rest -> fits r (Cons id ts) ->
  let r' := advance r (len (enc (Cons id ts))) 1 in
  let c := childReader r' (element_of (Cons id ts) (Offset r)) in
  reader_ok c /\ unread c = concat (map enc ts) /\ fits_all c ts /\
  r_depth r <> MaxDepth (r_limits r).
Proof.
  intros Hr Hu (Hwf & Hc & Hh) r' c. apply wf_tlv_cons in Hwf as (_ & _ & Hwf & _).
  simpl in Hc, Hh. pose proof (fits_tail_count ts). pose proof (fits_tail_height ts).
  pose proof (len_nonneg (concat (map enc ts))).
  unfold c, r'. split; [split; simpl; lia|]. split.
  - unfold unread. simpl. unfold slice_from. by rewrite drop_0.
  - split; [|lia]. unfold fits_all. simpl. repeat split; auto; lia.
Qed.

Lemma validateLoop_enc fuel : forall child ts,
  reader_ok child -> unread child = concat (map enc ts) -> fits_all child ts ->
  len (unread child) <= Z.of_nat fuel ->
  validateLoop fuel child = (None, r_elements child + foldr Z.add 0 (map count ts)).
Proof.
  induction fuel as [|fuel IH]; intros child ts Hr Hu Hf Hlen.
  - assert (ts = []) as ->.
    { destruct ts as [|t ts]; [done|]. rewrite Hu in Hlen. simpl in Hlen.
      rewrite len_app in Hlen. pose proof (enc_nonempty t).
      pose proof (len_nonneg (concat (map enc ts))). lia. }
    simpl. apply Empty_unread in Hu as ->; [|done]. f_equal. lia.
  - cbn [validateLoop]. destruct ts as [|t ts].
    { apply Empty_unread in Hu as ->; [|done]. simpl. f_equal. lia. }
    simpl in Hu. destruct (Empty child) eqn:He.
    { apply Empty_unread in He; [|done]. rewrite He in Hu. pose proof (enc_nonempty t).
      symmetry in Hu. apply app_eq_nil in Hu as [Hu _]. rewrite Hu, len_nil in H. lia. }
    destruct (fits_all_cons child t ts Hf) as [Ht Hts].
    pose proof (count_pos t) as Hct. destruct Ht as (Hwf & Hc & Hh).
    rewrite (ReadElement_enc child t (concat (map enc ts))) by (done || lia).
    change (e_Identifier (element_of t (Offset child))) with (tid t). rewrite Hu, len_app in Hlen.
    pose proof (contents_lt_enc t) as Hct2.
    assert (validateLoop fuel (advance child (len (enc t)) (count t)) =
      (None, r_elements child + foldr Z.add 0 (map count (t :: ts)))) as Hrest.
    { rewrite (IH _ ts).
      - simpl. f_equal. lia.
      - eapply advance_ok; [done|exact Hu|done|lia].
      - eapply unread_advance; [apply Hr|exact Hu|done].
      - done.
      - rewrite (unread_advance child _ _ (enc t) (concat (map enc ts))); [|apply Hr|done|done].
        pose proof (enc_nonempty t). lia. }
    destruct t as [id v|id ts0].
    + simpl in Hwf. zbool. cbn [tid]. rewrite H0. exact Hrest.
    + destruct (childReader_enc child id ts0 (concat (map enc ts)) Hr Hu) as (Hr0 & Hu0 & Hf0 & Hd);
        [done|]. cbn zeta in *.
      pose proof (wf_tlv_cons _ _ _ Hwf) as (_ & Hk & _ & _). cbn [tid]. rewrite Hk. cbn [negb].
      change (r_depth (advance child ?n ?k)) with (r_depth child).
      change (r_limits (advance child ?n ?k)) with (r_limits child).
      replace (r_depth child =? _) with false by lia. rewrite (IH _ ts0 Hr0 Hu0 Hf0) 
        by (change (contents (Cons id ts0)) with (concat (map enc ts0)) in Hct2;
            pose proof (len_nonneg (concat (map enc ts))); rewrite Hu0; lia).
      cbn [childReader advance r_elements]. rewrite <- Hrest. f_equal.
      unfold advance, with_elements. simpl. f_equal. lia.
Qed.

Lemma SkipElement_enc r t rest :
  reader_ok r -> unread r = enc t ++ rest -> fits r t ->
  SkipElement r = (Ok (element_of t (Offset r)), advance r (len (enc t)) (count t)).
Proof.
  intros Hr Hu Hf. destruct Hf as (Hwf & Hc & Hh). pose proof (count_pos t).
  unfold SkipElement. rewrite (ReadElement_enc r t rest) by (done || lia).
  unfold validateContents. change (e_Identifier (element_of t (Offset r))) with (tid t).
  destruct t as [id v|id ts].
  - simpl in Hwf. zbool. cbn [tid]. rewrite H1. done.
  - pose proof (wf_tlv_cons _ _ _ Hwf) as (_ & Hk & _ & _). cbn [tid]. rewrite Hk. cbn [negb].
    destruct (childReader_enc r id ts rest Hr Hu) as (Hr0 & Hu0 & Hf0 & Hd); [done|].
    cbn zeta in *. change (r_depth (advance r ?n ?k)) with (r_depth r).
    change (r_limits (advance r ?n ?k)) with (r_limits r).
    replace (r_depth r =? _) with false by lia.
    rewrite (validateLoop_enc _ _ ts Hr0 Hu0 Hf0) by (rewrite Hu0; unfold len; simpl; lia).
    cbn [childReader advance r_elements]. f_equal. unfold with_elements, advance. simpl. f_equal. lia.
Qed.

(** ** What a successful read returns *)

Lemma ReadElement_err r e r' : ReadElement r = (Err e, r') -> r' = r /\ asDecodeError e = true.
Proof.
  assert (forall o e, asDecodeError (decodeError o e) = true) as Hd.
  { intros o e0. unfold decodeError. by destruct (asDecodeError e0) eqn:?. }
  unfold ReadElement. intros H.
  repeat case_match; simplify_eq; auto.
Qed.

(** The inverse of [ReadElement_enc]: the bytes read are the canonical encoding
    of the element, the cursor moved exactly past them, and the counter is
    still within its limit. *)
Lemma ReadElement_inv r e r' :
  reader_ok r -> Forall is_byte (unread r) -> ReadElement r = (Ok e, r') ->
  e_Raw e = header (e_Identifier e) (len (e_Value e)) ++ e_Value e /\
  unread r = e_Raw e ++ unread r' /\ r' = advance r (len (e_Raw e)) 1 /\
  id_ok (MaxTagNumber (r_limits r)) (e_Identifier e) = true /\
  len (e_Value e) <= MaxInt /\ e_Offset e = Offset r /\ reader_ok r'.
Proof.
  intros [Hp He] Hb H. unfold ReadElement in H.
  change (slice_from (r_data r) (r_pos r)) with (unread r) in H.
  destruct (decodeIdentifier (unread r) _) as [[id idBytes]|] eqn:Hid; [|done].
  apply decodeIdentifier_inv in Hid as (Hwf & Hm & rest1 & Hu1 & ->); [|done].
  pose proof (appendIdentifier_nonempty id) as Hn1.
  rewrite slice_from_from in H by lia.
  change (slice_from (r_data r) (r_pos r)) with (unread r) in H.
  rewrite Hu1, slice_from_app in H by done.
  destruct (decodeLength rest1) as [[n lengthBytes]|] eqn:Hl; [|done].
  assert (Forall is_byte rest1) as Hb1 by (rewrite Hu1, Forall_app in Hb; tauto).
  apply decodeLength_inv in Hl as (Hn & rest2 & -> & ->); [|done].
  pose proof (appendLength_nonempty n) as Hn2.
  assert (len (unread r) = len (r_data r) - r_pos r) as Hul
    by (unfold unread; rewrite len_slice_from; lia).
  destruct (n >? _) eqn:Htr; [done|]. destruct (_ =? _) eqn:Hel; [done|]. zbool.
  assert (r_elements r < MaxElements (r_limits r)) by lia.
  assert (n <= len rest2) as Hnr by (rewrite Hu1, !len_app in Hul; lia).
  injection H as <- <-. cbn [e_Raw e_Identifier e_Value e_Offset].
  set (v := slice _ (_ + (_ + _)) _). set (raw := slice _ (r_pos r) _).
  assert (len (take (Z.to_nat n) rest2) = n) as Hlt
    by (unfold len in *; rewrite length_take; lia).
  assert (v = take (Z.to_nat n) rest2) as Hv.
  { unfold v. rewrite <- (Z.add_assoc (r_pos r)), slice_of_from by lia.
    cbn [r_data with_elements]. change (slice_from (r_data r) (r_pos r)) with (unread r). rewrite Hu1.
    rewrite <- (take_drop (Z.to_nat n) rest2) at 1. rewrite (app_assoc (appendIdentifier [] id)).
    apply slice_prefix; rewrite len_app; lia. }
  assert (len v = n) as Hlv by (by rewrite Hv).
  assert (raw = appendIdentifier [] id ++ appendLength [] n ++ v) as Hraw.
  { unfold raw. rewrite <- (Z.add_0_r (r_pos r)) at 1.
    rewrite <- (Z.add_assoc (r_pos r) _ n), slice_of_from by lia.
    cbn [r_data with_elements]. change (slice_from (r_data r) (r_pos r)) with (unread r). rewrite Hu1.
    rewrite <- (take_drop (Z.to_nat n) rest2), <- Hv, (app_assoc (appendLength [] n)), app_assoc.
    apply (slice_prefix []); [done|]. rewrite !len_app, len_nil. lia. }
  assert (unread r = raw ++ drop (Z.to_nat n) rest2) as Hu.
  { rewrite Hraw, Hu1, Hv, <- !app_assoc. by rewrite take_drop. }
  rewrite Hlv. unfold header. rewrite <- app_assoc.
  assert (len raw = len (appendIdentifier [] id) + len (appendLength [] n) + n) as Hlraw
    by (rewrite Hraw, !len_app; lia).
  assert (with_pos (with_elements r (r_elements r + 1)) (r_pos r + (len (appendIdentifier [] id) + len (appendLength [] n)) + n)
    = advance r (len raw) 1) as ->.
  { unfold with_pos, with_elements, advance. simpl. f_equal. lia. }
  assert (id_ok (MaxTagNumber (r_limits r)) id = true).
  { unfold id_ok. destruct Hwf. destruct Hm; lia. }
  repeat split; auto; try lia.
  - rewrite (unread_advance r _ _ raw (drop (Z.to_nat n) rest2)); [done|lia|done|done].
  - simpl. lia.
  - simpl. rewrite Hlraw. rewrite Hu1, !len_app in Hul. lia.
  - simpl. lia.
Qed.

(** An element's contents are shorter than the element. *)
Lemma value_lt_raw e :
  e_Raw e = header (e_Identifier e) (len (e_Value e)) ++ e_Value e ->
  len (e_Value e) + 2 <= len (e_Raw e).
Proof.
  intros ->. unfold header. rewrite !len_app.
  pose proof (appendIdentifier_nonempty (e_Identifier e)).
  pose proof (appendLength_nonempty (len (e_Value e))). lia.
Qed.

(** What the validation loop establishes: the fuel suffices, the counter stays
    within its limit, and success means that the contents are a sequence of
    well-formed element trees inside the limits. *)
Definition validated (child : Reader) (res : option error * Z) : Prop :=
  fst res <> Some FuelExhausted /\ r_elements child <= snd res <= MaxElements (r_limits child) /\
  (fst res = None -> exists ts, unread child = concat (map enc ts) /\ fits_all child ts /\
     snd res = r_elements child + foldr Z.add 0 (map count ts)).

Lemma validated_step child nested fuel res :
  reader_ok child -> r_depth child <= MaxDepth (r_limits child) ->
  unread child = e_Raw nested ++ unread (advance child (len (e_Raw nested)) 1) ->
  (exists t, e_Raw nested = enc t /\ fits child t /\
     r_elements child + count t = r_elements res /\
     res = advance child (len (e_Raw nested)) (count t)) ->
  validated res (validateLoop fuel res) -> validated child (validateLoop fuel res).
Proof.
  intros Hr Hd Hu (t & Hraw & Hf & Hc & Hres) (H1 & H2 & H3).
  pose proof (count_pos t). subst res. split; [done|]. simpl in *. split; [lia|].
  intros Hnone. destruct (H3 Hnone) as (ts & Hu' & (F1 & F2 & F3) & Hn). exists (t :: ts).
  destruct Hf as (G1 & G2 & G3). simpl in *. split; [|split; [|lia]].
  - rewrite Hu, <- Hu', <- Hraw. done.
  - unfold fits_all. simpl. split; [by constructor|]. lia.
Qed.

Lemma validateLoop_inv fuel : forall child,
  reader_ok child -> r_depth child <= MaxDepth (r_limits child) ->
  Forall is_byte (unread child) -> len (unread child) <= Z.of_nat fuel ->
  validated child (validateLoop fuel child).
Proof.
  induction fuel as [|fuel IH]; intros child Hr Hd Hb Hlen.
  all: assert (Empty child = true -> validated child (None, r_elements child)) as Hempty.
  1,3: intros He; apply Empty_unread in He; [|done]; destruct (fits_all_nil child Hr) as [Hf|?]; [|lia];
       destruct Hr as [_ Hr]; split; [done|]; split; [simpl; lia|]; intros _; exists [];
       repeat split; try done; try apply Hf; simpl; lia.
  - cbn [validateLoop]. assert (unread child = []) as Hu.
    { apply len_zero. pose proof (len_nonneg (unread child)). lia. }
    apply Empty_unread in Hu as He; [|done]. rewrite He. auto.
  - cbn [validateLoop]. destruct (Empty child) eqn:He; [auto|]. clear Hempty.
    destruct (ReadElement child) as [[nested|err] child'] eqn:HR.
    2:{ apply ReadElement_err in HR as [-> HR]. destruct Hr.
        split; [simpl; intros [= ->]; done|]. split; [simpl; lia|done]. }
    apply ReadElement_inv in HR as (Hraw & Hu & -> & Hid & Hlv & Hoff & Hr'); [|done|done].
    set (child' := advance child (len (e_Raw nested)) 1) in *.
    pose proof (value_lt_raw nested Hraw) as Hle. pose proof (len_nonneg (unread child')).
    rewrite Hu, len_app in Hlen. pose proof (len_nonneg (e_Value nested)).
    rewrite Hu in Hb. apply Forall_app in Hb as [Hb1 Hb2].
    assert (Forall is_byte (e_Value nested)) as Hbv by (rewrite Hraw, Forall_app in Hb1; tauto).
    assert (forall t, e_Raw nested = enc t -> fits child t ->
      validated child (validateLoop fuel (with_elements child' (r_elements child + count t)))) as Hrest.
    { intros t Ht Hf. apply (validated_step child nested); try done.
      - exists t. split; [done|]. split; [done|]. split; reflexivity.
      - apply IH; try done; [|change (unread (with_elements child' ?n)) with (unread child'); lia].
        destruct Hr' as [Hr' _]. split; [done|]. simpl. by destruct Hf as (_ & ? & _). }
    destruct (id_Constructed (e_Identifier nested)) eqn:Hk; cbn [negb].
    + change (r_depth child') with (r_depth child). change (r_limits child') with (r_limits child).
      destruct (r_depth child =? _) eqn:Hdm; zbool.
      { destruct Hr' as [_ Hr']. split; [done|]. simpl in *. split; [lia|done]. }
      destruct (IH (childReader child' nested)) as (K1 & K2 & K3).
      * split; simpl; [pose proof (len_nonneg (e_Value nested)); lia|].
        by destruct Hr'.
      * simpl. lia.
      * unfold unread, slice_from. simpl. by rewrite drop_0.
      * unfold unread, slice_from. simpl. rewrite drop_0. lia.
      * destruct (validateLoop fuel (childReader child' nested)) as [[err|] n]; simpl in *.
        { split; [done|]. simpl. split; [lia|done]. }
        destruct K3 as (ts & Hts & (F1 & F2 & F3) & ->); [done|]. simpl in F1, F2, F3.
        unfold unread, slice_from in Hts. simpl in Hts. rewrite drop_0 in Hts.
        replace (r_elements child + 1 + foldr Z.add 0 (map count ts))
          with (r_elements child + count (Cons (e_Identifier nested) ts)) by (simpl; lia).
        apply Hrest.
        -- rewrite Hraw, Hts. done.
        -- unfold fits. simpl. rewrite Hid, Hk, <- Hts.
           replace (len (e_Value nested) <=? MaxInt) with true by lia. cbn [andb].
           split; [|lia]. apply forallb_forall. intros t Ht. rewrite Forall_forall in F1.
           apply F1. by apply list_elem_of_In.
    + replace (r_elements child') with (r_elements child + count (Prim (e_Identifier nested) (e_Value nested)))
        by (simpl; lia).
      apply Hrest; [by rewrite Hraw|]. destruct Hr' as [_ Hr']. unfold fits. simpl in *.
      rewrite Hid, Hk. simpl. lia.
Qed.

(** The validation of an element that was just read, from any reader of the
    element's own contents. *)
Lemma validateContents_inv r e r' :
  reader_ok r -> r_depth r <= MaxDepth (r_limits r) -> Forall is_byte (unread r) ->
  ReadElement r = (Ok e, r') ->
  fst (validateContents r' e) <> Some FuelExhausted /\
  r_elements r < snd (validateContents r' e) <= MaxElements (r_limits r) /\
  (fst (validateContents r' e) = None -> exists t, e_Raw e = enc t /\ fits r t /\
     e = element_of t (Offset r) /\ snd (validateContents r' e) = r_elements r + count t).
Proof.
  intros Hr Hd Hb H. apply ReadElement_inv in H as (Hraw & Hu & -> & Hid & Hlv & Hoff & Hr'); [|done|done].
  rewrite Hu in Hb. apply Forall_app in Hb as [Hb _]. rewrite Hraw in Hb. apply Forall_app in Hb as [_ Hb].
  set (r1 := advance r _ 1) in *. unfold validateContents.
  assert (r_elements r1 = r_elements r + 1) as He1 by done. destruct Hr' as [Hr' He'].
  change (r_limits r1) with (r_limits r) in *. change (r_depth r1) with (r_depth r).
  destruct e as [id v raw off]. cbn [e_Raw e_Identifier e_Value e_Offset] in *. subst off.
  destruct (id_Constructed id) eqn:Hk; cbn [negb].
  - destruct (_ =? _) eqn:Hdm; zbool; [cbn; split; [done|]; split; [lia|done]|].
    set (child := childReader r1 _).
    assert (unread child = v) as Huc by (unfold unread, slice_from; cbn; by rewrite drop_0).
    destruct (validateLoop_inv (length v) child) as (K1 & K2 & K3).
    + split; cbn; [pose proof (len_nonneg v); lia|done].
    + cbn. change (r_depth r1) with (r_depth r). change (r_limits r1) with (r_limits r). lia.
    + by rewrite Huc.
    + rewrite Huc. unfold len. lia.
    + change (r_elements child) with (r_elements r + 1) in *.
      change (r_limits child) with (r_limits r) in *.
      split; [done|]. split; [lia|]. intros Hn. destruct (K3 Hn) as (ts & Hts & (F1 & F2 & F3) & ->).
      rewrite Huc in Hts. exists (Cons id ts).
      change (r_limits child) with (r_limits r) in *. change (r_elements child) with (r_elements r + 1) in *.
      change (r_depth child) with (r_depth r + 1) in *.
      split; [by rewrite Hraw, Hts|]. split; [|split; [rewrite Hraw; by rewrite Hts|cbn; lia]].
      unfold fits. cbn. rewrite Hid, Hk, <- Hts. replace (len _ <=? MaxInt) with true by lia. cbn [andb].
      split; [|lia]. apply forallb_forall. intros t Ht. rewrite Forall_forall in F1.
      apply F1. by apply list_elem_of_In.
  - split; [done|]. cbn [fst snd]. split; [lia|]. intros _. exists (Prim id v).
    split; [done|]. split; [|split; [by rewrite Hraw|cbn; lia]].
    unfold fits. cbn. rewrite Hid, Hk. cbn. lia.
Qed.

(** C26. Validation of nested elements is exact: [SkipElement] succeeds if and
    only if the unread bytes start with the canonical encoding of an element
    tree whose tags, element count and depth are within the limits; it then
    returns that element, moves past exactly its bytes and charges exactly its
    elements. It terminates within its fuel, and whatever the bytes are, it
    leaves the cursor inside the data and the element counter inside its
    limit. *)
Theorem skip_element_exact r : reader_ok r -> r_depth r <= MaxDepth (r_limits r) ->
  Forall is_byte (unread r) ->
  (forall e r', SkipElement r = (Ok e, r') <->
     exists t rest, unread r = enc t ++ rest /\ fits r t /\
       e = element_of t (Offset r) /\ r' = advance r (len (enc t)) (count t)) /\
  fst (SkipElement r) <> Err FuelExhausted /\ reader_ok (snd (SkipElement r)).
Proof.
  intros Hr Hd Hb. split.
  { intros e r'. split.
    2:{ intros (t & rest & Hu & Hf & -> & ->). by apply (SkipElement_enc r t rest). }
    unfold SkipElement. destruct (ReadElement r) as [[e0|err] r1] eqn:HR; [|done].
    pose proof (validateContents_inv r e0 r1 Hr Hd Hb HR) as (_ & _ & Hv).
    apply ReadElement_inv in HR as (_ & Hu & -> & _); [|done|done].
    destruct (validateContents _ _) as [[err|] n]; [done|]. intros [= <- <-].
    destruct (Hv eq_refl) as (t & Hraw & Hf & He & Hn). cbn in Hn. subst n.
    exists t, (unread (advance r (len (e_Raw e0)) 1)). rewrite Hraw in *. repeat split; try done; apply Hf. }
  unfold SkipElement. destruct (ReadElement r) as [[e|err] r1] eqn:HR.
  - pose proof (validateContents_inv r e r1 Hr Hd Hb HR) as (Hf & Hn & _).
    apply ReadElement_inv in HR as (_ & _ & -> & _ & _ & _ & [Hp _]); [|done|done].
    destruct (validateContents _ _) as [[err|] n]; cbn in *.
    + split; [congruence|]. split; cbn; lia.
    + split; [done|]. split; cbn; lia.
  - apply ReadElement_err in HR as [-> He]. cbn. split; [|done]. by intros [= ->].
Qed.

Lemma skip_element_exact_witness :
  let r := MkReader [48; 3; 2; 1; 5; 255] 0 0 0 DefaultLimits 0 in
  fst (SkipElement r) <> Err FuelExhausted /\ r_pos (snd (SkipElement r)) = 5.
Proof.
  intros r. split; [|vm_compute; reflexivity].
  apply (skip_element_exact r).
  - vm_compute. repeat split; intros; discriminate.
  - vm_compute. discriminate.
  - repeat constructor; discriminate.
Defined.

Lemma restore_advance r n k : restore (advance r n k) r = r.
Proof. by destruct r. Qed.

(** Failed reads change nothing: when a typed read ([Primitive],
    [Constructed], [Boolean], the integers, [Null]) refuses the next element,
    for its identifier, its form, its depth or its contents, the reader is
    where it was, with its element counter, so that the caller can try
    another type. *)
Theorem failed_reads_restore r : reader_ok r -> Forall is_byte (unread r) ->
  (forall id err r', Reader_Primitive r id = (Err err, r') -> r' = r) /\
  (forall id err r', Reader_Constructed r id = (Err err, r') -> r' = r) /\
  (forall err r', Reader_Boolean r = (Err err, r') -> r' = r) /\
  (forall T id err r', Reader_integer T r id = (Err err, r') -> r' = r) /\
  (forall err r', Reader_Null r = (Err err, r') -> r' = r).
Proof.
  intros Hr Hb.
  assert (forall id, match Reader_Primitive r id with
                     | (Err _, r') => r' = r
                     | (Ok _, r') => restore r' r = r
                     end) as Hp.
  { intros id. unfold Reader_Primitive. destruct (ReadElement r) as [[e|err] r1] eqn:HR.
    - apply ReadElement_inv in HR as (_ & _ & -> & _); [|done|done].
      repeat case_match; simplify_eq; by rewrite ?restore_advance.
    - by apply ReadElement_err in HR as [-> _]. }
  split_and!.
  - intros id err r' H. specialize (Hp id). by rewrite H in Hp.
  - intros id err r' H. unfold Reader_Constructed in H.
    destruct (ReadElement r) as [[e|err'] r1] eqn:HR.
    + apply ReadElement_inv in HR as (_ & _ & -> & _); [|done|done]. rewrite restore_advance in H.
      repeat case_match; by simplify_eq.
    + apply ReadElement_err in HR as [-> _]. congruence.
  - intros err r' H. unfold Reader_Boolean in H. specialize (Hp BooleanIdentifier).
    destruct (Reader_Primitive _ _) as [[v|] r1]; repeat case_match; by simplify_eq.
  - intros T id err r' H. unfold Reader_integer in H. specialize (Hp id).
    destruct (Reader_Primitive _ _) as [[v|] r1]; repeat case_match; by simplify_eq.
  - intros err r' H. unfold Reader_Null in H. specialize (Hp NullIdentifier).
    destruct (Reader_Primitive _ _) as [[v|] r1]; repeat case_match; by simplify_eq.
Qed.

Lemma failed_reads_restore_witness :
  let r := MkReader [1; 1; 7] 0 0 0 DefaultLimits 0 in
  fst (Reader_Boolean r) = Err (DecodeError 0 ErrInvalidBoolean) /\ snd (Reader_Boolean r) = r.
Proof.
  intros r. split; [vm_compute; reflexivity|].
  assert (Reader_Boolean r = (Err (DecodeError 0 ErrInvalidBoolean), snd (Reader_Boolean r))) as H
    by (vm_compute; reflexivity).
  refine (proj1 (proj2 (proj2 (failed_reads_restore r _ _))) _ _ H).
  - vm_compute. repeat split; intros; discriminate.
  - repeat constructor; discriminate.
Defined.
