(* ===== verification/Framer.v ===== *)
(** * Stream framing

    Models src/ber/framer.go: acquiring complete top-level BER elements from a
    byte stream. The buffered reader is the list of bytes the transport still
    delivers and the error it reports after them, so the model covers every
    way the transport splits its reads.

    Go's [make] panics for a negative length; [FramePanic] is that outcome. *)

From S2P Require Import Prelude Wire Packet Reader.

Record Framer := MkFramer {
  f_stream : bytes;
  f_end : error;
  f_limits : Limits
}.

Definition with_stream (f : Framer) (s : bytes) : Framer := MkFramer s (f_end f) (f_limits f).

Inductive framed :=
| Frame (frame : bytes)
| FrameErr (err : error)
| FramePanic.

Definition NewFramer (stream : bytes) (end_ : error) (limits : Limits) : result Framer :=
  match Limits_Validate limits with
  | Some err => Err err
  | None => Ok (MkFramer stream end_ limits)
  end.

(** [bufio.Reader.ReadByte]. *)
Definition ReadByte (f : Framer) : result Z * Framer :=
  match f_stream f with
  | [] => (Err (f_end f), f)
  | b :: s => (Ok b, with_stream f s)
  end.

Definition readByte (f : Framer) (offset : Z) : result Z * Framer :=
  match ReadByte f with
  | (Ok b, f) => (Ok b, f)
  | (Err err, f) =>
      if bool_decide (err = EOF) then (Err (decodeError offset ErrTruncated), f)
      else (Err err, f)
  end.

Definition lengthByteCount (first : Z) : Z :=
  if Z.land first 0x80 =? 0 then 0 else Z.land first 0x7f.

(** The loop over the tag bytes: it ends when the header has six bytes, so
    five rounds are enough. *)
Fixpoint readIdentifier (fuel : nat) (header : bytes) (f : Framer) : result bytes * Framer :=
  match fuel with
  | O => (Err FuelExhausted, f)
  | S fuel' =>
      match readByte f (len header) with
      | (Err err, f) => (Err err, f)
      | (Ok b, f) =>
          let header := header ++ [b] in
          if Z.land b 0x80 =? 0 then (Ok header, f)
          else if len header =? 6 then (Err (decodeError 0 ErrInvalidIdentifier), f)
          else readIdentifier fuel' header f
      end
  end.

(** [for range n]. *)
Fixpoint readLengthBytes (n : nat) (header : bytes) (f : Framer) : result bytes * Framer :=
  match n with
  | O => (Ok header, f)
  | S n' =>
      match readByte f (len header) with
      | (Err err, f) => (Err err, f)
      | (Ok b, f) => readLengthBytes n' (header ++ [b]) f
      end
  end.

(** [io.ReadFull] of [n] bytes: an end of file after some of them is
    [io.ErrUnexpectedEOF]. *)
Definition ErrUnexpectedEOF : error := ErrorString "unexpected EOF".
Definition ReadFull (f : Framer) (n : Z) : result bytes * Framer :=
  if len (f_stream f) <? n
  then (Err (if negb (len (f_stream f) =? 0) && bool_decide (f_end f = EOF)
             then ErrUnexpectedEOF else f_end f), with_stream f [])
  else (Ok (slice (f_stream f) 0 n), with_stream f (slice_from (f_stream f) n)).

(** The part of [Next] after the identifier. *)
Definition Next_length (header : bytes) (f : Framer) : framed * Framer :=
  match readByte f (len header) with
  | (Err err, f) => (FrameErr err, f)
  | (Ok firstLength, f) =>
      let header := header ++ [firstLength] in
      let '(read, f) :=
        if negb (Z.land firstLength 0x80 =? 0) then
          let n := Z.land firstLength 0x7f in
          if n =? 0 then (Err (decodeError (len header - 1) ErrIndefiniteLength), f)
          else readLengthBytes (Z.to_nat n) header f
        else (Ok header, f) in
      match read with
      | Err err => (FrameErr err, f)
      | Ok header =>
          let start := len header - (1 + lengthByteCount firstLength) in
          match decodeLength (slice_from header start) with
          | Err err => (FrameErr (decodeError start err), f)
          | Ok (length, _) =>
              let total := conv int (len header + length) in
              if total >? MaxFrameBytes (f_limits f)
              then (FrameErr (decodeError (len header)
                     (BerLimitError "frame bytes" (conv uint64 total) (MaxFrameBytes (f_limits f)))), f)
              else if total <? 0 then (FramePanic, f)
              else
                match ReadFull f length with
                | (Err err, f) =>
                    if bool_decide (err = EOF) || bool_decide (err = ErrUnexpectedEOF)
                    then (FrameErr (decodeError (len header) ErrTruncated), f)
                    else (FrameErr err, f)
                | (Ok value, f) => (Frame (header ++ value), f)
                end
          end
      end
  end.

(** The part of [Next] that reads the identifier after its first byte. *)
Definition Next_identifier (f : Framer) (first : Z) : result bytes * Framer :=
  if Z.land first 0x1f =? 0x1f then readIdentifier 5 [first] f else (Ok [first], f).

Definition Next (f : Framer) : framed * Framer :=
  match ReadByte f with
  | (Err err, f) => (FrameErr err, f)
  | (Ok first, f) =>
      match Next_identifier f first with
      | (Err err, f) => (FrameErr err, f)
      | (Ok header, f) =>
          match decodeIdentifier header (MaxTagNumber (f_limits f)) with
          | Err err => (FrameErr (decodeError 0 err), f)
          | Ok _ => Next_length header f
          end
      end
  end.

(** ** Reading prefixes of the stream *)

Lemma readByte_cons f b s off : f_stream f = b :: s -> readByte f off = (Ok b, with_stream f s).
Proof. intros H. unfold readByte, ReadByte. by rewrite H. Qed.

Lemma readByte_inv f off b f' : readByte f off = (Ok b, f') ->
  exists s, f_stream f = b :: s /\ f' = with_stream f s.
Proof.
  unfold readByte, ReadByte. destruct (f_stream f) as [|x s] eqn:E; [case_ifs; done|].
  intros [= <- <-]. eauto.
Qed.

Lemma with_stream_stream f s s' : with_stream (with_stream f s) s' = with_stream f s'.
Proof. done. Qed.

(** Tag bytes: continuation bits on all but the last. *)
Definition tag_tail (x : bytes) : Prop :=
  exists xs b, x = xs ++ [b] /\ Forall (fun c => (Z.land c 0x80 =? 0) = false) xs /\
    (Z.land b 0x80 =? 0) = true.

Lemma tag_tail_cons c x : tag_tail x -> (Z.land c 0x80 =? 0) = false -> tag_tail (c :: x).
Proof. intros (xs & b & -> & Hx & Hb) Hc. exists (c :: xs), b. by split; [|split; [constructor|]]. Qed.

Lemma readIdentifier_ok x : forall fuel hdr f rest,
  tag_tail x -> f_stream f = x ++ rest -> len hdr + len x <= 6 -> (length x <= fuel)%nat ->
  readIdentifier fuel hdr f = (Ok (hdr ++ x), with_stream f rest).
Proof.
  induction x as [|c x IH]; intros fuel hdr f rest Hx Hs Hl Hf.
  { destruct Hx as (xs & b & E & _). by destruct xs. }
  destruct fuel as [|fuel]; [simpl in Hf; lia|]. cbn [readIdentifier].
  rewrite (readByte_cons f c (x ++ rest)) by done. destruct Hx as ([|c' xs] & b & E & Hc & Hb).
  - injection E as -> ->. by rewrite Hb.
  - injection E as -> ->. inversion_clear Hc as [|? ? Hcc Hcs]. rewrite Hcc.
    len_simpl. pose proof (len_nonneg xs). replace (len hdr + (1 + 0) =? 6) with false by lia.
    rewrite (IH fuel (hdr ++ [c']) (with_stream f ((xs ++ [b]) ++ rest)) rest);
      [by rewrite <- app_assoc|by exists xs, b|done|len_simpl; lia|simpl in Hf; lia].
Qed.

Lemma readIdentifier_inv fuel : forall hdr f h f',
  readIdentifier fuel hdr f = (Ok h, f') ->
  exists x rest, h = hdr ++ x /\ tag_tail x /\ f_stream f = x ++ rest /\ f' = with_stream f rest.
Proof.
  induction fuel as [|fuel IH]; intros hdr f h f' H; [done|]. cbn [readIdentifier] in H.
  destruct (readByte f (len hdr)) as [[b|] f1] eqn:E; [|done].
  apply readByte_inv in E as (s & Es & ->). destruct (Z.land b 0x80 =? 0) eqn:Eb.
  - injection H as <- <-. exists [b], s. split; [done|]. split; [|done]. by exists [], b.
  - destruct (len (hdr ++ [b]) =? 6); [done|].
    apply IH in H as (x & rest & -> & Hx & Hs & ->). exists (b :: x), rest.
    split; [by rewrite <- app_assoc|]. split; [by apply tag_tail_cons|].
    split; [|done]. simpl in Hs. by rewrite Es, Hs.
Qed.

Lemma readLengthBytes_ok l : forall hdr f rest, f_stream f = l ++ rest ->
  readLengthBytes (length l) hdr f = (Ok (hdr ++ l), with_stream f rest).
Proof.
  induction l as [|b l IH]; intros hdr f rest Hs; cbn [length readLengthBytes].
  - rewrite app_nil_r. destruct f. simpl in *. by subst.
  - rewrite (readByte_cons f b (l ++ rest)) by done.
    rewrite (IH _ (with_stream f (l ++ rest)) rest) by done. by rewrite <- app_assoc.
Qed.

Lemma readLengthBytes_inv n : forall hdr f h f',
  readLengthBytes n hdr f = (Ok h, f') ->
  exists l rest, h = hdr ++ l /\ length l = n /\ f_stream f = l ++ rest /\ f' = with_stream f rest.
Proof.
  induction n as [|n IH]; intros hdr f h f' H; cbn [readLengthBytes] in H.
  - injection H as <- <-. exists [], (f_stream f). rewrite app_nil_r. by destruct f.
  - destruct (readByte f (len hdr)) as [[b|] f1] eqn:E; [|done].
    apply readByte_inv in E as (s & Es & ->).
    apply IH in H as (l & rest & -> & Hl & Hs & ->). exists (b :: l), rest.
    split; [by rewrite <- app_assoc|]. split; [simpl; lia|]. simpl in Hs. by rewrite Es, Hs.
Qed.

(** The tag bytes of a canonical identifier. *)
Lemma continuation_tail ds : Forall septet ds -> ds <> [] -> tag_tail (continuation_bits ds).
Proof.
  induction ds as [|d ds IH]; intros Hds Hne; [done|]. inversion_clear Hds as [|? ? Hd Hds'].
  destruct (septet_continuation d Hd) as (_ & H2 & _ & _ & H4).
  destruct ds as [|d' ds]; [exists [], d; by split; [|split]|].
  change (continuation_bits (d :: d' :: ds)) with (Z.lor d 0x80 :: continuation_bits (d' :: ds)).
  apply tag_tail_cons; [by apply IH|done].
Qed.

Lemma tag_tail_unique x y rest : tag_tail x -> tag_tail y -> x = y ++ rest -> rest = [].
Proof.
  intros (xs & b & -> & Hx & _) (ys & c & -> & _ & Hc) E.
  destruct rest as [|r rest] using rev_ind; [done|]. exfalso. clear IHrest.
  rewrite app_assoc in E. apply app_inj_tail in E as [E _]. subst xs.
  rewrite <- app_assoc in Hx. apply Forall_app in Hx as [_ Hx]. inversion_clear Hx. congruence.
Qed.

(** ** Canonical headers *)

Lemma identifier_shape id : wf_id id -> exists first x, appendIdentifier [] id = first :: x /\
  if Z.land first 0x1f =? 0x1f then tag_tail x /\ (length x <= 5)%nat else x = [].
Proof.
  destruct id as [c k n]. intros [Hc Hn]. cbn [id_Class id_Number] in *.
  destruct (Z.lt_ge_cases n 31) as [Hlt|Hge].
  - rewrite appendIdentifier_low by lia. exists (first_byte c k n), [].
    destruct (first_byte_fields c k n) as (_ & _ & ->); [lia|lia|].
    by replace (n =? 31) with false by lia.
  - rewrite appendIdentifier_high by lia.
    destruct (base128_digits 5 n) as (ds & H1 & H2 & H3 & H4 & H5); [lia|lia|].
    destruct H4 as [?|H4]; [lia|]. rewrite <- H5, identifier_groups_be, app_nil_r by auto.
    exists (first_byte c k 31), (continuation_bits ds).
    destruct (first_byte_fields c k 31) as (_ & _ & ->); [lia|lia|]. cbn.
    split; [done|]. split; [by apply continuation_tail|].
    pose proof (len_continuation_bits ds). unfold len in *. lia.
Qed.

(** The identifier part of [Next] on a canonical identifier. *)
Lemma Next_identifier_ok f id rest : wf_id id ->
  f_stream f = appendIdentifier [] id ++ rest ->
  exists first f1, ReadByte f = (Ok first, f1) /\
    Next_identifier f1 first = (Ok (appendIdentifier [] id), with_stream f rest).
Proof.
  intros Hid Hs. destruct (identifier_shape id Hid) as (first & x & E & Hx).
  rewrite E in *. exists first, (with_stream f (x ++ rest)). split.
  { unfold ReadByte. by rewrite Hs. }
  unfold Next_identifier. destruct (Z.land first 31 =? 31) eqn:Ef.
  - destruct Hx as [Hx Hl]. rewrite (readIdentifier_ok x 5 [first] _ rest); [done|done|done| |lia].
    rewrite len_cons, len_nil. unfold len. lia.
  - by subst x.
Qed.

Lemma Next_identifier_inv f first h f' m id k :
  Next_identifier f first = (Ok h, f') -> Forall is_byte h -> decodeIdentifier h m = Ok (id, k) ->
  wf_id id /\ (id_Number id < 31 \/ id_Number id <= m) /\ h = appendIdentifier [] id /\
  exists x rest, h = first :: x /\ f_stream f = x ++ rest /\ f' = with_stream f rest.
Proof.
  intros Hn Hb Hd. apply decodeIdentifier_inv in Hd as (Hid & Hm & rest' & Eh & _); [|done].
  split; [done|]. split; [done|]. unfold Next_identifier in Hn.
  destruct (identifier_shape id Hid) as (b & y & Ei & Hy). rewrite Ei in *.
  destruct (Z.land first 31 =? 31) eqn:Ef.
  - apply readIdentifier_inv in Hn as (x & rest & -> & Hx & Hs & ->). injection Eh as -> Exy.
    rewrite Ef in Hy. destruct Hy as [Hy _]. pose proof (tag_tail_unique _ _ _ Hx Hy Exy) as ->.
    rewrite app_nil_r in Exy. subst y. split; [done|]. by exists x, rest.
  - injection Hn as <- <-. injection Eh as -> Exy. symmetry in Exy.
    apply app_eq_nil in Exy as [-> _]. split; [done|]. exists [], (f_stream f). by destruct f.
Qed.

Lemma length_shape n : 0 <= n <= MaxInt -> exists first l, appendLength [] n = first :: l /\
  lengthByteCount first = len l /\ (Z.land first 0x80 =? 0) = (len l =? 0) /\ len l <= 8.
Proof.
  intros Hn. unfold lengthByteCount. destruct (Z.lt_ge_cases n 128) as [Hlt|Hge].
  - exists n, []. unfold appendLength. replace (n <? 128) with true by lia. simpl.
    rewrite conv_uint8_small, byte_high by (unfold is_byte; lia).
    by replace (n <? 128) with true by lia.
  - destruct (appendLength_long n) as (k & Hk & _ & ->); [lia|].
    exists (Z.lor 128 k), (length_bytes (Z.to_nat k) n). destruct (length_first_byte k Hk) as [-> ->].
    rewrite len_length_bytes, Z2Nat.id by lia. replace (k =? 0) with false by lia.
    repeat split; lia.
Qed.

(** The length part of [Next]: what it reads, as one block [l] of bytes. *)
Definition Next_value (header : bytes) (l : bytes) (f : Framer) : framed * Framer :=
  let hdr := header ++ l in
  match decodeLength l with
  | Err err => (FrameErr (decodeError (len header) err), f)
  | Ok (length, _) =>
      let total := conv int (len hdr + length) in
      if total >? MaxFrameBytes (f_limits f)
      then (FrameErr (decodeError (len hdr)
             (BerLimitError "frame bytes" (conv uint64 total) (MaxFrameBytes (f_limits f)))), f)
      else if total <? 0 then (FramePanic, f)
      else
        match ReadFull f length with
        | (Err err, f) =>
            if bool_decide (err = EOF) || bool_decide (err = ErrUnexpectedEOF)
            then (FrameErr (decodeError (len hdr) ErrTruncated), f)
            else (FrameErr err, f)
        | (Ok value, f) => (Frame (hdr ++ value), f)
        end
  end.

Lemma Next_length_block header first l f rest :
  f_stream f = (first :: l) ++ rest -> lengthByteCount first = len l ->
  (Z.land first 0x80 =? 0) = (len l =? 0) ->
  Next_length header f = Next_value header (first :: l) (with_stream f rest).
Proof.
  intros Hs Hc H8. unfold Next_length. rewrite (readByte_cons f first (l ++ rest)) by done.
  assert ((Z.land first 0x80 =? 0) = false -> Z.land first 0x7f = len l) as H7.
  { intros E. unfold lengthByteCount in Hc. by rewrite E in Hc. }
  assert ((if negb (Z.land first 128 =? 0)
           then if Z.land first 127 =? 0
                then (Err (decodeError (len (header ++ [first]) - 1) ErrIndefiniteLength),
                      with_stream f (l ++ rest))
                else readLengthBytes (Z.to_nat (Z.land first 127)) (header ++ [first])
                       (with_stream f (l ++ rest))
           else (Ok (header ++ [first]), with_stream f (l ++ rest))) =
          (Ok (header ++ first :: l), with_stream f rest)) as ->.
  { destruct (Z.land first 128 =? 0) eqn:E; cbn [negb].
    - symmetry in H8. zbool. apply len_zero in H8. by subst.
    - rewrite H7, <- H8, len_to_nat by done.
      rewrite (readLengthBytes_ok l _ _ rest) by done. by rewrite <- app_assoc. }
  unfold Next_value. rewrite Hc.
  replace (len (header ++ first :: l) - (1 + len l)) with (len header) by (len_simpl; lia).
  by rewrite slice_from_app.
Qed.

(** The framer keeps its limits and its end. *)
Definition framer_ok (f : Framer) : Prop :=
  MaxFrameBytes (f_limits f) <= MaxInt /\ Forall is_byte (f_stream f).

Lemma conv_int_small z : 0 <= z <= MaxInt -> conv int z = z.
Proof.
  intros Hz. apply conv_id; [done|]. unfold in_type, MaxInt in *. cbn [it_signed it_bits int]. lia.
Qed.

Lemma conv_int_overflow z : MaxInt < z <= MaxInt + 32 -> conv int z = z - 2 ^ 64.
Proof.
  intros Hz. unfold conv, swrap, MaxInt in *. cbn [it_signed it_bits int].
  rewrite <- (Z.mod_unique (z + 2 ^ (64 - 1)) (2 ^ 64) 1 (z + 2 ^ 63 - 2 ^ 64)) by lia. lia.
Qed.

(** [Next] on a stream that starts with a canonical header. *)
Lemma Next_header f id n rest : wf_id id ->
  (id_Number id < 31 \/ id_Number id <= MaxTagNumber (f_limits f)) -> 0 <= n <= MaxInt ->
  f_stream f = header id n ++ rest ->
  Next f = Next_value (appendIdentifier [] id) (appendLength [] n) (with_stream f rest).
Proof.
  intros Hid Hm Hn Hs. destruct (length_shape n Hn) as (first & l & El & Hc & H8 & _).
  unfold header in *. rewrite <- app_assoc in Hs.
  destruct (Next_identifier_ok f id _ Hid Hs) as (b & f1 & E1 & E2).
  unfold Next. rewrite E1, E2. rewrite <- (app_nil_r (appendIdentifier [] id)) at 1.
  rewrite decodeIdentifier_append by done.
  rewrite (Next_length_block _ first l _ rest); [|by rewrite El|done|done]. by rewrite El.
Qed.

Lemma Next_enc f id v rest : wf_id id ->
  (id_Number id < 31 \/ id_Number id <= MaxTagNumber (f_limits f)) ->
  MaxFrameBytes (f_limits f) <= MaxInt ->
  len (header id (len v) ++ v) <= MaxFrameBytes (f_limits f) ->
  f_stream f = (header id (len v) ++ v) ++ rest ->
  Next f = (Frame (header id (len v) ++ v), with_stream f rest).
Proof.
  intros Hid Hm Hmax Hlen Hs. pose proof (len_nonneg v). rewrite len_app in Hlen.
  pose proof (len_nonneg (header id (len v))). rewrite <- app_assoc in Hs.
  rewrite (Next_header f id (len v) (v ++ rest)) by (done || lia).
  unfold Next_value. rewrite <- (app_nil_r (appendLength [] (len v))) at 1.
  rewrite decodeLength_append by lia. fold (header id (len v)).
  set (hdr := header id (len v)) in *. rewrite conv_int_small by lia. cbn [f_limits with_stream].
  replace (len hdr + len v >? MaxFrameBytes (f_limits f)) with false by lia.
  replace (len hdr + len v <? 0) with false by lia. unfold ReadFull. cbn [f_stream with_stream].
  rewrite len_app. pose proof (len_nonneg rest).
  replace (len v + len rest <? len v) with false by lia.
  rewrite slice_from_app by done.
  replace (slice (v ++ rest) 0 (len v)) with v; [done|].
  symmetry. apply (slice_prefix [] v rest); len_simpl; lia.
Qed.

(** The length part reads one block, or fails. *)
Lemma Next_length_inv header f :
  (exists err f', Next_length header f = (FrameErr err, f')) \/
  exists first l rest, f_stream f = (first :: l) ++ rest /\ lengthByteCount first = len l /\
    Next_length header f = Next_value header (first :: l) (with_stream f rest).
Proof.
  destruct (readByte f (len header)) as [[first|err] f1] eqn:E.
  2:{ left. unfold Next_length. rewrite E. eauto. }
  pose proof (readByte_inv _ _ _ _ E) as (s & Es & ->).
  destruct (Z.land first 0x80 =? 0) eqn:E8.
  - right. exists first, [], s. split; [done|]. split; [unfold lengthByteCount; by rewrite E8|].
    apply Next_length_block; [done|unfold lengthByteCount; by rewrite E8|done].
  - destruct (Z.land first 0x7f =? 0) eqn:E7.
    { left. unfold Next_length. rewrite E, E8, E7. eauto. }
    destruct (readLengthBytes (Z.to_nat (Z.land first 0x7f)) (header ++ [first]) (with_stream f s))
      as [[h|err] f2] eqn:El.
    2:{ left. unfold Next_length. rewrite E, E8, E7. cbn [negb]. rewrite El. eauto. }
    apply readLengthBytes_inv in El as (l & rest & _ & Hl & Hs & _). cbn [f_stream with_stream] in Hs.
    assert (lengthByteCount first = len l) as Hc.
    { unfold lengthByteCount. rewrite E8. unfold len. rewrite Hl.
      assert (0 <= Z.land first 127) by (apply Z.land_nonneg; lia). lia. }
    right. exists first, l, rest. rewrite Es, Hs. split; [done|]. split; [done|].
    apply Next_length_block; [by rewrite Es, Hs|done|]. rewrite E8.
    unfold lengthByteCount in Hc. rewrite E8 in Hc. zbool. symmetry. apply Z.eqb_neq. lia.
Qed.

(** The block is consumed as a whole by [decodeLength]. *)
Lemma decodeLength_block first l n k : Forall is_byte (first :: l) ->
  lengthByteCount first = len l -> decodeLength (first :: l) = Ok (n, k) ->
  first :: l = appendLength [] n /\ 0 <= n <= MaxInt.
Proof.
  intros Hb Hc Hd. pose proof (decodeLength_inv _ _ _ Hb Hd) as (Hn & rest & E & Hk).
  split; [|done]. assert (k = 1 + len l) as Hkl.
  { unfold decodeLength, lengthByteCount in *. destruct (Z.land first 128 =? 0).
    - injection Hd as <- <-. lia.
    - case_ifs; try done. destruct (decodeLength_loop _ _); [|done]. cbn in Hd.
      case_ifs; try done. injection Hd as <- <-. lia. }
  rewrite E in *. assert (len rest = 0) as Hr.
  { apply (f_equal len) in E. rewrite len_app, len_cons in E. lia. }
  apply len_zero in Hr. subst. by rewrite app_nil_r.
Qed.

Lemma Next_value_frame header0 l f b f' n k :
  decodeLength l = Ok (n, k) -> 0 <= n <= MaxInt ->
  MaxFrameBytes (f_limits f) <= MaxInt -> len (header0 ++ l) <= 32 ->
  Next_value header0 l f = (Frame b, f') ->
  exists v rest, b = (header0 ++ l) ++ v /\ len v = n /\ f_stream f = v ++ rest /\
    f' = with_stream f rest /\ len b <= MaxFrameBytes (f_limits f).
Proof.
  intros Hd Hn Hmax Hh Hv. unfold Next_value in Hv. rewrite Hd in Hv.
  set (hdr := header0 ++ l) in *. pose proof (len_nonneg hdr).
  destruct (_ >? _) eqn:E1 in Hv; [done|]. destruct (_ <? 0) eqn:E2 in Hv; [done|].
  unfold ReadFull in Hv. destruct (len (f_stream f) <? n) eqn:E3; [case_ifs; done|].
  injection Hv as <- <-. exists (slice (f_stream f) 0 n), (slice_from (f_stream f) n). zbool.
  assert (len (slice (f_stream f) 0 n) = n) as Hl by (rewrite len_slice; lia).
  split; [done|]. split; [done|]. split; [|split; [done|]].
  - unfold slice, slice_from. rewrite drop_0, Z.sub_0_r. by rewrite take_drop.
  - rewrite len_app, Hl. destruct (Z.le_gt_cases (len hdr + n) MaxInt) as [Hs|Hs].
    + rewrite conv_int_small in E1 by lia. lia.
    + exfalso. rewrite conv_int_overflow in E2 by lia. unfold MaxInt in *. lia.
Qed.

Lemma header_len id n : wf_id id -> 0 <= n <= MaxInt ->
  len (appendIdentifier [] id ++ appendLength [] n) <= 32.
Proof.
  intros Hid Hn. destruct (identifier_shape id Hid) as (b & x & -> & Hx).
  destruct (length_shape n Hn) as (first & l & -> & _ & _ & Hl).
  assert (len x <= 5) by (destruct (_ =? _); [unfold len; lia|subst; done]). len_simpl. lia.
Qed.

(** Every stream: [Next] fails, or the stream starts with a canonical header. *)
Lemma Next_cases f : framer_ok f ->
  (exists err f', Next f = (FrameErr err, f')) \/
  exists id n rest, wf_id id /\ (id_Number id < 31 \/ id_Number id <= MaxTagNumber (f_limits f)) /\
    0 <= n <= MaxInt /\ f_stream f = header id n ++ rest.
Proof.
  intros [Hmax Hb]. unfold Next, ReadByte. destruct (f_stream f) as [|first s] eqn:Es; [eauto|].
  inversion_clear Hb as [|? ? Hf Hs].
  destruct (Next_identifier (with_stream f s) first) as [[h|] f1] eqn:Ei; [|eauto].
  destruct (decodeIdentifier h _) as [[id k]|] eqn:Ed; [|eauto].
  assert (Forall is_byte h) as Hbh.
  { unfold Next_identifier in Ei. destruct (_ =? 31); [|injection Ei as <- <-; by constructor].
    apply readIdentifier_inv in Ei as (x & rest & -> & _ & Hx & _). constructor; [done|].
    cbn [f_stream with_stream] in Hx. subst s. by apply Forall_app in Hs as [? _]. }
  pose proof (Next_identifier_inv _ _ _ _ _ _ _ Ei Hbh Ed) as (Hid & Hm & Hh & x & rest & Eh & Ex & ->).
  cbn [f_stream with_stream] in Ex. rewrite with_stream_stream. rewrite Ex in Hs.
  apply Forall_app in Hs as [_ Hr].
  destruct (Next_length_inv h (with_stream f rest)) as [(err & f2 & E)|(fl & l & r2 & Er & Hc & E)];
    rewrite E; [eauto|]. cbn [f_stream with_stream] in Er. subst rest.
  apply Forall_app in Hr as [Hbl _].
  destruct (decodeLength (fl :: l)) as [[n kk]|] eqn:Edl; [|unfold Next_value; rewrite Edl; eauto].
  destruct (decodeLength_block _ _ _ _ Hbl Hc Edl) as [El Hnn].
  right. exists id, n, r2. split; [done|]. split; [done|]. split; [done|].
  unfold header. rewrite <- El, <- Hh, Eh, Ex. simpl. by rewrite <- app_assoc.
Qed.

Lemma Next_inv f b f' : framer_ok f -> Next f = (Frame b, f') ->
  exists id v rest, wf_id id /\ (id_Number id < 31 \/ id_Number id <= MaxTagNumber (f_limits f)) /\
    b = header id (len v) ++ v /\ len b <= MaxFrameBytes (f_limits f) /\
    f_stream f = b ++ rest /\ f' = with_stream f rest.
Proof.
  intros Hok Hn. destruct (Next_cases f Hok) as [(? & ? & E)|(id & n & rest & Hid & Hm & Hnn & Hs)].
  { by rewrite E in Hn. }
  rewrite (Next_header f id n rest) in Hn by done.
  assert (decodeLength (appendLength [] n) = Ok (n, len (appendLength [] n))) as Hd.
  { rewrite <- (app_nil_r (appendLength [] n)) at 1. by apply decodeLength_append. }
  apply (Next_value_frame _ _ _ _ _ n (len (appendLength [] n))) in Hn as (v & r & -> & Hv & Hrs & -> & Hlb);
    [|done|done|apply Hok|by apply header_len].
  cbn [f_stream with_stream] in Hrs. subst rest. exists id, v, r. unfold header in *. rewrite Hv.
  split; [done|]. split; [done|]. split; [done|]. split; [done|]. split; [|done].
  by rewrite Hs, <- !app_assoc.
Qed.

(** ** Properties *)

(** The frames a stream can start with. *)
Definition is_frame (l : Limits) (b : bytes) : Prop :=
  exists id v, wf_id id /\ (id_Number id < 31 \/ id_Number id <= MaxTagNumber l) /\
    b = header id (len v) ++ v /\ len b <= MaxFrameBytes l.

(** C7. Framing is exact: on a stream of bytes, [Next] returns the frame [b]
    and leaves the framer at [f'] exactly when [b] is a canonical element
    (minimal identifier and definite minimal length, tag number and frame size
    within the limits), the stream starts with [b], and [f'] holds the bytes
    after it: nothing is lost, duplicated or read beyond the frame. *)
Theorem framer_exact f b f' : framer_ok f ->
  Next f = (Frame b, f') <->
  is_frame (f_limits f) b /\ exists rest, f_stream f = b ++ rest /\ f' = with_stream f rest.
Proof.
  intros Hok. split.
  - intros Hn. destruct (Next_inv f b f' Hok Hn) as (id & v & rest & H1 & H2 & H3 & H4 & H5 & H6).
    split; [by exists id, v|by exists rest].
  - intros [(id & v & H1 & H2 & -> & H4) (rest & Hs & ->)]. apply Next_enc; try done. apply Hok.
Qed.

Definition sample_stream : Framer :=
  MkFramer ([0x30; 3; 2; 1; 7] ++ [0x42; 0] ++ [0x30; 0x80]) EOF DefaultLimits.

Lemma framer_exact_witness :
  is_frame DefaultLimits [0x30; 3; 2; 1; 7].
Proof.
  apply (framer_exact sample_stream [0x30; 3; 2; 1; 7]
           (with_stream sample_stream ([0x42; 0] ++ [0x30; 0x80]))).
  - split; [vm_compute; discriminate|]. repeat constructor; vm_compute; discriminate.
  - vm_compute. reflexivity.
Defined.

(** Draining a stream: the frames, and the outcome that ends them. *)
Fixpoint drain (fuel : nat) (f : Framer) : list bytes * framed :=
  match fuel with
  | O => ([], FrameErr FuelExhausted)
  | S fuel' =>
      match Next f with
      | (Frame b, f) => let '(bs, o) := drain fuel' f in (b :: bs, o)
      | (o, _) => ([], o)
      end
  end.

Lemma wf_tlv_frame l t : wf_tlv (MaxTagNumber l) t = true -> len (enc t) <= MaxFrameBytes l ->
  is_frame l (enc t).
Proof.
  intros Hwf Hlen. apply wf_tlv_id in Hwf as [Hid _]. apply id_ok_wf in Hid as [Hid Hm].
  exists (tid t), (contents t). rewrite <- enc_eq. by repeat split; try apply Hid.
Qed.

(** A transport that delivers encoded elements and then ends is framed back
    into exactly those elements, in order, followed by the transport's end of
    file, however the transport splits the bytes. *)
Theorem framer_splits_stream l ts :
  MaxFrameBytes l <= MaxInt ->
  Forall (fun t => wf_tlv (MaxTagNumber l) t = true /\ len (enc t) <= MaxFrameBytes l) ts ->
  drain (S (length ts)) (MkFramer (concat (map enc ts)) EOF l) = (map enc ts, FrameErr EOF).
Proof.
  intros Hmax. induction 1 as [|t ts [Hwf Hlen] Hts IH]; [done|].
  cbn [map concat length]. set (fuel := S (length ts)) in *. cbn [drain].
  destruct (wf_tlv_frame l t Hwf Hlen) as (id & v & H1 & H2 & H3 & _). rewrite H3 in Hlen |- *.
  rewrite (Next_enc (MkFramer _ EOF l) id v (concat (map enc ts))) by done.
  unfold with_stream. cbn [f_end f_limits]. by rewrite IH.
Qed.

Lemma framer_splits_stream_witness :
  drain 3 (MkFramer ([2; 1; 5] ++ [0x30; 3; 2; 1; 7] ++ []) EOF DefaultLimits) =
  ([[2; 1; 5]; [0x30; 3; 2; 1; 7]], FrameErr EOF).
Proof.
  apply (framer_splits_stream DefaultLimits
    [Prim IntegerIdentifier [5]; Cons SequenceIdentifier [Prim IntegerIdentifier [7]]]).
  - vm_compute. discriminate.
  - repeat constructor; vm_compute; discriminate.
Defined.

(** Framer and reader agree on what an element is. *)
Lemma Limits_Validate_elements l : Limits_Validate l = None -> 0 < MaxElements l.
Proof. unfold Limits_Validate. case_ifs; try done. zbool. lia. Qed.

Lemma frame_DecodeElement l b : MaxFrameBytes l <= MaxInt -> Limits_Validate l = None ->
  is_frame l b -> exists e, DecodeElement b l = Ok e /\ e_Raw e = b.
Proof.
  intros Hmax Hl (id & v & Hid & Hm & Eb & Hlen). pose proof (len_nonneg v).
  assert (b = appendIdentifier [] id ++ appendLength [] (len v) ++ v) as Eb'.
  { subst b. unfold header. by rewrite <- app_assoc. }
  pose proof (f_equal len Eb') as Elen. rewrite !len_app in Elen.
  pose proof (len_nonneg (appendIdentifier [] id)). pose proof (len_nonneg (appendLength [] (len v))).
  exists (MkElement id v b 0). split; [|done]. unfold DecodeElement, NewReader. rewrite Hl.
  replace (len b >? MaxFrameBytes l) with false by lia. cbn [mbind result_bind].
  unfold ReadElement. cbn [r_pos r_data r_base r_limits r_elements].
  rewrite Eb' at 1. unfold slice_from at 1. rewrite drop_0, decodeIdentifier_append by done.
  rewrite Z.add_0_l, Eb', slice_from_app by done. rewrite <- Eb', decodeLength_append by lia.
  replace (len v >? _) with false by lia. pose proof (Limits_Validate_elements l Hl).
  replace (0 =? MaxElements l) with false by lia.
  unfold RequireEmpty, Empty, Remaining. cbn [r_data r_pos with_pos with_elements]. rewrite Z.add_0_l.
  replace (_ =? 0) with true by lia. cbn [negb]. do 2 f_equal.
  - replace b with ((appendIdentifier [] id ++ appendLength [] (len v)) ++ v ++ [])
      by (rewrite app_nil_r, Eb'; by rewrite <- app_assoc).
    apply slice_prefix; len_simpl; lia.
  - unfold slice. rewrite drop_0. rewrite take_ge; [done|]. unfold len in *. lia.
Qed.

(** The framer and the reader agree: every frame [Next] returns is one
    complete element for [DecodeElement] under the same limits, with no bytes
    left over. *)
Theorem frames_decode f b f' : framer_ok f -> Limits_Validate (f_limits f) = None ->
  Next f = (Frame b, f') -> exists e, DecodeElement b (f_limits f) = Ok e /\ e_Raw e = b.
Proof.
  intros Hok Hl Hn. destruct (Next_inv f b f' Hok Hn) as (id & v & rest & H1 & H2 & H3 & H4 & _).
  apply frame_DecodeElement; [apply Hok|done|]. by exists id, v.
Qed.

Lemma frames_decode_witness :
  exists e, DecodeElement [0x30; 3; 2; 1; 7] DefaultLimits = Ok e /\ e_Raw e = [0x30; 3; 2; 1; 7].
Proof.
  apply (frames_decode sample_stream [0x30; 3; 2; 1; 7]
           (with_stream sample_stream ([0x42; 0] ++ [0x30; 0x80]))).
  - split; [vm_compute; discriminate|]. repeat constructor; vm_compute; discriminate.
  - vm_compute. reflexivity.
  - vm_compute. reflexivity.
Defined.

(** C40. What the size check misses: [len(header)+length] is computed in
    64 bits, and a header whose length is close to [MaxInt] makes it negative,
    so the comparison with [MaxFrameBytes] passes and [make] panics. This
    happens exactly for the canonical headers whose length plus the header's
    size exceeds [MaxInt]; ten bytes from the peer are enough. *)
Theorem framer_panics_on_length_overflow f : framer_ok f -> 0 < MaxFrameBytes (f_limits f) ->
  (exists f', Next f = (FramePanic, f')) <->
  exists id n rest, wf_id id /\ (id_Number id < 31 \/ id_Number id <= MaxTagNumber (f_limits f)) /\
    0 <= n <= MaxInt /\ MaxInt < len (header id n) + n /\ f_stream f = header id n ++ rest.
Proof.
  intros Hok Hpos. split.
  - intros [f' Hn]. destruct (Next_cases f Hok) as [(? & ? & E)|(id & n & rest & Hid & Hm & Hnn & Hs)].
    { by rewrite E in Hn. }
    exists id, n, rest. split; [done|]. split; [done|]. split; [done|]. split; [|done].
    rewrite (Next_header f id n rest) in Hn by done. unfold Next_value in Hn.
    rewrite <- (app_nil_r (appendLength [] n)) in Hn at 1. rewrite decodeLength_append in Hn by done.
    fold (header id n) in Hn. pose proof (len_nonneg (header id n)).
    destruct (Z.le_gt_cases (len (header id n) + n) MaxInt) as [Hle|Hgt]; [exfalso|lia].
    rewrite conv_int_small in Hn by lia. replace (_ <? 0) with false in Hn by lia.
    destruct (_ >? _) in Hn; [done|]. destruct (ReadFull _ _) as [[?|?] ?]; [done|]. case_ifs; done.
  - intros (id & n & rest & Hid & Hm & Hnn & Hov & Hs). exists (with_stream f rest).
    rewrite (Next_header f id n rest) by done. unfold Next_value.
    rewrite <- (app_nil_r (appendLength [] n)) at 1. rewrite decodeLength_append by done.
    pose proof (header_len id n Hid Hnn). fold (header id n) in *.
    rewrite conv_int_overflow by lia. cbn [f_limits with_stream].
    replace (_ >? MaxFrameBytes (f_limits f)) with false by (unfold MaxInt in *; lia).
    by replace (_ <? 0) with true by (unfold MaxInt in *; lia).
Qed.

Lemma framer_panics_on_length_overflow_witness :
  exists f', Next (MkFramer [0x30; 0x88; 0x7f; 0xff; 0xff; 0xff; 0xff; 0xff; 0xff; 0xff] EOF DefaultLimits)
             = (FramePanic, f').
Proof.
  apply framer_panics_on_length_overflow.
  - split; [vm_compute; discriminate|]. repeat constructor; vm_compute; discriminate.
  - vm_compute. reflexivity.
  - exists SequenceIdentifier, MaxInt, []. split; [split; split; vm_compute; congruence|].
    split; [left; vm_compute; reflexivity|]. split; [split; vm_compute; congruence|].
    split; vm_compute; reflexivity.
Defined.
