(* ===== verification/Decoder.v ===== *)
(** * The scoped first-error decoder

    Models src/ber/decoder.go. A [Decoder] is a scope over a reader with the
    first error, an outstanding child scope and the reserved identifiers of the
    scope. In the source the error is shared by a decoder and its child scopes
    through the pointer [state], and the child is the same object the caller
    works with; here a decoder is a value, its operations return the decoder
    they leave, and [adopt] writes a child the caller has worked with back into
    its parent: the child itself, the shared error and the shared element count.

    [Decoder] operations are the state-passing functions [DM]; [Unmarshal] is
    the type of [UnmarshalBER]-like functions, which return the reader they
    leave on success and on failure. *)

From S2P Require Import Prelude Wire Packet Reader.

(** A decoding function: it takes a reader and returns a value or an error. *)
Definition Unmarshal (T : Type) := Reader -> result T * Reader.

(** The interfaces [Unmarshaler], [TaggedUnmarshaler]. *)
Class Unmarshaler (T : Type) := UnmarshalBER : Unmarshal T.
Class TaggedUnmarshaler (T : Type) := UnmarshalAs : Identifier -> Unmarshal T.

Inductive Decoder := MkDecoder {
  d_reader : Reader;
  d_err : option error;
  d_child : option Decoder;
  d_reserved : gset Identifier
}.

Definition DM (A : Type) := Decoder -> A * Decoder.
#[export] Instance DM_ret : MRet DM := fun A a d => (a, d).
#[export] Instance DM_bind : MBind DM := fun A B f m d => let '(a, d) := m d in f a d.

(** The interface [FieldsUnmarshaler]: the components of a type inside an
    enclosing scope, and its error. *)
Class FieldsUnmarshaler (T : Type) := UnmarshalBERFields : DM (result T).

Definition NewDecoder (r : Reader) : Decoder := MkDecoder r None None ∅.

Definition set_reader (d : Decoder) (r : Reader) : Decoder :=
  MkDecoder r (d_err d) (d_child d) (d_reserved d).
Definition set_err (d : Decoder) (err : option error) : Decoder :=
  MkDecoder (d_reader d) err (d_child d) (d_reserved d).
Definition set_child (d : Decoder) (c : option Decoder) : Decoder :=
  MkDecoder (d_reader d) (d_err d) c (d_reserved d).
Definition set_reserved (d : Decoder) (ids : gset Identifier) : Decoder :=
  MkDecoder (d_reader d) (d_err d) (d_child d) ids.

(** [Fail]: [None] is a nil error. *)
Definition Fail_opt (err : option error) (d : Decoder) : Decoder :=
  match err with
  | Some err =>
      match d_err d with
      | None => set_err d (Some (decodeError (Offset (d_reader d)) err))
      | Some _ => d
      end
  | None => d
  end.
Definition Decoder_Fail (err : error) : DM unit := fun d => (tt, Fail_opt (Some err) d).

(** [End], returning the decoder; the error [End] returns is its [d_err]. The
    call of [ready] is inlined, since [ready] ends the child scope. *)
Fixpoint End (d : Decoder) : Decoder :=
  match d_err d with
  | Some _ => d
  | None =>
      let d1 :=
        match d_child d with
        | None => d
        | Some child => Fail_opt (d_err (End child)) (set_child d None)
        end in
      match d_err d1 with
      | Some _ => d1
      | None => Fail_opt (RequireEmpty (d_reader d1)) d1
      end
  end.

Definition ready : DM bool := fun d =>
  match d_err d with
  | Some _ => (false, d)
  | None =>
      let d :=
        match d_child d with
        | None => d
        | Some child => Fail_opt (d_err (End child)) (set_child d None)
        end in
      (match d_err d with None => true | Some _ => false end, d)
  end.

(** [Err] and [End] as operations. *)
Definition Decoder_Err : DM (option error) := fun d =>
  let '(_, d) := ready d in (d_err d, d).
Definition Decoder_End : DM (option error) := fun d =>
  let d := End d in (d_err d, d).

Definition More : DM bool := fun d =>
  let '(ok, d) := ready d in (ok && negb (Empty (d_reader d)), d).

Definition Using {T} `{Zero T} (decode : Unmarshal T) : DM T := fun d =>
  let '(ok, d) := ready d in
  if negb ok then (zero, d)
  else
    let offset := Offset (d_reader d) in
    let '(value, r) := decode (d_reader d) in
    let d := set_reader d r in
    match value with
    | Err err => (zero, Fail_opt (Some (decodeError offset err)) d)
    | Ok value =>
        match d_err d with
        | Some _ => (zero, d)
        | None => (value, d)
        end
    end.

Definition Decoder_PeekIdentifier : DM Identifier :=
  Using (fun r => (Reader_PeekIdentifier r, r)).

(** [&&] evaluates its right operand only when the left one holds. *)
Definition NextIs (id : Identifier) : DM bool := fun d =>
  let '(more, d) := More d in
  if negb more then (false, d)
  else
    let '(peeked, d) := Decoder_PeekIdentifier d in
    (bool_decide (peeked = id) && match d_err d with None => true | Some _ => false end, d).

(** The child scope, and the decoder that waits for it. When entering fails
    the returned scope shares the error, so nothing is ever read through it. *)
Definition Decoder_Constructed (id : Identifier) : DM Decoder := fun d =>
  let '(ok, d) := ready d in
  let child := MkDecoder (d_reader d) (d_err d) None ∅ in
  if negb ok then (child, d)
  else
    let '(res, r) := Reader_Constructed (d_reader d) id in
    let d := set_reader d r in
    match res with
    | Err err =>
        let d := Fail_opt (Some err) d in
        (MkDecoder (d_reader d) (d_err d) None ∅, d)
    | Ok r =>
        let child := MkDecoder r (d_err d) None ∅ in
        (child, set_child d (Some child))
    end.

(** Write a child scope back into the parent it belongs to. *)
Definition adopt (d child : Decoder) : Decoder :=
  match d_err d, d_child d with
  | None, Some _ =>
      MkDecoder (with_elements (d_reader d) (r_elements (d_reader child)))
                (d_err child) (Some child) (d_reserved d)
  | _, _ => set_err d (d_err child)
  end.

(** Work in the child scope [d.Constructed(id)]. *)
Definition within {A} (id : Identifier) (body : DM A) : DM A := fun d =>
  let '(child, d) := Decoder_Constructed id d in
  let '(a, child) := body child in
  (a, adopt d child).

(** [one]: a decoding function bounded to the next element. *)
Definition one {T} `{Zero T} (decode : Unmarshal T) : DM T := fun d =>
  let '(ok, d) := ready d in
  if negb ok then (zero, d)
  else
    match ReadElement (d_reader d) with
    | (Err err, _) => (zero, Fail_opt (Some err) d)
    | (Ok _, probe) =>
        let bounded := with_data (d_reader d) (slice (r_data (d_reader d)) 0 (r_pos probe)) in
        let start := r_pos bounded in
        let '(value, bounded) := decode bounded in
        let d := set_reader d (with_elements (with_pos (d_reader d) (r_pos bounded))
                                             (r_elements bounded)) in
        let err :=
          match value with
          | Err err => Some err
          | Ok _ => if r_pos bounded =? start then Some ErrNoProgress else RequireEmpty bounded
          end in
        match err, value with
        | None, Ok value =>
            match d_err d with
            | Some _ => (zero, d)
            | None => (value, d)
            end
        | Some err, _ => (zero, Fail_opt (Some (decodeError (r_base bounded + start) err)) d)
        | None, Err err => (zero, d)
        end
    end.

Definition Read {T} `{Zero T} (u : Unmarshal T) : DM T := one u.
Definition ReadAs {T} `{Zero T} (u : Identifier -> Unmarshal T) (id : Identifier) : DM T := one (u id).

Definition Embed {T} `{Zero T} (fields : DM (result T)) : DM T := fun d =>
  let '(ok, d) := ready d in
  if negb ok then (zero, d)
  else
    let '(res, d) := fields d in
    let d := Fail_opt (match res with Err err => Some err | Ok _ => None end) d in
    let '(err, d) := Decoder_Err d in
    match err, res with
    | None, Ok value => (value, d)
    | _, _ => (zero, d)
    end.

(** The unread bytes bound the rounds of the collection loops. *)
Definition scope_fuel (d : Decoder) : nat := S (length (r_data (d_reader d))).

Fixpoint AllUsing_loop {T} `{Zero T} (fuel : nat) (decode : Unmarshal T)
    (values : list T) (d : Decoder) : list T * Decoder :=
  match fuel with
  | O => ([], Fail_opt (Some FuelExhausted) d)
  | S fuel' =>
      let '(more, d) := More d in
      if more then
        let '(value, d) := one decode d in
        match d_err d with
        | Some _ => ([], d)
        | None => AllUsing_loop fuel' decode (values ++ [value]) d
        end
      else
        let d := End d in
        match d_err d with
        | Some _ => ([], d)
        | None => (values, d)
        end
  end.

Definition AllUsing {T} `{Zero T} (decode : Unmarshal T) : DM (list T) := fun d =>
  AllUsing_loop (scope_fuel d) decode [] d.

Definition All {T} `{Zero T} (u : Unmarshal T) : DM (list T) := AllUsing u.

Definition Reserve (ids : list Identifier) : DM unit := fun d =>
  let '(ok, d) := ready d in
  if negb ok then (tt, d)
  else (tt, set_reserved d (d_reserved d ∪ list_to_set ids)).

Definition reservedError (id : Identifier) : error :=
  WrapError ErrUnexpectedIdentifier
    (": duplicate or out-of-order field " +:+ Identifier_String id)%string.

Fixpoint Extensions_loop {T} `{Zero T} (fuel : nat) (u : Unmarshal T)
    (values : list T) (d : Decoder) : list T * Decoder :=
  match fuel with
  | O => ([], Fail_opt (Some FuelExhausted) d)
  | S fuel' =>
      let '(more, d) := More d in
      if more then
        let '(id, d) := Decoder_PeekIdentifier d in
        let d := if bool_decide (id ∈ d_reserved d)
                 then Fail_opt (Some (reservedError id)) d else d in
        let '(value, d) := Read u d in
        match d_err d with
        | Some _ => ([], d)
        | None => Extensions_loop fuel' u (values ++ [value]) d
        end
      else
        let d := End d in
        match d_err d with
        | Some _ => ([], d)
        | None => (values, d)
        end
  end.

Definition Extensions {T} `{Zero T} (u : Unmarshal T) (ids : list Identifier) : DM (list T) := fun d =>
  let '(_, d) := Reserve ids d in
  Extensions_loop (scope_fuel d) u [] d.

(** [for d.NextIs(id) { values = append(values, body) }]: a loop the codecs
    use for repeated optional fields; [body] consumes a field or fails. *)
Fixpoint whileNext_loop {T} (fuel : nat) (id : Identifier) (body : DM T)
    (values : list T) (d : Decoder) : list T * Decoder :=
  match fuel with
  | O => (values, Fail_opt (Some FuelExhausted) d)
  | S fuel' =>
      let '(next, d) := NextIs id d in
      if next then
        let '(value, d) := body d in
        whileNext_loop fuel' id body (values ++ [value]) d
      else (values, d)
  end.

Definition whileNext {T} (id : Identifier) (body : DM T) : DM (list T) := fun d =>
  whileNext_loop (scope_fuel d) id body [] d.

Definition Decoder_Primitive (id : Identifier) : DM bytes :=
  Using (fun r => Reader_Primitive r id).

Definition Decoder_OctetString : DM bytes := Decoder_Primitive OctetStringIdentifier.

Definition Decoder_Boolean : DM bool := Using Reader_Boolean.

Definition Decoder_BooleanAs (id : Identifier) : DM bool :=
  Using (fun r =>
    match Reader_Primitive r id with
    | (Err err, r) => (Err err, r)
    | (Ok value, r) =>
        if negb (validBoolean value) then (Err ErrInvalidBoolean, r)
        else (Ok (negb (default 0 (value !! 0%nat) =? 0)), r)
    end).

Definition Decoder_IntegerAs (T : inttype) (id : Identifier) : DM Z :=
  Using (fun r => Reader_integer T r id).
Definition Decoder_Integer (T : inttype) : DM Z := Decoder_IntegerAs T IntegerIdentifier.
Definition Decoder_Enumerated (T : inttype) : DM Z := Decoder_IntegerAs T EnumeratedIdentifier.

Definition Decoder_NullAs (id : Identifier) : DM unit :=
  Using (fun r =>
    match Reader_Primitive r id with
    | (Err err, r) => (Err err, r)
    | (Ok value, r) => if negb (len value =? 0) then (Err ErrInvalidNull, r) else (Ok tt, r)
    end).
Definition Decoder_Null : DM unit := Decoder_NullAs NullIdentifier.

(** ** The two shapes of [UnmarshalBER]

    [scoped id body check] is
    [d := ber.NewDecoder(r).Constructed(id); ...; if err := d.End() ...] and
    [rooted body check] is [d := ber.NewDecoder(r); ...; if err := d.Err() ...],
    each followed by the checks of the decoded value. *)
Definition no_check {A} (a : A) : option error := None.

Definition checked {A} (check : A -> option error) (err : option error) (a : A) : result A :=
  match err with
  | Some err => Err err
  | None =>
      match check a with
      | Some err => Err err
      | None => Ok a
      end
  end.

Definition scoped {A} (id : Identifier) (body : DM A) (check : A -> option error) : Unmarshal A :=
  fun r =>
    let '(child, d) := Decoder_Constructed id (NewDecoder r) in
    let '(a, child) := body child in
    let '(err, child) := Decoder_End child in
    (checked check err a, d_reader (adopt d child)).

Definition rooted {A} (body : DM A) (check : A -> option error) : Unmarshal A :=
  fun r =>
    let '(a, d) := body (NewDecoder r) in
    let '(err, d) := Decoder_Err d in
    (checked check err a, d_reader d).

(** ** Decoding what was encoded

    [Decodes u t v]: on any reader positioned at the encoding of [t], with room
    for it in the limits, [u] returns [v], moves past exactly that encoding and
    charges exactly its elements. *)
Definition encs (ts : list tlv) : bytes := concat (map enc ts).
Definition counts (ts : list tlv) : Z := foldr Z.add 0 (map count ts).
Definition heights (ts : list tlv) : Z := foldr Z.max 0 (map height ts).

(** Every Go integer an LDAP message holds takes at most eight bytes. *)
Definition int_ok (r : Reader) : Prop := 8 <= MaxIntegerBytes (r_limits r).

Definition Decodes {T} (u : Unmarshal T) (t : tlv) (v : T) : Prop :=
  forall r rest, reader_ok r -> unread r = enc t ++ rest -> fits r t -> int_ok r ->
  u r = (Ok v, advance r (len (enc t)) (count t)).

(** The scope [d] is free of errors, its outstanding child (if any) is used up,
    and its unread bytes encode [ts], followed by [rest]. *)
Record at_ (d : Decoder) (ts : list tlv) (R : gset Identifier) (rest : bytes) : Prop := {
  at_err : d_err d = None;
  at_ready : ready d = (true, set_child d None);
  at_ok : reader_ok (d_reader d);
  at_unread : unread (d_reader d) = encs ts ++ rest;
  at_fits : fits_all (d_reader d) ts;
  at_int : int_ok (d_reader d);
  at_reserved : d_reserved d = R
}.

(** [m], run in a scope holding [ts], returns [a] and leaves [ts']. *)
Definition Runs {A} (rest : bytes) (m : DM A) (ts : list tlv) (R : gset Identifier)
    (a : A) (ts' : list tlv) (R' : gset Identifier) : Prop :=
  forall d, at_ d ts R rest -> exists d', m d = (a, d') /\ at_ d' ts' R' rest /\
    d_reader d' = advance (d_reader d) (len (encs ts) - len (encs ts')) (counts ts - counts ts').

Lemma advance_0 r : advance r 0 0 = r.
Proof. destruct r. unfold advance. simpl. f_equal; lia. Qed.

Lemma Runs_ret {A} rest (a : A) ts R : Runs rest (mret a) ts R a ts R.
Proof.
  intros d Hd. exists d. split; [done|]. split; [done|]. by rewrite !Z.sub_diag, advance_0.
Qed.

Lemma Runs_bind {A B} rest (m : DM A) (k : A -> DM B) ts R a ts1 R1 b ts2 R2 :
  Runs rest m ts R a ts1 R1 -> Runs rest (k a) ts1 R1 b ts2 R2 ->
  Runs rest (m ≫= k) ts R b ts2 R2.
Proof.
  intros Hm Hk d Hd. destruct (Hm d Hd) as (d1 & E1 & H1 & A1).
  destruct (Hk d1 H1) as (d2 & E2 & H2 & A2). exists d2.
  split; [|split; [done|]].
  - unfold mbind, DM_bind. by rewrite E1.
  - rewrite A2, A1, advance_advance. f_equal; lia.
Qed.

Lemma encs_cons t ts : encs (t :: ts) = enc t ++ encs ts.
Proof. done. Qed.
Lemma encs_app ts ts' : encs (ts ++ ts') = encs ts ++ encs ts'.
Proof. unfold encs. by rewrite map_app, concat_app. Qed.
Lemma counts_cons t ts : counts (t :: ts) = count t + counts ts.
Proof. done. Qed.

(** The scope after its next element. *)
Definition step (d : Decoder) (t : tlv) : Decoder :=
  set_reader (set_child d None) (advance (d_reader d) (len (enc t)) (count t)).

Lemma at_step d t ts R rest : at_ d (t :: ts) R rest -> at_ (step d t) ts R rest.
Proof.
  intros [He Hrd Hok Hu Hf Hi HR]. rewrite encs_cons, <- app_assoc in Hu.
  destruct (fits_all_cons _ _ _ Hf) as [Ht Hts]. destruct Ht as (_ & Hc & _).
  constructor; simpl; try done.
  - unfold ready. simpl. by rewrite He.
  - eapply advance_ok; [done|exact Hu|done|lia].
  - eapply unread_advance; [apply Hok|exact Hu|done].
Qed.

(** An operation that returns [v] and steps over the next element. *)
Lemma Runs_step {A} rest (m : DM A) t ts R v :
  (forall d, at_ d (t :: ts) R rest -> m d = (v, step d t)) ->
  Runs rest m (t :: ts) R v ts R.
Proof.
  intros Hm d Hd. exists (step d t). split; [by apply Hm|]. split; [by apply at_step|].
  simpl. rewrite encs_cons, len_app, counts_cons. f_equal; lia.
Qed.

(** An operation that only looks. *)
Lemma Runs_look {A} rest (m : DM A) ts R v :
  (forall d, at_ d ts R rest -> m d = (v, set_child d None)) ->
  Runs rest m ts R v ts R.
Proof.
  intros Hm d Hd. exists (set_child d None). split; [by apply Hm|].
  destruct Hd as [He Hrd Hok Hu Hf Hi HR]. split.
  - constructor; simpl; try done. unfold ready. simpl. by rewrite He.
  - simpl. by rewrite !Z.sub_diag, advance_0.
Qed.

Lemma at_head d t ts R rest : at_ d (t :: ts) R rest ->
  fits (d_reader d) t /\ unread (d_reader d) = enc t ++ (encs ts ++ rest) /\
  Empty (d_reader d) = false.
Proof.
  intros [He Hrd Hok Hu Hf Hi HR]. rewrite encs_cons, <- app_assoc in Hu.
  split; [by apply (fits_all_cons _ _ _ Hf)|]. split; [done|].
  destruct (Empty (d_reader d)) eqn:E; [|done]. apply Empty_unread in E; [|done].
  rewrite E in Hu. symmetry in Hu. apply app_eq_nil in Hu as [Hu _].
  pose proof (enc_nonempty t). rewrite Hu, len_nil in H. lia.
Qed.

Lemma More_cons rest t ts R : Runs rest More (t :: ts) R true (t :: ts) R.
Proof.
  apply Runs_look. intros d Hd. destruct (at_head _ _ _ _ _ Hd) as (_ & _ & He).
  unfold More. rewrite (at_ready _ _ _ _ Hd). simpl. by rewrite He.
Qed.

Lemma More_nil R : Runs [] More [] R false [] R.
Proof.
  apply Runs_look. intros d Hd. unfold More. rewrite (at_ready _ _ _ _ Hd). simpl.
  assert (Empty (d_reader d) = true) as ->; [|done].
  apply Empty_unread; [apply Hd|]. apply (at_unread _ _ _ _ Hd).
Qed.

Lemma Using_Runs {T} `{Zero T} rest (u : Unmarshal T) t v ts R :
  Decodes u t v -> Runs rest (Using u) (t :: ts) R v ts R.
Proof.
  intros Hu. apply Runs_step. intros d Hd.
  destruct (at_head _ _ _ _ _ Hd) as (Hf & Hun & _).
  unfold Using. rewrite (at_ready _ _ _ _ Hd). simpl.
  rewrite (Hu _ _ (at_ok _ _ _ _ Hd) Hun Hf (at_int _ _ _ _ Hd)).
  rewrite (at_err _ _ _ _ Hd). done.
Qed.

Lemma Peek_Runs rest t ts R :
  Runs rest Decoder_PeekIdentifier (t :: ts) R (tid t) (t :: ts) R.
Proof.
  apply Runs_look. intros d Hd. destruct (at_head _ _ _ _ _ Hd) as (Hf & Hun & _).
  unfold Decoder_PeekIdentifier, Using. rewrite (at_ready _ _ _ _ Hd). simpl.
  rewrite (PeekIdentifier_enc _ t _ Hun) by apply Hf. rewrite (at_err _ _ _ _ Hd).
  by destruct d.
Qed.

Lemma NextIs_cons rest id t ts R :
  Runs rest (NextIs id) (t :: ts) R (bool_decide (tid t = id)) (t :: ts) R.
Proof.
  intros d Hd. destruct (More_cons rest t ts R d Hd) as (d1 & E1 & H1 & A1).
  destruct (Peek_Runs rest t ts R d1 H1) as (d2 & E2 & H2 & A2).
  exists d2. unfold NextIs. rewrite E1. simpl. rewrite E2.
  rewrite (at_err _ _ _ _ H2), andb_true_r. split; [done|]. split; [done|].
  rewrite A2, A1, advance_advance. f_equal; lia.
Qed.

Lemma NextIs_nil id R : Runs [] (NextIs id) [] R false [] R.
Proof.
  intros d Hd. destruct (More_nil R d Hd) as (d1 & E1 & H1 & A1).
  exists d1. unfold NextIs. by rewrite E1.
Qed.

(** [NextIs] on the elements a scope still holds. *)
Definition next_is (id : Identifier) (ts : list tlv) : bool :=
  match ts with [] => false | t :: _ => bool_decide (tid t = id) end.

Lemma NextIs_Runs id ts R : Runs [] (NextIs id) ts R (next_is id ts) ts R.
Proof. destruct ts; [apply NextIs_nil|apply NextIs_cons]. Qed.

Lemma one_Runs {T} `{Zero T} rest (u : Unmarshal T) t v ts R :
  Decodes u t v -> Runs rest (one u) (t :: ts) R v ts R.
Proof.
  intros Hu. apply Runs_step. intros d Hd.
  destruct (at_head _ _ _ _ _ Hd) as (Hf & Hun & _).
  pose proof (at_ok _ _ _ _ Hd) as Hok. destruct Hf as (Hwf & Hc & Hh).
  pose proof (count_pos t). pose proof (enc_nonempty t) as Hne.
  unfold one. rewrite (at_ready _ _ _ _ Hd). cbn [negb set_child d_reader].
  rewrite (ReadElement_enc _ t (encs ts ++ rest)) by (done || lia).
  set (r := d_reader d) in *. cbn [advance r_pos].
  set (b := with_data r _).
  assert (unread b = enc t ++ []) as Hub.
  { unfold b, unread. cbn [with_data r_data r_pos]. rewrite app_nil_r.
    unfold slice_from, slice. rewrite drop_0, Z.sub_0_r.
    destruct Hok as [Hp _]. rewrite Z2Nat.inj_add by lia.
    rewrite <- (take_drop (Z.to_nat (r_pos r)) (r_data r)).
    change (drop (Z.to_nat (r_pos r)) (r_data r)) with (unread r). rewrite Hun.
    assert (length (take (Z.to_nat (r_pos r)) (r_data r)) = Z.to_nat (r_pos r)) as Hl
      by (rewrite length_take; unfold len in *; lia).
    rewrite <- Hl at 2. rewrite take_app_add, <- Hl at 1.
    rewrite drop_app_length. unfold len. by rewrite Nat2Z.id, take_app_length. }
  assert (len (r_data b) = r_pos r + len (enc t)) as Hlb.
  { unfold b. cbn [with_data r_data]. destruct Hok as [Hp _].
    assert (len (unread r) = len (r_data r) - r_pos r) as H1
      by (unfold unread; rewrite len_slice_from; lia).
    rewrite Hun, len_app in H1. pose proof (len_nonneg (encs ts ++ rest)).
    rewrite len_slice; lia. }
  assert (reader_ok b) as Hbok.
  { destruct Hok as [Hp He]. split; [|done]. rewrite Hlb. unfold b. simpl. lia. }
  rewrite (Hu b [] Hbok Hub); [|done|apply (at_int _ _ _ _ Hd)].
  cbn [advance r_pos r_base r_elements with_data b].
  replace (r_pos r + len (enc t) =? r_pos r) with false by lia.
  unfold RequireEmpty, Empty, Remaining. cbn [advance r_data r_pos].
  change (r_pos b) with (r_pos r). rewrite Hlb, Z.sub_diag. cbn [negb Z.eqb].
  cbn [set_reader d_err set_child]. rewrite (at_err _ _ _ _ Hd). done.
Qed.

(** ** Scope operations on encodings *)

Lemma End_at d R : at_ d [] R [] -> End d = set_child d None.
Proof.
  intros Hd. pose proof (at_ready _ _ _ _ Hd) as Hr. pose proof (at_err _ _ _ _ Hd) as He.
  assert (RequireEmpty (d_reader d) = None) as Hreq.
  { unfold RequireEmpty. assert (Empty (d_reader d) = true) as ->; [|done].
    apply Empty_unread; [apply Hd|]. apply (at_unread _ _ _ _ Hd). }
  destruct d as [r err child res]. simpl in *. subst err.
  destruct child as [c|]; unfold ready in Hr; simpl in Hr |- *.
  - destruct (d_err (End c)) eqn:Ec; simpl in *; [simplify_eq|]. by rewrite Hreq.
  - by rewrite Hreq.
Qed.

Lemma End_Runs R : Runs [] Decoder_End [] R None [] R.
Proof.
  apply Runs_look. intros d Hd. unfold Decoder_End. rewrite (End_at d R) by done.
  simpl. by rewrite (at_err _ _ _ _ Hd).
Qed.

(** The end of the collection loops. *)
Lemma finish_Runs {T} (values : list T) R :
  Runs [] (fun d => let d := End d in
             match d_err d with Some _ => ([], d) | None => (values, d) end) [] R values [] R.
Proof.
  apply Runs_look. intros d Hd. rewrite (End_at d R) by done. cbn [set_child d_err].
  by rewrite (at_err _ _ _ _ Hd).
Qed.

Lemma Err_Runs rest ts R : Runs rest Decoder_Err ts R None ts R.
Proof.
  apply Runs_look. intros d Hd. unfold Decoder_Err. rewrite (at_ready _ _ _ _ Hd).
  simpl. by rewrite (at_err _ _ _ _ Hd).
Qed.

Lemma Reserve_Runs rest ids ts R :
  Runs rest (Reserve ids) ts R tt ts (R ∪ list_to_set ids).
Proof.
  intros d Hd. exists (set_reserved (set_child d None) (d_reserved d ∪ list_to_set ids)).
  destruct Hd as [He Hrd Hok Hu Hf Hi HR]. split; [|split].
  - unfold Reserve. by rewrite Hrd.
  - constructor; simpl; try done; [|by rewrite HR]. unfold ready. simpl. by rewrite He.
  - simpl. by rewrite !Z.sub_diag, advance_0.
Qed.

(** A list of elements, decoded one by one. *)
Definition DecodesAll {T} (u : Unmarshal T) (ts : list tlv) (vs : list T) : Prop :=
  Forall2 (fun t v => Decodes u t v) ts vs.

(** The fuel of a scope covers its elements. *)
Lemma encs_length ts : (length ts <= length (encs ts))%nat.
Proof.
  induction ts as [|t ts IH]; [simpl; lia|]. rewrite encs_cons, length_app, length_cons.
  pose proof (enc_nonempty t). unfold len in *. lia.
Qed.

Lemma at_fuel d ts R rest : at_ d ts R rest -> (length ts < scope_fuel d)%nat.
Proof.
  intros Hd. pose proof (at_unread _ _ _ _ Hd) as Hu. pose proof (encs_length ts).
  assert (length (unread (d_reader d)) <= length (r_data (d_reader d)))%nat.
  { unfold unread, slice_from. rewrite length_drop. lia. }
  rewrite Hu, length_app in H0. unfold scope_fuel. lia.
Qed.

Lemma AllUsing_loop_Runs {T} `{Zero T} (u : Unmarshal T) ts vs : DecodesAll u ts vs ->
  forall fuel acc R, (length ts < fuel)%nat ->
  Runs [] (AllUsing_loop fuel u acc) ts R (acc ++ vs) [] R.
Proof.
  induction 1 as [|t v ts vs Hv Hvs IH]; intros fuel acc R Hf d Hd;
    (destruct fuel as [|fuel]; [simpl in Hf; lia|]); cbn [AllUsing_loop].
  - destruct (More_nil R d Hd) as (d1 & -> & H1 & A1).
    destruct (finish_Runs acc R d1 H1) as (d2 & E2 & H2 & A2).
    exists d2. rewrite app_nil_r. split; [exact E2|]. split; [done|].
    by rewrite A2, A1, advance_advance.
  - destruct (More_cons [] t ts R d Hd) as (d1 & -> & H1 & A1).
    destruct (one_Runs [] u t v ts R Hv d1 H1) as (d2 & -> & H2 & A2).
    rewrite (at_err _ _ _ _ H2). simpl in Hf.
    destruct (IH fuel (acc ++ [v]) R ltac:(lia) d2 H2) as (d3 & -> & H3 & A3).
    exists d3. rewrite <- app_assoc. split; [done|]. split; [done|].
    rewrite A3, A2, A1, !advance_advance. f_equal; lia.
Qed.

Lemma AllUsing_Runs {T} `{Zero T} (u : Unmarshal T) ts vs R : DecodesAll u ts vs ->
  Runs [] (AllUsing u) ts R vs [] R.
Proof.
  intros Hvs d Hd. unfold AllUsing.
  apply (AllUsing_loop_Runs u ts vs Hvs _ [] R); [by eapply at_fuel|done].
Qed.

Lemma Extensions_loop_Runs {T} `{Zero T} (u : Unmarshal T) ts vs R : DecodesAll u ts vs ->
  Forall (fun t => tid t ∉ R) ts ->
  forall fuel acc, (length ts < fuel)%nat ->
  Runs [] (Extensions_loop fuel u acc) ts R (acc ++ vs) [] R.
Proof.
  induction 1 as [|t v ts vs Hv Hvs IH]; intros HR fuel acc Hf d Hd;
    (destruct fuel as [|fuel]; [simpl in Hf; lia|]); cbn [Extensions_loop].
  - destruct (More_nil R d Hd) as (d1 & -> & H1 & A1).
    destruct (finish_Runs acc R d1 H1) as (d2 & E2 & H2 & A2).
    exists d2. rewrite app_nil_r. split; [exact E2|]. split; [done|].
    by rewrite A2, A1, advance_advance.
  - inversion_clear HR as [|? ? Ht HR'].
    destruct (More_cons [] t ts R d Hd) as (d1 & -> & H1 & A1).
    destruct (Peek_Runs [] t ts R d1 H1) as (d1' & -> & H1' & A1').
    rewrite (at_reserved _ _ _ _ H1'), bool_decide_false by done.
    destruct (one_Runs [] u t v ts R Hv d1' H1') as (d2 & E2 & H2 & A2).
    unfold Read. rewrite E2. rewrite (at_err _ _ _ _ H2). simpl in Hf.
    destruct (IH HR' fuel (acc ++ [v]) ltac:(lia) d2 H2) as (d3 & -> & H3 & A3).
    exists d3. rewrite <- app_assoc. split; [done|]. split; [done|].
    rewrite A3, A2, A1', A1, !advance_advance. f_equal; lia.
Qed.

Lemma Extensions_Runs {T} `{Zero T} (u : Unmarshal T) ids ts vs R : DecodesAll u ts vs ->
  Forall (fun t => tid t ∉ R ∪ list_to_set ids) ts ->
  Runs [] (Extensions u ids) ts R vs [] (R ∪ list_to_set ids).
Proof.
  intros Hvs HR d Hd. unfold Extensions.
  destruct (Reserve_Runs [] ids ts R d Hd) as (d1 & -> & H1 & A1).
  destruct (Extensions_loop_Runs u ts vs _ Hvs HR (scope_fuel d1) []
    ltac:(by eapply at_fuel) d1 H1) as (d2 & E2 & H2 & A2).
  exists d2. split; [done|]. split; [done|]. rewrite A2, A1, advance_advance. f_equal; lia.
Qed.

(** A loop over the leading fields with one identifier. *)
Lemma whileNext_loop_Runs {T} (id : Identifier) (body : DM T) ts vs ts' R :
  Forall2 (fun t v => tid t = id /\ forall ts0, Runs [] body (t :: ts0) R v ts0 R) ts vs ->
  next_is id ts' = false ->
  forall fuel acc, (length ts < fuel)%nat ->
  Runs [] (whileNext_loop fuel id body acc) (ts ++ ts') R (acc ++ vs) ts' R.
Proof.
  intros Hvs Hn. induction Hvs as [|t v ts vs [Hid Hv] Hvs IH]; intros fuel acc Hf d Hd;
    (destruct fuel as [|fuel]; [simpl in Hf; lia|]); cbn [whileNext_loop].
  - destruct (NextIs_Runs id ts' R d Hd) as (d1 & -> & H1 & A1). rewrite Hn, app_nil_r.
    exists d1. split; [done|]. split; [done|]. by rewrite A1.
  - destruct (NextIs_Runs id ((t :: ts) ++ ts') R d Hd) as (d1 & -> & H1 & A1).
    simpl. rewrite bool_decide_true by done.
    destruct (Hv (ts ++ ts') d1 H1) as (d2 & -> & H2 & A2). simpl in Hf.
    destruct (IH fuel (acc ++ [v]) ltac:(lia) d2 H2) as (d3 & -> & H3 & A3).
    exists d3. rewrite <- app_assoc. split; [done|]. split; [done|].
    simpl in *. rewrite A3, A2, A1, !advance_advance. f_equal; lia.
Qed.

Lemma whileNext_Runs {T} (id : Identifier) (body : DM T) ts vs ts' R :
  Forall2 (fun t v => tid t = id /\ forall ts0, Runs [] body (t :: ts0) R v ts0 R) ts vs ->
  next_is id ts' = false ->
  Runs [] (whileNext id body) (ts ++ ts') R vs ts' R.
Proof.
  intros Hvs Hn d Hd. unfold whileNext.
  apply (whileNext_loop_Runs id body ts vs ts' R Hvs Hn _ []); [|done].
  pose proof (at_fuel _ _ _ _ Hd). rewrite length_app in *. lia.
Qed.

Lemma Embed_Runs {T} `{Zero T} rest (fields : DM (result T)) ts R v ts' R' :
  Runs rest fields ts R (Ok v) ts' R' -> Runs rest (Embed fields) ts R v ts' R'.
Proof.
  intros Hm d Hd. unfold Embed. rewrite (at_ready _ _ _ _ Hd). simpl.
  assert (at_ (set_child d None) ts R rest) as Hd0.
  { destruct Hd as [He Hrd Hok Hu Hf Hi HR]. constructor; simpl; try done.
    unfold ready. simpl. by rewrite He. }
  destruct (Hm _ Hd0) as (d1 & -> & H1 & A1). simpl.
  destruct (Err_Runs rest ts' R' d1 H1) as (d2 & -> & H2 & A2).
  exists d2. split; [done|]. split; [done|]. rewrite A2, A1, advance_advance. f_equal; lia.
Qed.

(** ** Entering a constructed element *)

Lemma Reader_Constructed_enc r id ts rest :
  reader_ok r -> unread r = enc (Cons id ts) ++ rest -> fits r (Cons id ts) ->
  let r' := advance r (len (enc (Cons id ts))) 1 in
  Reader_Constructed r id = (Ok (childReader r' (element_of (Cons id ts) (Offset r))), r').
Proof.
  intros Hr Hu Hf r'. destruct (childReader_enc r id ts rest Hr Hu Hf) as (_ & _ & _ & Hd).
  destruct Hf as (Hwf & Hc & Hh). pose proof (count_pos (Cons id ts)).
  pose proof (wf_tlv_cons _ _ _ Hwf) as (_ & Hk & _ & _).
  unfold Reader_Constructed. rewrite (ReadElement_enc r (Cons id ts) rest) by (done || lia).
  change (e_Identifier (element_of (Cons id ts) (Offset r))) with id.
  rewrite bool_decide_true, Hk by done. cbn [negb].
  change (r_depth (advance r ?n ?k)) with (r_depth r).
  change (r_limits (advance r ?n ?k)) with (r_limits r).
  by replace (r_depth r =? _) with false by lia.
Qed.

(** The child scope of a constructed element, and its parent meanwhile. *)
Lemma Constructed_at d id ts0 ts R rest :
  at_ d (Cons id ts0 :: ts) R rest -> exists c d1,
    Decoder_Constructed id d = (c, d1) /\ at_ c ts0 ∅ [] /\ d_err d1 = None /\
    d_child d1 = Some c /\ d_reserved d1 = R /\
    d_reader d1 = advance (d_reader d) (len (enc (Cons id ts0))) 1 /\
    r_elements (d_reader c) = r_elements (d_reader d) + 1.
Proof.
  intros Hd. destruct (at_head _ _ _ _ _ Hd) as (Hf & Hun & _).
  pose proof (at_ok _ _ _ _ Hd) as Hok.
  destruct (childReader_enc _ _ _ _ Hok Hun Hf) as (Hc1 & Hc2 & Hc3 & _). cbn zeta in *.
  pose proof (Reader_Constructed_enc _ _ _ _ Hok Hun Hf) as HC. cbn zeta in HC.
  unfold Decoder_Constructed. rewrite (at_ready _ _ _ _ Hd).
  cbn [negb set_child d_reader]. rewrite HC. eexists _, _. split; [reflexivity|].
  cbn [set_child set_reader d_err d_child d_reserved d_reader].
  rewrite (at_err _ _ _ _ Hd). split; [|repeat split; auto; apply (at_reserved _ _ _ _ Hd)].
  constructor; cbn [d_err d_reader d_reserved]; try done.
  - unfold encs. by rewrite app_nil_r.
  - apply (at_int _ _ _ _ Hd).
Qed.

Lemma within_Runs {A} rest id (body : DM A) ts0 a R' ts R :
  Runs [] body ts0 ∅ a [] R' ->
  Runs rest (within id body) (Cons id ts0 :: ts) R a ts R.
Proof.
  intros Hb d Hd. destruct (Constructed_at _ _ _ _ _ _ Hd)
    as (c & d1 & E1 & Hc & He1 & Hch & HR1 & Hr1 & Hel).
  destruct (Hb c Hc) as (c' & E2 & Hc' & A2).
  unfold within. rewrite E1, E2. eexists. split; [reflexivity|].
  unfold adopt. rewrite He1, Hch.
  assert (with_elements (d_reader d1) (r_elements (d_reader c')) =
    advance (d_reader d) (len (enc (Cons id ts0))) (count (Cons id ts0))) as Hrd.
  { rewrite Hr1, A2. unfold with_elements, advance. simpl. f_equal.
    rewrite Hel. unfold counts. simpl. lia. }
  pose proof (at_step _ _ _ _ _ Hd) as Hst.
  split.
  - destruct Hst as [Ge Grd Gok Gu Gf Gi GR]. constructor; cbn [d_err d_reader d_reserved].
    + apply (at_err _ _ _ _ Hc').
    + unfold ready. cbn [d_err d_child]. rewrite (at_err _ _ _ _ Hc').
      rewrite (End_at c' R') by done. cbn [set_child d_err]. by rewrite (at_err _ _ _ _ Hc').
    + rewrite Hrd. exact Gok.
    + rewrite Hrd. exact Gu.
    + rewrite Hrd. exact Gf.
    + rewrite Hrd. exact Gi.
    + done.
  - cbn [d_reader]. rewrite Hrd, encs_cons, len_app, counts_cons. f_equal; lia.
Qed.

(** ** Codec shapes on encodings *)

Lemma scoped_Decodes {A} id (body : DM A) check ts a R :
  Runs [] body ts ∅ a [] R -> check a = None ->
  Decodes (scoped id body check) (Cons id ts) a.
Proof.
  intros Hb Hck r rest Hr Hu Hf Hi. unfold scoped.
  assert (at_ (NewDecoder r) [Cons id ts] ∅ rest) as Hd.
  { constructor; cbn [NewDecoder d_err d_reader d_reserved]; try done;
      [by rewrite encs_cons; unfold encs; simpl; rewrite app_nil_r|].
    destruct Hf as (H1 & H2 & H3). unfold fits_all. simpl in *.
    pose proof (fits_tail_height ts). split; [by repeat constructor|]. lia. }
  destruct (Constructed_at _ _ _ _ _ _ Hd) as (c & d1 & E1 & Hc & He1 & Hch & HR1 & Hr1 & Hel).
  destruct (Hb c Hc) as (c1 & E2 & H2 & A2).
  destruct (End_Runs R c1 H2) as (c2 & E3 & H3 & A3).
  rewrite E1, E2, E3. unfold checked. rewrite Hck. f_equal.
  unfold adopt. rewrite He1, Hch. cbn [d_reader]. rewrite Hr1, A3, A2.
  unfold with_elements, advance. simpl. f_equal.
  rewrite Hel. unfold counts. simpl. lia.
Qed.

Lemma rooted_Decodes {A} (body : DM A) check t a R :
  (forall rest, Runs rest body [t] ∅ a [] R) -> check a = None ->
  Decodes (rooted body check) t a.
Proof.
  intros Hb Hck r rest Hr Hu Hf Hi. unfold rooted.
  assert (at_ (NewDecoder r) [t] ∅ rest) as Hd.
  { constructor; cbn [NewDecoder d_err d_reader d_reserved]; try done;
      [by rewrite encs_cons; unfold encs; simpl; rewrite app_nil_r|].
    destruct Hf as (H1 & H2 & H3). pose proof (height_nonneg t).
    unfold fits_all. simpl. split; [by repeat constructor|]. lia. }
  destruct (Hb rest _ Hd) as (d1 & E1 & H1 & A1).
  destruct (Err_Runs rest [] R d1 H1) as (d2 & E2 & H2 & A2).
  rewrite E1, E2. unfold checked. rewrite Hck. f_equal.
  rewrite A2, A1, advance_advance. rewrite encs_cons, counts_cons, len_app. cbn [NewDecoder d_reader].
  f_equal; lia.
Qed.

(** ** Primitive fields on encodings *)

Lemma Reader_Primitive_enc r id v rest :
  reader_ok r -> unread r = enc (Prim id v) ++ rest -> fits r (Prim id v) ->
  Reader_Primitive r id = (Ok v, advance r (len (enc (Prim id v))) 1).
Proof.
  intros Hr Hu (Hwf & Hc & _). unfold Reader_Primitive.
  rewrite (ReadElement_enc r (Prim id v) rest) by (done || (simpl in Hc; lia)).
  change (e_Identifier (element_of (Prim id v) (Offset r))) with id.
  rewrite bool_decide_true by done. cbn [negb].
  simpl in Hwf. zbool. apply negb_true_iff in H0. by rewrite H0.
Qed.

Lemma Primitive_Decodes id v : Decodes (fun r => Reader_Primitive r id) (Prim id v) v.
Proof. intros r rest Hr Hu Hf Hi. by eapply Reader_Primitive_enc. Qed.

Lemma Boolean_Decodes (b : bool) :
  Decodes Reader_Boolean (Prim BooleanIdentifier [if b then 0xff else 0]) b.
Proof.
  intros r rest Hr Hu Hf Hi. unfold Reader_Boolean.
  erewrite Reader_Primitive_enc by done. by destruct b.
Qed.

Lemma integer_Decodes T id v :
  go_type T = true -> in_type T v = true -> v < 2 ^ 63 ->
  Decodes (fun r => Reader_integer T r id) (Prim id (integerBytes v)) v.
Proof.
  intros HT Hv Hv63 r rest Hr Hu Hf Hi. unfold Reader_integer.
  erewrite Reader_Primitive_enc by done.
  destruct (integerBytes_twos v (go_type_range T v HT Hv)) as (_ & _ & _ & H8 & _).
  cbn [advance r_limits]. unfold int_ok in Hi.
  rewrite integerBytes_decode; [done|done|done|]. specialize (H8 Hv63). lia.
Qed.

Lemma Decoder_Primitive_Runs rest id v ts R :
  Runs rest (Decoder_Primitive id) (Prim id v :: ts) R v ts R.
Proof. apply Using_Runs, Primitive_Decodes. Qed.

Lemma Decoder_Boolean_Runs rest (b : bool) ts R :
  Runs rest Decoder_Boolean (Prim BooleanIdentifier [if b then 0xff else 0] :: ts) R b ts R.
Proof. apply Using_Runs, Boolean_Decodes. Qed.

Lemma Decoder_BooleanAs_Runs rest id (b : bool) ts R :
  Runs rest (Decoder_BooleanAs id) (Prim id [if b then 0xff else 0] :: ts) R b ts R.
Proof.
  apply Using_Runs. intros r rest' Hr Hu Hf Hi. erewrite Reader_Primitive_enc by done.
  by destruct b.
Qed.

Lemma Decoder_IntegerAs_Runs rest T id v ts R :
  go_type T = true -> in_type T v = true -> v < 2 ^ 63 ->
  Runs rest (Decoder_IntegerAs T id) (Prim id (integerBytes v) :: ts) R v ts R.
Proof. intros. by apply Using_Runs, integer_Decodes. Qed.

Lemma Decoder_NullAs_Runs rest id ts R :
  Runs rest (Decoder_NullAs id) (Prim id [] :: ts) R tt ts R.
Proof.
  apply Using_Runs. intros r rest' Hr Hu Hf Hi. erewrite Reader_Primitive_enc by done. done.
Qed.
