(* ===== verification/Types.v ===== *)
(** * RFC 4511 base types

    Models src/rfc4511/types.go and codec.go: the text and byte string types,
    the object identifier grammar, and preserved unknown fields; and the codec
    interface [Codec] that the message types implement. *)

From S2P Require Import Prelude Wire Packet Reader Decoder.

(** ** UTF-8

    [utf8.Valid] of the Go standard library: well-formed UTF-8 without
    overlong forms, surrogates or code points above U+10FFFF. *)
Definition in_range (lo hi b : Z) : bool := (lo <=? b) && (b <=? hi).

Fixpoint utf8_Valid (p : bytes) : bool :=
  match p with
  | [] => true
  | b0 :: p1 =>
      if b0 <? 0x80 then utf8_Valid p1
      else
        match p1 with
        | [] => false
        | b1 :: p2 =>
            if in_range 0xC2 0xDF b0 then in_range 0x80 0xBF b1 && utf8_Valid p2
            else
              match p2 with
              | [] => false
              | b2 :: p3 =>
                  if in_range 0xE0 0xEF b0 then
                    let lo := if b0 =? 0xE0 then 0xA0 else 0x80 in
                    let hi := if b0 =? 0xED then 0x9F else 0xBF in
                    in_range lo hi b1 && in_range 0x80 0xBF b2 && utf8_Valid p3
                  else
                    match p3 with
                    | [] => false
                    | b3 :: p4 =>
                        let lo := if b0 =? 0xF0 then 0x90 else 0x80 in
                        let hi := if b0 =? 0xF4 then 0x8F else 0xBF in
                        in_range 0xF0 0xF4 b0 && in_range lo hi b1 &&
                        in_range 0x80 0xBF b2 && in_range 0x80 0xBF b3 && utf8_Valid p4
                    end
              end
        end
  end.

(** ** Text and byte strings

    The source's string types [LDAPString], [LDAPOID], [LDAPDN],
    [RelativeLDAPDN], [URI], [AttributeDescription], [AttributeSelector] and
    [MatchingRuleID] and its byte types [AttributeValue] and [AssertionValue]
    are byte sequences. *)
Definition LDAPString := bytes.
Definition LDAPOID := bytes.
Definition LDAPDN := bytes.
Definition RelativeLDAPDN := bytes.
Definition URI := bytes.
Definition AttributeDescription := bytes.
Definition AttributeSelector := bytes.
Definition MatchingRuleID := bytes.
Definition AttributeValue := bytes.
Definition AssertionValue := bytes.

Definition unmarshalLDAPText (id : Identifier) : Unmarshal bytes := fun r =>
  match Reader_Primitive r id with
  | (Err err, r) => (Err err, r)
  | (Ok value, r) =>
      if negb (utf8_Valid value)
      then (Err (ErrorString "arden: LDAP text is not valid UTF-8"), r)
      else (Ok value, r)
  end.

Definition unmarshalLDAPBytes (id : Identifier) : Unmarshal bytes :=
  rooted (Decoder_Primitive id) no_check.

(** The state of the loop of [validateLDAPOID]. *)
Fixpoint validateLDAPOID_loop (value : bytes) (parts digits : Z) (leadingZero : bool) : option error :=
  match value with
  | [] =>
      if digits =? 0 then Some (ErrorString "arden: LDAPOID has an empty arc")
      else if parts =? 0 then Some (ErrorString "arden: LDAPOID requires at least two arcs")
      else None
  | b :: value =>
      if (b >=? 48) && (b <=? 57) then
        if digits =? 0 then validateLDAPOID_loop value parts (digits + 1) (b =? 48)
        else if leadingZero then Some (ErrorString "arden: LDAPOID has a leading zero")
        else validateLDAPOID_loop value parts (digits + 1) leadingZero
      else if b =? 46 then
        if digits =? 0 then Some (ErrorString "arden: LDAPOID has an empty arc")
        else validateLDAPOID_loop value (parts + 1) 0 false
      else Some (FormatError "arden: LDAPOID contains non-numeric byte %q" [[b]])
  end.

Definition validateLDAPOID (value : bytes) : option error := validateLDAPOID_loop value 0 0 false.

(** The [UnmarshalAs] methods of the text types. [LDAPOID] validates the text. *)
Definition LDAPString_UnmarshalAs (id : Identifier) : Unmarshal LDAPString := unmarshalLDAPText id.
Definition LDAPOID_UnmarshalAs (id : Identifier) : Unmarshal LDAPOID := fun r =>
  match unmarshalLDAPText id r with
  | (Err err, r) => (Err err, r)
  | (Ok decoded, r) =>
      match validateLDAPOID decoded with
      | Some err => (Err err, r)
      | None => (Ok decoded, r)
      end
  end.
Definition LDAPDN_UnmarshalAs (id : Identifier) : Unmarshal LDAPDN := unmarshalLDAPText id.
Definition RelativeLDAPDN_UnmarshalAs (id : Identifier) : Unmarshal RelativeLDAPDN := unmarshalLDAPText id.
Definition URI_UnmarshalAs (id : Identifier) : Unmarshal URI := unmarshalLDAPText id.
Definition AttributeDescription_UnmarshalAs (id : Identifier) : Unmarshal AttributeDescription := unmarshalLDAPText id.
Definition AttributeSelector_UnmarshalAs (id : Identifier) : Unmarshal AttributeSelector := unmarshalLDAPText id.
Definition MatchingRuleID_UnmarshalAs (id : Identifier) : Unmarshal MatchingRuleID := unmarshalLDAPText id.
Definition AttributeValue_UnmarshalAs (id : Identifier) : Unmarshal AttributeValue := unmarshalLDAPBytes id.
Definition AssertionValue_UnmarshalAs (id : Identifier) : Unmarshal AssertionValue := unmarshalLDAPBytes id.

(** Their [UnmarshalBER] methods read a universal OCTET STRING. *)
Definition LDAPString_UnmarshalBER := LDAPString_UnmarshalAs OctetStringIdentifier.
Definition LDAPOID_UnmarshalBER := LDAPOID_UnmarshalAs OctetStringIdentifier.
Definition LDAPDN_UnmarshalBER := LDAPDN_UnmarshalAs OctetStringIdentifier.
Definition RelativeLDAPDN_UnmarshalBER := RelativeLDAPDN_UnmarshalAs OctetStringIdentifier.
Definition URI_UnmarshalBER := URI_UnmarshalAs OctetStringIdentifier.
Definition AttributeDescription_UnmarshalBER := AttributeDescription_UnmarshalAs OctetStringIdentifier.
Definition AttributeSelector_UnmarshalBER := AttributeSelector_UnmarshalAs OctetStringIdentifier.
Definition MatchingRuleID_UnmarshalBER := MatchingRuleID_UnmarshalAs OctetStringIdentifier.
Definition AttributeValue_UnmarshalBER := AttributeValue_UnmarshalAs OctetStringIdentifier.
Definition AssertionValue_UnmarshalBER := AssertionValue_UnmarshalAs OctetStringIdentifier.

(** Their [BERPacket] methods are all [ber.OctetString]; [Octets] is that
    method as a [Packeter] for lists of such values. *)
Record Octets := MkOctets { octets : bytes }.
#[export] Instance Octets_Packeter : Packeter Octets := fun v => OctetString (octets v).

(** ** Preserved unknown fields *)

Record UnknownField := MkUnknownField {
  uf_identifier : Identifier;
  uf_raw : bytes
}.
#[export] Instance Zero_UnknownField : Zero UnknownField := MkUnknownField zero [].

Definition UnknownField_BERPacket (f : UnknownField) : Packet := Encoded (uf_raw f).
#[export] Instance UnknownField_Packeter : Packeter UnknownField := UnknownField_BERPacket.

Definition unknownField (e : Element) : UnknownField :=
  MkUnknownField (e_Identifier e) (e_Raw e).

Definition UnknownField_UnmarshalBER : Unmarshal UnknownField := fun r =>
  match SkipElement r with
  | (Err err, r) => (Err err, r)
  | (Ok e, r) => (Ok (unknownField e), r)
  end.

(** ** Identifiers and packets of codec.go *)

Definition contextPrimitive (number : Z) : Identifier := MkId ClassContextSpecific false number.
Definition contextConstructed (number : Z) : Identifier := MkId ClassContextSpecific true number.
Definition applicationPrimitive (number : Z) : Identifier := MkId ClassApplication false number.
Definition applicationConstructed (number : Z) : Identifier := MkId ClassApplication true number.

Definition implicitOctetsPacket (id : Identifier) (value : bytes) : Packet := Primitive id value.
Definition implicitBooleanPacket (id : Identifier) (value : bool) : Packet :=
  Primitive id [if value then 0xff else 0].

Definition requireNonEmpty (name : string) (value : bytes) : option error :=
  if len value =? 0
  then Some (ErrorString ("arden: " +:+ name +:+ " is empty"))
  else None.

(** ** The codec interface

    A message type with its encoder [BERPacket] and decoder [u]. [repr v t]
    says that the element tree [t] represents the value [v]; the laws say that
    the encoder writes [t] and the decoder reads [v] back from it. *)
Class Codec (T : Type) `{Packeter T} (u : Unmarshal T) := {
  repr : T -> tlv -> Prop;
  repr_encodes m v t : repr v t -> wf_tlv m t = true -> encodes (BERPacket v) t;
  repr_decodes v t : repr v t -> Decodes u t v
}.
Arguments repr {T _} u {_} _ _.

(** Lists of representable values. *)
Lemma Codec_all {T} `{Packeter T} (u : Unmarshal T) `{!Codec T u} vs ts :
  Forall2 (repr u) vs ts -> DecodesAll u ts vs.
Proof.
  intros Hr. apply Forall2_flip. eapply Forall2_impl; [exact Hr|].
  intros v t. apply repr_decodes.
Qed.

Lemma Codec_encodes_all {T} `{Packeter T} (u : Unmarshal T) `{!Codec T u} m vs ts :
  Forall2 (repr u) vs ts -> Forall (fun t => wf_tlv m t = true) ts ->
  Forall2 (fun v t => encodes (BERPacket v) t) vs ts.
Proof.
  induction 1 as [|v t vs ts Hv Hvs IH]; intros Hwf; constructor.
  - inversion Hwf. by apply (repr_encodes m).
  - apply IH. by inversion Hwf.
Qed.

(** A single representable value, encoded as a whole message and decoded by a
    fresh reader: the end-to-end round trip. *)
Definition decode_message {T} (u : Unmarshal T) (data : bytes) (limits : Limits) : result T :=
  r ← NewReader data limits;
  match u r with
  | (Err err, _) => Err err
  | (Ok v, r) =>
      match RequireEmpty r with
      | Some err => Err err
      | None => Ok v
      end
  end.

(** The limits admit the tree as a complete message. *)
Definition admits (l : Limits) (t : tlv) : Prop :=
  Limits_Validate l = None /\ wf_tlv (MaxTagNumber l) t = true /\
  len (enc t) <= MaxFrameBytes l /\ count t <= MaxElements l /\ height t <= MaxDepth l /\
  8 <= MaxIntegerBytes l.

Lemma Decodes_message {T} (u : Unmarshal T) t v l :
  Decodes u t v -> admits l t -> decode_message u (enc t) l = Ok v.
Proof.
  intros Hu (Hv & Hwf & Hfr & Hc & Hh & Hi). unfold decode_message, NewReader. rewrite Hv.
  replace (len (enc t) >? MaxFrameBytes l) with false by lia. cbn [mbind result_bind].
  set (r := MkReader (enc t) 0 0 0 l 0). pose proof (len_nonneg (enc t)). pose proof (count_pos t).
  rewrite (Hu r []).
  - unfold RequireEmpty, Empty, Remaining. simpl. by rewrite Z.sub_diag.
  - split; simpl; lia.
  - unfold unread, slice_from. simpl. by rewrite drop_0, app_nil_r.
  - repeat split; simpl; [done|lia|lia].
  - done.
Qed.

Lemma Codec_roundtrip {T} `{Packeter T} (u : Unmarshal T) `{!Codec T u} v t l :
  repr u v t -> admits l t -> decode_message u (Encode (BERPacket v)) l = Ok v.
Proof.
  intros Hr Hl. destruct (repr_encodes _ _ _ Hr (proj1 (proj2 Hl))) as [-> _].
  apply Decodes_message; [by apply repr_decodes|done].
Qed.

(** ** The base types implement their trees *)

Lemma Text_Decodes id v : utf8_Valid v = true -> Decodes (unmarshalLDAPText id) (Prim id v) v.
Proof.
  intros Hv r rest Hr Hu Hf Hi. unfold unmarshalLDAPText.
  rewrite (Reader_Primitive_enc r id v rest) by done. by rewrite Hv.
Qed.

Lemma OID_Decodes id v : utf8_Valid v = true -> validateLDAPOID v = None ->
  Decodes (LDAPOID_UnmarshalAs id) (Prim id v) v.
Proof.
  intros Hv Ho r rest Hr Hu Hf Hi. unfold LDAPOID_UnmarshalAs.
  rewrite (Text_Decodes id v Hv r rest) by done. by rewrite Ho.
Qed.

Lemma Bytes_Decodes id v : Decodes (unmarshalLDAPBytes id) (Prim id v) v.
Proof.
  apply (rooted_Decodes _ _ _ _ ∅); [|done]. intros. apply Decoder_Primitive_Runs.
Qed.

Definition UnknownField_repr (f : UnknownField) (t : tlv) : Prop :=
  uf_raw f = enc t /\ uf_identifier f = tid t.

Lemma UnknownField_Decodes f t :
  UnknownField_repr f t -> Decodes UnknownField_UnmarshalBER t f.
Proof.
  intros [H1 H2] r rest Hr Hu Hf Hi. unfold UnknownField_UnmarshalBER.
  rewrite (SkipElement_enc r t rest) by done.
  do 2 f_equal. destruct f. simpl in *. by subst.
Qed.

#[export, program] Instance UnknownField_Codec : Codec UnknownField UnknownField_UnmarshalBER :=
  {| repr := UnknownField_repr |}.
Next Obligation. intros m v t [H1 H2] Hwf. by apply encodes_Encoded. Qed.
Next Obligation. intros v t H. by apply UnknownField_Decodes. Qed.

(** Trees of the primitive values. *)
Definition t_octets (v : bytes) : tlv := Prim OctetStringIdentifier v.
Definition t_int (v : Z) : tlv := Prim IntegerIdentifier (integerBytes v).
Definition t_enum (v : Z) : tlv := Prim EnumeratedIdentifier (integerBytes v).
Definition t_bool (b : bool) : tlv := Prim BooleanIdentifier [if b then 0xff else 0].

(** [when b t] is the optional element [t]. *)
Definition when (b : bool) (t : tlv) : list tlv := if b then [t] else [].

(** Extension fields [fs], represented by [ts], whose identifiers avoid [R]. *)
Definition extensions (R : list Identifier) (fs : list UnknownField) (ts : list tlv) : Prop :=
  Forall2 UnknownField_repr fs ts /\ Forall (fun t => tid t ∉ R) ts.

Lemma extensions_DecodesAll R fs ts :
  extensions R fs ts -> DecodesAll UnknownField_UnmarshalBER ts fs.
Proof. intros [H _]. by apply (Codec_all UnknownField_UnmarshalBER). Qed.

(** Trailing extensions, when [R] is exactly what the scope has reserved. *)
Lemma extensions_Runs R0 R ids fs ts :
  extensions R fs ts -> R0 ∪ list_to_set ids ⊆ (list_to_set R : gset Identifier) ->
  Runs [] (Extensions UnknownField_UnmarshalBER ids) ts R0 fs [] (R0 ∪ list_to_set ids).
Proof.
  intros [H1 H2] HR. apply Extensions_Runs; [by apply (Codec_all UnknownField_UnmarshalBER)|].
  eapply Forall_impl; [exact H2|]. intros t Ht. simpl in Ht.
  intros Hin. apply Ht. apply HR in Hin. by apply elem_of_list_to_set in Hin.
Qed.

Lemma next_is_extensions id R fs ts :
  extensions R fs ts -> id ∈ R -> next_is id ts = false.
Proof.
  intros [_ H] Hid. destruct ts as [|t ts]; [done|]. inversion_clear H as [|? ? Ht _].
  simpl. apply bool_decide_false. intros <-. done.
Qed.

(** [BERPacket] of a text value, against its tree. *)
Lemma octets_encodes m v : wf_tlv m (t_octets v) = true -> encodes (OctetString v) (t_octets v).
Proof. apply encodes_primitive. Qed.
Lemma int_encodes m v : wf_tlv m (t_int v) = true -> encodes (Integer v) (t_int v).
Proof. apply encodes_primitive. Qed.
Lemma enum_encodes m v : wf_tlv m (t_enum v) = true -> encodes (Enumerated v) (t_enum v).
Proof. apply encodes_primitive. Qed.
Lemma bool_encodes m b : wf_tlv m (t_bool b) = true -> encodes (Boolean b) (t_bool b).
Proof. destruct b; apply encodes_primitive. Qed.
Lemma implicit_encodes m id v :
  wf_tlv m (Prim id v) = true -> encodes (implicitOctetsPacket id v) (Prim id v).
Proof. apply encodes_primitive. Qed.

(** ** Proof steps for codecs *)

(** Split a well-formedness hypothesis into its children's. *)
Ltac wf_split H :=
  let Hid := fresh "Hid" in let Hk := fresh "Hk" in let Hch := fresh "Hch" in let Hl := fresh "Hl" in
  pose proof (wf_tlv_cons _ _ _ H) as (Hid & Hk & Hch & Hl);
  repeat match goal with
  | H0 : Forall _ (_ ++ _) |- _ => apply Forall_app in H0 as [? ?]
  | H0 : Forall _ (_ :: _) |- _ => inversion_clear H0
  end.

(** Run the next operation of a decoder body. *)
Ltac run_next :=
  lazymatch goal with
  | |- Runs _ (mret _) _ _ _ _ _ => apply Runs_ret
  | |- Runs _ (_ ≫= _) _ _ _ _ _ => eapply Runs_bind
  end.

Create HintDb runs discriminated.
#[export] Hint Resolve Decoder_Primitive_Runs Decoder_Boolean_Runs Decoder_BooleanAs_Runs
  Decoder_NullAs_Runs Runs_ret : runs.

Lemma Read_Runs {T} `{Zero T} rest (u : Unmarshal T) t v ts R :
  Decodes u t v -> Runs rest (Read u) (t :: ts) R v ts R.
Proof. apply one_Runs. Qed.

Lemma ReadAs_Runs {T} `{Zero T} rest (u : Identifier -> Unmarshal T) id t v ts R :
  Decodes (u id) t v -> Runs rest (ReadAs u id) (t :: ts) R v ts R.
Proof. apply one_Runs. Qed.

(** An optional field: [if d.NextIs(id) { body }] with [dflt] when absent. *)
Definition optional {A} (id : Identifier) (body : DM A) (dflt : A) : DM A :=
  next ← NextIs id; if (next : bool) then body else mret dflt.

Lemma optional_present {A} id (body : DM A) dflt t ts R v :
  tid t = id -> Runs [] body (t :: ts) R v ts R ->
  Runs [] (optional id body dflt) (t :: ts) R v ts R.
Proof.
  intros Hid Hb. eapply Runs_bind; [apply NextIs_Runs|]. simpl.
  by rewrite bool_decide_true.
Qed.

Lemma optional_absent {A} id (body : DM A) dflt ts R :
  next_is id ts = false -> Runs [] (optional id body dflt) ts R dflt ts R.
Proof.
  intros Hid. eapply Runs_bind; [apply NextIs_Runs|]. rewrite Hid. apply Runs_ret.
Qed.

(** An optional field on its possible encodings. *)
Lemma optional_Runs {A} id (body : DM A) dflt (b : bool) t ts R v :
  tid t = id -> (b = true -> Runs [] body (t :: ts) R v ts R) ->
  (b = false -> v = dflt) -> next_is id ts = false ->
  Runs [] (optional id body dflt) (when b t ++ ts) R v ts R.
Proof.
  intros Hid Hb Hd Hn. destruct b; simpl.
  - apply optional_present; auto.
  - rewrite Hd by done. by apply optional_absent.
Qed.

(** A CHOICE: the alternative is selected by the identifier of the element. *)
Lemma choice_Decodes {A} (alternative : Identifier -> DM A) t a :
  (forall rest, Runs rest (alternative (tid t)) [t] ∅ a [] ∅) ->
  Decodes (rooted (id ← Decoder_PeekIdentifier; alternative id) no_check) t a.
Proof.
  intros Hm. apply (rooted_Decodes _ _ _ _ ∅); [|done]. intros rest.
  run_next; [apply Peek_Runs|apply Hm].
Qed.

(** A decoder wrapped around the reading of one tagged value. *)
Lemma wrapped_Decodes {A B} `{Zero A} (u : Identifier -> Unmarshal A) id (mk : A -> B) check t a :
  Decodes (u id) t a -> check (mk a) = None ->
  Decodes (rooted (a ← ReadAs u id; mret (mk a)) check) t (mk a).
Proof.
  intros Ha Hck. apply (rooted_Decodes _ _ _ _ ∅); [|done]. intros rest.
  run_next; [by apply ReadAs_Runs|apply Runs_ret].
Qed.

Lemma extensions_nil R : extensions R [] [].
Proof. split; constructor. Qed.

(** The identifier of the next element differs from [id]. *)
Lemma next_is_when id b t ts : tid t <> id -> next_is id ts = false ->
  next_is id (when b t ++ ts) = false.
Proof. intros Hne Hn. destruct b; simpl; [by apply bool_decide_false|done]. Qed.

Lemma Forall2_octets m vs :
  Forall (fun t => wf_tlv m t = true) (map t_octets vs) ->
  Forall2 (fun c t => encodes (BERPacket c) t) (map MkOctets vs) (map t_octets vs).
Proof.
  induction vs as [|v vs IH]; simpl; intros H; constructor.
  - inversion_clear H. by apply (octets_encodes m).
  - apply IH. by inversion_clear H.
Qed.

Lemma DecodesAll_map {T} (u : Unmarshal T) (tr : T -> tlv) vs :
  Forall (fun v => Decodes u (tr v) v) vs -> DecodesAll u (map tr vs) vs.
Proof. induction 1; constructor; auto. Qed.

Lemma Forall2_extensions R fs ts :
  extensions R fs ts -> Forall2 (fun c t => encodes (BERPacket c) t) fs ts.
Proof.
  intros [H _]. eapply Forall2_impl; [exact H|]. intros f t Ht.
  destruct Ht. by apply encodes_Encoded.
Qed.

Lemma holds_cast e id ts ts' : holds e id ts -> ts = ts' -> holds e id ts'.
Proof. by intros ? <-. Qed.

(** An optional field added to an envelope. *)
Lemma holds_Add_when {T} `{Packeter T} e id ts (b : bool) (c : T) t :
  holds e id ts -> (b = true -> encodes (BERPacket c) t) ->
  holds (if b then Add e [c] else e) id (ts ++ when b t).
Proof.
  intros He Hc. destruct b; simpl; [|by rewrite app_nil_r].
  apply holds_Add; [done|]. constructor; auto.
Qed.

Lemma holds_Add_one {T} `{Packeter T} e id ts (c : T) t :
  holds e id ts -> encodes (BERPacket c) t -> holds (Add e [c]) id (ts ++ [t]).
Proof. intros. apply holds_Add; [done|]. by constructor. Qed.

Lemma Forall_when (P : tlv -> Prop) b t : Forall P (when b t) -> b = true -> P t.
Proof. intros H ->. by inversion H. Qed.

#[global] Arguments wf_tlv : simpl never.
#[global] Arguments enc : simpl never.
#[global] Arguments count : simpl never.
#[global] Arguments height : simpl never.
#[global] Arguments Add : simpl never.
#[global] Arguments next_is : simpl nomatch.

(** Prove that an encoder's envelope holds the trees of its value: peel the
    [Add] calls from the last to the first. [encoder_leaf] closes the goals on
    the single fields. *)
Create HintDb encodes discriminated.
#[export] Hint Resolve octets_encodes int_encodes enum_encodes bool_encodes implicit_encodes
  Forall2_octets : encodes.

Ltac encoder_leaf :=
  intros;
  repeat match goal with
  | H : Forall _ (when ?b ?t), Hb : ?b = true |- _ => apply Forall_when in H; [|exact Hb]
  end;
  first [ by eapply Forall2_extensions
        | by (repeat first [apply Forall2_cons_2 | apply Forall2_nil_2]; eauto with encodes)
        | by eauto with encodes ].

Ltac encoder_peel :=
  lazymatch goal with
  | |- holds (Constructed _) _ _ => by apply holds_Constructed
  | |- holds Sequence _ _ => by apply holds_Constructed
  | |- holds Set_ _ _ => by apply holds_Constructed
  | |- holds (if _ then Add ?e _ else ?e) _ _ =>
      eapply holds_Add_when; [encoder_peel|encoder_leaf]
  | |- holds (Add _ _) _ _ => eapply holds_Add; [encoder_peel|encoder_leaf]
  end.

Ltac encoder m :=
  eapply (holds_encodes m); [|eassumption];
  eapply holds_cast; [encoder_peel|by rewrite ?app_nil_l, <- ?app_assoc].

Lemma octets_of_encodes m id vs : id_Constructed id = true ->
  wf_tlv m (Cons id (map t_octets vs)) = true ->
  encodes (BERPacket (Add (Constructed id) (map MkOctets vs))) (Cons id (map t_octets vs)).
Proof. intros Hk Hwf. wf_split Hwf. encoder m. Qed.

Lemma set_encodes m vs : wf_tlv m (Cons SetIdentifier (map t_octets vs)) = true ->
  encodes (BERPacket (Add Set_ (map MkOctets vs))) (Cons SetIdentifier (map t_octets vs)).
Proof. by apply octets_of_encodes. Qed.
#[export] Hint Resolve set_encodes : encodes.

(** An optional component held by pointer. *)
Definition pointer {T} `{Zero T} (id : Identifier) (m : DM T) : DM (option T) :=
  optional id (v ← m; mret (Some v)) None.

Definition opt_tree (id : Identifier) (o : option bytes) : list tlv :=
  match o with Some v => [Prim id v] | None => [] end.

Lemma holds_opt e id0 ts id o :
  holds e id0 ts -> Forall (fun t => exists m, wf_tlv m t = true) (opt_tree id o) ->
  holds (match o with Some v => Add e [implicitOctetsPacket id v] | None => e end) id0
    (ts ++ opt_tree id o).
Proof.
  intros He Hwf. destruct o as [v|]; simpl in *; [|by rewrite app_nil_r].
  apply holds_Add_one; [done|]. inversion_clear Hwf as [|? ? [m Hm] _]. by eapply implicit_encodes.
Qed.

Lemma Forall_wf_ex m ts : Forall (fun t => wf_tlv m t = true) ts ->
  Forall (fun t => exists m, wf_tlv m t = true) ts.
Proof. intros H. eapply Forall_impl; [exact H|]. simpl. eauto. Qed.

Lemma pointer_Runs id (m : DM bytes) o ts R :
  (forall v ts, o = Some v -> Runs [] m (Prim id v :: ts) R v ts R) ->
  next_is id ts = false ->
  Runs [] (pointer id m) (opt_tree id o ++ ts) R o ts R.
Proof.
  intros Hm Hn. unfold pointer. destruct o as [v|]; simpl.
  - apply optional_present; [done|]. run_next; [by apply Hm|apply Runs_ret].
  - by apply optional_absent.
Qed.

(** The identifier of the next element differs from [id]. *)
Lemma next_is_opt id id' o ts : id' <> id -> next_is id ts = false ->
  next_is id (opt_tree id' o ++ ts) = false.
Proof. intros Hne Hn. destruct o; simpl; [by apply bool_decide_false|done]. Qed.

Ltac next_free He :=
  repeat first [apply next_is_opt; [done|] | apply next_is_when; [done|]];
  first [done | eapply next_is_extensions; [exact He|set_solver]].

Ltac encoder_peel ::=
  lazymatch goal with
  | |- holds (Constructed _) _ _ => by apply holds_Constructed
  | |- holds Sequence _ _ => by apply holds_Constructed
  | |- holds Set_ _ _ => by apply holds_Constructed
  | |- holds (if _ then Add ?e _ else ?e) _ _ =>
      eapply holds_Add_when; [encoder_peel|encoder_leaf]
  | |- holds (match _ with Some _ => Add ?e _ | None => ?e end) _ _ =>
      eapply holds_opt; [encoder_peel|eapply Forall_wf_ex; eassumption]
  | |- holds (Add _ _) _ _ => eapply holds_Add; [encoder_peel|encoder_leaf]
  end.

(** ** Dotted-decimal object identifiers *)

Definition digit (b : Z) : Prop := 48 <= b <= 57.
(** An arc: digits, with no leading zero unless it is zero itself. *)
Definition arc (a : bytes) : Prop := a <> [] /\ Forall digit a /\ (a !! 0%nat = Some 48 -> a = [48]).
(** The arcs that follow the first one. *)
Definition dotted (arcs : list bytes) : bytes := concat (map (cons 46) arcs).

(** What is left of an arc of which [digits] digits have been read. *)
Definition arc_rest (digits : Z) (leadingZero : bool) (a : bytes) : Prop :=
  Forall digit a /\ if digits =? 0 then arc a else leadingZero = true -> a = [].

Lemma digit_dec b : digit b <-> (b >=? 48) && (b <=? 57) = true.
Proof. unfold digit. lia. Qed.

Lemma arc_step digits lz b a : 0 <= digits -> digit b ->
  arc_rest digits lz (b :: a) <->
  (if digits =? 0 then arc_rest (digits + 1) (b =? 48) a
   else lz = false /\ arc_rest (digits + 1) lz a).
Proof.
  intros Hd Hb. unfold arc_rest, arc. replace (digits + 1 =? 0) with false by lia.
  assert (Forall digit (b :: a) <-> Forall digit a) as Hf by (rewrite Forall_cons; tauto).
  destruct (digits =? 0) eqn:E.
  - split.
    + intros [Ha (_ & _ & Hz)]. split; [by apply Hf|]. intros H. zbool. subst b.
      by injection (Hz eq_refl).
    + intros [Ha Hz]. apply Hf in Ha. split; [done|]. split; [done|]. split; [done|].
      intros [= ->]. by rewrite Hz.
  - destruct lz; split.
    + intros [_ H]. by specialize (H eq_refl).
    + by intros [? _].
    + intros [Ha _]. apply Hf in Ha. done.
    + intros (_ & Ha & _). apply Hf in Ha. done.
Qed.

Lemma oid_loop v : forall parts digits lz, 0 <= parts -> 0 <= digits ->
  validateLDAPOID_loop v parts digits lz = None <->
  exists a arcs, v = a ++ dotted arcs /\ arc_rest digits lz a /\ Forall arc arcs /\
    (0 < parts \/ arcs <> []).
Proof.
  induction v as [|b v IH]; intros parts digits lz Hp Hd; cbn [validateLDAPOID_loop].
  { split.
    - case_ifs; [done|done|]. zbool. intros _. exists [], []. cbn.
      split; [done|]. split; [|split; [done|lia]]. split; [done|]. by replace (digits =? 0) with false by lia.
    - intros (a & arcs & Hv & Ha & _ & Hn). symmetry in Hv. apply app_nil in Hv as [-> Hv].
      destruct arcs; [|done]. destruct Hn as [Hn|]; [|done]. replace (parts =? 0) with false by lia.
      destruct Ha as [_ Ha]. destruct (digits =? 0); [by destruct Ha|done]. }
  destruct ((b >=? 48) && (b <=? 57)) eqn:Eb.
  - apply digit_dec in Eb as Hb.
    assert (forall lz', (exists a arcs, v = a ++ dotted arcs /\ arc_rest (digits + 1) lz' a /\
              Forall arc arcs /\ (0 < parts \/ arcs <> [])) <->
              validateLDAPOID_loop v parts (digits + 1) lz' = None) as HIH by (intros; rewrite IH; [done|lia|lia]).
    assert ((exists a arcs, b :: v = a ++ dotted arcs /\ arc_rest digits lz a /\ Forall arc arcs /\
              (0 < parts \/ arcs <> [])) <->
            exists a arcs, v = a ++ dotted arcs /\ arc_rest digits lz (b :: a) /\ Forall arc arcs /\
              (0 < parts \/ arcs <> [])) as ->.
    { split.
      - intros (a & arcs & Hv & Ha & Har & Hn). destruct a as [|b' a].
        + destruct arcs as [|x arcs]; [done|]. cbn in Hv. injection Hv as -> _. unfold digit in Hb. lia.
        + injection Hv as <- Hv. by exists a, arcs.
      - intros (a & arcs & -> & Ha & Har & Hn). by exists (b :: a), arcs. }
    setoid_rewrite (arc_step digits lz b); [|done|done]. destruct (digits =? 0).
    + by rewrite HIH.
    + destruct lz; [split; [done|by intros (a & arcs & _ & [Hf _] & _)]|]. rewrite <- HIH.
      split; intros (a & arcs & Hv & Ha & Hrest); exists a, arcs; tauto.
  - assert (forall a arcs, b :: v = a ++ dotted arcs -> Forall digit a ->
      a = [] /\ b = 46 /\ exists x arcs', arcs = x :: arcs' /\ v = x ++ dotted arcs') as Hshape.
    { intros a arcs Hv Ha. destruct a as [|b' a].
      - destruct arcs as [|x arcs]; [done|]. cbn in Hv. injection Hv as -> ->. split; [done|]. eauto.
      - injection Hv as <- _. inversion Ha as [|? ? Hdig]; subst. apply digit_dec in Hdig. congruence. }
    destruct (b =? 46) eqn:E46; zbool.
    2:{ split; [done|]. intros (a & arcs & Hv & [Ha _] & _). by apply Hshape in Hv as (_ & ? & _). }
    subst b. destruct (digits =? 0) eqn:Ed.
    { split; [done|]. intros (a & arcs & Hv & [Ha Harc] & _). rewrite Ed in Harc.
      apply Hshape in Hv as (-> & _); [|done]. by destruct Harc. }
    rewrite IH by lia. split.
    + intros (a & arcs & -> & [Ha Harc] & Har & _). exists [], (a :: arcs). split; [done|].
      unfold arc_rest. rewrite Ed. split; [done|]. split; [by constructor|by right].
    + intros (a & arcs & Hv & [Ha _] & Har & _). apply Hshape in Hv as (_ & _ & x & arcs' & -> & ->); [|done].
      inversion Har as [|? ? Hx Har']; subst. exists x, arcs'. split; [done|].
      split; [split; [by destruct Hx as (_ & ? & _)|done]|]. split; [done|left; lia].
Qed.

(** [validateLDAPOID] is the grammar of dotted-decimal object identifiers:
    it accepts exactly the strings of two or more arcs separated by single
    dots, every arc a decimal number without a leading zero. *)
Theorem oid_grammar v : validateLDAPOID v = None <->
  exists first second arcs, v = first ++ dotted (second :: arcs) /\ arc first /\ arc second /\ Forall arc arcs.
Proof.
  unfold validateLDAPOID. rewrite oid_loop by done. unfold arc_rest. cbn [Z.eqb]. split.
  - intros (a & arcs & -> & [_ Ha] & Har & Hn). destruct arcs as [|x arcs]; [by destruct Hn|].
    inversion Har; subst. by exists a, x, arcs.
  - intros (a & x & arcs & -> & Ha & Hx & Har). exists a, (x :: arcs). split; [done|].
    split; [split; [by destruct Ha as (_ & ? & _)|done]|]. split; [by constructor|by right].
Qed.
