(* ===== verification/Protocol.v ===== *)
(** * Operations and response patterns

    Models src/protocol/operation.go: framing patterns and the classification
    of response identifiers, typed response decoding, and the validation of
    operations.

    A [ProtocolOperation] is the pair of what its methods return. A nil
    interface value is [None]. *)

From S2P Require Import Prelude Wire Packet Reader Decoder Types.

Definition MessageID := Z.
Definition MaxMessageID : MessageID := 2 ^ 31 - 1.

Record ProtocolOperation := MkProtocolOperation {
  po_packet : Packet;
  ProtocolIdentifier : Identifier
}.
#[export] Instance ProtocolOperation_Packeter : Packeter ProtocolOperation := po_packet.

Inductive Classification :=
| ClassificationInvalid
| ClassificationContinue
| ClassificationComplete.

#[export] Instance Classification_eq_dec : EqDecision Classification.
Proof. solve_decision. Defined.

Record ResponseSpec := MkResponseSpec {
  Continue : list Identifier;
  Complete : list Identifier;
  rs_NoResponse : bool
}.

Record FramingPattern := MkFramingPattern {
  continueIDs : list Identifier;
  completeIDs : list Identifier;
  noResponse : bool;
  valid : bool
}.
#[export] Instance Zero_FramingPattern : Zero FramingPattern := MkFramingPattern [] [] false false.

(** ** Construction *)

Definition notApplicationError (kind : string) (id : Identifier) : error :=
  FormatError "arden: %s identifier %s is not an application identifier"
    [bs kind; bs (Identifier_String id)].
Definition duplicateIdentifierError (id : Identifier) : error :=
  FormatError "arden: duplicate response identifier %s" [bs (Identifier_String id)].

(** The closure [validate] of [newFramingPattern] over the map [seen]. *)
Fixpoint validate (kind : string) (ids : list Identifier) (seen : gset Identifier)
    : result (gset Identifier) :=
  match ids with
  | [] => Ok seen
  | id :: ids =>
      if negb (Identifier_Valid id) || negb (id_Class id =? ClassApplication)
      then Err (notApplicationError kind id)
      else if bool_decide (id ∈ seen) then Err (duplicateIdentifierError id)
      else validate kind ids ({[id]} ∪ seen)
  end.

Definition newFramingPattern (spec : ResponseSpec) : result FramingPattern :=
  if rs_NoResponse spec then
    if negb (len (Continue spec) =? 0) || negb (len (Complete spec) =? 0)
    then Err (ErrorString "arden: a no-response pattern cannot contain response identifiers")
    else Ok (MkFramingPattern [] [] true true)
  else if len (Complete spec) =? 0
  then Err (ErrorString "arden: a response pattern needs at least one terminal identifier")
  else
    seen ← validate "continuing" (Continue spec) ∅;
    _ ← validate "terminal" (Complete spec) seen;
    Ok (MkFramingPattern (Continue spec) (Complete spec) false true).

Definition contains (ids : list Identifier) (id : Identifier) : bool := bool_decide (id ∈ ids).

Definition FramingPattern_Classify (p : FramingPattern) (id : Identifier) : Classification :=
  if negb (valid p) || noResponse p then ClassificationInvalid
  else if contains (continueIDs p) id then ClassificationContinue
  else if contains (completeIDs p) id then ClassificationComplete
  else ClassificationInvalid.

Definition FramingPattern_Valid (p : FramingPattern) : bool := valid p.
Definition FramingPattern_NoResponse (p : FramingPattern) : bool := valid p && noResponse p.

(** ** Responses *)

Record Response := MkResponse {
  rsp_MessageID : MessageID;
  rsp_ProtocolID : Identifier;
  rsp_Bytes : bytes;
  rsp_Protocol : bytes;
  rsp_Controls : list Element;
  rsp_Extensions : list Element
}.

Record ResponseHeader := MkResponseHeader {
  rh_MessageID : MessageID;
  rh_ProtocolID : Identifier
}.

Definition Response_Header (r : Response) : ResponseHeader :=
  MkResponseHeader (rsp_MessageID r) (rsp_ProtocolID r).

(** [UnmarshalProtocol] into a non-nil destination. *)
Definition UnmarshalProtocol {T} (r : Response) (dst : Unmarshal T) (limits : Limits) : result T :=
  if len (rsp_Protocol r) =? 0
  then Err (ErrorString "arden: response has no protocol value")
  else decode_message dst (rsp_Protocol r) limits.

(** ** Typed patterns *)

Record ResponsePattern (T : Type) := MkResponsePattern {
  rp_framing : FramingPattern;
  rp_decode : option (Response -> Limits -> result T)
}.
Arguments MkResponsePattern {T} rp_framing rp_decode.
Arguments rp_framing {T} r.
Arguments rp_decode {T} r.

Definition noResponseDecodeError : error :=
  ErrorString "arden: a no-response pattern cannot decode a response".

Definition NewResponsePattern {T} (u : Unmarshal T) (spec : ResponseSpec) : result (ResponsePattern T) :=
  framing ← newFramingPattern spec;
  Ok (MkResponsePattern framing (Some (fun response limits =>
    if noResponse framing then Err noResponseDecodeError
    else UnmarshalProtocol response u limits))).

Definition NewNoResponsePattern : ResponsePattern unit :=
  MkResponsePattern (MkFramingPattern [] [] true true) None.

Definition Framing {T} (p : ResponsePattern T) : FramingPattern := rp_framing p.
Definition Classify {T} (p : ResponsePattern T) : Identifier -> Classification :=
  FramingPattern_Classify (rp_framing p).
Definition ResponsePattern_Valid {T} (p : ResponsePattern T) : bool := FramingPattern_Valid (rp_framing p).
Definition ResponsePattern_NoResponse {T} (p : ResponsePattern T) : bool :=
  FramingPattern_NoResponse (rp_framing p).

Definition Decode {T} (p : ResponsePattern T) (response : Response) (limits : Limits) : result T :=
  if negb (ResponsePattern_Valid p)
  then Err (ErrorString "arden: cannot decode with an invalid response pattern")
  else if ResponsePattern_NoResponse p then Err noResponseDecodeError
  else if bool_decide (Classify p (rsp_ProtocolID response) = ClassificationInvalid)
  then Err (FormatError "arden: response pattern rejected protocol identifier %s"
              [bs (Identifier_String (rsp_ProtocolID response))])
  else match rp_decode p with
       | None => Err (ErrorString "arden: response pattern has no decoder")
       | Some decode => decode response limits
       end.

(** ** Operations *)

(** [CancellationMode]: a [uint8] whose constants are 1 to 5. *)
Definition CancellationMode := Z.
Definition CancelDrain : CancellationMode := 1.
Definition CancelAbandon : CancellationMode := 2.
Definition CancelExtended : CancellationMode := 3.
Definition CancelClose : CancellationMode := 4.
Definition CancelNone : CancellationMode := 5.

Record UntypedOperation := MkUntypedOperation {
  uo_Protocol : option ProtocolOperation;
  uo_Controls : list (option Packet);
  uo_Responses : FramingPattern;
  uo_Cancellation : CancellationMode;
  uo_Label : string
}.

(** The index and the check of the first nil control. *)
Fixpoint nilControl (i : Z) (controls : list (option Packet)) : option error :=
  match controls with
  | [] => None
  | None :: _ => Some (FormatError "arden: control %d is nil" [[i]])
  | Some _ :: controls => nilControl (i + 1) controls
  end.

Definition UntypedOperation_Validate (op : UntypedOperation) : option error :=
  match uo_Protocol op with
  | None => Some (ErrorString "arden: operation has no protocol value")
  | Some protocol =>
      let id := ProtocolIdentifier protocol in
      if negb (Identifier_Valid id) || negb (id_Class id =? ClassApplication)
      then Some (FormatError "arden: request identifier %s is not an application identifier"
                   [bs (Identifier_String id)])
      else if negb (FramingPattern_Valid (uo_Responses op))
      then Some (ErrorString "arden: operation has an invalid response pattern")
      else if (uo_Cancellation op <? CancelDrain) || (uo_Cancellation op >? CancelNone)
      then Some (ErrorString "arden: operation has an invalid cancellation mode")
      else nilControl 0 (uo_Controls op)
  end.

Record Operation (T : Type) := MkOperation {
  op_Protocol : option ProtocolOperation;
  op_Controls : list (option Packet);
  op_Responses : ResponsePattern T;
  op_Cancellation : CancellationMode;
  op_Label : string
}.
Arguments MkOperation {T}.
Arguments op_Protocol {T} _.
Arguments op_Controls {T} _.
Arguments op_Responses {T} _.
Arguments op_Cancellation {T} _.
Arguments op_Label {T} _.

Definition Untyped {T} (op : Operation T) : UntypedOperation :=
  MkUntypedOperation (op_Protocol op) (op_Controls op) (Framing (op_Responses op))
    (op_Cancellation op) (op_Label op).

Definition Operation_Validate {T} (op : Operation T) : option error :=
  UntypedOperation_Validate (Untyped op).

(** The shape of the [New...Operation] constructors: [None] is a nil request. *)
Definition newOperation {T} (name : string) (request : option ProtocolOperation)
    (controls : list (option Packet)) (responses : ResponsePattern T)
    (cancellation : CancellationMode) (label : string) : result (Operation T) :=
  match request with
  | None => Err (ErrorString ("arden: nil " +:+ name))
  | Some _ =>
      let op := MkOperation request controls responses cancellation label in
      match Operation_Validate op with
      | Some err => Err err
      | None => Ok op
      end
  end.

(** ** Properties *)

(** An application identifier: class and form fit, class is application. *)
Definition application (id : Identifier) : Prop :=
  Identifier_Valid id = true /\ id_Class id = ClassApplication.

Lemma validate_ok kind ids seen seen' : validate kind ids seen = Ok seen' <->
  Forall application ids /\ NoDup ids /\ (forall id, id ∈ ids -> id ∉ seen) /\
  seen' = list_to_set ids ∪ seen.
Proof.
  revert seen. induction ids as [|id ids IH]; intros seen; cbn [validate].
  - split; [intros [= <-]|by intros (_ & _ & _ & ->); f_equal; set_solver].
    split; [done|]. split; [constructor|]. split; [set_solver|set_solver].
  - destruct (negb (Identifier_Valid id) || negb (id_Class id =? ClassApplication)) eqn:Ea.
    + split; [done|]. intros (Ha & _). inversion_clear Ha as [|? ? [H1 H2] _].
      rewrite H1, H2 in Ea. by rewrite Z.eqb_refl in Ea.
    + assert (application id) as Hid.
      { zbool. split; [by apply negb_false_iff|]. apply Z.eqb_eq. by apply negb_false_iff. }
      case_bool_decide as Hs.
      * split; [done|]. intros (_ & _ & Hd & _). exfalso. apply (Hd id); set_solver.
      * rewrite IH. cbn [list_to_set]. split.
        -- intros (H1 & H2 & H3 & ->). split; [by constructor|]. split; [constructor; [set_solver|done]|].
           split; [set_solver|set_solver].
        -- intros (H1 & H2 & H3 & ->). inversion_clear H1. apply NoDup_cons in H2 as [H2 H2'].
           split; [done|]. split; [done|]. split; [set_solver|set_solver].
Qed.

(** The response contracts a pattern can be built from. *)
Definition spec_ok (spec : ResponseSpec) : Prop :=
  if rs_NoResponse spec then Continue spec = [] /\ Complete spec = []
  else Complete spec <> [] /\ Forall application (Continue spec ++ Complete spec) /\
       NoDup (Continue spec ++ Complete spec).

Definition pattern_of (spec : ResponseSpec) : FramingPattern :=
  MkFramingPattern (Continue spec) (Complete spec) (rs_NoResponse spec) true.

Lemma newFramingPattern_ok spec p :
  newFramingPattern spec = Ok p <-> spec_ok spec /\ p = pattern_of spec.
Proof.
  destruct spec as [cont comp nr]. unfold newFramingPattern, spec_ok, pattern_of. simpl.
  destruct nr.
  - destruct cont, comp; simpl; split; try done; try (by intros [[? ?] ?]).
    + by intros [= <-].
    + by intros [_ ->].
  - destruct (len comp =? 0) eqn:El; zbool.
    { apply len_zero in El. subst. split; [done|]. by intros [[? _] _]. }
    assert (comp <> []) by (intros ->; done).
    destruct (validate "continuing" cont ∅) as [seen|] eqn:E1; simpl.
    + apply validate_ok in E1 as (A1 & N1 & _ & ->).
      destruct (validate "terminal" comp _) as [seen|] eqn:E2; simpl.
      * apply validate_ok in E2 as (A2 & N2 & D2 & _). split.
        -- intros [= <-]. split; [|done]. split; [done|]. split; [by apply Forall_app|].
           apply NoDup_app. split; [done|]. split; [|done]. intros id H1 H2.
           apply (D2 id H2). set_solver.
        -- by intros [_ ->].
      * split; [done|]. intros [(_ & A & N) _]. apply Forall_app in A as [_ A2].
        apply NoDup_app in N as (_ & D & N2).
        assert (validate "terminal" comp (list_to_set cont ∪ ∅) =
                Ok (list_to_set comp ∪ (list_to_set cont ∪ ∅))) by (apply validate_ok; set_solver).
        congruence.
    + split; [done|]. intros [(_ & A & N) _]. apply Forall_app in A as [A1 _].
      apply NoDup_app in N as (N1 & _ & _).
      assert (validate "continuing" cont ∅ = Ok (list_to_set cont ∪ ∅)) by (apply validate_ok; set_solver).
      congruence.
Qed.

(** Classification on a pattern that was built. *)
Lemma Classify_pattern spec id : spec_ok spec ->
  FramingPattern_Classify (pattern_of spec) id =
    if bool_decide (id ∈ Continue spec) then ClassificationContinue
    else if bool_decide (id ∈ Complete spec) then ClassificationComplete
    else ClassificationInvalid.
Proof.
  destruct spec as [cont comp nr]. unfold spec_ok, FramingPattern_Classify, contains. simpl.
  destruct nr; [|done]. by intros [-> ->].
Qed.

Definition sample_spec : ResponseSpec :=
  MkResponseSpec [MkId ClassApplication true 4; MkId ClassApplication true 19]
                 [MkId ClassApplication true 5] false.

(** [newFramingPattern] accepts exactly the unambiguous contracts: no
    identifiers at all for a no-response contract, otherwise at least one
    terminal identifier, only application identifiers, and none listed twice
    within or across the two lists. On what it accepts, [Classify] is a
    partition: an identifier continues the operation exactly when it is listed
    as continuing, completes it exactly when it is listed as terminal, and is
    invalid otherwise. *)
Theorem framing_pattern_exact spec :
  ((exists p, newFramingPattern spec = Ok p) <-> spec_ok spec) /\
  (forall p id, newFramingPattern spec = Ok p ->
    (FramingPattern_Classify p id = ClassificationContinue <-> id ∈ Continue spec) /\
    (FramingPattern_Classify p id = ClassificationComplete <-> id ∈ Complete spec) /\
    (FramingPattern_Classify p id = ClassificationInvalid <->
       id ∉ Continue spec /\ id ∉ Complete spec)).
Proof.
  split.
  { split; [intros [p Hp]; by apply newFramingPattern_ok in Hp as [? _]|].
    intros Hs. exists (pattern_of spec). by apply newFramingPattern_ok. }
  intros p id Hp. apply newFramingPattern_ok in Hp as [Hs ->].
  assert (id ∈ Continue spec -> id ∉ Complete spec) as Hd.
  { unfold spec_ok in Hs. destruct (rs_NoResponse spec); [destruct Hs as [-> ->]; set_solver|].
    destruct Hs as (_ & _ & HN). apply NoDup_app in HN as (_ & HN & _). intros H1 H2. by apply (HN id). }
  rewrite Classify_pattern by done. repeat case_bool_decide; naive_solver.
Qed.

Lemma framing_pattern_exact_witness :
  FramingPattern_Classify (pattern_of sample_spec) (MkId ClassApplication true 5) = ClassificationComplete.
Proof.
  apply (proj2 (framing_pattern_exact sample_spec) (pattern_of sample_spec)
           (MkId ClassApplication true 5)).
  - vm_compute. reflexivity.
  - apply list_elem_of_singleton. reflexivity.
Defined.

Lemma nilControl_none cs : forall i, nilControl i cs = None <-> Forall (fun c => c <> None) cs.
Proof.
  induction cs as [|[p|] cs IH]; intros i; cbn [nilControl]; [done| |].
  - rewrite IH. split; [by constructor|by inversion 1].
  - split; [done|]. inversion 1. done.
Qed.

(** [Validate] accepts an operation exactly when its request exists and has
    an application identifier, its response pattern was built by a constructor,
    its cancellation mode is one of the five declared modes and no control is nil. *)
Theorem operation_validate_exact (op : UntypedOperation) :
  UntypedOperation_Validate op = None <->
  (exists p, uo_Protocol op = Some p /\ application (ProtocolIdentifier p)) /\
  valid (uo_Responses op) = true /\ CancelDrain <= uo_Cancellation op <= CancelNone /\
  Forall (fun c => c <> None) (uo_Controls op).
Proof.
  destruct op as [[p|] cs f c l]; unfold UntypedOperation_Validate; simpl;
    [|by split; [|intros ((? & ? & _) & _)]].
  rewrite <- (nilControl_none cs 0). unfold application, FramingPattern_Valid. case_ifs; zbool.
  - split; [done|]. intros ((q & [= <-] & H1 & H2) & _). rewrite H1, H2 in *. by destruct Heqb.
  - split; [done|]. intros (_ & H1 & _). by rewrite H1 in *.
  - split; [done|]. intros (_ & _ & H1 & _). destruct Heqb1; zbool; lia.
  - split; [|by intros (_ & _ & _ & ?)]. intros Hn. repeat split; [|by apply negb_false_iff|lia|lia|done].
    exists p. split; [done|]. split; [by apply negb_false_iff|].
    apply Z.eqb_eq. by apply negb_false_iff.
Qed.

(** Decoding with a built pattern. *)
Lemma Decode_pattern {T} (u : Unmarshal T) spec p response limits :
  NewResponsePattern u spec = Ok p -> rsp_ProtocolID response ∈ Continue spec ++ Complete spec ->
  Decode p response limits = UnmarshalProtocol response u limits.
Proof.
  unfold NewResponsePattern. destruct (newFramingPattern spec) as [f|] eqn:E; [|done].
  intros [= <-] Hin. apply newFramingPattern_ok in E as [Hs ->].
  unfold Decode, ResponsePattern_Valid, FramingPattern_Valid, ResponsePattern_NoResponse,
    FramingPattern_NoResponse, Classify. cbn [rp_framing rp_decode valid noResponse pattern_of].
  rewrite Classify_pattern by done.
  unfold spec_ok in Hs. destruct (rs_NoResponse spec); [destruct Hs as [Hs1 Hs2]; rewrite Hs1, Hs2 in Hin; set_solver|].
  apply elem_of_app in Hin. simpl. repeat case_bool_decide; naive_solver.
Qed.
