(* ===== verification/Result.v ===== *)
(** * LDAPResult, controls, attributes and assertions

    Models src/rfc4511/result.go, control.go, attribute.go and assertion.go.
    Each type's encoder and decoder implement the codec interface [Codec]; the
    properties state the resulting round trips and what the decoders accept. *)

From S2P Require Import Prelude Wire Packet Reader Decoder Types.

(** ** LDAPResult *)

Definition ResultCode := Z.
Definition ResultSuccess : ResultCode := 0.
Definition ResultCompareFalse : ResultCode := 5.
Definition ResultCompareTrue : ResultCode := 6.
Definition ResultReferral : ResultCode := 10.
Definition ResultSASLBindInProgress : ResultCode := 14.

Definition referralIdentifier : Identifier := MkId ClassContextSpecific true 3.

Record LDAPResult := MkLDAPResult {
  lr_ResultCode : ResultCode;
  lr_MatchedDN : LDAPDN;
  lr_DiagnosticMessage : LDAPString;
  lr_Referrals : list URI;
  lr_Extensions : list UnknownField
}.
#[export] Instance Zero_LDAPResult : Zero LDAPResult := MkLDAPResult 0 [] [] [] [].

Definition validateReferral (v : LDAPResult) : option error :=
  if (lr_ResultCode v =? ResultReferral) && (len (lr_Referrals v) =? 0)
  then Some (ErrorString "arden: referral result requires at least one referral URI")
  else if negb (lr_ResultCode v =? ResultReferral) && negb (len (lr_Referrals v) =? 0)
  then Some (ErrorString "arden: referral URIs require the referral result code")
  else None.

Definition addPrefix (v : LDAPResult) (dst : Envelope) : Envelope :=
  let dst := Add dst [Enumerated (lr_ResultCode v); OctetString (lr_MatchedDN v);
                      OctetString (lr_DiagnosticMessage v)] in
  if len (lr_Referrals v) >? 0
  then Add dst [Add (Constructed referralIdentifier) (map MkOctets (lr_Referrals v))]
  else dst.

Definition LDAPResult_BERPacket (v : LDAPResult) : Packet :=
  BERPacket (Add (addPrefix v Sequence) (lr_Extensions v)).

Definition resultResponsePacket (id : Identifier) (result : LDAPResult) : Packet :=
  BERPacket (Add (addPrefix result (Constructed id)) (lr_Extensions result)).

Definition LDAPResult_UnmarshalBERFields : DM (result LDAPResult) :=
  _ ← Reserve [referralIdentifier];
  code ← Decoder_Enumerated int64;
  matchedDN ← Read LDAPDN_UnmarshalBER;
  diagnosticMessage ← Read LDAPString_UnmarshalBER;
  referrals ← optional referralIdentifier
    (referrals ← within referralIdentifier (All URI_UnmarshalBER);
     _ ← (if len referrals =? 0
          then Decoder_Fail (ErrorString "arden: referral requires at least one URI")
          else mret tt);
     mret referrals) [];
  let decoded := MkLDAPResult code matchedDN diagnosticMessage referrals [] in
  err ← Decoder_Err;
  mret (checked validateReferral err decoded).

Definition with_extensions (v : LDAPResult) (exts : list UnknownField) : LDAPResult :=
  MkLDAPResult (lr_ResultCode v) (lr_MatchedDN v) (lr_DiagnosticMessage v) (lr_Referrals v) exts.

Definition LDAPResult_UnmarshalAs (id : Identifier) : Unmarshal LDAPResult :=
  scoped id
    (decoded ← Embed LDAPResult_UnmarshalBERFields;
     exts ← Extensions UnknownField_UnmarshalBER [];
     mret (with_extensions decoded exts)) no_check.

Definition LDAPResult_UnmarshalBER : Unmarshal LDAPResult :=
  LDAPResult_UnmarshalAs SequenceIdentifier.

(** The trees of the components, and the values a message can carry. *)
Definition result_prefix (v : LDAPResult) : list tlv :=
  [t_enum (lr_ResultCode v); t_octets (lr_MatchedDN v); t_octets (lr_DiagnosticMessage v)] ++
  when (len (lr_Referrals v) >? 0) (Cons referralIdentifier (map t_octets (lr_Referrals v))).

Definition valid_result (v : LDAPResult) : Prop :=
  in_type int64 (lr_ResultCode v) = true /\ utf8_Valid (lr_MatchedDN v) = true /\
  utf8_Valid (lr_DiagnosticMessage v) = true /\
  Forall (fun u => utf8_Valid u = true) (lr_Referrals v) /\ validateReferral v = None.

Lemma int64_lt v : in_type int64 v = true -> v < 2 ^ 63.
Proof. unfold in_type. cbn [it_signed it_bits int64]. lia. Qed.

Lemma Enumerated_Runs rest v ts R : in_type int64 v = true ->
  Runs rest (Decoder_Enumerated int64) (t_enum v :: ts) R v ts R.
Proof. intros Hv. apply Decoder_IntegerAs_Runs; [done|done|by apply int64_lt]. Qed.

Lemma Integer_Runs rest v ts R : in_type int64 v = true ->
  Runs rest (Decoder_Integer int64) (t_int v :: ts) R v ts R.
Proof. intros Hv. apply Decoder_IntegerAs_Runs; [done|done|by apply int64_lt]. Qed.

Lemma text_list vs id : Forall (fun u => utf8_Valid u = true) vs ->
  DecodesAll (unmarshalLDAPText id) (map (Prim id) vs) vs.
Proof.
  intros H. apply DecodesAll_map. eapply Forall_impl; [exact H|]. intros. by apply Text_Decodes.
Qed.

(** The known components of a result, in a scope that goes on with [ts]. *)
Lemma result_fields_Runs v ts : valid_result v -> next_is referralIdentifier ts = false ->
  Runs [] LDAPResult_UnmarshalBERFields (result_prefix v ++ ts) ∅
    (Ok (with_extensions v [])) ts {[referralIdentifier]}.
Proof.
  intros (H1 & H2 & H3 & H4 & H5) Hn. unfold LDAPResult_UnmarshalBERFields, result_prefix.
  run_next; [apply Reserve_Runs|]. replace (∅ ∪ _) with ({[referralIdentifier]} : gset Identifier) by set_solver.
  run_next; [by apply Enumerated_Runs|].
  run_next; [by apply Read_Runs, Text_Decodes|].
  run_next; [by apply Read_Runs, Text_Decodes|].
  eapply Runs_bind with (a := lr_Referrals v).
  - destruct (len (lr_Referrals v) >? 0) eqn:Hl; simpl.
    + apply optional_present; [done|]. run_next.
      { eapply within_Runs. apply AllUsing_Runs. by apply text_list. }
      zbool. replace (len (lr_Referrals v) =? 0) with false by lia.
      run_next; [apply Runs_ret|apply Runs_ret].
    + zbool. assert (lr_Referrals v = []) as ->.
      { apply len_zero. pose proof (len_nonneg (lr_Referrals v)). lia. }
      by apply optional_absent.
  - run_next; [apply Err_Runs|]. unfold checked.
    replace (validateReferral _) with (validateReferral v) by done. rewrite H5. apply Runs_ret.
Qed.

(** What an LDAPResult tagged [id] looks like on the wire. *)
Definition LDAPResult_repr (id : Identifier) (v : LDAPResult) (t : tlv) : Prop :=
  exists exts, t = Cons id (result_prefix v ++ exts) /\ valid_result v /\
    extensions [referralIdentifier] (lr_Extensions v) exts.

Lemma LDAPResult_Decodes id v t :
  LDAPResult_repr id v t -> Decodes (LDAPResult_UnmarshalAs id) t v.
Proof.
  intros (exts & -> & Hv & He). eapply scoped_Decodes; [|done].
  run_next; [apply Embed_Runs, result_fields_Runs; [done|]|].
  { eapply next_is_extensions; [exact He|]. set_solver. }
  run_next; [eapply extensions_Runs; [exact He|set_solver]|].
  replace (mret _) with (mret (M := DM) v) by (by destruct v). apply Runs_ret.
Qed.

(** The prefix is added to an envelope in wire order. *)
Lemma addPrefix_holds m v e id ts :
  holds e id ts -> Forall (fun t => wf_tlv m t = true) (result_prefix v) ->
  holds (addPrefix v e) id (ts ++ result_prefix v).
Proof.
  intros He Hwf. unfold addPrefix, result_prefix in *.
  apply Forall_app in Hwf as [Hwf Href]. inversion_clear Hwf as [|? ? W1 W2].
  inversion_clear W2 as [|? ? W2' W3]. inversion_clear W3 as [|? ? W3' _].
  assert (holds (Add e [Enumerated (lr_ResultCode v); OctetString (lr_MatchedDN v);
     OctetString (lr_DiagnosticMessage v)]) id (ts ++ [t_enum (lr_ResultCode v);
     t_octets (lr_MatchedDN v); t_octets (lr_DiagnosticMessage v)])) as He1.
  { apply holds_Add; [done|]. repeat constructor;
      by first [eapply enum_encodes|eapply octets_encodes]. }
  destruct (_ >? 0); cbn [when] in *; [|by rewrite app_nil_r].
  rewrite (app_assoc ts). apply (holds_Add _ _ _ [_]); [done|].
  inversion_clear Href as [|? ? W _]. constructor; [|done].
  eapply (holds_encodes m); [|done]. apply (holds_Add _ _ []); [by apply holds_Constructed|].
  apply (Forall2_octets m). by apply wf_tlv_cons in W as (_ & _ & ? & _).
Qed.

Lemma resultResponse_encodes m id v t : id_Constructed id = true ->
  LDAPResult_repr id v t -> wf_tlv m t = true -> encodes (resultResponsePacket id v) t.
Proof.
  intros Hk (exts & -> & Hv & He) Hwf. wf_split Hwf.
  unfold resultResponsePacket. eapply (holds_encodes m); [|eassumption].
  apply holds_Add; [|by eapply Forall2_extensions].
  apply (addPrefix_holds m v _ id []); [by apply holds_Constructed|done].
Qed.

#[export] Instance LDAPResult_Packeter : Packeter LDAPResult := LDAPResult_BERPacket.
#[export, program] Instance LDAPResult_Codec : Codec LDAPResult LDAPResult_UnmarshalBER :=
  {| repr := LDAPResult_repr SequenceIdentifier |}.
Next Obligation. intros m v t H Hwf. by apply (resultResponse_encodes m SequenceIdentifier). Qed.
Next Obligation. intros v t H. by apply LDAPResult_Decodes. Qed.

(** ** Controls *)

Record Control := MkControl {
  c_Type : LDAPOID;
  c_Criticality : bool;
  c_Value : bytes;
  c_HasValue : bool;
  c_Extensions : list UnknownField
}.
#[export] Instance Zero_Control : Zero Control := MkControl [] false [] false [].

Definition Control_BERPacket (v : Control) : Packet :=
  let control := Add Sequence [OctetString (c_Type v)] in
  let control := if c_Criticality v then Add control [Boolean true] else control in
  let control := if c_HasValue v then Add control [OctetString (c_Value v)] else control in
  BERPacket (Add control (c_Extensions v)).
#[export] Instance Control_Packeter : Packeter Control := Control_BERPacket.

Definition Control_UnmarshalBER : Unmarshal Control :=
  scoped SequenceIdentifier
    (type ← Read LDAPOID_UnmarshalBER;
     criticality ← optional BooleanIdentifier Decoder_Boolean false;
     '(value, hasValue) ← optional OctetStringIdentifier
        (value ← Decoder_OctetString; mret (value, true)) ([], false);
     exts ← Extensions UnknownField_UnmarshalBER [BooleanIdentifier; OctetStringIdentifier];
     mret (MkControl type criticality value hasValue exts)) no_check.

Definition Control_repr (v : Control) (t : tlv) : Prop :=
  exists exts,
    t = Cons SequenceIdentifier
          (t_octets (c_Type v) :: when (c_Criticality v) (t_bool true) ++
           when (c_HasValue v) (t_octets (c_Value v)) ++ exts) /\
    utf8_Valid (c_Type v) = true /\ validateLDAPOID (c_Type v) = None /\
    (c_HasValue v = false -> c_Value v = []) /\
    extensions [BooleanIdentifier; OctetStringIdentifier] (c_Extensions v) exts.

#[export, program] Instance Control_Codec : Codec Control Control_UnmarshalBER :=
  {| repr := Control_repr |}.
Next Obligation.
  intros m v t (exts & -> & _ & _ & _ & He) Hwf. wf_split Hwf.
  unfold BERPacket at 1, Control_Packeter, Control_BERPacket. encoder m.
Qed.
Next Obligation.
  intros v t (exts & -> & Hu & Ho & Hv & He). eapply scoped_Decodes; [|done].
  run_next; [by apply Read_Runs, OID_Decodes|].
  eapply Runs_bind with (a := c_Criticality v).
  { apply optional_Runs; [done|intros ->; apply (Decoder_Boolean_Runs _ true)|done|].
    destruct (c_HasValue v); [done|]. eapply next_is_extensions; [exact He|set_solver]. }
  eapply Runs_bind with (a := (c_Value v, c_HasValue v)).
  { apply optional_Runs; [done| | |eapply next_is_extensions; [exact He|set_solver]].
    - intros ->. run_next; [apply Decoder_Primitive_Runs|apply Runs_ret].
    - intros E. by rewrite E, Hv. }
  run_next; [eapply extensions_Runs; [exact He|set_solver]|].
  destruct v; apply Runs_ret.
Qed.

(** ** Attributes with their values *)

Record Attribute := MkAttribute {
  a_Type : AttributeDescription;
  a_Values : list AttributeValue;
  a_Extensions : list UnknownField
}.
#[export] Instance Zero_Attribute : Zero Attribute := MkAttribute [] [] [].

Definition Attribute_BERPacket (a : Attribute) : Packet :=
  BERPacket (Add (Add Sequence [OctetString (a_Type a);
                                BERPacket (Add Set_ (map MkOctets (a_Values a)))])
                 (a_Extensions a)).
#[export] Instance Attribute_Packeter : Packeter Attribute := Attribute_BERPacket.

Definition Attribute_UnmarshalBER : Unmarshal Attribute :=
  scoped SequenceIdentifier
    (type ← Read AttributeDescription_UnmarshalBER;
     values ← within SetIdentifier (All AttributeValue_UnmarshalBER);
     exts ← Extensions UnknownField_UnmarshalBER [];
     mret (MkAttribute type values exts))
    (fun decoded => requireNonEmpty "attribute type" (a_Type decoded)).

Definition Attribute_repr (a : Attribute) (t : tlv) : Prop :=
  exists exts,
    t = Cons SequenceIdentifier
          ([t_octets (a_Type a); Cons SetIdentifier (map t_octets (a_Values a))] ++ exts) /\
    utf8_Valid (a_Type a) = true /\ a_Type a <> [] /\ extensions [] (a_Extensions a) exts.

Lemma requireNonEmpty_ok name v : v <> [] -> requireNonEmpty name v = None.
Proof.
  intros Hv. unfold requireNonEmpty. destruct (len v =? 0) eqn:E; [|done].
  zbool. by apply len_zero in E.
Qed.

Lemma bytes_list vs id : DecodesAll (unmarshalLDAPBytes id) (map (Prim id) vs) vs.
Proof. apply DecodesAll_map. apply Forall_forall. intros. apply Bytes_Decodes. Qed.

#[export, program] Instance Attribute_Codec : Codec Attribute Attribute_UnmarshalBER :=
  {| repr := Attribute_repr |}.
Next Obligation.
  intros m a t (exts & -> & _ & _ & He) Hwf. wf_split Hwf.
  unfold BERPacket at 1, Attribute_Packeter, Attribute_BERPacket. encoder m.
Qed.
Next Obligation.
  intros a t (exts & -> & Hu & Hne & He).
  eapply scoped_Decodes; [|by apply requireNonEmpty_ok].
  run_next; [by apply Read_Runs, Text_Decodes|].
  run_next; [eapply within_Runs, AllUsing_Runs, bytes_list|].
  run_next; [eapply extensions_Runs; [exact He|set_solver]|].
  destruct a; apply Runs_ret.
Qed.

(** ** Attribute value assertions *)

Record AttributeValueAssertion := MkAVA {
  ava_Type : AttributeDescription;
  ava_Value : AssertionValue;
  ava_Extensions : list UnknownField
}.
#[export] Instance Zero_AVA : Zero AttributeValueAssertion := MkAVA [] [] [].

Definition AttributeValueAssertion_BERPacket (v : AttributeValueAssertion) : Packet :=
  BERPacket (Add (Add Sequence [OctetString (ava_Type v); OctetString (ava_Value v)])
                 (ava_Extensions v)).
#[export] Instance AVA_Packeter : Packeter AttributeValueAssertion :=
  AttributeValueAssertion_BERPacket.

(** [assertionFilterPacket] of filter.go: the same components under a tag. *)
Definition assertionFilterPacket (id : Identifier) (assertion : AttributeValueAssertion) : Packet :=
  BERPacket (Add (Add (Constructed id) [OctetString (ava_Type assertion);
                                        OctetString (ava_Value assertion)])
                 (ava_Extensions assertion)).

Definition AttributeValueAssertion_UnmarshalAs (id : Identifier) : Unmarshal AttributeValueAssertion :=
  scoped id
    (type ← Read AttributeDescription_UnmarshalBER;
     value ← Read AssertionValue_UnmarshalBER;
     exts ← Extensions UnknownField_UnmarshalBER [];
     mret (MkAVA type value exts))
    (fun decoded => requireNonEmpty "attribute description" (ava_Type decoded)).

Definition AttributeValueAssertion_UnmarshalBER : Unmarshal AttributeValueAssertion :=
  AttributeValueAssertion_UnmarshalAs SequenceIdentifier.

Definition AVA_repr (id : Identifier) (v : AttributeValueAssertion) (t : tlv) : Prop :=
  exists exts,
    t = Cons id ([t_octets (ava_Type v); t_octets (ava_Value v)] ++ exts) /\
    utf8_Valid (ava_Type v) = true /\ ava_Type v <> [] /\ extensions [] (ava_Extensions v) exts.

Lemma AVA_encodes m id v t : id_Constructed id = true ->
  AVA_repr id v t -> wf_tlv m t = true -> encodes (assertionFilterPacket id v) t.
Proof.
  intros Hid (exts & -> & _ & _ & He) Hwf. wf_split Hwf.
  unfold assertionFilterPacket. encoder m.
Qed.

Lemma AVA_Decodes id v t :
  AVA_repr id v t -> Decodes (AttributeValueAssertion_UnmarshalAs id) t v.
Proof.
  intros (exts & -> & Hu & Hne & He).
  eapply scoped_Decodes; [|by apply requireNonEmpty_ok].
  run_next; [by apply Read_Runs, Text_Decodes|].
  run_next; [apply Read_Runs, Bytes_Decodes|].
  run_next; [eapply extensions_Runs; [exact He|set_solver]|].
  destruct v; apply Runs_ret.
Qed.

#[export, program] Instance AVA_Codec :
    Codec AttributeValueAssertion AttributeValueAssertion_UnmarshalBER :=
  {| repr := AVA_repr SequenceIdentifier |}.
Next Obligation. intros m v t H Hwf. by apply (AVA_encodes m SequenceIdentifier). Qed.
Next Obligation. intros v t H. by apply AVA_Decodes. Qed.

(** Round trip of the shared components: an LDAPResult (with its referrals),
    a control, an attribute with its values and an attribute value assertion,
    with their unknown extension fields, decode from their own encoding to the
    same value, under all limits that admit the encoding. *)
Theorem components_roundtrip :
  (forall v t l, LDAPResult_repr SequenceIdentifier v t -> admits l t ->
     decode_message LDAPResult_UnmarshalBER (Encode (LDAPResult_BERPacket v)) l = Ok v) /\
  (forall v t l, Control_repr v t -> admits l t ->
     decode_message Control_UnmarshalBER (Encode (Control_BERPacket v)) l = Ok v) /\
  (forall v t l, Attribute_repr v t -> admits l t ->
     decode_message Attribute_UnmarshalBER (Encode (Attribute_BERPacket v)) l = Ok v) /\
  (forall v t l, AVA_repr SequenceIdentifier v t -> admits l t ->
     decode_message AttributeValueAssertion_UnmarshalBER (Encode (BERPacket v)) l = Ok v).
Proof.
  split_and!; intros v t l.
  - exact (Codec_roundtrip LDAPResult_UnmarshalBER v t l).
  - exact (Codec_roundtrip Control_UnmarshalBER v t l).
  - exact (Codec_roundtrip Attribute_UnmarshalBER v t l).
  - exact (Codec_roundtrip AttributeValueAssertion_UnmarshalBER v t l).
Qed.

Definition paged_control : Control := MkControl (bs "1.2.840.113556.1.4.319") true [48; 3; 2; 1; 5] true [].

Lemma components_roundtrip_witness :
  decode_message Control_UnmarshalBER (Encode (Control_BERPacket paged_control)) DefaultLimits = Ok paged_control.
Proof.
  eapply (proj1 (proj2 components_roundtrip) paged_control _ DefaultLimits).
  - exists []. split; [reflexivity|]. split; [reflexivity|]. split; [reflexivity|].
    split; [discriminate|apply extensions_nil].
  - unfold admits. vm_compute. repeat split; intros; discriminate.
Defined.
