(* ===== verification/Response.v ===== *)
(** * The LDAPMessage envelope

    Models src/response.go and the request encoders [encodeLDAPRequest] and
    [encodeInternalRequest] of src/connection.go: parsing a complete message
    into its routing header, protocol bytes, controls and extensions, and
    building requests that are validated by the same parser. *)

From S2P Require Import Prelude Wire Packet Reader Decoder Types Protocol Result Errors.

Definition controlsIdentifier := MkId ClassContextSpecific true 0.

Definition messageError (part : string) (err : error) : error :=
  WrapError err ("arden: LDAPMessage" +:+ part).

(** The loop over the controls: every round consumes an element. *)
Fixpoint readControls (fuel : nat) (controls : Reader) (acc : list Element)
    : result (list Element) * Reader :=
  if Empty controls then (Ok acc, controls)
  else
    match fuel with
    | O => (Err FuelExhausted, controls)
    | S fuel' =>
        match SkipElement controls with
        | (Err err, controls) => (Err (messageError " controls" err), controls)
        | (Ok control, controls) =>
            if negb (bool_decide (e_Identifier control = SequenceIdentifier))
            then (Err (FormatError "arden: LDAPMessage control identifier %s is not a SEQUENCE"
                         [bs (Identifier_String (e_Identifier control))]), controls)
            else readControls fuel' controls (acc ++ [control])
        end
    end.

(** The loop over the trailing extensions. *)
Fixpoint readExtensions (fuel : nat) (envelope : Reader) (acc : list Element)
    : result (list Element) :=
  if Empty envelope then Ok acc
  else
    match fuel with
    | O => Err FuelExhausted
    | S fuel' =>
        match Reader_PeekIdentifier envelope with
        | Err err => Err (messageError " extension" err)
        | Ok id =>
            if bool_decide (id = controlsIdentifier)
            then Err (ErrorString "arden: LDAPMessage has duplicate or out-of-order controls")
            else
              match SkipElement envelope with
              | (Err err, _) => Err (messageError " extension" err)
              | (Ok extension, envelope) => readExtensions fuel' envelope (acc ++ [extension])
              end
        end
    end.

(** The optional controls field; the parent's element count goes on from the
    nested reader's. *)
Definition parseControls (envelope : Reader) : result (list Element) * Reader :=
  if Empty envelope then (Ok [], envelope)
  else
    match Reader_PeekIdentifier envelope with
    | Err err => (Err (messageError " controls" err), envelope)
    | Ok id =>
        if bool_decide (id = controlsIdentifier) then
          match Reader_Constructed envelope controlsIdentifier with
          | (Err err, envelope) => (Err (messageError " controls" err), envelope)
          | (Ok controls, envelope) =>
              let '(res, controls) := readControls (S (length (r_data controls))) controls [] in
              (res, with_elements envelope (r_elements controls))
          end
        else (Ok [], envelope)
    end.

(** The components of the envelope [message]. *)
Definition parseEnvelope (message : bytes) (envelope : Reader) : result Response :=
  match Reader_Integer envelope with
  | (Err err, _) => Err (messageError " messageID" err)
  | (Ok messageID, envelope) =>
      if (messageID <? 0) || (messageID >? MaxMessageID)
      then Err (FormatError "arden: LDAPMessage messageID %d is outside [0, %d]"
                  [[messageID]; [MaxMessageID]])
      else
        match ReadElement envelope with
        | (Err err, _) => Err (messageError " protocolOp" err)
        | (Ok protocol, envelope) =>
            if negb (id_Class (e_Identifier protocol) =? ClassApplication)
            then Err (FormatError
              "arden: LDAPMessage protocolOp identifier %s is not an application identifier"
              [bs (Identifier_String (e_Identifier protocol))])
            else
              match parseControls envelope with
              | (Err err, _) => Err err
              | (Ok controls, envelope) =>
                  extensions ← readExtensions (S (length (r_data envelope))) envelope [];
                  Ok (MkResponse messageID (e_Identifier protocol) message (e_Raw protocol)
                        controls extensions)
              end
        end
  end.

Definition parseOwnedResponse (message : bytes) (limits : Limits) : result Response :=
  r ← NewReader message limits;
  match Reader_Sequence r with
  | (Err err, _) => Err (messageError "" err)
  | (Ok envelope, r) =>
      match RequireEmpty r with
      | Some err => Err (messageError "" err)
      | None => parseEnvelope message envelope
      end
  end.

(** [ParseResponse] first copies the bytes, which the model's values do not need. *)
Definition ParseResponse (message : bytes) (limits : Limits) : result Response :=
  parseOwnedResponse message limits.

(** ** Requests *)

(** The controls of a validated operation: none is nil. *)
Definition present (controls : list (option Packet)) : list Packet :=
  foldr (fun c cs => match c with Some p => p :: cs | None => cs end) [] controls.

(** The operation has been validated: its protocol value is [protocol]. *)
Definition encodeLDAPRequest (id : MessageID) (protocol : ProtocolOperation)
    (controls : list Packet) (limits : Limits) : bytes + cerror :=
  let message := Add (Add Sequence [Integer id]) [protocol] in
  let message := if negb (len controls =? 0)
                 then Add message [Add (Constructed controlsIdentifier) controls]
                 else message in
  let encoded := Encode (BERPacket message) in
  if len encoded >? MaxFrameBytes limits
  then inr (LimitError "request frame bytes" (len encoded) (MaxFrameBytes limits))
  else
    match parseOwnedResponse encoded limits with
    | Err err => inr (Plain (WrapError err "arden: request envelope: "))
    | Ok envelope =>
        let got := rsp_ProtocolID envelope in
        let want := ProtocolIdentifier protocol in
        if negb (bool_decide (got = want))
        then inr (Plain (FormatError
               "arden: encoded request identifier %s does not match declared identifier %s"
               [bs (Identifier_String got); bs (Identifier_String want)]))
        else if negb (len (rsp_Controls envelope) =? len controls) ||
                negb (len (rsp_Extensions envelope) =? 0)
        then inr (Plain (ErrorString "arden: request packets must each encode exactly one value"))
        else inl encoded
    end.

Definition encodeInternalRequest {T} `{Packeter T} (messageID : MessageID) (operation : T) : bytes :=
  Encode (BERPacket (Add (Add Sequence [Integer messageID]) [operation])).

(** ** Parsing what was encoded *)

(** The tree of a message. *)
Definition message_tree (id : MessageID) (protocol : tlv) (hasControls : bool)
    (controls extensions : list tlv) : tlv :=
  Cons SequenceIdentifier
    ([t_int id; protocol] ++ when hasControls (Cons controlsIdentifier controls) ++ extensions).

(** The elements of consecutive trees, the first at offset [off]. *)
Fixpoint elements_at (off : Z) (ts : list tlv) : list Element :=
  match ts with
  | [] => []
  | t :: ts => element_of t off :: elements_at (off + len (enc t)) ts
  end.

Lemma len_elements_at ts : forall off, len (elements_at off ts) = len ts.
Proof. induction ts as [|t ts IH]; intros off; [done|]. cbn [elements_at]. by rewrite !len_cons, IH. Qed.

Definition is_sequence (t : tlv) : Prop := tid t = SequenceIdentifier.
Definition not_controls (t : tlv) : Prop := tid t <> controlsIdentifier.

Lemma Empty_nonempty r t rest : reader_ok r -> unread r = enc t ++ rest -> Empty r = false.
Proof.
  intros Hr Hu. apply not_true_is_false. rewrite Empty_unread by done. rewrite Hu.
  pose proof (enc_nonempty t). intros E. apply app_eq_nil in E as [E _]. rewrite E in *. unfold len in *. simpl in *. lia.
Qed.

Lemma Offset_advance r n k : Offset (advance r n k) = Offset r + n.
Proof. unfold Offset. cbn [advance r_base r_pos]. lia. Qed.

(** One step of either loop. *)
Lemma skip_step r t ts : reader_ok r -> unread r = encs (t :: ts) -> fits_all r (t :: ts) ->
  Empty r = false /\ SkipElement r = (Ok (element_of t (Offset r)), advance r (len (enc t)) (count t)) /\
  Reader_PeekIdentifier r = Ok (tid t) /\
  let r' := advance r (len (enc t)) (count t) in
  reader_ok r' /\ unread r' = encs ts /\ fits_all r' ts.
Proof.
  intros Hr Hu Hf. rewrite encs_cons in Hu. destruct (fits_all_cons _ _ _ Hf) as [Ht Hts].
  split; [by eapply Empty_nonempty|]. split; [by eapply SkipElement_enc|].
  split; [eapply PeekIdentifier_enc; [done|apply Ht]|].
  destruct Ht as (_ & Hc & _). split; [by eapply advance_ok|]. split; [|done].
  eapply unread_advance; [apply Hr|done|done].
Qed.

Lemma readControls_enc ts : forall fuel r acc, (length ts < fuel)%nat -> reader_ok r ->
  unread r = encs ts -> fits_all r ts -> Forall is_sequence ts ->
  readControls fuel r acc =
  (Ok (acc ++ elements_at (Offset r) ts), advance r (len (encs ts)) (counts ts)).
Proof.
  induction ts as [|t ts IH]; intros fuel r acc Hf Hr Hu Hfit Hs;
    (destruct fuel as [|fuel]; [lia|]); cbn [readControls].
  - rewrite (proj2 (Empty_unread r Hr)) by done. cbn [elements_at].
    rewrite app_nil_r. by rewrite advance_0.
  - destruct (skip_step r t ts Hr Hu Hfit) as (-> & -> & _ & Hr' & Hu' & Hf').
    inversion_clear Hs as [|? ? Hseq Hs']. cbn [e_Identifier element_of].
    rewrite bool_decide_true by done. cbn [negb]. simpl in Hf. rewrite IH by (done || lia).
    cbn [elements_at]. rewrite <- app_assoc, advance_advance, encs_cons, counts_cons, len_app.
    by rewrite Offset_advance.
Qed.

Lemma readExtensions_enc ts : forall fuel r acc, (length ts < fuel)%nat -> reader_ok r ->
  unread r = encs ts -> fits_all r ts -> Forall not_controls ts ->
  readExtensions fuel r acc = Ok (acc ++ elements_at (Offset r) ts).
Proof.
  induction ts as [|t ts IH]; intros fuel r acc Hf Hr Hu Hfit Hs;
    (destruct fuel as [|fuel]; [lia|]); cbn [readExtensions].
  - rewrite (proj2 (Empty_unread r Hr)) by done. cbn [elements_at]. by rewrite app_nil_r.
  - destruct (skip_step r t ts Hr Hu Hfit) as (-> & -> & -> & Hr' & Hu' & Hf').
    inversion_clear Hs as [|? ? Hn Hs']. rewrite bool_decide_false by done.
    simpl in Hf. rewrite IH by (done || lia). cbn [elements_at]. rewrite <- app_assoc.
    by rewrite Offset_advance.
Qed.

Lemma fuel_covers ts r : reader_ok r -> unread r = encs ts -> (length ts < S (length (r_data r)))%nat.
Proof.
  intros Hr Hu. pose proof (encs_length ts).
  assert (length (unread r) <= length (r_data r))%nat.
  { unfold unread, slice_from. rewrite length_drop. lia. }
  rewrite Hu in *. lia.
Qed.

Lemma parseControls_enc r (hasControls : bool) cs es : reader_ok r ->
  unread r = encs (when hasControls (Cons controlsIdentifier cs) ++ es) ->
  fits_all r (when hasControls (Cons controlsIdentifier cs) ++ es) ->
  Forall is_sequence cs -> Forall not_controls es -> (hasControls = false -> cs = []) ->
  exists r' off, parseControls r = (Ok (elements_at off cs), r') /\
    reader_ok r' /\ unread r' = encs es /\ fits_all r' es.
Proof.
  intros Hr Hu Hf Hcs Hes Hc. unfold parseControls. destruct hasControls; cbn [when app] in *.
  - pose proof (skip_step _ _ _ Hr Hu Hf) as (-> & _ & -> & _).
    rewrite bool_decide_true by done. rewrite encs_cons in Hu.
    destruct (fits_all_cons _ _ _ Hf) as [Ht Hts]. pose proof Ht as (_ & Hcnt & _).
    rewrite (Reader_Constructed_enc r controlsIdentifier cs (encs es)) by done. cbn zeta.
    destruct (childReader_enc r controlsIdentifier cs (encs es) Hr Hu Ht) as (Hck & Hcu & Hcf & _).
    set (c := childReader _ _) in *. rewrite (readControls_enc cs) by (done || by apply fuel_covers).
    eexists _, (Offset c). split; [done|].
    assert (with_elements (advance r (len (enc (Cons controlsIdentifier cs))) 1)
              (r_elements (advance c (len (encs cs)) (counts cs))) =
            advance r (len (enc (Cons controlsIdentifier cs))) (count (Cons controlsIdentifier cs))) as ->.
    { unfold with_elements, advance, c, childReader. cbn [r_elements r_data r_pos r_base r_depth r_limits].
      f_equal. change (count (Cons controlsIdentifier cs)) with (1 + counts cs). cbn [advance r_elements]. lia. }
    split; [by eapply advance_ok|]. split; [|done].
    eapply unread_advance; [apply Hr|done|done].
  - rewrite Hc by done. destruct es as [|t es].
    + rewrite (proj2 (Empty_unread r Hr)) by done. by exists r, 0.
    + pose proof (skip_step _ _ _ Hr Hu Hf) as (-> & _ & -> & _).
      inversion_clear Hes. rewrite bool_decide_false by done. by exists r, 0.
Qed.

(** A message that the parser accepts. *)
Definition message_ok (id : MessageID) (protocol : tlv) (hasControls : bool) (cs es : list tlv) : Prop :=
  0 <= id <= MaxMessageID /\ id_Class (tid protocol) = ClassApplication /\
  (hasControls = false -> cs = []) /\ Forall is_sequence cs /\ Forall not_controls es.

(** Reading an element without its contents charges one element only. *)
Lemma read_step r t ts : reader_ok r -> unread r = encs (t :: ts) -> fits_all r (t :: ts) ->
  ReadElement r = (Ok (element_of t (Offset r)), advance r (len (enc t)) 1) /\
  let r' := advance r (len (enc t)) 1 in
  reader_ok r' /\ unread r' = encs ts /\ fits_all r' ts.
Proof.
  intros Hr Hu Hf. rewrite encs_cons in Hu. destruct (fits_all_cons _ _ _ Hf) as [Ht Hts].
  destruct Ht as (Hwf & Hc & _). pose proof (count_pos t).
  split; [eapply ReadElement_enc; [done|done|done|lia]|]. split; [eapply advance_ok; [done|done|done|lia]|].
  split; [eapply unread_advance; [apply Hr|done|done]|].
  destruct Hts as (H1 & H2 & H3). cbn in *. split; [done|]. split; [cbn; lia|done].
Qed.

Lemma parseEnvelope_enc message r id protocol hasControls cs es :
  message_ok id protocol hasControls cs es -> reader_ok r -> int_ok r ->
  unread r = encs ([t_int id; protocol] ++ when hasControls (Cons controlsIdentifier cs) ++ es) ->
  fits_all r ([t_int id; protocol] ++ when hasControls (Cons controlsIdentifier cs) ++ es) ->
  exists offc offe, parseEnvelope message r =
    Ok (MkResponse id (tid protocol) message (enc protocol) (elements_at offc cs) (elements_at offe es)).
Proof.
  intros (Hid & Hcl & Hc & Hcs & Hes) Hr Hi Hu Hf. cbn [app] in Hu, Hf. unfold parseEnvelope.
  pose proof (skip_step _ _ _ Hr Hu Hf) as (_ & _ & _ & Hr2 & Hu2 & Hf2).
  destruct (fits_all_cons _ _ _ Hf) as [Hft _]. rewrite encs_cons in Hu.
  unfold MaxMessageID in Hid. assert (in_type int64 id = true) as Hid64
    by (unfold in_type; cbn [it_signed it_bits int64]; lia).
  unfold Reader_Integer.
  rewrite (integer_Decodes int64 IntegerIdentifier id eq_refl Hid64 ltac:(lia) r _ Hr Hu Hft Hi).
  replace (id <? 0) with false by lia.
  replace (id >? MaxMessageID) with false by (unfold MaxMessageID; lia). cbn [orb].
  fold (t_int id). destruct (read_step _ _ _ Hr2 Hu2 Hf2) as (-> & Hr3 & Hu3 & Hf3).
  cbn [e_Identifier e_Raw element_of]. rewrite Hcl. cbn [Z.eqb negb ClassApplication Pos.eqb].
  destruct (parseControls_enc _ hasControls cs es Hr3 Hu3 Hf3 Hcs Hes Hc) as (r4 & offc & -> & Hr4 & Hu4 & Hf4).
  rewrite (readExtensions_enc es) by (done || by apply fuel_covers). cbn [mbind result_bind app].
  by exists offc, (Offset r4).
Qed.

Lemma parse_message l id protocol hasControls cs es :
  message_ok id protocol hasControls cs es ->
  admits l (message_tree id protocol hasControls cs es) ->
  exists offc offe,
    parseOwnedResponse (enc (message_tree id protocol hasControls cs es)) l =
    Ok (MkResponse id (tid protocol) (enc (message_tree id protocol hasControls cs es)) (enc protocol)
          (elements_at offc cs) (elements_at offe es)).
Proof.
  intros Hok (Hv & Hwf & Hfr & Hcnt & Hh & Hi). unfold message_tree in *.
  set (ts := [t_int id; protocol] ++ when hasControls (Cons controlsIdentifier cs) ++ es) in *.
  set (t := Cons SequenceIdentifier ts) in *. unfold parseOwnedResponse, NewReader.
  rewrite Hv. replace (len (enc t) >? MaxFrameBytes l) with false by lia. cbn [mbind result_bind].
  set (r := MkReader (enc t) 0 0 0 l 0). pose proof (count_pos t). pose proof (len_nonneg (enc t)).
  assert (reader_ok r) as Hr by (split; cbn; lia).
  assert (unread r = enc t ++ []) as Hu by (unfold unread, slice_from; cbn; by rewrite drop_0, app_nil_r).
  assert (fits r t) as Hf by (split; [done|split; cbn; lia]).
  unfold Reader_Sequence. rewrite (Reader_Constructed_enc r SequenceIdentifier ts [] Hr Hu Hf). cbn zeta.
  fold t. destruct (childReader_enc r SequenceIdentifier ts [] Hr Hu Hf) as (Hr1 & Hu1 & Hf1 & _). fold t in Hr1, Hu1, Hf1.
  assert (RequireEmpty (advance r (len (enc t)) 1) = None) as ->.
  { unfold RequireEmpty, Empty, Remaining. cbn. by rewrite Z.sub_diag. }
  by apply (parseEnvelope_enc (enc t) _ id protocol hasControls cs es).
Qed.

(** ** Properties *)

(** C31. The envelope parser recovers every component: for a message with an
    identifier in [0, MaxMessageID], an application protocol operation,
    optional controls that are SEQUENCEs, and trailing extensions other than a
    second controls field, under limits that admit it, the parser returns the
    message identifier, the operation's identifier and its exact bytes, and
    one element with the exact bytes for each control and extension, in order. *)
Theorem envelope_roundtrip l id protocol hasControls cs es :
  message_ok id protocol hasControls cs es ->
  admits l (message_tree id protocol hasControls cs es) ->
  exists response,
    ParseResponse (enc (message_tree id protocol hasControls cs es)) l = Ok response /\
    rsp_MessageID response = id /\ rsp_ProtocolID response = tid protocol /\
    rsp_Protocol response = enc protocol /\
    map e_Raw (rsp_Controls response) = map enc cs /\
    map e_Raw (rsp_Extensions response) = map enc es.
Proof.
  intros Hok Hl. destruct (parse_message l _ _ _ _ _ Hok Hl) as (offc & offe & E).
  unfold ParseResponse. rewrite E. eexists. split; [done|]. cbn.
  assert (forall ts off, map e_Raw (elements_at off ts) = map enc ts) as Hraw.
  { induction ts as [|t ts IH]; intros off; [done|]. cbn [elements_at map]. by rewrite IH. }
  by rewrite !Hraw.
Qed.

Definition sample_protocol : tlv := Prim (applicationPrimitive 10) (bs "dc=example").
Definition sample_control : tlv :=
  Cons SequenceIdentifier [t_octets (bs "1.2.840.113556.1.4.319"); t_bool true].

Lemma sample_message_ok : message_ok 7 sample_protocol true [sample_control] [].
Proof. split; [split; vm_compute; discriminate|]. repeat split; repeat constructor; done. Qed.

Lemma sample_message_admits :
  admits DefaultLimits (message_tree 7 sample_protocol true [sample_control] []).
Proof. unfold admits. vm_compute. repeat split; intros; discriminate. Qed.

Lemma envelope_roundtrip_witness :
  exists response,
    ParseResponse (enc (message_tree 7 sample_protocol true [sample_control] [])) DefaultLimits
      = Ok response /\ rsp_MessageID response = 7 /\ map e_Raw (rsp_Controls response) = [enc sample_control].
Proof.
  destruct (envelope_roundtrip DefaultLimits 7 sample_protocol true [sample_control] []
              sample_message_ok sample_message_admits) as (r & H1 & H2 & _ & _ & H3 & _).
  exists r. split; [exact H1|]. split; [exact H2|exact H3].
Defined.

(** The encoder builds the message tree. *)
Lemma request_encodes m id protocol tp controls tcs : 0 <= id ->
  encodes (po_packet protocol) tp -> Forall2 encodes controls tcs ->
  wf_tlv m (message_tree id tp (negb (len controls =? 0)) tcs []) = true ->
  encodes (BERPacket (if negb (len controls =? 0)
     then Add (Add (Add Sequence [Integer id]) [protocol]) [Add (Constructed controlsIdentifier) controls]
     else Add (Add Sequence [Integer id]) [protocol]))
    (message_tree id tp (negb (len controls =? 0)) tcs []).
Proof.
  intros Hid Hp Hcs Hwf. unfold message_tree in *. wf_split Hwf.
  eapply (holds_encodes m); [|exact Hwf]. rewrite app_nil_r in *.
  eapply holds_cast; [eapply holds_Add_when with (t := Cons controlsIdentifier tcs)|].
  - apply holds_Add_one; [apply holds_Add_one; [by apply holds_Constructed|by eapply int_encodes]|done].
  - intros Hb. apply (holds_encodes m _ controlsIdentifier).
    + apply (holds_Add _ _ []); [by apply holds_Constructed|done].
    + by apply (Forall_when (fun t => wf_tlv m t = true) (negb (len controls =? 0))).
  - by rewrite app_nil_l.
Qed.

(** Requests are encoded as declared: when the protocol packet and the
    control packets each encode one element, the operation's element has the
    declared application identifier and the controls are SEQUENCEs, and the
    limits admit the message, [encodeLDAPRequest] succeeds and its bytes are
    the LDAPMessage with that identifier, operation and controls. *)
Theorem request_encoding l id protocol tp controls tcs :
  0 <= id <= MaxMessageID -> encodes (po_packet protocol) tp -> Forall2 encodes controls tcs ->
  tid tp = ProtocolIdentifier protocol -> id_Class (tid tp) = ClassApplication ->
  Forall is_sequence tcs ->
  admits l (message_tree id tp (negb (len controls =? 0)) tcs []) ->
  encodeLDAPRequest id protocol controls l =
    inl (enc (message_tree id tp (negb (len controls =? 0)) tcs [])).
Proof.
  intros Hid Hp Hcs Htid Hcl Hseq Hl. set (t := message_tree _ _ _ _ _) in *.
  assert (len controls = len tcs) as Hlen by (unfold len; by erewrite Forall2_length).
  assert (message_ok id tp (negb (len controls =? 0)) tcs []) as Hok.
  { split; [done|]. split; [done|]. split; [|done]. intros E. apply negb_false_iff in E. zbool.
    rewrite Hlen in E. by apply len_zero in E. }
  unfold encodeLDAPRequest.
  destruct (request_encodes _ id protocol tp controls tcs ltac:(lia) Hp Hcs (proj1 (proj2 Hl))) as [-> _].
  fold t. pose proof Hl as (_ & _ & Hfr & _). replace (len (enc t) >? MaxFrameBytes l) with false by lia.
  destruct (parse_message l _ _ _ _ _ Hok Hl) as (offc & offe & E). fold t in E. rewrite E.
  cbn [rsp_ProtocolID rsp_Controls rsp_Extensions]. rewrite bool_decide_true by done.
  rewrite len_elements_at, Hlen, Z.eqb_refl. done.
Qed.

Lemma request_encoding_witness :
  encodeLDAPRequest 7 (MkProtocolOperation (Primitive (applicationPrimitive 10) (bs "dc=example"))
                         (applicationPrimitive 10)) [] DefaultLimits
  = inl (enc (message_tree 7 sample_protocol false [] [])).
Proof.
  apply (request_encoding DefaultLimits 7
    (MkProtocolOperation (Primitive (applicationPrimitive 10) (bs "dc=example")) (applicationPrimitive 10))
    sample_protocol [] []).
  - split; vm_compute; discriminate.
  - apply (encodes_primitive MaxUint32). reflexivity.
  - constructor.
  - reflexivity.
  - reflexivity.
  - constructor.
  - unfold admits. vm_compute. repeat split; intros; discriminate.
Defined.
