(* ===== verification/Attributes.v ===== *)
(** * Attribute keys, collections and selectors

    Models src/rfc4511/attributes.go and attribute_selectors.go: the normalized
    lookup key of an attribute description, the ordered and indexed attribute
    collection, and the pre-encoded selector list.

    A collection is [None] before its store is allocated (the nil pointer) and
    its store by value afterwards: an operation with a pointer receiver returns
    the collection it leaves. Sharing of one store by several copies is not
    modelled. Lowercasing of text with non-ASCII bytes needs Go's Unicode
    tables: it is the parameter [toLowerUnicode] of the class [GoUnicode]. *)

From stdpp Require Import sorting.
From S2P Require Import Prelude Wire Packet Reader Decoder Types Result.

(** ** Strings *)

Class GoUnicode := { toLowerUnicode : bytes -> bytes }.

Definition lowerByte (b : Z) : Z := if in_range 65 90 b then b + 32 else b.

(** ASCII lowering stands in for Go's Unicode tables in concrete examples. *)
Definition ascii_unicode : GoUnicode := {| toLowerUnicode := map lowerByte |}.

(** [strings.ToLower]: byte-wise on ASCII, by the Unicode tables otherwise. *)
Definition isASCII (s : bytes) : bool := forallb (fun b => b <? 0x80) s.
Definition ToLower `{GoUnicode} (s : bytes) : bytes :=
  if isASCII s then map lowerByte s else toLowerUnicode s.

(** [strings.Cut(s, ";")] and [strings.Split(s, ";")]; 59 is ';'. *)
Fixpoint Cut (s : bytes) : bytes * bytes * bool :=
  match s with
  | [] => ([], [], false)
  | b :: s' =>
      if b =? 59 then ([], s', true)
      else let '(before, after, found) := Cut s' in (b :: before, after, found)
  end.

Fixpoint Split (s : bytes) : list bytes :=
  match s with
  | [] => [[]]
  | b :: s' =>
      if b =? 59 then [] :: Split s'
      else
        match Split s' with
        | part :: parts => (b :: part) :: parts
        | [] => [[b]]
        end
  end.

(** [strings.Join(parts, ";")]. *)
Fixpoint Join (parts : list bytes) : bytes :=
  match parts with
  | [] => []
  | [part] => part
  | part :: parts => part ++ 59 :: Join parts
  end.

(** Go compares strings byte by byte. *)
Fixpoint str_lt (a b : bytes) : bool :=
  match a, b with
  | _, [] => false
  | [], _ :: _ => true
  | x :: a', y :: b' => (x <? y) || ((x =? y) && str_lt a' b')
  end.

(** [slices.Sort] of strings: the order is total, so the sorted list is the
    only one whatever the algorithm; [slices.Compact]. *)
Fixpoint insert_sorted (x : bytes) (l : list bytes) : list bytes :=
  match l with
  | [] => [x]
  | y :: l' => if str_lt y x then y :: insert_sorted x l' else x :: l
  end.
Definition Sort (l : list bytes) : list bytes := foldr insert_sorted [] l.

Fixpoint Compact (l : list bytes) : list bytes :=
  match l with
  | x :: ((y :: _) as l') => if bool_decide (x = y) then Compact l' else x :: Compact l'
  | _ => l
  end.

(** ** Keys *)

Record AttributeKey := MkAttributeKey { normalized : bytes }.
#[export] Instance AttributeKey_eq_dec : EqDecision AttributeKey.
Proof. solve_decision. Defined.
#[export] Instance AttributeKey_countable : Countable AttributeKey.
Proof.
  refine (inj_countable' normalized MkAttributeKey _). by intros [].
Defined.

(** The loop of [Key] over the options: are they in canonical order? Every
    round removes a separator from [rest], so the bytes are enough fuel. *)
Fixpoint canonical_loop (fuel : nat) (previous rest : bytes) (more : bool) : bool :=
  match fuel with
  | O => true
  | S fuel' =>
      if more then
        let '(next, rest, more) := Cut rest in
        if negb (str_lt previous next) then false
        else canonical_loop fuel' next rest more
      else true
  end.

Definition Key `{GoUnicode} (d : AttributeDescription) : AttributeKey :=
  let name := ToLower d in
  let '(base, options, found) := Cut name in
  if negb found then MkAttributeKey name
  else
    let '(previous, rest, more) := Cut options in
    let canonical := canonical_loop (S (length rest)) previous rest more in
    if canonical then MkAttributeKey name
    else
      let parts := Sort (Split options) in
      MkAttributeKey (base ++ 59 :: Join (Compact parts)).

(** ** The collection *)

Record attributeStore := MkStore {
  ordered : list Attribute;
  index : gmap AttributeKey nat
}.

Definition Attributes := option attributeStore.
#[export] Instance Zero_Attributes : Zero Attributes := None.

Section collection.
Context `{GoUnicode}.

Definition Attributes_Len (a : Attributes) : Z :=
  match a with None => 0 | Some store => len (ordered store) end.

(** [None] stands for the pair of a zero attribute and [false]. *)
Definition LookupKey (a : Attributes) (key : AttributeKey) : option Attribute :=
  match a with
  | None => None
  | Some store =>
      match index store !! key with
      | None => None
      | Some i => ordered store !! i
      end
  end.

Definition Lookup (a : Attributes) (name : AttributeDescription) : option Attribute :=
  LookupKey a (Key name).

(** The collection [set] leaves, and whether it replaced a description. *)
Definition Attributes_set (a : Attributes) (key : AttributeKey) (attribute : Attribute)
    : Attributes * bool :=
  let store := match a with None => MkStore [] ∅ | Some store => store end in
  match index store !! key with
  | Some i => (Some (MkStore (<[i := attribute]> (ordered store)) (index store)), true)
  | None =>
      (Some (MkStore (ordered store ++ [attribute])
                     (<[key := length (ordered store)]> (index store))), false)
  end.

Definition Attributes_Set (a : Attributes) (attribute : Attribute) : Attributes :=
  fst (Attributes_set a (Key (a_Type attribute)) attribute).

Definition NewAttributes (attributes : list Attribute) : Attributes :=
  if len attributes =? 0 then None
  else foldl Attributes_Set (Some (MkStore [] ∅)) attributes.

Definition Attributes_Delete (a : Attributes) (name : AttributeDescription) : Attributes * bool :=
  match a with
  | None => (None, false)
  | Some store =>
      let key := Key name in
      match index store !! key with
      | None => (a, false)
      | Some i =>
          let index := delete key (index store) in
          let ordered := delete i (ordered store) in
          let index := (fun position => if (i <? position)%nat then (position - 1)%nat
                                        else position) <$> index in
          (Some (MkStore ordered index), true)
      end
  end.

(** Copying values is the identity on the model's values. *)
Definition Attributes_Clone (a : Attributes) : Attributes :=
  if Attributes_Len a =? 0 then None
  else match a with
       | None => None
       | Some store => NewAttributes (ordered store)
       end.

Definition Attributes_BERPacket (a : Attributes) : Packet :=
  match a with
  | None => BERPacket Sequence
  | Some store => BERPacket (Add Sequence (ordered store))
  end.
#[export] Instance Attributes_Packeter : Packeter Attributes := Attributes_BERPacket.

Definition duplicateError (type : AttributeDescription) : error :=
  FormatError "arden: duplicate attribute description %q" [type].

Fixpoint Attributes_loop (fuel : nat) (decoded : Attributes) (d : Decoder) : Attributes * Decoder :=
  match fuel with
  | O => (decoded, Fail_opt (Some FuelExhausted) d)
  | S fuel' =>
      let '(more, d) := More d in
      if more then
        let '(attribute, d) := Read Attribute_UnmarshalBER d in
        let '(err, d) := Decoder_Err d in
        match err with
        | Some _ => (decoded, d)
        | None =>
            let key := Key (a_Type attribute) in
            let '(decoded, replaced) := Attributes_set decoded key attribute in
            if replaced
            then (decoded, Fail_opt (Some (duplicateError (a_Type attribute))) d)
            else Attributes_loop fuel' decoded d
        end
      else (decoded, d)
  end.

Definition Attributes_UnmarshalBER : Unmarshal Attributes :=
  scoped SequenceIdentifier (fun d => Attributes_loop (scope_fuel d) None d) no_check.

End collection.

(** ** Selectors *)

Record AttributeSelectors := MkSelectors {
  as_values : list AttributeSelector;
  as_encoded : bytes
}.
#[export] Instance Zero_AttributeSelectors : Zero AttributeSelectors := MkSelectors [] [].

Definition NewAttributeSelectors (selectors : list bytes) : AttributeSelectors :=
  if len selectors =? 0 then MkSelectors [] []
  else
    let values := selectors in
    MkSelectors values (Encode (BERPacket (Add Sequence (map MkOctets values)))).

Definition AttributeSelectors_BERPacket (v : AttributeSelectors) : Packet :=
  if len (as_encoded v) =? 0 then BERPacket Sequence
  else Encoded (as_encoded v).
#[export] Instance AttributeSelectors_Packeter : Packeter AttributeSelectors :=
  AttributeSelectors_BERPacket.

Definition AttributeSelectors_UnmarshalBER : Unmarshal AttributeSelectors :=
  scoped SequenceIdentifier
    (values ← All AttributeSelector_UnmarshalBER; mret (NewAttributeSelectors values)) no_check.

(** ** Selectors are a codec *)

Definition AttributeSelectors_repr (v : AttributeSelectors) (t : tlv) : Prop :=
  exists vs, v = NewAttributeSelectors vs /\ t = Cons SequenceIdentifier (map t_octets vs) /\
    Forall (fun s => utf8_Valid s = true) vs.

#[export, program] Instance AttributeSelectors_Codec :
    Codec AttributeSelectors AttributeSelectors_UnmarshalBER :=
  {| repr := AttributeSelectors_repr |}.
Next Obligation.
  intros m v t (vs & -> & -> & _) Hwf.
  pose proof (octets_of_encodes m SequenceIdentifier vs eq_refl Hwf) as Henc.
  unfold BERPacket at 1, AttributeSelectors_Packeter, AttributeSelectors_BERPacket, NewAttributeSelectors.
  destruct (len vs =? 0) eqn:E; zbool.
  - apply len_zero in E. subst. eapply (holds_encodes m); [|done]. by apply holds_Constructed.
  - cbn [as_encoded]. destruct Henc as [He _].
    change (Add Sequence (map MkOctets vs)) with (Add (Constructed SequenceIdentifier) (map MkOctets vs)).
    rewrite He. pose proof (enc_nonempty (Cons SequenceIdentifier (map t_octets vs))).
    replace (len (enc _) =? 0) with false by lia. by apply encodes_Encoded.
Qed.
Next Obligation.
  intros v t (vs & -> & -> & Hu). eapply scoped_Decodes; [|done].
  run_next; [apply AllUsing_Runs; by apply text_list|apply Runs_ret].
Qed.

(** ** Keys are canonical

    [name_base] and [name_options] split a lowered description; [Key_spec] is
    the documented normal form, computed without the fast paths. *)
Definition name_base (name : bytes) : bytes := fst (fst (Cut name)).
Definition name_options (name : bytes) : list bytes :=
  let '(_, options, found) := Cut name in if found then Split options else [].

Definition Key_spec (name : bytes) : bytes :=
  match name_options name with
  | [] => name_base name
  | options => name_base name ++ 59 :: Join (Compact (Sort options))
  end.

(** The order on strings is a strict total order. *)
Definition lt_str (a b : bytes) : Prop := str_lt a b = true.

Lemma str_lt_cons x a y b : str_lt (x :: a) (y :: b) = (x <? y) || ((x =? y) && str_lt a b).
Proof. done. Qed.

Lemma str_lt_irrefl a : str_lt a a = false.
Proof. induction a as [|x a IH]; [done|]. rewrite str_lt_cons, Z.ltb_irrefl, IH, andb_false_r. done. Qed.

Lemma str_lt_trans a : forall b c, lt_str a b -> lt_str b c -> lt_str a c.
Proof.
  unfold lt_str. induction a as [|x a IH]; intros [|y b] [|z c]; try done.
  rewrite !str_lt_cons. intros H1 H2. apply orb_true_iff in H1, H2. apply orb_true_iff.
  destruct H1 as [H1|H1], H2 as [H2|H2]; zbool; [left; lia|left; lia|left; lia|].
  right. apply andb_true_iff. split; [lia|by eapply IH].
Qed.

Lemma str_lt_total a : forall b, str_lt a b = false -> str_lt b a = false -> a = b.
Proof.
  induction a as [|x a IH]; intros [|y b]; try done. rewrite !str_lt_cons. intros H1 H2.
  apply orb_false_iff in H1 as [H1 H1'], H2 as [H2 H2'].
  assert (x = y) as -> by lia. rewrite Z.eqb_refl in *. simpl in *. f_equal. auto.
Qed.

#[export] Instance lt_str_antisymm : AntiSymm (=) lt_str.
Proof.
  intros a b H1 H2. pose proof (str_lt_trans _ _ _ H1 H2) as H. unfold lt_str in H.
  by rewrite str_lt_irrefl in H.
Qed.

(** Weakly ascending lists, as [Sort] returns them. *)
Definition le_str (a b : bytes) : Prop := str_lt b a = false.

Lemma lt_le_str a b : lt_str a b -> le_str a b.
Proof.
  intros H. unfold le_str. destruct (str_lt b a) eqn:E; [|done].
  pose proof (str_lt_trans _ _ _ H E) as H0. unfold lt_str in H0. by rewrite str_lt_irrefl in H0.
Qed.

Lemma le_lt_str a b : le_str a b -> a <> b -> lt_str a b.
Proof.
  unfold le_str, lt_str. intros H Hne. destruct (str_lt a b) eqn:E; [done|].
  by destruct (Hne (str_lt_total _ _ E H)).
Qed.

Lemma le_str_trans a b c : le_str a b -> le_str b c -> le_str a c.
Proof.
  intros H1 H2. destruct (decide (a = b)) as [->|N1]; [done|].
  destruct (decide (b = c)) as [->|N2]; [done|].
  apply lt_le_str. eapply str_lt_trans; by apply le_lt_str.
Qed.

Lemma insert_sorted_perm x l : insert_sorted x l ≡ₚ x :: l.
Proof.
  induction l as [|y l IH]; simpl; [done|]. case_ifs; [|done]. rewrite IH. apply Permutation_swap.
Qed.

Lemma Sort_perm l : Sort l ≡ₚ l.
Proof. induction l as [|x l IH]; [done|]. cbn [Sort foldr]. rewrite insert_sorted_perm. by f_equiv. Qed.

Lemma insert_sorted_sorted x l :
  StronglySorted le_str l -> StronglySorted le_str (insert_sorted x l).
Proof.
  induction 1 as [|y l Hs IH Hy]; simpl; [repeat constructor|]. case_ifs.
  - constructor; [done|]. rewrite insert_sorted_perm. constructor; [by apply lt_le_str|done].
  - constructor; [by constructor|]. constructor; [done|].
    eapply Forall_impl; [exact Hy|]. intros z Hz. by eapply le_str_trans.
Qed.

Lemma Sort_sorted l : StronglySorted le_str (Sort l).
Proof. induction l; [constructor|]. by apply insert_sorted_sorted. Qed.

Lemma Compact_in x l : x ∈ Compact l <-> x ∈ l.
Proof.
  induction l as [|y l IH]; [done|]. destruct l as [|z l]; [done|]. cbn [Compact].
  case_bool_decide; subst; set_solver.
Qed.

Lemma Compact_sorted l : StronglySorted le_str l -> StronglySorted lt_str (Compact l).
Proof.
  induction 1 as [|x l Hs IH Hx]; [constructor|]. destruct l as [|y l]; [repeat constructor|].
  cbn [Compact]. case_bool_decide as E; [done|]. constructor; [done|].
  apply Forall_forall. intros z Hz. apply (Compact_in z (y :: l)) in Hz.
  inversion_clear Hx as [|? ? Hxy Hxl]. inversion_clear Hs as [|? ? _ Hyl].
  pose proof (le_lt_str _ _ Hxy E). apply elem_of_cons in Hz as [->|Hz]; [done|].
  rewrite Forall_forall in Hyl. destruct (decide (y = z)) as [->|]; [done|].
  eapply str_lt_trans; [done|]. apply le_lt_str; auto.
Qed.

Lemma sorted_NoDup l : StronglySorted lt_str l -> NoDup l.
Proof.
  induction 1 as [|x l Hs IH Hx]; constructor; [|done]. intros Hin.
  rewrite Forall_forall in Hx. specialize (Hx x Hin). unfold lt_str in Hx.
  by rewrite str_lt_irrefl in Hx.
Qed.

(** An ascending list is determined by its members. *)
Lemma ascending_unique l k : StronglySorted lt_str l -> StronglySorted lt_str k ->
  (forall x, x ∈ l <-> x ∈ k) -> l = k.
Proof.
  intros Hl Hk Hin. eapply StronglySorted_unique; [apply lt_str_antisymm|done|done|].
  apply NoDup_Permutation; [by apply sorted_NoDup..|done].
Qed.

Lemma canonical_options_in x l : x ∈ Compact (Sort l) <-> x ∈ l.
Proof. rewrite Compact_in. by rewrite Sort_perm. Qed.

Lemma canonical_options_sorted l : StronglySorted lt_str (Compact (Sort l)).
Proof. apply Compact_sorted, Sort_sorted. Qed.

(** ** Splitting and joining at [';'] *)

Definition plain (s : bytes) : Prop := 59 ∉ s.

Lemma Cut_spec s : forall b r f, Cut s = (b, r, f) ->
  plain b /\ (if f then s = b ++ 59 :: r else s = b /\ r = []).
Proof.
  induction s as [|x s IH]; intros b r f; cbn [Cut].
  - intros [= <- <- <-]. split; [unfold plain; set_solver|done].
  - destruct (x =? 59) eqn:E.
    + intros [= <- <- <-]. zbool. subst. split; [unfold plain; set_solver|done].
    + destruct (Cut s) as [[b' r'] f'] eqn:Ec. intros [= <- <- <-]. zbool.
      destruct (IH _ _ _ eq_refl) as [Hp Hs]. split; [unfold plain in *; set_solver|].
      destruct f'; [by rewrite Hs|]. destruct Hs as [-> ->]. done.
Qed.

Lemma Split_Cut s : Split s = let '(b, r, f) := Cut s in if f then b :: Split r else [b].
Proof.
  induction s as [|x s IH]; [done|]. cbn [Split Cut]. destruct (x =? 59); [done|].
  destruct (Cut s) as [[b r] f]. rewrite IH. by destruct f.
Qed.

Lemma Split_plain s : Forall plain (Split s).
Proof.
  induction s as [|x s IH]; cbn [Split].
  - constructor; [unfold plain; set_solver|done].
  - destruct (x =? 59) eqn:E; zbool.
    + constructor; [unfold plain; set_solver|done].
    + destruct (Split s) as [|p ps]; [repeat constructor; unfold plain; set_solver|].
      inversion_clear IH. constructor; [unfold plain in *; set_solver|done].
Qed.

Lemma Split_nonempty s : Split s <> [].
Proof. destruct s as [|x s]; [done|]. cbn [Split]. case_ifs; [done|]. by destruct (Split s). Qed.

Lemma Join_cons p ps : ps <> [] -> Join (p :: ps) = p ++ 59 :: Join ps.
Proof. by destruct ps. Qed.

Lemma Split_plain_app p s : plain p ->
  Split (p ++ 59 :: s) = p :: Split s.
Proof.
  induction p as [|x p IH]; intros Hp; cbn [app Split]; [done|].
  replace (x =? 59) with false by (symmetry; apply Z.eqb_neq; unfold plain in Hp; set_solver).
  rewrite IH by (unfold plain in *; set_solver). done.
Qed.

Lemma Split_of_plain p : plain p -> Split p = [p].
Proof.
  induction p as [|x p IH]; intros Hp; cbn [Split]; [done|].
  replace (x =? 59) with false by (symmetry; apply Z.eqb_neq; unfold plain in Hp; set_solver).
  rewrite IH by (unfold plain in *; set_solver). done.
Qed.

Lemma Split_Join ps : ps <> [] -> Forall plain ps -> Split (Join ps) = ps.
Proof.
  induction ps as [|p ps IH]; intros Hne Hp; [done|]. inversion_clear Hp.
  destruct ps as [|q ps]; [by apply Split_of_plain|].
  rewrite Join_cons, Split_plain_app by done. by rewrite IH.
Qed.

Lemma Join_Split s : Join (Split s) = s.
Proof.
  induction s as [|x s IH]; [done|]. cbn [Split]. pose proof (Split_nonempty s).
  destruct (x =? 59) eqn:E; zbool.
  - rewrite Join_cons by done. subst. by rewrite IH.
  - destruct (Split s) as [|p [|q ps]]; [done|by rewrite <- IH|].
    rewrite Join_cons in * by done. by rewrite <- IH.
Qed.

Lemma Cut_after s b r : Cut s = (b, r, true) -> (length r < length s)%nat.
Proof.
  intros H. apply Cut_spec in H as [_ ->]. rewrite length_app, length_cons. lia.
Qed.

(** The loop of [Key] accepts exactly the ascending options. *)
Lemma canonical_loop_spec fuel : forall previous rest more, (length rest < fuel)%nat ->
  canonical_loop fuel previous rest more = true <->
  StronglySorted lt_str (previous :: if more then Split rest else []).
Proof.
  induction fuel as [|fuel IH]; intros previous rest more Hf; [lia|]. cbn [canonical_loop].
  destruct more; [|by split; [repeat constructor|]].
  rewrite Split_Cut. destruct (Cut rest) as [[next rest'] more'] eqn:Ec.
  assert (canonical_loop fuel next rest' more' = true <->
          StronglySorted lt_str (next :: if more' then Split rest' else [])) as Hnext.
  { destruct more'; [apply IH; pose proof (Cut_after _ _ _ Ec); lia|].
    split; [repeat constructor|]. by destruct fuel. }
  replace (if more' then next :: Split rest' else [next]) with
    (next :: if more' then Split rest' else []) by (by destruct more').
  set (tail := next :: if more' then Split rest' else []) in *.
  destruct (str_lt previous next) eqn:E; cbn [negb].
  - rewrite Hnext. split; [|by inversion 1]. intros Hs. constructor; [done|].
    inversion Hs as [|? ? _ Hall]; subst. constructor; [done|].
    eapply Forall_impl; [exact Hall|]. intros z. by apply str_lt_trans.
  - split; [done|]. intros Hs. inversion Hs as [|? ? _ Hall]. inversion Hall as [|? ? Hl _].
    unfold lt_str in Hl. congruence.
Qed.

Section keys.
Context `{GoUnicode}.

(** The fast paths return the documented normal form. *)
Lemma Key_normal d : normalized (Key d) = Key_spec (ToLower d).
Proof.
  unfold Key, Key_spec, name_options, name_base. set (name := ToLower d).
  destruct (Cut name) as [[base options] found] eqn:Ec. apply Cut_spec in Ec as [_ Hn].
  destruct found; cbn [negb fst]; [|by destruct Hn as [-> _]].
  destruct (Split options) as [|o os] eqn:Es; [by destruct (Split_nonempty options)|].
  rewrite <- Es. rewrite Split_Cut in Es.
  destruct (Cut options) as [[previous rest] more] eqn:Eo.
  destruct (canonical_loop _ _ _ _) eqn:El; cbn [normalized]; [|done].
  apply canonical_loop_spec in El; [|lia].
  replace (Compact (Sort (Split options))) with (Split options); [by rewrite Join_Split|].
  apply ascending_unique; [|apply canonical_options_sorted|].
  - rewrite Split_Cut, Eo. by destruct more.
  - intros x. by rewrite canonical_options_in.
Qed.

Lemma name_base_plain n : plain (name_base n).
Proof. unfold name_base. destruct (Cut n) as [[b r] f] eqn:E. by apply Cut_spec in E as [? _]. Qed.

Lemma name_options_plain n : Forall plain (name_options n).
Proof. unfold name_options. destruct (Cut n) as [[b r] []]; [apply Split_plain|done]. Qed.

Lemma Key_spec_split n : Split (Key_spec n) = name_base n :: Compact (Sort (name_options n)).
Proof.
  unfold Key_spec. pose proof (name_base_plain n) as Hb. pose proof (name_options_plain n) as Ho.
  destruct (name_options n) as [|o os]; [by apply Split_of_plain|].
  rewrite Split_plain_app by done. f_equal. apply Split_Join.
  - intros E. assert (o ∈ Compact (Sort (o :: os))) as Hin by (apply canonical_options_in; set_solver).
    rewrite E in Hin. set_solver.
  - apply Forall_forall. intros x Hx. rewrite canonical_options_in in Hx.
    rewrite Forall_forall in Ho. by apply Ho.
Qed.

(** C37. Keys identify descriptions up to case, option order and repetition: two
    attribute descriptions have the same key exactly when their lowered base
    names are equal and they carry the same set of lowered options. This covers
    the early returns of [Key] (no options, options already in order) as well
    as the sort-and-deduplicate path. *)
Theorem key_equivalence d1 d2 : Key d1 = Key d2 <->
  name_base (ToLower d1) = name_base (ToLower d2) /\
  forall o, o ∈ name_options (ToLower d1) <-> o ∈ name_options (ToLower d2).
Proof.
  assert (Key d1 = Key d2 <-> Key_spec (ToLower d1) = Key_spec (ToLower d2)) as ->.
  { rewrite <- !Key_normal. destruct (Key d1), (Key d2). cbn. split; [by intros [= ->]|by intros ->]. }
  split.
  - intros E. apply (f_equal Split) in E. rewrite !Key_spec_split in E. injection E as Hb Ho.
    split; [done|]. intros o. rewrite <- (canonical_options_in o (name_options (ToLower d1))), Ho.
    apply canonical_options_in.
  - intros [Hb Ho].
    assert (Compact (Sort (name_options (ToLower d1))) = Compact (Sort (name_options (ToLower d2)))) as Hc.
    { apply ascending_unique; [apply canonical_options_sorted..|].
      intros x. by rewrite !canonical_options_in. }
    rewrite <- (Join_Split (Key_spec (ToLower d1))), <- (Join_Split (Key_spec (ToLower d2))).
    by rewrite !Key_spec_split, Hb, Hc.
Qed.

End keys.

(** ** The collection refines an ordered association list

    [items] is the abstract state: the attributes in order, at most one for
    each key. The specification replaces in place, appends, or removes; the
    index of the store is an implementation detail. *)
Section refinement.
Context `{GoUnicode}.

Definition items (a : Attributes) : list Attribute :=
  match a with None => [] | Some store => ordered store end.

Definition key_of (x : Attribute) : AttributeKey := Key (a_Type x).

Definition has_key (l : list Attribute) (key : AttributeKey) : bool :=
  existsb (fun x => bool_decide (key_of x = key)) l.

Definition spec_lookup (l : list Attribute) (key : AttributeKey) : option Attribute :=
  List.find (fun x => bool_decide (key_of x = key)) l.

Definition spec_set (l : list Attribute) (x : Attribute) : list Attribute :=
  if has_key l (key_of x)
  then map (fun y => if bool_decide (key_of y = key_of x) then x else y) l
  else l ++ [x].

Definition spec_delete (l : list Attribute) (key : AttributeKey) : list Attribute :=
  List.filter (fun x => negb (bool_decide (key_of x = key))) l.

(** The index maps exactly the keys in the list to their positions. *)
Definition store_ok (a : Attributes) : Prop :=
  match a with
  | None => True
  | Some store => forall key i,
      index store !! key = Some i <-> exists x, ordered store !! i = Some x /\ key_of x = key
  end.

Lemma store_ok_distinct store i j x y : store_ok (Some store) ->
  ordered store !! i = Some x -> ordered store !! j = Some y -> key_of x = key_of y -> i = j.
Proof.
  intros Hok Hi Hj E. assert (index store !! key_of x = Some i) as H1 by (apply Hok; eauto).
  assert (index store !! key_of x = Some j) as H2 by (apply Hok; eauto). congruence.
Qed.

Lemma has_key_true l key : has_key l key = true <-> exists i x, l !! i = Some x /\ key_of x = key.
Proof.
  unfold has_key. rewrite existsb_exists. split.
  - intros (x & Hin & Hk). apply bool_decide_eq_true in Hk. apply list_elem_of_In, list_elem_of_lookup in Hin as [i Hi].
    eauto.
  - intros (i & x & Hi & Hk). exists x. split; [|by apply bool_decide_eq_true].
    apply list_elem_of_In. by eapply list_elem_of_lookup_2.
Qed.

Lemma index_has_key store key : store_ok (Some store) ->
  has_key (ordered store) key = match index store !! key with Some _ => true | None => false end.
Proof.
  intros Hok. destruct (index store !! key) as [i|] eqn:E.
  - apply Hok in E as (x & Hx & Hk). apply has_key_true. eauto.
  - apply not_true_is_false. rewrite has_key_true. intros (i & x & Hx & Hk).
    assert (index store !! key = Some i) by (apply Hok; eauto). congruence.
Qed.

(** Replacing at the one position of a key is the specification's map. *)
Lemma replace_map l i x y : l !! i = Some y ->
  (forall j z, l !! j = Some z -> key_of z = key_of y -> j = i) -> key_of x = key_of y ->
  <[i := x]> l = map (fun z => if bool_decide (key_of z = key_of x) then x else z) l.
Proof.
  intros Hi Hu Hk. apply list_eq. intros j. rewrite list_lookup_fmap.
  destruct (decide (i = j)) as [<-|Hne].
  - rewrite list_lookup_insert_eq by (by eapply lookup_lt_Some). rewrite Hi. simpl.
    by rewrite bool_decide_true.
  - rewrite list_lookup_insert_ne by done. destruct (l !! j) as [z|] eqn:Ez; [|done]. simpl.
    rewrite bool_decide_false; [done|]. intros E. apply Hne. symmetry. apply (Hu j z); [done|congruence].
Qed.

Lemma spec_lookup_hit l key i x : l !! i = Some x -> key_of x = key ->
  (forall j z, l !! j = Some z -> key_of z = key -> j = i) -> spec_lookup l key = Some x.
Proof.
  intros Hi Hk Hu. unfold spec_lookup. destruct (List.find _ l) as [y|] eqn:E.
  - apply List.find_some in E as [Hin Hy]. apply bool_decide_eq_true in Hy.
    apply list_elem_of_In, list_elem_of_lookup in Hin as [j Hj].
    assert (j = i) as -> by (by eapply Hu). congruence.
  - eapply List.find_none in E; [|apply list_elem_of_In; by eapply list_elem_of_lookup_2].
    by apply bool_decide_eq_false in E.
Qed.

Lemma spec_lookup_miss l key : has_key l key = false -> spec_lookup l key = None.
Proof.
  intros Hn. unfold spec_lookup. destruct (List.find _ l) as [y|] eqn:E; [|done].
  apply List.find_some in E as [Hin Hy]. unfold has_key in Hn.
  assert (existsb (fun x => bool_decide (key_of x = key)) l = true) by (apply existsb_exists; eauto).
  congruence.
Qed.

Lemma LookupKey_refines a key : store_ok a -> LookupKey a key = spec_lookup (items a) key.
Proof.
  intros Hok. destruct a as [store|]; [|done]. simpl.
  pose proof (index_has_key store key Hok) as Hk. destruct (index store !! key) as [i|] eqn:E.
  - apply Hok in E as (x & Hx & Hkx). rewrite Hx. symmetry.
    eapply spec_lookup_hit; [done|done|]. intros j z Hj Hz.
    eapply store_ok_distinct; [done|exact Hj|exact Hx|congruence].
  - symmetry. by apply spec_lookup_miss.
Qed.

Lemma set_refines a x : store_ok a ->
  let '(a', replaced) := Attributes_set a (key_of x) x in
  store_ok a' /\ items a' = spec_set (items a) x /\ replaced = has_key (items a) (key_of x).
Proof.
  intros Hok. unfold Attributes_set.
  set (store := match a with Some store => store | None => MkStore [] ∅ end).
  assert (store_ok (Some store)) as Hs.
  { destruct a; [done|]. intros key i. simpl. rewrite lookup_empty. split; [done|].
    by intros (y & Hy & _). }
  assert (items a = ordered store) as -> by (by destruct a). clearbody store.
  pose proof Hs as Hix. cbn [store_ok] in Hix.
  pose proof (index_has_key store (key_of x) Hs) as Hk. unfold spec_set.
  destruct (index store !! key_of x) as [i|] eqn:E; rewrite Hk; cbn [items ordered].
  - pose proof E as Hi. apply Hs in Hi as (y & Hy & Hky).
    assert (forall j z, ordered store !! j = Some z -> key_of z = key_of y -> j = i) as Hu.
    { intros j z Hj Hz. by eapply store_ok_distinct. }
    split; [|split; [by eapply replace_map|done]].
    intros key j. cbn [index ordered]. rewrite Hix. destruct (decide (i = j)) as [<-|Hne].
    + rewrite list_lookup_insert_eq by (by eapply lookup_lt_Some). split.
      * intros (z & Hz & <-). exists x. split; [done|]. congruence.
      * intros (z & [= <-] & <-). exists y. by split.
    + by rewrite list_lookup_insert_ne by done.
  - split; [|done]. intros key j. cbn [index ordered]. destruct (decide (key = key_of x)) as [->|Hne].
    + rewrite lookup_insert_eq. split.
      * intros [= <-]. exists x. split; [|done]. by rewrite list_lookup_middle.
      * intros (z & Hz & Hkz). apply lookup_app_Some in Hz as [Hz|[Hl Hz]].
        -- assert (index store !! key_of x = Some j) by (apply Hs; eauto). congruence.
        -- apply list_lookup_singleton_Some in Hz as [? _]. f_equal. lia.
    + rewrite lookup_insert_ne by done. rewrite Hix. split.
      * intros (z & Hz & Hkz). exists z. split; [|done]. by apply lookup_app_l_Some.
      * intros (z & Hz & Hkz). exists z. split; [|done].
        apply lookup_app_Some in Hz as [Hz|[Hl Hz]]; [done|].
        apply list_lookup_singleton_Some in Hz as [_ <-]. done.
Qed.

Lemma filter_absent l key : (forall j z, l !! j = Some z -> key_of z <> key) ->
  spec_delete l key = l.
Proof.
  intros Hn. apply forallb_filter_id. apply forallb_forall. intros x Hx.
  apply list_elem_of_In, list_elem_of_lookup in Hx as [j Hj].
  by rewrite bool_decide_false by (by eapply Hn).
Qed.

Lemma delete_filter l : forall i x, l !! i = Some x ->
  (forall j z, l !! j = Some z -> key_of z = key_of x -> j = i) ->
  delete i l = spec_delete l (key_of x).
Proof.
  induction l as [|y l IH]; intros i x Hi Hu; [done|]. unfold spec_delete. cbn [List.filter].
  destruct i as [|i]; simpl in Hi.
  - injection Hi as ->. rewrite bool_decide_true by done. simpl. symmetry. apply filter_absent.
    intros j z Hj Hz. by pose proof (Hu (S j) z Hj Hz).
  - rewrite bool_decide_false by (intros E; by pose proof (Hu 0%nat y eq_refl E)). simpl.
    f_equal. apply IH; [done|]. intros j z Hj Hz. pose proof (Hu (S j) z Hj Hz). lia.
Qed.

(** Positions after the removal of position [i]. *)
Lemma delete_positions (l : list Attribute) i j x : (i < length l)%nat ->
  delete i l !! j = Some x <->
  exists p, l !! p = Some x /\ p <> i /\ j = if (i <? p)%nat then (p - 1)%nat else p.
Proof.
  intros Hi. destruct (Nat.lt_ge_cases j i) as [Hj|Hj].
  - rewrite list_lookup_delete_lt by done. split.
    + intros Hx. exists j. replace (i <? j)%nat with false by (symmetry; apply Nat.ltb_ge; lia).
      repeat split; [done|lia].
    + intros (p & Hp & Hne & ->). destruct (Nat.ltb_spec i p); [lia|done].
  - rewrite list_lookup_delete_ge by done. split.
    + intros Hx. exists (S j). replace (i <? S j)%nat with true by (symmetry; apply Nat.ltb_lt; lia).
      repeat split; [done|lia|lia].
    + intros (p & Hp & Hne & ->). destruct (Nat.ltb_spec i p); [|lia].
      by replace (S (p - 1)) with p by lia.
Qed.

Lemma delete_refines a name : store_ok a ->
  let '(a', removed) := Attributes_Delete a name in
  store_ok a' /\ items a' = spec_delete (items a) (Key name) /\
  removed = has_key (items a) (Key name).
Proof.
  intros Hok. destruct a as [store|]; [|done]. unfold Attributes_Delete.
  pose proof (index_has_key store (Key name) Hok) as Hk. pose proof Hok as Hix. cbn [store_ok] in Hix.
  destruct (index store !! Key name) as [i|] eqn:E; cbn [items ordered].
  - pose proof E as Hi. apply Hix in Hi as (x & Hx & Hkx). rewrite <- Hkx in *.
    assert (forall j z, ordered store !! j = Some z -> key_of z = key_of x -> j = i) as Hu.
    { intros j z Hj Hz. by eapply store_ok_distinct. }
    split; [|split; [by apply delete_filter|done]].
    intros key j. cbn [index ordered]. rewrite lookup_fmap. setoid_rewrite delete_positions;
      [|by eapply lookup_lt_Some]. destruct (decide (key = key_of x)) as [->|Hne].
    + rewrite lookup_delete_eq. split; [done|]. intros (z & (p & Hp & Hpi & _) & Hz).
      by destruct (Hpi (Hu p z Hp Hz)).
    + rewrite lookup_delete_ne by done. split.
      * intros Hj. apply fmap_Some in Hj as (p & Hp & ->). apply Hix in Hp as (z & Hz & <-).
        exists z. split; [|done]. exists p. split; [done|]. split; [|done].
        intros ->. congruence.
      * intros (z & (p & Hp & Hpi & ->) & Hz). apply fmap_Some. exists p. split; [|done].
        apply Hix. eauto.
  - split; [done|]. split; [|done]. symmetry. apply filter_absent. intros j z Hj Hz.
    assert (has_key (ordered store) (Key name) = true) by (apply has_key_true; eauto). congruence.
Qed.

(** Edits of a collection, in the code and in the specification. *)
Inductive edit := EditSet (x : Attribute) | EditDelete (name : AttributeDescription).

Definition apply_edit (a : Attributes) (e : edit) : Attributes :=
  match e with
  | EditSet x => Attributes_Set a x
  | EditDelete name => fst (Attributes_Delete a name)
  end.

Definition spec_edit (l : list Attribute) (e : edit) : list Attribute :=
  match e with
  | EditSet x => spec_set l x
  | EditDelete name => spec_delete l (Key name)
  end.

Lemma edit_refines a e : store_ok a ->
  store_ok (apply_edit a e) /\ items (apply_edit a e) = spec_edit (items a) e.
Proof.
  intros Hok. destruct e as [x|name]; cbn [apply_edit spec_edit].
  - pose proof (set_refines a x Hok) as Hs. unfold Attributes_Set. fold (key_of x).
    destruct (Attributes_set a (key_of x) x). by destruct Hs as (? & ? & _).
  - pose proof (delete_refines a name Hok) as Hs.
    destruct (Attributes_Delete a name). by destruct Hs as (? & ? & _).
Qed.

Lemma edits_refine es : forall a, store_ok a ->
  store_ok (foldl apply_edit a es) /\
  items (foldl apply_edit a es) = foldl spec_edit (items a) es.
Proof.
  induction es as [|e es IH]; intros a Hok; [done|]. cbn [foldl].
  destruct (edit_refines a e Hok) as [H1 H2]. destruct (IH _ H1) as [H3 H4].
  by rewrite H4, H2.
Qed.

(** C27. The indexed collection implements an ordered map: after any sequence
    of [Set] and [Delete] calls on an empty collection, the attributes in
    order are those of the association-list specification (replacement in
    place, insertion order, removal that keeps the order of the rest), and
    [LookupKey] and [Len] answer from that list. *)
Theorem attributes_refine_ordered_map (es : list edit) :
  let a := foldl apply_edit None es in
  let l := foldl spec_edit [] es in
  items a = l /\ Attributes_Len a = len l /\
  (forall key, LookupKey a key = spec_lookup l key) /\
  (forall name, snd (Attributes_Delete a name) = has_key l (Key name)) /\
  (forall x, snd (Attributes_set a (Key (a_Type x)) x) = has_key l (Key (a_Type x))).
Proof.
  simpl. destruct (edits_refine es None I) as [Hok Hi]. cbn [items] in Hi.
  set (a := foldl apply_edit None es) in *. rewrite <- Hi.
  split; [done|]. split; [by destruct a|]. split; [by intros; apply LookupKey_refines|]. split.
  - intros name. pose proof (delete_refines a name Hok) as Hd.
    destruct (Attributes_Delete a name). by destruct Hd as (_ & _ & ->).
  - intros x. pose proof (set_refines a x Hok) as Hs. fold (key_of x) in *.
    destruct (Attributes_set a (key_of x) x). by destruct Hs as (_ & _ & ->).
Qed.

(** Building a collection from a list is a sequence of [Set] calls. *)
Lemma NewAttributes_edits l : l <> [] ->
  NewAttributes l = foldl apply_edit (Some (MkStore [] ∅)) (map EditSet l).
Proof.
  intros Hne. unfold NewAttributes. destruct (len l =? 0) eqn:E; zbool.
  { by apply len_zero in E. }
  clear E Hne. generalize (Some (MkStore [] ∅)) as a. induction l as [|x l IH]; intros a; [done|].
  cbn [map foldl]. apply IH.
Qed.

Lemma empty_store_ok : store_ok (Some (MkStore [] ∅)).
Proof. intros key i. cbn. rewrite lookup_empty. split; [done|]. by intros (? & ? & _). Qed.

(** Distinct keys: [NewAttributes] and the decoder keep the list as it is. *)
Definition distinct_keys (l : list Attribute) : Prop := NoDup (map key_of l).

Lemma spec_set_fresh l x : key_of x ∉ map key_of l -> spec_set l x = l ++ [x].
Proof.
  intros Hn. unfold spec_set. destruct (has_key l (key_of x)) eqn:E; [|done].
  apply has_key_true in E as (i & y & Hy & Hk). exfalso. apply Hn. rewrite <- Hk.
  apply list_elem_of_fmap. exists y. split; [done|]. by eapply list_elem_of_lookup_2.
Qed.

(** Attributes with new keys are appended. *)
Lemma sets_fresh xs : forall l, distinct_keys (l ++ xs) -> foldl spec_set l xs = l ++ xs.
Proof.
  induction xs as [|x xs IH]; intros l Hd; cbn [foldl]; [by rewrite app_nil_r|].
  rewrite spec_set_fresh.
  - rewrite IH; [by rewrite <- app_assoc|]. by rewrite <- app_assoc.
  - unfold distinct_keys in Hd. rewrite map_app in Hd. apply NoDup_app in Hd as (_ & H2 & _).
    intros Hin. apply (H2 _ Hin). cbn. set_solver.
Qed.

Lemma NewAttributes_items l : distinct_keys l -> items (NewAttributes l) = l.
Proof.
  intros Hd. destruct l as [|x l]; [done|]. rewrite NewAttributes_edits by done.
  destruct (edits_refine (map EditSet (x :: l)) _ empty_store_ok) as [_ ->]. cbn [items ordered].
  assert (forall k acc, foldl spec_edit acc (map EditSet k) = foldl spec_set acc k) as ->.
  { clear. induction k as [|y k IH]; intros acc; [done|]. apply IH. }
  by apply (sets_fresh (x :: l) []).
Qed.

(** With distinct keys the order does not matter for a lookup. *)
Lemma spec_lookup_Some l key x : distinct_keys l -> spec_lookup l key = Some x <-> x ∈ l /\ key_of x = key.
Proof.
  unfold spec_lookup, distinct_keys. induction l as [|y l IH]; cbn; intros Hd; [set_solver|].
  apply NoDup_cons in Hd as [Hn Hd]. rewrite elem_of_cons. case_bool_decide as Hy.
  - split; [intros [= <-]; auto|]. intros [[-> |Hx] Hk]; [done|]. exfalso. apply Hn. rewrite Hy, <- Hk.
    apply list_elem_of_fmap. eauto.
  - rewrite IH by done. split; [tauto|]. intros [[-> |Hx] Hk]; [done|auto].
Qed.

Lemma spec_lookup_perm l l' key : distinct_keys l -> l ≡ₚ l' -> spec_lookup l key = spec_lookup l' key.
Proof.
  intros Hd Hp. assert (distinct_keys l') as Hd'.
  { unfold distinct_keys in *. by rewrite <- Hp. }
  apply option_eq. intros x. rewrite !spec_lookup_Some by done. by rewrite Hp.
Qed.

End refinement.

(** ** The collection is a codec *)
Section attributes_codec.
Context `{GoUnicode}.

Lemma Attributes_loop_Runs ts l R : DecodesAll Attribute_UnmarshalBER ts l ->
  forall fuel acc, (length ts < fuel)%nat -> store_ok acc -> distinct_keys (items acc ++ l) ->
  Runs [] (Attributes_loop fuel acc) ts R (foldl Attributes_Set acc l) [] R.
Proof.
  induction 1 as [|t x ts l Hx Hl IH]; intros fuel acc Hf Hok Hd d Hat;
    (destruct fuel as [|fuel]; [simpl in Hf; lia|]); cbn [Attributes_loop].
  - destruct (More_nil R d Hat) as (d1 & E1 & H1 & A1). rewrite E1. exists d1. by split.
  - destruct (More_cons _ _ _ _ d Hat) as (d1 & E1 & H1 & A1). rewrite E1.
    destruct (Read_Runs _ _ _ _ _ _ Hx d1 H1) as (d2 & E2 & H2 & A2). rewrite E2.
    destruct (Err_Runs _ _ _ d2 H2) as (d3 & E3 & H3 & A3). rewrite E3. fold (key_of x).
    pose proof (set_refines acc x Hok) as Hs. cbn [foldl]. unfold Attributes_Set at 2. fold (key_of x).
    destruct (Attributes_set acc (key_of x) x) as [acc' replaced]. destruct Hs as (Hok' & Hi & ->).
    assert (key_of x ∉ map key_of (items acc)) as Hn.
    { unfold distinct_keys in Hd. rewrite map_app in Hd. apply NoDup_app in Hd as (_ & H2' & _).
      intros Hin. apply (H2' _ Hin). cbn. set_solver. }
    replace (has_key (items acc) (key_of x)) with false.
    2:{ symmetry. apply not_true_is_false. rewrite has_key_true. intros (i & y & Hy & Hk).
        apply Hn. rewrite <- Hk. apply list_elem_of_fmap. exists y. split; [done|].
        by eapply list_elem_of_lookup_2. }
    rewrite spec_set_fresh in Hi by done.
    destruct (IH fuel acc') with (d := d3) as (d4 & E4 & H4 & A4); [simpl in Hf; lia|done| |done|].
    { rewrite Hi, <- app_assoc. exact Hd. }
    exists d4. rewrite E4. split; [done|]. split; [done|].
    rewrite A4, A3, A2, A1, !advance_advance. f_equal; lia.
Qed.

Definition Attributes_repr (a : Attributes) (t : tlv) : Prop :=
  exists l ts, a = NewAttributes l /\ distinct_keys l /\ t = Cons SequenceIdentifier ts /\
    Forall2 Attribute_repr l ts.

Lemma foldl_Set_None l : foldl Attributes_Set None l = NewAttributes l.
Proof. by destruct l. Qed.

Lemma BERPacket_items a : Attributes_BERPacket a = BERPacket (Add Sequence (items a)).
Proof. by destruct a. Qed.

#[export, program] Instance Attributes_Codec : Codec Attributes Attributes_UnmarshalBER :=
  {| repr := Attributes_repr |}.
Next Obligation.
  intros m a t (l & ts & -> & Hd & -> & Hr) Hwf. wf_split Hwf.
  unfold BERPacket at 1, Attributes_Packeter. rewrite BERPacket_items, NewAttributes_items by done.
  apply (holds_encodes m _ SequenceIdentifier ts); [|done].
  apply (holds_Add _ _ []); [by apply holds_Constructed|].
  by apply (Codec_encodes_all Attribute_UnmarshalBER m).
Qed.
Next Obligation.
  intros a t (l & ts & -> & Hd & -> & Hr). eapply scoped_Decodes; [|done].
  intros d Hat. rewrite <- foldl_Set_None. apply Attributes_loop_Runs; [|by eapply at_fuel|done|done|done].
  by apply (Codec_all Attribute_UnmarshalBER).
Qed.

End attributes_codec.
