(* ===== verification/Filter.v ===== *)
(** * Search filters

    Models src/rfc4511/filter.go: the Filter CHOICE with its encoders, its
    decoders and the recursive [decodeFilter]. *)

From S2P Require Import Prelude Wire Packet Reader Decoder Types Result.

Definition andFilterIdentifier := contextConstructed 0.
Definition orFilterIdentifier := contextConstructed 1.
Definition notFilterIdentifier := contextConstructed 2.
Definition equalityMatchIdentifier := contextConstructed 3.
Definition substringsIdentifier := contextConstructed 4.
Definition greaterOrEqualIdentifier := contextConstructed 5.
Definition lessOrEqualIdentifier := contextConstructed 6.
Definition presentIdentifier := contextPrimitive 7.
Definition approximateMatchIdentifier := contextConstructed 8.
Definition extensibleMatchIdentifier := contextConstructed 9.
Definition initialSubstringIdentifier := contextPrimitive 0.
Definition anySubstringIdentifier := contextPrimitive 1.
Definition finalSubstringIdentifier := contextPrimitive 2.
Definition matchingRuleIdentifier := contextPrimitive 1.
Definition matchingTypeIdentifier := contextPrimitive 2.
Definition matchValueIdentifier := contextPrimitive 3.
Definition dnAttributesIdentifier := contextPrimitive 4.

Record SubstringFilter := MkSubstringFilter {
  sf_Type : AttributeDescription;
  sf_Initial : option AssertionValue;
  sf_Any : list AssertionValue;
  sf_Final : option AssertionValue;
  sf_Extensions : list UnknownField
}.

Record ExtensibleMatch := MkExtensibleMatch {
  em_MatchingRule : option MatchingRuleID;
  em_Type : option AttributeDescription;
  em_MatchValue : AssertionValue;
  em_DNAttributes : bool;
  em_Extensions : list UnknownField
}.

(** The interface [Filter] with the types of this package that implement it.
    [ForeignFilter] is an implementation of another package, known by the
    packet it returns. [NilFilter] is the nil interface value: the decoders
    return it together with an error. Encoding it panics in Go; the model
    gives it the empty packet, and no theorem is about that packet. *)
Inductive Filter :=
| And (Filters : list Filter)
| Or (Filters : list Filter)
| Not (filter : Filter)
| EqualityMatch (Assertion : AttributeValueAssertion)
| GreaterOrEqual (Assertion : AttributeValueAssertion)
| LessOrEqual (Assertion : AttributeValueAssertion)
| ApproximateMatch (Assertion : AttributeValueAssertion)
| Present (Attribute : AttributeDescription)
| Substrings (f : SubstringFilter)
| Extensible (f : ExtensibleMatch)
| UnknownFilter (f : UnknownField)
| ForeignFilter (packet : Packet)
| NilFilter.
#[export] Instance Zero_Filter : Zero Filter := NilFilter.

(** ** Constructors *)

Definition Equal (attribute value : bytes) : Filter := EqualityMatch (MkAVA attribute value []).
Definition EqualBytes (attribute value : bytes) : Filter := EqualityMatch (MkAVA attribute value []).
Definition Has (attribute : bytes) : Filter := Present attribute.
Definition Filter_All (filters : list Filter) : Filter := And filters.
Definition Filter_Any (filters : list Filter) : Filter := Or filters.
Definition Negate (filter : Filter) : Filter := Not filter.

(** ** Encoding *)

Definition SubstringFilter_BERPacket (f : SubstringFilter) : Packet :=
  let parts := Sequence in
  let parts := match sf_Initial f with
               | Some v => Add parts [implicitOctetsPacket initialSubstringIdentifier v]
               | None => parts
               end in
  let parts := foldl (fun parts v => Add parts [implicitOctetsPacket anySubstringIdentifier v])
                     parts (sf_Any f) in
  let parts := match sf_Final f with
               | Some v => Add parts [implicitOctetsPacket finalSubstringIdentifier v]
               | None => parts
               end in
  let parts := Add parts (sf_Extensions f) in
  BERPacket (Add (Add (Constructed substringsIdentifier) [OctetString (sf_Type f)]) [parts]).

Definition ExtensibleMatch_BERPacket (f : ExtensibleMatch) : Packet :=
  let filter := Constructed extensibleMatchIdentifier in
  let filter := match em_MatchingRule f with
                | Some v => Add filter [implicitOctetsPacket matchingRuleIdentifier v]
                | None => filter
                end in
  let filter := match em_Type f with
                | Some v => Add filter [implicitOctetsPacket matchingTypeIdentifier v]
                | None => filter
                end in
  let filter := Add filter [implicitOctetsPacket matchValueIdentifier (em_MatchValue f)] in
  let filter := if em_DNAttributes f
                then Add filter [implicitBooleanPacket dnAttributesIdentifier true]
                else filter in
  BERPacket (Add filter (em_Extensions f)).

Fixpoint Filter_BERPacket (f : Filter) : Packet :=
  match f with
  | And fs => BERPacket (Add (Constructed andFilterIdentifier) (map Filter_BERPacket fs))
  | Or fs => BERPacket (Add (Constructed orFilterIdentifier) (map Filter_BERPacket fs))
  | Not f => BERPacket (Add (Constructed notFilterIdentifier) [Filter_BERPacket f])
  | EqualityMatch a => assertionFilterPacket equalityMatchIdentifier a
  | GreaterOrEqual a => assertionFilterPacket greaterOrEqualIdentifier a
  | LessOrEqual a => assertionFilterPacket lessOrEqualIdentifier a
  | ApproximateMatch a => assertionFilterPacket approximateMatchIdentifier a
  | Present a => Primitive presentIdentifier a
  | Substrings f => SubstringFilter_BERPacket f
  | Extensible f => ExtensibleMatch_BERPacket f
  | UnknownFilter f => Encoded (uf_raw f)
  | ForeignFilter p => p
  | NilFilter => Encoded []
  end.
#[export] Instance Filter_Packeter : Packeter Filter := Filter_BERPacket.

(** ** Decoding *)

Definition nonEmptyFilters (text : string) (f : Filter) : option error :=
  match f with
  | And fs | Or fs => if len fs =? 0 then Some (ErrorString text) else None
  | _ => None
  end.

(** The decoders of the recursive alternatives, over [decodeFilter]. *)
Definition And_UnmarshalBER (decodeFilter : Unmarshal Filter) : Unmarshal Filter :=
  scoped andFilterIdentifier
    (filters ← AllUsing decodeFilter; mret (And filters))
    (nonEmptyFilters "arden: AND filter requires at least one child").

Definition Or_UnmarshalBER (decodeFilter : Unmarshal Filter) : Unmarshal Filter :=
  scoped orFilterIdentifier
    (filters ← AllUsing decodeFilter; mret (Or filters))
    (nonEmptyFilters "arden: OR filter requires at least one child").

Definition Not_UnmarshalBER (decodeFilter : Unmarshal Filter) : Unmarshal Filter :=
  scoped notFilterIdentifier (filter ← Using decodeFilter; mret (Not filter)) no_check.

Definition EqualityMatch_UnmarshalBER : Unmarshal Filter :=
  rooted (a ← ReadAs AttributeValueAssertion_UnmarshalAs equalityMatchIdentifier;
          mret (EqualityMatch a)) no_check.
Definition GreaterOrEqual_UnmarshalBER : Unmarshal Filter :=
  rooted (a ← ReadAs AttributeValueAssertion_UnmarshalAs greaterOrEqualIdentifier;
          mret (GreaterOrEqual a)) no_check.
Definition LessOrEqual_UnmarshalBER : Unmarshal Filter :=
  rooted (a ← ReadAs AttributeValueAssertion_UnmarshalAs lessOrEqualIdentifier;
          mret (LessOrEqual a)) no_check.
Definition ApproximateMatch_UnmarshalBER : Unmarshal Filter :=
  rooted (a ← ReadAs AttributeValueAssertion_UnmarshalAs approximateMatchIdentifier;
          mret (ApproximateMatch a)) no_check.

Definition Present_check (f : Filter) : option error :=
  match f with
  | Present a => requireNonEmpty "present attribute description" a
  | _ => None
  end.
Definition Present_UnmarshalBER : Unmarshal Filter :=
  rooted (a ← ReadAs AttributeDescription_UnmarshalAs presentIdentifier; mret (Present a))
    Present_check.

Definition isNil {A} (o : option A) : bool := match o with None => true | Some _ => false end.

Definition SubstringFilter_check (f : SubstringFilter) : option error :=
  match requireNonEmpty "substring attribute description" (sf_Type f) with
  | Some err => Some err
  | None =>
      if isNil (sf_Initial f) && (len (sf_Any f) =? 0) && isNil (sf_Final f)
      then Some (ErrorString "arden: substring filter requires at least one part")
      else None
  end.

Definition SubstringFilter_UnmarshalBER : Unmarshal SubstringFilter :=
  scoped substringsIdentifier
    (type ← Read AttributeDescription_UnmarshalBER;
     '(initial, any, final, exts) ← within SequenceIdentifier
       (initial ← pointer initialSubstringIdentifier
          (ReadAs AssertionValue_UnmarshalAs initialSubstringIdentifier);
        any ← whileNext anySubstringIdentifier
          (ReadAs AssertionValue_UnmarshalAs anySubstringIdentifier);
        final ← pointer finalSubstringIdentifier
          (ReadAs AssertionValue_UnmarshalAs finalSubstringIdentifier);
        exts ← Extensions UnknownField_UnmarshalBER
          [initialSubstringIdentifier; anySubstringIdentifier; finalSubstringIdentifier];
        mret (initial, any, final, exts));
     mret (MkSubstringFilter type initial any final exts))
    SubstringFilter_check.

Definition ExtensibleMatch_validate (f : ExtensibleMatch) : option error :=
  if isNil (em_MatchingRule f) && isNil (em_Type f)
  then Some (ErrorString "arden: extensible match requires a matching rule or type")
  else
    match em_MatchingRule f ≫= requireNonEmpty "matching rule" with
    | Some err => Some err
    | None => em_Type f ≫= requireNonEmpty "matching type"
    end.

Definition ExtensibleMatch_UnmarshalBER : Unmarshal ExtensibleMatch :=
  scoped extensibleMatchIdentifier
    (rule ← pointer matchingRuleIdentifier
       (ReadAs MatchingRuleID_UnmarshalAs matchingRuleIdentifier);
     type ← pointer matchingTypeIdentifier
       (ReadAs AttributeDescription_UnmarshalAs matchingTypeIdentifier);
     value ← ReadAs AssertionValue_UnmarshalAs matchValueIdentifier;
     dn ← optional dnAttributesIdentifier (Decoder_BooleanAs dnAttributesIdentifier) false;
     exts ← Extensions UnknownField_UnmarshalBER
       [matchingRuleIdentifier; matchingTypeIdentifier; matchValueIdentifier; dnAttributesIdentifier];
     mret (MkExtensibleMatch rule type value dn exts))
    ExtensibleMatch_validate.

#[export] Instance Zero_SubstringFilter : Zero SubstringFilter := MkSubstringFilter [] None [] None [].
#[export] Instance Zero_ExtensibleMatch : Zero ExtensibleMatch := MkExtensibleMatch None None [] false [].

Definition filterClassError (id : Identifier) : error :=
  FormatError "arden: filter identifier %s is not context-specific" [bs (Identifier_String id)].

(** The [switch] of [decodeFilter] over its recursive calls, and its body. *)
Definition decodeFilter_switch (decodeFilter : Unmarshal Filter) (id : Identifier) : DM Filter :=
  if bool_decide (id = andFilterIdentifier) then Read (And_UnmarshalBER decodeFilter)
  else if bool_decide (id = orFilterIdentifier) then Read (Or_UnmarshalBER decodeFilter)
  else if bool_decide (id = notFilterIdentifier) then Read (Not_UnmarshalBER decodeFilter)
  else if bool_decide (id = equalityMatchIdentifier) then Read EqualityMatch_UnmarshalBER
  else if bool_decide (id = substringsIdentifier) then
    f ← Read SubstringFilter_UnmarshalBER; mret (Substrings f)
  else if bool_decide (id = greaterOrEqualIdentifier) then Read GreaterOrEqual_UnmarshalBER
  else if bool_decide (id = lessOrEqualIdentifier) then Read LessOrEqual_UnmarshalBER
  else if bool_decide (id = presentIdentifier) then Read Present_UnmarshalBER
  else if bool_decide (id = approximateMatchIdentifier) then Read ApproximateMatch_UnmarshalBER
  else if bool_decide (id = extensibleMatchIdentifier) then
    f ← Read ExtensibleMatch_UnmarshalBER; mret (Extensible f)
  else
    _ ← (if negb (id_Class id =? ClassContextSpecific)
         then Decoder_Fail (filterClassError id) else mret tt);
    field ← Read UnknownField_UnmarshalBER;
    mret (UnknownFilter field).

Definition decodeFilter_body (decodeFilter : Unmarshal Filter) : Unmarshal Filter :=
  rooted (id ← Decoder_PeekIdentifier; decodeFilter_switch decodeFilter id) no_check.

Fixpoint decodeFilter_fuel (fuel : nat) : Unmarshal Filter :=
  match fuel with
  | O => fun r => (Err FuelExhausted, r)
  | S fuel' => decodeFilter_body (decodeFilter_fuel fuel')
  end.

(** A nested filter lies inside the contents of its parent, so the bytes of
    the reader bound the depth of the recursion. *)
Definition decodeFilter : Unmarshal Filter := fun r =>
  decodeFilter_fuel (S (length (r_data r))) r.

(** ** What a filter looks like on the wire *)

Definition SubstringFilter_repr (f : SubstringFilter) (t : tlv) : Prop :=
  exists exts,
    t = Cons substringsIdentifier
          [t_octets (sf_Type f);
           Cons SequenceIdentifier
             (opt_tree initialSubstringIdentifier (sf_Initial f) ++
              map (Prim anySubstringIdentifier) (sf_Any f) ++
              opt_tree finalSubstringIdentifier (sf_Final f) ++ exts)] /\
    utf8_Valid (sf_Type f) = true /\ SubstringFilter_check f = None /\
    extensions [initialSubstringIdentifier; anySubstringIdentifier; finalSubstringIdentifier]
      (sf_Extensions f) exts.

Definition ExtensibleMatch_repr (f : ExtensibleMatch) (t : tlv) : Prop :=
  exists exts,
    t = Cons extensibleMatchIdentifier
          (opt_tree matchingRuleIdentifier (em_MatchingRule f) ++
           opt_tree matchingTypeIdentifier (em_Type f) ++
           Prim matchValueIdentifier (em_MatchValue f) ::
           when (em_DNAttributes f) (Prim dnAttributesIdentifier [0xff]) ++ exts) /\
    (forall v, em_MatchingRule f = Some v -> utf8_Valid v = true) /\
    (forall v, em_Type f = Some v -> utf8_Valid v = true) /\
    ExtensibleMatch_validate f = None /\
    extensions [matchingRuleIdentifier; matchingTypeIdentifier; matchValueIdentifier;
                dnAttributesIdentifier] (em_Extensions f) exts.

Definition known_filters : list Identifier :=
  [andFilterIdentifier; orFilterIdentifier; notFilterIdentifier; equalityMatchIdentifier;
   substringsIdentifier; greaterOrEqualIdentifier; lessOrEqualIdentifier; presentIdentifier;
   approximateMatchIdentifier; extensibleMatchIdentifier].

Inductive Filter_repr : Filter -> tlv -> Prop :=
| repr_And fs ts : fs <> [] -> Forall2 Filter_repr fs ts ->
    Filter_repr (And fs) (Cons andFilterIdentifier ts)
| repr_Or fs ts : fs <> [] -> Forall2 Filter_repr fs ts ->
    Filter_repr (Or fs) (Cons orFilterIdentifier ts)
| repr_Not f t : Filter_repr f t -> Filter_repr (Not f) (Cons notFilterIdentifier [t])
| repr_Equality a t : AVA_repr equalityMatchIdentifier a t -> Filter_repr (EqualityMatch a) t
| repr_Greater a t : AVA_repr greaterOrEqualIdentifier a t -> Filter_repr (GreaterOrEqual a) t
| repr_Less a t : AVA_repr lessOrEqualIdentifier a t -> Filter_repr (LessOrEqual a) t
| repr_Approximate a t :
    AVA_repr approximateMatchIdentifier a t -> Filter_repr (ApproximateMatch a) t
| repr_Present a : utf8_Valid a = true -> a <> [] ->
    Filter_repr (Present a) (Prim presentIdentifier a)
| repr_Substrings f t : SubstringFilter_repr f t -> Filter_repr (Substrings f) t
| repr_Extensible f t : ExtensibleMatch_repr f t -> Filter_repr (Extensible f) t
| repr_Unknown f t : UnknownField_repr f t -> id_Class (tid t) = ClassContextSpecific ->
    tid t ∉ known_filters -> Filter_repr (UnknownFilter f) t.

(** ** Encoding *)

Lemma holds_each m e id0 ts id vs :
  holds e id0 ts -> Forall (fun t => wf_tlv m t = true) (map (Prim id) vs) ->
  holds (foldl (fun e v => Add e [implicitOctetsPacket id v]) e vs) id0 (ts ++ map (Prim id) vs).
Proof.
  revert e ts. induction vs as [|v vs IH]; intros e ts He Hwf; simpl in *.
  - by rewrite app_nil_r.
  - inversion_clear Hwf. eapply holds_cast.
    + apply IH; [|done]. apply holds_Add_one; [done|]. by eapply implicit_encodes.
    + by rewrite <- app_assoc.
Qed.

Lemma SubstringFilter_encodes m f t :
  SubstringFilter_repr f t -> wf_tlv m t = true -> encodes (SubstringFilter_BERPacket f) t.
Proof.
  intros (exts & -> & _ & _ & He) Hwf. wf_split Hwf.
  match goal with H : wf_tlv m (Cons SequenceIdentifier _) = true |- _ =>
    pose proof H as Hparts; wf_split Hparts end.
  unfold SubstringFilter_BERPacket. eapply (holds_encodes m); [|eassumption].
  eapply holds_cast; [apply holds_Add_one; [apply holds_Add_one;
    [by apply holds_Constructed|by eapply octets_encodes]|]|done].
  eapply (holds_encodes m); [|exact Hparts].
  eapply holds_cast; [apply holds_Add; [|by eapply Forall2_extensions]|].
  - apply holds_opt; [|by eapply Forall_wf_ex]. apply (holds_each m); [|done].
    apply holds_opt; [by apply holds_Constructed|by eapply Forall_wf_ex].
  - by rewrite app_nil_l, <- !app_assoc.
Qed.

Lemma ExtensibleMatch_encodes m f t :
  ExtensibleMatch_repr f t -> wf_tlv m t = true -> encodes (ExtensibleMatch_BERPacket f) t.
Proof.
  intros (exts & -> & _ & _ & _ & He) Hwf. wf_split Hwf.
  unfold ExtensibleMatch_BERPacket. eapply (holds_encodes m); [|eassumption].
  eapply holds_cast; [apply holds_Add; [|by eapply Forall2_extensions]|].
  - eapply (holds_Add_when _ _ _ _ _ (Prim dnAttributesIdentifier [0xff])).
    + apply holds_Add_one; [|by eapply implicit_encodes].
      apply holds_opt; [|by eapply Forall_wf_ex].
      apply holds_opt; [by apply holds_Constructed|by eapply Forall_wf_ex].
    + intros Hb. apply (encodes_primitive m).
      by apply (Forall_when (fun t => wf_tlv m t = true) (em_DNAttributes f)).
  - by rewrite app_nil_l, <- !app_assoc.
Qed.

Lemma Filter_encodes_all m fs ts :
  Forall (fun t => forall f, Filter_repr f t -> wf_tlv m t = true -> encodes (Filter_BERPacket f) t) ts ->
  Forall2 Filter_repr fs ts -> Forall (fun t => wf_tlv m t = true) ts ->
  Forall2 (fun p t => encodes (BERPacket p) t) (map Filter_BERPacket fs) ts.
Proof.
  intros HI Hr. induction Hr as [|f t fs ts Hf Hfs IH]; intros Hwf; simpl; constructor.
  - inversion_clear HI. inversion_clear Hwf. unfold BERPacket, Packet_Packeter. auto.
  - inversion_clear HI. inversion_clear Hwf. auto.
Qed.

Lemma Filter_encodes m t :
  forall f, Filter_repr f t -> wf_tlv m t = true -> encodes (Filter_BERPacket f) t.
Proof.
  induction t as [id v|id ts IH] using tlv_nested_ind; intros f Hr Hwf;
    inversion Hr as [fs ts' Hne Hfs|fs ts' Hne Hfs|f' t' Hf|a t' Ha|a t' Ha|a t' Ha|a t' Ha
                    |a Hu Hne|f' t' Hf|f' t' Hf|f' t' Hf Hc Hk]; subst; cbn [Filter_BERPacket];
    try (refine (AVA_encodes m _ a _ _ Ha Hwf); reflexivity);
    try (exact (SubstringFilter_encodes m _ _ Hf Hwf));
    try (exact (ExtensibleMatch_encodes m _ _ Hf Hwf));
    try (exact (encodes_primitive m _ _ Hwf));
    try (destruct Hf as [-> _]; by apply encodes_Encoded).
  all: pose proof (wf_tlv_cons _ _ _ Hwf) as (_ & _ & Hch & _);
    apply (holds_encodes m); [|exact Hwf];
    apply (holds_Add _ _ []); [by apply holds_Constructed|].
  - by apply (Filter_encodes_all m).
  - by apply (Filter_encodes_all m).
  - inversion_clear IH. inversion_clear Hch. constructor; [|constructor].
    unfold BERPacket, Packet_Packeter. auto.
Qed.

(** ** Decoding *)

Lemma next_is_map id id' vs ts : id' <> id -> next_is id ts = false ->
  next_is id (map (Prim id') vs ++ ts) = false.
Proof. intros Hne Hn. destruct vs; simpl; [done|by apply bool_decide_false]. Qed.

Ltac next_free' He :=
  repeat first [apply next_is_map; [done|] | apply next_is_opt; [done|]]; next_free He.

Lemma each_Runs id vs R :
  Forall2 (fun t v => tid t = id /\
             forall ts, Runs [] (ReadAs AssertionValue_UnmarshalAs id) (t :: ts) R v ts R)
    (map (Prim id) vs) vs.
Proof.
  induction vs; simpl; constructor; [|done]. split; [done|].
  intros. apply ReadAs_Runs, Bytes_Decodes.
Qed.

Lemma SubstringFilter_Decodes f t :
  SubstringFilter_repr f t -> Decodes SubstringFilter_UnmarshalBER t f.
Proof.
  intros (exts & -> & Hu & Hck & He). eapply scoped_Decodes; [|exact Hck].
  run_next; [by apply Read_Runs, Text_Decodes|].
  eapply Runs_bind with (a := (sf_Initial f, sf_Any f, sf_Final f, sf_Extensions f)).
  - eapply within_Runs.
    run_next; [apply pointer_Runs; [intros; apply ReadAs_Runs, Bytes_Decodes|next_free' He]|].
    run_next; [apply whileNext_Runs; [apply each_Runs|next_free' He]|].
    run_next; [apply pointer_Runs; [intros; apply ReadAs_Runs, Bytes_Decodes|next_free' He]|].
    run_next; [eapply extensions_Runs; [exact He|set_solver]|apply Runs_ret].
  - destruct f; apply Runs_ret.
Qed.

Lemma ExtensibleMatch_Decodes f t :
  ExtensibleMatch_repr f t -> Decodes ExtensibleMatch_UnmarshalBER t f.
Proof.
  intros (exts & -> & Hr & Ht & Hck & He). eapply scoped_Decodes; [|exact Hck].
  run_next; [apply pointer_Runs; [intros; apply ReadAs_Runs, Text_Decodes; auto|next_free He]|].
  run_next; [apply pointer_Runs; [intros; apply ReadAs_Runs, Text_Decodes; auto|next_free He]|].
  run_next; [apply ReadAs_Runs, Bytes_Decodes|].
  eapply Runs_bind with (a := em_DNAttributes f).
  { apply optional_Runs; [done|intros ->; apply (Decoder_BooleanAs_Runs _ _ true)|done|next_free He]. }
  run_next; [eapply extensions_Runs; [exact He|set_solver]|].
  destruct f; apply Runs_ret.
Qed.

(** [decodeFilter] on each alternative. [choose] resolves the [switch]. *)
Ltac choose :=
  repeat match goal with
  | |- context [bool_decide (?a = ?b)] =>
      first [ rewrite (bool_decide_true (a = b)) by done
            | rewrite (bool_decide_false (a = b)) by done ]
  end.

Lemma AVA_tid id a t : AVA_repr id a t -> tid t = id.
Proof. by intros (? & -> & _). Qed.

Lemma Present_Decodes a : utf8_Valid a = true -> a <> [] ->
  Decodes Present_UnmarshalBER (Prim presentIdentifier a) (Present a).
Proof.
  intros Hu Hne. apply wrapped_Decodes; [by apply Text_Decodes|by apply requireNonEmpty_ok].
Qed.

(** Members of a list, below the height of the list's parent. *)
Lemma height_cons id ts : height (Cons id ts) = 1 + heights ts.
Proof. done. Qed.

Lemma heights_cons t ts : heights (t :: ts) = Z.max (height t) (heights ts).
Proof. done. Qed.

Lemma heights_nonneg ts : 0 <= heights ts.
Proof. induction ts; [done|]. rewrite heights_cons. lia. Qed.

Lemma Filter_Decodes_all (u : Unmarshal Filter) n fs ts :
  (forall f t, height t < n -> Filter_repr f t -> Decodes u t f) ->
  Forall2 Filter_repr fs ts -> heights ts < n -> DecodesAll u ts fs.
Proof.
  intros Hu. induction 1 as [|f t fs ts Hf Hfs IH]; intros Hh; constructor;
    rewrite heights_cons in Hh.
  - apply Hu; [lia|done].
  - apply IH. lia.
Qed.

Lemma nonEmptyFilters_ok text fs (mk : list Filter -> Filter) :
  (mk = And \/ mk = Or) -> fs <> [] -> nonEmptyFilters text (mk fs) = None.
Proof. by intros [-> | ->]; destruct fs. Qed.

Lemma unknown_switch u id : id ∉ known_filters -> id_Class id = ClassContextSpecific ->
  decodeFilter_switch u id =
  (_ ← mret tt; field ← Read UnknownField_UnmarshalBER; mret (UnknownFilter field)).
Proof.
  intros Hk Hc. unfold decodeFilter_switch.
  repeat match goal with
  | |- context [bool_decide (id = ?b)] =>
      rewrite (bool_decide_false (id = b)) by (intros ->; apply Hk; set_solver)
  end.
  by rewrite Hc.
Qed.

(** The fuel covers the height of the filter. *)
Lemma decodeFilter_fuel_Decodes fuel : forall f t,
  height t < Z.of_nat fuel -> Filter_repr f t -> Decodes (decodeFilter_fuel fuel) t f.
Proof.
  induction fuel as [|fuel IH]; intros f t Hh Hr.
  { pose proof (height_nonneg t). lia. }
  cbn [decodeFilter_fuel]. apply choice_Decodes. intros rest.
  inversion Hr as [fs ts' Hne Hfs|fs ts' Hne Hfs|f' t' Hf|a t' Ha|a t' Ha|a t' Ha|a t' Ha
                  |a Hu Hne|f' t' Hf|f' t' Hf|f' t' Hf Hc Hk]; subst;
    try rewrite (AVA_tid _ _ _ Ha).
  - rewrite height_cons in Hh. apply Read_Runs.
    eapply scoped_Decodes; [|by apply nonEmptyFilters_ok; [left|]].
    run_next; [apply AllUsing_Runs|apply Runs_ret].
    apply (Filter_Decodes_all _ (Z.of_nat fuel)); [done|done|lia].
  - rewrite height_cons in Hh. apply Read_Runs.
    eapply scoped_Decodes; [|by apply nonEmptyFilters_ok; [right|]].
    run_next; [apply AllUsing_Runs|apply Runs_ret].
    apply (Filter_Decodes_all _ (Z.of_nat fuel)); [done|done|lia].
  - rewrite height_cons, heights_cons in Hh. pose proof (heights_nonneg []).
    apply Read_Runs. eapply scoped_Decodes; [|done].
    run_next; [apply Using_Runs, IH; [lia|done]|apply Runs_ret].
  - apply Read_Runs, wrapped_Decodes; [by apply AVA_Decodes|done].
  - apply Read_Runs, wrapped_Decodes; [by apply AVA_Decodes|done].
  - apply Read_Runs, wrapped_Decodes; [by apply AVA_Decodes|done].
  - apply Read_Runs, wrapped_Decodes; [by apply AVA_Decodes|done].
  - by apply Read_Runs, Present_Decodes.
  - replace (tid t) with substringsIdentifier by (by destruct Hf as (? & -> & _)).
    change (decodeFilter_switch _ _) with
      (f ← Read SubstringFilter_UnmarshalBER; mret (Substrings f)).
    run_next; [by apply Read_Runs, SubstringFilter_Decodes|apply Runs_ret].
  - replace (tid t) with extensibleMatchIdentifier by (by destruct Hf as (? & -> & _)).
    change (decodeFilter_switch _ _) with
      (f ← Read ExtensibleMatch_UnmarshalBER; mret (Extensible f)).
    run_next; [by apply Read_Runs, ExtensibleMatch_Decodes|apply Runs_ret].
  - rewrite unknown_switch by done. run_next; [apply Runs_ret|].
    run_next; [by apply Read_Runs, UnknownField_Decodes|apply Runs_ret].
Qed.

Lemma height_enc t : height t < len (enc t).
Proof.
  induction t as [id v|id ts IH] using tlv_nested_ind.
  - pose proof (enc_nonempty (Prim id v)). change (height (Prim id v)) with 0. lia.
  - rewrite height_cons. pose proof (contents_lt_enc (Cons id ts)) as Hc. cbn [contents] in Hc.
    assert (heights ts <= len (concat (map enc ts))) as Hh; [|lia]. clear Hc.
    induction IH as [|t ts Ht _ IHts]; [done|]. rewrite heights_cons. cbn [map concat].
    rewrite len_app. pose proof (len_nonneg (concat (map enc ts))). pose proof (len_nonneg (enc t)). lia.
Qed.

Lemma Filter_Decodes f t : Filter_repr f t -> Decodes decodeFilter t f.
Proof.
  intros Hr r rest Hok Hu Hf Hi. unfold decodeFilter.
  apply (decodeFilter_fuel_Decodes _ f t) with rest; [|done..].
  pose proof (height_enc t). assert (len (unread r) <= len (r_data r)).
  { unfold unread, slice_from, len. rewrite length_drop. lia. }
  rewrite Hu, len_app in *. pose proof (len_nonneg rest). unfold len in *. lia.
Qed.

#[export] Instance Filter_Codec : Codec Filter decodeFilter :=
  {| repr := Filter_repr;
     repr_encodes := fun m f t => Filter_encodes m t f;
     repr_decodes := Filter_Decodes |}.

(** A filter of every alternative, nested. *)
Definition sample_filter : Filter :=
  And [Equal (bs "uid") (bs "ada"); Or [Has (bs "mail"); Negate (Has (bs "disabled"))];
       Substrings (MkSubstringFilter (bs "cn") (Some (bs "A")) [bs "d"; bs "o"] None []);
       Extensible (MkExtensibleMatch None (Some (bs "ou")) (bs "eng") true [])].

Definition sample_tree : tlv :=
  Cons andFilterIdentifier
    [Cons equalityMatchIdentifier [t_octets (bs "uid"); t_octets (bs "ada")];
     Cons orFilterIdentifier
       [Prim presentIdentifier (bs "mail");
        Cons notFilterIdentifier [Prim presentIdentifier (bs "disabled")]];
     Cons substringsIdentifier
       [t_octets (bs "cn");
        Cons SequenceIdentifier [Prim initialSubstringIdentifier (bs "A");
          Prim anySubstringIdentifier (bs "d"); Prim anySubstringIdentifier (bs "o")]];
     Cons extensibleMatchIdentifier
       [Prim matchingTypeIdentifier (bs "ou"); Prim matchValueIdentifier (bs "eng");
        Prim dnAttributesIdentifier [0xff]]].

Lemma sample_filter_repr : Filter_repr sample_filter sample_tree.
Proof.
  apply repr_And; [done|]. repeat constructor.
  - exists []. split; [done|]. split; [done|]. split; [done|apply extensions_nil].
  - done.
  - done.
  - done.
  - exists []. split; [done|]. split; [done|]. split; [done|apply extensions_nil].
  - exists []. split; [done|]. split; [done|]. split; [by intros ? [= <-]|].
    split; [done|apply extensions_nil].
Qed.

(** A filter survives the wire: for every representable filter (of any
    alternative and nesting) and all limits that admit its encoding, encoding
    it with [BERPacket] and decoding the bytes with [decodeFilter] as one
    message returns the same filter. *)
Theorem filter_roundtrip f t l : Filter_repr f t -> admits l t ->
  decode_message decodeFilter (Encode (Filter_BERPacket f)) l = Ok f.
Proof. exact (Codec_roundtrip decodeFilter f t l). Qed.

Lemma filter_roundtrip_witness :
  decode_message decodeFilter (Encode (Filter_BERPacket sample_filter)) DefaultLimits = Ok sample_filter.
Proof.
  apply (filter_roundtrip _ sample_tree); [exact sample_filter_repr|].
  unfold admits. vm_compute. repeat split; intros; discriminate.
Defined.
