(* ===== verification/Operations.v ===== *)
(** * The single-response operations

    Models src/rfc4511/add.go, delete.go, modify.go, modifydn.go, compare.go
    and abandon.go: requests, their LDAPResult responses, and the constructors
    of complete operations. *)

From S2P Require Import Prelude Wire Packet Reader Decoder Types Protocol Result Attributes.

(** ** Responses that are an LDAPResult under a tag

    [AddResponse], [DeleteResponse], [ModifyResponse], [ModifyDNResponse],
    [CompareResponse] and [SearchResultDone] are the same structure under
    their own identifiers. *)
Record ResultResponse (id : Identifier) := MkResultResponse { Result : LDAPResult }.
Arguments MkResultResponse {id} Result.
Arguments Result {id} r.

Definition ResultResponse_BERPacket {id} (v : ResultResponse id) : Packet :=
  resultResponsePacket id (Result v).
#[export] Instance ResultResponse_Packeter {id} : Packeter (ResultResponse id) :=
  ResultResponse_BERPacket.
#[export] Instance Zero_ResultResponse {id} : Zero (ResultResponse id) := MkResultResponse zero.

Definition ResultResponse_UnmarshalBER (id : Identifier) : Unmarshal (ResultResponse id) :=
  rooted (result ← ReadAs LDAPResult_UnmarshalAs id; mret (MkResultResponse result)) no_check.

Definition ResultResponse_repr {id} (v : ResultResponse id) (t : tlv) : Prop :=
  LDAPResult_repr id (Result v) t.

Lemma ResultResponse_Decodes id (v : ResultResponse id) t :
  ResultResponse_repr v t -> Decodes (ResultResponse_UnmarshalBER id) t v.
Proof.
  intros Hv. destruct v as [v]. apply wrapped_Decodes; [by apply LDAPResult_Decodes|done].
Qed.

Definition ResultResponse_Codec id (Hid : id_Constructed id = true) :
    Codec (ResultResponse id) (ResultResponse_UnmarshalBER id) :=
  {| repr := ResultResponse_repr;
     repr_encodes m v t := resultResponse_encodes m id (Result v) t Hid;
     repr_decodes := ResultResponse_Decodes id |}.

(** [mustResponsePattern] panics when the specification is refused; the model
    returns the invalid zero pattern then. *)
Definition mustResponsePattern {T} (u : Unmarshal T) (spec : ResponseSpec) : ResponsePattern T :=
  match NewResponsePattern u spec with
  | Ok pattern => pattern
  | Err _ => MkResponsePattern zero None
  end.

Definition terminal (id : Identifier) : ResponseSpec := MkResponseSpec [] [id] false.

(** ** Add *)

Definition addRequestIdentifier := MkId ClassApplication true 8.
Definition addResponseIdentifier := MkId ClassApplication true 9.
Definition AddResponse := ResultResponse addResponseIdentifier.
Definition AddResponse_UnmarshalBER := ResultResponse_UnmarshalBER addResponseIdentifier.
Definition addResponsePattern : ResponsePattern AddResponse :=
  mustResponsePattern AddResponse_UnmarshalBER (terminal addResponseIdentifier).

Record AddRequest := MkAddRequest {
  ar_Entry : LDAPDN;
  ar_Attributes : Attributes;
  ar_Extensions : list UnknownField
}.

Definition AddRequest_BERPacket (v : AddRequest) : Packet :=
  BERPacket (Add (Add (Constructed addRequestIdentifier)
                      [OctetString (ar_Entry v); Attributes_BERPacket (ar_Attributes v)])
                 (ar_Extensions v)).
#[export] Instance AddRequest_Packeter : Packeter AddRequest := AddRequest_BERPacket.

Definition AddRequest_UnmarshalBER `{GoUnicode} : Unmarshal AddRequest :=
  scoped addRequestIdentifier
    (entry ← Read LDAPDN_UnmarshalBER;
     attributes ← Read Attributes_UnmarshalBER;
     exts ← Extensions UnknownField_UnmarshalBER [];
     mret (MkAddRequest entry attributes exts)) no_check.

Definition NewAddOperation (request : option AddRequest) (controls : list (option Packet))
    : result (Operation AddResponse) :=
  newOperation "AddRequest"
    ((fun v => MkProtocolOperation (BERPacket v) addRequestIdentifier) <$> request)
    controls addResponsePattern CancelDrain "ldap.add".

(** ** Delete *)

Definition deleteRequestIdentifier := applicationPrimitive 10.
Definition deleteResponseIdentifier := applicationConstructed 11.
Definition DeleteResponse := ResultResponse deleteResponseIdentifier.
Definition DeleteResponse_UnmarshalBER := ResultResponse_UnmarshalBER deleteResponseIdentifier.
Definition deleteResponsePattern : ResponsePattern DeleteResponse :=
  mustResponsePattern DeleteResponse_UnmarshalBER (terminal deleteResponseIdentifier).

Record DeleteRequest := MkDeleteRequest { dr_Entry : LDAPDN }.

Definition DeleteRequest_BERPacket (v : DeleteRequest) : Packet :=
  Primitive deleteRequestIdentifier (dr_Entry v).
#[export] Instance DeleteRequest_Packeter : Packeter DeleteRequest := DeleteRequest_BERPacket.

Definition DeleteRequest_UnmarshalBER : Unmarshal DeleteRequest :=
  rooted (entry ← ReadAs LDAPDN_UnmarshalAs deleteRequestIdentifier; mret (MkDeleteRequest entry))
    no_check.

Definition NewDeleteOperation (request : option DeleteRequest) (controls : list (option Packet))
    : result (Operation DeleteResponse) :=
  newOperation "DeleteRequest"
    ((fun v => MkProtocolOperation (BERPacket v) deleteRequestIdentifier) <$> request)
    controls deleteResponsePattern CancelDrain "ldap.delete".

(** ** Modify *)

Definition modifyRequestIdentifier := applicationConstructed 6.
Definition modifyResponseIdentifier := applicationConstructed 7.
Definition ModifyResponse := ResultResponse modifyResponseIdentifier.
Definition ModifyResponse_UnmarshalBER := ResultResponse_UnmarshalBER modifyResponseIdentifier.
Definition modifyResponsePattern : ResponsePattern ModifyResponse :=
  mustResponsePattern ModifyResponse_UnmarshalBER (terminal modifyResponseIdentifier).

Definition ModifyOperation := Z.
Definition ModifyAdd : ModifyOperation := 0.
Definition ModifyDelete : ModifyOperation := 1.
Definition ModifyReplace : ModifyOperation := 2.

Record Change := MkChange {
  ch_Operation : ModifyOperation;
  ch_Modification : Attribute;
  ch_Extensions : list UnknownField
}.
#[export] Instance Zero_Change : Zero Change := MkChange 0 zero [].

(** Text and binary values are both bytes in the model. *)
Definition changeText (operation : ModifyOperation) (attribute : bytes) (values : list bytes) : Change :=
  MkChange operation (MkAttribute attribute values []) [].
Definition changeBytes (operation : ModifyOperation) (attribute : bytes) (values : list bytes) : Change :=
  MkChange operation (MkAttribute attribute values []) [].
Definition Replace := changeText ModifyReplace.
Definition AddValues := changeText ModifyAdd.
Definition DeleteValues := changeText ModifyDelete.
Definition ReplaceBytes := changeBytes ModifyReplace.
Definition AddBytes := changeBytes ModifyAdd.
Definition DeleteBytes := changeBytes ModifyDelete.

Definition Change_BERPacket (v : Change) : Packet :=
  BERPacket (Add (Add (Add Sequence [Enumerated (ch_Operation v)]) [ch_Modification v])
                 (ch_Extensions v)).
#[export] Instance Change_Packeter : Packeter Change := Change_BERPacket.

Definition Change_UnmarshalBER : Unmarshal Change :=
  scoped SequenceIdentifier
    (operation ← Decoder_Enumerated int64;
     modification ← Read Attribute_UnmarshalBER;
     exts ← Extensions UnknownField_UnmarshalBER [];
     mret (MkChange operation modification exts)) no_check.

Record ModifyRequest := MkModifyRequest {
  mr_Object : LDAPDN;
  mr_Changes : list Change;
  mr_Extensions : list UnknownField
}.

Definition ModifyRequest_BERPacket (v : ModifyRequest) : Packet :=
  BERPacket (Add (Add (Add (Constructed modifyRequestIdentifier) [OctetString (mr_Object v)])
                      [Add Sequence (mr_Changes v)])
                 (mr_Extensions v)).
#[export] Instance ModifyRequest_Packeter : Packeter ModifyRequest := ModifyRequest_BERPacket.

Definition ModifyRequest_UnmarshalBER : Unmarshal ModifyRequest :=
  scoped modifyRequestIdentifier
    (object ← Read LDAPDN_UnmarshalBER;
     changes ← within SequenceIdentifier (All Change_UnmarshalBER);
     exts ← Extensions UnknownField_UnmarshalBER [];
     mret (MkModifyRequest object changes exts)) no_check.

Definition NewModifyOperation (request : option ModifyRequest) (controls : list (option Packet))
    : result (Operation ModifyResponse) :=
  newOperation "ModifyRequest"
    ((fun v => MkProtocolOperation (BERPacket v) modifyRequestIdentifier) <$> request)
    controls modifyResponsePattern CancelDrain "ldap.modify".

(** ** Modify DN *)

Definition modifyDNRequestIdentifier := applicationConstructed 12.
Definition modifyDNResponseIdentifier := applicationConstructed 13.
Definition modifyDNNewSuperiorIdentifier := contextPrimitive 0.
Definition ModifyDNResponse := ResultResponse modifyDNResponseIdentifier.
Definition ModifyDNResponse_UnmarshalBER := ResultResponse_UnmarshalBER modifyDNResponseIdentifier.
Definition modifyDNResponsePattern : ResponsePattern ModifyDNResponse :=
  mustResponsePattern ModifyDNResponse_UnmarshalBER (terminal modifyDNResponseIdentifier).

Record ModifyDNRequest := MkModifyDNRequest {
  md_Entry : LDAPDN;
  md_NewRDN : RelativeLDAPDN;
  md_DeleteOldRDN : bool;
  md_NewSuperior : option LDAPDN;
  md_Extensions : list UnknownField
}.

Definition ModifyDNRequest_BERPacket (v : ModifyDNRequest) : Packet :=
  let request := Add (Constructed modifyDNRequestIdentifier)
    [OctetString (md_Entry v); OctetString (md_NewRDN v); Boolean (md_DeleteOldRDN v)] in
  let request := match md_NewSuperior v with
                 | Some s => Add request [implicitOctetsPacket modifyDNNewSuperiorIdentifier s]
                 | None => request
                 end in
  BERPacket (Add request (md_Extensions v)).
#[export] Instance ModifyDNRequest_Packeter : Packeter ModifyDNRequest := ModifyDNRequest_BERPacket.

Definition ModifyDNRequest_UnmarshalBER : Unmarshal ModifyDNRequest :=
  scoped modifyDNRequestIdentifier
    (entry ← Read LDAPDN_UnmarshalBER;
     newRDN ← Read RelativeLDAPDN_UnmarshalBER;
     deleteOldRDN ← Decoder_Boolean;
     newSuperior ← pointer modifyDNNewSuperiorIdentifier
       (ReadAs LDAPDN_UnmarshalAs modifyDNNewSuperiorIdentifier);
     exts ← Extensions UnknownField_UnmarshalBER [modifyDNNewSuperiorIdentifier];
     mret (MkModifyDNRequest entry newRDN deleteOldRDN newSuperior exts)) no_check.

Definition NewModifyDNOperation (request : option ModifyDNRequest) (controls : list (option Packet))
    : result (Operation ModifyDNResponse) :=
  newOperation "ModifyDNRequest"
    ((fun v => MkProtocolOperation (BERPacket v) modifyDNRequestIdentifier) <$> request)
    controls modifyDNResponsePattern CancelDrain "ldap.modify-dn".

(** ** Compare *)

Definition compareRequestIdentifier := applicationConstructed 14.
Definition compareResponseIdentifier := applicationConstructed 15.
Definition CompareResponse := ResultResponse compareResponseIdentifier.
Definition CompareResponse_UnmarshalBER := ResultResponse_UnmarshalBER compareResponseIdentifier.
Definition compareResponsePattern : ResponsePattern CompareResponse :=
  mustResponsePattern CompareResponse_UnmarshalBER (terminal compareResponseIdentifier).

Record CompareRequest := MkCompareRequest {
  cr_Entry : LDAPDN;
  cr_Assertion : AttributeValueAssertion;
  cr_Extensions : list UnknownField
}.

Definition CompareRequest_BERPacket (v : CompareRequest) : Packet :=
  BERPacket (Add (Add (Add (Constructed compareRequestIdentifier) [OctetString (cr_Entry v)])
                      [cr_Assertion v])
                 (cr_Extensions v)).
#[export] Instance CompareRequest_Packeter : Packeter CompareRequest := CompareRequest_BERPacket.

Definition CompareRequest_UnmarshalBER : Unmarshal CompareRequest :=
  scoped compareRequestIdentifier
    (entry ← Read LDAPDN_UnmarshalBER;
     assertion ← Read AttributeValueAssertion_UnmarshalBER;
     exts ← Extensions UnknownField_UnmarshalBER [];
     mret (MkCompareRequest entry assertion exts)) no_check.

Definition NewCompareOperation (request : option CompareRequest) (controls : list (option Packet))
    : result (Operation CompareResponse) :=
  newOperation "CompareRequest"
    ((fun v => MkProtocolOperation (BERPacket v) compareRequestIdentifier) <$> request)
    controls compareResponsePattern CancelDrain "ldap.compare".

(** ** Abandon *)

Definition abandonRequestIdentifier := applicationPrimitive 16.
Definition abandonResponsePattern : ResponsePattern unit := NewNoResponsePattern.

Record AbandonRequest := MkAbandonRequest { Target : MessageID }.

Definition AbandonRequest_BERPacket (v : AbandonRequest) : Packet :=
  IntegerWithIdentifier abandonRequestIdentifier (Target v).
#[export] Instance AbandonRequest_Packeter : Packeter AbandonRequest := AbandonRequest_BERPacket.

Definition AbandonRequest_check (v : AbandonRequest) : option error :=
  if (Target v <=? 0) || (Target v >? MaxMessageID)
  then Some (ErrorString "arden: AbandonRequest target is outside [1, MaxMessageID]")
  else None.

Definition AbandonRequest_UnmarshalBER : Unmarshal AbandonRequest :=
  rooted (target ← Decoder_IntegerAs int32 abandonRequestIdentifier; mret (MkAbandonRequest target))
    AbandonRequest_check.

Definition NewAbandonOperation (request : option AbandonRequest) (controls : list (option Packet))
    : result (Operation unit) :=
  newOperation "AbandonRequest"
    ((fun v => MkProtocolOperation (BERPacket v) abandonRequestIdentifier) <$> request)
    controls abandonResponsePattern CancelNone "ldap.abandon".

(** ** The requests are codecs *)

Definition AddRequest_repr `{GoUnicode} (v : AddRequest) (t : tlv) : Prop :=
  exists ta exts, t = Cons addRequestIdentifier ([t_octets (ar_Entry v); ta] ++ exts) /\
    utf8_Valid (ar_Entry v) = true /\ Attributes_repr (ar_Attributes v) ta /\
    extensions [] (ar_Extensions v) exts.

#[export, program] Instance AddRequest_Codec `{GoUnicode} : Codec AddRequest AddRequest_UnmarshalBER :=
  {| repr := AddRequest_repr |}.
Next Obligation.
  intros ? m v t (ta & exts & -> & _ & Ha & He) Hwf. wf_split Hwf.
  assert (encodes (Attributes_BERPacket (ar_Attributes v)) ta) by
    (by apply (repr_encodes (u := Attributes_UnmarshalBER) m)).
  unfold BERPacket at 1, AddRequest_Packeter, AddRequest_BERPacket. encoder m.
Qed.
Next Obligation.
  intros ? v t (ta & exts & -> & Hu & Ha & He). eapply scoped_Decodes; [|done].
  run_next; [by apply Read_Runs, Text_Decodes|].
  run_next; [by apply Read_Runs, (repr_decodes (u := Attributes_UnmarshalBER))|].
  run_next; [eapply extensions_Runs; [exact He|set_solver]|]. destruct v; apply Runs_ret.
Qed.

Definition DeleteRequest_repr (v : DeleteRequest) (t : tlv) : Prop :=
  t = Prim deleteRequestIdentifier (dr_Entry v) /\ utf8_Valid (dr_Entry v) = true.

#[export, program] Instance DeleteRequest_Codec : Codec DeleteRequest DeleteRequest_UnmarshalBER :=
  {| repr := DeleteRequest_repr |}.
Next Obligation. intros m v t [-> _] Hwf. by apply (encodes_primitive m). Qed.
Next Obligation.
  intros [e] t [-> Hu]. apply wrapped_Decodes; [by apply Text_Decodes|done].
Qed.

Definition Change_repr (v : Change) (t : tlv) : Prop :=
  exists tm exts, t = Cons SequenceIdentifier ([t_enum (ch_Operation v); tm] ++ exts) /\
    in_type int64 (ch_Operation v) = true /\ Attribute_repr (ch_Modification v) tm /\
    extensions [] (ch_Extensions v) exts.

#[export, program] Instance Change_Codec : Codec Change Change_UnmarshalBER :=
  {| repr := Change_repr |}.
Next Obligation.
  intros m v t (tm & exts & -> & _ & Ha & He) Hwf. wf_split Hwf.
  assert (encodes (BERPacket (ch_Modification v)) tm) by
    (by apply (repr_encodes (u := Attribute_UnmarshalBER) m)).
  unfold BERPacket at 1, Change_Packeter, Change_BERPacket. encoder m.
Qed.
Next Obligation.
  intros v t (tm & exts & -> & Hu & Ha & He). eapply scoped_Decodes; [|done].
  run_next; [by apply Enumerated_Runs|].
  run_next; [by apply Read_Runs, (repr_decodes (u := Attribute_UnmarshalBER))|].
  run_next; [eapply extensions_Runs; [exact He|set_solver]|]. destruct v; apply Runs_ret.
Qed.

Definition ModifyRequest_repr (v : ModifyRequest) (t : tlv) : Prop :=
  exists tcs exts,
    t = Cons modifyRequestIdentifier ([t_octets (mr_Object v); Cons SequenceIdentifier tcs] ++ exts) /\
    utf8_Valid (mr_Object v) = true /\ Forall2 Change_repr (mr_Changes v) tcs /\
    extensions [] (mr_Extensions v) exts.

#[export, program] Instance ModifyRequest_Codec : Codec ModifyRequest ModifyRequest_UnmarshalBER :=
  {| repr := ModifyRequest_repr |}.
Next Obligation.
  intros m v t (tcs & exts & -> & _ & Hcs & He) Hwf. wf_split Hwf.
  assert (encodes (BERPacket (Add Sequence (mr_Changes v))) (Cons SequenceIdentifier tcs)).
  { apply (holds_encodes m _ SequenceIdentifier); [|done].
    apply (holds_Add _ _ []); [by apply holds_Constructed|].
    apply (Codec_encodes_all Change_UnmarshalBER m); [done|]. by eapply wf_tlv_cons. }
  unfold BERPacket at 1, ModifyRequest_Packeter, ModifyRequest_BERPacket. encoder m.
Qed.
Next Obligation.
  intros v t (tcs & exts & -> & Hu & Hcs & He). eapply scoped_Decodes; [|done].
  run_next; [by apply Read_Runs, Text_Decodes|].
  run_next; [eapply within_Runs, AllUsing_Runs, (Codec_all Change_UnmarshalBER); exact Hcs|].
  run_next; [eapply extensions_Runs; [exact He|set_solver]|]. destruct v; apply Runs_ret.
Qed.

Definition ModifyDNRequest_repr (v : ModifyDNRequest) (t : tlv) : Prop :=
  exists exts,
    t = Cons modifyDNRequestIdentifier
          ([t_octets (md_Entry v); t_octets (md_NewRDN v); t_bool (md_DeleteOldRDN v)] ++
           opt_tree modifyDNNewSuperiorIdentifier (md_NewSuperior v) ++ exts) /\
    utf8_Valid (md_Entry v) = true /\ utf8_Valid (md_NewRDN v) = true /\
    (forall s, md_NewSuperior v = Some s -> utf8_Valid s = true) /\
    extensions [modifyDNNewSuperiorIdentifier] (md_Extensions v) exts.

#[export, program] Instance ModifyDNRequest_Codec : Codec ModifyDNRequest ModifyDNRequest_UnmarshalBER :=
  {| repr := ModifyDNRequest_repr |}.
Next Obligation.
  intros m v t (exts & -> & _ & _ & _ & He) Hwf. wf_split Hwf.
  unfold BERPacket at 1, ModifyDNRequest_Packeter, ModifyDNRequest_BERPacket. encoder m.
Qed.
Next Obligation.
  intros v t (exts & -> & H1 & H2 & H3 & He). eapply scoped_Decodes; [|done].
  run_next; [by apply Read_Runs, Text_Decodes|].
  run_next; [by apply Read_Runs, Text_Decodes|].
  run_next; [apply Decoder_Boolean_Runs|].
  run_next; [apply pointer_Runs; [intros; apply ReadAs_Runs, Text_Decodes; auto|next_free He]|].
  run_next; [eapply extensions_Runs; [exact He|set_solver]|]. destruct v; apply Runs_ret.
Qed.

Definition CompareRequest_repr (v : CompareRequest) (t : tlv) : Prop :=
  exists ta exts, t = Cons compareRequestIdentifier ([t_octets (cr_Entry v); ta] ++ exts) /\
    utf8_Valid (cr_Entry v) = true /\ AVA_repr SequenceIdentifier (cr_Assertion v) ta /\
    extensions [] (cr_Extensions v) exts.

#[export, program] Instance CompareRequest_Codec : Codec CompareRequest CompareRequest_UnmarshalBER :=
  {| repr := CompareRequest_repr |}.
Next Obligation.
  intros m v t (ta & exts & -> & _ & Ha & He) Hwf. wf_split Hwf.
  assert (encodes (BERPacket (cr_Assertion v)) ta) by
    (by apply (repr_encodes (u := AttributeValueAssertion_UnmarshalBER) m)).
  unfold BERPacket at 1, CompareRequest_Packeter, CompareRequest_BERPacket. encoder m.
Qed.
Next Obligation.
  intros v t (ta & exts & -> & Hu & Ha & He). eapply scoped_Decodes; [|done].
  run_next; [by apply Read_Runs, Text_Decodes|].
  run_next; [by apply Read_Runs, AVA_Decodes|].
  run_next; [eapply extensions_Runs; [exact He|set_solver]|]. destruct v; apply Runs_ret.
Qed.

Definition AbandonRequest_repr (v : AbandonRequest) (t : tlv) : Prop :=
  t = Prim abandonRequestIdentifier (integerBytes (Target v)) /\ 1 <= Target v <= MaxMessageID.

#[export, program] Instance AbandonRequest_Codec : Codec AbandonRequest AbandonRequest_UnmarshalBER :=
  {| repr := AbandonRequest_repr |}.
Next Obligation. intros m v t [-> _] Hwf. by apply (encodes_primitive m). Qed.
Next Obligation.
  intros [target] t [-> Ht]. cbn [Target] in *. unfold MaxMessageID in Ht.
  apply (rooted_Decodes _ _ _ _ ∅).
  - intros rest. run_next; [|apply Runs_ret].
    apply Decoder_IntegerAs_Runs; [done| |lia]. unfold in_type. cbn [it_signed it_bits int32]. lia.
  - unfold AbandonRequest_check, MaxMessageID. cbn [Target].
    replace (target <=? 0) with false by lia. by replace (target >? 2 ^ 31 - 1) with false by lia.
Qed.

(** ** The constructors of operations succeed *)

Lemma mustResponsePattern_ok {T} (u : Unmarshal T) spec : spec_ok spec ->
  NewResponsePattern u spec = Ok (mustResponsePattern u spec) /\
  rp_framing (mustResponsePattern u spec) = pattern_of spec.
Proof.
  intros Hs. unfold mustResponsePattern, NewResponsePattern.
  rewrite (proj2 (newFramingPattern_ok spec (pattern_of spec))) by done. done.
Qed.

Lemma terminal_ok id : application id -> spec_ok (terminal id).
Proof.
  intros Hid. split; [done|]. split; [by constructor|]. apply NoDup_singleton.
Qed.

Lemma newOperation_ok {T} name p controls (responses : ResponsePattern T) c label :
  application (ProtocolIdentifier p) -> valid (rp_framing responses) = true ->
  CancelDrain <= c <= CancelNone -> Forall (fun c => c <> None) controls ->
  newOperation name (Some p) controls responses c label =
  Ok (MkOperation (Some p) controls responses c label).
Proof.
  intros [H1 H2] Hv Hc Hcs. unfold newOperation, Operation_Validate, UntypedOperation_Validate.
  cbn. rewrite H1, H2. unfold FramingPattern_Valid, Framing. cbn. rewrite Hv. cbn.
  replace (c <? CancelDrain) with false by (symmetry; apply Z.ltb_ge; lia).
  replace (c >? CancelNone) with false by (symmetry; rewrite Z.gtb_ltb; apply Z.ltb_ge; lia).
  cbn. by rewrite (proj2 (nilControl_none controls 0)).
Qed.

(** Round trip of the requests: Add, Delete, Modify, ModifyDN, Compare and
    Abandon requests, and the response of each that is an LDAPResult under its
    own tag, decode from their own encoding to the same value, under all limits
    that admit the encoding. *)
Theorem requests_roundtrip `{GoUnicode} :
  (forall v t l, AddRequest_repr v t -> admits l t ->
     decode_message AddRequest_UnmarshalBER (Encode (AddRequest_BERPacket v)) l = Ok v) /\
  (forall v t l, DeleteRequest_repr v t -> admits l t ->
     decode_message DeleteRequest_UnmarshalBER (Encode (DeleteRequest_BERPacket v)) l = Ok v) /\
  (forall v t l, ModifyRequest_repr v t -> admits l t ->
     decode_message ModifyRequest_UnmarshalBER (Encode (ModifyRequest_BERPacket v)) l = Ok v) /\
  (forall v t l, ModifyDNRequest_repr v t -> admits l t ->
     decode_message ModifyDNRequest_UnmarshalBER (Encode (ModifyDNRequest_BERPacket v)) l = Ok v) /\
  (forall v t l, CompareRequest_repr v t -> admits l t ->
     decode_message CompareRequest_UnmarshalBER (Encode (CompareRequest_BERPacket v)) l = Ok v) /\
  (forall v t l, AbandonRequest_repr v t -> admits l t ->
     decode_message AbandonRequest_UnmarshalBER (Encode (AbandonRequest_BERPacket v)) l = Ok v) /\
  (forall id (v : ResultResponse id) t l, id_Constructed id = true -> ResultResponse_repr v t -> admits l t ->
     decode_message (ResultResponse_UnmarshalBER id) (Encode (ResultResponse_BERPacket v)) l = Ok v).
Proof.
  split_and!; [intros v t l..|intros id v t l Hid].
  - exact (Codec_roundtrip AddRequest_UnmarshalBER v t l).
  - exact (Codec_roundtrip DeleteRequest_UnmarshalBER v t l).
  - exact (Codec_roundtrip ModifyRequest_UnmarshalBER v t l).
  - exact (Codec_roundtrip ModifyDNRequest_UnmarshalBER v t l).
  - exact (Codec_roundtrip CompareRequest_UnmarshalBER v t l).
  - exact (Codec_roundtrip AbandonRequest_UnmarshalBER v t l).
  - exact (Codec_roundtrip (H := ResultResponse_Packeter) (ResultResponse_UnmarshalBER id)
             (Codec0 := ResultResponse_Codec id Hid) v t l).
Qed.

Definition sample_modifydn : ModifyDNRequest :=
  MkModifyDNRequest (bs "cn=a,dc=x") (bs "cn=b") true (Some (bs "dc=y")) [].

Lemma requests_roundtrip_witness :
  decode_message ModifyDNRequest_UnmarshalBER (Encode (ModifyDNRequest_BERPacket sample_modifydn)) DefaultLimits
  = Ok sample_modifydn.
Proof.
  eapply (proj1 (proj2 (proj2 (proj2 (requests_roundtrip (H := ascii_unicode))))) sample_modifydn _ DefaultLimits).
  - exists []. split; [reflexivity|]. split; [reflexivity|]. split; [reflexivity|].
    split; [intros s [= <-]; reflexivity|apply extensions_nil].
  - unfold admits. vm_compute. repeat split; intros; discriminate.
Defined.

(** An operation that waits for exactly one response: the identifier [id]
    completes it, and everything else is unexpected. *)
Definition one_response {T} (p : ResponsePattern T) (id : Identifier) : Prop := forall got,
  Classify p got = if bool_decide (got = id) then ClassificationComplete else ClassificationInvalid.

Lemma terminal_one_response {T} (u : Unmarshal T) id : application id ->
  one_response (mustResponsePattern u (terminal id)) id.
Proof.
  intros Hid got. unfold Classify. rewrite (proj2 (mustResponsePattern_ok u _ (terminal_ok _ Hid))).
  rewrite Classify_pattern by (by apply terminal_ok). cbn [terminal Continue Complete].
  rewrite bool_decide_false by (apply not_elem_of_nil).
  by rewrite (bool_decide_ext _ _ (list_elem_of_singleton got id)).
Qed.

(** A constructor that builds a drained one-response operation from every
    request and every list of non-nil controls, and refuses a nil request. *)
Definition constructs {R T} `{Packeter R} (new : option R -> list (option Packet) -> result (Operation T))
    (requestID responseID : Identifier) : Prop :=
  (forall v controls, Forall (fun c => c <> None) controls -> exists op,
     new (Some v) controls = Ok op /\
     op_Protocol op = Some (MkProtocolOperation (BERPacket v) requestID) /\
     op_Controls op = controls /\ op_Cancellation op = CancelDrain /\
     one_response (op_Responses op) responseID) /\
  (forall controls, exists err, new None controls = Err err).

Lemma newOperation_constructs {R T} `{Packeter R} name (u : Unmarshal T) requestID responseID label :
  application requestID -> application responseID ->
  constructs (R := R) (fun request controls =>
    newOperation name ((fun v => MkProtocolOperation (BERPacket v) requestID) <$> request) controls
      (mustResponsePattern u (terminal responseID)) CancelDrain label) requestID responseID.
Proof.
  intros Hreq Hresp. split; [|intros controls; by eexists].
  intros v controls Hcs. eexists. split.
  - apply newOperation_ok; [done| |done|done].
    by rewrite (proj2 (mustResponsePattern_ok u _ (terminal_ok _ Hresp))).
  - split; [done|]. split; [done|]. split; [done|]. by apply terminal_one_response.
Qed.

(** The operation constructors are total on their inputs: from every request
    value and every list of non-nil controls, [NewAddOperation],
    [NewDeleteOperation], [NewModifyOperation], [NewModifyDNOperation] and
    [NewCompareOperation] build a valid operation that carries the encoded
    request under its own tag, keeps the controls, is drained on cancellation
    and is completed by its own response and nothing else; a nil request is an
    error. [NewAbandonOperation] builds an operation without responses that
    cannot be canceled. *)
Theorem operation_constructors `{GoUnicode} :
  constructs NewAddOperation addRequestIdentifier addResponseIdentifier /\
  constructs NewDeleteOperation deleteRequestIdentifier deleteResponseIdentifier /\
  constructs NewModifyOperation modifyRequestIdentifier modifyResponseIdentifier /\
  constructs NewModifyDNOperation modifyDNRequestIdentifier modifyDNResponseIdentifier /\
  constructs NewCompareOperation compareRequestIdentifier compareResponseIdentifier /\
  (forall v controls, Forall (fun c => c <> None) controls -> exists op,
     NewAbandonOperation (Some v) controls = Ok op /\ op_Cancellation op = CancelNone /\
     forall got, Classify (op_Responses op) got = ClassificationInvalid).
Proof.
  split_and!; try (by apply newOperation_constructs).
  intros v controls Hcs. eexists. split; [by apply newOperation_ok|done].
Qed.

Lemma operation_constructors_witness : exists op,
  NewDeleteOperation (Some (MkDeleteRequest (bs "dc=x"))) [] = Ok op /\
  one_response (op_Responses op) deleteResponseIdentifier.
Proof.
  destruct (proj1 (proj1 (proj2 (operation_constructors (H := ascii_unicode)))) (MkDeleteRequest (bs "dc=x")) [])
    as (op & H1 & _ & _ & _ & H2); [apply Forall_nil_2|].
  exists op. split; [exact H1|exact H2].
Defined.
