(* ===== verification/Search.v ===== *)
(** * Search

    Models src/rfc4511/search.go: the request with its time and size limits,
    the three response alternatives, the SearchResult CHOICE and the operation. *)

From S2P Require Import Prelude Wire Packet Reader Decoder Types Protocol Result Attributes.
From S2P Require Import Filter Operations.

Definition searchRequestIdentifier := applicationConstructed 3.
Definition searchEntryIdentifier := applicationConstructed 4.
Definition searchDoneIdentifier := applicationConstructed 5.
Definition searchReferenceIdentifier := applicationConstructed 19.

Definition SearchScope := Z.
Definition ScopeBaseObject : SearchScope := 0.
Definition ScopeSingleLevel : SearchScope := 1.
Definition ScopeWholeSubtree : SearchScope := 2.

Definition DerefAliases := Z.
Definition DerefNever : DerefAliases := 0.
Definition DerefSearching : DerefAliases := 1.
Definition DerefFindingBase : DerefAliases := 2.
Definition DerefAlways : DerefAliases := 3.

(** [time.Second]: a duration is an [int64] of nanoseconds. *)
Definition Second : Z := 1000000000.

Record SearchRequest := MkSearchRequest {
  sr_BaseObject : LDAPDN;
  sr_Scope : SearchScope;
  sr_DerefAliases : DerefAliases;
  sr_SizeLimit : Z;
  sr_TimeLimit : Z;
  sr_TypesOnly : bool;
  sr_Filter : Filter;
  sr_Attributes : AttributeSelectors;
  sr_Extensions : list UnknownField
}.

Definition SearchRequest_BERPacket (v : SearchRequest) : Packet :=
  let timeLimit := Z.quot (sr_TimeLimit v) Second in
  BERPacket
    (Add (Add (Add (Add (Constructed searchRequestIdentifier)
       [OctetString (sr_BaseObject v); Enumerated (sr_Scope v); Enumerated (sr_DerefAliases v);
        Integer (sr_SizeLimit v); Integer timeLimit; Boolean (sr_TypesOnly v)])
       [sr_Filter v]) [sr_Attributes v]) (sr_Extensions v)).
#[export] Instance SearchRequest_Packeter : Packeter SearchRequest := SearchRequest_BERPacket.

Definition decodeSearchTimeLimit : Unmarshal Z := fun r =>
  match rooted (Decoder_Integer int64) no_check r with
  | (Err err, r) => (Err err, r)
  | (Ok seconds, r) =>
      if (seconds >? MaxInt32) || (seconds <? Z.quot MinInt64 Second)
      then (Err (ErrorString "arden: search time limit is outside representable bounds"), r)
      else (Ok (conv int64 (seconds * Second)), r)
  end.

Definition validateDerefAliases (value : DerefAliases) : option error :=
  if (value <? DerefNever) || (value >? DerefAlways)
  then Some (FormatError "arden: invalid derefAliases value %d" [[value]])
  else None.

Definition SearchRequest_check (v : SearchRequest) : option error :=
  match validateDerefAliases (sr_DerefAliases v) with
  | Some err => Some err
  | None =>
      if sr_SizeLimit v >? MaxInt32
      then Some (ErrorString "arden: search size limit is outside maxInt")
      else None
  end.

Definition SearchRequest_UnmarshalBER : Unmarshal SearchRequest :=
  scoped searchRequestIdentifier
    (baseObject ← Read LDAPDN_UnmarshalBER;
     scope ← Decoder_Enumerated int64;
     derefAliases ← Decoder_Enumerated int64;
     sizeLimit ← Decoder_Integer uint32;
     timeLimit ← Using decodeSearchTimeLimit;
     typesOnly ← Decoder_Boolean;
     filter ← Using decodeFilter;
     attributes ← Read AttributeSelectors_UnmarshalBER;
     exts ← Extensions UnknownField_UnmarshalBER [];
     mret (MkSearchRequest baseObject scope derefAliases sizeLimit timeLimit typesOnly
             filter attributes exts))
    SearchRequest_check.

(** ** Responses *)

Record SearchResultEntry := MkSearchResultEntry {
  se_ObjectName : LDAPDN;
  se_Attributes : Attributes;
  se_Extensions : list UnknownField
}.
#[export] Instance Zero_SearchResultEntry : Zero SearchResultEntry := MkSearchResultEntry [] None [].

Definition SearchResultEntry_BERPacket (v : SearchResultEntry) : Packet :=
  BERPacket (Add (Add (Constructed searchEntryIdentifier)
                      [OctetString (se_ObjectName v); Attributes_BERPacket (se_Attributes v)])
                 (se_Extensions v)).
#[export] Instance SearchResultEntry_Packeter : Packeter SearchResultEntry := SearchResultEntry_BERPacket.

Definition SearchResultEntry_UnmarshalBER `{GoUnicode} : Unmarshal SearchResultEntry :=
  scoped searchEntryIdentifier
    (objectName ← Read LDAPDN_UnmarshalBER;
     attributes ← Read Attributes_UnmarshalBER;
     exts ← Extensions UnknownField_UnmarshalBER [];
     mret (MkSearchResultEntry objectName attributes exts)) no_check.

Record SearchResultReference := MkSearchResultReference {
  ref_URIs : list URI;
  ref_Extensions : list UnknownField
}.
#[export] Instance Zero_SearchResultReference : Zero SearchResultReference := MkSearchResultReference [] [].

Definition SearchResultReference_BERPacket (v : SearchResultReference) : Packet :=
  BERPacket (Add (Add (Constructed searchReferenceIdentifier) (map MkOctets (ref_URIs v)))
                 (ref_Extensions v)).
#[export] Instance SearchResultReference_Packeter : Packeter SearchResultReference :=
  SearchResultReference_BERPacket.

Definition SearchResultReference_check (v : SearchResultReference) : option error :=
  if len (ref_URIs v) =? 0
  then Some (ErrorString "arden: search result reference requires at least one URI")
  else None.

Definition SearchResultReference_UnmarshalBER : Unmarshal SearchResultReference :=
  scoped searchReferenceIdentifier
    (uris ← whileNext OctetStringIdentifier (Read URI_UnmarshalBER);
     exts ← Extensions UnknownField_UnmarshalBER [OctetStringIdentifier];
     mret (MkSearchResultReference uris exts))
    SearchResultReference_check.

Definition SearchResultDone := ResultResponse searchDoneIdentifier.
Definition SearchResultDone_UnmarshalBER : Unmarshal SearchResultDone :=
  ResultResponse_UnmarshalBER searchDoneIdentifier.

(** The sealed interface [SearchResultValue]; [None] is the nil interface. *)
Inductive SearchResultValue :=
| SearchEntry (v : SearchResultEntry)
| SearchReference (v : SearchResultReference)
| SearchDone (v : SearchResultDone).

Record SearchResult := MkSearchResult { sres_value : option SearchResultValue }.

Definition unexpectedChoice (format : string) (id : Identifier) : error :=
  FormatError format [bs (Identifier_String id)].

Definition SearchResult_switch `{GoUnicode} (id : Identifier) : DM SearchResult :=
  if bool_decide (id = searchEntryIdentifier) then
    v ← Read SearchResultEntry_UnmarshalBER; mret (MkSearchResult (Some (SearchEntry v)))
  else if bool_decide (id = searchReferenceIdentifier) then
    v ← Read SearchResultReference_UnmarshalBER; mret (MkSearchResult (Some (SearchReference v)))
  else if bool_decide (id = searchDoneIdentifier) then
    v ← Read SearchResultDone_UnmarshalBER; mret (MkSearchResult (Some (SearchDone v)))
  else
    _ ← Decoder_Fail (unexpectedChoice "arden: unexpected SearchResult identifier %s" id);
    mret (MkSearchResult None).

Definition SearchResult_UnmarshalBER `{GoUnicode} : Unmarshal SearchResult :=
  rooted (id ← Decoder_PeekIdentifier; SearchResult_switch id) no_check.

(** ** The operation *)

Definition searchResponseSpec : ResponseSpec :=
  MkResponseSpec [searchEntryIdentifier; searchReferenceIdentifier] [searchDoneIdentifier] false.
Definition searchResponsePattern `{GoUnicode} : ResponsePattern SearchResult :=
  mustResponsePattern SearchResult_UnmarshalBER searchResponseSpec.

Definition NewSearchOperation `{GoUnicode} (request : option SearchRequest)
    (controls : list (option Packet)) : result (Operation SearchResult) :=
  newOperation "SearchRequest"
    ((fun v => MkProtocolOperation (BERPacket v) searchRequestIdentifier) <$> request)
    controls searchResponsePattern CancelAbandon "ldap.search".

(** ** The time limit *)

(** Durations of whole seconds that LDAP and [time.Duration] both represent. *)
Definition time_limit_ok (limit : Z) : Prop :=
  exists seconds, limit = seconds * Second /\ Z.quot MinInt64 Second <= seconds <= MaxInt32.

Lemma time_limit_seconds seconds : Z.quot MinInt64 Second <= seconds <= MaxInt32 ->
  in_type int64 seconds = true /\ conv int64 (seconds * Second) = seconds * Second /\
  Z.quot (seconds * Second) Second = seconds.
Proof.
  intros Hs. change (Z.quot MinInt64 Second) with (-9223372036) in Hs. unfold MaxInt32, Second in *.
  split; [unfold in_type; cbn [it_signed it_bits int64]; lia|]. split.
  - apply conv_id; [done|]. unfold in_type. cbn [it_signed it_bits int64]. lia.
  - apply Z.quot_mul. lia.
Qed.

Lemma decodeSearchTimeLimit_Decodes limit : time_limit_ok limit ->
  Decodes decodeSearchTimeLimit (t_int (Z.quot limit Second)) limit.
Proof.
  intros (seconds & -> & Hs) r rest Hr Hu Hf Hi.
  destruct (time_limit_seconds seconds Hs) as (H1 & H2 & H3). rewrite H3 in *.
  unfold decodeSearchTimeLimit.
  rewrite (rooted_Decodes (Decoder_Integer int64) no_check (t_int seconds) seconds ∅
             (fun rest => Integer_Runs rest seconds [] ∅ H1) eq_refl r rest) by done.
  replace (seconds >? MaxInt32) with false by lia.
  replace (seconds <? Z.quot MinInt64 Second) with false by lia. simpl. by rewrite H2.
Qed.

(** ** The messages are codecs *)

Definition SearchRequest_repr (v : SearchRequest) (t : tlv) : Prop :=
  exists tf ta exts,
    t = Cons searchRequestIdentifier
          ([t_octets (sr_BaseObject v); t_enum (sr_Scope v); t_enum (sr_DerefAliases v);
            t_int (sr_SizeLimit v); t_int (Z.quot (sr_TimeLimit v) Second);
            t_bool (sr_TypesOnly v); tf; ta] ++ exts) /\
    utf8_Valid (sr_BaseObject v) = true /\ in_type int64 (sr_Scope v) = true /\
    DerefNever <= sr_DerefAliases v <= DerefAlways /\ 0 <= sr_SizeLimit v <= MaxInt32 /\
    time_limit_ok (sr_TimeLimit v) /\ Filter_repr (sr_Filter v) tf /\
    AttributeSelectors_repr (sr_Attributes v) ta /\ extensions [] (sr_Extensions v) exts.

#[export, program] Instance SearchRequest_Codec : Codec SearchRequest SearchRequest_UnmarshalBER :=
  {| repr := SearchRequest_repr |}.
Next Obligation.
  intros m v t (tf & ta & exts & -> & _ & _ & _ & _ & _ & Hf & Ha & He) Hwf. wf_split Hwf.
  assert (encodes (BERPacket (sr_Filter v)) tf) by (by apply (Filter_encodes m)).
  assert (encodes (BERPacket (sr_Attributes v)) ta) by
    (by apply (repr_encodes (u := AttributeSelectors_UnmarshalBER) m)).
  unfold BERPacket at 1, SearchRequest_Packeter, SearchRequest_BERPacket. encoder m.
Qed.
Next Obligation.
  intros v t (tf & ta & exts & -> & Hu & Hsc & Hd & Hsz & Ht & Hf & Ha & He).
  eapply scoped_Decodes.
  - run_next; [by apply Read_Runs, Text_Decodes|].
    run_next; [by apply Enumerated_Runs|].
    run_next; [apply Enumerated_Runs|].
    { unfold DerefNever, DerefAlways in Hd. unfold in_type. cbn [it_signed it_bits int64]. lia. }
    run_next; [apply Decoder_IntegerAs_Runs; [done| |]|].
    { unfold MaxInt32 in Hsz. unfold in_type. cbn [it_signed it_bits uint32]. lia. }
    { unfold MaxInt32 in Hsz. lia. }
    run_next; [by apply Using_Runs, decodeSearchTimeLimit_Decodes|].
    run_next; [apply Decoder_Boolean_Runs|].
    run_next; [by apply Using_Runs, Filter_Decodes|].
    run_next; [by apply Read_Runs, (repr_decodes (u := AttributeSelectors_UnmarshalBER))|].
    run_next; [eapply extensions_Runs; [exact He|set_solver]|]. destruct v; apply Runs_ret.
  - unfold SearchRequest_check, validateDerefAliases. unfold DerefNever, DerefAlways in *.
    destruct v. cbn [sr_DerefAliases sr_SizeLimit] in *.
    replace (_ <? 0) with false by (symmetry; apply Z.ltb_ge; lia).
    replace (_ >? 3) with false by (symmetry; rewrite Z.gtb_ltb; apply Z.ltb_ge; lia). cbn [orb].
    by replace (_ >? MaxInt32) with false by (symmetry; rewrite Z.gtb_ltb; apply Z.ltb_ge; lia).
Qed.

Section search_responses.
Context `{GoUnicode}.

Definition SearchResultEntry_repr (v : SearchResultEntry) (t : tlv) : Prop :=
  exists ta exts, t = Cons searchEntryIdentifier ([t_octets (se_ObjectName v); ta] ++ exts) /\
    utf8_Valid (se_ObjectName v) = true /\ Attributes_repr (se_Attributes v) ta /\
    extensions [] (se_Extensions v) exts.

#[export, program] Instance SearchResultEntry_Codec :
    Codec SearchResultEntry SearchResultEntry_UnmarshalBER :=
  {| repr := SearchResultEntry_repr |}.
Next Obligation.
  intros m v t (ta & exts & -> & _ & Ha & He) Hwf. wf_split Hwf.
  assert (encodes (Attributes_BERPacket (se_Attributes v)) ta) by
    (by apply (repr_encodes (u := Attributes_UnmarshalBER) m)).
  unfold BERPacket at 1, SearchResultEntry_Packeter, SearchResultEntry_BERPacket. encoder m.
Qed.
Next Obligation.
  intros v t (ta & exts & -> & Hu & Ha & He). eapply scoped_Decodes; [|done].
  run_next; [by apply Read_Runs, Text_Decodes|].
  run_next; [by apply Read_Runs, (repr_decodes (u := Attributes_UnmarshalBER))|].
  run_next; [eapply extensions_Runs; [exact He|set_solver]|]. destruct v; apply Runs_ret.
Qed.

Definition SearchResultReference_repr (v : SearchResultReference) (t : tlv) : Prop :=
  exists exts, t = Cons searchReferenceIdentifier (map t_octets (ref_URIs v) ++ exts) /\
    Forall (fun u => utf8_Valid u = true) (ref_URIs v) /\ ref_URIs v <> [] /\
    extensions [OctetStringIdentifier] (ref_Extensions v) exts.

Lemma uris_Runs uris R : Forall (fun u => utf8_Valid u = true) uris ->
  Forall2 (fun t v => tid t = OctetStringIdentifier /\
             forall ts, Runs [] (Read URI_UnmarshalBER) (t :: ts) R v ts R) (map t_octets uris) uris.
Proof.
  induction 1; simpl; constructor; [|done]. split; [done|]. intros. by apply Read_Runs, Text_Decodes.
Qed.

#[export, program] Instance SearchResultReference_Codec :
    Codec SearchResultReference SearchResultReference_UnmarshalBER :=
  {| repr := SearchResultReference_repr |}.
Next Obligation.
  intros m v t (exts & -> & _ & _ & He) Hwf. wf_split Hwf.
  unfold BERPacket at 1, SearchResultReference_Packeter, SearchResultReference_BERPacket. encoder m.
Qed.
Next Obligation.
  intros v t (exts & -> & Hu & Hne & He). eapply scoped_Decodes.
  - run_next; [apply whileNext_Runs; [by apply uris_Runs|next_free He]|].
    run_next; [eapply extensions_Runs; [exact He|set_solver]|]. destruct v; apply Runs_ret.
  - unfold SearchResultReference_check. destruct v as [[|u us] es]; [done|]. cbn [ref_URIs].
    rewrite len_cons. pose proof (len_nonneg us). by replace (1 + len us =? 0) with false by lia.
Qed.

(** The alternatives of a search response. *)
Definition SearchResultValue_BERPacket (v : SearchResultValue) : Packet :=
  match v with
  | SearchEntry v => SearchResultEntry_BERPacket v
  | SearchReference v => SearchResultReference_BERPacket v
  | SearchDone v => ResultResponse_BERPacket v
  end.

Definition SearchResultValue_repr (v : SearchResultValue) (t : tlv) : Prop :=
  match v with
  | SearchEntry v => SearchResultEntry_repr v t
  | SearchReference v => SearchResultReference_repr v t
  | SearchDone v => ResultResponse_repr v t
  end.

Definition search_class (v : SearchResultValue) : Classification :=
  match v with SearchDone _ => ClassificationComplete | _ => ClassificationContinue end.

Lemma SearchResult_tid v t : SearchResultValue_repr v t ->
  tid t = match v with
          | SearchEntry _ => searchEntryIdentifier
          | SearchReference _ => searchReferenceIdentifier
          | SearchDone _ => searchDoneIdentifier
          end.
Proof. destruct v; [by intros (? & ? & -> & _)|by intros (? & -> & _)..]. Qed.

Lemma SearchResult_encodes m v t : SearchResultValue_repr v t -> wf_tlv m t = true ->
  encodes (SearchResultValue_BERPacket v) t.
Proof.
  destruct v as [v|v|v]; intros Hr Hwf.
  - by apply (repr_encodes (u := SearchResultEntry_UnmarshalBER) m).
  - by apply (repr_encodes (u := SearchResultReference_UnmarshalBER) m).
  - by apply (resultResponse_encodes m searchDoneIdentifier).
Qed.

Lemma SearchResult_Decodes v t : SearchResultValue_repr v t ->
  Decodes SearchResult_UnmarshalBER t (MkSearchResult (Some v)).
Proof.
  intros Hr. apply choice_Decodes. intros rest. rewrite (SearchResult_tid _ _ Hr).
  destruct v as [v|v|v]; unfold SearchResult_switch.
  - rewrite bool_decide_true by done. run_next; [|apply Runs_ret].
    by apply Read_Runs, (repr_decodes (u := SearchResultEntry_UnmarshalBER)).
  - rewrite bool_decide_false, bool_decide_true by done. run_next; [|apply Runs_ret].
    by apply Read_Runs, (repr_decodes (u := SearchResultReference_UnmarshalBER)).
  - rewrite !bool_decide_false, bool_decide_true by done. run_next; [|apply Runs_ret].
    by apply Read_Runs, ResultResponse_Decodes.
Qed.

Lemma searchResponseSpec_ok : spec_ok searchResponseSpec.
Proof.
  split; [done|]. split; [repeat constructor|]. by apply (bool_decide_unpack _).
Qed.

(** A typed response, decoded through its pattern. *)
Lemma pattern_decodes {T} (u : Unmarshal T) spec (response : Response) t v l :
  spec_ok spec -> rsp_ProtocolID response = tid t -> tid t ∈ Continue spec ++ Complete spec ->
  rsp_Protocol response = enc t -> Decodes u t v -> admits l t ->
  Decode (mustResponsePattern u spec) response l = Ok v.
Proof.
  intros Hs Hid Hin Hp Hv Hl. destruct (mustResponsePattern_ok u spec Hs) as [Hnew _].
  rewrite (Decode_pattern u spec _ response l Hnew) by (by rewrite Hid).
  unfold UnmarshalProtocol. rewrite Hp. pose proof (enc_nonempty t).
  replace (len (enc t) =? 0) with false by lia. by apply Decodes_message.
Qed.

(** Search responses survive the wire: any representable entry, reference
    or done response, encoded by its [BERPacket] and delivered as the protocol
    bytes of a response, is decoded by the Search pattern to the same
    alternative, and its identifier is classified as continuing exactly for
    entries and references and as terminal for done. *)
Theorem search_response_roundtrip v t l response :
  SearchResultValue_repr v t -> admits l t ->
  rsp_ProtocolID response = tid t ->
  rsp_Protocol response = Encode (SearchResultValue_BERPacket v) ->
  Decode searchResponsePattern response l = Ok (MkSearchResult (Some v)) /\
  Classify searchResponsePattern (rsp_ProtocolID response) = search_class v.
Proof.
  intros Hr Hl Hid Hp. destruct (SearchResult_encodes _ v t Hr (proj1 (proj2 Hl))) as [He _].
  pose proof (SearchResult_tid _ _ Hr) as Ht. split.
  - eapply pattern_decodes; [apply searchResponseSpec_ok|done| |congruence|by apply SearchResult_Decodes|done].
    rewrite Ht. destruct v; set_solver.
  - rewrite Hid, Ht. unfold Classify, searchResponsePattern.
    rewrite (proj2 (mustResponsePattern_ok _ _ searchResponseSpec_ok)).
    by destruct v.
Qed.

End search_responses.


Definition sample_entry : SearchResultValue :=
  SearchEntry (MkSearchResultEntry (bs "uid=ada,dc=example")
    (NewAttributes (H := ascii_unicode) [MkAttribute (bs "cn") [bs "Ada"; bs "Lovelace"] [];
                                         MkAttribute (bs "mail") [bs "ada@example"] []]) []).

Definition sample_entry_tree : tlv :=
  Cons searchEntryIdentifier
    [t_octets (bs "uid=ada,dc=example");
     Cons SequenceIdentifier
       [Cons SequenceIdentifier [t_octets (bs "cn");
          Cons SetIdentifier [t_octets (bs "Ada"); t_octets (bs "Lovelace")]];
        Cons SequenceIdentifier [t_octets (bs "mail");
          Cons SetIdentifier [t_octets (bs "ada@example")]]]].

Lemma sample_entry_repr : SearchResultValue_repr (H := ascii_unicode) sample_entry sample_entry_tree.
Proof.
  exists (Cons SequenceIdentifier
       [Cons SequenceIdentifier [t_octets (bs "cn");
          Cons SetIdentifier [t_octets (bs "Ada"); t_octets (bs "Lovelace")]];
        Cons SequenceIdentifier [t_octets (bs "mail");
          Cons SetIdentifier [t_octets (bs "ada@example")]]]), [].
  split; [done|]. split; [done|]. split; [|apply extensions_nil].
  eexists _, _. split; [reflexivity|]. split.
  - unfold distinct_keys. by apply (bool_decide_unpack _).
  - split; [reflexivity|]. repeat constructor; exists []; (split; [done|]);
      (split; [done|]); (split; [done|apply extensions_nil]).
Qed.

Lemma search_response_roundtrip_witness :
  Decode (searchResponsePattern (H := ascii_unicode))
    (MkResponse 2 searchEntryIdentifier [] (Encode (SearchResultValue_BERPacket sample_entry)) [] [])
    DefaultLimits = Ok (MkSearchResult (Some sample_entry)).
Proof.
  apply (search_response_roundtrip (H := ascii_unicode) sample_entry sample_entry_tree DefaultLimits).
  - exact sample_entry_repr.
  - unfold admits. vm_compute. repeat split; intros; discriminate.
  - reflexivity.
  - reflexivity.
Defined.

(** A search request survives the wire, with its limits: for every
    representable request (scope any 64-bit value, a declared alias policy, a
    size limit up to [maxInt], a whole-second time limit in the bounds that
    [decodeSearchTimeLimit] checks, any representable filter and selectors)
    decoding the encoded request returns the same request; the multiplication
    to nanoseconds does not overflow. *)
Theorem search_request_roundtrip v t l : SearchRequest_repr v t -> admits l t ->
  decode_message SearchRequest_UnmarshalBER (Encode (SearchRequest_BERPacket v)) l = Ok v.
Proof. exact (Codec_roundtrip SearchRequest_UnmarshalBER v t l). Qed.

Definition sample_request : SearchRequest :=
  MkSearchRequest (bs "dc=example") ScopeWholeSubtree DerefNever 500 (30 * Second) false
    sample_filter (NewAttributeSelectors [bs "cn"; bs "mail"]) [].

Lemma search_request_roundtrip_witness :
  decode_message SearchRequest_UnmarshalBER (Encode (SearchRequest_BERPacket sample_request)) DefaultLimits
  = Ok sample_request.
Proof.
  eapply (search_request_roundtrip _ _ DefaultLimits).
  - exists sample_tree, (Cons SequenceIdentifier (map t_octets [bs "cn"; bs "mail"])), [].
    split; [reflexivity|]. split; [reflexivity|]. split; [reflexivity|].
    split; [split; discriminate|]. split; [split; discriminate|].
    split; [exists 30; split; [reflexivity|split; discriminate]|].
    split; [exact sample_filter_repr|].
    split; [exists [bs "cn"; bs "mail"]; split; [reflexivity|]; split; [reflexivity|repeat constructor]|].
    apply extensions_nil.
  - unfold admits. vm_compute. repeat split; intros; discriminate.
Defined.
