(* ===== verification/Bind.v ===== *)
(** * Bind and Unbind

    Models src/rfc4511/bind.go: the authentication CHOICE, requests, the bind
    response and the two operations. *)

From S2P Require Import Prelude Wire Packet Reader Decoder Types Protocol Result Attributes.
From S2P Require Import Operations.

Definition bindRequestIdentifier := applicationConstructed 0.
Definition bindResponseIdentifier := applicationConstructed 1.
Definition unbindRequestIdentifier := applicationPrimitive 2.
Definition simpleAuthenticationIdentifier := contextPrimitive 0.
Definition saslAuthenticationIdentifier := contextConstructed 3.
Definition serverSASLCredentialsIdentifier := contextPrimitive 7.

Record SASLAuthentication := MkSASL {
  sasl_Mechanism : LDAPString;
  sasl_Credentials : bytes;
  sasl_HasCredentials : bool;
  sasl_Extensions : list UnknownField
}.
#[export] Instance Zero_SASL : Zero SASLAuthentication := MkSASL [] [] false [].

(** The interface [AuthenticationChoice] with the types of this package.
    [ForeignAuthentication] is an implementation of another package, known by
    its packet; [NilAuthentication] is the nil interface, which the decoders
    return with an error and which no theorem encodes. *)
Inductive AuthenticationChoice :=
| SimpleAuthentication (v : bytes)
| SASL (v : SASLAuthentication)
| UnknownAuthentication (v : UnknownField)
| ForeignAuthentication (packet : Packet)
| NilAuthentication.
#[export] Instance Zero_Authentication : Zero AuthenticationChoice := NilAuthentication.

Definition SASLAuthentication_BERPacket (v : SASLAuthentication) : Packet :=
  let authentication := Add (Constructed saslAuthenticationIdentifier) [OctetString (sasl_Mechanism v)] in
  let authentication := if sasl_HasCredentials v
                        then Add authentication [OctetString (sasl_Credentials v)]
                        else authentication in
  BERPacket (Add authentication (sasl_Extensions v)).

Definition AuthenticationChoice_BERPacket (v : AuthenticationChoice) : Packet :=
  match v with
  | SimpleAuthentication v => Primitive simpleAuthenticationIdentifier v
  | SASL v => SASLAuthentication_BERPacket v
  | UnknownAuthentication v => Encoded (uf_raw v)
  | ForeignAuthentication p => p
  | NilAuthentication => Encoded []
  end.
#[export] Instance AuthenticationChoice_Packeter : Packeter AuthenticationChoice :=
  AuthenticationChoice_BERPacket.

Definition SimpleAuthentication_UnmarshalBER : Unmarshal bytes :=
  rooted (Decoder_Primitive simpleAuthenticationIdentifier) no_check.

Definition SASLAuthentication_UnmarshalBER : Unmarshal SASLAuthentication :=
  scoped saslAuthenticationIdentifier
    (mechanism ← Read LDAPString_UnmarshalBER;
     '(credentials, hasCredentials) ← optional OctetStringIdentifier
        (credentials ← Decoder_OctetString; mret (credentials, true)) ([], false);
     exts ← Extensions UnknownField_UnmarshalBER [OctetStringIdentifier];
     mret (MkSASL mechanism credentials hasCredentials exts))
    (fun decoded => requireNonEmpty "SASL mechanism" (sasl_Mechanism decoded)).

Definition authenticationClassError (id : Identifier) : error :=
  FormatError "arden: authentication identifier %s is not context-specific" [bs (Identifier_String id)].

Definition decodeAuthentication_switch (id : Identifier) : DM AuthenticationChoice :=
  if bool_decide (id = simpleAuthenticationIdentifier) then
    v ← Read SimpleAuthentication_UnmarshalBER; mret (SimpleAuthentication v)
  else if bool_decide (id = saslAuthenticationIdentifier) then
    v ← Read SASLAuthentication_UnmarshalBER; mret (SASL v)
  else
    _ ← (if negb (id_Class id =? ClassContextSpecific)
         then Decoder_Fail (authenticationClassError id) else mret tt);
    field ← Read UnknownField_UnmarshalBER;
    mret (UnknownAuthentication field).

Definition decodeAuthentication : Unmarshal AuthenticationChoice :=
  rooted (id ← Decoder_PeekIdentifier; decodeAuthentication_switch id) no_check.

(** ** Requests *)

Record BindRequest := MkBindRequest {
  br_Version : Z;
  br_Name : LDAPDN;
  br_Authentication : AuthenticationChoice;
  br_Extensions : list UnknownField
}.

Definition BindRequest_BERPacket (v : BindRequest) : Packet :=
  BERPacket (Add (Add (Add (Constructed bindRequestIdentifier)
                           [Integer (br_Version v); OctetString (br_Name v)])
                      [br_Authentication v])
                 (br_Extensions v)).
#[export] Instance BindRequest_Packeter : Packeter BindRequest := BindRequest_BERPacket.

Definition BindRequest_check (v : BindRequest) : option error :=
  if (br_Version v <? 1) || (br_Version v >? 127)
  then Some (FormatError "arden: BindRequest version %d is outside [1, 127]" [[br_Version v]])
  else None.

Definition BindRequest_UnmarshalBER : Unmarshal BindRequest :=
  scoped bindRequestIdentifier
    (version ← Decoder_Integer int64;
     name ← Read LDAPDN_UnmarshalBER;
     authentication ← Using decodeAuthentication;
     exts ← Extensions UnknownField_UnmarshalBER [];
     mret (MkBindRequest version name authentication exts))
    BindRequest_check.

(** [UnbindRequest] has no fields. *)
Definition UnbindRequest_BERPacket : Packet := Primitive unbindRequestIdentifier [].
Definition UnbindRequest_UnmarshalBER : Unmarshal unit :=
  rooted (Decoder_NullAs unbindRequestIdentifier) no_check.

(** ** Response *)

Record BindResponse := MkBindResponse {
  bind_Result : LDAPResult;
  ServerSASLCredentials : bytes;
  HasServerSASLCredentials : bool;
  bind_Extensions : list UnknownField
}.
#[export] Instance Zero_BindResponse : Zero BindResponse := MkBindResponse zero [] false [].

Definition BindResponse_BERPacket (v : BindResponse) : Packet :=
  let response := addPrefix (bind_Result v) (Constructed bindResponseIdentifier) in
  let response := if HasServerSASLCredentials v
                  then Add response [implicitOctetsPacket serverSASLCredentialsIdentifier
                                       (ServerSASLCredentials v)]
                  else response in
  BERPacket (Add response (bind_Extensions v)).
#[export] Instance BindResponse_Packeter : Packeter BindResponse := BindResponse_BERPacket.

Definition BindResponse_UnmarshalBER : Unmarshal BindResponse :=
  scoped bindResponseIdentifier
    (result ← Embed LDAPResult_UnmarshalBERFields;
     '(credentials, hasCredentials) ← optional serverSASLCredentialsIdentifier
        (credentials ← Decoder_Primitive serverSASLCredentialsIdentifier; mret (credentials, true))
        ([], false);
     exts ← Extensions UnknownField_UnmarshalBER [serverSASLCredentialsIdentifier];
     mret (MkBindResponse result credentials hasCredentials exts)) no_check.

Definition bindResponsePattern : ResponsePattern BindResponse :=
  mustResponsePattern BindResponse_UnmarshalBER (terminal bindResponseIdentifier).
Definition unbindResponsePattern : ResponsePattern unit := NewNoResponsePattern.

Definition NewBindOperation (request : option BindRequest) (controls : list (option Packet))
    : result (Operation BindResponse) :=
  newOperation "BindRequest"
    ((fun v => MkProtocolOperation (BERPacket v) bindRequestIdentifier) <$> request)
    controls bindResponsePattern CancelClose "ldap.bind".

Definition NewUnbindOperation (request : option unit) (controls : list (option Packet))
    : result (Operation unit) :=
  newOperation "UnbindRequest"
    ((fun _ => MkProtocolOperation UnbindRequest_BERPacket unbindRequestIdentifier) <$> request)
    controls unbindResponsePattern CancelClose "ldap.unbind".

(** ** Codecs *)

Definition SASL_repr (v : SASLAuthentication) (t : tlv) : Prop :=
  exists exts,
    t = Cons saslAuthenticationIdentifier
          (t_octets (sasl_Mechanism v) :: when (sasl_HasCredentials v) (t_octets (sasl_Credentials v)) ++ exts) /\
    utf8_Valid (sasl_Mechanism v) = true /\ sasl_Mechanism v <> [] /\
    (sasl_HasCredentials v = false -> sasl_Credentials v = []) /\
    extensions [OctetStringIdentifier] (sasl_Extensions v) exts.

Lemma SASL_encodes m v t : SASL_repr v t -> wf_tlv m t = true ->
  encodes (SASLAuthentication_BERPacket v) t.
Proof.
  intros (exts & -> & _ & _ & _ & He) Hwf. wf_split Hwf.
  unfold SASLAuthentication_BERPacket. encoder m.
Qed.

(** An optional byte string with its presence flag. *)
Lemma flagged_Runs id (m : DM bytes) (v : bytes) (b : bool) ts R :
  (forall ts, Runs [] m (Prim id v :: ts) R v ts R) -> (b = false -> v = []) ->
  next_is id ts = false ->
  Runs [] (optional id (v ← m; mret (v, true)) ([], false)) (when b (Prim id v) ++ ts) R (v, b) ts R.
Proof.
  intros Hm Hv Hn. apply optional_Runs; [done| | |done].
  - intros ->. run_next; [apply Hm|apply Runs_ret].
  - intros E. by rewrite E, Hv.
Qed.

Lemma SASL_Decodes v t : SASL_repr v t -> Decodes SASLAuthentication_UnmarshalBER t v.
Proof.
  intros (exts & -> & Hu & Hne & Hc & He). eapply scoped_Decodes; [|by apply requireNonEmpty_ok].
  run_next; [by apply Read_Runs, Text_Decodes|].
  eapply Runs_bind with (a := (sasl_Credentials v, sasl_HasCredentials v)).
  { apply flagged_Runs; [intros; apply Decoder_Primitive_Runs|done|next_free He]. }
  run_next; [eapply extensions_Runs; [exact He|set_solver]|]. destruct v; apply Runs_ret.
Qed.

Inductive Authentication_repr : AuthenticationChoice -> tlv -> Prop :=
| repr_Simple v : Authentication_repr (SimpleAuthentication v) (Prim simpleAuthenticationIdentifier v)
| repr_SASL v t : SASL_repr v t -> Authentication_repr (SASL v) t
| repr_UnknownAuth f t : UnknownField_repr f t -> id_Class (tid t) = ClassContextSpecific ->
    tid t ∉ [simpleAuthenticationIdentifier; saslAuthenticationIdentifier] ->
    Authentication_repr (UnknownAuthentication f) t.

Lemma Authentication_encodes m v t : Authentication_repr v t -> wf_tlv m t = true ->
  encodes (AuthenticationChoice_BERPacket v) t.
Proof.
  intros Hr Hwf. destruct Hr as [v|v t Hv|f t [Hf _] _ _]; cbn [AuthenticationChoice_BERPacket].
  - by apply (encodes_primitive m).
  - by apply (SASL_encodes m).
  - by apply encodes_Encoded.
Qed.

Lemma Authentication_Decodes v t : Authentication_repr v t -> Decodes decodeAuthentication t v.
Proof.
  intros Hr. apply choice_Decodes. intros rest. destruct Hr as [v|v t Hv|f t Hf Hc Hk];
    unfold decodeAuthentication_switch.
  - rewrite bool_decide_true by done. run_next; [|apply Runs_ret]. apply Read_Runs.
    apply (rooted_Decodes _ _ _ _ ∅); [|done]. intros. apply Decoder_Primitive_Runs.
  - replace (tid t) with saslAuthenticationIdentifier by (by destruct Hv as (? & -> & _)).
    rewrite bool_decide_false, bool_decide_true by done. run_next; [|apply Runs_ret].
    by apply Read_Runs, SASL_Decodes.
  - rewrite !bool_decide_false, Hc by (intros E; apply Hk; rewrite E; set_solver).
    run_next; [apply Runs_ret|]. run_next; [by apply Read_Runs, UnknownField_Decodes|apply Runs_ret].
Qed.

Definition BindRequest_repr (v : BindRequest) (t : tlv) : Prop :=
  exists ta exts,
    t = Cons bindRequestIdentifier ([t_int (br_Version v); t_octets (br_Name v); ta] ++ exts) /\
    1 <= br_Version v <= 127 /\ utf8_Valid (br_Name v) = true /\
    Authentication_repr (br_Authentication v) ta /\ extensions [] (br_Extensions v) exts.

#[export, program] Instance BindRequest_Codec : Codec BindRequest BindRequest_UnmarshalBER :=
  {| repr := BindRequest_repr |}.
Next Obligation.
  intros m v t (ta & exts & -> & _ & _ & Ha & He) Hwf. wf_split Hwf.
  assert (encodes (BERPacket (br_Authentication v)) ta) by (by apply (Authentication_encodes m)).
  unfold BERPacket at 1, BindRequest_Packeter, BindRequest_BERPacket. encoder m.
Qed.
Next Obligation.
  intros v t (ta & exts & -> & Hv & Hu & Ha & He). eapply scoped_Decodes.
  - run_next; [apply Integer_Runs; unfold in_type; cbn [it_signed it_bits int64]; lia|].
    run_next; [by apply Read_Runs, Text_Decodes|].
    run_next; [by apply Using_Runs, Authentication_Decodes|].
    run_next; [eapply extensions_Runs; [exact He|set_solver]|]. destruct v; apply Runs_ret.
  - unfold BindRequest_check. destruct v. cbn [br_Version] in *.
    replace (_ <? 1) with false by lia. by replace (_ >? 127) with false by lia.
Qed.

Lemma UnbindRequest_Decodes : Decodes UnbindRequest_UnmarshalBER (Prim unbindRequestIdentifier []) tt.
Proof. apply (rooted_Decodes _ _ _ _ ∅); [|done]. intros. apply Decoder_NullAs_Runs. Qed.

(** A result prefix followed by an optional field: [lr_Extensions] of the
    embedded result stays empty, the message keeps the extensions. *)
Definition BindResponse_repr (v : BindResponse) (t : tlv) : Prop :=
  exists exts,
    t = Cons bindResponseIdentifier
          (result_prefix (bind_Result v) ++
           when (HasServerSASLCredentials v)
             (Prim serverSASLCredentialsIdentifier (ServerSASLCredentials v)) ++ exts) /\
    valid_result (bind_Result v) /\ lr_Extensions (bind_Result v) = [] /\
    (HasServerSASLCredentials v = false -> ServerSASLCredentials v = []) /\
    extensions [referralIdentifier; serverSASLCredentialsIdentifier] (bind_Extensions v) exts.

Lemma with_no_extensions v : lr_Extensions v = [] -> with_extensions v [] = v.
Proof. by destruct v as [c m dm rs es]; cbn; intros ->. Qed.

#[export, program] Instance BindResponse_Codec : Codec BindResponse BindResponse_UnmarshalBER :=
  {| repr := BindResponse_repr |}.
Next Obligation.
  intros m v t (exts & -> & _ & _ & _ & He) Hwf. wf_split Hwf.
  unfold BERPacket at 1, BindResponse_Packeter, BindResponse_BERPacket.
  eapply (holds_encodes m); [|exact Hwf].
  eapply holds_cast; [apply holds_Add; [|by eapply Forall2_extensions]|].
  - eapply holds_Add_when; [apply (addPrefix_holds m _ _ bindResponseIdentifier []);
      [by apply holds_Constructed|done]|]. intros Hb. apply (implicit_encodes m).
    by apply (Forall_when (fun t => wf_tlv m t = true) (HasServerSASLCredentials v)).
  - by rewrite app_nil_l, <- app_assoc.
Qed.
Next Obligation.
  intros v t (exts & -> & Hv & Hn & Hc & He). eapply scoped_Decodes; [|done].
  run_next; [apply Embed_Runs, result_fields_Runs; [done|next_free He]|].
  eapply Runs_bind with (a := (ServerSASLCredentials v, HasServerSASLCredentials v)).
  { apply flagged_Runs; [intros; apply Decoder_Primitive_Runs|done|next_free He]. }
  run_next; [eapply extensions_Runs; [exact He|set_solver]|].
  rewrite with_no_extensions by done. destruct v; apply Runs_ret.
Qed.

(** Bind messages survive the wire: every representable bind request
    (version 1 to 127, simple, SASL or preserved unknown credentials) and bind
    response (result, optional server credentials, extensions) decodes from its
    own encoding to the same value. *)
Theorem bind_roundtrip :
  (forall v t l, BindRequest_repr v t -> admits l t ->
    decode_message BindRequest_UnmarshalBER (Encode (BindRequest_BERPacket v)) l = Ok v) /\
  (forall v t l, BindResponse_repr v t -> admits l t ->
    decode_message BindResponse_UnmarshalBER (Encode (BindResponse_BERPacket v)) l = Ok v).
Proof.
  split; intros v t l.
  - exact (Codec_roundtrip BindRequest_UnmarshalBER v t l).
  - exact (Codec_roundtrip BindResponse_UnmarshalBER v t l).
Qed.

Definition sample_bind : BindRequest :=
  MkBindRequest 3 (bs "") (SASL (MkSASL (bs "GSSAPI") [1; 2; 3] true [])) [].

Lemma bind_roundtrip_witness :
  decode_message BindRequest_UnmarshalBER (Encode (BindRequest_BERPacket sample_bind)) DefaultLimits
  = Ok sample_bind.
Proof.
  eapply (proj1 bind_roundtrip sample_bind _ DefaultLimits).
  - exists (Cons saslAuthenticationIdentifier [t_octets (bs "GSSAPI"); t_octets [1; 2; 3]]), [].
    split; [reflexivity|]. split; [split; discriminate|]. split; [reflexivity|].
    split; [|apply extensions_nil]. apply repr_SASL. exists []. split; [reflexivity|].
    split; [reflexivity|]. split; [discriminate|]. split; [discriminate|apply extensions_nil].
  - unfold admits. vm_compute. repeat split; intros; discriminate.
Defined.
