(* ===== verification/Extended.v ===== *)
(** * Extended operations

    Models src/rfc4511/extended.go: extended requests and responses, intermediate
    responses, their choice and the constructor of the operation. *)

From S2P Require Import Prelude Wire Packet Reader Decoder Types Protocol Result Attributes.
From S2P Require Import Operations Search Bind.

Definition extendedRequestIdentifier := applicationConstructed 23.
Definition extendedResponseIdentifier := applicationConstructed 24.
Definition intermediateResponseIdentifier := applicationConstructed 25.
Definition extendedRequestNameIdentifier := contextPrimitive 0.
Definition extendedRequestValueIdentifier := contextPrimitive 1.
Definition extendedResponseNameIdentifier := contextPrimitive 10.
Definition extendedResponseValueIdentifier := contextPrimitive 11.
Definition intermediateResponseNameIdentifier := contextPrimitive 0.
Definition intermediateResponseValueIdentifier := contextPrimitive 1.

Record ExtendedRequest := MkExtendedRequest {
  er_Name : LDAPOID;
  er_Value : bytes;
  er_HasValue : bool;
  er_Extensions : list UnknownField
}.

Definition ExtendedRequest_BERPacket (v : ExtendedRequest) : Packet :=
  let request := Add (Constructed extendedRequestIdentifier)
                     [implicitOctetsPacket extendedRequestNameIdentifier (er_Name v)] in
  let request := if er_HasValue v
                 then Add request [implicitOctetsPacket extendedRequestValueIdentifier (er_Value v)]
                 else request in
  BERPacket (Add request (er_Extensions v)).
#[export] Instance ExtendedRequest_Packeter : Packeter ExtendedRequest := ExtendedRequest_BERPacket.

(** The reading of an optional byte string with its flag, used by several types. *)
Definition flagged (id : Identifier) (m : DM bytes) : DM (bytes * bool) :=
  optional id (v ← m; mret (v, true)) ([], false).

Definition ExtendedRequest_UnmarshalBER : Unmarshal ExtendedRequest :=
  scoped extendedRequestIdentifier
    (name ← ReadAs LDAPOID_UnmarshalAs extendedRequestNameIdentifier;
     '(value, hasValue) ← flagged extendedRequestValueIdentifier
        (Decoder_Primitive extendedRequestValueIdentifier);
     exts ← Extensions UnknownField_UnmarshalBER
        [extendedRequestNameIdentifier; extendedRequestValueIdentifier];
     mret (MkExtendedRequest name value hasValue exts)) no_check.

Record ExtendedResponse := MkExtendedResponse {
  ext_Result : LDAPResult;
  ext_ResponseName : LDAPOID;
  ext_HasResponseName : bool;
  ext_ResponseValue : bytes;
  ext_HasResponseValue : bool;
  ext_Extensions : list UnknownField
}.
#[export] Instance Zero_ExtendedResponse : Zero ExtendedResponse :=
  MkExtendedResponse zero [] false [] false [].

Definition ExtendedResponse_BERPacket (v : ExtendedResponse) : Packet :=
  let response := addPrefix (ext_Result v) (Constructed extendedResponseIdentifier) in
  let response := if ext_HasResponseName v
    then Add response [implicitOctetsPacket extendedResponseNameIdentifier (ext_ResponseName v)]
    else response in
  let response := if ext_HasResponseValue v
    then Add response [implicitOctetsPacket extendedResponseValueIdentifier (ext_ResponseValue v)]
    else response in
  BERPacket (Add response (ext_Extensions v)).
#[export] Instance ExtendedResponse_Packeter : Packeter ExtendedResponse := ExtendedResponse_BERPacket.

Definition ExtendedResponse_UnmarshalBER : Unmarshal ExtendedResponse :=
  scoped extendedResponseIdentifier
    (result ← Embed LDAPResult_UnmarshalBERFields;
     '(name, hasName) ← flagged extendedResponseNameIdentifier
        (ReadAs LDAPOID_UnmarshalAs extendedResponseNameIdentifier);
     '(value, hasValue) ← flagged extendedResponseValueIdentifier
        (Decoder_Primitive extendedResponseValueIdentifier);
     exts ← Extensions UnknownField_UnmarshalBER
        [extendedResponseNameIdentifier; extendedResponseValueIdentifier];
     mret (MkExtendedResponse result name hasName value hasValue exts)) no_check.

Record IntermediateResponse := MkIntermediateResponse {
  int_ResponseName : LDAPOID;
  int_HasResponseName : bool;
  int_ResponseValue : bytes;
  int_HasResponseValue : bool;
  int_Extensions : list UnknownField
}.
#[export] Instance Zero_IntermediateResponse : Zero IntermediateResponse :=
  MkIntermediateResponse [] false [] false [].

Definition IntermediateResponse_BERPacket (v : IntermediateResponse) : Packet :=
  let response := Constructed intermediateResponseIdentifier in
  let response := if int_HasResponseName v
    then Add response [implicitOctetsPacket intermediateResponseNameIdentifier (int_ResponseName v)]
    else response in
  let response := if int_HasResponseValue v
    then Add response [implicitOctetsPacket intermediateResponseValueIdentifier (int_ResponseValue v)]
    else response in
  BERPacket (Add response (int_Extensions v)).
#[export] Instance IntermediateResponse_Packeter : Packeter IntermediateResponse :=
  IntermediateResponse_BERPacket.

Definition IntermediateResponse_UnmarshalBER : Unmarshal IntermediateResponse :=
  scoped intermediateResponseIdentifier
    ('(name, hasName) ← flagged intermediateResponseNameIdentifier
        (ReadAs LDAPOID_UnmarshalAs intermediateResponseNameIdentifier);
     '(value, hasValue) ← flagged intermediateResponseValueIdentifier
        (Decoder_Primitive intermediateResponseValueIdentifier);
     exts ← Extensions UnknownField_UnmarshalBER
        [intermediateResponseNameIdentifier; intermediateResponseValueIdentifier];
     mret (MkIntermediateResponse name hasName value hasValue exts)) no_check.

Inductive ExtendedResultValue :=
| ExtIntermediate (v : IntermediateResponse)
| ExtResponse (v : ExtendedResponse).

Record ExtendedResult := MkExtendedResult { eres_value : option ExtendedResultValue }.

Definition ExtendedResult_switch (id : Identifier) : DM ExtendedResult :=
  if bool_decide (id = intermediateResponseIdentifier) then
    v ← Read IntermediateResponse_UnmarshalBER; mret (MkExtendedResult (Some (ExtIntermediate v)))
  else if bool_decide (id = extendedResponseIdentifier) then
    v ← Read ExtendedResponse_UnmarshalBER; mret (MkExtendedResult (Some (ExtResponse v)))
  else
    _ ← Decoder_Fail (unexpectedChoice "arden: unexpected ExtendedResult identifier %s" id);
    mret (MkExtendedResult None).

Definition ExtendedResult_UnmarshalBER : Unmarshal ExtendedResult :=
  rooted (id ← Decoder_PeekIdentifier; ExtendedResult_switch id) no_check.

Definition extendedResponseSpec : ResponseSpec :=
  MkResponseSpec [intermediateResponseIdentifier] [extendedResponseIdentifier] false.
Definition extendedResponsePattern : ResponsePattern ExtendedResult :=
  mustResponsePattern ExtendedResult_UnmarshalBER extendedResponseSpec.

Definition NewExtendedOperation (request : option ExtendedRequest) (controls : list (option Packet))
    : result (Operation ExtendedResult) :=
  newOperation "ExtendedRequest"
    ((fun v => MkProtocolOperation (BERPacket v) extendedRequestIdentifier) <$> request)
    controls extendedResponsePattern CancelDrain "ldap.extended".

Definition NoticeOfDisconnectionOID : LDAPOID := bs "1.3.6.1.4.1.1466.20036".

(** ** Codecs *)

Lemma flagged_field_Runs id (m : DM bytes) (v : bytes) (b : bool) ts R :
  (b = true -> forall ts, Runs [] m (Prim id v :: ts) R v ts R) -> (b = false -> v = []) ->
  next_is id ts = false ->
  Runs [] (flagged id m) (when b (Prim id v) ++ ts) R (v, b) ts R.
Proof.
  intros Hm Hv Hn. unfold flagged. apply optional_Runs; [done| | |done].
  - intros Hb. rewrite Hb. run_next; [by apply Hm|apply Runs_ret].
  - intros E. by rewrite E, Hv.
Qed.

(** An optional object identifier: absent means empty, present means valid. *)
Definition flagged_oid (b : bool) (v : bytes) : Prop :=
  if b then utf8_Valid v = true /\ validateLDAPOID v = None else v = [].
Definition flagged_bytes (b : bool) (v : bytes) : Prop := b = false -> v = [].

Lemma flagged_oid_Runs id v b ts R : flagged_oid b v -> next_is id ts = false ->
  Runs [] (flagged id (ReadAs LDAPOID_UnmarshalAs id)) (when b (Prim id v) ++ ts) R (v, b) ts R.
Proof.
  intros Hv Hn. apply flagged_field_Runs; [|by intros ->|done]. intros -> ts'.
  destruct Hv. by apply ReadAs_Runs, OID_Decodes.
Qed.

Lemma flagged_bytes_Runs id v b ts R : flagged_bytes b v -> next_is id ts = false ->
  Runs [] (flagged id (Decoder_Primitive id)) (when b (Prim id v) ++ ts) R (v, b) ts R.
Proof. intros Hv Hn. apply flagged_field_Runs; [|done|done]. intros. apply Decoder_Primitive_Runs. Qed.

Definition ExtendedRequest_repr (v : ExtendedRequest) (t : tlv) : Prop :=
  exists exts,
    t = Cons extendedRequestIdentifier
          (Prim extendedRequestNameIdentifier (er_Name v) ::
           when (er_HasValue v) (Prim extendedRequestValueIdentifier (er_Value v)) ++ exts) /\
    utf8_Valid (er_Name v) = true /\ validateLDAPOID (er_Name v) = None /\
    flagged_bytes (er_HasValue v) (er_Value v) /\
    extensions [extendedRequestNameIdentifier; extendedRequestValueIdentifier] (er_Extensions v) exts.

#[export, program] Instance ExtendedRequest_Codec : Codec ExtendedRequest ExtendedRequest_UnmarshalBER :=
  {| repr := ExtendedRequest_repr |}.
Next Obligation.
  intros m v t (exts & -> & _ & _ & _ & He) Hwf. wf_split Hwf.
  unfold BERPacket at 1, ExtendedRequest_Packeter, ExtendedRequest_BERPacket. encoder m.
Qed.
Next Obligation.
  intros v t (exts & -> & Hu & Ho & Hv & He). eapply scoped_Decodes; [|done].
  run_next; [by apply ReadAs_Runs, OID_Decodes|].
  run_next; [apply flagged_bytes_Runs; [done|next_free He]|]. cbn beta iota.
  run_next; [eapply extensions_Runs; [exact He|set_solver]|]. destruct v; apply Runs_ret.
Qed.

Definition ExtendedResponse_repr (v : ExtendedResponse) (t : tlv) : Prop :=
  exists exts,
    t = Cons extendedResponseIdentifier
          (result_prefix (ext_Result v) ++
           when (ext_HasResponseName v) (Prim extendedResponseNameIdentifier (ext_ResponseName v)) ++
           when (ext_HasResponseValue v) (Prim extendedResponseValueIdentifier (ext_ResponseValue v)) ++
           exts) /\
    valid_result (ext_Result v) /\ lr_Extensions (ext_Result v) = [] /\
    flagged_oid (ext_HasResponseName v) (ext_ResponseName v) /\
    flagged_bytes (ext_HasResponseValue v) (ext_ResponseValue v) /\
    extensions [referralIdentifier; extendedResponseNameIdentifier; extendedResponseValueIdentifier]
      (ext_Extensions v) exts.

#[export, program] Instance ExtendedResponse_Codec :
    Codec ExtendedResponse ExtendedResponse_UnmarshalBER :=
  {| repr := ExtendedResponse_repr |}.
Next Obligation.
  intros m v t (exts & -> & _ & _ & _ & _ & He) Hwf. wf_split Hwf.
  unfold BERPacket at 1, ExtendedResponse_Packeter, ExtendedResponse_BERPacket.
  eapply (holds_encodes m); [|exact Hwf].
  eapply holds_cast; [apply holds_Add; [|by eapply Forall2_extensions]|].
  - eapply holds_Add_when; [eapply holds_Add_when;
      [apply (addPrefix_holds m _ _ extendedResponseIdentifier []); [by apply holds_Constructed|done]|]|].
    + intros Hb. apply (implicit_encodes m).
      by apply (Forall_when (fun t => wf_tlv m t = true) (ext_HasResponseName v)).
    + intros Hb. apply (implicit_encodes m).
      by apply (Forall_when (fun t => wf_tlv m t = true) (ext_HasResponseValue v)).
  - by rewrite app_nil_l, <- !app_assoc.
Qed.
Next Obligation.
  intros v t (exts & -> & Hv & Hn & Hon & Hov & He). eapply scoped_Decodes; [|done].
  run_next; [apply Embed_Runs, result_fields_Runs; [done|next_free He]|].
  run_next; [apply flagged_oid_Runs; [done|next_free He]|]. cbn beta iota.
  run_next; [apply flagged_bytes_Runs; [done|next_free He]|]. cbn beta iota.
  run_next; [eapply extensions_Runs; [exact He|set_solver]|].
  rewrite with_no_extensions by done. destruct v; apply Runs_ret.
Qed.

Definition IntermediateResponse_repr (v : IntermediateResponse) (t : tlv) : Prop :=
  exists exts,
    t = Cons intermediateResponseIdentifier
          (when (int_HasResponseName v) (Prim intermediateResponseNameIdentifier (int_ResponseName v)) ++
           when (int_HasResponseValue v) (Prim intermediateResponseValueIdentifier (int_ResponseValue v)) ++
           exts) /\
    flagged_oid (int_HasResponseName v) (int_ResponseName v) /\
    flagged_bytes (int_HasResponseValue v) (int_ResponseValue v) /\
    extensions [intermediateResponseNameIdentifier; intermediateResponseValueIdentifier]
      (int_Extensions v) exts.

#[export, program] Instance IntermediateResponse_Codec :
    Codec IntermediateResponse IntermediateResponse_UnmarshalBER :=
  {| repr := IntermediateResponse_repr |}.
Next Obligation.
  intros m v t (exts & -> & _ & _ & He) Hwf. wf_split Hwf.
  unfold BERPacket at 1, IntermediateResponse_Packeter, IntermediateResponse_BERPacket. encoder m.
Qed.
Next Obligation.
  intros v t (exts & -> & Hon & Hov & He). eapply scoped_Decodes; [|done].
  run_next; [apply flagged_oid_Runs; [done|next_free He]|]. cbn beta iota.
  run_next; [apply flagged_bytes_Runs; [done|next_free He]|]. cbn beta iota.
  run_next; [eapply extensions_Runs; [exact He|set_solver]|]. destruct v; apply Runs_ret.
Qed.

(** ** Properties *)

Definition ExtendedResultValue_BERPacket (v : ExtendedResultValue) : Packet :=
  match v with
  | ExtIntermediate v => IntermediateResponse_BERPacket v
  | ExtResponse v => ExtendedResponse_BERPacket v
  end.

Definition ExtendedResultValue_repr (v : ExtendedResultValue) (t : tlv) : Prop :=
  match v with
  | ExtIntermediate v => IntermediateResponse_repr v t
  | ExtResponse v => ExtendedResponse_repr v t
  end.

Definition extended_class (v : ExtendedResultValue) : Classification :=
  match v with ExtIntermediate _ => ClassificationContinue | ExtResponse _ => ClassificationComplete end.

Lemma ExtendedResult_tid v t : ExtendedResultValue_repr v t ->
  tid t = match v with
          | ExtIntermediate _ => intermediateResponseIdentifier
          | ExtResponse _ => extendedResponseIdentifier
          end.
Proof. destruct v; by intros (? & -> & _). Qed.

Lemma ExtendedResult_encodes m v t : ExtendedResultValue_repr v t -> wf_tlv m t = true ->
  encodes (ExtendedResultValue_BERPacket v) t.
Proof.
  destruct v as [v|v]; intros Hr Hwf.
  - by apply (repr_encodes (u := IntermediateResponse_UnmarshalBER) m).
  - by apply (repr_encodes (u := ExtendedResponse_UnmarshalBER) m).
Qed.

Lemma ExtendedResult_Decodes v t : ExtendedResultValue_repr v t ->
  Decodes ExtendedResult_UnmarshalBER t (MkExtendedResult (Some v)).
Proof.
  intros Hr. apply choice_Decodes. intros rest. rewrite (ExtendedResult_tid _ _ Hr).
  destruct v as [v|v]; unfold ExtendedResult_switch.
  - rewrite bool_decide_true by done. run_next; [|apply Runs_ret].
    by apply Read_Runs, (repr_decodes (u := IntermediateResponse_UnmarshalBER)).
  - rewrite bool_decide_false, bool_decide_true by done. run_next; [|apply Runs_ret].
    by apply Read_Runs, (repr_decodes (u := ExtendedResponse_UnmarshalBER)).
Qed.

Lemma extendedResponseSpec_ok : spec_ok extendedResponseSpec.
Proof. split; [done|]. split; [repeat constructor|]. by apply (bool_decide_unpack _). Qed.

(** A response message that carries [v]. *)
Definition carries (response : Response) (v : ExtendedResultValue) (t : tlv) : Prop :=
  ExtendedResultValue_repr v t /\ rsp_ProtocolID response = tid t /\
  rsp_Protocol response = Encode (ExtendedResultValue_BERPacket v).

Lemma carries_Decode response v t l : carries response v t -> admits l t ->
  Decode extendedResponsePattern response l = Ok (MkExtendedResult (Some v)).
Proof.
  intros (Hr & Hid & Hp) Hl. destruct (ExtendedResult_encodes _ v t Hr (proj1 (proj2 Hl))) as [He _].
  eapply pattern_decodes; [apply extendedResponseSpec_ok|done| |congruence|by apply ExtendedResult_Decodes|done].
  rewrite (ExtendedResult_tid _ _ Hr). destruct v; set_solver.
Qed.

(** Extended responses survive the wire: any representable intermediate or
    final response, delivered as the protocol bytes of a response message, is
    decoded by the Extended pattern to the same alternative; intermediate
    responses continue the operation and final ones complete it. *)
Theorem extended_response_roundtrip v t l response :
  carries response v t -> admits l t ->
  Decode extendedResponsePattern response l = Ok (MkExtendedResult (Some v)) /\
  Classify extendedResponsePattern (rsp_ProtocolID response) = extended_class v.
Proof.
  intros Hc Hl. split; [by eapply carries_Decode|]. destruct Hc as (Hr & -> & _).
  rewrite (ExtendedResult_tid _ _ Hr). unfold Classify, extendedResponsePattern.
  rewrite (proj2 (mustResponsePattern_ok _ _ extendedResponseSpec_ok)). by destruct v.
Qed.

Definition sample_identity : ExtendedResponse :=
  MkExtendedResponse (MkLDAPResult 0 [] [] [] []) [] false (bs "u:ada@EXAMPLE") true [].
Definition sample_identity_tree : tlv :=
  Cons extendedResponseIdentifier
    [t_enum 0; t_octets []; t_octets []; Prim extendedResponseValueIdentifier (bs "u:ada@EXAMPLE")].
Definition sample_identity_response : Response :=
  MkResponse 1 extendedResponseIdentifier [] (Encode (ExtendedResponse_BERPacket sample_identity)) [] [].

Lemma sample_identity_carries :
  carries sample_identity_response (ExtResponse sample_identity) sample_identity_tree.
Proof.
  split; [|split; reflexivity]. exists []. split; [reflexivity|]. repeat split; try done; constructor.
Qed.

Lemma sample_identity_admits : admits DefaultLimits sample_identity_tree.
Proof. unfold admits. vm_compute. repeat split; intros; discriminate. Qed.

Lemma extended_response_roundtrip_witness :
  Decode extendedResponsePattern sample_identity_response DefaultLimits =
  Ok (MkExtendedResult (Some (ExtResponse sample_identity))).
Proof.
  exact (proj1 (extended_response_roundtrip (ExtResponse sample_identity) sample_identity_tree
    DefaultLimits sample_identity_response sample_identity_carries sample_identity_admits)).
Defined.
