(* ===== verification/Codecs.v ===== *)
(** * The messages survive the wire

    The round trips of the message types of src/rfc4511 in one statement, from
    the codecs of the files that model them. *)

From S2P Require Import Prelude Wire Packet Reader Decoder Types Protocol Result Attributes.
From S2P Require Import Filter Operations Search Bind.

(** The value is read back from its own encoding, under all limits that admit
    it. *)
Definition survives {T} `{Packeter T} (u : Unmarshal T) (represents : T -> tlv -> Prop) : Prop :=
  forall v t l, represents v t -> admits l t -> decode_message u (Encode (BERPacket v)) l = Ok v.

(** C32. Messages and their parts survive the wire. Add, Delete, Modify,
    ModifyDN, Compare, Abandon, Search and Bind requests, the responses that are
    an LDAPResult under their own tag, Bind responses, LDAP results, controls,
    attributes and assertions, each with preserved extension fields: decoding
    what the encoder wrote returns the same value, for every value that the
    protocol can represent and all limits that admit its encoding. *)
Theorem messages_roundtrip `{GoUnicode} :
  survives AddRequest_UnmarshalBER AddRequest_repr /\
  survives DeleteRequest_UnmarshalBER DeleteRequest_repr /\
  survives ModifyRequest_UnmarshalBER ModifyRequest_repr /\
  survives ModifyDNRequest_UnmarshalBER ModifyDNRequest_repr /\
  survives CompareRequest_UnmarshalBER CompareRequest_repr /\
  survives AbandonRequest_UnmarshalBER AbandonRequest_repr /\
  survives SearchRequest_UnmarshalBER SearchRequest_repr /\
  survives BindRequest_UnmarshalBER BindRequest_repr /\
  survives BindResponse_UnmarshalBER BindResponse_repr /\
  (forall id, id_Constructed id = true -> survives (ResultResponse_UnmarshalBER id) ResultResponse_repr) /\
  survives LDAPResult_UnmarshalBER (LDAPResult_repr SequenceIdentifier) /\
  survives Control_UnmarshalBER Control_repr /\
  survives Attribute_UnmarshalBER Attribute_repr /\
  survives AttributeValueAssertion_UnmarshalBER (AVA_repr SequenceIdentifier).
Proof.
  destruct requests_roundtrip as (? & ? & ? & ? & ? & ? & Hresult). destruct components_roundtrip as (? & ? & ? & ?).
  destruct bind_roundtrip as [? ?]. pose proof search_request_roundtrip. unfold survives.
  repeat split; try assumption. intros id Hid v t l. by apply Hresult.
Qed.

Lemma messages_roundtrip_witness :
  decode_message BindRequest_UnmarshalBER (Encode (BERPacket sample_bind)) DefaultLimits = Ok sample_bind.
Proof.
  eapply (proj1 (proj2 (proj2 (proj2 (proj2 (proj2 (proj2 (proj2 (messages_roundtrip (H := ascii_unicode)))))))))
            sample_bind _ DefaultLimits).
  - exists (Cons saslAuthenticationIdentifier [t_octets (bs "GSSAPI"); t_octets [1; 2; 3]]), [].
    split; [reflexivity|]. split; [split; discriminate|]. split; [reflexivity|].
    split; [|apply extensions_nil]. apply repr_SASL. exists []. split; [reflexivity|].
    split; [reflexivity|]. split; [discriminate|]. split; [discriminate|apply extensions_nil].
  - unfold admits. vm_compute. repeat split; intros; discriminate.
Defined.
