(* ===== verification/Endpoint.v ===== *)
(** * Endpoints

    Models src/endpoint.go: the immutable set-up facts of an endpoint and their
    validation. The interfaces of that file (authentication, initialization)
    are behaviour the caller supplies and have no state of their own. *)

From S2P Require Import Prelude.

Definition EndpointID := string.

Definition EndpointID_Validate (id : EndpointID) : option error :=
  if bool_decide (id = ""%string) then Some (ErrorString "arden: endpoint ID is empty") else None.

(** A [uint8]; the zero value is direct TLS. *)
Definition TransportMode := Z.
Definition TransportDirectTLS : TransportMode := 0.
Definition TransportPlaintext : TransportMode := 1.

Definition TransportMode_String (m : TransportMode) : string :=
  if m =? TransportDirectTLS then "direct_tls"
  else if m =? TransportPlaintext then "plaintext"
  else ("transport(" +:+ pretty m +:+ ")")%string.

Record Endpoint := MkEndpoint {
  ep_ID : EndpointID;
  ep_Address : bytes;
  ep_ServerName : bytes;
  ep_Transport : TransportMode
}.

Definition Endpoint_Validate (e : Endpoint) : option error :=
  match EndpointID_Validate (ep_ID e) with
  | Some err => Some err
  | None =>
      if bool_decide (ep_Address e = []) then Some (ErrorString "arden: endpoint address is empty")
      else if negb (ep_Transport e =? TransportDirectTLS) && negb (ep_Transport e =? TransportPlaintext)
      then Some (ErrorString "arden: endpoint transport mode is invalid")
      else if (ep_Transport e =? TransportDirectTLS) && bool_decide (ep_ServerName e = [])
      then Some (ErrorString "arden: endpoint TLS server name is empty")
      else None
  end.

Record Identity := MkIdentity { StableID : bytes }.

Definition Identity_Validate (i : Identity) : option error :=
  if bool_decide (StableID i = []) then Some (ErrorString "arden: authentication identity is empty")
  else None.

Definition CancellationPolicy := Z.
Definition CancellationConservative : CancellationPolicy := 1.
Definition CancellationRFC3909 : CancellationPolicy := 2.

Record ConnectionPolicy := MkConnectionPolicy { Cancellation : CancellationPolicy }.

Definition ConnectionPolicy_Validate (p : ConnectionPolicy) : option error :=
  if (Cancellation p =? CancellationConservative) || (Cancellation p =? CancellationRFC3909) then None
  else Some (ErrorString "arden: setup cancellation policy is invalid").

#[export] Instance Identity_eq_dec : EqDecision Identity.
Proof. solve_decision. Defined.
#[export] Instance ConnectionPolicy_eq_dec : EqDecision ConnectionPolicy.
Proof. solve_decision. Defined.

(** [Endpoint.Validate] accepts exactly the complete configurations: an
    identity, an address and one of the two transports, with a server name
    whenever the transport is TLS; so an endpoint whose mode was omitted (zero)
    is TLS and needs a name to verify. *)
Theorem endpoint_validate_exact e : Endpoint_Validate e = None <->
  ep_ID e <> ""%string /\ ep_Address e <> [] /\
  (ep_Transport e = TransportPlaintext \/ ep_Transport e = TransportDirectTLS /\ ep_ServerName e <> []).
Proof.
  unfold Endpoint_Validate, EndpointID_Validate, TransportDirectTLS, TransportPlaintext.
  case_bool_decide as H1; [split; [done|tauto]|]. case_bool_decide as H2; [split; [done|tauto]|].
  destruct (ep_Transport e =? 0) eqn:E0, (ep_Transport e =? 1) eqn:E1; zbool; cbn [negb andb]; [lia| | |].
  - case_bool_decide as H3; split; try done; [|tauto]. intros (_ & _ & [?|[_ ?]]); [lia|done].
  - split; [tauto|done].
  - split; [done|]. intros (_ & _ & [?|[? _]]); lia.
Qed.
