(* ===== verification/Conn.v ===== *)
(** * The connection runtime

    Models the state of [Conn] in src/connection.go and the critical sections
    of its operations (and of the set-up transitions in src/bootstrap.go): each
    function below is what one goroutine does while it holds [c.mu].
    Interleavings of goroutines are sequences of these functions, the step
    relation [step].

    A pending operation is an object that the connection, its stream and its
    watchers share: [c_ops] is the heap of these objects, and a reference to
    one is its key. [c.done] is closed exactly when [c.err] is set. Waiting on
    channels, the tracer and the logger are not part of the state. *)

From S2P Require Import Prelude Wire Packet Reader Decoder Types Protocol Result Errors Options Endpoint.
From S2P Require Import Response Attributes Operations Search Bind Extended.

Record pendingOperation := MkPending {
  p_id : MessageID;
  p_pattern : FramingPattern;
  p_mode : CancellationMode;
  p_requestBytes : Z;
  p_responseBytes : Z;
  p_responses : Z;
  p_firstResponse : bool;
  p_writeObserved : bool;
  p_queue : list Response;
  p_queuedBytes : Z;
  p_deliveryErr : option cerror;
  p_canceled : bool;
  p_terminal : bool;
  p_abandoning : bool;
  p_writeStarted : bool;
  p_ready : bool;
  p_lifecycleDone : bool
}.

Definition OpRef := nat.

Record Conn := MkConn {
  c_options : ConnectionOptions;
  c_maxID : MessageID;
  c_state : connectionState;
  c_closing : bool;
  c_err : option cerror;
  c_identity : Identity;
  c_policy : ConnectionPolicy;
  c_nextID : MessageID;
  c_reserved : gset MessageID;
  c_pending : gmap MessageID OpRef;
  c_tombstones : gmap MessageID FramingPattern;
  c_unsolicited : list Response;
  c_unsolicitedBytes : Z;
  c_ops : gmap OpRef pendingOperation
}.

(** Field updates. *)
Definition set_state s (c : Conn) :=
  MkConn (c_options c) (c_maxID c) s (c_closing c) (c_err c) (c_identity c) (c_policy c) (c_nextID c)
    (c_reserved c)
    (c_pending c) (c_tombstones c) (c_unsolicited c) (c_unsolicitedBytes c) (c_ops c).
Definition set_handoff identity policy (c : Conn) :=
  MkConn (c_options c) (c_maxID c) (c_state c) (c_closing c) (c_err c) identity policy (c_nextID c) (c_reserved c)
    (c_pending c) (c_tombstones c) (c_unsolicited c) (c_unsolicitedBytes c) (c_ops c).
Definition set_closing b (c : Conn) :=
  MkConn (c_options c) (c_maxID c) (c_state c) b (c_err c) (c_identity c) (c_policy c) (c_nextID c)
    (c_reserved c)
    (c_pending c) (c_tombstones c) (c_unsolicited c) (c_unsolicitedBytes c) (c_ops c).
Definition set_ids nextID reserved pending tombstones (c : Conn) :=
  MkConn (c_options c) (c_maxID c) (c_state c) (c_closing c) (c_err c) (c_identity c) (c_policy c) nextID reserved
    pending tombstones (c_unsolicited c) (c_unsolicitedBytes c) (c_ops c).
Definition set_ops ops (c : Conn) :=
  MkConn (c_options c) (c_maxID c) (c_state c) (c_closing c) (c_err c) (c_identity c) (c_policy c) (c_nextID c)
    (c_reserved c)
    (c_pending c) (c_tombstones c) (c_unsolicited c) (c_unsolicitedBytes c) ops.
Definition set_unsolicited q n (c : Conn) :=
  MkConn (c_options c) (c_maxID c) (c_state c) (c_closing c) (c_err c) (c_identity c) (c_policy c) (c_nextID c)
    (c_reserved c)
    (c_pending c) (c_tombstones c) q n (c_ops c).
Definition set_reserved r (c : Conn) := set_ids (c_nextID c) r (c_pending c) (c_tombstones c) c.
Definition set_pending m (c : Conn) := set_ids (c_nextID c) (c_reserved c) m (c_tombstones c) c.

(** Update of an operation object through its reference. *)
Definition set_op (ref : OpRef) (p : pendingOperation) (c : Conn) : Conn :=
  set_ops (<[ref := p]> (c_ops c)) c.

(** [c.pending[p.id] == p] compares references. *)
Definition is_pending (c : Conn) (ref : OpRef) (p : pendingOperation) : bool :=
  bool_decide (c_pending c !! p_id p = Some ref).

Definition signalReady (p : pendingOperation) : pendingOperation :=
  MkPending (p_id p) (p_pattern p) (p_mode p) (p_requestBytes p) (p_responseBytes p) (p_responses p)
    (p_firstResponse p) (p_writeObserved p) (p_queue p) (p_queuedBytes p) (p_deliveryErr p)
    (p_canceled p) (p_terminal p) (p_abandoning p) (p_writeStarted p) true (p_lifecycleDone p).
Definition finishLifecycle (p : pendingOperation) : pendingOperation :=
  MkPending (p_id p) (p_pattern p) (p_mode p) (p_requestBytes p) (p_responseBytes p) (p_responses p)
    (p_firstResponse p) (p_writeObserved p) (p_queue p) (p_queuedBytes p) (p_deliveryErr p)
    (p_canceled p) (p_terminal p) (p_abandoning p) (p_writeStarted p) (p_ready p) true.
Definition set_terminal (p : pendingOperation) : pendingOperation :=
  MkPending (p_id p) (p_pattern p) (p_mode p) (p_requestBytes p) (p_responseBytes p) (p_responses p)
    (p_firstResponse p) (p_writeObserved p) (p_queue p) (p_queuedBytes p) (p_deliveryErr p)
    (p_canceled p) true (p_abandoning p) (p_writeStarted p) (p_ready p) (p_lifecycleDone p).
Definition set_abandoning (p : pendingOperation) : pendingOperation :=
  MkPending (p_id p) (p_pattern p) (p_mode p) (p_requestBytes p) (p_responseBytes p) (p_responses p)
    (p_firstResponse p) (p_writeObserved p) (p_queue p) (p_queuedBytes p) (p_deliveryErr p)
    (p_canceled p) (p_terminal p) true (p_writeStarted p) (p_ready p) (p_lifecycleDone p).
Definition set_written started observed (p : pendingOperation) : pendingOperation :=
  MkPending (p_id p) (p_pattern p) (p_mode p) (p_requestBytes p) (p_responseBytes p) (p_responses p)
    (p_firstResponse p) observed (p_queue p) (p_queuedBytes p) (p_deliveryErr p)
    (p_canceled p) (p_terminal p) (p_abandoning p) started (p_ready p) (p_lifecycleDone p).
Definition set_delivery err (p : pendingOperation) : pendingOperation :=
  MkPending (p_id p) (p_pattern p) (p_mode p) (p_requestBytes p) (p_responseBytes p) (p_responses p)
    (p_firstResponse p) (p_writeObserved p) (p_queue p) (p_queuedBytes p) err
    (p_canceled p) (p_terminal p) (p_abandoning p) (p_writeStarted p) (p_ready p) (p_lifecycleDone p).
Definition set_queue q n (p : pendingOperation) : pendingOperation :=
  MkPending (p_id p) (p_pattern p) (p_mode p) (p_requestBytes p) (p_responseBytes p) (p_responses p)
    (p_firstResponse p) (p_writeObserved p) q n (p_deliveryErr p)
    (p_canceled p) (p_terminal p) (p_abandoning p) (p_writeStarted p) (p_ready p) (p_lifecycleDone p).

(** Drop the queue, set the error that ends delivery, and mark the operation canceled. *)
Definition cancel_delivery (err : cerror) (p : pendingOperation) : pendingOperation :=
  MkPending (p_id p) (p_pattern p) (p_mode p) (p_requestBytes p) (p_responseBytes p) (p_responses p)
    (p_firstResponse p) (p_writeObserved p) [] 0 (Some err)
    true (p_terminal p) (p_abandoning p) (p_writeStarted p) (p_ready p) (p_lifecycleDone p).

(** The counters of a response. *)
Definition count_response (n : Z) (p : pendingOperation) : pendingOperation :=
  MkPending (p_id p) (p_pattern p) (p_mode p) (p_requestBytes p)
    (conv uint64 (p_responseBytes p + n)) (conv uint64 (p_responses p + 1))
    true (p_writeObserved p) (p_queue p) (p_queuedBytes p) (p_deliveryErr p)
    (p_canceled p) (p_terminal p) (p_abandoning p) (p_writeStarted p) (p_ready p) (p_lifecycleDone p).

(** ** Construction and set-up *)

Definition newConnWithState (options : ConnectionOptions) (maxID : MessageID) (state : connectionState)
    : result Conn :=
  if (maxID <=? 0) || (maxID >? MaxMessageID)
  then Err (ErrorString "arden: invalid message ID limit")
  else if negb (bool_decide (state = stateTransportSetup)) && negb (bool_decide (state = stateReady))
  then Err (ErrorString "arden: invalid initial connection state")
  else match Limits_Validate (BERLimits options) with
       | Some err => Err err
       | None => Ok (MkConn options maxID state false None (MkIdentity (bs "unauthenticated"))
                     (MkConnectionPolicy CancellationConservative) 0 ∅ ∅ ∅ [] 0 ∅)
       end.

Definition transition (to : connectionState) (c : Conn) : option cerror * Conn :=
  match c_err c with
  | Some err => (Some err, c)
  | None =>
      match advanceConnectionState (c_state c) to with
      | Err err => (Some (Plain err), c)
      | Ok next => (None, set_state next c)
      end
  end.

Definition idle (c : Conn) : bool :=
  (Z.of_nat (size (c_reserved c)) =? 0) && (Z.of_nat (size (c_pending c)) =? 0) &&
  (Z.of_nat (size (c_tombstones c)) =? 0).

Definition requireInitializationIdle (c : Conn) : option cerror :=
  match c_err c with
  | Some err => Some err
  | None =>
      if negb (idle c)
      then Some (Plain (ErrorString "arden: initialization returned with an operation still active"))
      else None
  end.

Definition markReady (identity : Identity) (policy : ConnectionPolicy) (c : Conn) : option cerror * Conn :=
  match c_err c with
  | Some err => (Some err, c)
  | None =>
      if negb (bool_decide (c_state c = stateInitializing))
      then (Some (Plain (ErrorString "arden: connection did not finish initialization")), c)
      else if negb (idle c)
      then (Some (Plain (ErrorString "arden: connection has active initialization work")), c)
      else match advanceConnectionState (c_state c) stateReady with
           | Err err => (Some (Plain err), c)
           | Ok next => (None, set_handoff identity policy (set_state next c))
           end
  end.

(** ** Message identifiers *)

Inductive operationScope := operationApplication | operationInitialization.

Definition scopeAllowedLocked (c : Conn) (scope : operationScope) : bool :=
  match scope with
  | operationApplication => bool_decide (c_state c = stateReady)
  | operationInitialization =>
      bool_decide (c_state c = stateAuthenticating) || bool_decide (c_state c = stateInitializing)
  end.

Definition scopeError (scope : operationScope) : cerror :=
  match scope with
  | operationApplication => ErrConnectionNotReady
  | operationInitialization => ErrInitializationClosed
  end.

(** An identifier in use by a reservation, an operation or a tombstone. *)
Definition id_used (c : Conn) (id : MessageID) : bool :=
  bool_decide (id ∈ c_reserved c) || bool_decide (is_Some (c_pending c !! id)) ||
  bool_decide (is_Some (c_tombstones c !! id)).

(** [c.nextID++] on an [int32], with the wrap to 1. *)
Definition next_id (maxID nextID : MessageID) : MessageID :=
  let nextID := conv int32 (nextID + 1) in
  if (nextID >? maxID) || (nextID <=? 0) then 1 else nextID.

(** One round of the search: [inl] a free identifier, [inr] go on. *)
Definition probe (c : Conn) (nextID : MessageID) : MessageID + MessageID :=
  let id := next_id (c_maxID c) nextID in
  if id_used c id then inr id else inl id.

(** [for range n] with an early return; the recursion is on the binary form of
    [n], so that a large range costs only the rounds that are run. *)
Fixpoint search (c : Conn) (n : positive) (nextID : MessageID) : MessageID + MessageID :=
  let twice p nextID :=
    match search c p nextID with
    | inl id => inl id
    | inr nextID => search c p nextID
    end in
  match n with
  | xH => probe c nextID
  | xO p => twice p nextID
  | xI p =>
      match probe c nextID with
      | inl id => inl id
      | inr nextID => twice p nextID
      end
  end.

Definition tryReserveMessageIDLocked (c : Conn) : option MessageID * Conn :=
  if Z.of_nat (size (c_reserved c)) + Z.of_nat (size (c_pending c)) +
     Z.of_nat (size (c_tombstones c)) >=? c_maxID c
  then (None, c)
  else
    match search c (Z.to_pos (c_maxID c)) (c_nextID c) with
    | inl id => (Some id, set_ids id ({[id]} ∪ c_reserved c) (c_pending c) (c_tombstones c) c)
    | inr nextID => (None, set_ids nextID (c_reserved c) (c_pending c) (c_tombstones c) c)
    end.

(** One round of [reserveMessageID]: an identifier, an error, or waiting. *)
Inductive reservation := Reserved (id : MessageID) | Refused (err : cerror) | Exhausted.

Definition closedError (c : Conn) : cerror := match c_err c with Some err => err | None => ErrClosed end.
Definition unusable (c : Conn) : bool :=
  match c_err c with Some _ => true | None => c_closing c end.

Definition reserveMessageID_round (scope : operationScope) (c : Conn) : reservation * Conn :=
  if unusable c then (Refused (closedError c), c)
  else if negb (scopeAllowedLocked c scope) then (Refused (scopeError scope), c)
  else match tryReserveMessageIDLocked c with
       | (Some id, c) => (Reserved id, c)
       | (None, c) => (Exhausted, c)
       end.

Definition releaseReserved (id : MessageID) (c : Conn) : Conn :=
  if bool_decide (id ∈ c_reserved c) then set_reserved (c_reserved c ∖ {[id]}) c else c.

(** ** Pending operations *)

(** The object [do] allocates; [ref] is fresh. *)
Definition new_pending (id : MessageID) (pattern : FramingPattern) (mode : CancellationMode)
    (requestBytes : Z) : pendingOperation :=
  MkPending id pattern mode requestBytes 0 0 false false [] 0 None false false false false false false.

Definition installPending (ref : OpRef) (p : pendingOperation) (scope : operationScope) (c : Conn)
    : option cerror * Conn :=
  if unusable c then (Some (closedError c), c)
  else if negb (scopeAllowedLocked c scope) then (Some (scopeError scope), c)
  else if negb (bool_decide (p_id p ∈ c_reserved c))
  then (Some (Plain (ErrorString "arden: message ID reservation was lost")), c)
  else
    (None, set_op ref p
       (set_ids (c_nextID c) (c_reserved c ∖ {[p_id p]}) (<[p_id p := ref]> (c_pending c))
                (c_tombstones c) c)).

(** [removeDefinitelyUnsent] and [completeNoResponse] differ in what they trace. *)
Definition removePending (ref : OpRef) (p : pendingOperation) (c : Conn) : Conn :=
  if is_pending c ref p
  then set_op ref (signalReady (finishLifecycle (set_terminal p)))
         (set_pending (delete (p_id p) (c_pending c)) c)
  else c.
Definition removeDefinitelyUnsent := removePending.
Definition completeNoResponse := removePending.

(** The critical section of [writeRequest], and [close(p.writeObserved)] of [do]. *)
Definition startWrite (ref : OpRef) (p : pendingOperation) (c : Conn) : Conn :=
  if is_pending c ref p then set_op ref (set_written true (p_writeObserved p) p) c else c.
Definition observeWrite (ref : OpRef) (p : pendingOperation) (c : Conn) : Conn :=
  set_op ref (set_written (p_writeStarted p) true p) c.

(** One round of [responseStream.Next]: a response, an error, or waiting. *)
Inductive delivery := Delivered (response : Response) | Failed (err : cerror) | Waiting.

Definition stream_Next (ref : OpRef) (p : pendingOperation) (c : Conn) : delivery * Conn :=
  match p_queue p with
  | response :: queue =>
      (Delivered response,
       set_op ref (set_queue queue (p_queuedBytes p - len (rsp_Bytes response)) p) c)
  | [] =>
      match p_deliveryErr p with
      | Some err => (Failed err, c)
      | None => if p_terminal p then (Failed (Plain EOF), c) else (Waiting, c)
      end
  end.

Inductive cancelAction := cancelActionNone | cancelActionAbandon | cancelActionClose.

Definition cancelOperation (ref : OpRef) (p : pendingOperation) (reason : cerror) (c : Conn)
    : cancelAction * Conn :=
  if p_terminal p then (cancelActionNone, c)
  else
    let p := match p_deliveryErr p with
             | None => signalReady (cancel_delivery reason p)
             | Some _ => p
             end in
    if is_pending c ref p && negb (p_abandoning p) then
      if p_mode p =? CancelAbandon then (cancelActionAbandon, set_op ref (set_abandoning p) c)
      else if p_mode p =? CancelClose then (cancelActionClose, set_op ref p c)
      else (cancelActionNone, set_op ref p c)
    else (cancelActionNone, set_op ref p c).

(** [sendAbandon]: the reservation of its own identifier, and the move of the
    target from the pending operations to the tombstones. *)
Definition abandonable (ref : OpRef) (p : pendingOperation) (c : Conn) : bool :=
  is_pending c ref p && negb (unusable c).

Definition sendAbandon_reserve (ref : OpRef) (p : pendingOperation) (c : Conn) : option MessageID * Conn :=
  if negb (abandonable ref p c) then (None, c) else tryReserveMessageIDLocked c.

Definition sendAbandon_commit (ref : OpRef) (p : pendingOperation) (c : Conn) : Conn :=
  if negb (abandonable ref p c) then c
  else
    set_op ref (signalReady (finishLifecycle p))
      (set_ids (c_nextID c) (c_reserved c) (delete (p_id p) (c_pending c))
               (<[p_id p := p_pattern p]> (c_tombstones c)) c).

(** ** Routing *)

Definition queue_full (c : Conn) (p : pendingOperation) : bool :=
  len (p_queue p) =? MaxQueuedResponses (c_options c).
Definition queue_limit (c : Conn) (p : pendingOperation) (response : Response) : cerror :=
  if queue_full c p
  then LimitError "operation response queue messages" (len (p_queue p) + 1)
         (MaxQueuedResponses (c_options c))
  else LimitError "operation response queue bytes" (p_queuedBytes p + len (rsp_Bytes response))
         (MaxQueuedResponseBytes (c_options c)).

(** Delivery of a classified response to its operation: the operation after it
    and the action that follows. *)
Definition deliver (c : Conn) (classification : Classification) (response : Response)
    (p : pendingOperation) : cancelAction * pendingOperation :=
  if p_canceled p then (cancelActionNone, p)
  else if queue_full c p ||
          (p_queuedBytes p + len (rsp_Bytes response) >? MaxQueuedResponseBytes (c_options c))
  then
    let p := cancel_delivery (queue_limit c p response) p in
    if bool_decide (classification = ClassificationComplete) then (cancelActionNone, p)
    else if p_mode p =? CancelAbandon then (cancelActionAbandon, set_abandoning p)
    else if p_mode p =? CancelClose then (cancelActionClose, p)
    else (cancelActionNone, p)
  else (cancelActionNone, set_queue (p_queue p ++ [response])
                            (p_queuedBytes p + len (rsp_Bytes response)) p).

(** What [route] does with a response. [RouteWait]: the write of the request
    has not been observed, and routing is tried again after it. *)
Inductive routing :=
| RouteDone (action : cancelAction) (ref : OpRef)
| RouteIgnored
| RouteWait
| RouteError' (err : cerror).

Definition unexpectedMessageID (response : Response) : cerror :=
  ProtocolError ProtocolUnexpectedMessageID (rsp_MessageID response) (rsp_ProtocolID response) None.
Definition unexpectedIdentifier (response : Response) : cerror :=
  ProtocolError ProtocolUnexpectedIdentifier (rsp_MessageID response) (rsp_ProtocolID response) None.

Definition route_pending (ref : OpRef) (p : pendingOperation) (response : Response) (c : Conn)
    : routing * Conn :=
  if negb (p_writeObserved p) then
    match c_err c with Some _ => (RouteIgnored, c) | None => (RouteWait, c) end
  else
    let classification := FramingPattern_Classify (p_pattern p) (rsp_ProtocolID response) in
    if bool_decide (classification = ClassificationInvalid)
    then (RouteError' (unexpectedIdentifier response), c)
    else
      let p := count_response (len (rsp_Bytes response)) p in
      let complete := bool_decide (classification = ClassificationComplete) in
      let c := if complete then set_pending (delete (p_id p) (c_pending c)) c else c in
      let p := if complete then set_terminal p else p in
      let '(action, p) := deliver c classification response p in
      let p := signalReady p in
      let p := if complete then finishLifecycle p else p in
      (match action with
       | cancelActionClose => RouteError' (LimitError "operation response queue" 1 0)
       | _ => RouteDone action ref
       end, set_op ref p c).

(** [parseNotice]: [Ok None] is a response that is no notice. *)
Definition parseNotice (protocol : bytes) (limits : Limits) : result (option cerror) :=
  response ← decode_message ExtendedResponse_UnmarshalBER protocol limits;
  Ok (if negb (ext_HasResponseName response) ||
         negb (bool_decide (ext_ResponseName response = NoticeOfDisconnectionOID))
      then None
      else Some (NoticeError (lr_ResultCode (ext_Result response))
                             (lr_DiagnosticMessage (ext_Result response)))).

Definition routeUnsolicited (response : Response) (c : Conn) : option cerror * Conn :=
  if negb (bool_decide (rsp_ProtocolID response = extendedResponseIdentifier))
  then (Some (ProtocolError ProtocolUnexpectedIdentifier 0 (rsp_ProtocolID response) None), c)
  else
    match parseNotice (rsp_Protocol response) (BERLimits (c_options c)) with
    | Err err => (Some (ProtocolError ProtocolEnvelope 0 (rsp_ProtocolID response)
                          (Some (translateBERLimit err))), c)
    | Ok (Some notice) => (Some notice, c)
    | Ok None =>
        if len (c_unsolicited c) =? MaxUnsolicitedResponses (c_options c)
        then (Some (LimitError "unsolicited response queue messages" (len (c_unsolicited c) + 1)
                      (MaxUnsolicitedResponses (c_options c))), c)
        else if c_unsolicitedBytes c + len (rsp_Bytes response) >?
                MaxUnsolicitedResponseBytes (c_options c)
        then (Some (LimitError "unsolicited response queue bytes"
                      (c_unsolicitedBytes c + len (rsp_Bytes response))
                      (MaxUnsolicitedResponseBytes (c_options c))), c)
        else (None, set_unsolicited (c_unsolicited c ++ [response])
                      (c_unsolicitedBytes c + len (rsp_Bytes response)) c)
    end.

Definition route (response : Response) (c : Conn) : routing * Conn :=
  if rsp_MessageID response =? 0 then
    match routeUnsolicited response c with
    | (Some err, c) => (RouteError' err, c)
    | (None, c) => (RouteIgnored, c)
    end
  else
    match c_pending c !! rsp_MessageID response with
    | Some ref =>
        match c_ops c !! ref with
        | Some p => route_pending ref p response c
        | None => (RouteIgnored, c)
        end
    | None =>
        match c_tombstones c !! rsp_MessageID response with
        | None => (RouteError' (unexpectedMessageID response), c)
        | Some pattern =>
            if bool_decide (FramingPattern_Classify pattern (rsp_ProtocolID response) = ClassificationInvalid)
            then (RouteError' (unexpectedIdentifier response), c)
            else (RouteIgnored, c)
        end
    end.

(** One round of [NextUnsolicited]. *)
Definition NextUnsolicited_round (c : Conn) : delivery * Conn :=
  match c_unsolicited c with
  | response :: rest =>
      (Delivered response, set_unsolicited rest (c_unsolicitedBytes c - len (rsp_Bytes response)) c)
  | [] => match c_err c with Some err => (Failed err, c) | None => (Waiting, c) end
  end.

(** ** Retirement *)

Definition operationRetirementError (p : pendingOperation) (err : cerror) : cerror :=
  match asTransport err with
  | None => err
  | Some (stage, _, cause) =>
      TransportError stage
        (if p_writeStarted p then OutcomeAmbiguous else OutcomeDefinitelyUnsent) cause
  end.

Definition retire_op (err : cerror) (p : pendingOperation) : pendingOperation :=
  let p := match p_deliveryErr p with
           | None => set_delivery (Some (operationRetirementError p err)) p
           | Some _ => p
           end in
  signalReady (finishLifecycle (set_terminal p)).

(** The operations that are pending, by reference. *)
Definition pending_refs (c : Conn) : gset OpRef := map_img (c_pending c).

Definition retire (err : option cerror) (c : Conn) : Conn :=
  let err := match err with Some err => err | None => ErrClosed end in
  match c_err c with
  | Some _ => c
  | None =>
      let err := if c_closing c then ErrClosed else err in
      MkConn (c_options c) (c_maxID c) stateClosed (c_closing c) (Some err) (c_identity c) (c_policy c) (c_nextID c) ∅ ∅ ∅
        (c_unsolicited c) (c_unsolicitedBytes c)
        (map_imap (fun ref p => Some (if bool_decide (ref ∈ pending_refs c) then retire_op err p else p))
                  (c_ops c))
  end.

(** The first critical section of [CloseContext]: it closes nothing when the
    connection has failed or is closing already. *)
Definition beginClose (c : Conn) : Conn :=
  match c_err c with
  | Some _ => c
  | None =>
      if c_closing c then c
      else
        let c := set_closing true c in
        if negb (bool_decide (c_state c = stateClosed)) then set_state stateDraining c else c
  end.

(** [classifyReadError]; [netClosed] tells whether the error is [net.ErrClosed]. *)
Definition classifyReadError (c : Conn) (err : error) (netClosed : bool) : cerror :=
  if c_closing c || netClosed then ErrClosed
  else if errors_Is err EOF then TransportError StagePeerClose OutcomeNotApplicable (Plain EOF)
  else if asDecodeError err then
    ProtocolError ProtocolFraming 0 zero (Some (translateBERLimit err))
  else TransportError StageRead OutcomeNotApplicable (Plain err).

(** ** Interleavings

    Every critical section as a step. The steps are enabled whenever the code
    could run them for some goroutine, and more often: what holds for all
    reachable states here holds for every schedule of the program. A step
    carries the responses it moves: [Routed] into the operation they are for,
    [Taken] out of its stream. *)
Inductive event := Routed (ref : OpRef) (response : Response) | Taken (ref : OpRef) (response : Response).

(** A response reaches the operation it is for when the write of the request
    has been observed and the operation's framing pattern allows it. *)
Definition route_events (response : Response) (c : Conn) : list event :=
  if rsp_MessageID response =? 0 then []
  else match c_pending c !! rsp_MessageID response with
       | Some ref =>
           match c_ops c !! ref with
           | Some p =>
               if p_writeObserved p &&
                  negb (bool_decide (FramingPattern_Classify (p_pattern p) (rsp_ProtocolID response)
                                     = ClassificationInvalid))
               then [Routed ref response] else []
           | None => []
           end
       | None => []
       end.

Definition next_events (ref : OpRef) (d : delivery) : list event :=
  match d with Delivered response => [Taken ref response] | _ => [] end.

Inductive step (c : Conn) : list event -> Conn -> Prop :=
| step_transition to err c' : transition to c = (err, c') -> step c [] c'
| step_markReady identity policy err c' : markReady identity policy c = (err, c') -> step c [] c'
| step_reserve scope res c' : reserveMessageID_round scope c = (res, c') -> step c [] c'
| step_closeReserve id c' : tryReserveMessageIDLocked c = (id, c') -> step c [] c'
| step_release id : step c [] (releaseReserved id c)
| step_install ref id pattern mode n scope err c' :
    c_ops c !! ref = None ->
    installPending ref (new_pending id pattern mode n) scope c = (err, c') -> step c [] c'
| step_remove ref p : c_ops c !! ref = Some p -> step c [] (removePending ref p c)
| step_startWrite ref p : c_ops c !! ref = Some p -> step c [] (startWrite ref p c)
| step_observeWrite ref p : c_ops c !! ref = Some p -> step c [] (observeWrite ref p c)
| step_next ref p d c' :
    c_ops c !! ref = Some p -> stream_Next ref p c = (d, c') -> step c (next_events ref d) c'
| step_cancel ref p reason a c' :
    c_ops c !! ref = Some p -> cancelOperation ref p reason c = (a, c') -> step c [] c'
| step_abandonReserve ref p id c' :
    c_ops c !! ref = Some p -> sendAbandon_reserve ref p c = (id, c') -> step c [] c'
| step_abandonCommit ref p :
    c_ops c !! ref = Some p -> p_abandoning p = true -> step c [] (sendAbandon_commit ref p c)
| step_route response res c' : route response c = (res, c') -> step c (route_events response c) c'
| step_nextUnsolicited d c' : NextUnsolicited_round c = (d, c') -> step c [] c'
| step_retire err : step c [] (retire err c)
| step_beginClose : step c [] (beginClose c).

Inductive steps (c : Conn) : list event -> Conn -> Prop :=
| steps_refl : steps c [] c
| steps_step log c1 es c2 : steps c log c1 -> step c1 es c2 -> steps c (log ++ es) c2.

(** A fresh connection, and the connections reachable from one. *)
Definition fresh (c : Conn) : Prop :=
  exists options maxID state,
    ConnectionOptions_normalized options = Ok options /\ newConnWithState options maxID state = Ok c.
Definition reachable (c : Conn) : Prop := exists c0 log, fresh c0 /\ steps c0 log c.

(** ** The search for a message identifier *)

Definition used_ids (c : Conn) : gset MessageID :=
  c_reserved c ∪ dom (c_pending c) ∪ dom (c_tombstones c).

Lemma id_used_spec c id : id_used c id = true <-> id ∈ used_ids c.
Proof.
  unfold id_used, used_ids. rewrite !elem_of_union, !elem_of_dom, !orb_true_iff, !bool_decide_eq_true.
  done.
Qed.

Definition bounds (c : Conn) : Prop :=
  1 <= c_maxID c <= MaxMessageID /\ 0 <= c_nextID c <= c_maxID c.

Lemma next_id_mod maxID n : 1 <= maxID <= MaxMessageID -> 0 <= n <= maxID ->
  next_id maxID n = n mod maxID + 1.
Proof.
  intros Hm Hn. unfold MaxMessageID in Hm. unfold next_id.
  destruct (decide (n = maxID)) as [->|Hne].
  - rewrite Z.mod_same by lia. destruct (decide (maxID = 2 ^ 31 - 1)) as [->|H].
    + reflexivity.
    + rewrite conv_id; [|done|unfold in_type; cbn [it_signed it_bits int32]; lia].
      replace (maxID + 1 >? maxID) with true by lia. done.
  - rewrite Z.mod_small by lia.
    rewrite conv_id; [|done|unfold in_type; cbn [it_signed it_bits int32]; lia].
    replace (n + 1 >? maxID) with false by lia. by replace (n + 1 <=? 0) with false by lia.
Qed.

(** The rounds of the search, in unary. *)
Fixpoint rounds (c : Conn) (n : nat) (nextID : MessageID) : MessageID + MessageID :=
  match n with
  | O => inr nextID
  | S n => match probe c nextID with inl id => inl id | inr nextID => rounds c n nextID end
  end.

Lemma rounds_add c a b : forall n,
  rounds c (a + b) n = match rounds c a n with inl id => inl id | inr n => rounds c b n end.
Proof.
  induction a as [|a IH]; intros n; [done|]. cbn [Nat.add rounds].
  destruct (probe c n); [done|apply IH].
Qed.

Lemma search_rounds c p : forall n, search c p n = rounds c (Pos.to_nat p) n.
Proof.
  induction p as [p IH|p IH|]; intros n; cbn [search].
  - rewrite Pos2Nat.inj_xI. cbn [rounds]. destruct (probe c n) as [?|n1]; [done|].
    rewrite Nat.mul_comm, Nat.mul_succ_r, Nat.mul_1_r, rounds_add, IH.
    destruct (rounds c (Pos.to_nat p) n1); [done|apply IH].
  - rewrite Pos2Nat.inj_xO, Nat.mul_comm, Nat.mul_succ_r, Nat.mul_1_r, rounds_add, IH.
    destruct (rounds c (Pos.to_nat p) n); [done|apply IH].
  - rewrite Pos2Nat.inj_1. cbn [rounds]. by destruct (probe c n).
Qed.

(** A successful search returns a free identifier in range. *)
Lemma rounds_found c k : forall n id, 1 <= c_maxID c <= MaxMessageID -> 0 <= n <= c_maxID c ->
  rounds c k n = inl id -> 1 <= id <= c_maxID c /\ id ∉ used_ids c.
Proof.
  induction k as [|k IH]; intros n id Hm Hn H; [done|]. cbn [rounds] in H. unfold probe in H.
  rewrite next_id_mod in H by done. pose proof (Z.mod_pos_bound n (c_maxID c) ltac:(lia)).
  destruct (id_used c (n mod c_maxID c + 1)) eqn:E.
  - apply (IH _ _ Hm) in H; [done|lia].
  - injection H as <-. split; [lia|]. rewrite <- id_used_spec. by rewrite E.
Qed.

(** A failed search has seen the identifiers after [n] in use. *)
Lemma rounds_failed c k : forall n n', 1 <= c_maxID c <= MaxMessageID -> 0 <= n <= c_maxID c ->
  rounds c k n = inr n' ->
  0 <= n' <= c_maxID c /\
  forall i, 0 <= i < Z.of_nat k -> (n + i) mod c_maxID c + 1 ∈ used_ids c.
Proof.
  induction k as [|k IH]; intros n n' Hm Hn H; cbn [rounds] in H.
  - injection H as <-. split; [done|]. intros i Hi. lia.
  - unfold probe in H. rewrite next_id_mod in H by done.
    pose proof (Z.mod_pos_bound n (c_maxID c) ltac:(lia)).
    destruct (id_used c (n mod c_maxID c + 1)) eqn:E; [|done]. apply id_used_spec in E.
    apply (IH _ _ Hm) in H as [Hn' Hi]; [|lia]. split; [done|]. intros i Hik.
    destruct (decide (i = 0)) as [->|Hi0]; [by rewrite Z.add_0_r|].
    specialize (Hi (i - 1) ltac:(lia)).
    replace (n mod c_maxID c + 1 + (i - 1)) with (n mod c_maxID c + i) in Hi by lia.
    by rewrite Z.add_mod_idemp_l in Hi by lia.
Qed.

Lemma size_union_le (X Y : gset MessageID) : (size (X ∪ Y) <= size X + size Y)%nat.
Proof. rewrite size_union_alt. assert (Y ∖ X ⊆ Y) as H by set_solver. apply subseteq_size in H. lia. Qed.

Lemma size_used c : (size (used_ids c) <= size (c_reserved c) + size (c_pending c) + size (c_tombstones c))%nat.
Proof.
  unfold used_ids. rewrite <- !size_dom.
  pose proof (size_union_le (c_reserved c ∪ dom (c_pending c)) (dom (c_tombstones c))).
  pose proof (size_union_le (c_reserved c) (dom (c_pending c))). lia.
Qed.

(** All identifiers seen in use: there is no room. *)
Lemma all_used c : 1 <= c_maxID c ->
  (forall id, 1 <= id <= c_maxID c -> id ∈ used_ids c) ->
  c_maxID c <= Z.of_nat (size (used_ids c)).
Proof.
  intros Hm Hall. assert (list_to_set (seqZ 1 (c_maxID c)) ⊆ used_ids c) as Hsub.
  { intros id Hid. apply elem_of_list_to_set, elem_of_seqZ in Hid. apply Hall. lia. }
  apply subseteq_size in Hsub. rewrite size_list_to_set in Hsub by apply NoDup_seqZ.
  rewrite length_seqZ in Hsub. lia.
Qed.

Lemma search_finds c : bounds c -> Z.of_nat (size (used_ids c)) < c_maxID c ->
  exists id, search c (Z.to_pos (c_maxID c)) (c_nextID c) = inl id /\
    1 <= id <= c_maxID c /\ id ∉ used_ids c.
Proof.
  intros [Hm Hn] Hs. rewrite search_rounds.
  destruct (rounds c _ _) as [id|n'] eqn:E.
  - exists id. split; [done|]. by eapply rounds_found.
  - exfalso. apply rounds_failed in E as [_ Hall]; [|done|done].
    rewrite positive_nat_Z, Z2Pos.id in Hall by lia.
    assert (c_maxID c <= Z.of_nat (size (used_ids c))); [|lia]. apply all_used; [lia|].
    intros id Hid. specialize (Hall ((id - 1 - c_nextID c) mod c_maxID c)
      ltac:(apply Z.mod_pos_bound; lia)).
    rewrite Z.add_mod_idemp_r in Hall by lia.
    replace (c_nextID c + (id - 1 - c_nextID c)) with (id - 1) in Hall by lia.
    rewrite Z.mod_small in Hall by lia. by replace (id - 1 + 1) with id in Hall by lia.
Qed.

(** ** The invariant *)

Definition bytes_of (q : list Response) : Z := foldr (fun r n => len (rsp_Bytes r) + n) 0 q.

Lemma bytes_of_cons r q : bytes_of (r :: q) = len (rsp_Bytes r) + bytes_of q.
Proof. done. Qed.

Lemma bytes_of_app q q' : bytes_of (q ++ q') = bytes_of q + bytes_of q'.
Proof. induction q as [|r q IH]; [done|]. cbn [app]. rewrite !bytes_of_cons. lia. Qed.

Lemma bytes_of_nonneg q : 0 <= bytes_of q.
Proof.
  induction q as [|r q IH]; [done|]. rewrite bytes_of_cons. pose proof (len_nonneg (rsp_Bytes r)). lia.
Qed.

(** An operation's queue is bounded and accounted for, a canceled operation
    queues nothing, an operation that is being abandoned has an error to
    deliver, and a terminal one has finished its life cycle. *)
Record op_ok (o : ConnectionOptions) (p : pendingOperation) : Prop := {
  op_messages : len (p_queue p) <= MaxQueuedResponses o;
  op_bytes : p_queuedBytes p = bytes_of (p_queue p);
  op_limit : p_queuedBytes p <= MaxQueuedResponseBytes o;
  op_canceled : p_canceled p = true -> p_queue p = [];
  op_abandoning : p_abandoning p = true -> p_deliveryErr p <> None;
  op_finished : p_terminal p = true -> p_lifecycleDone p = true
}.

Definition active (p : pendingOperation) : Prop := p_terminal p = false /\ p_lifecycleDone p = false.

Record conn_ok (c : Conn) : Prop := {
  ok_bounds : bounds c;
  ok_options : options_positive (c_options c);
  ok_range : forall id, id ∈ used_ids c -> 1 <= id <= c_maxID c;
  ok_reserved_pending : c_reserved c ## dom (c_pending c);
  ok_reserved_tombstones : c_reserved c ## dom (c_tombstones c);
  ok_pending_tombstones : dom (c_pending c) ## dom (c_tombstones c);
  ok_pending : forall id ref, c_pending c !! id = Some ref ->
    exists p, c_ops c !! ref = Some p /\ p_id p = id /\ active p;
  ok_ops : forall ref p, c_ops c !! ref = Some p -> op_ok (c_options c) p;
  ok_err : c_err c <> None -> c_pending c = ∅ /\ c_tombstones c = ∅ /\ c_state c = stateClosed;
  ok_unsolicited : len (c_unsolicited c) <= MaxUnsolicitedResponses (c_options c) /\
    c_unsolicitedBytes c = bytes_of (c_unsolicited c) /\
    c_unsolicitedBytes c <= MaxUnsolicitedResponseBytes (c_options c)
}.

(** Replacing an operation object. *)
Lemma set_op_ok c ref p p' : conn_ok c -> c_ops c !! ref = Some p -> op_ok (c_options c) p' ->
  p_id p' = p_id p -> (c_pending c !! p_id p = Some ref -> active p') -> conn_ok (set_op ref p' c).
Proof.
  intros [] Hp Hok Hid Hact. constructor; cbn; try done.
  - intros id r Hr. destruct (ok_pending0 id r Hr) as (q & Hq & Hqid & Hqa).
    destruct (decide (r = ref)) as [->|Hne].
    + rewrite Hp in Hq. injection Hq as <-. exists p'. rewrite lookup_insert_eq.
      split; [done|]. split; [congruence|]. apply Hact. congruence.
    + exists q. by rewrite lookup_insert_ne.
  - intros r q Hq. destruct (decide (r = ref)) as [->|Hne].
    + rewrite lookup_insert_eq in Hq. by injection Hq as <-.
    + rewrite lookup_insert_ne in Hq by done. eauto.
Qed.

(** Taking an operation out of the pending map. *)
Lemma delete_pending_ok c id : conn_ok c -> conn_ok (set_pending (delete id (c_pending c)) c).
Proof.
  intros []. constructor; cbn; try done.
  - intros id' Hid. apply ok_range0. unfold used_ids in *. cbn in Hid. set_solver.
  - set_solver.
  - set_solver.
  - intros id' ref Hr. apply lookup_delete_Some in Hr as [_ Hr]. eauto.
  - intros He. destruct (ok_err0 He) as (-> & ? & ?). by rewrite delete_empty.
Qed.

Lemma set_state_ok c s : conn_ok c -> c_err c = None -> conn_ok (set_state s c).
Proof. intros [] He. constructor; cbn; done. Qed.

Lemma set_handoff_ok c identity policy : conn_ok c -> conn_ok (set_handoff identity policy c).
Proof. intros []. constructor; done. Qed.

Lemma set_closing_ok c b : conn_ok c -> conn_ok (set_closing b c).
Proof. by intros []; constructor. Qed.

Lemma reserve_ok c id c' : conn_ok c -> tryReserveMessageIDLocked c = (id, c') -> conn_ok c'.
Proof.
  intros Hok H. unfold tryReserveMessageIDLocked in H. destruct (_ >=? _) eqn:E.
  { injection H as <- <-. done. }
  rewrite search_rounds in H. pose proof (ok_bounds _ Hok) as [Hm Hn].
  destruct (rounds c _ _) as [i|n'] eqn:Er; injection H as <- <-; destruct Hok.
  - apply rounds_found in Er as [Hi Hf]; [|done|done]. unfold used_ids in Hf.
    constructor; cbn; try done.
    + split; cbn; [done|lia].
    + intros j Hj. unfold used_ids in *. cbn in Hj.
      destruct (decide (j = i)) as [->|Hne]; [done|]. apply ok_range0. set_solver.
    + set_solver.
    + set_solver.
  - apply rounds_failed in Er as [Hn' _]; [|done|done]. constructor; cbn; try done.
Qed.

Lemma release_ok c id : conn_ok c -> conn_ok (releaseReserved id c).
Proof.
  intros Hok. unfold releaseReserved. case_bool_decide; [|done]. destruct Hok. constructor; cbn; try done.
  - intros j Hj. apply ok_range0. unfold used_ids in *. cbn in Hj. set_solver.
  - set_solver.
  - set_solver.
Qed.

Lemma new_pending_ok o id pattern mode n : options_positive o -> op_ok o (new_pending id pattern mode n).
Proof.
  intros (_ & H1 & H2 & _). constructor; cbn; try done; rewrite ?len_nil; lia.
Qed.

Lemma install_ok c ref id pattern mode n scope err c' : conn_ok c -> c_ops c !! ref = None ->
  installPending ref (new_pending id pattern mode n) scope c = (err, c') -> conn_ok c'.
Proof.
  intros Hok Hf H. unfold installPending in H. destruct (unusable c) eqn:Eu; [by injection H as <- <-|].
  case_ifs; try (by injection H as <- <-). injection H as <- <-.
  apply negb_false_iff, bool_decide_eq_true in Heqb0. cbn [p_id new_pending] in *.
  pose proof (new_pending_ok (c_options c) id pattern mode n (ok_options _ Hok)) as Hnew.
  assert (c_err c = None) as He by (unfold unusable in Eu; by destruct (c_err c)).
  destruct Hok. constructor; cbn; try done.
  - intros j Hj. apply ok_range0. unfold used_ids in *. cbn in Hj. rewrite dom_insert in Hj. set_solver.
  - rewrite dom_insert. set_solver.
  - set_solver.
  - rewrite dom_insert. set_solver.
  - intros j r Hr. apply lookup_insert_Some in Hr as [[<- <-]|[Hne Hr]].
    + exists (new_pending id pattern mode n). by rewrite lookup_insert_eq.
    + destruct (ok_pending0 j r Hr) as (p & Hp & Hrest). exists p.
      rewrite lookup_insert_ne by (intros ->; congruence). done.
  - intros r p Hp. apply lookup_insert_Some in Hp as [[<- <-]|[Hne Hp]]; [done|eauto].
Qed.

(** Operation updates that touch neither the queue nor the life cycle. *)
Lemma op_ok_terminal o p : op_ok o p -> op_ok o (signalReady (finishLifecycle (set_terminal p))).
Proof. by intros []; constructor. Qed.

Lemma remove_ok c ref p : conn_ok c -> c_ops c !! ref = Some p -> conn_ok (removePending ref p c).
Proof.
  intros Hok Hp. unfold removePending. destruct (is_pending c ref p); [|done].
  eapply set_op_ok; [by apply delete_pending_ok|done| |done|].
  - apply op_ok_terminal. by eapply (ok_ops _ Hok).
  - cbn. by rewrite lookup_delete_eq.
Qed.

(** Updates that keep the identifier and the life cycle of the operation. *)
Lemma update_ok c ref p p' : conn_ok c -> c_ops c !! ref = Some p -> op_ok (c_options c) p' ->
  p_id p' = p_id p -> p_terminal p' = p_terminal p -> p_lifecycleDone p' = p_lifecycleDone p ->
  conn_ok (set_op ref p' c).
Proof.
  intros Hok Hp Ho Hid Ht Hl. eapply set_op_ok; try done. intros Hr.
  destruct (ok_pending _ Hok _ _ Hr) as (q & Hq & _ & Ha). rewrite Hp in Hq. injection Hq as <-.
  unfold active in *. by rewrite Ht, Hl.
Qed.

Lemma op_ok_cancel o p err : options_positive o -> op_ok o p -> op_ok o (cancel_delivery err p).
Proof. intros (_ & H1 & H2 & _) []. constructor; cbn; try done; rewrite ?len_nil; lia. Qed.

Lemma cancel_ok c ref p reason a c' : conn_ok c -> c_ops c !! ref = Some p ->
  cancelOperation ref p reason c = (a, c') -> conn_ok c'.
Proof.
  intros Hok Hp H. unfold cancelOperation in H. destruct (p_terminal p) eqn:Et; [by injection H as <- <-|].
  pose proof (ok_ops _ Hok _ _ Hp) as Ho. pose proof (ok_options _ Hok) as Hopt.
  set (p1 := match p_deliveryErr p with None => _ | Some _ => p end) in *.
  assert (op_ok (c_options c) p1 /\ p_id p1 = p_id p /\ p_terminal p1 = p_terminal p /\
          p_lifecycleDone p1 = p_lifecycleDone p /\ p_deliveryErr p1 <> None) as (H1 & H2 & H3 & H4 & H5).
  { unfold p1. destruct (p_deliveryErr p) eqn:Ed; [by rewrite Ed|].
    pose proof (op_ok_cancel _ _ reason Hopt Ho) as []. by repeat split. }
  clearbody p1. assert (op_ok (c_options c) (set_abandoning p1)) by (by destruct H1; constructor).
  case_ifs; injection H as <- <-; by eapply update_ok.
Qed.

Lemma commit_ok c ref p : conn_ok c -> c_ops c !! ref = Some p -> conn_ok (sendAbandon_commit ref p c).
Proof.
  intros Hok Hp. unfold sendAbandon_commit. destruct (abandonable ref p c) eqn:Ea; [|done]. cbn [negb].
  unfold abandonable in Ea. zbool. unfold is_pending in H. apply bool_decide_eq_true in H.
  assert (c_err c = None) as He by (unfold unusable in H0; by destruct (c_err c)).
  pose proof (ok_ops _ Hok _ _ Hp) as Ho.
  assert (p_id p ∈ dom (c_pending c)) as Hd by (apply elem_of_dom; eauto).
  pose proof (delete_pending_ok c (p_id p) Hok) as Hok'.
  assert (conn_ok (set_ids (c_nextID c) (c_reserved c) (delete (p_id p) (c_pending c))
            (<[p_id p := p_pattern p]> (c_tombstones c)) c)) as Hok2.
  { destruct Hok, Hok'. constructor; cbn; try done.
    - intros j Hj. apply ok_range0. unfold used_ids in *. cbn in Hj.
      rewrite dom_insert, dom_delete in Hj. set_solver.
    - rewrite dom_insert. set_solver.
    - rewrite dom_insert, dom_delete. set_solver. }
  eapply set_op_ok; [done|done| |done|].
  - destruct Ho. by constructor.
  - cbn. by rewrite lookup_delete_eq.
Qed.

Lemma startWrite_ok c ref p : conn_ok c -> c_ops c !! ref = Some p -> conn_ok (startWrite ref p c).
Proof.
  intros Hok Hp. unfold startWrite. destruct (is_pending c ref p); [|done].
  pose proof (ok_ops _ Hok _ _ Hp) as []. by eapply update_ok.
Qed.

Lemma observeWrite_ok c ref p : conn_ok c -> c_ops c !! ref = Some p -> conn_ok (observeWrite ref p c).
Proof.
  intros Hok Hp. unfold observeWrite. pose proof (ok_ops _ Hok _ _ Hp) as []. by eapply update_ok.
Qed.

Lemma next_ok c ref p d c' : conn_ok c -> c_ops c !! ref = Some p ->
  stream_Next ref p c = (d, c') -> conn_ok c'.
Proof.
  intros Hok Hp H. unfold stream_Next in H. destruct (p_queue p) as [|r q] eqn:Eq.
  - destruct (p_deliveryErr p); [|destruct (p_terminal p)]; by injection H as <- <-.
  - injection H as <- <-. pose proof (ok_ops _ Hok _ _ Hp) as [].
    rewrite Eq in *. rewrite bytes_of_cons in *. rewrite len_cons in *.
    pose proof (len_nonneg (rsp_Bytes r)). eapply update_ok; try done.
    constructor; cbn [p_queue p_queuedBytes p_canceled p_terminal p_lifecycleDone set_queue];
      [lia|lia|lia| |done|done]. intros Hc. by specialize (op_canceled0 Hc).
Qed.

(** The queue part of [op_ok], whatever the life cycle. *)
Definition queue_ok (o : ConnectionOptions) (p : pendingOperation) : Prop := op_ok o (finishLifecycle p).

Lemma op_queue_ok o p : op_ok o p -> queue_ok o p.
Proof. by intros []; constructor. Qed.

Lemma queue_op_ok o p : queue_ok o p -> (p_terminal p = true -> p_lifecycleDone p = true) -> op_ok o p.
Proof. by intros [] H; constructor. Qed.

Lemma deliver_ok c cl response p a p' : options_positive (c_options c) -> queue_ok (c_options c) p ->
  deliver c cl response p = (a, p') ->
  queue_ok (c_options c) p' /\ p_id p' = p_id p /\ p_terminal p' = p_terminal p /\
  p_lifecycleDone p' = p_lifecycleDone p.
Proof.
  intros Hopt Ho H. unfold deliver in H. destruct (p_canceled p) eqn:Ec; [by injection H as <- <-|].
  destruct (queue_full c p || _) eqn:Ef.
  - pose proof (op_ok_cancel _ _ (queue_limit c p response) Hopt Ho) as Hc.
    case_ifs; injection H as <- <-; (split; [by destruct Hc|done]).
  - injection H as <- <-. zbool. unfold queue_full in H. zbool. destruct Ho. split; [|done].
    cbn [p_queue p_queuedBytes p_canceled p_terminal p_lifecycleDone finishLifecycle] in *.
    constructor; cbn [p_queue p_queuedBytes p_canceled p_terminal p_lifecycleDone set_queue finishLifecycle];
      try done.
    + rewrite len_app, len_cons, len_nil. lia.
    + rewrite bytes_of_app, bytes_of_cons. change (bytes_of []) with 0. lia.
    + by rewrite Ec.
Qed.

Lemma route_pending_ok c ref p response res c' : conn_ok c -> c_ops c !! ref = Some p ->
  c_pending c !! p_id p = Some ref -> route_pending ref p response c = (res, c') -> conn_ok c'.
Proof.
  intros Hok Hp Hpend H. unfold route_pending in H.
  destruct (p_writeObserved p); cbn [negb] in H; [|destruct (c_err c); by injection H as <- <-].
  set (cl := FramingPattern_Classify _ _) in H. case_bool_decide; [by injection H as <- <-|].
  pose proof (ok_ops _ Hok _ _ Hp) as Ho. pose proof (ok_options _ Hok) as Hopt.
  assert (queue_ok (c_options c) (count_response (len (rsp_Bytes response)) p)) as Hq
    by (by apply op_queue_ok; destruct Ho).
  set (p1 := count_response _ p) in *. case_bool_decide as Hc.
  - set (c1 := set_pending _ c) in *.
    destruct (deliver c1 cl response (set_terminal p1)) as [a p2] eqn:Ed. injection H as <- <-.
    apply (deliver_ok c1) in Ed as (Hq2 & Hid2 & _ & _); [|done|by destruct Hq].
    eapply set_op_ok; [by apply delete_pending_ok|done| |done|].
    + by destruct Hq2.
    + cbn. by rewrite lookup_delete_eq.
  - destruct (deliver c cl response p1) as [a p2] eqn:Ed. injection H as <- <-.
    apply deliver_ok in Ed as (Hq2 & Hid2 & Ht2 & Hl2); [|done|done].
    eapply update_ok; try done. destruct Ho. apply queue_op_ok; [by destruct Hq2|].
    cbn. rewrite Ht2, Hl2. done.
Qed.

Lemma unsolicited_ok c response err c' : conn_ok c -> routeUnsolicited response c = (err, c') -> conn_ok c'.
Proof.
  intros Hok H. unfold routeUnsolicited in H.
  destruct (negb _); [by injection H as <- <-|].
  destruct (parseNotice _ _) as [[notice|]|]; try (by injection H as <- <-).
  destruct (_ =? _) eqn:E1; [by injection H as <- <-|]. destruct (_ >? _) eqn:E2; injection H as <- <-; [done|].
  zbool. destruct Hok. constructor; try done.
  cbn [c_unsolicited c_unsolicitedBytes c_options set_unsolicited].
  rewrite len_app, len_cons, len_nil, bytes_of_app, bytes_of_cons. change (bytes_of []) with 0. lia.
Qed.

Lemma route_ok c response res c' : conn_ok c -> route response c = (res, c') -> conn_ok c'.
Proof.
  intros Hok H. unfold route in H. destruct (_ =? 0).
  { destruct (routeUnsolicited response c) as [[err|] c1] eqn:E; injection H as <- <-;
      by eapply unsolicited_ok. }
  destruct (c_pending c !! rsp_MessageID response) as [ref|] eqn:Er.
  - destruct (ok_pending _ Hok _ _ Er) as (p & Hp & Hid & _). rewrite Hp in H.
    eapply route_pending_ok; try done. by rewrite Hid.
  - destruct (c_tombstones c !! _); [case_bool_decide|]; by injection H as <- <-.
Qed.

Lemma nextUnsolicited_ok c d c' : conn_ok c -> NextUnsolicited_round c = (d, c') -> conn_ok c'.
Proof.
  intros Hok H. unfold NextUnsolicited_round in H. destruct (c_unsolicited c) as [|r q] eqn:E.
  - destruct (c_err c); by injection H as <- <-.
  - injection H as <- <-. destruct Hok. constructor; try done.
    cbn [c_unsolicited c_unsolicitedBytes c_options set_unsolicited].
    rewrite E, len_cons, bytes_of_cons in ok_unsolicited0. pose proof (len_nonneg (rsp_Bytes r)). lia.
Qed.

Lemma retire_op_ok o err p : op_ok o p -> op_ok o (retire_op err p).
Proof.
  intros []. unfold retire_op. destruct (p_deliveryErr p) eqn:E; constructor; try done.
  intros _. cbn. by rewrite E.
Qed.

Lemma retire_ok c err : conn_ok c -> conn_ok (retire err c).
Proof.
  intros Hok. unfold retire. destruct (c_err c) eqn:E; [done|].
  destruct Hok. constructor; try done.
  cbn [c_ops c_options]. intros ref p Hp. rewrite map_lookup_imap in Hp.
    destruct (c_ops c !! ref) as [q|] eqn:Eq; [|done]. cbn in Hp. injection Hp as <-.
    case_bool_decide; [apply retire_op_ok|]; eauto.
Qed.

Lemma beginClose_ok c : conn_ok c -> conn_ok (beginClose c).
Proof.
  intros Hok. unfold beginClose. destruct (c_err c) eqn:E; [done|]. destruct (c_closing c); [done|].
  case_ifs; [apply set_state_ok; [|done]|]; by apply set_closing_ok.
Qed.

Lemma transition_ok c to err c' : conn_ok c -> transition to c = (err, c') -> conn_ok c'.
Proof.
  intros Hok H. unfold transition in H. destruct (c_err c) eqn:E; [by injection H as <- <-|].
  destruct (advanceConnectionState _ _); injection H as <- <-; [by apply set_state_ok|done].
Qed.

Lemma markReady_ok c identity policy err c' : conn_ok c -> markReady identity policy c = (err, c') -> conn_ok c'.
Proof.
  intros Hok H. unfold markReady in H. destruct (c_err c) eqn:E; [by injection H as <- <-|].
  case_ifs; try (by injection H as <- <-).
  destruct (advanceConnectionState _ _); injection H as <- <-; [|done].
  apply set_handoff_ok. by apply set_state_ok.
Qed.

Lemma reserve_round_ok c scope res c' : conn_ok c -> reserveMessageID_round scope c = (res, c') -> conn_ok c'.
Proof.
  intros Hok H. unfold reserveMessageID_round in H. case_ifs; try (by injection H as <- <-).
  destruct (tryReserveMessageIDLocked c) as [[id|] c1] eqn:E; injection H as <- <-; by eapply reserve_ok.
Qed.

Lemma abandonReserve_ok c ref p id c' : conn_ok c -> sendAbandon_reserve ref p c = (id, c') -> conn_ok c'.
Proof.
  intros Hok H. unfold sendAbandon_reserve in H. case_ifs; [by injection H as <- <-|by eapply reserve_ok].
Qed.

Lemma step_ok c es c' : conn_ok c -> step c es c' -> conn_ok c'.
Proof.
  intros Hok H. destruct H.
  - by eapply transition_ok.
  - by eapply markReady_ok.
  - by eapply reserve_round_ok.
  - by eapply reserve_ok.
  - by apply release_ok.
  - by eapply install_ok.
  - by apply remove_ok.
  - by apply startWrite_ok.
  - by apply observeWrite_ok.
  - by eapply next_ok.
  - by eapply cancel_ok.
  - by eapply abandonReserve_ok.
  - by apply commit_ok.
  - by eapply route_ok.
  - by eapply nextUnsolicited_ok.
  - by apply retire_ok.
  - by apply beginClose_ok.
Qed.

Lemma fresh_ok c : fresh c -> conn_ok c.
Proof.
  intros (options & maxID & state & Ho & H). apply normalized_positive in Ho. unfold newConnWithState in H.
  destruct (_ || _) eqn:Em; [done|]. destruct (_ && _); [done|].
  destruct (Limits_Validate _); [done|]. injection H as <-. zbool.
  pose proof Ho as (_ & _ & _ & ? & ? & _). constructor; try done.
  - split; cbn [c_maxID c_nextID]; lia.
  - cbn [c_unsolicited c_unsolicitedBytes c_options]. rewrite len_nil. change (bytes_of []) with 0. lia.
Qed.

Lemma steps_ok c log c' : conn_ok c -> steps c log c' -> conn_ok c'.
Proof. intros Hok Hs. induction Hs; eauto using step_ok. Qed.

Lemma reachable_ok c : reachable c -> conn_ok c.
Proof. intros (c0 & log & Hf & Hs). by eapply steps_ok; [apply fresh_ok|]. Qed.
