(* ===== verification/ConnSafety.v ===== *)
(** * Safety of the connection runtime

    What every schedule of the critical sections of [Conn] keeps: the
    invariant, how a connection evolves (the order [extends]), the order in
    which responses are delivered, and the end of every operation. *)

From S2P Require Import Prelude Wire Packet Reader Decoder Types Protocol Result Errors Options.
From S2P Require Import Response Attributes Operations Search Bind Extended Endpoint Conn.

(** ** How a connection evolves *)

(** What an operation keeps: its identity, and the flags that are never reset. *)
Record op_extends (p p' : pendingOperation) : Prop := {
  oe_id : p_id p' = p_id p;
  oe_pattern : p_pattern p' = p_pattern p;
  oe_mode : p_mode p' = p_mode p;
  oe_canceled : p_canceled p = true -> p_canceled p' = true;
  oe_terminal : p_terminal p = true -> p_terminal p' = true;
  oe_lifecycle : p_lifecycleDone p = true -> p_lifecycleDone p' = true;
  oe_abandoning : p_abandoning p = true -> p_abandoning p' = true;
  oe_started : p_writeStarted p = true -> p_writeStarted p' = true;
  oe_deliveryErr : p_deliveryErr p <> None -> p_deliveryErr p' <> None
}.

#[export] Instance op_extends_preorder : PreOrder op_extends.
Proof.
  split.
  - intros p. by constructor.
  - intros p q r [] []. constructor; try congruence; auto.
Qed.

(** What a connection keeps: its first error, that it is closing, how far it
    is in its life cycle, its tombstones until it is retired, and its
    operations; once it is unusable it gets no new operations. *)
Record extends (c c' : Conn) : Prop := {
  ext_options : c_options c' = c_options c;
  ext_maxID : c_maxID c' = c_maxID c;
  ext_err : forall e, c_err c = Some e -> c_err c' = Some e;
  ext_closing : c_closing c = true -> c_closing c' = true;
  ext_rank : rank (c_state c) <= rank (c_state c');
  ext_tombstones : c_err c' = None -> c_tombstones c ⊆ c_tombstones c';
  ext_pending : unusable c = true -> c_pending c' ⊆ c_pending c;
  ext_ops : forall ref p, c_ops c !! ref = Some p ->
    exists p', c_ops c' !! ref = Some p' /\ op_extends p p'
}.

Lemma extends_unusable c c' : extends c c' -> unusable c = true -> unusable c' = true.
Proof.
  intros [] H. unfold unusable in *. destruct (c_err c) eqn:E.
  - by rewrite (ext_err0 _ eq_refl).
  - destruct (c_err c'); auto.
Qed.

#[export] Instance extends_preorder : PreOrder extends.
Proof.
  split.
  - intros c. constructor; try done. intros ref p Hp. by exists p.
  - intros a b d Hab Hbd. pose proof (extends_unusable _ _ Hab) as Hu. destruct Hab as [], Hbd as [].
    constructor; try congruence; auto; try lia.
    + intros He. etrans; [|by apply ext_tombstones1]. apply ext_tombstones0.
      destruct (c_err b) eqn:E; [|done]. by rewrite (ext_err1 _ eq_refl) in He.
    + intros H. etrans; [by apply ext_pending1, Hu|by apply ext_pending0].
    + intros ref p Hp. destruct (ext_ops0 _ _ Hp) as (q & Hq & Hpq).
      destruct (ext_ops1 _ _ Hq) as (r & Hr & Hqr). exists r. split; [done|]. by etrans.
Qed.

Lemma extends_set_op c ref p p' : c_ops c !! ref = Some p -> op_extends p p' ->
  extends c (set_op ref p' c).
Proof.
  intros Hp He. constructor; try done. cbn [c_ops set_op set_ops]. intros r q Hq.
  destruct (decide (r = ref)) as [->|Hne].
  - rewrite Hp in Hq. injection Hq as <-. exists p'. by rewrite lookup_insert_eq.
  - exists q. by rewrite lookup_insert_ne by done.
Qed.

Lemma extends_ids c n r pending tombstones :
  (unusable c = true -> pending ⊆ c_pending c) -> c_tombstones c ⊆ tombstones ->
  extends c (set_ids n r pending tombstones c).
Proof. intros Hp Ht. constructor; try done. intros ref p Hr. by exists p. Qed.

Lemma extends_set_state c s : rank (c_state c) <= rank s -> extends c (set_state s c).
Proof. intros H. constructor; try done. intros ref p Hr. by exists p. Qed.

Lemma extends_advance c to next : advanceConnectionState (c_state c) to = Ok next ->
  extends c (set_state next c).
Proof.
  intros H. apply advance_rank in H as [-> H]. apply extends_set_state.
  destruct H as [H|[-> H]]; cbn [rank]; lia.
Qed.

Lemma extends_set_unsolicited c q n : extends c (set_unsolicited q n c).
Proof. constructor; try done. intros ref p Hr. by exists p. Qed.

Lemma extends_handoff c identity policy : extends c (set_handoff identity policy c).
Proof. constructor; try done. intros ref p Hr. by exists p. Qed.

Lemma extends_closing c : extends c (set_closing true c).
Proof.
  constructor; try done. intros ref p Hr. by exists p.
Qed.

Lemma rank_le s : rank s <= 7.
Proof. destruct s; cbn; lia. Qed.

(** Updates of one operation object. *)
Ltac op_ext := constructor; done.

Lemma reserve_extends c id c' : tryReserveMessageIDLocked c = (id, c') -> extends c c'.
Proof.
  intros H. unfold tryReserveMessageIDLocked in H. destruct (_ >=? _); [by injection H as <- <-|].
  destruct (search _ _ _); injection H as <- <-; by apply extends_ids.
Qed.

Lemma install_extends c ref p scope err c' : c_ops c !! ref = None ->
  installPending ref p scope c = (err, c') -> extends c c'.
Proof.
  intros Hf H. unfold installPending in H. destruct (unusable c) eqn:Eu; [by injection H as <- <-|].
  case_ifs; injection H as <- <-; try done.
  constructor; try done; [by rewrite Eu|]. cbn. intros r q Hq. exists q.
  rewrite lookup_insert_ne by congruence. done.
Qed.

Lemma remove_extends c ref p : c_ops c !! ref = Some p -> extends c (removePending ref p c).
Proof.
  intros Hp. unfold removePending. destruct (is_pending c ref p); [|done].
  etrans; [apply extends_ids; [|done]; intros _; apply delete_subseteq|].
  apply (extends_set_op (set_pending _ c) ref p); [done|op_ext].
Qed.

Lemma next_extends c ref p d c' : c_ops c !! ref = Some p -> stream_Next ref p c = (d, c') -> extends c c'.
Proof.
  intros Hp H. unfold stream_Next in H. destruct (p_queue p).
  - destruct (p_deliveryErr p); [|destruct (p_terminal p)]; by injection H as <- <-.
  - injection H as <- <-. eapply extends_set_op; [done|op_ext].
Qed.

Lemma cancel_extends c ref p reason a c' : c_ops c !! ref = Some p ->
  cancelOperation ref p reason c = (a, c') -> extends c c'.
Proof.
  intros Hp H. unfold cancelOperation in H. destruct (p_terminal p); [by injection H as <- <-|].
  set (p1 := match p_deliveryErr p with None => _ | Some _ => p end) in *.
  assert (op_extends p p1) as He by (unfold p1; destruct (p_deliveryErr p); [done|op_ext]).
  assert (op_extends p (set_abandoning p1)) by (destruct He; by constructor).
  case_ifs; injection H as <- <-; by eapply extends_set_op.
Qed.

Lemma commit_extends c ref p : conn_ok c -> c_ops c !! ref = Some p ->
  extends c (sendAbandon_commit ref p c).
Proof.
  intros Hok Hp. unfold sendAbandon_commit. destruct (abandonable ref p c) eqn:Ea; [|done]. cbn [negb].
  unfold abandonable, is_pending in Ea. zbool. apply bool_decide_eq_true in H.
  etrans; [apply (extends_ids c (c_nextID c) (c_reserved c) (delete (p_id p) (c_pending c))
                    (<[p_id p := p_pattern p]> (c_tombstones c)))|].
  - intros _. apply delete_subseteq.
  - apply insert_subseteq. apply not_elem_of_dom. pose proof (ok_pending_tombstones _ Hok) as Hd.
    intros Ht. eapply Hd; [|done]. apply elem_of_dom. eauto.
  - apply (extends_set_op _ ref p); [done|op_ext].
Qed.

Lemma deliver_extends c cl response p a p' : deliver c cl response p = (a, p') -> op_extends p p'.
Proof.
  intros H. unfold deliver in H. destruct (p_canceled p) eqn:Ec; [by injection H as <- <-|].
  case_ifs; injection H as <- <-; op_ext.
Qed.

Lemma route_pending_extends c ref p response res c' : c_ops c !! ref = Some p ->
  route_pending ref p response c = (res, c') -> extends c c'.
Proof.
  intros Hp H. unfold route_pending in H.
  destruct (p_writeObserved p); cbn [negb] in H; [|destruct (c_err c); by injection H as <- <-].
  set (cl := FramingPattern_Classify _ _) in H. case_bool_decide; [by injection H as <- <-|].
  assert (op_extends p (count_response (len (rsp_Bytes response)) p)) as He by op_ext.
  set (p1 := count_response _ p) in *. case_bool_decide as Hc; destruct (deliver _ _ _ _) as [a p2] eqn:Ed;
    injection H as <- <-; apply deliver_extends in Ed as [].
  - etrans; [apply (extends_ids c (c_nextID c) (c_reserved c) (delete (p_id p) (c_pending c)) (c_tombstones c));
      [intros _; apply delete_subseteq|done]|].
    destruct He. apply (extends_set_op _ ref p); [done|]. constructor; try (cbn in *; congruence); cbn in *; auto.
  - destruct He. apply (extends_set_op _ ref p); [done|]. constructor; try (cbn in *; congruence); cbn in *; auto.
Qed.

Lemma unsolicited_extends c response err c' : routeUnsolicited response c = (err, c') -> extends c c'.
Proof.
  intros H. unfold routeUnsolicited in H. destruct (negb _); [by injection H as <- <-|].
  destruct (parseNotice _ _) as [[notice|]|]; try (by injection H as <- <-).
  destruct (_ =? _); [by injection H as <- <-|]. destruct (_ >? _); injection H as <- <-; [done|].
  apply extends_set_unsolicited.
Qed.

Lemma route_extends c response res c' : route response c = (res, c') -> extends c c'.
Proof.
  intros H. unfold route in H. destruct (_ =? 0).
  { destruct (routeUnsolicited response c) as [[err|] c1] eqn:E; injection H as <- <-;
      by eapply unsolicited_extends. }
  destruct (c_pending c !! rsp_MessageID response) as [ref|] eqn:Er.
  - destruct (c_ops c !! ref) as [p|] eqn:Hp; [by eapply route_pending_extends|by injection H as <- <-].
  - destruct (c_tombstones c !! _); [case_bool_decide|]; by injection H as <- <-.
Qed.

Lemma retire_op_extends err p : op_extends p (retire_op err p).
Proof. unfold retire_op. destruct (p_deliveryErr p) eqn:E; constructor; try done; cbn; by rewrite ?E. Qed.

Lemma retire_extends c err : extends c (retire err c).
Proof.
  unfold retire. destruct (c_err c) eqn:E; [done|]. constructor; try done.
  - by rewrite E.
  - apply rank_le.
  - intros _. apply map_empty_subseteq.
  - cbn [c_ops]. intros ref p Hp. rewrite map_lookup_imap, Hp. cbn. eexists. split; [done|].
    case_bool_decide; [apply retire_op_extends|done].
Qed.

Lemma retire_sets err c : is_Some (c_err (retire err c)).
Proof. unfold retire. destruct (c_err c) eqn:E; [rewrite E|]; eauto. Qed.

Lemma beginClose_extends c : extends c (beginClose c).
Proof.
  unfold beginClose. destruct (c_err c); [done|]. destruct (c_closing c) eqn:Ec; [done|].
  etrans; [apply extends_closing|]. case_ifs; [|done]. apply extends_set_state.
  cbn [c_state set_closing] in *. destruct (c_state c); cbn; try lia. done.
Qed.

Lemma step_extends c es c' : conn_ok c -> step c es c' -> extends c c'.
Proof.
  intros Hok H. destruct H.
  - unfold transition in H. destruct (c_err c); [by injection H as <- <-|].
    destruct (advanceConnectionState _ _) eqn:E; injection H as <- <-; [by eapply extends_advance|done].
  - unfold markReady in H. destruct (c_err c); [by injection H as <- <-|].
    case_ifs; try (by injection H as <- <-).
    destruct (advanceConnectionState _ _) eqn:E; injection H as <- <-; [|done].
    etrans; [by eapply extends_advance|apply extends_handoff].
  - unfold reserveMessageID_round in H. case_ifs; try (by injection H as <- <-).
    destruct (tryReserveMessageIDLocked c) as [[id|] c1] eqn:E; injection H as <- <-; by eapply reserve_extends.
  - by eapply reserve_extends.
  - unfold releaseReserved. case_bool_decide; [by apply extends_ids|done].
  - by eapply install_extends.
  - by apply remove_extends.
  - unfold startWrite. case_ifs; [apply (extends_set_op _ ref p); [done|op_ext]|done].
  - apply (extends_set_op _ ref p); [done|op_ext].
  - by eapply next_extends.
  - by eapply cancel_extends.
  - unfold sendAbandon_reserve in H0. case_ifs; [by injection H0 as <- <-|by eapply reserve_extends].
  - by apply commit_extends.
  - by eapply route_extends.
  - unfold NextUnsolicited_round in H. destruct (c_unsolicited c); [destruct (c_err c)|];
      injection H as <- <-; try done. apply extends_set_unsolicited.
  - apply retire_extends.
  - apply beginClose_extends.
Qed.

Lemma steps_extends c log c' : conn_ok c -> steps c log c' -> extends c c'.
Proof.
  intros Hok H. induction H as [|log c1 es c2 Hs IH H]; [done|]. etrans; [done|].
  eapply step_extends; [by eapply steps_ok|done].
Qed.

(** ** Operations end *)

(** An operation is over for the connection: its life cycle is finished, and
    its stream has an error to deliver or the end. *)
Definition finished (p : pendingOperation) : Prop :=
  p_lifecycleDone p = true /\ (p_terminal p = true \/ p_deliveryErr p <> None).

(** Every operation is pending under its identifier or finished. *)
Definition conn_done (c : Conn) : Prop := forall ref p, c_ops c !! ref = Some p ->
  c_pending c !! p_id p = Some ref \/ finished p.

Lemma finished_extends p p' : op_extends p p' -> finished p -> finished p'.
Proof. intros [] [? []]; split; auto. Qed.

(** A step keeps [conn_done] when it makes operations only as pending ones,
    and an operation it takes out of the pending map is finished. *)
Lemma done_keep c c' : extends c c' -> conn_done c ->
  (forall ref p, c_ops c' !! ref = Some p -> c_ops c !! ref = None -> c_pending c' !! p_id p = Some ref) ->
  (forall ref p, c_ops c' !! ref = Some p -> c_pending c !! p_id p = Some ref ->
     c_pending c' !! p_id p = Some ref \/ finished p) ->
  conn_done c'.
Proof.
  intros He Hd Hnew Hold ref p' Hp'. destruct (c_ops c !! ref) as [p|] eqn:Hp; [|left; by apply Hnew].
  destruct (ext_ops _ _ He _ _ Hp) as (q & Hq & Hpq). rewrite Hp' in Hq. injection Hq as <-.
  destruct (Hd _ _ Hp) as [H|H].
  - rewrite <- (oe_id _ _ Hpq) in H. by apply Hold.
  - right. by eapply finished_extends.
Qed.

(** Steps that leave the pending map alone. *)
Lemma done_same c c' : extends c c' -> conn_done c -> c_pending c' = c_pending c ->
  (forall ref, c_ops c !! ref = None -> c_ops c' !! ref = None) -> conn_done c'.
Proof.
  intros He Hd Hp Ho. eapply done_keep; [done|done| |].
  - intros ref p H1 H2. apply Ho in H2. congruence.
  - intros ref p _ H. left. by rewrite Hp.
Qed.

(** Steps that take one operation out of the pending map. *)
Lemma done_delete c c' ref p p' : extends c c' -> conn_done c ->
  c_ops c !! ref = Some p -> c_pending c !! p_id p = Some ref ->
  c_pending c' = delete (p_id p) (c_pending c) -> c_ops c' = <[ref := p']> (c_ops c) -> finished p' ->
  conn_done c'.
Proof.
  intros He Hd Hp Hr Epend Eops Hfin. eapply done_keep; [done|done| |]; rewrite Eops.
  - intros r q H1 H2. apply lookup_insert_Some in H1 as [[<- <-]|[_ H1]]; congruence.
  - intros r q H1 H2. apply lookup_insert_Some in H1 as [[<- <-]|[Hne H1]]; [by right|].
    left. rewrite Epend, lookup_delete_ne; [done|]. intros Hid. rewrite <- Hid, Hr in H2. congruence.
Qed.

(** ** What a step does to the operations *)

(** The responses routed to, and taken from, one operation. *)
Definition routed_to (ref : OpRef) (log : list event) : list Response :=
  omap (fun e => match e with Routed r x => if decide (r = ref) then Some x else None | _ => None end) log.
Definition taken_from (ref : OpRef) (log : list event) : list Response :=
  omap (fun e => match e with Taken r x => if decide (r = ref) then Some x else None | _ => None end) log.

(** The queue of an operation follows the events: it ends canceled, or what
    was queued followed by what was routed is what was taken followed by the
    queue. *)
Definition evolves (ref : OpRef) (es : list event) (p p' : pendingOperation) : Prop :=
  p_canceled p' = true /\ taken_from ref es = [] \/
  p_canceled p' = p_canceled p /\ (p_canceled p = false \/ taken_from ref es = []) /\
  p_queue p ++ routed_to ref es = taken_from ref es ++ p_queue p'.

Definition only (ref : OpRef) (es : list event) : Prop :=
  forall r, r <> ref -> routed_to r es = [] /\ taken_from r es = [].

Inductive effect (c : Conn) (es : list event) (c' : Conn) : Prop :=
| effect_none : es = [] -> c_pending c' = c_pending c -> c_ops c' = c_ops c -> effect c es c'
| effect_update ref p p' : c_ops c !! ref = Some p -> c_ops c' = <[ref := p']> (c_ops c) ->
    c_pending c' = c_pending c -> evolves ref es p p' -> only ref es -> effect c es c'
| effect_finish ref p p' : c_ops c !! ref = Some p -> c_ops c' = <[ref := p']> (c_ops c) ->
    c_pending c !! p_id p = Some ref -> c_pending c' = delete (p_id p) (c_pending c) -> finished p' ->
    evolves ref es p p' -> only ref es -> effect c es c'
| effect_install ref p : es = [] -> c_ops c !! ref = None -> c_ops c' = <[ref := p]> (c_ops c) ->
    c_pending c !! p_id p = None -> c_pending c' = <[p_id p := ref]> (c_pending c) ->
    p_queue p = [] -> effect c es c'
| effect_retire f : es = [] -> c_pending c' = ∅ -> c_ops c' = map_imap (fun ref p => Some (f ref p)) (c_ops c) ->
    (forall ref p, c_ops c !! ref = Some p -> p_queue (f ref p) = p_queue p /\
       p_canceled (f ref p) = p_canceled p /\ p_id (f ref p) = p_id p /\
       (c_pending c !! p_id p = Some ref -> finished (f ref p))) -> effect c es c'.

Lemma only_nil ref : only ref [].
Proof. done. Qed.

Lemma evolves_refl ref p p' : p_queue p' = p_queue p -> p_canceled p' = p_canceled p -> evolves ref [] p p'.
Proof. intros Hq Hc. right. cbn. rewrite app_nil_r, Hq, Hc. auto. Qed.

Lemma reserve_effect c id c' : tryReserveMessageIDLocked c = (id, c') -> effect c [] c'.
Proof.
  intros H. unfold tryReserveMessageIDLocked in H. destruct (_ >=? _).
  - injection H as <- <-. by apply effect_none.
  - destruct (search _ _ _); injection H as <- <-; by apply effect_none.
Qed.

Lemma install_effect c ref id pattern mode n scope err c' : conn_ok c -> c_ops c !! ref = None ->
  installPending ref (new_pending id pattern mode n) scope c = (err, c') -> effect c [] c'.
Proof.
  intros Hok Hf H. unfold installPending in H.
  destruct (unusable c); [injection H as <- <-; by apply effect_none|].
  destruct (negb _); [injection H as <- <-; by apply effect_none|].
  destruct (negb _) eqn:E; injection H as <- <-; [by apply effect_none|].
  apply negb_false_iff, bool_decide_eq_true in E.
  eapply (effect_install _ _ _ ref (new_pending id pattern mode n)); try done.
  apply not_elem_of_dom. intros Hd. by eapply (ok_reserved_pending _ Hok).
Qed.

Lemma remove_effect c ref p : c_ops c !! ref = Some p -> effect c [] (removePending ref p c).
Proof.
  intros Hp. unfold removePending. destruct (is_pending c ref p) eqn:E; [|by apply effect_none].
  apply bool_decide_eq_true in E. eapply (effect_finish _ _ _ ref p); try done.
  - split; cbn; auto.
  - by apply evolves_refl.
Qed.

Lemma update_effect c ref p p' : c_ops c !! ref = Some p ->
  (p_canceled p' = true \/ p_queue p' = p_queue p /\ p_canceled p' = p_canceled p) ->
  effect c [] (set_op ref p' c).
Proof.
  intros Hp H. eapply (effect_update _ _ _ ref p p'); try done.
  destruct H as [H|[H1 H2]]; [by left|by apply evolves_refl].
Qed.

Lemma next_effect c ref p d c' : conn_ok c -> c_ops c !! ref = Some p -> stream_Next ref p c = (d, c') ->
  effect c (next_events ref d) c'.
Proof.
  intros Hok Hp H. unfold stream_Next in H. pose proof (ok_ops _ Hok _ _ Hp) as Ho.
  destruct (p_queue p) as [|r q] eqn:Eq.
  - destruct (p_deliveryErr p); [|destruct (p_terminal p)]; injection H as <- <-; by apply effect_none.
  - injection H as <- <-. cbn [next_events]. eapply (effect_update _ _ _ ref p); try done.
    + right. split; [done|]. split.
      * left. destruct (p_canceled p) eqn:Ec; [|done]. by rewrite (op_canceled _ _ Ho Ec) in Eq.
      * cbn. rewrite decide_True by done. by rewrite app_nil_r, Eq.
    + intros r' Hr. cbn. by rewrite decide_False by congruence.
Qed.

Lemma cancel_effect c ref p reason a c' : c_ops c !! ref = Some p ->
  cancelOperation ref p reason c = (a, c') -> effect c [] c'.
Proof.
  intros Hp H. unfold cancelOperation in H.
  destruct (p_terminal p); [injection H as <- <-; by apply effect_none|].
  set (p1 := match p_deliveryErr p with None => _ | Some _ => p end) in *.
  assert (p_canceled p1 = true \/ p_queue p1 = p_queue p /\ p_canceled p1 = p_canceled p)
    by (unfold p1; destruct (p_deliveryErr p); [by right|by left]).
  clearbody p1. case_ifs; injection H as <- <-; by eapply update_effect.
Qed.

Lemma commit_effect c ref p : conn_ok c -> c_ops c !! ref = Some p -> p_abandoning p = true ->
  effect c [] (sendAbandon_commit ref p c).
Proof.
  intros Hok Hp Ha. unfold sendAbandon_commit.
  destruct (abandonable ref p c) eqn:Ea; [|by apply effect_none]. cbn [negb].
  unfold abandonable, is_pending in Ea. zbool. apply bool_decide_eq_true in H.
  eapply (effect_finish _ _ _ ref p); try done.
  - split; [done|]. right. by apply (op_abandoning _ _ (ok_ops _ Hok _ _ Hp)).
  - by apply evolves_refl.
Qed.

Lemma deliver_queue c cl response p a p' : deliver c cl response p = (a, p') ->
  p_canceled p' = true \/
  p_canceled p = false /\ p_canceled p' = false /\ p_queue p' = p_queue p ++ [response].
Proof.
  intros H. unfold deliver in H. destruct (p_canceled p) eqn:Ec.
  - injection H as <- <-. by left.
  - case_ifs; injection H as <- <-; auto.
Qed.

Lemma routed_one ref response : routed_to ref [Routed ref response] = [response].
Proof. cbn. by rewrite decide_True. Qed.

Lemma only_routed ref response : only ref [Routed ref response].
Proof. intros r Hr. cbn. by rewrite decide_False by congruence. Qed.

(** A queued response, whatever else the update does to the operation. *)
Lemma evolves_routed ref response p p1 p2 p' c cl a : deliver c cl response p1 = (a, p2) ->
  p_queue p1 = p_queue p -> p_canceled p1 = p_canceled p ->
  p_queue p' = p_queue p2 -> p_canceled p' = p_canceled p2 -> evolves ref [Routed ref response] p p'.
Proof.
  intros H Hq Hc Hq' Hc'. apply deliver_queue in H as [H|(H1 & H2 & H3)].
  - left. by rewrite Hc'.
  - right. rewrite Hc', H2, <- Hc, H1, routed_one, Hq', H3, Hq. auto.
Qed.

Lemma route_pending_effect c ref p response res c' es : c_ops c !! ref = Some p ->
  c_pending c !! p_id p = Some ref -> route_pending ref p response c = (res, c') ->
  es = (if p_writeObserved p &&
           negb (bool_decide (FramingPattern_Classify (p_pattern p) (rsp_ProtocolID response)
                              = ClassificationInvalid))
        then [Routed ref response] else []) ->
  effect c es c'.
Proof.
  intros Hp Hpend H Hes. unfold route_pending in H.
  destruct (p_writeObserved p); cbn [negb andb] in H, Hes;
    [|destruct (c_err c); injection H as <- <-; by apply effect_none].
  set (cl := FramingPattern_Classify _ _) in H, Hes.
  case_bool_decide; [injection H as <- <-; by apply effect_none|]. cbn [negb] in Hes. subst es.
  case_bool_decide as Hc; destruct (deliver _ _ _ _) as [a p2] eqn:Ed; injection H as <- <-.
  - pose proof (deliver_extends _ _ _ _ _ _ Ed) as Hext.
    eapply (effect_finish _ _ _ ref p); try done.
    + split; [done|]. left. by apply (oe_terminal _ _ Hext).
    + eapply evolves_routed; [exact Ed|done..].
    + apply only_routed.
  - eapply (effect_update _ _ _ ref p); try done.
    + eapply evolves_routed; [exact Ed|done..].
    + apply only_routed.
Qed.

Lemma unsolicited_effect c response err c' : routeUnsolicited response c = (err, c') -> effect c [] c'.
Proof.
  intros H. unfold routeUnsolicited in H.
  destruct (negb _); [injection H as <- <-; by apply effect_none|].
  destruct (parseNotice _ _) as [[notice|]|]; [injection H as <- <-; by apply effect_none| |
    injection H as <- <-; by apply effect_none].
  destruct (_ =? _); [injection H as <- <-; by apply effect_none|].
  destruct (_ >? _); injection H as <- <-; by apply effect_none.
Qed.

Lemma route_effect c response res c' : conn_ok c -> route response c = (res, c') ->
  effect c (route_events response c) c'.
Proof.
  intros Hok H. unfold route in H. unfold route_events. destruct (_ =? 0).
  { destruct (routeUnsolicited response c) as [[err|] c1] eqn:E; injection H as <- <-;
      by eapply unsolicited_effect. }
  destruct (c_pending c !! rsp_MessageID response) as [ref|] eqn:Er.
  - destruct (ok_pending _ Hok _ _ Er) as (p & Hp & Hid & _). rewrite Hp in *.
    eapply route_pending_effect; [done| |done|done]. by rewrite Hid.
  - destruct (c_tombstones c !! _); [case_bool_decide|]; injection H as <- <-; by apply effect_none.
Qed.

Lemma retire_effect c err : effect c [] (retire err c).
Proof.
  unfold retire. destruct (c_err c) eqn:E; [by apply effect_none|].
  eapply effect_retire; [done|done|done|]. cbn beta. intros ref p Hp.
  case_bool_decide as Hr.
  - unfold retire_op. split_and!; try (by destruct (p_deliveryErr p)).
    intros _. destruct (p_deliveryErr p); split; cbn; auto.
  - split_and!; try done. intros Hpend. destruct Hr. unfold pending_refs.
    apply elem_of_map_img. eauto.
Qed.

Lemma step_effect c es c' : conn_ok c -> step c es c' -> effect c es c'.
Proof.
  intros Hok H. destruct H.
  - unfold transition in H. destruct (c_err c); [injection H as <- <-; by apply effect_none|].
    destruct (advanceConnectionState _ _); injection H as <- <-; by apply effect_none.
  - unfold markReady in H. destruct (c_err c); [injection H as <- <-; by apply effect_none|].
    case_ifs; try (injection H as <- <-; by apply effect_none).
    destruct (advanceConnectionState _ _); injection H as <- <-; by apply effect_none.
  - unfold reserveMessageID_round in H. case_ifs; try (injection H as <- <-; by apply effect_none).
    destruct (tryReserveMessageIDLocked c) as [[id|] c1] eqn:E; injection H as <- <-; by eapply reserve_effect.
  - by eapply reserve_effect.
  - unfold releaseReserved. case_bool_decide; by apply effect_none.
  - by eapply install_effect.
  - by apply remove_effect.
  - unfold startWrite. case_ifs; [eapply update_effect; [done|by right]|by apply effect_none].
  - eapply update_effect; [done|by right].
  - by eapply next_effect.
  - by eapply cancel_effect.
  - unfold sendAbandon_reserve in H0. case_ifs; [injection H0 as <- <-; by apply effect_none|].
    by eapply reserve_effect.
  - by apply commit_effect.
  - by eapply route_effect.
  - unfold NextUnsolicited_round in H. destruct (c_unsolicited c); [destruct (c_err c)|];
      injection H as <- <-; by apply effect_none.
  - apply retire_effect.
  - unfold beginClose. destruct (c_err c); [by apply effect_none|].
    destruct (c_closing c); [by apply effect_none|]. case_ifs; by apply effect_none.
Qed.

Lemma step_done c es c' : conn_ok c -> conn_done c -> step c es c' -> conn_done c'.
Proof.
  intros Hok Hd H. pose proof (step_extends _ _ _ Hok H) as He.
  destruct (step_effect _ _ _ Hok H) as [_ Ep Eo|ref p p' Hp Eo Ep _ _|ref p p' Hp Eo Hr Ep Hf _ _
    |ref p _ Hn Eo Hpn Ep _|f _ Ep Eo Hf].
  - apply (done_same c); try done. by rewrite Eo.
  - apply (done_same c); try done. intros r Hr. by rewrite Eo, lookup_insert_ne by congruence.
  - by eapply done_delete.
  - apply (done_keep c); [done|done| |]; rewrite Eo, Ep; intros r q H1 H2;
      apply lookup_insert_Some in H1 as [[<- <-]|[Hne H1]].
    + by rewrite lookup_insert_eq.
    + congruence.
    + congruence.
    + left. rewrite lookup_insert_ne; [done|]. intros Hid. by rewrite Hid, H2 in Hpn.
  - apply (done_keep c); [done|done| |]; rewrite Eo; intros r q H1 H2; rewrite map_lookup_imap in H1;
      destruct (c_ops c !! r) as [p|] eqn:Hp; try done; cbn in H1; injection H1 as <-.
    destruct (Hf _ _ Hp) as (_ & _ & Hid & Hfin). right. apply Hfin. by rewrite <- Hid.
Qed.

(** ** Order of delivery *)

(** Every operation has delivered a prefix of what was routed to it; the rest
    is its queue, unless it was canceled. *)
Definition fifo (log : list event) (c : Conn) : Prop := forall ref,
  match c_ops c !! ref with
  | None => routed_to ref log = [] /\ taken_from ref log = []
  | Some p =>
      (taken_from ref log) `prefix_of` (routed_to ref log) /\
      (p_canceled p = false -> routed_to ref log = taken_from ref log ++ p_queue p)
  end.

Lemma routed_app ref l k : routed_to ref (l ++ k) = routed_to ref l ++ routed_to ref k.
Proof. apply omap_app. Qed.

Lemma taken_app ref l k : taken_from ref (l ++ k) = taken_from ref l ++ taken_from ref k.
Proof. apply omap_app. Qed.

(** One operation of a step. *)
Lemma fifo_evolves ref log es p p' : evolves ref es p p' ->
  (taken_from ref log) `prefix_of` (routed_to ref log) ->
  (p_canceled p = false -> routed_to ref log = taken_from ref log ++ p_queue p) ->
  (taken_from ref (log ++ es)) `prefix_of` (routed_to ref (log ++ es)) /\
  (p_canceled p' = false -> routed_to ref (log ++ es) = taken_from ref (log ++ es) ++ p_queue p').
Proof.
  intros He Hpre Hq. rewrite routed_app, taken_app. destruct He as [[Hc Ht]|(Hc & Ht & Hqq)].
  - rewrite Hc, Ht, app_nil_r. split; [|done]. by apply prefix_app_r.
  - assert (p_canceled p = false -> routed_to ref log ++ routed_to ref es =
              (taken_from ref log ++ taken_from ref es) ++ p_queue p') as Hrun.
    { intros Hn. rewrite (Hq Hn), <- !(assoc_L (++)). by rewrite Hqq. }
    split; [|by rewrite Hc]. destruct Ht as [Hn|Ht].
    + rewrite (Hrun Hn). by apply prefix_app_r.
    + rewrite Ht, app_nil_r. by apply prefix_app_r.
Qed.

Lemma step_fifo log c es c' : conn_ok c -> fifo log c -> step c es c' -> fifo (log ++ es) c'.
Proof.
  intros Hok Hf H ref. specialize (Hf ref).
  destruct (step_effect _ _ _ Hok H) as [-> _ Eo|r p p' Hp Eo _ He Honly|r p p' Hp Eo _ _ _ He Honly
    |r p -> Hn Eo _ _ Hq|f -> _ Eo Hfp].
  - by rewrite app_nil_r, Eo.
  - rewrite Eo. destruct (decide (r = ref)) as [->|Hne].
    + rewrite lookup_insert_eq. rewrite Hp in Hf. by eapply fifo_evolves; [|apply Hf..].
    + rewrite lookup_insert_ne by done. destruct (Honly ref) as [Hr Ht]; [done|].
      by rewrite routed_app, taken_app, Hr, Ht, !app_nil_r.
  - rewrite Eo. destruct (decide (r = ref)) as [->|Hne].
    + rewrite lookup_insert_eq. rewrite Hp in Hf. by eapply fifo_evolves; [|apply Hf..].
    + rewrite lookup_insert_ne by done. destruct (Honly ref) as [Hr Ht]; [done|].
      by rewrite routed_app, taken_app, Hr, Ht, !app_nil_r.
  - rewrite app_nil_r, Eo. destruct (decide (r = ref)) as [->|Hne].
    + rewrite lookup_insert_eq. rewrite Hn in Hf. destruct Hf as [-> ->]. by rewrite Hq.
    + by rewrite lookup_insert_ne by done.
  - rewrite app_nil_r, Eo, map_lookup_imap. destruct (c_ops c !! ref) as [p|] eqn:Hp; [|done]. cbn.
    destruct (Hfp _ _ Hp) as (-> & -> & _). done.
Qed.

Lemma fresh_empty c : fresh c -> c_ops c = ∅ /\ c_err c = None.
Proof.
  intros (options & maxID & state & _ & H). unfold newConnWithState in H.
  destruct (_ || _); [done|]. destruct (_ && _); [done|]. destruct (Limits_Validate _); [done|].
  by injection H as <-.
Qed.

Lemma reachable_done c : reachable c -> conn_done c.
Proof.
  intros (c0 & log & Hf & Hs). pose proof (fresh_ok _ Hf) as Hok. apply fresh_empty in Hf as [Hf _].
  induction Hs as [|log c1 es c2 Hs IH H].
  - intros ref p Hp. by rewrite Hf in Hp.
  - eapply step_done; [by eapply steps_ok|done|done].
Qed.

Lemma reachable_steps c log c' : reachable c -> steps c log c' -> reachable c'.
Proof.
  intros (c0 & l0 & Hf & Hs) H. induction H as [|log c1 es c2 _ (c0' & l' & Hf' & Hs') H].
  - by exists c0, l0.
  - exists c0', (l' ++ es). split; [done|]. by econstructor.
Qed.

(** ** A run of a connection

    A ready connection with room for five messages; one search-like operation
    reserves an identifier, is installed and written; a response is routed to
    it and taken. A second run cancels the operation and abandons it. *)
Definition sample_new : Conn :=
  MkConn DefaultConnectionOptions 5 stateReady false None (MkIdentity (bs "unauthenticated"))
    (MkConnectionPolicy CancellationConservative) 0 ∅ ∅ ∅ [] 0 ∅.
Definition sample_pattern : FramingPattern :=
  MkFramingPattern [searchEntryIdentifier; searchReferenceIdentifier] [searchDoneIdentifier] false true.
Definition sample_response : Response :=
  MkResponse 1 searchEntryIdentifier [48; 5; 2; 1; 1; 100; 0] [100; 0] [] [].
Definition sample_op : pendingOperation := new_pending 1 sample_pattern CancelAbandon 20.
Definition sample_reserved : Conn := snd (reserveMessageID_round operationApplication sample_new).
Definition sample_installed : Conn :=
  snd (installPending 0%nat sample_op operationApplication sample_reserved).
Definition sample_observed : Conn := observeWrite 0%nat sample_op sample_installed.
Definition sample_routed : Conn := snd (route sample_response sample_observed).
Definition sample_written : pendingOperation := set_written false true sample_op.
Definition sample_canceled : Conn := snd (cancelOperation 0%nat sample_written ErrClosed sample_observed).
Definition sample_abandoning : pendingOperation :=
  set_abandoning (signalReady (cancel_delivery ErrClosed sample_written)).
Definition sample_abandoned : Conn := sendAbandon_commit 0%nat sample_abandoning sample_canceled.
Definition sample_failure : cerror := TransportError StageRead OutcomeNotApplicable (Plain EOF).

Lemma sample_fresh : fresh sample_new.
Proof. exists DefaultConnectionOptions, 5, stateReady. split; vm_compute; reflexivity. Qed.

Lemma run_step c log c1 es c2 log' : steps c log c1 -> step c1 es c2 -> log' = log ++ es -> steps c log' c2.
Proof. intros H1 H2 ->. by econstructor. Qed.

Lemma sample_run_observed : steps sample_new [] sample_observed.
Proof.
  assert (steps sample_new [] sample_reserved) as H1.
  { eapply run_step; [apply steps_refl| |reflexivity]. eapply step_reserve, surjective_pairing. }
  assert (steps sample_new [] sample_installed) as H2.
  { eapply run_step; [exact H1| |reflexivity]. eapply (step_install _ 0%nat 1 sample_pattern CancelAbandon 20).
    - vm_compute. reflexivity.
    - apply surjective_pairing. }
  eapply run_step; [exact H2| |reflexivity]. apply step_observeWrite. vm_compute. reflexivity.
Qed.

Lemma sample_run_routed : steps sample_new [Routed 0%nat sample_response] sample_routed.
Proof.
  eapply run_step; [apply sample_run_observed| |].
  - eapply step_route, surjective_pairing.
  - vm_compute. reflexivity.
Qed.

Lemma sample_run_abandoned : steps sample_new [] sample_abandoned.
Proof.
  assert (steps sample_new [] sample_canceled) as H1.
  { eapply run_step; [apply sample_run_observed| |reflexivity].
    eapply (step_cancel _ 0%nat); [|apply surjective_pairing]. vm_compute. reflexivity. }
  eapply run_step; [exact H1| |reflexivity]. apply step_abandonCommit; vm_compute; reflexivity.
Qed.

Lemma sample_reachable log c : steps sample_new log c -> reachable c.
Proof. intros H. exists sample_new, log. split; [apply sample_fresh|done]. Qed.

(** ** What the connection guarantees *)

(** C1. Connection invariant, over every interleaving of the critical sections
    of [Conn]: message identifiers in use are in 1..maxID, and reserved, pending
    and tombstoned ones never overlap; every pending entry is a live operation
    with that identifier; every queue stays within the configured message and
    byte bounds with its byte count exact; a failed connection holds no pending
    operation and no tombstone and is closed; and every operation is pending
    under its identifier or finished. *)
Theorem conn_invariant c : reachable c -> conn_ok c /\ conn_done c.
Proof. intros H. split; [by apply reachable_ok|by apply reachable_done]. Qed.

Lemma conn_invariant_witness :
  reachable sample_routed /\ c_pending sample_routed !! 1 = Some 0%nat /\ conn_ok sample_routed.
Proof.
  split; [exact (sample_reachable _ _ sample_run_routed)|]. split; [vm_compute; reflexivity|].
  exact (proj1 (conn_invariant sample_routed (sample_reachable _ _ sample_run_routed))).
Defined.

Lemma reserve_full c : conn_ok c ->
  Z.of_nat (size (c_reserved c)) + Z.of_nat (size (c_pending c)) + Z.of_nat (size (c_tombstones c)) >= c_maxID c ->
  forall id, 1 <= id <= c_maxID c -> id ∈ used_ids c.
Proof.
  intros Hok Hs. pose proof (ok_bounds _ Hok) as [Hm _].
  assert (Z.of_nat (size (used_ids c)) >= c_maxID c) as Hu.
  { unfold used_ids. destruct Hok.
    rewrite !size_union, !size_dom; [lia|done|]. set_solver. }
  assert (used_ids c ⊆ list_to_set (seqZ 1 (c_maxID c))) as Hsub.
  { intros id Hid. apply elem_of_list_to_set, elem_of_seqZ. pose proof (ok_range _ Hok _ Hid). lia. }
  assert (used_ids c ≡ list_to_set (seqZ 1 (c_maxID c))) as Heq.
  { apply set_subseteq_size_equiv; [done|]. rewrite size_list_to_set by apply NoDup_seqZ.
    rewrite length_seqZ. lia. }
  intros id Hid. rewrite Heq. apply elem_of_list_to_set, elem_of_seqZ. lia.
Qed.

(** C6. Message identifier reservation: in every reachable connection the
    wrap-around search either finds an identifier in 1..maxID that no
    reservation, operation or abandoned operation uses, and adds it to the
    identifiers in use and changes nothing else of them; or it fails, and then
    all maxID identifiers are in use. *)
Theorem message_id_reservation c : reachable c ->
  match tryReserveMessageIDLocked c with
  | (Some id, c') =>
      1 <= id <= c_maxID c /\ id ∉ used_ids c /\ c_nextID c' = id /\
      c_reserved c' = {[id]} ∪ c_reserved c /\ c_pending c' = c_pending c /\ c_tombstones c' = c_tombstones c
  | (None, c') => (forall id, 1 <= id <= c_maxID c -> id ∈ used_ids c) /\ c' = c
  end.
Proof.
  intros Hr. apply reachable_ok in Hr as Hok. pose proof (ok_bounds _ Hok) as Hb.
  unfold tryReserveMessageIDLocked. destruct (_ >=? _) eqn:E.
  - split; [|done]. apply reserve_full; [done|]. lia.
  - destruct (search_finds c Hb) as (id & -> & Hid & Hf); [|done].
    pose proof (size_used c). lia.
Qed.

Lemma message_id_reservation_witness :
  fst (tryReserveMessageIDLocked sample_routed) = Some 2 /\ 2 ∉ used_ids sample_routed.
Proof.
  pose proof (message_id_reservation sample_routed (sample_reachable _ _ sample_run_routed)) as H.
  assert (fst (tryReserveMessageIDLocked sample_routed) = Some 2) as E by (vm_compute; reflexivity).
  split; [exact E|]. destruct (tryReserveMessageIDLocked sample_routed) as [[id|] c']; [|done].
  cbn in E. injection E as ->. apply H.
Defined.

(** C2. In-order delivery: along every interleaving from a fresh connection, a
    stream has handed out a prefix of the responses that were routed to its
    operation, in their order, without loss or duplicates; and as long as the
    operation is not canceled the rest is exactly its queue. *)
Theorem stream_fifo c0 log c ref p : fresh c0 -> steps c0 log c -> c_ops c !! ref = Some p ->
  (taken_from ref log) `prefix_of` (routed_to ref log) /\
  (p_canceled p = false -> routed_to ref log = taken_from ref log ++ p_queue p).
Proof.
  intros Hf Hs Hp. assert (fifo log c) as H.
  { clear Hp. pose proof (fresh_ok _ Hf) as Hok. apply fresh_empty in Hf as [Hf _].
    induction Hs as [|log c1 es c2 Hs IH H].
    - intros r. by rewrite Hf, lookup_empty.
    - eapply step_fifo; [by eapply steps_ok|done|done]. }
  specialize (H ref). by rewrite Hp in H.
Qed.

Lemma stream_fifo_witness : exists p, c_ops sample_routed !! 0%nat = Some p /\
  routed_to 0%nat [Routed 0%nat sample_response] = taken_from 0%nat [Routed 0%nat sample_response] ++ p_queue p.
Proof.
  assert (exists p, c_ops sample_routed !! 0%nat = Some p /\ p_canceled p = false) as (p & Hp & Hc).
  { eexists. split; vm_compute; reflexivity. }
  exists p. split; [exact Hp|].
  exact (proj2 (stream_fifo sample_new _ sample_routed 0%nat p sample_fresh sample_run_routed Hp) Hc).
Defined.

(** C20. Streams end: in every reachable connection, an operation that is no
    longer pending (completed, unsent, abandoned or retired) has finished its
    life cycle, and its stream never waits again: [Next] returns a queued
    response, the delivery error or [io.EOF]. *)
Theorem ended_stream_never_waits c ref p : reachable c -> c_ops c !! ref = Some p ->
  c_pending c !! p_id p <> Some ref ->
  p_lifecycleDone p = true /\ fst (stream_Next ref p c) <> Waiting.
Proof.
  intros Hr Hp Hn. destruct (reachable_done _ Hr _ _ Hp) as [H|[Hl Hf]]; [done|]. split; [done|].
  unfold stream_Next. destruct (p_queue p); [|done]. destruct (p_deliveryErr p); [done|].
  by destruct Hf as [->|Hf].
Qed.

Lemma ended_stream_never_waits_witness : exists p, c_ops sample_abandoned !! 0%nat = Some p /\
  fst (stream_Next 0%nat p sample_abandoned) <> Waiting.
Proof.
  assert (exists p, c_ops sample_abandoned !! 0%nat = Some p /\ c_pending sample_abandoned !! p_id p <> Some 0%nat)
    as (p & Hp & Hn).
  { eexists. split; [vm_compute; reflexivity|]. vm_compute. discriminate. }
  exists p. split; [exact Hp|].
  exact (proj2 (ended_stream_never_waits sample_abandoned 0%nat p
                  (sample_reachable _ _ sample_run_abandoned) Hp Hn)).
Defined.

(** Abandoned identifiers are not reused: once an operation was abandoned,
    its identifier stays tombstoned with its framing pattern, and is neither
    reserved nor given to an operation, until the connection is retired. *)
Theorem abandoned_id_not_reused c log c' id pattern : reachable c -> steps c log c' ->
  c_tombstones c !! id = Some pattern -> c_err c' = None ->
  c_tombstones c' !! id = Some pattern /\ id ∉ c_reserved c' /\ c_pending c' !! id = None.
Proof.
  intros Hr Hs Ht He. pose proof (reachable_ok _ (reachable_steps _ _ _ Hr Hs)) as Hok.
  pose proof (steps_extends _ _ _ (reachable_ok _ Hr) Hs) as Hext.
  assert (c_tombstones c' !! id = Some pattern) as Ht'.
  { by eapply lookup_weaken, (ext_tombstones _ _ Hext). }
  assert (id ∈ dom (c_tombstones c')) as Hd by (apply elem_of_dom; eauto).
  split; [done|]. split.
  - intros H. by eapply (ok_reserved_tombstones _ Hok).
  - apply not_elem_of_dom. intros H. by eapply (ok_pending_tombstones _ Hok).
Qed.

Lemma abandoned_id_not_reused_witness :
  c_tombstones sample_abandoned !! 1 = Some sample_pattern /\
  c_pending (snd (tryReserveMessageIDLocked sample_abandoned)) !! 1 = None.
Proof.
  split; [vm_compute; reflexivity|].
  apply (abandoned_id_not_reused sample_abandoned [] _ 1 sample_pattern
           (sample_reachable _ _ sample_run_abandoned)).
  - eapply run_step; [apply steps_refl|eapply step_closeReserve, surjective_pairing|reflexivity].
  - vm_compute. reflexivity.
  - vm_compute. reflexivity.
Defined.



(** Unexpected responses: a response under an identifier that is neither
    pending nor tombstoned, and one whose protocol choice the pattern of the
    (written) pending or abandoned operation does not allow, is a protocol
    error; a late response the pattern of an abandoned operation allows is
    dropped. None of them changes the connection. *)
Theorem unexpected_responses c response : rsp_MessageID response <> 0 ->
  (rsp_MessageID response ∉ dom (c_pending c) ->
   match c_tombstones c !! rsp_MessageID response with
   | None => route response c = (RouteError' (unexpectedMessageID response), c)
   | Some pattern =>
       route response c =
         (if bool_decide (FramingPattern_Classify pattern (rsp_ProtocolID response) = ClassificationInvalid)
          then RouteError' (unexpectedIdentifier response) else RouteIgnored, c)
   end) /\
  (forall ref p, c_pending c !! rsp_MessageID response = Some ref -> c_ops c !! ref = Some p ->
   p_writeObserved p = true ->
   FramingPattern_Classify (p_pattern p) (rsp_ProtocolID response) = ClassificationInvalid ->
   route response c = (RouteError' (unexpectedIdentifier response), c)).
Proof.
  intros Hid. unfold route. replace (rsp_MessageID response =? 0) with false by lia. split.
  - intros Hn. rewrite not_elem_of_dom in Hn. rewrite Hn.
    destruct (c_tombstones c !! _); [|done]. by case_bool_decide.
  - intros ref p -> -> Hw Hc. unfold route_pending. rewrite Hw, Hc. cbn [negb]. done.
Qed.

Lemma unexpected_responses_witness :
  route (MkResponse 1 bindResponseIdentifier [] [] [] []) sample_observed =
    (RouteError' (unexpectedIdentifier (MkResponse 1 bindResponseIdentifier [] [] [] [])), sample_observed).
Proof.
  apply (proj2 (unexpected_responses sample_observed (MkResponse 1 bindResponseIdentifier [] [] [] [])
    ltac:(vm_compute; discriminate)) 0%nat sample_written);
    vm_compute; reflexivity.
Defined.

(** The life cycle only advances: along every schedule the state never goes
    back in the order dialing, transport setup, authenticating, initializing,
    ready, draining, closed, the first error is kept, and a connection that is
    closing or has failed stays so and never gets a new pending operation. *)
Theorem lifecycle_monotone c log c' : reachable c -> steps c log c' ->
  rank (c_state c) <= rank (c_state c') /\
  (forall err, c_err c = Some err -> c_err c' = Some err) /\
  (unusable c = true -> unusable c' = true /\ c_pending c' ⊆ c_pending c).
Proof.
  intros Hr Hs. pose proof (steps_extends _ _ _ (reachable_ok _ Hr) Hs) as He. split_and!.
  - apply (ext_rank _ _ He).
  - apply (ext_err _ _ He).
  - intros Hu. split; [by eapply extends_unusable|by apply (ext_pending _ _ He)].
Qed.

Lemma lifecycle_monotone_witness :
  unusable (beginClose sample_observed) = true /\
  c_pending (snd (installPending 7%nat sample_op operationApplication (beginClose sample_observed)))
    ⊆ c_pending (beginClose sample_observed).
Proof.
  split; [vm_compute; reflexivity|].
  apply (lifecycle_monotone (beginClose sample_observed) []).
  - eapply sample_reachable. eapply run_step; [apply sample_run_observed|apply step_beginClose|reflexivity].
  - eapply run_step; [apply steps_refl| |reflexivity].
    eapply (step_install _ 7%nat 1 sample_pattern CancelAbandon 20); [vm_compute; reflexivity|].
    apply surjective_pairing.
  - vm_compute. reflexivity.
Defined.
