(* ===== verification/Trace.v ===== *)
(** * Operation traces

    Models the operation observer of src/trace.go and the dispatches to it in
    src/connection.go: what every critical section of an operation reports, the
    channel of the observer with its fixed capacity, and the goroutine that calls
    the hooks. The hooks, the logger and times are not part of the state; a hook
    may never return, so the goroutine may stop taking dispatches at any point. *)

From S2P Require Import Prelude Wire Packet Reader Framer Decoder Types Protocol Result Errors Options.
From S2P Require Import Response Attributes Operations Search Bind Extended Endpoint Conn ConnSafety.

(** ** Dispatches *)

Inductive TraceEventKind := TraceQueued | TraceWritten | TraceFirstResponse | TraceCanceled | TraceConnectionRetired.

Definition TraceEventKind_String (k : TraceEventKind) : string :=
  match k with
  | TraceQueued => "queued"
  | TraceWritten => "written"
  | TraceFirstResponse => "first_response"
  | TraceCanceled => "canceled"
  | TraceConnectionRetired => "connection_retired"
  end.

Record TraceEvent := MkTraceEvent { te_Kind : TraceEventKind; te_Bytes : Z; te_Responses : Z }.
Record TraceEnd := MkTraceEnd { td_RequestBytes : Z; td_ResponseBytes : Z; td_Responses : Z; td_ErrorClass : string }.
Inductive traceDispatch := traceDispatchEvent (event : TraceEvent) | traceDispatchEnd (final : TraceEnd).

(** [context.Canceled] and [context.DeadlineExceeded]. *)
Definition ContextCanceled : cerror := Plain (ErrorString "context canceled").
Definition ContextDeadlineExceeded : cerror := Plain (ErrorString "context deadline exceeded").

Definition errorClass (err : option cerror) : string :=
  match err with
  | None => "none"
  | Some err =>
      if Is err ErrClosed then "closed"
      else if Is err ContextCanceled then "canceled"
      else if Is err ContextDeadlineExceeded then "deadline_exceeded"
      else if Is err ErrNoticeOfDisconnection then "notice_of_disconnection"
      else if Is err ErrProtocol then "protocol"
      else if Is err ErrResourceLimit then "resource_limit"
      else if Is err ErrSetup then "setup"
      else if Is err ErrEndpointUnavailable then "endpoint_unavailable"
      else if Is err ErrTransport then "transport"
      else "other"
  end.

(** ** The observer *)

(** [ob_on]: there is a trace or a logger, so that the channel and its goroutine
    exist. [ob_taken] are the dispatches the goroutine has taken, in order. *)
Record operationObserver := MkObserver {
  ob_on : bool;
  ob_queue : list traceDispatch;
  ob_once : bool;
  ob_taken : list traceDispatch;
  ob_returned : bool
}.

Definition traceCapacity : Z := 8.

Definition startOperationObserver (on : bool) : operationObserver := MkObserver on [] false [] false.

(** A send on the channel; [None] is a send that waits. *)
Definition send (d : traceDispatch) (o : operationObserver) : option operationObserver :=
  if len (ob_queue o) <? traceCapacity
  then Some (MkObserver (ob_on o) (ob_queue o ++ [d]) (ob_once o) (ob_taken o) (ob_returned o)) else None.
Definition set_once (o : operationObserver) : operationObserver :=
  MkObserver (ob_on o) (ob_queue o) true (ob_taken o) (ob_returned o).

Definition observer_event (event : TraceEvent) (o : operationObserver) : option operationObserver :=
  if negb (ob_on o) then Some o else send (traceDispatchEvent event) o.
Definition observer_end (final : TraceEnd) (o : operationObserver) : option operationObserver :=
  if negb (ob_on o) then Some o
  else if ob_once o then Some o
  else set_once <$> send (traceDispatchEnd final) o.

Definition observe (d : traceDispatch) (o : operationObserver) : option operationObserver :=
  match d with traceDispatchEvent event => observer_event event o | traceDispatchEnd final => observer_end final o end.
Definition observe_all (ds : list traceDispatch) (o : operationObserver) : option operationObserver :=
  foldl (fun o d => o ≫= observe d) (Some o) ds.

(** One round of [run]: it takes a dispatch, and returns after the end. *)
Definition observer_run (o : operationObserver) : operationObserver :=
  if ob_returned o then o
  else
    match ob_queue o with
    | [] => o
    | d :: queue =>
        MkObserver (ob_on o) queue (ob_once o) (ob_taken o ++ [d])
          (match d with traceDispatchEnd _ => true | traceDispatchEvent _ => false end)
    end.

(** ** What the operations report *)

Definition operationEvent (kind : TraceEventKind) (p : pendingOperation) : traceDispatch :=
  traceDispatchEvent (MkTraceEvent kind (p_responseBytes p) (p_responses p)).

(** [finishLifecycle] ends the trace the first time. *)
Definition finish_dispatch (err : option cerror) (p : pendingOperation) : list traceDispatch :=
  if p_lifecycleDone p then []
  else [traceDispatchEnd (MkTraceEnd (p_requestBytes p) (p_responseBytes p) (p_responses p) (errorClass err))].

Definition cancel_dispatch (p : pendingOperation) : list traceDispatch :=
  if p_terminal p then []
  else match p_deliveryErr p with None => [operationEvent TraceCanceled p] | Some _ => [] end.

Definition remove_dispatch (err : option cerror) (ref : OpRef) (p : pendingOperation) (c : Conn) : list traceDispatch :=
  if is_pending c ref p then finish_dispatch err p else [].

Definition abandon_dispatch (ref : OpRef) (p : pendingOperation) (c : Conn) : list traceDispatch :=
  if abandonable ref p c then finish_dispatch (p_deliveryErr p) p else [].

Definition route_dispatch (p : pendingOperation) (response : Response) (c : Conn) : list traceDispatch :=
  if negb (p_writeObserved p) then []
  else
    let classification := FramingPattern_Classify (p_pattern p) (rsp_ProtocolID response) in
    if bool_decide (classification = ClassificationInvalid) then []
    else
      let counted := count_response (len (rsp_Bytes response)) p in
      (if p_firstResponse p then [] else [operationEvent TraceFirstResponse counted]) ++
      (if bool_decide (classification = ClassificationComplete)
       then let p' := snd (deliver c classification response (set_terminal counted)) in
            finish_dispatch (p_deliveryErr p') p'
       else []).

Definition retire_dispatch (err : option cerror) (ref : OpRef) (p : pendingOperation) (c : Conn) : list traceDispatch :=
  match c_err c with
  | Some _ => []
  | None =>
      if bool_decide (ref ∈ pending_refs c) then
        let err := if c_closing c then ErrClosed else match err with Some err => err | None => ErrClosed end in
        operationEvent TraceConnectionRetired p ::
        finish_dispatch (match p_deliveryErr p with Some err => Some err | None => Some (operationRetirementError p err) end) p
      else []
  end.

(** Dispatches for one operation. *)
Definition just (ref : OpRef) (ds : list traceDispatch) (ref' : OpRef) : list traceDispatch :=
  if bool_decide (ref' = ref) then ds else [].
Definition silent (_ : OpRef) : list traceDispatch := [].

(** The steps of Conn.v with what they report, for each operation. The write of
    a request is observed once, by the call that made the request. *)
Inductive traced_step (c : Conn) : (OpRef -> list traceDispatch) -> Conn -> Prop :=
| ts_install ref id pattern mode n scope c' :
    c_ops c !! ref = None -> installPending ref (new_pending id pattern mode n) scope c = (None, c') ->
    traced_step c (just ref [traceDispatchEvent (MkTraceEvent TraceQueued 0 0)]) c'
| ts_remove err ref p : c_ops c !! ref = Some p ->
    traced_step c (just ref (remove_dispatch err ref p c)) (removePending ref p c)
| ts_observeWrite ref p written : c_ops c !! ref = Some p -> p_writeObserved p = false ->
    traced_step c (just ref [traceDispatchEvent (MkTraceEvent TraceWritten written 0)]) (observeWrite ref p c)
| ts_cancel ref p reason a c' : c_ops c !! ref = Some p -> cancelOperation ref p reason c = (a, c') ->
    traced_step c (just ref (cancel_dispatch p)) c'
| ts_abandonCommit ref p : c_ops c !! ref = Some p -> p_abandoning p = true ->
    traced_step c (just ref (abandon_dispatch ref p c)) (sendAbandon_commit ref p c)
| ts_route ref p response res c' : rsp_MessageID response <> 0 -> c_pending c !! rsp_MessageID response = Some ref ->
    c_ops c !! ref = Some p -> route response c = (res, c') -> traced_step c (just ref (route_dispatch p response c)) c'
| ts_retire err :
    traced_step c (fun ref => match c_ops c !! ref with Some p => retire_dispatch err ref p c | None => [] end) (retire err c)
| ts_quiet es c' : step c es c' -> c_ops c' = c_ops c -> traced_step c silent c'
| ts_startWrite ref p : c_ops c !! ref = Some p -> traced_step c silent (startWrite ref p c)
| ts_next ref p d c' : c_ops c !! ref = Some p -> stream_Next ref p c = (d, c') -> traced_step c silent c'.

(** ** Connections with their observers *)

Abbreviation observers := (gmap OpRef operationObserver).

(** New operations get an observer; then every observer gets its dispatches. An
    observer that has to wait drops out here: it never happens. *)
Definition with_new (on : bool) (c' : Conn) (obs : observers) : observers :=
  obs ∪ ((fun _ => startOperationObserver on) <$> c_ops c').
Definition dispatched (on : bool) (ds : OpRef -> list traceDispatch) (c' : Conn) (obs : observers) : observers :=
  map_imap (fun ref o => observe_all (ds ref) o) (with_new on c' obs).

Inductive traced_reachable (on : bool) : Conn -> observers -> Prop :=
| tr_fresh c : fresh c -> traced_reachable on c ∅
| tr_step c obs ds c' : traced_reachable on c obs -> traced_step c ds c' -> traced_reachable on c' (dispatched on ds c' obs)
| tr_run c obs ref o : traced_reachable on c obs -> obs !! ref = Some o ->
    traced_reachable on c (<[ref := observer_run o]> obs).

(** ** How much an operation can report *)

Definition is_end (d : traceDispatch) : bool := match d with traceDispatchEnd _ => true | traceDispatchEvent _ => false end.
Definition ends (ds : list traceDispatch) : Z := len (List.filter is_end ds).
Definition sent (o : operationObserver) : list traceDispatch := ob_taken o ++ ob_queue o.

(** An upper bound on the dispatches of an operation, from its flags: one for
    the queued event and each flag that an event sets, two for the end of the
    life cycle (a retired operation reports the retirement and the end). *)
Definition failing (p : pendingOperation) : bool := match p_deliveryErr p with Some _ => true | None => false end.
Definition weight (p : pendingOperation) : Z :=
  1 + Z.b2z (p_writeObserved p) + Z.b2z (p_firstResponse p) + Z.b2z (failing p) + 2 * Z.b2z (p_lifecycleDone p).

Record advance (ds : list traceDispatch) (p p' : pendingOperation) : Prop := {
  ad_weight : weight p + len ds <= weight p';
  ad_ends : Z.b2z (p_lifecycleDone p) + ends ds = Z.b2z (p_lifecycleDone p')
}.

(** What a step reports, against what it does to the operations. *)
Definition sound (c : Conn) (ds : OpRef -> list traceDispatch) (c' : Conn) : Prop :=
  forall ref, match c_ops c !! ref, c_ops c' !! ref with
  | Some p, Some p' => advance (ds ref) p p'
  | Some _, None => False
  | None, Some p' => len (ds ref) <= weight p' /\ ends (ds ref) = 0 /\ p_lifecycleDone p' = false
  | None, None => True
  end.

Lemma weight_le p : weight p <= 6.
Proof. unfold weight. destruct (p_writeObserved p), (p_firstResponse p), (failing p), (p_lifecycleDone p); cbn; lia. Qed.

Lemma advance_same p p' : weight p' = weight p -> p_lifecycleDone p' = p_lifecycleDone p -> advance [] p p'.
Proof. intros Hw Hl. split; [rewrite Hw, len_nil; lia|]. rewrite Hl. unfold ends. cbn [List.filter]. rewrite len_nil. lia. Qed.

Lemma sound_quiet c c' : c_ops c' = c_ops c -> sound c silent c'.
Proof. intros H ref. rewrite H. destruct (c_ops c !! ref); [by apply advance_same|done]. Qed.

Lemma sound_op c c' ref ds p p' : c_ops c !! ref = Some p -> c_ops c' = <[ref := p']> (c_ops c) -> advance ds p p' ->
  sound c (just ref ds) c'.
Proof.
  intros Hp Hc Ha r. rewrite Hc. unfold just. case_bool_decide as Hr.
  - subst r. by rewrite Hp, lookup_insert_eq.
  - rewrite lookup_insert_ne by done. destruct (c_ops c !! r); [by apply advance_same|done].
Qed.

Lemma sound_just c ref : sound c (just ref []) c.
Proof. intros r. unfold just. case_bool_decide; destruct (c_ops c !! r); try done; by apply advance_same. Qed.

Lemma ends_nil : ends [] = 0.
Proof. done. Qed.

Lemma ends_cons d ds : ends (d :: ds) = Z.b2z (is_end d) + ends ds.
Proof. unfold ends. cbn [List.filter]. destruct (is_end d); rewrite ?len_cons; cbn [Z.b2z]; lia. Qed.

Lemma ends_app l k : ends (l ++ k) = ends l + ends k.
Proof. unfold ends. by rewrite List.filter_app, len_app. Qed.

Lemma finish_advance err p ds q : p_lifecycleDone p = false -> p_lifecycleDone q = true -> ends ds = 0 -> len ds <= 1 ->
  p_writeObserved q = p_writeObserved p -> p_firstResponse q = p_firstResponse p ->
  (failing p = true -> failing q = true) -> advance (ds ++ finish_dispatch err p) p q.
Proof.
  intros Hp Hq He Hl Hw Hf Hd. unfold finish_dispatch. rewrite Hp. split.
  - rewrite len_app, len_cons, len_nil. unfold weight. rewrite Hp, Hq, Hw, Hf.
    destruct (failing p); [rewrite Hd by done|destruct (failing q)]; cbn [Z.b2z]; lia.
  - rewrite ends_app, ends_cons, ends_nil, He, Hp, Hq. cbn. lia.
Qed.

Lemma pending_active c ref p : conn_ok c -> c_ops c !! ref = Some p -> is_pending c ref p = true -> active p.
Proof.
  intros Hok Hp H. apply bool_decide_eq_true in H. destruct (ok_pending _ Hok _ _ H) as (q & Hq & _ & Ha). congruence.
Qed.

Lemma remove_sound c err ref p : conn_ok c -> c_ops c !! ref = Some p ->
  sound c (just ref (remove_dispatch err ref p c)) (removePending ref p c).
Proof.
  intros Hok Hp. unfold remove_dispatch, removePending. destruct (is_pending c ref p) eqn:E; [|apply sound_just].
  destruct (pending_active c ref p) as [_ Hl]; [done..|].
  eapply sound_op; [done|reflexivity|]. by apply (finish_advance err p []).
Qed.

Lemma abandon_sound c ref p : conn_ok c -> c_ops c !! ref = Some p ->
  sound c (just ref (abandon_dispatch ref p c)) (sendAbandon_commit ref p c).
Proof.
  intros Hok Hp. unfold abandon_dispatch, sendAbandon_commit. destruct (abandonable ref p c) eqn:E; cbn [negb]; [|apply sound_just].
  unfold abandonable in E. apply andb_true_iff in E as [E _]. destruct (pending_active c ref p) as [_ Hl]; [done..|].
  eapply sound_op; [done|reflexivity|]. by apply (finish_advance (p_deliveryErr p) p []).
Qed.

Lemma event_advance d p q : is_end d = false -> weight p + 1 <= weight q -> p_lifecycleDone q = p_lifecycleDone p ->
  advance [d] p q.
Proof. intros Hd Hw Hl. split; [by rewrite len_cons, len_nil|]. rewrite ends_cons, ends_nil, Hd, Hl. cbn. lia. Qed.

Lemma observeWrite_sound c ref p d : c_ops c !! ref = Some p -> p_writeObserved p = false -> is_end d = false ->
  sound c (just ref [d]) (observeWrite ref p c).
Proof.
  intros Hp Hw Hd. eapply sound_op; [done|reflexivity|]. apply event_advance; [done| |done].
  unfold weight, failing. cbn. rewrite Hw. cbn. lia.
Qed.

Lemma cancel_sound c ref p reason a c' : c_ops c !! ref = Some p -> cancelOperation ref p reason c = (a, c') ->
  sound c (just ref (cancel_dispatch p)) c'.
Proof.
  intros Hp H. unfold cancelOperation, cancel_dispatch in *. destruct (p_terminal p); [injection H as <- <-; apply sound_just|].
  set (p1 := match p_deliveryErr p with None => _ | Some _ => p end) in *.
  set (ds := match p_deliveryErr p with None => _ | Some _ => [] end).
  assert (advance ds p p1 /\ advance ds p (set_abandoning p1)) as [H1 H2].
  { unfold ds, p1. destruct (p_deliveryErr p) eqn:E; [by split; apply advance_same|].
    split; (apply event_advance; [done| |done]); unfold weight, failing; cbn; rewrite E; cbn; lia. }
  clearbody p1 ds. case_ifs; injection H as <- <-; by eapply sound_op.
Qed.

Lemma deliver_weight c cl response p a p' : deliver c cl response p = (a, p') ->
  p_writeObserved p' = p_writeObserved p /\ p_firstResponse p' = p_firstResponse p /\
  p_lifecycleDone p' = p_lifecycleDone p /\ (failing p = true -> failing p' = true).
Proof. unfold deliver. intros H. case_ifs; injection H as <- <-; done. Qed.

Lemma first_advance p d ds q : is_end d = false -> p_firstResponse q = true ->
  (p_firstResponse p = true -> advance ds p q) ->
  (p_firstResponse p = false -> weight p + 1 + len ds <= weight q /\
     Z.b2z (p_lifecycleDone p) + ends ds = Z.b2z (p_lifecycleDone q)) ->
  advance ((if p_firstResponse p then [] else [d]) ++ ds) p q.
Proof.
  intros Hd Hq H1 H2. destruct (p_firstResponse p) eqn:E; [by apply H1|]. destruct (H2 eq_refl) as [Hw He].
  split; cbn [app]; [rewrite len_cons; lia|]. rewrite ends_cons, Hd. cbn [Z.b2z]. lia.
Qed.

Lemma route_pending_sound c ref p response res c' : conn_ok c -> c_ops c !! ref = Some p -> active p ->
  route_pending ref p response c = (res, c') -> sound c (just ref (route_dispatch p response c)) c'.
Proof.
  intros Hok Hp [_ Hl] H. unfold route_pending, route_dispatch in *.
  destruct (p_writeObserved p) eqn:Ew; cbn [negb] in *;
    [|destruct (c_err c); injection H as <- <-; apply sound_just].
  set (cl := FramingPattern_Classify (p_pattern p) (rsp_ProtocolID response)) in *.
  case_bool_decide as Hi; [injection H as <- <-; apply sound_just|].
  set (counted := count_response (len (rsp_Bytes response)) p) in *.
  case_bool_decide as Hc.
  - change (deliver (set_pending _ c) cl response (set_terminal counted)) with
      (deliver c cl response (set_terminal counted)) in H.
    destruct (deliver c cl response (set_terminal counted)) as [a q] eqn:Ed. cbn [snd].
    injection H as <- <-. eapply sound_op; [done|reflexivity|].
    apply deliver_weight in Ed as (E1 & E2 & E3 & E4). cbn in E1, E2, E3.
    apply first_advance; [done|done| |]; unfold finish_dispatch; rewrite E3, Hl.
    all: intros Hf; split; rewrite ?len_cons, ?ends_cons, ?len_nil, ?ends_nil; [|by cbn; rewrite ?Hl].
    all: unfold weight; cbn; rewrite E1, E2, Hl, Ew, Hf; unfold failing in *; cbn in E4 |- *.
    all: destruct (p_deliveryErr p), (p_deliveryErr q); cbn; try lia; by discriminate E4.
  - destruct (deliver c cl response counted) as [a q] eqn:Ed. injection H as <- <-.
    eapply sound_op; [done|reflexivity|].
    apply deliver_weight in Ed as (E1 & E2 & E3 & E4). cbn in E1, E2, E3.
    assert (weight p + Z.b2z (negb (p_firstResponse p)) <= weight (signalReady q)) as Hw.
    { unfold weight. cbn. rewrite E1, E2, E3, Hl, Ew. unfold failing in *. cbn in E4 |- *.
      destruct (p_deliveryErr p), (p_deliveryErr q), (p_firstResponse p); cbn; try lia; by discriminate E4. }
    apply first_advance; [done|done| |]; intros Hf; rewrite Hf in Hw; cbn in Hw.
    all: split; rewrite ?len_nil, ?ends_nil; [lia|]; cbn; rewrite E3; lia.
Qed.

Lemma route_sound c response ref p res c' : conn_ok c -> rsp_MessageID response <> 0 ->
  c_pending c !! rsp_MessageID response = Some ref -> c_ops c !! ref = Some p -> route response c = (res, c') ->
  sound c (just ref (route_dispatch p response c)) c'.
Proof.
  intros Hok Hid Hr Hp H. unfold route in H. replace (rsp_MessageID response =? 0) with false in H by lia.
  rewrite Hr, Hp in H. destruct (ok_pending _ Hok _ _ Hr) as (q & Hq & _ & Ha). rewrite Hp in Hq. injection Hq as <-.
  by eapply route_pending_sound.
Qed.

Lemma retire_sound c err : conn_ok c ->
  sound c (fun ref => match c_ops c !! ref with Some p => retire_dispatch err ref p c | None => [] end) (retire err c).
Proof.
  intros Hok ref. unfold retire, retire_dispatch. destruct (c_err c).
  { destruct (c_ops c !! ref); [by apply advance_same|done]. }
  cbn. rewrite map_lookup_imap. destruct (c_ops c !! ref) as [p|] eqn:Hp; [|done]. cbn.
  case_bool_decide as Hr; [|by apply advance_same].
  apply elem_of_map_img in Hr as [id Hid]. destruct (ok_pending _ Hok _ _ Hid) as (q & Hq & _ & _ & Hl).
  rewrite Hp in Hq. injection Hq as <-. set (e := match p_deliveryErr p with Some _ => _ | None => _ end).
  apply (finish_advance e p [operationEvent TraceConnectionRetired p]); try done.
  all: unfold retire_op, failing; destruct (p_deliveryErr p) eqn:E; cbn; rewrite ?E; done.
Qed.

Lemma install_sound c ref id pattern mode n scope c' d : c_ops c !! ref = None -> is_end d = false ->
  installPending ref (new_pending id pattern mode n) scope c = (None, c') -> sound c (just ref [d]) c'.
Proof.
  intros Hn Hd H. unfold installPending in H. case_ifs; try done. injection H as <-. intros r. cbn [c_ops set_op set_ops set_ids]. unfold just.
  destruct (bool_decide_reflect (r = ref)) as [Hr|Hr].
  - subst r. rewrite Hn, lookup_insert_eq. rewrite len_cons, len_nil, ends_cons, ends_nil, Hd. cbn. done.
  - rewrite lookup_insert_ne by done. destruct (c_ops c !! r); [by apply advance_same|done].
Qed.

Lemma just_nil c ref c' : sound c (just ref []) c' -> sound c silent c'.
Proof. intros H r. specialize (H r). unfold just in H. by case_bool_decide. Qed.

Lemma startWrite_sound c ref p : c_ops c !! ref = Some p -> sound c silent (startWrite ref p c).
Proof.
  intros Hp. unfold startWrite. destruct (is_pending c ref p); [|by apply sound_quiet].
  apply (just_nil _ ref). eapply sound_op; [done|reflexivity|]. by apply advance_same.
Qed.

Lemma next_sound c ref p d c' : c_ops c !! ref = Some p -> stream_Next ref p c = (d, c') -> sound c silent c'.
Proof.
  intros Hp H. unfold stream_Next in H.
  destruct (p_queue p); [destruct (p_deliveryErr p); [|destruct (p_terminal p)]|];
    injection H as <- <-; try by apply sound_quiet.
  apply (just_nil _ ref). eapply sound_op; [done|reflexivity|]. by apply advance_same.
Qed.

Lemma traced_sound c ds c' : conn_ok c -> traced_step c ds c' -> sound c ds c'.
Proof.
  intros Hok H. destruct H.
  - by eapply install_sound.
  - by apply remove_sound.
  - by apply observeWrite_sound.
  - by eapply cancel_sound.
  - by apply abandon_sound.
  - by eapply route_sound.
  - by apply retire_sound.
  - by apply sound_quiet.
  - by apply startWrite_sound.
  - by eapply next_sound.
Qed.

(** ** Every step is traced *)

Lemma traced_is_step c ds c' : traced_step c ds c' -> exists es, step c es c'.
Proof.
  destruct 1; eexists.
  - by eapply step_install.
  - by apply step_remove.
  - by apply step_observeWrite.
  - by eapply step_cancel.
  - by apply step_abandonCommit.
  - by eapply step_route.
  - apply step_retire.
  - done.
  - by apply step_startWrite.
  - by eapply step_next.
Qed.

Lemma unsolicited_ops c response err c' : routeUnsolicited response c = (err, c') -> c_ops c' = c_ops c.
Proof. unfold routeUnsolicited. intros H. repeat case_match; by simplify_eq. Qed.

Lemma reserve_ops c id c' : tryReserveMessageIDLocked c = (id, c') -> c_ops c' = c_ops c.
Proof. unfold tryReserveMessageIDLocked. intros H. repeat case_match; by simplify_eq. Qed.

(** Every step of a connection is traced. *)
Lemma step_is_traced c es c' : step c es c' -> exists ds, traced_step c ds c'.
Proof.
  intros Hs. assert (c_ops c' = c_ops c -> exists ds, traced_step c ds c') as Hquiet.
  { intros H. exists silent. by eapply ts_quiet. }
  destruct Hs as [to err c' H|identity policy err c' H|scope res c' H|id c' H|id|ref id pattern mode n scope [err|] c' Hn H
    |ref p Hp|ref p Hp|ref p Hp|ref p d c' Hp H|ref p reason a c' Hp H|ref p id c' Hp H|ref p Hp Ha|response res c' H
    |d c' H|err|].
  - apply Hquiet. unfold transition in H. repeat case_match; by simplify_eq.
  - apply Hquiet. unfold markReady in H. repeat case_match; by simplify_eq.
  - apply Hquiet. unfold reserveMessageID_round in H.
    destruct (tryReserveMessageIDLocked c) as [[i|] c1] eqn:E; apply reserve_ops in E; repeat case_match; by simplify_eq.
  - by eapply Hquiet, reserve_ops.
  - apply Hquiet. unfold releaseReserved. by case_match.
  - apply Hquiet. unfold installPending in H. repeat case_match; by simplify_eq.
  - eexists. by eapply ts_install.
  - eexists. by apply (ts_remove _ None).
  - eexists. by apply ts_startWrite.
  - destruct (p_writeObserved p) eqn:E; [|eexists; by apply (ts_observeWrite _ _ _ 0)].
    apply Hquiet. cbn. apply insert_id. rewrite Hp. f_equal. destruct p. cbn in *. by subst.
  - eexists. by eapply ts_next.
  - eexists. by eapply ts_cancel.
  - apply Hquiet. unfold sendAbandon_reserve in H. case_match; [by simplify_eq|by eapply reserve_ops].
  - eexists. by apply ts_abandonCommit.
  - destruct (decide (rsp_MessageID response = 0)) as [H0|H0].
    { apply Hquiet. unfold route in H. replace (rsp_MessageID response =? 0) with true in H by lia.
      destruct (routeUnsolicited response c) as [[e|] c1] eqn:E; apply unsolicited_ops in E; by simplify_eq. }
    destruct (c_pending c !! rsp_MessageID response) as [ref|] eqn:Hr; [destruct (c_ops c !! ref) as [p|] eqn:Hp|].
    { eexists. by eapply ts_route. }
    all: apply Hquiet; unfold route in H; replace (rsp_MessageID response =? 0) with false in H by lia; rewrite Hr in H.
    + rewrite Hp in H. by simplify_eq.
    + repeat case_match; by simplify_eq.
  - apply Hquiet. unfold NextUnsolicited_round in H. repeat case_match; by simplify_eq.
  - eexists. apply ts_retire.
  - apply Hquiet. unfold beginClose. repeat case_match; done.
Qed.

(** ** Observers and their operations *)

(** One end, last: the goroutine returns when it has taken it. *)
Definition taken_ok (o : operationObserver) : Prop :=
  if ob_returned o then exists events final, ob_taken o = events ++ [traceDispatchEnd final] /\ ends events = 0
  else ends (ob_taken o) = 0.

(** [w] bounds the dispatches so far, [over] tells whether the end is among them. *)
Record watched (on : bool) (w : Z) (over : bool) (o : operationObserver) : Prop := {
  w_on : ob_on o = on;
  w_len : len (sent o) <= w;
  w_off : on = false -> sent o = [];
  w_done : on = true -> ends (sent o) = Z.b2z over;
  w_once : ends (sent o) = Z.b2z (ob_once o);
  w_taken : taken_ok o
}.

Definition watching (on : bool) (c : Conn) (obs : observers) : Prop :=
  forall ref, match c_ops c !! ref, obs !! ref with
  | Some p, Some o => watched on (weight p) (p_lifecycleDone p) o
  | None, None => True
  | _, _ => False
  end.

Lemma ends_nonneg ds : 0 <= ends ds.
Proof. apply len_nonneg. Qed.

Lemma observe_ok d o : ob_on o = true -> len (ob_queue o) < traceCapacity -> Z.b2z (ob_once o) + Z.b2z (is_end d) <= 1 ->
  exists o', observe d o = Some o' /\ ob_on o' = true /\ ob_queue o' = ob_queue o ++ [d] /\ ob_taken o' = ob_taken o /\
    ob_returned o' = ob_returned o /\ Z.b2z (ob_once o') = Z.b2z (ob_once o) + Z.b2z (is_end d).
Proof.
  intros Ho Hl He. unfold observe, observer_event, observer_end, send. rewrite Ho.
  replace (len (ob_queue o) <? traceCapacity) with true by lia.
  destruct d; cbn [negb is_end] in *; [eexists; split; [done|]; cbn; split_and!; try done; lia|].
  destruct (ob_once o); cbn in *; [lia|]. eexists. split; [done|]. done.
Qed.

Lemma observe_all_cons d ds o : observe_all (d :: ds) o = observe d o ≫= observe_all ds.
Proof.
  unfold observe_all. cbn. destruct (observe d o) as [o'|]; cbn; [done|]. induction ds; [done|]. done.
Qed.

Lemma observe_all_ok ds : forall o, ob_on o = true -> len (ob_queue o) + len ds <= traceCapacity ->
  Z.b2z (ob_once o) + ends ds <= 1 ->
  exists o', observe_all ds o = Some o' /\ ob_on o' = true /\ ob_queue o' = ob_queue o ++ ds /\ ob_taken o' = ob_taken o /\
    ob_returned o' = ob_returned o /\ Z.b2z (ob_once o') = Z.b2z (ob_once o) + ends ds.
Proof.
  induction ds as [|d ds IH]; intros o Ho Hl He.
  { exists o. rewrite app_nil_r, ends_nil. split_and!; try done. lia. }
  rewrite len_cons in Hl. rewrite ends_cons in He |- *. pose proof (ends_nonneg ds). pose proof (len_nonneg ds).
  destruct (observe_ok d o) as (o1 & H1 & Ho1 & Hq1 & Ht1 & Hr1 & Hn1); [done|lia|lia|].
  destruct (IH o1) as (o2 & H2 & Ho2 & Hq2 & Ht2 & Hr2 & Hn2);
    [done|rewrite Hq1, len_app, len_cons, len_nil; lia|lia|].
  exists o2. rewrite observe_all_cons, H1. cbn. split; [done|]. split; [done|].
  rewrite Hq2, Hq1, Ht2, Hr2, <- app_assoc. split_and!; try done. lia.
Qed.

Lemma observe_all_off ds o : ob_on o = false -> observe_all ds o = Some o.
Proof.
  intros Ho. induction ds as [|d ds IH]; [done|]. rewrite observe_all_cons.
  destruct d; unfold observe, observer_event, observer_end; rewrite Ho; done.
Qed.

Lemma watched_new on : watched on 0 false (startOperationObserver on).
Proof. by split. Qed.

Lemma watched_dispatch on w over ds w' over' o : watched on w over o -> w + len ds <= w' -> w' <= traceCapacity ->
  Z.b2z over + ends ds = Z.b2z over' -> exists o', observe_all ds o = Some o' /\ watched on w' over' o'.
Proof.
  intros [Hon Hlen Hoff Hdone Honce Htaken] Hw Hw' He. pose proof (len_nonneg ds). destruct on.
  - specialize (Hdone eq_refl). unfold sent in Hlen. rewrite len_app in Hlen. pose proof (len_nonneg (ob_taken o)).
    destruct (observe_all_ok ds o) as (o' & H1 & Ho1 & Hq1 & Ht1 & Hr1 & Hn1); [done|lia| |].
    { destruct over'; cbn in He; lia. }
    exists o'. split; [done|]. unfold sent in *. rewrite ends_app in Hdone, Honce.
    constructor; unfold sent, taken_ok; rewrite ?Hq1, ?Ht1, ?Hr1; try done.
    + rewrite !len_app. lia.
    + intros _. rewrite !ends_app. lia.
    + rewrite !ends_app. lia.
  - exists o. rewrite observe_all_off by done. split; [done|]. constructor; try done. lia.
Qed.

Lemma watched_run on w over o : watched on w over o -> watched on w over (observer_run o).
Proof.
  intros Hw. unfold observer_run. destruct (ob_returned o) eqn:Er; [done|]. destruct (ob_queue o) as [|d queue] eqn:Eq; [done|].
  destruct Hw as [Hon Hlen Hoff Hdone Honce Htaken]. unfold taken_ok in Htaken. rewrite Er in Htaken.
  set (o' := MkObserver _ _ _ _ _). assert (sent o' = sent o) as Hs.
  { unfold sent, o'. cbn. by rewrite Eq, <- app_assoc. }
  constructor; rewrite ?Hs; try done. unfold taken_ok. destruct d as [event|final]; cbn.
  - rewrite ends_app, Htaken. done.
  - by exists (ob_taken o), final.
Qed.

(** A step finds room for all that it reports. *)
Lemma watching_step on c obs ds c' : watching on c obs -> sound c ds c' -> forall ref o,
  with_new on c' obs !! ref = Some o -> exists o' p', observe_all (ds ref) o = Some o' /\ c_ops c' !! ref = Some p' /\
    watched on (weight p') (p_lifecycleDone p') o'.
Proof.
  intros Hw Hs ref o Ho. specialize (Hw ref). specialize (Hs ref). unfold with_new in Ho.
  rewrite lookup_union, lookup_fmap in Ho.
  destruct (c_ops c !! ref) as [p|], (obs !! ref) as [o0|]; try done; destruct (c_ops c' !! ref) as [p'|]; try done;
    cbn in Ho; injection Ho as <-; pose proof (weight_le p'); unfold traceCapacity in *.
  - destruct Hs as [H1 H2]. destruct (watched_dispatch _ _ _ (ds ref) (weight p') (p_lifecycleDone p') _ Hw) as (o' & ? & ?);
      [done|unfold traceCapacity; lia|done|]. eauto.
  - destruct Hs as (H1 & H2 & H3).
    destruct (watched_dispatch _ _ _ (ds ref) (weight p') (p_lifecycleDone p') _ (watched_new on)) as (o' & ? & ?);
      [lia|unfold traceCapacity; lia|rewrite H2, H3; done|]. eauto.
Qed.

Lemma watching_dispatched on c obs ds c' : watching on c obs -> sound c ds c' -> watching on c' (dispatched on ds c' obs).
Proof.
  intros Hw Hs ref. unfold dispatched. rewrite map_lookup_imap.
  destruct (with_new on c' obs !! ref) as [o|] eqn:Ho.
  - destruct (watching_step _ _ _ _ _ Hw Hs _ _ Ho) as (o' & p' & H1 & H2 & H3). cbn. by rewrite H1, H2.
  - cbn. unfold with_new in Ho. rewrite lookup_union, lookup_fmap in Ho. by destruct (c_ops c' !! ref), (obs !! ref).
Qed.

Lemma traced_reachable_steps on c obs : traced_reachable on c obs -> reachable c.
Proof.
  induction 1 as [c Hf|c obs ds c' _ IH H|]; [|  |done].
  - exists c, []. split; [done|constructor].
  - apply traced_is_step in H as [es H]. eapply reachable_steps; [done|]. eapply run_step; [constructor|done|reflexivity].
Qed.

Lemma traced_watching on c obs : traced_reachable on c obs -> watching on c obs.
Proof.
  induction 1 as [c Hf|c obs ds c' Hr IH H|c obs ref o Hr IH Ho].
  - intros ref. by rewrite (proj1 (fresh_empty _ Hf)), !lookup_empty.
  - apply watching_dispatched with c; [done|]. apply traced_sound; [|done]. by eapply reachable_ok, traced_reachable_steps.
  - intros r. specialize (IH r). destruct (decide (r = ref)) as [->|Hne]; [|by rewrite lookup_insert_ne].
    rewrite lookup_insert_eq. rewrite Ho in IH. destruct (c_ops c !! ref); [by apply watched_run|done].
Qed.

(** The reports of a request that is refused before it is pending. *)
Definition refused_dispatch (requestBytes : Z) (err : cerror) : list traceDispatch :=
  [traceDispatchEvent (MkTraceEvent TraceQueued 0 0);
   traceDispatchEnd (MkTraceEnd requestBytes 0 0 (errorClass (Some err)))].

(** ** A traced run: a request is written and the connection fails, while the
    hook of the first event does not return *)
Definition sample_queued : OpRef -> list traceDispatch :=
  just 0%nat [traceDispatchEvent (MkTraceEvent TraceQueued 0 0)].
Definition sample_wrote : OpRef -> list traceDispatch :=
  just 0%nat [traceDispatchEvent (MkTraceEvent TraceWritten 20 0)].
Definition sample_observers : observers :=
  dispatched true sample_wrote sample_observed
    (dispatched true sample_queued sample_installed (dispatched true silent sample_reserved ∅)).

Lemma sample_traced : traced_reachable true sample_observed sample_observers.
Proof.
  assert (traced_reachable true sample_reserved (dispatched true silent sample_reserved ∅)) as H1.
  { eapply tr_step; [apply tr_fresh, sample_fresh|]. eapply ts_quiet; [eapply step_reserve, surjective_pairing|].
    vm_compute. reflexivity. }
  assert (traced_reachable true sample_installed
    (dispatched true sample_queued sample_installed (dispatched true silent sample_reserved ∅))) as H2.
  { eapply tr_step; [exact H1|]. eapply (ts_install _ 0%nat 1 sample_pattern CancelAbandon 20 operationApplication);
      vm_compute; reflexivity. }
  eapply tr_step; [exact H2|]. apply ts_observeWrite; vm_compute; reflexivity.
Qed.

(** C23. Tracing never blocks a connection. Whatever the hooks do - the goroutine
    that calls them may stop for ever after any dispatch - an operation reports
    at most six dispatches in every interleaving, its channel holds eight, so
    every report of every step, made while the connection is locked, is accepted
    at once; so are the reports of a refused request. The trace of an operation
    with a trace or a logger has its end exactly when its life cycle is done, and
    once: the goroutine takes no other end, and the end last. Every step of a
    connection is traced. *)
Theorem operation_trace on c obs : traced_reachable on c obs ->
  (forall ds c' ref o, traced_step c ds c' -> with_new on c' obs !! ref = Some o ->
     exists o', observe_all (ds ref) o = Some o' /\ len (sent o') <= 6) /\
  (forall n err, is_Some (observe_all (refused_dispatch n err) (startOperationObserver on))) /\
  (forall ref p, c_ops c !! ref = Some p -> exists o, obs !! ref = Some o /\ taken_ok o /\
     (on = true -> ends (sent o) = Z.b2z (p_lifecycleDone p))) /\
  (forall es c', step c es c' -> exists ds, traced_step c ds c').
Proof.
  intros Hr. pose proof (traced_watching _ _ _ Hr) as Hw. split_and!.
  - intros ds c' ref o Hs Ho. apply traced_sound in Hs; [|by eapply reachable_ok, traced_reachable_steps].
    destruct (watching_step _ _ _ _ _ Hw Hs _ _ Ho) as (o' & p' & H1 & _ & []). exists o'. split; [done|].
    etrans; [done|apply weight_le].
  - intros n err. by destruct on.
  - intros ref p Hp. specialize (Hw ref). rewrite Hp in Hw. destruct (obs !! ref) as [o|]; [|done].
    exists o. split; [done|]. split; [apply Hw|apply Hw].
  - apply step_is_traced.
Qed.

Lemma operation_trace_witness : exists o,
  sample_observers !! 0%nat = Some o /\ ob_taken o = [] /\ len (sent o) = 2 /\
  exists o', observe_all [operationEvent TraceConnectionRetired sample_written;
    traceDispatchEnd (MkTraceEnd 20 0 0 "transport")] o = Some o' /\ len (sent o') <= 6.
Proof.
  destruct (sample_observers !! 0%nat) as [o|] eqn:Ho; [|vm_compute in Ho; discriminate].
  exists o. split; [reflexivity|].
  split; [vm_compute in Ho; injection Ho as <-; reflexivity|].
  split; [vm_compute in Ho; injection Ho as <-; reflexivity|].
  refine (proj1 (operation_trace true sample_observed sample_observers sample_traced) _ (retire (Some sample_failure) sample_observed)
    0%nat o (ts_retire _ (Some sample_failure)) _).
  vm_compute in Ho. injection Ho as <-. vm_compute. reflexivity.
Defined.
