(* ===== verification/Telemetry.v ===== *)
(** * Telemetry of operations

    Models what the observer of an operation does with the dispatches it takes: the
    hooks and log lines of src/trace.go, and the OpenTelemetry adapter of
    src/otelldap/trace.go, whose span and instruments are recorded as the calls that
    are made to them. The theorem composes them with the traced connection of
    Trace.v.

    Hooks and loggers are code of the caller: they act on a state [W] of their own
    and may panic. A time is a number of nanoseconds; a dispatch carries the time at
    which it was made. *)

From S2P Require Import Prelude Wire Packet Reader Framer Decoder Types Protocol Result Errors Options.
From S2P Require Import Response Attributes Operations Search Bind Extended Endpoint Conn ConnSafety Trace.

Open Scope run_scope.

(** ** Values *)

(** The values of [slog.Attr] and [attribute.KeyValue]. *)
Inductive attrValue := VString (s : bytes) | VInt64 (n : Z) | VUint64 (n : Z) | VDuration (d : Z).
#[export] Instance attrValue_eq_dec : EqDecision attrValue.
Proof. solve_decision. Defined.
Definition KeyValue : Type := string * attrValue.

Record TraceStart := MkTraceStart {
  st_Endpoint : string;
  st_EndpointAddress : bytes;
  st_Connection : Z;
  st_Label : string;
  st_ApplicationTag : Identifier;
  st_RequestID : Identifier;
  st_MessageID : Z
}.

(** [Time.Sub] saturates. *)
Definition Sub (t u : Z) : Z := Z.max (- 2 ^ 63) (Z.min (2 ^ 63 - 1) (t - u)).

(** ** Hooks *)

Inductive hook := Returned | Panicked.

Section hooks.
Context {W : Type}.

Record Trace := MkTrace {
  tr_Event : Z -> TraceEvent -> ST W hook;
  tr_End : Z -> TraceEnd -> ST W hook
}.

(** [Enabled] answers or panics ([None]). *)
Record Logger := MkLogger {
  lg_Enabled : ST W (option bool);
  lg_LogAttrs : string -> list KeyValue -> ST W hook
}.

(** The fields of [operationObserver] that its goroutine reads. *)
Record operationHooks := MkHooks {
  oh_trace : option Trace;
  oh_logger : option Logger;
  oh_start : TraceStart;
  oh_began : Z
}.

(** [recover] drops a panic. *)
Definition callEvent (o : operationHooks) (at_ : Z) (event : TraceEvent) : ST W unit :=
  match oh_trace o with
  | None => sret tt
  | Some trace => let* _ := tr_Event trace at_ event in sret tt
  end.
Definition callEnd (o : operationHooks) (at_ : Z) (final : TraceEnd) : ST W unit :=
  match oh_trace o with
  | None => sret tt
  | Some trace => let* _ := tr_End trace at_ final in sret tt
  end.

Definition safeDebug (logger : option Logger) (message : string) (attrs : list KeyValue) : ST W unit :=
  match logger with
  | None => sret tt
  | Some logger =>
      let* enabled := lg_Enabled logger in
      match enabled with
      | Some true => let* _ := lg_LogAttrs logger message attrs in sret tt
      | _ => sret tt
      end
  end.

Definition logAttrs (start : TraceStart) : list KeyValue :=
  [("endpoint_id", VString (bs (st_Endpoint start)));
   ("endpoint_address", VString (st_EndpointAddress start));
   ("connection_id", VUint64 (st_Connection start));
   ("operation", VString (bs (st_Label start)));
   ("application_tag", VString (bs (Identifier_String (st_ApplicationTag start))))]%string ++
  (if negb (st_MessageID start =? 0) then [("message_id"%string, VInt64 (st_MessageID start))] else []).

Definition is_written (kind : TraceEventKind) : bool := match kind with TraceWritten => true | _ => false end.

Definition eventFields (o : operationHooks) (at_ : Z) (event : TraceEvent) : list KeyValue :=
  logAttrs (oh_start o) ++
  [("event", VString (bs (TraceEventKind_String (te_Kind event))));
   ("elapsed", VDuration (Sub at_ (oh_began o)));
   (if is_written (te_Kind event) then "request_bytes" else "response_bytes", VUint64 (te_Bytes event));
   ("responses", VUint64 (te_Responses event))]%string.
Definition logEvent (o : operationHooks) (at_ : Z) (event : TraceEvent) : ST W unit :=
  safeDebug (oh_logger o) "ldap operation event" (eventFields o at_ event).

Definition endFields (o : operationHooks) (at_ : Z) (final : TraceEnd) : list KeyValue :=
  logAttrs (oh_start o) ++
  [("duration", VDuration (Sub at_ (oh_began o)));
   ("request_bytes", VUint64 (td_RequestBytes final));
   ("response_bytes", VUint64 (td_ResponseBytes final));
   ("responses", VUint64 (td_Responses final));
   ("error_class", VString (bs (td_ErrorClass final)))]%string.
Definition logEnd (o : operationHooks) (at_ : Z) (final : TraceEnd) : ST W unit :=
  safeDebug (oh_logger o) "ldap operation completed" (endFields o at_ final).

(** The goroutine [run] on the dispatches it takes, in order. *)
Fixpoint hooks_run (o : operationHooks) (ds : list (Z * traceDispatch)) : ST W unit :=
  match ds with
  | [] => sret tt
  | (at_, traceDispatchEvent event) :: ds => callEvent o at_ event ;; logEvent o at_ event ;; hooks_run o ds
  | (at_, traceDispatchEnd final) :: _ => callEnd o at_ final ;; logEnd o at_ final
  end.

(** A tracer returns a context and a trace, which may be nil, or panics ([None]). *)
Definition startHooks {C} (ctx : C) (tracer : option (C -> TraceStart -> ST W (option (option C * option Trace))))
    (logger : option Logger) (start : TraceStart) (began : Z) : ST W (C * option operationHooks) :=
  let* started :=
    match tracer with
    | None => sret (ctx, None)
    | Some tracer =>
        let* r := tracer ctx start in
        sret match r with None => (ctx, None) | Some (returned, trace) => (default ctx returned, trace) end
    end in
  let '(traceCtx, trace) := started in
  sret (traceCtx,
    match trace, logger with
    | None, None => None
    | _, _ => Some (MkHooks trace logger start began)
    end).
End hooks.
Arguments Trace : clear implicits.
Arguments Logger : clear implicits.
Arguments operationHooks : clear implicits.

(** ** The OpenTelemetry adapter *)

Inductive instrumentKind := Float64Histogram | Int64Histogram | Int64Counter.
#[export] Instance instrumentKind_eq_dec : EqDecision instrumentKind.
Proof. solve_decision. Defined.
Record instrument := MkInstrument { in_kind : instrumentKind; in_name : string; in_description : string; in_unit : string }.
#[export] Instance instrument_eq_dec : EqDecision instrument.
Proof. solve_decision. Defined.

(** A measurement: a number, or the seconds of a duration. *)
Inductive measure := Count (n : Z) | Seconds (d : Z).

(** The calls to a tracer, its spans and the instruments of a meter. *)
Inductive call :=
| StartSpan (name : string) (attrs : list KeyValue)
| AddEvent (name : string) (at_ : Z) (attrs : list KeyValue)
| SetAttributes (attrs : list KeyValue)
| SetStatus (description : string)
| EndSpan (at_ : Z)
| Record_ (i : instrument) (value : measure) (attrs : list KeyValue).

Definition emit (c : call) : ST (list call) unit := fun calls => (tt, calls ++ [c]).

(** [Tracer] of the adapter. *)
Record Adapter := MkAdapter {
  ad_duration : instrument;
  ad_requestBytes : instrument;
  ad_responseBytes : instrument;
  ad_responses : instrument;
  ad_operations : instrument
}.

Definition defaultInstrumentationName : string := "github.com/wyattanderson/arden/otelldap".

(** The process-wide providers stand in for providers that are nil; [meter] is
    what a provider answers to the request of an instrument under a scope name. *)
Record Config (P Q : Type) := MkConfig { cg_TracerProvider : option P; cg_MeterProvider : option Q; cg_Name : string }.
Arguments MkConfig {P Q}.
Arguments cg_TracerProvider {P Q} _.
Arguments cg_MeterProvider {P Q} _.
Arguments cg_Name {P Q} _.

Section adapter.
Context {P Q : Type} (globalTracer : P) (globalMeter : Q) (meter : Q -> string -> instrument -> option error).

Definition theInstruments : Adapter := {|
  ad_duration := MkInstrument Float64Histogram "arden.client.operation.duration" "LDAP operation duration" "s";
  ad_requestBytes := MkInstrument Int64Histogram "arden.client.operation.request.size" "LDAP request size" "By";
  ad_responseBytes := MkInstrument Int64Histogram "arden.client.operation.response.size" "LDAP response bytes per operation" "By";
  ad_responses := MkInstrument Int64Histogram "arden.client.operation.responses" "LDAP responses per operation" "{response}";
  ad_operations := MkInstrument Int64Counter "arden.client.operations" "Completed LDAP operations" "{operation}"
|}.
Definition adapterInstruments (a : Adapter) : list instrument :=
  [ad_duration a; ad_requestBytes a; ad_responseBytes a; ad_responses a; ad_operations a].

(** The provider and the scope name of the tracer, the adapter, and the errors
    that [errors.Join] returns. *)
Definition New (config : Config P Q) : (P * string) * Adapter * list error :=
  let name := if bool_decide (cg_Name config = ""%string) then defaultInstrumentationName else cg_Name config in
  let tracerProvider := default globalTracer (cg_TracerProvider config) in
  let meterProvider := default globalMeter (cg_MeterProvider config) in
  ((tracerProvider, name), theInstruments, omap (meter meterProvider name) (adapterInstruments theInstruments)).
End adapter.

(** The attributes of the metrics of an operation, and of its span. *)
Definition metricAttrsOf (start : TraceStart) : list KeyValue :=
  [("arden.endpoint.id", VString (bs (st_Endpoint start)));
   ("arden.operation.name", VString (bs (st_Label start)));
   ("arden.ldap.application_tag", VString (bs (Identifier_String (st_ApplicationTag start))))]%string.
Definition spanAttrs (start : TraceStart) : list KeyValue :=
  [("arden.endpoint.id", VString (bs (st_Endpoint start)));
   ("arden.endpoint.address", VString (st_EndpointAddress start));
   ("arden.connection.id", VInt64 (conv int64 (st_Connection start)));
   ("arden.operation.name", VString (bs (st_Label start)));
   ("arden.ldap.application_tag", VString (bs (Identifier_String (st_ApplicationTag start))))]%string ++
  (if negb (st_MessageID start =? 0) then [("arden.ldap.message_id"%string, VInt64 (st_MessageID start))] else []).

Record operationTrace := MkOperationTrace { ot_adapter : Adapter; ot_began : Z; ot_metricAttrs : list KeyValue }.

Definition spanName (start : TraceStart) : string :=
  if bool_decide (st_Label start = ""%string) then "ldap.operation"%string else st_Label start.

(** [now] is the time at which the span was started. *)
Definition Start (a : Adapter) (now : Z) (start : TraceStart) : ST (list call) operationTrace :=
  emit (StartSpan (spanName start) (spanAttrs start)) ;;
  sret (MkOperationTrace a now (metricAttrsOf start)).

Definition trace_Event (at_ : Z) (event : TraceEvent) : ST (list call) hook :=
  let bytes_ := conv int64 (te_Bytes event) in
  emit (AddEvent (TraceEventKind_String (te_Kind event)) at_
    [(if is_written (te_Kind event) then "arden.request.bytes" else "arden.response.bytes", VInt64 bytes_);
     ("arden.responses", VInt64 (conv int64 (te_Responses event)))]%string) ;;
  sret Returned.

Definition trace_End (t : operationTrace) (at_ : Z) (final : TraceEnd) : ST (list call) hook :=
  let attrs := ot_metricAttrs t ++ [("arden.error.type"%string, VString (bs (td_ErrorClass final)))] in
  emit (Record_ (ad_duration (ot_adapter t)) (Seconds (Sub at_ (ot_began t))) attrs) ;;
  emit (Record_ (ad_requestBytes (ot_adapter t)) (Count (conv int64 (td_RequestBytes final))) attrs) ;;
  emit (Record_ (ad_responseBytes (ot_adapter t)) (Count (conv int64 (td_ResponseBytes final))) attrs) ;;
  emit (Record_ (ad_responses (ot_adapter t)) (Count (conv int64 (td_Responses final))) attrs) ;;
  emit (Record_ (ad_operations (ot_adapter t)) (Count 1) attrs) ;;
  emit (SetAttributes
    [("arden.request.bytes", VInt64 (conv int64 (td_RequestBytes final)));
     ("arden.response.bytes", VInt64 (conv int64 (td_ResponseBytes final)));
     ("arden.responses", VInt64 (conv int64 (td_Responses final)));
     ("arden.error.type", VString (bs (td_ErrorClass final)))]%string) ;;
  (if negb (bool_decide (td_ErrorClass final = "none"%string)) && negb (bool_decide (td_ErrorClass final = "closed"%string))
   then emit (SetStatus (td_ErrorClass final)) else sret tt) ;;
  emit (EndSpan at_) ;;
  sret Returned.

(** The adapter is a trace. *)
Definition otelTrace (t : operationTrace) : Trace (list call) := MkTrace trace_Event (trace_End t).

(** ** Only error classes are reported *)

Definition errorClasses : list string :=
  ["none"; "closed"; "canceled"; "deadline_exceeded"; "notice_of_disconnection"; "protocol"; "resource_limit"; "setup";
   "endpoint_unavailable"; "transport"; "other"]%string.
Definition class_ok (d : traceDispatch) : Prop :=
  match d with traceDispatchEnd final => td_ErrorClass final ∈ errorClasses | traceDispatchEvent _ => True end.

Lemma errorClass_in err : errorClass err ∈ errorClasses.
Proof. unfold errorClass. destruct err; [case_ifs|]; apply (bool_decide_unpack _); vm_compute; exact I. Qed.

Lemma finish_class err p : Forall class_ok (finish_dispatch err p).
Proof. unfold finish_dispatch. destruct (p_lifecycleDone p); [constructor|]. apply Forall_singleton, errorClass_in. Qed.

Lemma just_class ref ds ref' : Forall class_ok ds -> Forall class_ok (just ref ds ref').
Proof. unfold just. case_bool_decide; [done|constructor]. Qed.

#[local] Hint Resolve finish_class just_class : core.

Lemma traced_class c ds c' ref : traced_step c ds c' -> Forall class_ok (ds ref).
Proof.
  intros H. destruct H; try (by constructor); try apply just_class; try (repeat constructor; fail).
  - unfold remove_dispatch. case_ifs; [auto|constructor].
  - unfold cancel_dispatch. destruct (p_terminal p), (p_deliveryErr p); repeat constructor.
  - unfold abandon_dispatch. case_ifs; [auto|constructor].
  - unfold route_dispatch. destruct (p_writeObserved p); cbn [negb]; [|constructor].
    case_bool_decide; [constructor|]. apply Forall_app. split; [destruct (p_firstResponse p); repeat constructor|].
    case_bool_decide; [auto|constructor].
  - destruct (c_ops c !! ref); [|constructor]. unfold retire_dispatch. destruct (c_err c); [constructor|].
    case_bool_decide; [|constructor]. constructor; [done|auto].
Qed.

Lemma observe_sent d o o' : observe d o = Some o' -> sent o' = sent o \/ sent o' = sent o ++ [d].
Proof.
  unfold observe, observer_event, observer_end, send. intros H.
  destruct d; repeat case_match; simplify_eq/=; auto; right; unfold sent; cbn; by rewrite app_assoc.
Qed.

Lemma observe_all_class ds : Forall class_ok ds -> forall o o', observe_all ds o = Some o' -> Forall class_ok (sent o) ->
  Forall class_ok (sent o').
Proof.
  induction 1 as [|d ds Hd Hds IH]; intros o o' H Ho; [by injection H as <-|]. rewrite observe_all_cons in H.
  destruct (observe d o) as [o1|] eqn:E; [|done]. apply (IH o1); [done|].
  apply observe_sent in E as [-> | ->]; [done|]. apply Forall_app. by repeat constructor.
Qed.

Lemma observer_run_sent o : sent (observer_run o) = sent o.
Proof.
  unfold observer_run, sent. destruct (ob_returned o); [done|]. destruct (ob_queue o) eqn:E; cbn; [by rewrite E|].
  by rewrite <- app_assoc.
Qed.

Lemma reachable_class on c obs : traced_reachable on c obs -> forall ref o, obs !! ref = Some o -> Forall class_ok (sent o).
Proof.
  induction 1 as [|c obs ds c' Hr IH Hs|c obs ref o Hr IH Ho]; intros r q Hq.
  - by rewrite lookup_empty in Hq.
  - unfold dispatched in Hq. rewrite map_lookup_imap in Hq. destruct (with_new on c' obs !! r) as [o|] eqn:Eo; [|done].
    eapply observe_all_class; [by eapply traced_class|exact Hq|]. unfold with_new in Eo.
    apply lookup_union_Some_raw in Eo as [Eo|[_ Eo]]; [by eapply IH|].
    rewrite lookup_fmap in Eo. destruct (c_ops c' !! r); [|done]. injection Eo as <-. constructor.
  - destruct (decide (r = ref)) as [->|Hne]; [|rewrite lookup_insert_ne in Hq by done; by eapply IH].
    rewrite lookup_insert_eq in Hq. injection Hq as <-. rewrite observer_run_sent. by eapply IH.
Qed.

(** ** What the adapter calls *)

Definition metricAttrs (t : operationTrace) (final : TraceEnd) : list KeyValue :=
  ot_metricAttrs t ++ [("arden.error.type"%string, VString (bs (td_ErrorClass final)))].
Definition failed (class : string) : bool :=
  negb (bool_decide (class = "none"%string)) && negb (bool_decide (class = "closed"%string)).

Definition count (P : call -> bool) (calls : list call) : Z := len (List.filter P calls).
Definition is_start (c : call) : bool := match c with StartSpan _ _ => true | _ => false end.
Definition is_event (c : call) : bool := match c with AddEvent _ _ _ => true | _ => false end.
Definition is_endSpan (c : call) : bool := match c with EndSpan _ => true | _ => false end.
Definition is_status (c : call) : bool := match c with SetStatus _ => true | _ => false end.
Definition records (i : instrument) (c : call) : bool := match c with Record_ j _ _ => bool_decide (j = i) | _ => false end.

(** Calls that carry safe metadata only: a status is a class name, metrics have
    the four attributes of fixed meaning. *)
Definition safe (c : call) : Prop :=
  match c with
  | SetStatus text => text ∈ errorClasses
  | Record_ _ _ attrs => map fst attrs =
      ["arden.endpoint.id"; "arden.operation.name"; "arden.ldap.application_tag"; "arden.error.type"]%string
  | _ => True
  end.

(** The calls for events, and for the end. *)
Definition eventCalls (ds : list (Z * traceDispatch)) (calls : list call) : Prop :=
  Forall (fun c => is_event c = true) calls /\ len calls = len ds.
Record endCalls (final : TraceEnd) (calls : list call) : Prop := {
  ec_last : exists at_, last calls = Some (EndSpan at_);
  ec_end : count is_endSpan calls = 1;
  ec_event : count is_event calls = 0;
  ec_start : count is_start calls = 0;
  ec_status : count is_status calls = Z.b2z (failed (td_ErrorClass final));
  ec_records : forall i, i ∈ adapterInstruments theInstruments -> count (records i) calls = 1;
  ec_safe : td_ErrorClass final ∈ errorClasses -> Forall safe calls
}.

Lemma trace_End_calls began start at_ final calls : exists more,
  snd (trace_End (MkOperationTrace theInstruments began (metricAttrsOf start)) at_ final calls) = calls ++ more /\ endCalls final more.
Proof.
  unfold trace_End, emit, sret. cbn [ot_adapter ot_began ot_metricAttrs].
  assert (forall i, i ∈ adapterInstruments theInstruments ->
    forall P : instrument -> Prop, P (ad_duration theInstruments) -> P (ad_requestBytes theInstruments) ->
    P (ad_responseBytes theInstruments) -> P (ad_responses theInstruments) -> P (ad_operations theInstruments) -> P i) as Hi.
  { intros i Hin P H1 H2 H3 H4 H5. unfold adapterInstruments in Hin.
    by repeat (apply elem_of_cons in Hin as [-> |Hin]; [done|]); apply not_elem_of_nil in Hin. }
  destruct (negb _ && negb _) eqn:Hc; cbn; rewrite <- !app_assoc; cbn [app]; eexists; (split; [reflexivity|]);
    (split; [by eexists|done|done|done| | |]).
  1, 4: unfold failed; by rewrite Hc.
  1, 3: intros i Hin; by apply (Hi i Hin).
  all: intros Hcl; repeat (apply Forall_cons_2; [first [exact Hcl|exact I|reflexivity]|]); apply Forall_nil_2.
Qed.

(** A timed event. *)
Definition is_report (d : Z * traceDispatch) : Prop := is_end (snd d) = false.

Lemma event_run t start began (ds : list (Z * traceDispatch)) rest :
  Forall is_report ds -> forall calls, exists more,
  hooks_run (MkHooks (Some (otelTrace t)) None start began) (ds ++ rest) calls =
    hooks_run (MkHooks (Some (otelTrace t)) None start began) rest (calls ++ more) /\ eventCalls ds more.
Proof.
  induction 1 as [|[at_ [event|final]] ds Hd Hds IH]; intros calls; [|clear Hd|done].
  { exists []. by rewrite app_nil_r. }
  destruct (IH (snd (trace_Event at_ event calls))) as (more & Hr & He & Hl). eexists (_ :: more).
  split; [|split; [constructor; [|exact He]|by rewrite !len_cons, Hl]].
  - cbn [app hooks_run]. unfold callEvent, logEvent, safeDebug. cbn in Hr |- *. by rewrite Hr, <- app_assoc.
  - done.
Qed.

(** ** Log lines do not depend on the hooks *)

Definition line : Type := string * list KeyValue.

(** A trace beside a logger that records lines, if it is enabled. *)
Definition beside {A} (trace : Trace A) : Trace (A * list line) :=
  MkTrace (fun at_ event '(x, lines) => let '(h, x) := tr_Event trace at_ event x in (h, (x, lines)))
    (fun at_ final '(x, lines) => let '(h, x) := tr_End trace at_ final x in (h, (x, lines))).
Definition recorder {A} (enabled : bool) : Logger (A * list line) :=
  MkLogger (sret (Some enabled)) (fun message attrs '(x, lines) => (Returned, (x, lines ++ [(message, attrs)]))).

Definition lineOf {W} (o : operationHooks W) (d : Z * traceDispatch) : line :=
  match d with
  | (at_, traceDispatchEvent event) => ("ldap operation event"%string, eventFields o at_ event)
  | (at_, traceDispatchEnd final) => ("ldap operation completed"%string, endFields o at_ final)
  end.

(** Nothing follows the end. *)
Fixpoint end_last (ds : list (Z * traceDispatch)) : Prop :=
  match ds with
  | [] => True
  | (_, traceDispatchEnd _) :: ds => ds = []
  | _ :: ds => end_last ds
  end.

Lemma lines_run {A} (trace : Trace A) enabled start began ds : end_last ds -> forall x lines,
  let o := MkHooks (Some (beside trace)) (Some (recorder enabled)) start began in
  snd (hooks_run o ds (x, lines)) =
    (snd (hooks_run (MkHooks (Some trace) None start began) ds x),
     lines ++ (if enabled then map (lineOf o) ds else [])).
Proof.
  induction ds as [|[at_ [event|final]] ds IH]; intros Hl x lines.
  - cbn. destruct enabled; by rewrite app_nil_r.
  - cbn in IH, Hl |- *. unfold sbind, sret. destruct (tr_Event trace at_ event x) as [h y].
    destruct enabled; rewrite IH by done; [by rewrite <- app_assoc|done].
  - cbn in Hl |- *. subst ds. unfold sbind, sret. destruct (tr_End trace at_ final x) as [h y]. destruct enabled; cbn; [done|by rewrite app_nil_r].
Qed.

(** ** The telemetry of an operation *)

Lemma ends_zero ds : ends ds = 0 -> Forall (fun d => is_end d = false) ds.
Proof.
  induction ds as [|d ds IH]; [constructor|]. rewrite ends_cons. pose proof (ends_nonneg ds). intros H0.
  destruct (is_end d) eqn:E; cbn in H0; [lia|]. constructor; [done|apply IH; lia].
Qed.

Lemma zip_no_end times ds : ends ds = 0 -> Forall is_report (zip times ds).
Proof.
  intros H%ends_zero. revert times. induction H; intros [|at_ times]; cbn; constructor; auto.
Qed.

Lemma end_last_app ds rest : Forall is_report ds -> end_last rest -> end_last (ds ++ rest).
Proof. induction 1 as [|[at_ []] ds Hd Hds IH]; cbn; auto. done. Qed.

(** The dispatches that were taken, with their times: events, and the end if the
    goroutine has returned. *)
Lemma taken_shape o times : taken_ok o -> length times = length (ob_taken o) ->
  exists events rest, zip times (ob_taken o) = events ++ rest /\ Forall is_report events /\
    len events = len (ob_taken o) - Z.b2z (ob_returned o) /\
    (if ob_returned o then exists at_ final, rest = [(at_, traceDispatchEnd final)] /\ traceDispatchEnd final ∈ ob_taken o
     else rest = []).
Proof.
  unfold taken_ok. intros Ht Hl. destruct (ob_returned o).
  - destruct Ht as (events & final & Heq & He). rewrite Heq in Hl |- *. rewrite length_app in Hl. cbn in Hl.
    destruct times as [|at_ times' _] using rev_ind; [cbn in Hl; lia|]. rewrite length_app in Hl. cbn in Hl.
    exists (zip times' events), [(at_, traceDispatchEnd final)]. rewrite zip_with_app by lia. split; [done|].
    split; [by apply zip_no_end|]. split; [|eexists _, _; split; [done|set_solver]].
    unfold len. rewrite length_zip_with_l_eq, length_app by lia. cbn. lia.
  - exists (zip times (ob_taken o)), []. rewrite app_nil_r. split; [done|]. split; [by apply zip_no_end|].
    split; [|done]. unfold len. rewrite length_zip_with_l_eq by lia. cbn. lia.
Qed.

Lemma count_app P l k : count P (l ++ k) = count P l + count P k.
Proof. unfold count. by rewrite List.filter_app, len_app. Qed.

Lemma count_events P ds calls : eventCalls ds calls -> (forall c, is_event c = true -> P c = false) -> count P calls = 0.
Proof.
  intros [H _] HP. unfold count. induction H as [|c calls Hc Hcs IH]; [done|]. cbn [List.filter]. by rewrite (HP _ Hc).
Qed.

Lemma count_event ds calls : eventCalls ds calls -> count is_event calls = len ds.
Proof.
  intros [H <-]. unfold count. induction H as [|c calls Hc Hcs IH]; [done|]. cbn [List.filter]. by rewrite Hc, !len_cons, IH.
Qed.

Lemma safe_events ds calls : eventCalls ds calls -> Forall safe calls.
Proof. intros [H _]. eapply Forall_impl; [exact H|]. by intros []. Qed.

(** What the calls for an operation amount to: [over] tells whether its end was
    taken. *)
Record telemetry (events : Z) (over : bool) (final : TraceEnd) (calls : list call) : Prop := {
  te_start : count is_start calls = 1;
  te_events : count is_event calls = events;
  te_end : count is_endSpan calls = Z.b2z over;
  te_metrics : forall i, i ∈ adapterInstruments theInstruments -> count (records i) calls = Z.b2z over;
  te_status : count is_status calls = Z.b2z (over && failed (td_ErrorClass final));
  te_last : over = true -> exists at_, last calls = Some (EndSpan at_);
  te_safe : Forall safe calls
}.

Ltac count_parts Hev :=
  rewrite ?count_app; (erewrite (count_events _ _ _ Hev) by (by intros [])).

Lemma adapter_telemetry events rest start began now calls t : Forall is_report events ->
  Start theInstruments now start [] = (t, calls) ->
  (rest = [] -> forall final, telemetry (len events) false final
     (snd (hooks_run (MkHooks (Some (otelTrace t)) None start began) (events ++ rest) calls))) /\
  (forall at_ final, rest = [(at_, traceDispatchEnd final)] -> td_ErrorClass final ∈ errorClasses ->
     telemetry (len events) true final
       (snd (hooks_run (MkHooks (Some (otelTrace t)) None start began) (events ++ rest) calls))).
Proof.
  intros He [= <- <-]. set (t := MkOperationTrace _ _ _).
  destruct (event_run t start began events rest He [StartSpan (spanName start) (spanAttrs start)]) as (more & -> & Hev).
  assert (Hs := safe_events _ _ Hev). cbn [app]. split.
  - intros -> final. cbn [hooks_run]. unfold sret. cbn [snd]. change (?x :: ?l) with ([x] ++ l).
    split; try (intros; count_parts Hev; reflexivity).
    + rewrite count_app, (count_event _ _ Hev). change (count is_event [_]) with 0. lia.
    + done.
    + by apply Forall_app; repeat constructor.
  - intros at_ final -> Hc. cbn [hooks_run]. unfold callEnd, logEnd, safeDebug. cbn [oh_trace oh_logger otelTrace tr_End].
    destruct (trace_End_calls now start at_ final ([StartSpan (spanName start) (spanAttrs start)] ++ more)) as (tail & Hr & Hend).
    fold t in Hr. unfold sbind, sret. change (?x :: ?l) with ([x] ++ l) in *.
    destruct (trace_End t at_ final _) as [h w]. cbn [snd] in *. subst w. destruct Hend.
    split; try (intros; count_parts Hev; rewrite ?ec_end0, ?ec_start0, ?ec_status0, ?ec_records0 by done; reflexivity).
    + rewrite !count_app, (count_event _ _ Hev), ec_event0. change (count is_event [StartSpan _ _]) with 0. change (count is_event []) with 0. lia.
    + intros _. destruct ec_last0 as [e He']. exists e. by rewrite last_app, He'.
    + apply Forall_app. split; [apply Forall_app; by split; [repeat constructor|]|by apply ec_safe0].
Qed.

(** An observer whose operation is over and whose channel is empty has returned. *)
Lemma drained_returned o over : taken_ok o -> ends (sent o) = Z.b2z over -> over = true -> ob_queue o = [] -> ob_returned o = true.
Proof.
  unfold taken_ok, sent. intros Ht He -> Hq. rewrite Hq, app_nil_r in He. destruct (ob_returned o); [done|]. cbn in He. lia.
Qed.

(** C24. Every operation is accounted for once. In every interleaving of a connection,
    the OpenTelemetry adapter starts one span for an operation and adds one event for
    each of its at most six reports; the span is ended, and each of the five metrics
    recorded, exactly once, when and only when the observer takes the end of the
    operation, and the end of the span is the last call. An operation that is over
    and whose reports were all taken has ended its span. A status is set exactly for
    classes other than "none" and "closed", and is the name of a class, never the text
    of an error; metrics have four attributes of fixed meaning and so no message
    identifier or address. And an enabled logger gets one line for each report, with
    the completion last, whatever the hooks do, panics included. *)
Theorem operation_telemetry c obs ref p o times start began now t calls :
  traced_reachable true c obs -> c_ops c !! ref = Some p -> obs !! ref = Some o -> length times = length (ob_taken o) ->
  Start theInstruments now start [] = (t, calls) ->
  (exists final, telemetry (len (ob_taken o) - Z.b2z (ob_returned o)) (ob_returned o) final
     (snd (hooks_run (MkHooks (Some (otelTrace t)) None start began) (zip times (ob_taken o)) calls)) /\
     (ob_returned o = true -> traceDispatchEnd final ∈ ob_taken o)) /\
  len (ob_taken o) <= 6 /\
  (p_lifecycleDone p = true -> ob_queue o = [] -> ob_returned o = true) /\
  (forall A (trace : Trace A) x enabled,
     let hooks := MkHooks (Some (beside trace)) (Some (recorder enabled)) start began in
     snd (snd (hooks_run hooks (zip times (ob_taken o)) (x, []))) =
       if enabled then map (lineOf hooks) (zip times (ob_taken o)) else []).
Proof.
  intros Hr Hp Ho Hl Hs. pose proof (traced_watching _ _ _ Hr ref) as Hw. rewrite Hp, Ho in Hw.
  destruct Hw as [_ Hlen _ Hdone _ Ht].
  destruct (taken_shape o times Ht Hl) as (events & rest & Hz & He & Hn & Hrest). rewrite Hz, <- Hn.
  destruct (adapter_telemetry events rest start began now calls t He Hs) as [H1 H2]. split_and!.
  - destruct (ob_returned o).
    + destruct Hrest as (at_ & final & -> & Hin). exists final. split; [|done]. apply (H2 at_); [done|].
      pose proof (reachable_class _ _ _ Hr _ _ Ho) as Hc. unfold sent in Hc. apply Forall_app in Hc as [Hc _].
      rewrite Forall_forall in Hc. exact (Hc _ Hin).
    + exists (MkTraceEnd 0 0 0 "none"). by split; [apply H1|].
  - unfold sent in Hlen. rewrite len_app in Hlen. pose proof (weight_le p). pose proof (len_nonneg (ob_queue o)). lia.
  - intros Hover Hq. by apply (drained_returned o (p_lifecycleDone p)); [|apply Hdone| |].
  - intros A trace x enabled. cbn zeta. rewrite lines_run; [done|]. apply end_last_app; [done|].
    destruct (ob_returned o); [by destruct Hrest as (at_ & final & -> & _)|by subst rest].
Qed.

(** The run of Trace.v in which the connection fails, when all was taken. *)
Definition sample_retired : Conn := retire (Some sample_failure) sample_observed.
Definition sample_over : observers :=
  dispatched true (fun ref => match c_ops sample_observed !! ref with
    | Some p => retire_dispatch (Some sample_failure) ref p sample_observed | None => [] end) sample_retired sample_observers.
Definition drain1 (obs : observers) : observers :=
  match obs !! 0%nat with Some o => <[0%nat := observer_run o]> obs | None => obs end.

Lemma drain1_reachable c obs : traced_reachable true c obs -> traced_reachable true c (drain1 obs).
Proof. intros Hr. unfold drain1. destruct (obs !! 0%nat) as [o|] eqn:Ho; [by apply tr_run|done]. Qed.

Definition sample_start : TraceStart := MkTraceStart "primary" (bs "ldap.example:636") 1 "search" (MkId 1 true 3) (MkId 1 true 3) 0.

Lemma operation_telemetry_witness : exists o p calls,
  sample_over !! 0%nat <> None /\ drain1 (drain1 (drain1 (drain1 sample_over))) !! 0%nat = Some o /\
  c_ops sample_retired !! 0%nat = Some p /\ ob_returned o = true /\
  calls = snd (hooks_run (MkHooks (Some (otelTrace (fst (Start theInstruments 5 sample_start [])))) None sample_start 5)
    (zip [6; 7; 8; 9] (ob_taken o)) (snd (Start theInstruments 5 sample_start []))) /\
  (exists final, telemetry 3 true final calls) /\ count is_status calls = 1.
Proof.
  assert (traced_reachable true sample_retired sample_over) as Hr.
  { eapply tr_step; [exact sample_traced|]. apply (ts_retire _ (Some sample_failure)). }
  do 4 apply drain1_reachable in Hr.
  destruct (drain1 (drain1 (drain1 (drain1 sample_over))) !! 0%nat) as [o|] eqn:Ho; [|vm_compute in Ho; discriminate].
  destruct (c_ops sample_retired !! 0%nat) as [p|] eqn:Hp; [|vm_compute in Hp; discriminate].
  assert (length [6; 7; 8; 9] = length (ob_taken o)) as Hl by (vm_compute in Ho; injection Ho as <-; reflexivity).
  destruct (operation_telemetry _ _ 0%nat p o [6; 7; 8; 9] sample_start 5 5 _ _ Hr Hp Ho Hl eq_refl)
    as ((final & Htel & _) & _).
  exists o, p. eexists. split; [vm_compute; discriminate|]. split; [reflexivity|]. split; [reflexivity|].
  split; [vm_compute in Ho; injection Ho as <-; reflexivity|]. split; [reflexivity|].
  split; [exists final; vm_compute in Ho; injection Ho as <-; exact Htel|].
  vm_compute in Ho. injection Ho as <-. vm_compute. reflexivity.
Defined.
