(* ===== verification/ConnRun.v ===== *)
(** * The handlers of a connection

    Models the functions of src/connection.go that run over several critical
    sections: [do], [reserveMessageID], [writeRequest], [acquireWriter],
    [writeAll], [sendAbandon], [responseStream.Next] and [Close],
    [watchOperation], [readLoop] and [CloseContext]. Conn.v has the critical
    sections themselves.

    What a handler waits for or calls outside the connection (a context, a
    channel, the transport, the framer) is a variable of the section: a function
    on the state of the connection and of the world. Other goroutines run while
    a handler waits, so these functions may change the connection too. Where
    their steps are those of Conn.v, so are the steps of the handlers, every
    safety theorem of ConnSafety.v applies to them, and a handler gives back what
    it took (the theorem [handlers_refine_steps]). *)

From S2P Require Import Prelude Wire Packet Reader Framer Decoder Types Protocol Result Errors Options.
From S2P Require Import Response Attributes Operations Search Bind Extended Endpoint Conn ConnSafety.

Open Scope run_scope.

Section handlers.
Context {W : Type}.
Abbreviation World := (Conn * W)%type.

(** A critical section, and one that reads an operation through its reference. *)
Definition locked {A} (f : Conn -> A * Conn) : ST World A := fun '(c, w) => let '(x, c) := f c in (x, (c, w)).
Definition update (f : Conn -> Conn) : ST World unit := fun '(c, w) => (tt, (f c, w)).
Definition with_op {A} (ref : OpRef) (missing : A) (f : pendingOperation -> Conn -> A * Conn) : ST World A :=
  fun '(c, w) =>
  match c_ops c !! ref with
  | Some p => let '(x, c) := f p c in (x, (c, w))
  | None => (missing, (c, w))
  end.
Definition update_op (ref : OpRef) (f : pendingOperation -> Conn -> Conn) : ST World unit :=
  with_op ref tt (fun p c => (tt, f p c)).

(** *** Waiting *)

(** [reserveMessageID] waits for its context, for a change of the identifiers
    or for the end of the connection; [acquireWriter] for its context, the end
    or the token; [Next] for its own context, the operation's, or a signal. *)
Inductive idWait := IDCanceled (err : cerror) | IDChanged | IDClosed.
Inductive writerWait := WriterCanceled (err : cerror) | WriterClosed | WriterToken.
Inductive nextWait := NextCanceled (err : cerror) | NextOperationCanceled (err : cerror) | NextSignal.
Inductive watchWait := WatchCanceled (err : cerror) | WatchOver.
Inductive closeWait := CloseToken | CloseCanceled (err : cerror) | CloseClosed.

(** [ctx.Err()] of the context at hand. *)
Variable ctxErr : ST World (option cerror).
Variable awaitID : ST World idWait.
Variable awaitWriter : ST World writerWait.
(** [transport.Write]: the bytes written, the error, and whether the write
    finished before the context's callback took over. [io.Writer] documents a
    count that is not negative. *)
Variable transportWrite : bytes -> ST World (nat * option cerror * bool).

Definition ErrNoProgress : cerror := Plain (ErrorString "multiple Read calls return no data or error").

(** *** Identifiers *)

(** [None]: still waiting after [fuel] rounds. *)
Fixpoint reserveMessageID (fuel : nat) (scope : operationScope) : ST World (option (MessageID + cerror)) :=
  match fuel with
  | O => sret None
  | S fuel =>
      let* r := locked (reserveMessageID_round scope) in
      match r with
      | Reserved id => sret (Some (inl id))
      | Refused err => sret (Some (inr err))
      | Exhausted =>
          let* wait := awaitID in
          match wait with
          | IDCanceled err => sret (Some (inr (TransportError StageWrite OutcomeDefinitelyUnsent err)))
          | IDChanged => reserveMessageID fuel scope
          | IDClosed => let* err := locked (fun c => (closedError c, c)) in sret (Some (inr err))
          end
      end
  end.

(** *** Writing *)

Definition unsentError (err : cerror) : cerror := TransportError StageWrite OutcomeDefinitelyUnsent err.
Definition ambiguousError (err : cerror) : cerror := TransportError StageWrite OutcomeAmbiguous err.

(** [releaseWriter]: the token goes back to its channel. *)
Variable releaseWriter : ST World unit.

(** The writer token is taken on [None]. *)
Definition acquireWriter : ST World (option cerror) :=
  let* wait := awaitWriter in
  match wait with
  | WriterCanceled err => sret (Some (unsentError err))
  | WriterClosed => let* err := locked (fun c => (closedError c, c)) in sret (Some (unsentError err))
  | WriterToken =>
      let* err := ctxErr in
      match err with
      | Some err => releaseWriter ;; sret (Some (unsentError err))
      | None =>
          let* closed := locked (fun c => (if unusable c then Some (closedError c) else None, c)) in
          match closed with
          | Some err => releaseWriter ;; sret (Some (unsentError err))
          | None => sret None
          end
      end
  end.

(** [total != 0 || ctx.Err() != nil]. *)
Definition writeOutcome (total : nat) : ST World RequestOutcome :=
  if negb (total =? 0)%nat then sret OutcomeAmbiguous
  else
    let* canceled := ctxErr in
    sret (match canceled with Some _ => OutcomeAmbiguous | None => OutcomeDefinitelyUnsent end).

(** What the context's callback does when it takes over a write: it runs in a
    goroutine of its own, perhaps after the writer has returned. *)
Definition interruptWrite (err : cerror) : ST World unit := update (retire (Some (ambiguousError err))).

(** One round of the loop of [writeAll]: the new total and the error that ends
    it. The context of a write that was taken over is done, so it has an error. *)
Definition writeAll_round (message : bytes) (total : nat) : ST World (nat * option cerror) :=
  let* err := ctxErr in
  match err with
  | Some err =>
      if (total =? 0)%nat then sret (total, Some (unsentError err))
      else update (retire (Some (ambiguousError err))) ;; sret (total, Some (ambiguousError err))
  | None =>
      let* written := transportWrite (drop total message) in
      let '(n, err, completed) := written in
      let total := (total + n)%nat in
      if negb completed then
        let* cause := ctxErr in
        sret (total, Some (ambiguousError (default ErrClosed cause)))
      else
        match (match err with None => if (n =? 0)%nat then Some ErrNoProgress else None | Some err => Some err end) with
        | None => sret (total, None)
        | Some err =>
            let* outcome := writeOutcome total in
            let* canceled := ctxErr in
            let transportErr := TransportError StageWrite outcome (default err canceled) in
            update (retire (Some transportErr)) ;; sret (total, Some transportErr)
        end
  end.

(** [None]: the fuel ran out. *)
Fixpoint writeAll_loop (fuel : nat) (message : bytes) (total : nat) : ST World (option (nat * option cerror)) :=
  if negb (total <? length message)%nat then sret (Some (total, None))
  else match fuel with
  | O => sret None
  | S fuel =>
      let* r := writeAll_round message total in
      match r with
      | (total, Some err) => sret (Some (total, Some err))
      | (total, None) => writeAll_loop fuel message total
      end
  end.
Definition writeAll (message : bytes) : ST World (option (nat * option cerror)) :=
  writeAll_loop (length message) message 0.

Definition writeRequest (ref : OpRef) (message : bytes) : ST World (option (nat * option cerror)) :=
  let* err := acquireWriter in
  match err with
  | Some err => sret (Some (0%nat, Some err))
  | None =>
      update_op ref (startWrite ref) ;;
      let* r := writeAll message in
      releaseWriter ;; sret r
  end.

(** *** Operations *)

(** [go c.sendAbandon(p)] starts a goroutine; it runs [sendAbandon] below. *)
Variable spawnAbandon : OpRef -> ST World unit.

Definition isAssociationChanging (id : Identifier) : bool :=
  bool_decide (id = bindRequestIdentifier) || bool_decide (id = unbindRequestIdentifier).

(** [DoBlocked]: no identifier became free while [reserveMessageID] had fuel. *)
Inductive doResult := DoStream (ref : OpRef) | DoFailed (err : cerror) | DoBlocked.

(** From the encoded message on: the operation is installed and written. *)
Definition do_write (scope : operationScope) (op : UntypedOperation) (id : MessageID) (message : bytes) : ST World doResult :=
  let* installed := locked (fun c =>
    let ref := base.fresh (dom (c_ops c)) in
    let p := new_pending id (uo_Responses op) (uo_Cancellation op) (len message) in
    let '(err, c) := installPending ref p scope c in (ref, err, c)) in
  let '(ref, err) := installed in
  match err with
  | Some err => update (releaseReserved id) ;; sret (DoFailed err)
  | None =>
      let* r := writeRequest ref message in
      match r with
      | None => sret DoBlocked
      | Some (written, Some err) =>
          (if (written =? 0)%nat && negb (Is err ErrAmbiguousOutcome)
           then update_op ref (removeDefinitelyUnsent ref) else sret tt) ;;
          sret (DoFailed err)
      | Some (_, None) =>
          update_op ref (observeWrite ref) ;;
          (if FramingPattern_NoResponse (uo_Responses op) then update_op ref (completeNoResponse ref) else sret tt) ;;
          sret (DoStream ref)
      end
  end.

(** The goroutine [watchOperation] that [do] starts is another handler. *)
Definition do (fuel : nat) (scope : operationScope) (op : UntypedOperation) : ST World doResult :=
  match UntypedOperation_Validate op, uo_Protocol op with
  | Some err, _ => sret (DoFailed (Plain err))
  | None, None => sret (DoFailed (Plain (ErrorString "arden: operation has no protocol value")))
  | None, Some protocol =>
      if match scope with operationApplication => isAssociationChanging (ProtocolIdentifier protocol) | _ => false end
      then sret (DoFailed ErrAssociationChange)
      else
        let* r := reserveMessageID fuel scope in
        match r with
        | None => sret DoBlocked
        | Some (inr err) => sret (DoFailed err)
        | Some (inl id) =>
            let* limits := locked (fun c => (BERLimits (c_options c), c)) in
            match encodeLDAPRequest id protocol (present (uo_Controls op)) limits with
            | inr err => update (releaseReserved id) ;; sret (DoFailed err)
            | inl message =>
                let* err := ctxErr in
                match err with
                | Some err => update (releaseReserved id) ;; sret (DoFailed (unsentError err))
                | None => do_write scope op id message
                end
            end
        end
  end.

(** The whole of [cancelOperation]. *)
Definition cancel (ref : OpRef) (reason : cerror) : ST World unit :=
  let* action := with_op ref cancelActionNone (fun p => cancelOperation ref p reason) in
  match action with
  | cancelActionAbandon => spawnAbandon ref
  | cancelActionClose => update (retire (Some ErrClosed))
  | cancelActionNone => sret tt
  end.

Definition messageIDLimit (c : Conn) : cerror := LimitError "message IDs" (c_maxID c + 1) (c_maxID c).

(** The critical section that moves the target to the tombstones; [false] if it
    is not pending any more. *)
Definition commitAbandon (ref : OpRef) : ST World bool :=
  with_op ref false (fun p c =>
    if abandonable ref p c then (true, sendAbandon_commit ref p c) else (false, c)).

Definition sendAbandon (ref : OpRef) : ST World unit :=
  let* target := with_op ref None (fun p c => (if abandonable ref p c then Some (p_id p) else None, c)) in
  match target with
  | None => sret tt
  | Some target =>
      let* id := with_op ref None (fun p => sendAbandon_reserve ref p) in
      match id with
      | None => let* limit := locked (fun c => (messageIDLimit c, c)) in update (retire (Some limit))
      | Some id =>
          let message := encodeInternalRequest id (MkAbandonRequest target) in
          let* err := acquireWriter in
          match err with
          | Some err =>
              update (releaseReserved id) ;;
              if negb (Is err ErrClosed) then update (retire (Some err)) else sret tt
          | None =>
              let* committed := commitAbandon ref in
              if negb committed then releaseWriter ;; update (releaseReserved id)
              else
                let* r := writeAll message in
                releaseWriter ;;
                update (releaseReserved id) ;;
                match r with
                | Some (_, Some err) => update (retire (Some err))
                | _ => sret tt
                end
          end
      end
  end.

(** *** Streams *)

(** [p.ctx.Err()], and the select of [Next]. *)
Variable operationErr : ST World (option cerror).
Variable awaitNext : ST World nextWait.
Variable awaitWatch : ST World watchWait.

(** [None]: still waiting after [fuel] rounds. *)
Fixpoint Next_loop (fuel : nat) (ref : OpRef) : ST World (option (Response + cerror)) :=
  match fuel with
  | O => sret None
  | S fuel =>
      let* d := with_op ref Waiting (fun p => stream_Next ref p) in
      match d with
      | Delivered response => sret (Some (inl response))
      | Failed err => sret (Some (inr err))
      | Waiting =>
          let* wait := awaitNext in
          match wait with
          | NextCanceled err => sret (Some (inr err))
          | NextOperationCanceled err => cancel ref err ;; Next_loop fuel ref
          | NextSignal => Next_loop fuel ref
          end
      end
  end.

Definition Next (fuel : nat) (ref : OpRef) : ST World (option (Response + cerror)) :=
  let* err := operationErr in
  match err with Some err => cancel ref err | None => sret tt end ;;
  Next_loop fuel ref.

(** [Close] of a stream; only the first call does anything. *)
Definition stream_Close (ref : OpRef) : ST World unit := cancel ref ErrClosed.

Definition watchOperation (ref : OpRef) : ST World unit :=
  let* wait := awaitWatch in
  match wait with
  | WatchCanceled err => cancel ref err
  | WatchOver => sret tt
  end.

(** *** Unsolicited responses *)

(** The select of [NextUnsolicited]: an error if the context is done. *)
Variable awaitUnsolicited : ST World (option cerror).

(** [None]: still waiting after [fuel] rounds. *)
Fixpoint NextUnsolicited (fuel : nat) : ST World (option (Response + cerror)) :=
  match fuel with
  | O => sret None
  | S fuel =>
      let* d := locked NextUnsolicited_round in
      match d with
      | Delivered response => sret (Some (inl response))
      | Failed err => sret (Some (inr err))
      | Waiting =>
          let* canceled := awaitUnsolicited in
          match canceled with
          | Some err => sret (Some (inr err))
          | None => NextUnsolicited fuel
          end
      end
  end.

(** *** Reading *)

(** [framer.Next]: a message, or an error and whether it is [net.ErrClosed]. *)
Variable nextFrame : ST World (bytes + error * bool).
(** Waiting for the write of a request: [false] if the connection ended. *)
Variable awaitWritten : ST World bool.

(** [None]: still waiting for a write after [fuel] rounds. *)
Fixpoint routeResponse (fuel : nat) (response : Response) : ST World (option (option cerror)) :=
  match fuel with
  | O => sret None
  | S fuel =>
      let* r := locked (route response) in
      match r with
      | RouteDone cancelActionAbandon ref => spawnAbandon ref ;; sret (Some None)
      | RouteDone _ _ | RouteIgnored => sret (Some None)
      | RouteError' err => sret (Some (Some err))
      | RouteWait =>
          let* written := awaitWritten in
          if written then routeResponse fuel response else sret (Some None)
      end
  end.

(** How a round of the read loop ends: it goes on, the connection is retired, or
    the round still waits for a write after [fuel] rounds. *)
Inductive readResult := ReadNext | ReadOver | ReadBlocked.

Definition readLoop_round (fuel : nat) : ST World readResult :=
  let* frame := nextFrame in
  match frame with
  | inr (err, netClosed) =>
      let* err := locked (fun c => (classifyReadError c err netClosed, c)) in
      update (retire (Some err)) ;; sret ReadOver
  | inl message =>
      let* limits := locked (fun c => (BERLimits (c_options c), c)) in
      match parseOwnedResponse message limits with
      | Err err =>
          update (retire (Some (ProtocolError ProtocolEnvelope 0 zero (Some (translateBERLimit err))))) ;; sret ReadOver
      | Ok response =>
          let* r := routeResponse fuel response in
          match r with
          | None => sret ReadBlocked
          | Some (Some err) => update (retire (Some err)) ;; sret ReadOver
          | Some None => sret ReadNext
          end
      end
  end.

(** [true]: the loop has ended; [false]: it was still running when the fuel ran out. *)
Fixpoint readLoop (fuel : nat) : ST World bool :=
  match fuel with
  | O => sret false
  | S fuel =>
      let* r := readLoop_round fuel in
      match r with
      | ReadNext => readLoop fuel
      | ReadOver => sret true
      | ReadBlocked => sret false
      end
  end.

(** *** Closing *)

(** Waiting for a close in progress ([None]: it is done), and for the writer. *)
Variable awaitDone : ST World (option cerror).
Variable awaitCloseWriter : ST World closeWait.

Inductive closeStart := CloseAlready (err : option cerror) | CloseInProgress | CloseStarted.

(** The first critical section of [CloseContext]. *)
Definition startClose (c : Conn) : closeStart * Conn :=
  match c_err c with
  | Some err => (CloseAlready (if c_closing c || Is err ErrClosed then None else Some err), c)
  | None => if c_closing c then (CloseInProgress, c) else (CloseStarted, beginClose c)
  end.

(** The Unbind, written with the token, which is given back. *)
Definition sendUnbind : ST World (option cerror) :=
  let* id := locked tryReserveMessageIDLocked in
  match id with
  | None => releaseWriter ;; sret None
  | Some id =>
      let* r := writeAll (encodeInternalRequest id UnbindRequest_BERPacket) in
      update (releaseReserved id) ;;
      releaseWriter ;;
      sret (match r with Some (_, err) => err | None => None end)
  end.

Definition CloseContext : ST World (option cerror) :=
  let* start := locked startClose in
  match start with
  | CloseAlready err => sret err
  | CloseInProgress => awaitDone
  | CloseStarted =>
      let* wait := awaitCloseWriter in
      let* closeErr := match wait with
                       | CloseToken => sendUnbind
                       | CloseCanceled err => sret (Some err)
                       | CloseClosed => sret None
                       end in
      update (retire (Some ErrClosed)) ;;
      sret (match closeErr with
            | Some err => if negb (Is err ErrClosed) then Some err else None
            | None => None
            end)
  end.
End handlers.
