(* ===== verification/ConnRefine.v ===== *)
(** * The handlers refine the steps of a connection

    The handlers of ConnRun.v do nothing to a connection but run its critical
    sections: if what other goroutines do while a handler waits are steps of
    Conn.v that leave alone what the handler holds, then the whole handler is a
    sequence of steps, leaves alone what the others hold, and gives back what it
    took: identifiers, the writer token, the entries of operations, and the
    obligations to abandon an operation or to close the connection. *)

From S2P Require Import Prelude Wire Packet Reader Framer Decoder Types Protocol Result Errors Options.
From S2P Require Import Response Attributes Operations Search Bind Extended Endpoint Conn ConnSafety ConnRun.

Open Scope run_scope.

Lemma steps_trans c log c1 log' c2 : steps c log c1 -> steps c1 log' c2 -> steps c (log ++ log') c2.
Proof.
  intros H1 H2. induction H2 as [|log2 c3 es c4 _ IH H]; [by rewrite app_nil_r|].
  rewrite app_assoc. by eapply steps_step.
Qed.

(** A property of connections that steps preserve. *)
Class Stable (I : Conn -> Prop) := stable c log c' : reachable c -> steps c log c' -> I c -> I c'.

#[export] Instance stable_True : Stable (fun _ => True).
Proof. by intros c log c'. Qed.

(** An operation that is being abandoned stays so. *)
Definition abandons (ref : OpRef) (c : Conn) : Prop := exists p, c_ops c !! ref = Some p /\ p_abandoning p = true.
#[export] Instance stable_abandons ref : Stable (abandons ref).
Proof.
  intros c log c' Hr Hs (p & Hp & Ha). destruct (ext_ops _ _ (steps_extends _ _ _ (reachable_ok _ Hr) Hs) ref p Hp) as (p' & Hp' & He).
  exists p'. split; [done|]. by apply (oe_abandoning _ _ He).
Qed.

(** A connection that was retired, and one that takes no new operations, stay so. *)
#[export] Instance stable_retired : Stable (fun c => is_Some (c_err c)).
Proof. intros c log c' Hr Hs [e He]. exists e. by apply (ext_err _ _ (steps_extends _ _ _ (reachable_ok _ Hr) Hs)). Qed.
#[export] Instance stable_unusable : Stable (fun c => unusable c = true).
Proof. intros c log c' Hr Hs. eapply extends_unusable, steps_extends, Hs. by apply reachable_ok. Qed.
#[export] Instance stable_closing : Stable (fun c => c_closing c = true).
Proof. intros c log c' Hr Hs. apply (ext_closing _ _ (steps_extends _ _ _ (reachable_ok _ Hr) Hs)). Qed.
#[export] Instance stable_or I J `{!Stable I, !Stable J} : Stable (fun c => I c \/ J c).
Proof. intros c log c' Hr Hs [H|H]; [left|right]; by eapply (stable c). Qed.
#[export] Instance stable_and_pure I (P : Prop) `{!Stable I} : Stable (fun c => I c /\ P).
Proof. intros c log c' Hr Hs [H HP]. split; [by eapply (stable c)|done]. Qed.

(** An operation with a property that operations keep. *)
Definition op_with (P : pendingOperation -> Prop) (ref : OpRef) (c : Conn) : Prop := exists p, c_ops c !! ref = Some p /\ P p.
Lemma stable_op P ref : (forall p p', op_extends p p' -> P p -> P p') -> Stable (op_with P ref).
Proof.
  intros HP c log c' Hr Hs (p & Hp & H).
  destruct (ext_ops _ _ (steps_extends _ _ _ (reachable_ok _ Hr) Hs) ref p Hp) as (p' & Hp' & He). exists p'. eauto.
Qed.

(** Reading it never waits, and it is being abandoned if its mode says so, unless it
    is finished; its life cycle is over too; it runs an operation. *)
Definition over : OpRef -> Conn -> Prop := op_with (fun p => (p_terminal p = true \/ p_deliveryErr p <> None) /\
  (p_abandoning p = true \/ p_mode p <> CancelAbandon \/ finished p)).
#[export] Instance stable_over ref : Stable (over ref).
Proof.
  apply stable_op. intros p p' He [H1 H2]. split; [destruct He, H1; auto|].
  destruct H2 as [H|[H|H]]; [left; by apply (oe_abandoning _ _ He)|right; left; by rewrite (oe_mode _ _ He)|].
  right. right. by eapply finished_extends.
Qed.
Definition settled : OpRef -> Conn -> Prop := op_with finished.
#[export] Instance stable_settled ref : Stable (settled ref).
Proof. apply stable_op, finished_extends. Qed.
Definition runs_for (op : UntypedOperation) : OpRef -> Conn -> Prop :=
  op_with (fun p => p_pattern p = uo_Responses op /\ p_mode p = uo_Cancellation op).
#[export] Instance stable_runs_for op ref : Stable (runs_for op ref).
Proof. apply stable_op. intros p p' [] [? ?]. split; congruence. Qed.

(** ** What goroutines hold *)

(** Identifiers that are reserved; operations whose entries are in use; writer
    tokens; operations whose abandoning was started, or is about to be; operations
    for which the connection is about to be closed; and whether a callback that
    took over a write is about to retire the connection. *)
Record held := MkHeld {
  hd_ids : list MessageID;
  hd_ops : gset OpRef;
  hd_writer : nat;
  hd_abandons : gset OpRef;
  hd_closes : gset OpRef;
  hd_retires : bool
}.
Definition with_id (id : MessageID) (h : held) : held :=
  MkHeld (id :: hd_ids h) (hd_ops h) (hd_writer h) (hd_abandons h) (hd_closes h) (hd_retires h).
Definition with_entry (ref : OpRef) (h : held) : held :=
  MkHeld (hd_ids h) ({[ref]} ∪ hd_ops h) (hd_writer h) (hd_abandons h) (hd_closes h) (hd_retires h).
Definition with_writer (h : held) : held :=
  MkHeld (hd_ids h) (hd_ops h) (S (hd_writer h)) (hd_abandons h) (hd_closes h) (hd_retires h).
Definition with_abandon (ref : OpRef) (h : held) : held :=
  MkHeld (hd_ids h) (hd_ops h) (hd_writer h) ({[ref]} ∪ hd_abandons h) (hd_closes h) (hd_retires h).
Definition with_close (ref : OpRef) (h : held) : held :=
  MkHeld (hd_ids h) (hd_ops h) (hd_writer h) (hd_abandons h) ({[ref]} ∪ hd_closes h) (hd_retires h).
Definition with_retire (h : held) : held :=
  MkHeld (hd_ids h) (hd_ops h) (hd_writer h) (hd_abandons h) (hd_closes h) true.

Section logic.
Context {W : Type}.
(** What the other goroutines hold, with the token while it is in its channel. *)
Variable others : W -> held.

(** A goroutine holds [h]: together with the others, exactly the identifiers that
    are reserved (until retirement, which drops them), every entry, the one token,
    every operation that is being abandoned, and every canceled operation that
    closes its connection. *)
Record owns (h : held) (c : Conn) (w : W) : Prop := {
  ow_ids : forall id, id ∈ c_reserved c -> id ∈ hd_ids (others w) ++ hd_ids h;
  ow_live : c_err c = None -> NoDup (hd_ids (others w) ++ hd_ids h) /\
    forall id, id ∈ hd_ids (others w) ++ hd_ids h -> id ∈ c_reserved c;
  ow_ops : forall id ref, c_pending c !! id = Some ref -> ref ∈ hd_ops (others w) ∪ hd_ops h;
  ow_writer : (hd_writer (others w) + hd_writer h = 1)%nat;
  ow_abandons : forall ref p, c_ops c !! ref = Some p -> p_abandoning p = true ->
    ref ∈ hd_abandons (others w) ∪ hd_abandons h;
  ow_closes : forall id ref p, c_pending c !! id = Some ref -> c_ops c !! ref = Some p ->
    p_mode p = CancelClose -> p_canceled p = true -> p_abandoning p = false ->
    ref ∈ hd_closes (others w) ∪ hd_closes h;
  ow_retires : hd_retires h = true -> hd_retires (others w) = true \/ is_Some (c_err c)
}.

(** A section that changes operations, and may take on obligations. *)
Lemma owns_step h h' c c' w : owns h c w -> c_reserved c' = c_reserved c -> c_err c' = c_err c ->
  (forall id ref, c_pending c' !! id = Some ref -> c_pending c !! id = Some ref) ->
  (forall ref p', c_ops c' !! ref = Some p' -> p_abandoning p' = true ->
     (exists p, c_ops c !! ref = Some p /\ p_abandoning p = true) \/ ref ∈ hd_abandons h') ->
  (forall id ref p', c_pending c' !! id = Some ref -> c_ops c' !! ref = Some p' -> p_mode p' = CancelClose ->
     p_canceled p' = true -> p_abandoning p' = false ->
     (exists p, c_ops c !! ref = Some p /\ p_mode p = CancelClose /\ p_canceled p = true /\ p_abandoning p = false) \/
     ref ∈ hd_closes h') ->
  hd_ids h' = hd_ids h -> hd_ops h ⊆ hd_ops h' -> hd_writer h' = hd_writer h -> hd_abandons h ⊆ hd_abandons h' ->
  hd_closes h ⊆ hd_closes h' -> hd_retires h' = hd_retires h -> owns h' c' w.
Proof.
  intros [] Er Ee Hp Ha Hc Ei Eo Ew Eab Ecl Et. constructor.
  - by rewrite Er, Ei.
  - by rewrite Er, Ee, Ei.
  - intros id ref H. apply Hp, ow_ops0 in H. set_solver.
  - by rewrite Ew.
  - intros ref p' H1 H2. destruct (Ha _ _ H1 H2) as [(p & H3 & H4)|]; [|set_solver]. specialize (ow_abandons0 _ _ H3 H4). set_solver.
  - intros id ref p' H0 H1 H2 H3 H3'. destruct (Hc _ _ _ H0 H1 H2 H3 H3') as [(p & H4 & H5 & H6 & H7)|]; [|set_solver].
    specialize (ow_closes0 _ _ _ (Hp _ _ H0) H4 H5 H6 H7). set_solver.
  - rewrite Et, Ee. done.
Qed.

(** Updates of an operation that cancel nothing. *)
Definition op_tame (p p' : pendingOperation) : Prop :=
  p_abandoning p' = p_abandoning p /\ p_mode p' = p_mode p /\ (p_canceled p' = true -> p_canceled p = true).

Lemma owns_set_op h c c' ref p p' w : owns h c w -> c_ops c !! ref = Some p -> op_tame p p' ->
  c_reserved c' = c_reserved c -> c_err c' = c_err c -> c_ops c' = <[ref := p']> (c_ops c) ->
  (forall id r, c_pending c' !! id = Some r -> c_pending c !! id = Some r) -> owns h c' w.
Proof.
  intros Ho Hp (Ha & Hm & Hc) Er Ee Eo Hpend. eapply owns_step; [exact Ho|done|done|done| | |done..].
  - intros r q Hq Hab. left. rewrite Eo in Hq. destruct (decide (r = ref)) as [->|Hne].
    + rewrite lookup_insert_eq in Hq. injection Hq as <-. rewrite Ha in Hab. eauto.
    + rewrite lookup_insert_ne in Hq by done. eauto.
  - intros id r q Hi Hq Hmo Hca Hna. left. rewrite Eo in Hq. destruct (decide (r = ref)) as [->|Hne].
    + rewrite lookup_insert_eq in Hq. injection Hq as <-. exists p. rewrite Ha in Hna. split; [done|]. split; [congruence|auto].
    + rewrite lookup_insert_ne in Hq by done. eauto.
Qed.

(** Nothing is pending: entries and closing are done with. *)
Lemma owns_shed h h' c w : c_pending c = ∅ -> owns h c w -> hd_ids h' = hd_ids h -> hd_writer h' = hd_writer h ->
  hd_abandons h' = hd_abandons h -> (hd_retires h' = true -> hd_retires h = true) -> owns h' c w.
Proof.
  intros Hp [] Ei Ew Ea Et. constructor; rewrite ?Ei, ?Ew, ?Ea, ?Hp; try done; auto.
Qed.

(** One entry is done with. *)
Lemma owns_unpend h ref c w : (forall id, c_pending c !! id <> Some ref) -> owns (with_entry ref h) c w -> owns h c w.
Proof.
  intros Hn []. constructor; try done. intros id r H. apply ow_ops0 in H as H'. cbn in H'.
  assert (r <> ref) by (intros ->; by apply (Hn id)). set_solver.
Qed.

Lemma owns_forget h c w : owns (with_retire h) c w -> owns h c w.
Proof. intros []. constructor; auto. Qed.

Lemma retired_pending c : reachable c -> is_Some (c_err c) -> c_pending c = ∅.
Proof. intros Hr [e He]. apply (ok_err _ (reachable_ok _ Hr)). by rewrite He. Qed.

Lemma retire_pending err c : conn_ok c -> c_pending (retire err c) = ∅.
Proof. intros Hok. unfold retire. destruct (c_err c) eqn:E; [|done]. apply (ok_err _ Hok). by rewrite E. Qed.

Lemma owns_retire h err c w : conn_ok c -> owns h c w -> owns h (retire err c) w.
Proof.
  intros Hok Ho. destruct (c_err c) eqn:E; [unfold retire; by rewrite E|]. pose proof (retire_pending err c Hok) as Hp.
  pose proof (retire_sets err c) as [e He]. destruct Ho. constructor; rewrite ?Hp, ?He; try done.
  - unfold retire. rewrite E. cbn. set_solver.
  - unfold retire. rewrite E. cbn. intros ref p'. rewrite map_lookup_imap. destruct (c_ops c !! ref) as [p|] eqn:Hop; [|done]. cbn.
    intros [= <-] Ha. apply (ow_abandons0 _ p Hop). case_bool_decide; [|done]. unfold retire_op in Ha. by destruct (p_deliveryErr p).
  - intros _. right. eauto.
Qed.

(** ** Triples *)

(** From every reachable connection with [Pre] the computation takes steps to one
    with [Post]. *)
Definition runs {A} (Pre : Conn -> W -> Prop) (m : ST (Conn * W) A) (Post : A -> Conn -> W -> Prop) : Prop :=
  forall c w, reachable c -> Pre c w ->
  (exists log, steps c log (snd (m (c, w))).1) /\ Post (fst (m (c, w))) (snd (m (c, w))).1 (snd (m (c, w))).2.

(** Others run, and leave alone what is held. *)
Definition yields {A} (m : ST (Conn * W) A) : Prop := forall h, runs (owns h) m (fun _ => owns h).

Lemma handler_ret {A} (Pre : Conn -> W -> Prop) (x : A) (Post : A -> Conn -> W -> Prop) :
  (forall c w, reachable c -> Pre c w -> Post x c w) -> runs Pre (sret x) Post.
Proof. intros H c w Hr Hp. split; [exists []; constructor|]. by apply H. Qed.

Lemma handler_bind {A B} Pre (m : ST (Conn * W) A) Mid (k : A -> ST (Conn * W) B) Post :
  runs Pre m Mid -> (forall x, runs (Mid x) (k x) Post) -> runs Pre (sbind m k) Post.
Proof.
  intros Hm Hk c w Hr Hp. destruct (Hm c w Hr Hp) as [[log Hl] Hp1]. unfold sbind.
  destruct (m (c, w)) as [x [c1 w1]]. cbn in Hl, Hp1. destruct (Hk x c1 w1) as [[log' Hl'] Hp2]; [by eapply reachable_steps|done|].
  split; [|done]. exists (log ++ log'). by eapply steps_trans.
Qed.

Lemma handler_pre {A} (Pre Pre' : Conn -> W -> Prop) (m : ST (Conn * W) A) Post :
  (forall c w, reachable c -> Pre c w -> Pre' c w) -> runs Pre' m Post -> runs Pre m Post.
Proof. intros H Hm c w Hr Hp. apply Hm; auto. Qed.

Lemma handler_post {A} Pre (m : ST (Conn * W) A) (Post Post' : A -> Conn -> W -> Prop) :
  (forall x c w, reachable c -> Post x c w -> Post' x c w) -> runs Pre m Post -> runs Pre m Post'.
Proof.
  intros H Hm c w Hr Hp. destruct (Hm c w Hr Hp) as [[log Hl] Hq]. split; [by exists log|].
  apply H; [|done]. by eapply reachable_steps.
Qed.

(** What steps keep can be carried along. *)
Lemma handler_keep {A} I `{!Stable I} Pre (m : ST (Conn * W) A) Post : runs Pre m Post ->
  runs (fun c w => I c /\ Pre c w) m (fun x c w => I c /\ Post x c w).
Proof.
  intros Hm c w Hr [Hi Hp]. destruct (Hm c w Hr Hp) as [[log Hl] Hq]. split; [by exists log|]. split; [|done].
  by eapply (stable c).
Qed.

Lemma handler_pure {A} (P : Prop) Pre (m : ST (Conn * W) A) Post : (P -> runs Pre m Post) ->
  runs (fun c w => P /\ Pre c w) m Post.
Proof. intros H c w Hr [Hp Hpre]. by apply H. Qed.

Lemma handler_or {A} Pre Pre' (m : ST (Conn * W) A) Post : runs Pre m Post -> runs Pre' m Post ->
  runs (fun c w => Pre c w \/ Pre' c w) m Post.
Proof. intros H H' c w Hr [Hp|Hp]; auto. Qed.

Lemma handler_ex {A B} (Pre : B -> Conn -> W -> Prop) (m : ST (Conn * W) A) Post : (forall x, runs (Pre x) m Post) ->
  runs (fun c w => exists x, Pre x c w) m Post.
Proof. intros H c w Hr [x Hp]. by apply (H x). Qed.

(** One critical section is at most one step. *)
Definition one_step (c c' : Conn) : Prop := c' = c \/ exists es, step c es c'.

Lemma one_step_of c es c' : step c es c' -> one_step c c'.
Proof. right. eauto. Qed.

Lemma one_step_steps c c' : one_step c c' -> exists log, steps c log c'.
Proof.
  intros [->|[es H]]; [exists []; constructor|]. exists ([] ++ es). by apply (steps_step _ _ c); [constructor|].
Qed.

Lemma handler_locked {A} Pre (f : Conn -> A * Conn) (Post : A -> Conn -> W -> Prop) :
  (forall c w, reachable c -> Pre c w -> one_step c (f c).2 /\ Post (f c).1 (f c).2 w) -> runs Pre (locked f) Post.
Proof.
  intros Hf c w Hr Hp. destruct (Hf c w Hr Hp) as [Hs Hq]. unfold locked. destruct (f c). split; [by apply one_step_steps|done].
Qed.

Lemma handler_read {A} Pre (f : Conn -> A) (Post : A -> Conn -> W -> Prop) :
  (forall c w, reachable c -> Pre c w -> Post (f c) c w) -> runs Pre (locked (fun c => (f c, c))) Post.
Proof. intros H. apply handler_locked. intros c w Hr Hp. split; [by left|]. by apply H. Qed.

Lemma handler_update Pre (f : Conn -> Conn) (Post : unit -> Conn -> W -> Prop) :
  (forall c w, reachable c -> Pre c w -> one_step c (f c) /\ Post tt (f c) w) -> runs Pre (update f) Post.
Proof. intros Hf c w Hr Hp. destruct (Hf c w Hr Hp) as [Hs Hq]. split; [by apply one_step_steps|done]. Qed.

Lemma handler_with_op {A} Pre ref (missing : A) f (Post : A -> Conn -> W -> Prop) :
  (forall c w p, reachable c -> Pre c w -> c_ops c !! ref = Some p -> one_step c (f p c).2 /\ Post (f p c).1 (f p c).2 w) ->
  (forall c w, reachable c -> Pre c w -> c_ops c !! ref = None -> Post missing c w) -> runs Pre (with_op ref missing f) Post.
Proof.
  intros Hf Hn c w Hr Hp. unfold with_op. destruct (c_ops c !! ref) as [p|] eqn:E.
  - destruct (Hf c w p Hr Hp E) as [Hs Hq]. destruct (f p c). split; [by apply one_step_steps|done].
  - split; [exists []; constructor|]. by apply Hn.
Qed.

(** *** Critical sections *)

Lemma retire_runs Pre h err : (forall c w, Pre c w -> owns h c w) ->
  runs Pre (update (retire err)) (fun _ c w => owns h c w /\ is_Some (c_err c)).
Proof.
  intros H. apply handler_update. intros c w Hr Hp. split; [eapply one_step_of, step_retire|].
  split; [apply owns_retire; [by apply reachable_ok|auto]|apply retire_sets].
Qed.

(** Retirement ends every entry and every obligation to close. *)
Lemma retire_sheds h h' err : hd_ids h' = hd_ids h -> hd_writer h' = hd_writer h ->
  hd_abandons h' = hd_abandons h -> (hd_retires h' = true -> hd_retires h = true) ->
  runs (owns h) (update (retire err)) (fun _ c w => owns h' c w /\ is_Some (c_err c)).
Proof.
  intros. eapply handler_post; [|apply (retire_runs _ h); done]. intros [] c w Hr [Ho He]. split; [|done].
  eapply owns_shed; [by apply retired_pending|done..].
Qed.

Lemma releaseReserved_runs id h : runs (owns (with_id id h)) (update (releaseReserved id)) (fun _ => owns h).
Proof.
  apply handler_update. intros c w Hr Ho. split; [eapply one_step_of, step_release|]. unfold releaseReserved.
  destruct Ho. cbn [hd_ids with_id] in *. assert (forall x l k, x ∈ l ++ id :: k <-> x = id \/ x ∈ l ++ k) as Hmid.
  { intros x l k. rewrite !elem_of_app, elem_of_cons. tauto. }
  case_bool_decide as Hin.
  - constructor; try done; cbn.
    + intros x Hx. apply elem_of_difference in Hx as [Hx Hne]. apply ow_ids0, Hmid in Hx. set_solver.
    + intros He. destruct (ow_live0 He) as [Hnd Hall]. rewrite <- Permutation_middle in Hnd. apply NoDup_cons in Hnd as [Hni Hnd].
      split; [done|]. intros x Hx. apply elem_of_difference. split; [apply Hall, Hmid; by right|]. intros Heq%elem_of_singleton. by subst.
  - constructor; try done; cbn.
    + intros x Hx. pose proof Hx as Hx'. apply ow_ids0, Hmid in Hx as [->|Hx]; [done|done].
    + intros He. destruct (ow_live0 He) as [Hnd Hall]. exfalso. apply Hin, Hall, Hmid. by left.
Qed.

Lemma owns_tryReserve h c id c' w : reachable c -> owns h c w -> tryReserveMessageIDLocked c = (id, c') ->
  owns (match id with Some id => with_id id h | None => h end) c' w.
Proof.
  intros Hr Ho H. pose proof (ok_bounds _ (reachable_ok _ Hr)) as [Hm Hn]. unfold tryReserveMessageIDLocked in H.
  destruct (_ >=? _); [by injection H as <- <-|]. rewrite search_rounds in H.
  destruct (rounds c _ _) as [i|n] eqn:Er; injection H as <- <-.
  - apply rounds_found in Er as [_ Hf]; [|done|done]. destruct Ho. constructor; try done; cbn.
    + intros x Hx. apply elem_of_union in Hx as [Hx%elem_of_singleton|Hx%ow_ids0]; rewrite elem_of_app, elem_of_cons in *; naive_solver.
    + intros He. destruct (ow_live0 He) as [Hnd Hall]. rewrite <- Permutation_middle. split.
      * apply NoDup_cons. split; [|done]. intros Hx%Hall. unfold used_ids in Hf. set_solver.
      * intros x. rewrite elem_of_app, elem_of_cons, elem_of_union, elem_of_singleton. specialize (Hall x).
        rewrite elem_of_app in Hall. tauto.
  - eapply owns_step; [exact Ho|done|done|done| | |done..]; intros; left; eauto 6.
Qed.

Lemma reserve_runs scope h : runs (owns h) (locked (reserveMessageID_round scope))
  (fun r => match r with Reserved id => owns (with_id id h) | _ => owns h end).
Proof.
  apply handler_locked. intros c w Hr Ho. destruct (reserveMessageID_round scope c) as [r c'] eqn:E. cbn.
  split; [by eapply one_step_of, step_reserve|]. unfold reserveMessageID_round in E. case_ifs; try (by injection E as <- <-).
  destruct (tryReserveMessageIDLocked c) as [id c1] eqn:Et. pose proof (owns_tryReserve _ _ _ _ _ Hr Ho Et).
  destruct id; by injection E as <- <-.
Qed.
End logic.

Section sections.
Context {W : Type}.
Variable others : W -> held.
Abbreviation owns := (owns others).
Abbreviation runs := (runs (W := W)).

(** The installed operation has a fresh reference and is the one of [do]. *)
Definition installed (op : UntypedOperation) (id : MessageID) (h : held) (r : OpRef * option cerror) (c : Conn) (w : W) : Prop :=
  match r.2 with
  | None => runs_for op r.1 c /\ owns (with_entry r.1 h) c w
  | Some _ => owns (with_id id h) c w
  end.

Lemma owns_install h id ref p scope c err c' w : reachable c -> owns (with_id id h) c w -> c_ops c !! ref = None ->
  p_id p = id -> p_abandoning p = false -> p_canceled p = false -> installPending ref p scope c = (err, c') ->
  match err with None => owns (with_entry ref h) c' w | Some _ => c' = c end.
Proof.
  intros Hr Ho Hn Hid Hab Hca H. unfold installPending in H. destruct (unusable c) eqn:Eu; [by injection H as <- <-|].
  destruct (negb (scopeAllowedLocked c scope)); [by injection H as <- <-|]. case_bool_decide as Hin; [|by injection H as <- <-].
  injection H as <- <-. assert (c_err c = None) as He by (unfold unusable in Eu; by destruct (c_err c)). destruct Ho as [Hids Hlive Hops Hwr Habs Hcl Hret]. cbn in *. subst id.
  destruct (Hlive He) as [Hnd Hall]. rewrite <- Permutation_middle in Hnd. apply NoDup_cons in Hnd as [Hni Hnd].
  assert (forall i r, c_pending c !! i = Some r -> r <> ref) as Hfresh.
  { intros i r Hi ->. destruct (ok_pending _ (reachable_ok _ Hr) _ _ Hi) as (q & Hq & _). congruence. }
  constructor; cbn; try done.
  - intros x Hx. apply elem_of_difference in Hx as [Hx Hne]. apply Hids in Hx. rewrite elem_of_app, elem_of_cons in Hx.
    rewrite elem_of_app. set_solver.
  - intros _. split; [done|]. intros x Hx. apply elem_of_difference. split.
    + apply Hall. rewrite elem_of_app, elem_of_cons in *. tauto.
    + intros ->%elem_of_singleton. done.
  - intros i r. destruct (decide (i = p_id p)) as [->|Hne]; [rewrite lookup_insert_eq; intros [= <-]; set_solver|].
    rewrite lookup_insert_ne by done. intros H%Hops. set_solver.
  - intros r q. destruct (decide (r = ref)) as [->|Hne]; [rewrite lookup_insert_eq; intros [= <-]; congruence|].
    rewrite lookup_insert_ne by done. apply Habs.
  - intros i r q Hi Hq Hm Hc Hna. destruct (decide (r = ref)) as [->|Hne].
    { rewrite lookup_insert_eq in Hq. injection Hq as <-. congruence. }
    rewrite lookup_insert_ne in Hq by done. destruct (decide (i = p_id p)) as [->|Hni'].
    { rewrite lookup_insert_eq in Hi. congruence. }
    rewrite lookup_insert_ne in Hi by done. by eapply Hcl.
Qed.

Lemma install_runs op scope id n h : runs (owns (with_id id h)) (locked (fun c =>
    let ref := base.fresh (dom (c_ops c)) in
    let p := new_pending id (uo_Responses op) (uo_Cancellation op) n in
    let '(err, c) := installPending ref p scope c in (ref, err, c))) (installed op id h).
Proof.
  apply handler_locked. intros c w Hr Ho. cbv zeta. set (ref := base.fresh _). set (p := new_pending _ _ _ _).
  assert (c_ops c !! ref = None) as Hn by (apply not_elem_of_dom, (is_fresh (dom (c_ops c)))).
  destruct (installPending ref p scope c) as [err c'] eqn:E. cbn. split; [by eapply one_step_of, step_install|].
  pose proof (owns_install h id ref p scope c err c' w Hr Ho Hn eq_refl eq_refl eq_refl E) as Hi. unfold installed. cbn.
  destruct err; [by subst|]. split; [|done]. exists p. split; [|done]. unfold installPending in E. case_ifs; try done.
  injection E as <-. cbn. apply lookup_insert_eq.
Qed.

(** Updates of one operation. *)
Ltac set_op_owned Ho Hp := eapply owns_set_op; [exact Ho|exact Hp| |done|done|reflexivity|]; done.

Lemma update_op_runs ref (f : pendingOperation -> Conn -> Conn) h :
  (forall c p, c_ops c !! ref = Some p -> one_step c (f p c)) ->
  (forall c p w, reachable c -> c_ops c !! ref = Some p -> owns h c w -> owns h (f p c) w) ->
  runs (owns h) (update_op ref f) (fun _ => owns h).
Proof. intros H1 H2. apply handler_with_op; [|done]. intros c w p Hr Ho Hp. cbn. split; [by apply H1|by apply H2]. Qed.

Lemma startWrite_runs ref h : runs (owns h) (update_op ref (startWrite ref)) (fun _ => owns h).
Proof.
  apply update_op_runs; [intros; by eapply one_step_of, step_startWrite|]. intros c p w _ Hp Ho. unfold startWrite. case_match; [|done].
  set_op_owned Ho Hp.
Qed.

Lemma observeWrite_runs op ref h : runs (fun c w => runs_for op ref c /\ owns h c w) (update_op ref (observeWrite ref))
  (fun _ c w => op_with (fun p => p_pattern p = uo_Responses op /\ p_mode p = uo_Cancellation op /\ p_writeObserved p = true) ref c /\
     owns h c w).
Proof.
  apply handler_with_op.
  - intros c w p Hr [(p' & Hp' & H1 & H2) Ho] Hp. rewrite Hp in Hp'. injection Hp' as <-. cbn.
    split; [by eapply one_step_of, step_observeWrite|]. split; [|set_op_owned Ho Hp].
    exists (set_written (p_writeStarted p) true p). split; [|done]. apply lookup_insert_eq.
  - intros c w _ [(p & Hp & _) _] Hn. congruence.
Qed.

Lemma unpended c ref p : reachable c -> c_ops c !! ref = Some p -> forall id,
  c_pending (removePending ref p c) !! id <> Some ref.
Proof.
  intros Hr Hp id. unfold removePending, is_pending. case_bool_decide as Hin; cbn.
  - intros [Hne H]%lookup_delete_Some. destruct (ok_pending _ (reachable_ok _ Hr) _ _ H) as (q & Hq & Hid & _). congruence.
  - intros H. destruct (ok_pending _ (reachable_ok _ Hr) _ _ H) as (q & Hq & Hid & _). congruence.
Qed.

(** The entry is taken out; what is known of the operation stays. *)
Lemma remove_runs ref h (P : pendingOperation -> Prop) : (forall p, P p -> P (signalReady (finishLifecycle (set_terminal p)))) ->
  runs (fun c w => op_with P ref c /\ owns (with_entry ref h) c w) (update_op ref (removePending ref))
    (fun _ c w => op_with P ref c /\ owns h c w).
Proof.
  intros HP. apply handler_with_op; [|intros c w _ [(p & Hp & _) _] Hn; congruence].
  intros c w p Hr [(p' & Hp' & HP') Ho] Hp. rewrite Hp in Hp'. injection Hp' as <-. cbn.
  split; [by eapply one_step_of, step_remove|]. split.
  - unfold removePending. case_match; [|by exists p]. eexists. split; [apply lookup_insert_eq|auto].
  - eapply owns_unpend; [by apply unpended|]. unfold removePending. case_match; [|done].
    eapply owns_set_op; [exact Ho|exact Hp| |done|done|reflexivity|]; [done|]. cbn. by intros id r [_ H']%lookup_delete_Some.
Qed.

(** Canceling an operation, with the obligation that follows from it. *)
Definition with_action (a : cancelAction) (ref : OpRef) (h : held) : held :=
  match a with
  | cancelActionNone => h
  | cancelActionAbandon => with_abandon ref h
  | cancelActionClose => with_close ref h
  end.

Lemma cancelOperation_over ref p reason c a c' : reachable c -> c_ops c !! ref = Some p ->
  cancelOperation ref p reason c = (a, c') -> over ref c'.
Proof.
  intros Hr Hp E. unfold cancelOperation in E. pose proof (reachable_done _ Hr ref p Hp) as Hdone. destruct (p_terminal p) eqn:Et.
  { injection E as <- <-. exists p. split; [done|]. split; [by left|]. right. right. destruct Hdone as [Hin|Hf]; [|done].
    destruct (ok_pending _ (reachable_ok _ Hr) _ _ Hin) as (q & Hq & _ & Hact & _). congruence. }
  set (q := match p_deliveryErr p with None => _ | Some _ => p end) in E.
  assert (p_id q = p_id p /\ p_lifecycleDone q = p_lifecycleDone p /\ p_deliveryErr q <> None) as (Hqi & Hql & Hqd)
    by (unfold q; by destruct (p_deliveryErr p) eqn:Ed; rewrite ?Ed).
  assert (forall q', p_deliveryErr q' = p_deliveryErr q -> p_abandoning q' = true \/ p_mode q' <> CancelAbandon \/ finished q' ->
    over ref (set_op ref q' c)) as Hover.
  { intros q' Hd H. exists q'. split; [apply lookup_insert_eq|]. split; [right; congruence|done]. }
  unfold is_pending in E. rewrite Hqi in E. destruct (bool_decide (c_pending c !! p_id p = Some ref)) eqn:Ep; cbn [andb] in E.
  - destruct (p_abandoning q) eqn:Ea; cbn [negb] in E; [injection E as <- <-; apply Hover; auto|].
    destruct (p_mode q =? CancelAbandon) eqn:Em; [injection E as <- <-; apply Hover; auto|]. apply Z.eqb_neq in Em.
    destruct (_ =? CancelClose); injection E as <- <-; apply Hover; auto.
  - injection E as <- <-. apply Hover; [done|]. right. right. apply bool_decide_eq_false in Ep.
    destruct Hdone as [Hin|[Hl _]]; [done|]. split; [by rewrite Hql|by right].
Qed.

Lemma cancelOperation_runs ref reason h : runs (owns h) (with_op ref cancelActionNone (fun p => cancelOperation ref p reason))
  (fun a c w => owns (with_action a ref h) c w /\ (c_ops c !! ref = None \/ over ref c)).
Proof.
  apply handler_with_op; [|by auto]. intros c w p Hr Ho Hp. destruct (cancelOperation ref p reason c) as [a c'] eqn:E. cbn.
  split; [by eapply one_step_of, step_cancel|]. split; [|right; by eapply cancelOperation_over]. unfold cancelOperation in E.
  destruct (p_terminal p) eqn:Et; [by injection E as <- <-|].
  set (q := match p_deliveryErr p with None => _ | Some _ => p end) in E.
  assert (p_id q = p_id p /\ p_mode q = p_mode p /\ p_abandoning q = p_abandoning p) as (Hqi & Hqm & Hqa)
    by (unfold q; by destruct (p_deliveryErr p)).
  assert (forall q' h', (p_abandoning q' = true -> p_abandoning p = true \/ ref ∈ hd_abandons h') -> p_mode q' = p_mode p ->
    (is_pending c ref p = true -> p_mode p = CancelClose -> p_abandoning q' = false -> ref ∈ hd_closes h') ->
    hd_ids h' = hd_ids h -> hd_ops h ⊆ hd_ops h' -> hd_writer h' = hd_writer h -> hd_abandons h ⊆ hd_abandons h' ->
    hd_closes h ⊆ hd_closes h' -> hd_retires h' = hd_retires h -> owns h' (set_op ref q' c) w) as Hset.
  { intros q' h' H1 H2 H3 H4 H5 H6 H7 H8 H9. eapply owns_step; [exact Ho|done|done|done| | |done..]; cbn.
    - intros r x Hx Hab. destruct (decide (r = ref)) as [->|Hne]; [|rewrite lookup_insert_ne in Hx by done; left; eauto].
      rewrite lookup_insert_eq in Hx. injection Hx as <-. destruct (H1 Hab); [left; eauto|by right].
    - intros i r x Hi Hx Hm Hc Hna. destruct (decide (r = ref)) as [->|Hne]; [|rewrite lookup_insert_ne in Hx by done; left; eauto 6].
      rewrite lookup_insert_eq in Hx. injection Hx as <-. destruct (ok_pending _ (reachable_ok _ Hr) _ _ Hi) as (q2 & Hq2 & Hid & _).
      rewrite Hp in Hq2. injection Hq2 as <-. right. apply H3; [unfold is_pending; rewrite bool_decide_true; congruence|congruence|done]. }
  unfold is_pending in E, Hset. rewrite Hqi in E. rewrite Hqa, Hqm in E.
  destruct (bool_decide (c_pending c !! p_id p = Some ref)) eqn:Epend, (p_abandoning p) eqn:Ea; cbn [andb negb] in E.
  2: destruct (p_mode p =? CancelAbandon) eqn:E1; [|destruct (p_mode p =? CancelClose) eqn:E2].
  all: injection E as <- <-; cbn [with_action]; apply Hset; cbn; rewrite ?Hqa; auto; try set_solver; lia.
Qed.

(** Routing a response, with the obligation that follows from it. *)
Definition routed (h : held) (r : routing) (c : Conn) (w : W) : Prop :=
  match r with
  | RouteDone cancelActionAbandon ref => owns (with_abandon ref h) c w
  | RouteError' _ => exists ref, owns (with_close ref h) c w
  | _ => owns h c w
  end.

Lemma owns_with_close h ref c w : owns h c w -> owns (with_close ref h) c w.
Proof. intros Ho. eapply owns_step; [exact Ho|done|done|done| | |try set_solver..]; intros; left; eauto 6. Qed.

Lemma routed_keeps h r c c' w : owns h c w -> c_reserved c' = c_reserved c -> c_err c' = c_err c ->
  c_pending c' = c_pending c -> c_ops c' = c_ops c ->
  match r with RouteDone cancelActionAbandon _ => False | _ => True end -> routed h r c' w.
Proof.
  intros Ho E1 E2 E3 E4 Hr. assert (owns h c' w) as Ho'.
  { eapply owns_step; [exact Ho|done|done|by rewrite E3| | |done..]; rewrite ?E4; intros; left; eauto 6. }
  destruct r as [[]| | |]; try done. exists 0%nat. by apply owns_with_close.
Qed.

Lemma deliver_shape c cl response p a p' : deliver c cl response p = (a, p') -> p_mode p' = p_mode p /\
  match a with
  | cancelActionNone => p_abandoning p' = p_abandoning p /\
      (p_canceled p' = true -> p_canceled p = true \/ cl = ClassificationComplete \/ p_mode p <> CancelClose)
  | cancelActionAbandon => p_abandoning p' = true
  | cancelActionClose => p_abandoning p' = p_abandoning p
  end.
Proof.
  unfold deliver. intros H. case_ifs; injection H as <- <-; cbn; (split; [done|]); try done; (split; [done|]); auto.
  - intros _. right. left. by apply bool_decide_eq_true in Heqb1.
  - intros _. right. right. by apply Z.eqb_neq in Heqb3.
  - congruence.
Qed.

Lemma route_pending_routed h ref p response c w r c' : reachable c -> owns h c w -> c_ops c !! ref = Some p ->
  c_pending c !! rsp_MessageID response = Some ref -> route_pending ref p response c = (r, c') -> routed h r c' w.
Proof.
  intros Hr Ho Hp Hid H. unfold route_pending in H. destruct (p_writeObserved p); cbn [negb] in H.
  2:{ destruct (c_err c); injection H as <- <-; done. }
  case_bool_decide as Hinv; [injection H as <- <-; exists ref; by apply owns_with_close|].
  destruct (ok_pending _ (reachable_ok _ Hr) _ _ Hid) as (p0 & Hp0 & Hpid & _). rewrite Hp in Hp0. injection Hp0 as <-.
  set (cl := FramingPattern_Classify _ _) in *. set (complete := bool_decide (cl = ClassificationComplete)) in *.
  set (p1 := if complete then set_terminal (count_response (len (rsp_Bytes response)) p) else count_response (len (rsp_Bytes response)) p) in *.
  cbn [p_id count_response] in H.
  set (c1 := if complete then set_pending (delete (p_id p) (c_pending c)) c else c) in *.
  destruct (deliver c1 cl response p1) as [a p2] eqn:Ed. cbv zeta in H.
  set (p3 := if complete then finishLifecycle (signalReady p2) else signalReady p2) in *. injection H as <- <-.
  assert (p_mode p1 = p_mode p /\ p_abandoning p1 = p_abandoning p /\ p_canceled p1 = p_canceled p) as (Hm1 & Ha1 & Hc1)
    by (unfold p1; by destruct complete).
  assert (p_mode p3 = p_mode p2 /\ p_abandoning p3 = p_abandoning p2 /\ p_canceled p3 = p_canceled p2) as (Hm3 & Ha3 & Hc3)
    by (unfold p3; by destruct complete).
  apply deliver_shape in Ed as [Hm2 Hd]. rewrite Hm1, Ha1, Hc1 in *.
  assert (forall h', (p_abandoning p2 = true -> p_abandoning p = true \/ ref ∈ hd_abandons h') ->
    (complete = false -> p_mode p = CancelClose -> p_canceled p2 = true -> p_abandoning p2 = false ->
       p_canceled p = true /\ p_abandoning p = false \/ ref ∈ hd_closes h') ->
    hd_ids h' = hd_ids h -> hd_ops h ⊆ hd_ops h' -> hd_writer h' = hd_writer h -> hd_abandons h ⊆ hd_abandons h' ->
    hd_closes h ⊆ hd_closes h' -> hd_retires h' = hd_retires h -> owns h' (set_op ref p3 c1) w) as Hset.
  { intros h' H1 H2 H4 H5 H6 H7 H8 H9. assert (forall i x, c_pending c1 !! i = Some x -> c_pending c !! i = Some x) as Hsub.
    { unfold c1. destruct complete; [|done]. cbn. by intros i x [_ Hi]%lookup_delete_Some. }
    assert (forall i, c_pending c1 !! i = Some ref -> complete = false) as Hcomp.
    { intros i Hi. unfold c1 in Hi. destruct complete; [|done]. cbn in Hi. apply lookup_delete_Some in Hi as [Hne Hi].
      destruct (ok_pending _ (reachable_ok _ Hr) _ _ Hi) as (q & Hq & Hqid & _). congruence. }
    eapply owns_step; [exact Ho|by unfold c1; destruct complete|by unfold c1; destruct complete|exact Hsub| | |done..].
    all: replace (c_ops (set_op ref p3 c1)) with (<[ref := p3]> (c_ops c)) by (unfold c1; by destruct complete).
    - intros x q Hq Hab. destruct (decide (x = ref)) as [->|Hne]; [|rewrite lookup_insert_ne in Hq by done; left; eauto].
      rewrite lookup_insert_eq in Hq. injection Hq as <-. rewrite Ha3 in Hab. destruct (H1 Hab); [left; eauto|by right].
    - intros i x q Hi Hq Hm Hc Hna. destruct (decide (x = ref)) as [->|Hne]; [|rewrite lookup_insert_ne in Hq by done; left; eauto 6].
      rewrite lookup_insert_eq in Hq. injection Hq as <-. rewrite Hm3, Hm2 in Hm. rewrite Hc3 in Hc. rewrite Ha3 in Hna.
      destruct (H2 (Hcomp _ Hi) Hm Hc Hna) as [[? ?]|]; [left; exists p; auto|by right]. }
  destruct a; cbn [routed].
  2:{ apply Hset; try done; [intros _; right; cbn; set_solver|congruence|cbn; set_solver]. }
  2:{ exists ref. apply Hset; try done; [rewrite Hd; auto|intros; right; cbn; set_solver|cbn; set_solver]. }
  destruct Hd as [Ha Hc]. apply Hset; auto; [rewrite Ha; auto|]. intros Hcf Hm Hca Hna. left. rewrite Ha in Hna. split; [|done].
  destruct (Hc Hca) as [?|[?|?]]; [done| |done]. unfold complete in Hcf. by rewrite bool_decide_true in Hcf.
Qed.

Lemma route_runs response h : runs (owns h) (locked (route response)) (routed h).
Proof.
  apply handler_locked. intros c w Hr Ho. destruct (route response c) as [r c'] eqn:E. cbn.
  split; [by eapply one_step_of, step_route|]. unfold route in E. destruct (rsp_MessageID response =? 0).
  { destruct (routeUnsolicited response c) as [e c1] eqn:Eu.
    assert (c_reserved c1 = c_reserved c /\ c_err c1 = c_err c /\ c_pending c1 = c_pending c /\ c_ops c1 = c_ops c) as (? & ? & ? & ?).
    { unfold routeUnsolicited in Eu. repeat case_match; simplify_eq; done. }
    destruct e; injection E as <- <-; by eapply routed_keeps. }
  destruct (c_pending c !! rsp_MessageID response) as [ref|] eqn:Ep.
  - destruct (c_ops c !! ref) as [p|] eqn:Hp; [by eapply route_pending_routed|]. by injection E as <- <-.
  - destruct (c_tombstones c !! _); [case_bool_decide|]; injection E as <- <-; by eapply routed_keeps.
Qed.

Lemma stream_Next_runs ref h : runs (owns h) (with_op ref Waiting (fun p => stream_Next ref p)) (fun _ => owns h).
Proof.
  apply handler_with_op; [|done]. intros c w p Hr Ho Hp. destruct (stream_Next ref p c) as [d c'] eqn:E. cbn.
  split; [by eapply one_step_of, step_next|]. unfold stream_Next in E. repeat case_match; injection E as <- <-; try done.
  all: set_op_owned Ho Hp.
Qed.

Lemma unsolicited_runs h : runs (owns h) (locked NextUnsolicited_round) (fun _ => owns h).
Proof.
  apply handler_locked. intros c w Hr Ho. destruct (NextUnsolicited_round c) as [d c'] eqn:E. cbn.
  split; [by eapply one_step_of, step_nextUnsolicited|]. unfold NextUnsolicited_round in E. repeat case_match; injection E as <- <-; try done.
  eapply owns_step; [exact Ho|done|done|done| | |done..]; cbn; intros; left; eauto 6.
Qed.
End sections.

(** ** The handlers *)

(** The errors of a context ([context.Canceled] and [DeadlineExceeded]) are not
    errors of this package. *)
Definition foreign (err : cerror) : Prop := Is err ErrAmbiguousOutcome = false /\ Is err ErrClosed = false.

Section handlers.
Context {W : Type}.
Variable others : W -> held.
Variable ctxErr : ST (Conn * W) (option cerror).
Variable awaitID : ST (Conn * W) idWait.
Variable awaitWriter : ST (Conn * W) writerWait.
Variable releaseWriter : ST (Conn * W) unit.
Variable transportWrite : bytes -> ST (Conn * W) (nat * option cerror * bool).
Variable spawnAbandon : OpRef -> ST (Conn * W) unit.
Variable operationErr : ST (Conn * W) (option cerror).
Variable awaitNext : ST (Conn * W) nextWait.
Variable awaitWatch : ST (Conn * W) watchWait.
Variable nextFrame : ST (Conn * W) (bytes + error * bool).
Variable awaitWritten : ST (Conn * W) bool.
Variable awaitDone : ST (Conn * W) (option cerror).
Variable awaitCloseWriter : ST (Conn * W) closeWait.
Variable awaitUnsolicited : ST (Conn * W) (option cerror).
Abbreviation owns := (owns others).
Abbreviation runs := (runs (W := W)).
Abbreviation yields := (yields others).

(** While a handler waits, the others take steps and leave alone what it holds.
    A wait for the end of the connection ends with it; a wait for the token takes
    it from its channel; a write that was taken over leaves a callback that is to
    retire the connection; a goroutine that is started takes the abandoning on. *)
Record scheduled : Prop := {
  sc_ctxErr h : runs (owns h) ctxErr (fun e c w => match e with Some err => foreign err | None => True end /\ owns h c w);
  sc_awaitID : yields awaitID;
  sc_awaitWriter h : runs (owns h) awaitWriter (fun r c w =>
    match r with
    | WriterToken => owns (with_writer h) c w
    | WriterClosed => is_Some (c_err c) /\ owns h c w
    | WriterCanceled err => foreign err /\ owns h c w
    end);
  sc_releaseWriter h : runs (owns (with_writer h)) releaseWriter (fun _ => owns h);
  sc_transportWrite b h : runs (owns h) (transportWrite b) (fun r => owns (if r.2 then h else with_retire h));
  sc_spawnAbandon ref h : runs (owns (with_abandon ref h)) (spawnAbandon ref) (fun _ => owns h);
  sc_operationErr : yields operationErr;
  sc_awaitNext : yields awaitNext;
  sc_awaitWatch : yields awaitWatch;
  sc_nextFrame : yields nextFrame;
  sc_awaitWritten : yields awaitWritten;
  sc_awaitDone h : runs (owns h) awaitDone (fun e c w => owns h c w /\ (e = None -> is_Some (c_err c)));
  sc_awaitCloseWriter h : runs (owns h) awaitCloseWriter (fun r => owns (match r with CloseToken => with_writer h | _ => h end));
  sc_awaitUnsolicited : yields awaitUnsolicited
}.
Hypothesis Hsched : scheduled.

Lemma reserveID_runs fuel scope h : runs (owns h) (reserveMessageID awaitID fuel scope)
  (fun r => match r with Some (inl id) => owns (with_id id h) | _ => owns h end).
Proof.
  induction fuel as [|fuel IH]; cbn [reserveMessageID]; [by apply handler_ret|]. eapply handler_bind; [apply reserve_runs|].
  intros [id|err|]; [by apply handler_ret..|]. eapply handler_bind; [apply (sc_awaitID Hsched)|].
  intros [err| |]; [by apply handler_ret|exact IH|]. eapply handler_bind; [by apply (handler_read _ _ (fun _ => owns h))|].
  intros err. by apply handler_ret.
Qed.

(** A failed [acquireWriter] has no token; its error is that of a context, or the
    connection is unusable. *)
Lemma acquireWriter_runs h : runs (owns h) (acquireWriter ctxErr awaitWriter releaseWriter) (fun r c w =>
  match r with
  | None => owns (with_writer h) c w
  | Some err => owns h c w /\ exists cause, err = unsentError cause /\
      (foreign cause \/ is_Some (c_err c) \/ unusable c = true /\ cause = ErrClosed)
  end).
Proof.
  unfold acquireWriter. eapply handler_bind; [apply (sc_awaitWriter Hsched)|]. intros [err| |].
  - apply handler_ret. intros c w _ [Hf Ho]. eauto.
  - eapply handler_bind; [by apply (handler_read _ _ (fun _ c w => is_Some (c_err c) /\ owns h c w))|]. intros err. apply handler_ret.
    intros c w _ [He Ho]. eauto 6.
  - eapply handler_bind; [apply (sc_ctxErr Hsched)|]. intros [err|]; apply handler_pure.
    + intros Hf. eapply handler_bind; [apply (sc_releaseWriter Hsched h)|]. intros []. apply handler_ret. eauto.
    + intros _. eapply handler_bind; [apply (handler_read _ _ (fun e c w => (forall err, e = Some err ->
        is_Some (c_err c) \/ unusable c = true /\ err = ErrClosed) /\ owns (with_writer h) c w))|].
      { intros c w _ Ho. split; [|done]. intros err. destruct (unusable c) eqn:Eu; [|done]. intros [= <-].
        unfold closedError. destruct (c_err c); eauto. }
      intros [err|]; [|by apply handler_ret; intros c w _ []]. eapply handler_bind.
      { eapply handler_pre; [|apply (handler_keep (fun c => is_Some (c_err c) \/ unusable c = true /\ err = ErrClosed)), (sc_releaseWriter Hsched h)].
        intros c w _ [He Ho]. auto. }
      intros []. apply handler_ret. intros c w _ [He Ho]. split; [done|]. eexists. split; [done|]. tauto.
Qed.

(** Errors of a write: the connection is retired, or a callback is about to; or
    nothing was written. *)
Definition failedWrite (h : held) (n : nat) (err : cerror) (c : Conn) (w : W) : Prop :=
  is_Some (c_err c) /\ owns h c w \/
  (exists cause, err = ambiguousError cause) /\ owns (with_retire h) c w \/
  (n = 0%nat /\ Is err ErrAmbiguousOutcome = false) /\ owns h c w.

Lemma writeOutcome_runs total h : runs (owns h) (writeOutcome ctxErr total) (fun _ => owns h).
Proof.
  unfold writeOutcome. destruct (negb _); [by apply handler_ret|]. eapply handler_bind; [apply (sc_ctxErr Hsched)|].
  intros e. by apply handler_ret; intros c w _ [].
Qed.

Lemma ctx_runs h : runs (owns h) ctxErr (fun _ => owns h).
Proof. eapply handler_post; [|apply (sc_ctxErr Hsched)]. by intros x c w _ []. Qed.

Lemma writeRound_runs message total h : runs (owns h) (writeAll_round ctxErr transportWrite message total)
  (fun r c w => match r.2 with None => (total < r.1)%nat /\ owns h c w | Some err => failedWrite h r.1 err c w end).
Proof.
  unfold writeAll_round. eapply handler_bind; [apply (sc_ctxErr Hsched)|]. intros [err|]; apply handler_pure.
  - intros [Hf _]. destruct (total =? 0)%nat eqn:E0.
    + apply handler_ret. intros c w _ Ho. right. right. split; [|done]. apply Nat.eqb_eq in E0. split; [done|]. cbn. by rewrite Hf.
    + eapply handler_bind; [by apply (retire_runs others _ h)|]. intros []. apply handler_ret. intros c w _ [Ho He]. by left.
  - intros _. eapply handler_bind; [apply (sc_transportWrite Hsched)|]. intros [[n err] completed]. cbn [snd]. cbv zeta.
    destruct completed; cbn [negb].
    + destruct (match err with None => _ | Some _ => _ end) as [e|] eqn:Ee.
      * eapply handler_bind; [apply writeOutcome_runs|]. intros outcome. eapply handler_bind; [apply ctx_runs|]. intros canceled.
        eapply handler_bind; [by apply (retire_runs others _ h)|]. intros []. apply handler_ret. intros c w _ [Ho He]. by left.
      * apply handler_ret. intros c w _ Ho. split; [|done]. cbn. destruct err; [done|]. destruct (n =? 0)%nat eqn:En; [done|].
        apply Nat.eqb_neq in En. lia.
    + eapply handler_bind; [apply ctx_runs|]. intros cause. apply handler_ret. intros c w _ Ho. right. left. split; [by eexists|done].
Qed.

(** [writeAll] always returns. *)
Definition wrote (h : held) (r : option (nat * option cerror)) (c : Conn) (w : W) : Prop :=
  match r with None => False | Some (_, None) => owns h c w | Some (n, Some err) => failedWrite h n err c w end.

Lemma writeAll_runs message h : runs (owns h) (writeAll ctxErr transportWrite message) (wrote h).
Proof.
  unfold writeAll. assert (forall fuel total, (length message <= total + fuel)%nat ->
    runs (owns h) (writeAll_loop ctxErr transportWrite fuel message total) (wrote h)) as H; [|apply H; lia].
  induction fuel as [|fuel IH]; intros total Hl; cbn [writeAll_loop].
  - replace (total <? length message)%nat with false by (symmetry; apply Nat.ltb_ge; lia). by apply handler_ret.
  - destruct (negb _); [by apply handler_ret|]. eapply handler_bind; [apply writeRound_runs|]. intros [total' [err|]]; cbn [fst snd].
    + by apply handler_ret.
    + apply handler_pure. intros Hlt. apply IH. lia.
Qed.

(** Whatever a write left, the token goes back. *)
Lemma release_failed h n err : runs (failedWrite (with_writer h) n err) releaseWriter (fun _ => failedWrite h n err).
Proof.
  unfold failedWrite. apply handler_or; [|apply handler_or].
  - eapply handler_post; [|apply (handler_keep (fun c => is_Some (c_err c))), (sc_releaseWriter Hsched h)]. intros [] c w _ ?. by left.
  - apply handler_pure. intros H. eapply handler_post; [|apply (sc_releaseWriter Hsched (with_retire h))]. intros [] c w _ ?. right. by left.
  - apply handler_pure. intros H. eapply handler_post; [|apply (sc_releaseWriter Hsched h)]. intros [] c w _ ?. right. by right.
Qed.

Lemma release_wrote h r : runs (wrote (with_writer h) r) releaseWriter (fun _ => wrote h r).
Proof.
  destruct r as [[n [err|]]|]; [apply release_failed|apply (sc_releaseWriter Hsched h)|by intros c w _ []].
Qed.

Lemma writeRequest_runs ref message h :
  runs (owns h) (writeRequest ctxErr awaitWriter transportWrite releaseWriter ref message) (wrote h).
Proof.
  unfold writeRequest. eapply handler_bind; [apply acquireWriter_runs|]. intros [err|].
  - apply handler_ret. intros c w _ [Ho (cause & -> & [[Hf _]|[He|[_ ->]]])]; [|by left|].
    + right. right. split; [|done]. split; [done|]. cbn. by rewrite Hf.
    + by right; right.
  - eapply handler_bind; [apply startWrite_runs|]. intros []. eapply handler_bind; [apply writeAll_runs|]. intros r.
    eapply handler_bind; [apply release_wrote|]. intros []. by apply handler_ret.
Qed.

(** *** Operations *)

(** What a request leaves: a stream that runs the operation, with its entry unless
    there is no response; or an error and nothing; or the ambiguous error of a
    write that was taken over, with the entry until the callback has run. *)
Definition requested (op : UntypedOperation) (h : held) (r : doResult) (c : Conn) (w : W) : Prop :=
  match r with
  | DoStream ref =>
      op_with (fun p => p_pattern p = uo_Responses op /\ p_mode p = uo_Cancellation op /\ p_writeObserved p = true) ref c /\
      owns (if FramingPattern_NoResponse (uo_Responses op) then h else with_entry ref h) c w
  | DoFailed err => owns h c w \/
      exists ref cause, err = ambiguousError cause /\ owns (with_retire (with_entry ref h)) c w
  | DoBlocked => owns h c w
  end.

Lemma known_entry op ref c w h : runs_for op ref c -> owns h c w -> op_with (fun _ => True) ref c /\ owns h c w.
Proof. intros (p & Hp & _) Ho. split; [by exists p|done]. Qed.

Lemma failedWrite_runs op ref n err h :
  runs (fun c w => runs_for op ref c /\ failedWrite (with_entry ref h) n err c w)
    ((if (n =? 0)%nat && negb (Is err ErrAmbiguousOutcome) then update_op ref (removeDefinitelyUnsent ref) else sret tt) ;;
     sret (DoFailed err)) (requested op h).
Proof.
  set (b := _ && _). assert (forall h', runs (fun c w => runs_for op ref c /\ owns (with_entry ref h') c w)
    (update_op ref (removeDefinitelyUnsent ref)) (fun _ => owns h')) as Hrem.
  { intros h'. eapply handler_pre; [|eapply handler_post; [|by apply (remove_runs others ref h' (fun _ => True))]].
    - intros c w _ [Hf Ho]. by eapply known_entry.
    - by intros x c w _ []. }
  intros c w Hr [Hfor [[He Ho]|[[[cause ->] Ho]|[[-> Ha] Ho]]]].
  - assert (forall c w, reachable c -> is_Some (c_err c) /\ owns (with_entry ref h) c w -> owns h c w) as Hshed.
    { intros c1 w1 Hr1 [He1 Ho1]. eapply owns_shed; [by apply retired_pending|exact Ho1|done..]. }
    destruct b.
    + eapply (handler_bind _ _ (fun _ => owns h)); [apply Hrem|intros []; apply handler_ret; by left|done|done].
    + split; [exists []; constructor|]. left. by apply Hshed.
  - assert (b = false) as -> by (unfold b; cbn; by rewrite andb_false_r). split; [exists []; constructor|]. right. eauto.
  - assert (b = true) as -> by (unfold b; by rewrite Ha).
    eapply (handler_bind _ _ (fun _ => owns h)); [apply Hrem|intros []; apply handler_ret; by left|done|done].
Qed.

Lemma do_write_runs scope op id message h : runs (owns (with_id id h))
  (do_write ctxErr awaitWriter transportWrite releaseWriter scope op id message) (requested op h).
Proof.
  unfold do_write. eapply handler_bind; [apply install_runs|]. intros [ref [err|]]; unfold installed; cbn [fst snd].
  { eapply handler_bind; [apply releaseReserved_runs|]. intros []. apply handler_ret. by left. }
  eapply handler_bind; [apply (handler_keep (runs_for op ref)), writeRequest_runs|]. intros [[n [err|]]|]; cbn [wrote].
  - apply failedWrite_runs.
  - eapply handler_bind; [apply (observeWrite_runs _ op)|]. intros []. destruct (FramingPattern_NoResponse (uo_Responses op)) eqn:En.
    + eapply handler_bind; [by apply (remove_runs others ref h)|]. intros []. apply handler_ret. intros c w _ Hp. cbn. by rewrite En.
    + eapply (handler_bind _ _ (fun _ c w => _)); [by apply handler_ret|]. intros []. apply handler_ret. intros c w _ Hp. cbn. rewrite En. exact Hp.
  - by intros c w _ [_ []].
Qed.

Lemma do_runs fuel scope op h :
  runs (owns h) (do ctxErr awaitID awaitWriter transportWrite releaseWriter fuel scope op) (requested op h).
Proof.
  unfold do. destruct (UntypedOperation_Validate op); [by apply handler_ret; left|].
  destruct (uo_Protocol op) as [protocol|]; [|by apply handler_ret; left]. destruct (match scope with operationApplication => _ | _ => _ end);
    [by apply handler_ret; left|]. eapply handler_bind; [apply reserveID_runs|]. intros [[id|err]|]; [|by apply handler_ret; left|by apply handler_ret].
  eapply handler_bind; [by apply (handler_read _ _ (fun _ => owns (with_id id h)))|]. intros limits.
  destruct (encodeLDAPRequest _ _ _ _) as [message|err].
  - eapply handler_bind; [apply ctx_runs|]. intros [err|]; [|apply do_write_runs].
    eapply handler_bind; [apply releaseReserved_runs|]. intros []. apply handler_ret. by left.
  - eapply handler_bind; [apply releaseReserved_runs|]. intros []. apply handler_ret. by left.
Qed.

(** The callback that took over a write ends what the request left. *)
Lemma interrupt_runs ref err h : runs (owns (with_retire (with_entry ref h))) (interruptWrite err)
  (fun _ c w => owns h c w /\ is_Some (c_err c)).
Proof. by apply retire_sheds. Qed.

Lemma cancel_runs ref reason h : runs (owns h) (cancel spawnAbandon ref reason)
  (fun _ c w => owns h c w /\ (c_ops c !! ref = None \/ over ref c)).
Proof.
  unfold cancel. eapply (handler_bind _ _ (fun a c w => (a = cancelActionNone /\ c_ops c !! ref = None \/ over ref c) /\ owns (with_action a ref h) c w)).
  { apply handler_with_op.
    - intros c w p Hr Ho Hp. destruct (cancelOperation_runs others ref reason h c w Hr Ho) as [_ [H1 H2]]. unfold with_op in H1, H2.
      rewrite Hp in H1, H2. destruct (cancelOperation ref p reason c) as [a c'] eqn:E. cbn in *.
      split; [by eapply one_step_of, step_cancel|]. split; [|done]. destruct H2 as [H2|H2]; [|by right].
      unfold cancelOperation in E. case_ifs; injection E as <- <-; cbn in H2; try congruence; by rewrite lookup_insert_eq in H2.
    - intros c w _ Ho Hn. split; [by left|done]. }
  intros []; cbn [with_action].
  - apply handler_ret. intros c w _ [[[_ H]|H] Ho]; auto.
  - eapply handler_post; [|eapply handler_pre; [|apply (handler_keep (over ref)), (sc_spawnAbandon Hsched ref h)]].
    + intros [] c w _ [Hv Ho]. auto.
    + intros c w _ [[[? _]|Hv] Ho]; [done|auto].
  - eapply handler_post; [|eapply handler_pre; [|apply (handler_keep (over ref)), (retire_sheds others (with_close ref h) h)]]; try done.
    + intros [] c w _ [Hv [Ho _]]. auto.
    + intros c w _ [[[? _]|Hv] Ho]; [done|auto].
Qed.

Lemma cancel_yields ref reason : yields (cancel spawnAbandon ref reason).
Proof. intros h. eapply handler_post; [|apply cancel_runs]. by intros [] c w _ []. Qed.

(** *** Abandoning *)

(** The target is settled, or the connection takes no more operations. *)
Definition abandoned (ref : OpRef) (c : Conn) : Prop := unusable c = true \/ settled ref c.

Lemma not_abandonable c ref p : reachable c -> c_ops c !! ref = Some p -> abandonable ref p c = false -> abandoned ref c.
Proof.
  intros Hr Hp H. unfold abandonable in H. apply andb_false_iff in H as [H|H]; [right|left; by apply negb_false_iff].
  destruct (reachable_done _ Hr ref p Hp) as [Hin|Hf]; [|by exists p]. unfold is_pending in H. by rewrite bool_decide_true in H.
Qed.

Lemma commit_runs ref h : runs (fun c w => abandons ref c /\ owns h c w) (commitAbandon ref)
  (fun b c w => abandoned ref c /\ owns h c w).
Proof.
  apply handler_with_op; [|intros c w _ [(p & Hp & _) _] Hn; congruence]. intros c w p Hr [(p' & Hp' & Ha) Ho] Hp.
  rewrite Hp in Hp'. injection Hp' as <-. destruct (abandonable ref p c) eqn:E; cbn.
  - split; [by eapply one_step_of, step_abandonCommit|]. unfold sendAbandon_commit. rewrite E. cbn [negb]. split.
    + right. eexists. split; [apply lookup_insert_eq|]. split; [done|]. right.
      exact (op_abandoning _ _ (ok_ops _ (reachable_ok _ Hr) ref p Hp) Ha).
    + eapply owns_set_op; [exact Ho|exact Hp| |done|done|reflexivity|]; [done|]. cbn. by intros id r [_ H']%lookup_delete_Some.
  - split; [by left|]. split; [by eapply not_abandonable|done].
Qed.

Lemma retired_abandoned ref c : is_Some (c_err c) -> abandoned ref c.
Proof. intros [e He]. left. unfold unusable. by rewrite He. Qed.

(** Without the token the identifier is given back, and the connection is retired
    unless it takes no more operations anyway. *)
Lemma refused_runs ref id err h : runs (fun c w => (exists cause, err = unsentError cause /\
    (foreign cause \/ is_Some (c_err c) \/ unusable c = true /\ cause = ErrClosed)) /\ owns (with_id id h) c w)
  (update (releaseReserved id) ;; if negb (Is err ErrClosed) then update (retire (Some err)) else sret tt)
  (fun _ c w => abandoned ref c /\ owns h c w).
Proof.
  intros c w Hr [(cause & -> & Hc) Ho].
  assert (runs (fun c w => owns (with_id id h) c w)
    (update (releaseReserved id) ;; update (retire (Some (unsentError cause)))) (fun _ c w => abandoned ref c /\ owns h c w)) as Hretire.
  { eapply handler_bind; [apply releaseReserved_runs|]. intros []. eapply handler_post; [|by apply (retire_runs others _ h)].
    intros [] c1 w1 _ []. auto using retired_abandoned. }
  assert (runs (fun c w => unusable c = true /\ owns (with_id id h) c w)
    (update (releaseReserved id) ;; sret tt) (fun _ c w => abandoned ref c /\ owns h c w)) as Hkeep.
  { eapply handler_bind; [apply (handler_keep (fun c => unusable c = true)), releaseReserved_runs|]. intros []. apply handler_ret.
    intros c1 w1 _ []. split; [by left|done]. }
  assert (foreign cause \/ unusable c = true) as [[_ Hf]|Hu].
  { destruct Hc as [?|[[e He]|[? _]]]; auto. right. unfold unusable. by rewrite He. }
  - replace (negb (Is (unsentError cause) ErrClosed)) with true by (cbn; by rewrite Hf). by apply Hretire.
  - destruct (negb _); [by apply Hretire|by apply Hkeep].
Qed.

Lemma sendAbandon_runs ref h : runs (fun c w => abandons ref c /\ owns h c w)
  (sendAbandon ctxErr awaitWriter transportWrite releaseWriter ref) (fun _ c w => abandoned ref c /\ owns h c w).
Proof.
  pose proof (retired_abandoned ref) as Hret.
  unfold sendAbandon. eapply (handler_bind _ _ (fun target c w => match target with
    | None => abandoned ref c /\ owns h c w
    | Some _ => op_with (fun p => abandonable ref p c = true) ref c /\ abandons ref c /\ owns h c w end)).
  { apply handler_with_op; [|intros c w _ [(p & Hp & _) _] Hn; congruence]. intros c w p Hr [Hab Ho] Hp. split; [by left|]. cbn.
    destruct (abandonable ref p c) eqn:E; [split; [by exists p|done]|]. split; [by eapply not_abandonable|done]. }
  intros [target|]; [|by apply handler_ret]. eapply (handler_bind _ _ (fun id c w => abandons ref c /\
    owns (match id with Some id => with_id id h | None => h end) c w)).
  { apply handler_with_op; [|intros c w _ [(p & Hp & _) _] Hn; congruence]. intros c w p Hr (_ & Hab & Ho) Hp.
    destruct (sendAbandon_reserve ref p c) as [id c'] eqn:E. cbn. assert (step c [] c') as Hs by (by eapply step_abandonReserve).
    split; [by eapply one_step_of|]. split.
    - eapply (stable c []); [done| |exact Hab]. apply (steps_step _ [] c []); [constructor|done].
    - unfold sendAbandon_reserve in E. destruct (negb _); [by injection E as <- <-|]. by eapply owns_tryReserve. }
  intros [id|].
  2:{ eapply handler_bind; [by apply (handler_read _ _ (fun _ c w => abandons ref c /\ owns h c w))|]. intros limit.
      eapply handler_post; [|apply (retire_runs others _ h); by intros c w []]. intros [] c w _ [Ho He]. auto. }
  eapply handler_bind; [apply (handler_keep (abandons ref)), acquireWriter_runs|]. intros [err|].
  - eapply handler_pre; [|apply (refused_runs ref id err h)]. intros c w _ (_ & Ho & H). auto.
  - eapply handler_bind; [apply (commit_runs ref (with_writer (with_id id h)))|]. intros committed. destruct (negb committed).
    + eapply handler_bind; [apply (handler_keep (abandoned ref)), (sc_releaseWriter Hsched (with_id id h))|]. intros [].
      apply (handler_keep (abandoned ref)), releaseReserved_runs.
    + eapply handler_bind; [apply (handler_keep (abandoned ref)), writeAll_runs|]. intros r.
      eapply handler_bind; [apply (handler_keep (abandoned ref)), (release_wrote (with_id id h))|]. intros [].
      eapply (handler_bind _ _ (fun _ c w => abandoned ref c /\ owns h c w)).
      { apply (handler_keep (abandoned ref)). eapply handler_pre; [|apply releaseReserved_runs]. intros c w _.
        destruct r as [[n [err|]]|]; cbn; [|done..]. intros [[_ ?]|[[_ ?]|[_ ?]]]; [done|by apply owns_forget|done]. }
      intros []. destruct r as [[n [err|]]|]; [|by apply handler_ret..].
      eapply handler_post; [|apply (retire_runs others _ h); by intros c w []]. intros [] c w _ [Ho He]. auto.
Qed.

(** *** Streams, the reader and closing *)

Lemma Next_runs fuel ref : yields (Next spawnAbandon operationErr awaitNext fuel ref).
Proof.
  intros h. unfold Next. eapply handler_bind; [apply (sc_operationErr Hsched)|]. intros err.
  eapply (handler_bind _ _ (fun _ => owns h)); [destruct err; [apply cancel_yields|by apply handler_ret]|]. intros [].
  induction fuel as [|fuel IH]; cbn [Next_loop]; [by apply handler_ret|]. eapply handler_bind; [apply stream_Next_runs|].
  intros [response|e|]; [by apply handler_ret..|]. eapply handler_bind; [apply (sc_awaitNext Hsched)|]. intros [e|e|]; [by apply handler_ret| |exact IH].
  eapply handler_bind; [apply cancel_yields|]. intros []. exact IH.
Qed.

Lemma NextUnsolicited_runs fuel : yields (NextUnsolicited awaitUnsolicited fuel).
Proof.
  intros h. induction fuel as [|fuel IH]; cbn [NextUnsolicited]; [by apply handler_ret|]. eapply handler_bind; [apply unsolicited_runs|].
  intros [response|e|]; [by apply handler_ret..|]. eapply handler_bind; [apply (sc_awaitUnsolicited Hsched)|].
  intros [e|]; [by apply handler_ret|exact IH].
Qed.

Lemma watchOperation_runs ref : yields (watchOperation spawnAbandon awaitWatch ref).
Proof.
  intros h. unfold watchOperation. eapply handler_bind; [apply (sc_awaitWatch Hsched)|]. intros [err|]; [apply cancel_yields|by apply handler_ret].
Qed.

Lemma routeResponse_runs fuel response h : runs (owns h) (routeResponse spawnAbandon awaitWritten fuel response)
  (fun r c w => match r with Some (Some _) => exists ref, owns (with_close ref h) c w | _ => owns h c w end).
Proof.
  induction fuel as [|fuel IH]; cbn [routeResponse]; [by apply handler_ret|]. eapply handler_bind; [apply route_runs|].
  intros [[] ref| | |err]; cbn [routed]; [by apply handler_ret| |by apply handler_ret|by apply handler_ret| |by apply handler_ret].
  - eapply handler_bind; [apply (sc_spawnAbandon Hsched ref h)|]. intros []. by apply handler_ret.
  - eapply handler_bind; [apply (sc_awaitWritten Hsched)|]. intros []; [exact IH|by apply handler_ret].
Qed.

Lemma readLoop_round_runs fuel h : runs (owns h) (readLoop_round spawnAbandon nextFrame awaitWritten fuel)
  (fun r c w => (r = ReadOver -> is_Some (c_err c)) /\ owns h c w).
Proof.
  unfold readLoop_round. eapply handler_bind; [apply (sc_nextFrame Hsched)|]. intros [message|[err netClosed]].
  - eapply handler_bind; [by apply (handler_read _ _ (fun _ => owns h))|]. intros limits.
    destruct (parseOwnedResponse message limits) as [response|err].
    + eapply handler_bind; [apply routeResponse_runs|]. intros [[err|]|]; [|by apply handler_ret..].
      eapply (handler_bind _ _ (fun _ c w => owns h c w /\ is_Some (c_err c))); [|intros []; by apply handler_ret; intros c w _ []].
      apply handler_ex. intros ref. by apply retire_sheds.
    + eapply handler_bind; [by apply (retire_runs others _ h)|]. intros []. by apply handler_ret; intros c w _ [].
  - eapply handler_bind; [by apply (handler_read _ _ (fun _ => owns h))|]. intros e.
    eapply handler_bind; [by apply (retire_runs others _ h)|]. intros []. by apply handler_ret; intros c w _ [].
Qed.

Lemma readLoop_runs fuel h : runs (owns h) (readLoop spawnAbandon nextFrame awaitWritten fuel)
  (fun ended c w => (ended = true -> is_Some (c_err c)) /\ owns h c w).
Proof.
  induction fuel as [|fuel IH]; cbn [readLoop]; [by apply handler_ret|]. eapply handler_bind; [apply readLoop_round_runs|].
  intros []; [eapply handler_pre; [|exact IH]; by intros c w _ []|apply handler_ret; intros c w _ []; auto|by apply handler_ret; intros c w _ []].
Qed.

Lemma sendUnbind_runs h : runs (owns (with_writer h)) (sendUnbind ctxErr transportWrite releaseWriter) (fun _ => owns h).
Proof.
  unfold sendUnbind. eapply (handler_bind _ _ (fun id => owns (match id with Some id => with_id id (with_writer h) | None => with_writer h end))).
  { apply handler_locked. intros c w Hr Ho. destruct (tryReserveMessageIDLocked c) as [id c'] eqn:E.
    split; [by eapply one_step_of, step_closeReserve|]. by eapply owns_tryReserve. }
  intros [id|].
  - eapply handler_bind; [apply writeAll_runs|]. intros r. eapply (handler_bind _ _ (fun _ => owns (with_writer h))).
    { eapply handler_pre; [|apply releaseReserved_runs]. intros c w _. destruct r as [[n [err|]]|]; cbn; [|done..].
      intros [[_ ?]|[[_ ?]|[_ ?]]]; [done|by apply owns_forget|done]. }
    intros []. eapply handler_bind; [apply (sc_releaseWriter Hsched h)|]. intros []. by apply handler_ret.
  - eapply handler_bind; [apply (sc_releaseWriter Hsched h)|]. intros []. by apply handler_ret.
Qed.

Lemma Conn_CloseContext_runs h : runs (owns h) (CloseContext ctxErr transportWrite releaseWriter awaitDone awaitCloseWriter)
  (fun err c w => (is_Some (c_err c) \/ is_Some err /\ c_closing c = true) /\ owns h c w).
Proof.
  unfold CloseContext. eapply (handler_bind _ _ (fun r c w => (match r with CloseAlready _ => is_Some (c_err c) | _ => c_closing c = true end) /\ owns h c w)).
  { apply handler_locked. intros c w Hr Ho. unfold startClose. destruct (c_err c) eqn:Ee; [cbn; split; [by left|rewrite Ee; eauto]|].
    destruct (c_closing c) eqn:Ec; cbn; [split; [by left|done]|]. split; [eapply one_step_of, step_beginClose|].
    assert (c_reserved (beginClose c) = c_reserved c /\ c_err (beginClose c) = c_err c /\ c_pending (beginClose c) = c_pending c /\
      c_ops (beginClose c) = c_ops c /\ c_closing (beginClose c) = true) as (E1 & E2 & E3 & E4 & E5)
      by (unfold beginClose; rewrite Ee, Ec; cbn; by case_match).
    split; [done|]. eapply owns_step; [exact Ho|done|done|by rewrite E3| | |done..]; rewrite ?E4; intros; left; eauto 6. }
  intros [err| |].
  - apply handler_ret. intros c w _ [? ?]. auto.
  - eapply handler_post; [|apply (handler_keep (fun c => c_closing c = true)), (sc_awaitDone Hsched h)].
    intros [err|] c w _ (Hc & Ho & Hd); split; try done; [right; eauto|left; auto].
  - eapply handler_bind; [eapply handler_pre; [|apply (sc_awaitCloseWriter Hsched h)]; by intros c w _ []|]. intros wait.
    eapply (handler_bind _ _ (fun _ => owns h)); [destruct wait; [apply sendUnbind_runs|by apply handler_ret..]|]. intros closeErr.
    eapply handler_bind; [by apply (retire_runs others _ h)|]. intros []. apply handler_ret. intros c w _ [? ?]. auto.
Qed.

(** C3. The handlers refine the step relation and give back what they took. What a
    handler and the others hold together is exactly what there is: the identifiers
    reserved (until the connection is retired), the one writer token, and every
    pending entry, operation being abandoned and canceled operation that is to close
    its connection has somebody who sees to it. If what happens while a handler
    waits (for a context, a channel, the transport or the framer) are steps of the
    connection that leave alone what the handler holds, then from every reachable
    connection each whole handler is a sequence of steps too, and leaves alone what
    the others hold. A request that fails leaves no identifier reserved, no entry
    pending and the writer token in its place; only if the context's callback took
    over its write, the entry stays until that callback has retired the connection.
    One that succeeds leaves its operation, with the pattern and the cancellation
    mode that were asked for, as an entry and nothing else, and no entry if it has no
    response. Closing a stream makes reading it never wait again and, unless the
    operation is finished, has it abandoned if its mode says so; what canceling
    obliges to, abandoning or closing the connection, is done or handed over.
    Abandoning an operation settles it, unless the connection takes no more
    operations, and gives identifier and token back. When the read loop ends the
    connection is retired, and [CloseContext] returns with the connection retired, or
    with the error of its context while another call is closing it. *)
Theorem handlers_refine_steps fuel scope op ref err h :
  runs (owns h) (do ctxErr awaitID awaitWriter transportWrite releaseWriter fuel scope op) (requested op h) /\
  runs (owns (with_retire (with_entry ref h))) (interruptWrite err) (fun _ c w => owns h c w /\ is_Some (c_err c)) /\
  runs (owns h) (Next spawnAbandon operationErr awaitNext fuel ref) (fun _ => owns h) /\
  runs (owns h) (NextUnsolicited awaitUnsolicited fuel) (fun _ => owns h) /\
  runs (owns h) (stream_Close spawnAbandon ref) (fun _ c w => owns h c w /\ (c_ops c !! ref = None \/ over ref c)) /\
  runs (owns h) (watchOperation spawnAbandon awaitWatch ref) (fun _ => owns h) /\
  runs (fun c w => abandons ref c /\ owns h c w) (sendAbandon ctxErr awaitWriter transportWrite releaseWriter ref)
    (fun _ c w => (unusable c = true \/ settled ref c) /\ owns h c w) /\
  runs (owns h) (readLoop spawnAbandon nextFrame awaitWritten fuel)
    (fun ended c w => (ended = true -> is_Some (c_err c)) /\ owns h c w) /\
  runs (owns h) (CloseContext ctxErr transportWrite releaseWriter awaitDone awaitCloseWriter)
    (fun err c w => (is_Some (c_err c) \/ is_Some err /\ c_closing c = true) /\ owns h c w).
Proof.
  split_and!; [apply do_runs|apply interrupt_runs|apply Next_runs|apply NextUnsolicited_runs|apply cancel_runs|apply watchOperation_runs|
    apply sendAbandon_runs|apply readLoop_runs|apply Conn_CloseContext_runs].
Qed.
End handlers.

(** ** A sample schedule: nobody else runs *)

Definition contextCanceled : cerror := Plain (ErrorString "context canceled").
Definition nothing : held := MkHeld [] ∅ 0 ∅ ∅ false.

(** The world is what the others hold. *)
Definition takeToken {A} (token none : A) : ST (Conn * held) A := fun '(c, w) =>
  match hd_writer w with
  | O => (none, (c, w))
  | S n => (token, (c, MkHeld (hd_ids w) (hd_ops w) n (hd_abandons w) (hd_closes w) (hd_retires w)))
  end.
Definition giveToken : ST (Conn * held) unit := fun '(c, w) => (tt, (c, with_writer w)).
Definition startAbandon (ref : OpRef) : ST (Conn * held) unit := fun '(c, w) => (tt, (c, with_abandon ref w)).

Lemma takeToken_runs {A} (token none : A) h : runs (owns id h) (takeToken token none)
  (fun r c w => r = token /\ owns id (with_writer h) c w \/ r = none /\ owns id h c w).
Proof.
  intros c w _ Ho. unfold takeToken. destruct (hd_writer w) as [|n] eqn:E; (split; [exists []; constructor|]); cbn; [by right|left].
  split; [done|]. destruct Ho. constructor; try done. unfold id in *. cbn in *. lia.
Qed.

Lemma idle_ret {A} (x : A) : yields id (sret x : ST (Conn * held) A).
Proof. intros h. by apply handler_ret. Qed.

Lemma idle_scheduled : scheduled id (sret None) (sret IDChanged) (takeToken WriterToken (WriterCanceled contextCanceled)) giveToken
  (fun b => sret (length b, None, true)) startAbandon (sret None) (sret NextSignal) (sret WatchOver)
  (sret (inr (EOF, false))) (sret true) (sret (Some contextCanceled)) (takeToken CloseToken (CloseCanceled contextCanceled)) (sret None).
Proof.
  constructor; try (intros; (apply handler_ret || apply idle_ret); by intros).
  - intros h. eapply handler_post; [|apply takeToken_runs]. by intros r c w _ [[-> Ho]|[-> Ho]].
  - intros h c w _ Ho. split; [exists []; constructor|]. destruct Ho. constructor; try done. unfold id in *. cbn in *. lia.
  - intros ref h c w _ Ho. split; [exists []; constructor|]. destruct Ho. constructor; try done. unfold id in *. cbn in *.
    intros r p Hp Ha. specialize (ow_abandons0 r p Hp Ha). set_solver.
  - intros h. eapply handler_post; [|apply takeToken_runs]. by intros r c w _ [[-> Ho]|[-> Ho]].
Qed.

Definition quiet_request : UntypedOperation :=
  MkUntypedOperation (Some (MkProtocolOperation (Primitive (applicationPrimitive 10) (bs "dc=example"))
                              (applicationPrimitive 10))) []
    (MkFramingPattern [] [applicationConstructed 11] false true) CancelDrain "ldap.delete".
Definition quiet_do : ST (Conn * held) doResult :=
  do (sret None) (sret IDChanged) (takeToken WriterToken (WriterCanceled contextCanceled)) (fun b => sret (length b, None, true))
    giveToken 1 operationApplication quiet_request.

(** A request on a fresh connection: its operation is the only entry, no
    identifier stays reserved and the token is back. *)
Lemma handlers_refine_steps_witness : exists ref c' w', quiet_do (sample_new, with_writer nothing) = (DoStream ref, (c', w')) /\
  (exists log, steps sample_new log c') /\ c_reserved c' = ∅ /\ hd_writer w' = 1%nat /\
  forall id r, c_pending c' !! id = Some r -> r = ref.
Proof.
  pose proof (proj1 (handlers_refine_steps id _ _ _ _ _ _ _ _ _ _ _ _ _ _ idle_scheduled 1 operationApplication quiet_request
    0%nat ErrClosed nothing) sample_new (with_writer nothing) (sample_reachable [] sample_new (steps_refl _))) as Hr.
  fold quiet_do in Hr. destruct Hr as [Hs Hp].
  { constructor; cbn; try done. intros _. split; [constructor|]. by intros x Hx%elem_of_nil. }
  assert (fst (quiet_do (sample_new, with_writer nothing)) = DoStream 0%nat) as Hd by (vm_compute; reflexivity).
  assert (snd (snd (quiet_do (sample_new, with_writer nothing))) = with_writer nothing) as Hw by (vm_compute; reflexivity).
  destruct (quiet_do (sample_new, with_writer nothing)) as [r [c' w']]. cbn in Hd, Hw, Hs, Hp. subst r w'. destruct Hp as [_ Ho].
  exists 0%nat, c', (with_writer nothing). split; [reflexivity|]. split; [exact Hs|]. destruct Ho. split; [|split; [reflexivity|]].
  - apply set_eq. intros x. split; [|set_solver]. intros Hx. apply ow_ids0 in Hx. cbn in Hx. set_solver.
  - intros i ref Hi. apply ow_ops0 in Hi. cbn in Hi. set_solver.
Defined.

Section ending.
Context {W : Type}.
Variable ctxErr : ST (Conn * W) (option cerror).
Variable transportWrite : bytes -> ST (Conn * W) (nat * option cerror * bool).
Variable releaseWriter : ST (Conn * W) unit.
Variable spawnAbandon : OpRef -> ST (Conn * W) unit.
Variable nextFrame : ST (Conn * W) (bytes + error * bool).
Variable awaitWritten : ST (Conn * W) bool.
Variable awaitDone : ST (Conn * W) (option cerror).
Variable awaitCloseWriter : ST (Conn * W) closeWait.

(** A computation that ends with a connection that has an error, when it
    returns a result with the property. *)
Definition ends {A} (over : A -> bool) (m : ST (Conn * W) A) : Prop := forall s,
  over (m s).1 = true -> is_Some (c_err (m s).2.1).

Lemma ends_bind {A B} (over : B -> bool) (m : ST (Conn * W) A) k : (forall x, ends over (k x)) -> ends over (sbind m k).
Proof. intros Hk s. unfold sbind. destruct (m s) as [x s1]. apply Hk. Qed.
Lemma ends_ret {A} (over : A -> bool) x : over x = false -> ends over (sret x).
Proof. intros Hx s. cbn. congruence. Qed.
Lemma ends_retire {A} (over : A -> bool) err x : ends over (sbind (update (retire err)) (fun _ => sret x)).
Proof. intros [c w] _. apply retire_sets. Qed.

Definition is_over (r : readResult) : bool := match r with ReadOver => true | _ => false end.

Lemma readLoop_round_ends fuel : ends is_over (readLoop_round spawnAbandon nextFrame awaitWritten fuel).
Proof.
  unfold readLoop_round. apply ends_bind. intros [message|[err netClosed]].
  - apply ends_bind. intros limits. destruct (parseOwnedResponse message limits) as [response|err]; [|apply ends_retire].
    apply ends_bind. intros [[err|]|]; [apply ends_retire|by apply ends_ret..].
  - apply ends_bind. intros e. apply ends_retire.
Qed.

Lemma readLoop_ends fuel : ends id (readLoop spawnAbandon nextFrame awaitWritten fuel).
Proof.
  induction fuel as [|fuel IH]; cbn [readLoop]; [by apply ends_ret|]. intros s. unfold sbind.
  pose proof (readLoop_round_ends fuel s) as Hr. destruct (readLoop_round _ _ _ fuel s) as [[] s1]; cbn in *; auto.
Qed.

(** The reader and [CloseContext] always retire the connection. Whenever
    the read loop ends, for whatever reason, the connection has its terminal
    error. [CloseContext] on a connection without an error that is not closing
    leaves it with one, whether the Unbind could be written or not; on a
    connection that has its error already it changes nothing and reports an
    error only if the connection had failed for another reason. *)
Theorem reader_and_close_retire fuel (c : Conn) (w : W) :
  (let '(over, (c', _)) := readLoop spawnAbandon nextFrame awaitWritten fuel (c, w) in
   over = false \/ is_Some (c_err c')) /\
  match c_err c with
  | None => c_closing c = true \/
      is_Some (c_err (CloseContext ctxErr transportWrite releaseWriter awaitDone awaitCloseWriter (c, w)).2.1)
  | Some err => CloseContext ctxErr transportWrite releaseWriter awaitDone awaitCloseWriter (c, w) =
      (if c_closing c || Is err ErrClosed then None else Some err, (c, w))
  end.
Proof.
  split.
  - pose proof (readLoop_ends fuel (c, w)) as Hr. destruct (readLoop _ _ _ fuel (c, w)) as [[|] [c' w']]; auto.
  - unfold CloseContext, startClose, locked, sbind, sret, update. destruct (c_err c) as [err|]; [done|].
    destruct (c_closing c); [by left|right]. destruct (awaitCloseWriter _) as [wait s1].
    match goal with |- context [match ?X s1 with (_, _) => _ end] => destruct (X s1) as [e [c2 w2]] end. apply retire_sets.
Qed.
End ending.
