(* ===== verification/ConnWrite.v ===== *)
(** * Requests on the wire

    What the bytes that the transport accepts say about the result of a
    request, for every transport that keeps the contract of [io.Writer] and
    every schedule: [writeAll] and [do] of ConnRun.v. A write whose context ends
    may be taken over by a callback in a goroutine of its own
    ([interruptWrite]), which retires the connection sooner or later. *)

From S2P Require Import Prelude Wire Packet Reader Framer Decoder Types Protocol Result Errors Options.
From S2P Require Import Response Attributes Operations Search Bind Extended Endpoint Conn ConnSafety ConnRun.

Open Scope run_scope.

Create HintDb conn_quiet.

(** The bytes that the transport has accepted, the calls of [Write], and whether
    a callback took one of them over. *)
Record wire := MkWire { wr_out : bytes; wr_calls : nat; wr_taken : bool }.
Definition no_wire : wire := MkWire [] 0 false.
Definition wire_write (b : bytes) (completed : bool) (o : wire) : wire :=
  MkWire (wr_out o ++ b) (S (wr_calls o)) (wr_taken o || negb completed).

Section write.
Context {W : Type}.
Variable ctxErr : ST (Conn * W) (option cerror).
Variable awaitID : ST (Conn * W) idWait.
Variable awaitWriter : ST (Conn * W) writerWait.
Variable transportWrite : bytes -> ST (Conn * W) (nat * option cerror * bool).

Abbreviation World := (Conn * (W * wire))%type.
Definition lifted {A} (m : ST (Conn * W) A) : ST World A := fun '(c, (w, out)) =>
  let '(x, (c, w)) := m (c, w) in (x, (c, (w, out))).
Definition accepting (b : bytes) : ST World (nat * option cerror * bool) := fun '(c, (w, out)) =>
  let '(n, err, completed, (c, w)) := transportWrite b (c, w) in
  (n, err, completed, (c, (w, wire_write (take n b) completed out))).

(** [io.Writer]: no more bytes are written than were given. *)
Hypothesis write_contract : forall b s, ((transportWrite b s).1.1.1 <= length b)%nat.

Abbreviation round := (writeAll_round (lifted ctxErr) accepting).

(** The connection is retired, or a callback that was started is going to. *)
Definition retiring (taken : bool) (c : Conn) : Prop :=
  is_Some (c_err c) \/ taken = true /\ forall cause (w : W), is_Some (c_err (interruptWrite cause (c, w)).2.1).

Lemma retired_retiring taken err c : retiring taken (retire err c).
Proof. left. apply retire_sets. Qed.
Lemma taken_retiring c : retiring true c.
Proof. right. split; [done|]. intros cause w. apply retire_sets. Qed.

(** What an error of a write says. *)
Definition write_error (total : nat) (e : cerror) (taken : bool) (c : Conn) : Prop := exists outcome cause,
  e = TransportError StageWrite outcome cause /\
  (outcome = OutcomeDefinitelyUnsent /\ total = 0%nat /\ taken = false \/ outcome = OutcomeAmbiguous /\ retiring taken c).

Lemma ambiguous_error total cause taken c : retiring taken c -> write_error total (ambiguousError cause) taken c.
Proof. intros Hc. exists OutcomeAmbiguous, cause. auto. Qed.

(** What writing from [total] to [total'] adds to the wire. *)
Definition extends_wire (message : bytes) (total total' : nat) (o o' : wire) : Prop :=
  (total <= total' <= length message)%nat /\ wr_out o' = wr_out o ++ take (total' - total) (drop total message).

Lemma extends_wire_refl message total o : (total <= length message)%nat -> extends_wire message total total o o.
Proof. intros Ht. split; [lia|]. by rewrite Nat.sub_diag, take_0, app_nil_r. Qed.

Lemma extends_wire_trans message t1 t2 t3 o1 o2 o3 :
  extends_wire message t1 t2 o1 o2 -> extends_wire message t2 t3 o2 o3 -> extends_wire message t1 t3 o1 o3.
Proof.
  intros [H1 E1] [H2 E2]. split; [lia|]. rewrite E2, E1, <- app_assoc. f_equal.
  replace (t3 - t1)%nat with ((t2 - t1) + (t3 - t2))%nat by lia. rewrite <- take_take_drop, drop_drop. do 3 f_equal. lia.
Qed.

Lemma extends_wire_write message total n completed o : (total + n <= length message)%nat ->
  extends_wire message total (total + n) o (wire_write (take n (drop total message)) completed o).
Proof. intros Hn. split; [lia|]. cbn. do 2 f_equal. lia. Qed.

Lemma round_exact message total c w o : (total < length message)%nat -> wr_taken o = false ->
  let '(total', err, (c', (_, o'))) := round message total (c, (w, o)) in
  extends_wire message total total' o o' /\ (wr_calls o' <= S (wr_calls o))%nat /\
  match err with None => (total < total')%nat /\ wr_taken o' = false | Some e => write_error total' e (wr_taken o') c' end.
Proof.
  intros Ht Hk. unfold writeAll_round, writeOutcome, sbind, lifted, sret, update.
  destruct (ctxErr (c, w)) as [[err|] [c1 w1]].
  - destruct (total =? 0)%nat eqn:E0; cbn; (split_and!; [apply extends_wire_refl; lia|lia|]).
    + apply Nat.eqb_eq in E0. exists OutcomeDefinitelyUnsent, err. auto.
    + apply ambiguous_error, retired_retiring.
  - unfold accepting. pose proof (write_contract (drop total message) (c1, w1)) as Hn.
    destruct (transportWrite (drop total message) (c1, w1)) as [[[n err] completed] [c2 w2]]. cbn [fst] in Hn.
    rewrite length_drop in Hn. cbv zeta. pose proof (extends_wire_write message total n completed o ltac:(lia)) as Hx.
    destruct completed; cbn [negb].
    + destruct (match err with None => _ | Some _ => _ end) as [e|] eqn:Ee.
      * destruct (total + n =? 0)%nat eqn:E0; cbn [negb].
        -- destruct (ctxErr (c2, w2)) as [[e1|] [c3 w3]]; destruct (ctxErr (c3, w3)) as [e2 [c4 w4]]; (split_and!; [done|cbn; lia|]).
           ++ apply ambiguous_error, retired_retiring.
           ++ apply Nat.eqb_eq in E0. exists OutcomeDefinitelyUnsent, (default e e2). cbn. rewrite Hk. auto.
        -- destruct (ctxErr (c2, w2)) as [e2 [c4 w4]]. split_and!; [done|cbn; lia|]. apply ambiguous_error, retired_retiring.
      * split_and!; [done|cbn; lia| |by cbn; rewrite Hk]. destruct err; [done|]. destruct (n =? 0)%nat eqn:E0; [done|].
        apply Nat.eqb_neq in E0. lia.
    + destruct (ctxErr (c2, w2)) as [e2 [c4 w4]]. split_and!; [done|cbn; lia|]. cbn. rewrite orb_true_r. apply ambiguous_error, taken_retiring.
Qed.

Abbreviation loop := (writeAll_loop (lifted ctxErr) accepting).

Lemma loop_exact message fuel : forall total c w o, (total <= length message <= total + fuel)%nat -> wr_taken o = false ->
  exists total' err, (loop fuel message total (c, (w, o))).1 = Some (total', err) /\
  let '(c', (_, o')) := (loop fuel message total (c, (w, o))).2 in
  extends_wire message total total' o o' /\ (wr_calls o' <= wr_calls o + fuel)%nat /\
  match err with None => total' = length message /\ wr_taken o' = false | Some e => write_error total' e (wr_taken o') c' end.
Proof.
  induction fuel as [|fuel IH]; intros total c w o Ht Hk; cbn [writeAll_loop].
  - assert ((total <? length message)%nat = false) as -> by (apply Nat.ltb_ge; lia). cbn. exists total, None.
    split; [done|]. split_and!; [apply extends_wire_refl; lia|lia|lia|done].
  - destruct (total <? length message)%nat eqn:El; cbn [negb].
    2:{ apply Nat.ltb_ge in El. cbn. exists total, None. split; [done|]. split_and!; [apply extends_wire_refl; lia|lia|lia|done]. }
    apply Nat.ltb_lt in El. unfold sbind. pose proof (round_exact message total c w o El Hk) as Hr.
    destruct (round message total (c, (w, o))) as [[total1 [e|]] [c1 [w1 o1]]]; destruct Hr as (Hx & Hc & He).
    + exists total1, (Some e). cbn. split; [done|]. split_and!; [done|lia|done].
    + destruct He as [Hlt Hk1]. pose proof (proj1 Hx). destruct (IH total1 c1 w1 o1 ltac:(lia) Hk1) as (total' & err & H1 & H2).
      exists total', err. split; [done|]. destruct (loop fuel message total1 _) as [r [c2 [w2 o2]]]. cbn in *.
      destruct H2 as (Hx2 & Hc2 & He2). split_and!; [by eapply extends_wire_trans|lia|done].
Qed.

Abbreviation write_all := (writeAll (lifted ctxErr) accepting).

Lemma write_all_spec message c w : exists total err c' w' calls taken,
  write_all message (c, (w, no_wire)) = (Some (total, err), (c', (w', MkWire (take total message) calls taken))) /\
  (total <= length message)%nat /\ (calls <= length message)%nat /\
  match err with None => total = length message /\ taken = false | Some e => write_error total e taken c' end.
Proof.
  destruct (loop_exact message (length message) 0 c w no_wire ltac:(lia) eq_refl) as (total & err & H1 & H2).
  fold (write_all message) in H1, H2. destruct (write_all message (c, (w, no_wire))) as [r [c' [w' [out calls taken]]]].
  cbn in H1, H2. subst r. destruct H2 as ([Hb Ho] & Hc & He). cbn in *. rewrite Nat.sub_0_r, drop_0 in Ho. subst out.
  exists total, err, c', w', calls, taken. split; [done|]. split_and!; [lia|lia|done].
Qed.

(** C22. [writeAll] ends, and its result says what was sent. For every context,
    transport and schedule, it returns after at most as many calls of [Write] as
    the message has bytes; the bytes that the transport accepted are the first
    [total] ones of the message; if it returns no error that is the whole
    message; and an error is a transport error of the write stage: definitely
    unsent only if no byte was accepted and no callback took the write over, and
    ambiguous otherwise, in which case the connection is retired already or the
    context's callback took the write over and retires it when it runs. (A write
    that was taken over may have been accepted as a whole.) *)
Theorem write_all_exact message c w : exists total err c' w' calls taken,
  writeAll (lifted ctxErr) accepting message (c, (w, no_wire)) =
    (Some (total, err), (c', (w', MkWire (take total message) calls taken))) /\
  (total <= length message)%nat /\ (calls <= length message)%nat /\
  match err with
  | None => total = length message /\ taken = false
  | Some e => exists outcome cause, e = TransportError StageWrite outcome cause /\
      (outcome = OutcomeDefinitelyUnsent /\ total = 0%nat /\ taken = false \/
       outcome = OutcomeAmbiguous /\
       (is_Some (c_err c') \/ taken = true /\ forall cause (w : W), is_Some (c_err (interruptWrite cause (c', w)).2.1)))
  end.
Proof. exact (write_all_spec message c w). Qed.

(** The transport is used only through [writeAll]. *)
Definition quiet {A} (m : ST World A) : Prop := forall c w out, (m (c, (w, out))).2.2.2 = out.

Lemma quiet_lifted {A} (m : ST (Conn * W) A) : quiet (lifted m).
Proof. intros c w out. unfold lifted. by destruct (m (c, w)) as [x [c1 w1]]. Qed.
Lemma quiet_ret {A} (x : A) : quiet (sret x).
Proof. by intros c w out. Qed.
Lemma quiet_locked {A} (f : Conn -> A * Conn) : quiet (locked f).
Proof. intros c w out. unfold locked. by destruct (f c). Qed.
Lemma quiet_update f : quiet (update f).
Proof. by intros c w out. Qed.
Lemma quiet_with_op {A} ref (missing : A) f : quiet (with_op ref missing f).
Proof. intros c w out. unfold with_op. destruct (c_ops c !! ref) as [p|]; [|done]. by destruct (f p c). Qed.
Lemma quiet_bind {A B} (m : ST World A) (k : A -> ST World B) : quiet m -> (forall x, quiet (k x)) -> quiet (sbind m k).
Proof.
  intros Hm Hk c w out. unfold sbind. specialize (Hm c w out). destruct (m (c, (w, out))) as [x [c1 [w1 out1]]]. cbn in Hm.
  subst. apply Hk.
Qed.
End write.

#[export] Hint Resolve quiet_lifted quiet_ret quiet_locked quiet_update quiet_with_op : conn_quiet.

Section requests.
Context {W : Type}.
Variable ctxErr : ST (Conn * W) (option cerror).
Variable awaitID : ST (Conn * W) idWait.
Variable awaitWriter : ST (Conn * W) writerWait.
Variable transportWrite : bytes -> ST (Conn * W) (nat * option cerror * bool).
(** The token goes back to a channel that has room for it. *)
Variable putToken : W -> W.
Hypothesis write_contract : forall b s, ((transportWrite b s).1.1.1 <= length b)%nat.

Abbreviation World := (Conn * (W * wire))%type.
Definition giveWriter : ST World unit := fun '(c, (w, o)) => (tt, (c, (putToken w, o))).

Ltac is_quiet := repeat first
  [ progress intros | solve [eauto with conn_quiet] | apply quiet_bind | case_match ].

Lemma quiet_give : quiet giveWriter.
Proof. by intros c w o. Qed.
Hint Resolve quiet_give : conn_quiet.
Lemma quiet_reserve fuel scope : quiet (W := W) (reserveMessageID (lifted awaitID) fuel scope).
Proof. induction fuel as [|fuel IH]; cbn [reserveMessageID]; is_quiet. Qed.
Lemma quiet_acquire : quiet (W := W) (acquireWriter (lifted ctxErr) (lifted awaitWriter) giveWriter).
Proof. unfold acquireWriter. is_quiet. Qed.
Hint Resolve quiet_reserve quiet_acquire : conn_quiet.

(** What the result of a request says of the bytes on the wire. *)
Definition tells (encoded : bytes -> Prop) (r : doResult) (c : Conn) (o : wire) : Prop :=
  match r with
  | DoStream _ => encoded (wr_out o)
  | DoFailed e => wr_out o = [] /\ wr_taken o = false \/
      exists cause, e = ambiguousError cause /\ retiring (W := W) (wr_taken o) c
  | DoBlocked => wr_out o = []
  end.
Definition truthful (encoded : bytes -> Prop) (m : ST World doResult) : Prop := forall c w,
  let '(r, (c', (_, o))) := m (c, (w, no_wire)) in tells encoded r c' o.

Lemma truthful_bind encoded {A} (m : ST World A) k : quiet m -> (forall x, truthful encoded (k x)) -> truthful encoded (sbind m k).
Proof.
  intros Hm Hk c w. unfold sbind. specialize (Hm c w no_wire). destruct (m (c, (w, no_wire))) as [x [c1 [w1 o]]]. cbn in Hm. subst.
  apply Hk.
Qed.
Lemma truthful_failed encoded err : truthful encoded (sret (DoFailed err)).
Proof. intros c w. by left. Qed.
Lemma truthful_blocked encoded : truthful encoded (sret DoBlocked).
Proof. by intros c w. Qed.

(** What follows the write. *)
Definition finish (op : UntypedOperation) (ref : OpRef) (r : option (nat * option cerror)) : ST World doResult :=
  match r with
  | None => sret DoBlocked
  | Some (written, Some err) =>
      (if (written =? 0)%nat && negb (Is err ErrAmbiguousOutcome)
       then update_op ref (removeDefinitelyUnsent ref) else sret tt) ;;
      sret (DoFailed err)
  | Some (_, None) =>
      update_op ref (observeWrite ref) ;;
      (if FramingPattern_NoResponse (uo_Responses op) then update_op ref (completeNoResponse ref) else sret tt) ;;
      sret (DoStream ref)
  end.

Lemma sbind_assoc {S A B C} (m : ST S A) (k : A -> ST S B) (l : B -> ST S C) :
  forall s, sbind (sbind m k) l s = sbind m (fun x => sbind (k x) l) s.
Proof. intros s. unfold sbind. by destruct (m s). Qed.

Lemma finish_quiet op ref r : quiet (finish op ref r).
Proof. unfold finish, update_op. is_quiet. Qed.

Lemma write_tells (encoded : bytes -> Prop) op ref message : encoded message ->
  truthful encoded (sbind (writeAll (lifted ctxErr) (accepting transportWrite) message)
                      (fun r => sbind giveWriter (fun _ => finish op ref r))).
Proof.
  intros Hm c w. destruct (write_all_spec ctxErr transportWrite write_contract message c w)
    as (total & err & c' & w1 & calls & taken & Heq & Hb & _ & He). unfold sbind at 1. rewrite Heq. unfold sbind at 1, giveWriter.
  set (w' := putToken w1). pose proof (finish_quiet op ref (Some (total, err)) c' w' (MkWire (take total message) calls taken)) as Hq.
  destruct err as [e|].
  - destruct He as (outcome & cause & -> & Ho). cbn [finish] in *.
    destruct Ho as [(-> & -> & ->)|[-> Hc]].
    + destruct (sbind _ _ (c', _)) as [r [c2 [w2 out]]] eqn:E. cbn in Hq. subst out.
      unfold sbind, sret in E. case_match_in E. injection E as <- _. left. cbn. by rewrite take_0.
    + assert (negb (Is (TransportError StageWrite OutcomeAmbiguous cause) ErrAmbiguousOutcome) = false) as -> by (by cbn).
      rewrite andb_false_r. cbn. right. eauto.
  - destruct He as [-> ->]. rewrite take_ge in * by done. cbn [finish] in *.
    destruct (sbind _ _ (c', _)) as [r [c2 [w2 out]]] eqn:E. cbn in Hq. subst out.
    unfold sbind, sret in E. do 2 case_match_in E. by injection E as <- _.
Qed.

Lemma truthful_ext encoded (m m' : ST World doResult) : (forall s, m' s = m s) -> truthful encoded m -> truthful encoded m'.
Proof. intros Hs Hm c w. specialize (Hm c w). by rewrite Hs. Qed.

Abbreviation request := (writeRequest (lifted ctxErr) (lifted awaitWriter) (accepting transportWrite) giveWriter).

Lemma request_tells (encoded : bytes -> Prop) op ref message : encoded message ->
  truthful encoded (sbind (request ref message) (finish op ref)).
Proof.
  intros Hm. unfold writeRequest. eapply truthful_ext; [apply sbind_assoc|]. apply truthful_bind; [apply quiet_acquire|].
  intros [err|].
  - apply (truthful_ext _ (finish op ref (Some (0%nat, Some err)))); [done|]. cbn [finish].
    apply truthful_bind; [unfold update_op; is_quiet|]. intros u. apply truthful_failed.
  - eapply truthful_ext; [apply sbind_assoc|]. apply truthful_bind; [apply quiet_with_op|]. intros u.
    eapply truthful_ext; [apply sbind_assoc|]. eapply truthful_ext; [|by apply (write_tells encoded op ref message)]. intros s.
    unfold sbind. by destruct (writeAll _ _ _ s) as [r s']; destruct (giveWriter s').
Qed.

Lemma do_write_tells (encoded : bytes -> Prop) scope op id message : encoded message ->
  truthful encoded (do_write (lifted ctxErr) (lifted awaitWriter) (accepting transportWrite) giveWriter scope op id message).
Proof.
  intros Hm. unfold do_write. apply truthful_bind; [apply quiet_locked|]. intros [ref [err|]].
  - apply truthful_bind; [apply quiet_update|]. intros u. apply truthful_failed.
  - exact (request_tells encoded op ref message Hm).
Qed.

(** C5. The result of a request tells what was sent. For every operation,
    context, transport and schedule: when [do] returns a stream, the bytes that
    the transport accepted are exactly one encoded request for that operation;
    when it fails and the transport has accepted a byte, or a callback of the
    context took a write over, the error is a transport error with the ambiguous
    outcome, and the connection is retired already, or the callback that took the
    write over retires it when it runs; so an error with the outcome definitely
    unsent, or any other error, means that no byte was sent. *)
Theorem request_outcome fuel scope op c w :
  let '(r, (c', (_, o))) := do (lifted ctxErr) (lifted awaitID) (lifted awaitWriter) (accepting transportWrite) giveWriter
                                fuel scope op (c, (w, no_wire)) in
  match r with
  | DoStream _ => exists id protocol limits, uo_Protocol op = Some protocol /\
      encodeLDAPRequest id protocol (present (uo_Controls op)) limits = inl (wr_out o)
  | DoFailed e => wr_out o = [] /\ wr_taken o = false \/
      exists cause, e = TransportError StageWrite OutcomeAmbiguous cause /\
        (is_Some (c_err c') \/ wr_taken o = true /\ forall cause (w : W), is_Some (c_err (interruptWrite cause (c', w)).2.1))
  | DoBlocked => wr_out o = []
  end.
Proof.
  set (encoded := fun out => exists id protocol limits, uo_Protocol op = Some protocol /\
      encodeLDAPRequest id protocol (present (uo_Controls op)) limits = inl out).
  assert (Ht : truthful encoded (do (lifted ctxErr) (lifted awaitID) (lifted awaitWriter) (accepting transportWrite) giveWriter fuel scope op)).
  { unfold do. destruct (UntypedOperation_Validate op); [apply truthful_failed|].
    destruct (uo_Protocol op) as [protocol|] eqn:Ep; [|apply truthful_failed].
    destruct (match scope with operationApplication => _ | _ => _ end); [apply truthful_failed|].
    apply truthful_bind; [apply quiet_reserve|]. intros [[id|err]|]; [|apply truthful_failed|apply truthful_blocked].
    apply truthful_bind; [apply quiet_locked|]. intros limits.
    destruct (encodeLDAPRequest id protocol _ limits) as [message|err] eqn:Ee.
    - apply truthful_bind; [apply quiet_lifted|]. intros [err|].
      + apply truthful_bind; [apply quiet_update|]. intros u. apply truthful_failed.
      + apply do_write_tells. exists id, protocol, limits. done.
    - apply truthful_bind; [apply quiet_update|]. intros u. apply truthful_failed. }
  specialize (Ht c w). by destruct (do _ _ _ _ _ _ _ _ _) as [[ref|e|] [c' [w' o]]].
Qed.
End requests.

(** ** Samples *)

Definition sample_request : UntypedOperation :=
  MkUntypedOperation (Some (MkProtocolOperation (Primitive (applicationPrimitive 10) (bs "dc=example"))
                              (applicationPrimitive 10))) []
    (MkFramingPattern [] [applicationConstructed 11] false true) CancelDrain "ldap.delete".

(** A transport that takes at most four bytes at a time. *)
Definition sample_write (b : bytes) : ST (Conn * unit) (nat * option cerror * bool) :=
  sret (Nat.min 4 (length b), None, true).

Lemma write_all_exact_witness : exists total err c' w' calls taken,
  writeAll (lifted (sret None)) (accepting sample_write) (bs "0123456789") (sample_new, (tt, no_wire)) =
    (Some (total, err), (c', (w', MkWire (take total (bs "0123456789")) calls taken))) /\ err = None /\ calls = 3%nat.
Proof.
  destruct (write_all_exact (sret None) sample_write (fun b s => Nat.le_min_r 4 (length b)) (bs "0123456789") sample_new tt)
    as (total & err & c' & w' & calls & taken & H1 & _). exists total, err, c', w', calls, taken. split; [exact H1|].
  revert H1. vm_compute. split; congruence.
Defined.

Definition sample_do :=
  do (lifted (sret None)) (lifted (sret IDChanged)) (lifted (sret WriterToken)) (accepting sample_write) (giveWriter id).

Lemma request_outcome_witness : exists ref c' w' o,
  sample_do 1 operationApplication sample_request (sample_new, (tt, no_wire)) = (DoStream ref, (c', (w', o))) /\
  exists id protocol limits, uo_Protocol sample_request = Some protocol /\
    encodeLDAPRequest id protocol (present (uo_Controls sample_request)) limits = inl (wr_out o).
Proof.
  pose proof (request_outcome (sret None) (sret IDChanged) (sret WriterToken) sample_write id (fun b s => Nat.le_min_r 4 (length b))
                1 operationApplication sample_request sample_new tt) as Hr.
  fold sample_do in Hr.
  destruct (sample_do 1 operationApplication sample_request (sample_new, (tt, no_wire))) as [[ref|e|] [c' [w' o]]] eqn:E.
  - exists ref, c', w', o. split; [reflexivity|exact Hr].
  - exfalso. revert E. vm_compute. discriminate.
  - exfalso. revert E. vm_compute. discriminate.
Defined.

(** ** Two requests *)

(** A transport that accepts the given numbers of bytes, call by call, and then
    fails; and one that accepts everything. *)
Definition failing_write (cause : cerror) (b : bytes) : ST (Conn * list nat) (nat * option cerror * bool) := fun '(c, chunks) =>
  match chunks with
  | [] => (0%nat, Some cause, true, (c, []))
  | n :: chunks => (n, None, true, (c, chunks))
  end.
Definition taking_write {W} (b : bytes) : ST (Conn * W) (nat * option cerror * bool) := sret (length b, None, true).

Lemma sum_list_cons n l : sum_list (n :: l) = (n + sum_list l)%nat.
Proof. done. Qed.

Lemma failing_loop cause message chunks : forall fuel total c o, Forall (fun n => 0 < n)%nat chunks ->
  (total + sum_list chunks < length message <= total + fuel)%nat -> (0 < total + sum_list chunks)%nat ->
  writeAll_loop (lifted (sret None)) (accepting (failing_write cause)) fuel message total (c, (chunks, o)) =
    (Some (total + sum_list chunks, Some (ambiguousError cause))%nat, (retire (Some (ambiguousError cause)) c, ([],
       MkWire (wr_out o ++ take (sum_list chunks) (drop total message)) (wr_calls o + S (length chunks)) (wr_taken o)))).
Proof.
  induction chunks as [|n chunks IH]; intros [|fuel] total c o Hc Hl Ht; rewrite ?sum_list_cons in *; cbn [sum_list_with length] in *; try lia;
    cbn [writeAll_loop]; replace (total <? length message)%nat with true by (symmetry; apply Nat.ltb_lt; lia); cbn [negb];
    unfold sbind at 1, writeAll_round at 1, sbind at 1, lifted at 1, sret at 1, sbind at 1, accepting at 1, failing_write at 1.
  - cbn [negb]. unfold writeOutcome. replace (total + 0 =? 0)%nat with false by (symmetry; apply Nat.eqb_neq; lia). cbn.
    unfold sret, wire_write. cbn [negb]. by rewrite orb_false_r, Nat.add_1_r.
  - apply Forall_cons in Hc as [Hn Hc]. cbn [negb]. replace (n =? 0)%nat with false by (symmetry; apply Nat.eqb_neq; lia).
    unfold sret at 1. rewrite IH by (done || lia). cbn [wire_write wr_out wr_calls wr_taken negb]. rewrite orb_false_r.
    rewrite <- take_take_drop, drop_drop, <- app_assoc, Nat.add_assoc. by rewrite (Nat.add_succ_r _ (S _)).
Qed.

(** The other request's write, while this one waits for the writer: the select
    then sees the end of the connection or the token. *)
Definition otherWrite (cause : cerror) (other : bytes) (token : bool) : ST (Conn * (list nat * wire)) writerWait :=
  let* _ := writeAll (lifted (sret None)) (accepting (failing_write cause)) other in
  sret (if token then WriterToken else WriterClosed).

Lemma otherWrite_spec cause other token chunks c : Forall (fun n => 0 < n)%nat chunks -> chunks <> [] ->
  (sum_list chunks < length other)%nat ->
  writeAll (lifted (sret None)) (accepting (failing_write cause)) other (c, (chunks, no_wire)) =
    (Some (sum_list chunks, Some (ambiguousError cause)), (retire (Some (ambiguousError cause)) c, ([],
       MkWire (take (sum_list chunks) other) (S (length chunks)) false))) /\
  otherWrite cause other token (c, (chunks, no_wire)) = (if token then WriterToken else WriterClosed,
    (retire (Some (ambiguousError cause)) c, ([], MkWire (take (sum_list chunks) other) (S (length chunks)) false))).
Proof.
  intros Hc Hne Hl. assert (0 < sum_list chunks)%nat as Hp.
  { destruct chunks as [|n chunks]; [done|]. apply Forall_cons in Hc as [Hn _]. cbn. lia. }
  pose proof (failing_loop cause other chunks (length other) 0 c no_wire Hc ltac:(lia) ltac:(lia)) as H. cbn in H.
  unfold otherWrite, writeAll, sbind. by rewrite H.
Qed.

Section both.
Context {W : Type}.
Abbreviation World := (Conn * (W * wire))%type.

Lemma reserve_frame wait fuel scope (c : Conn) (w : W) (o : wire) :
  (reserveMessageID (lifted (sret wait)) fuel scope (c, (w, o))).2.2 = (w, o).
Proof.
  revert c. induction fuel as [|fuel IH]; intros c; cbn [reserveMessageID]; [done|]. unfold sbind, locked.
  destruct (reserveMessageID_round scope c) as [[id|err|] c']; [done..|]. cbn. destruct wait; [done|apply IH|done].
Qed.

(** A request that is refused because the connection ended while it waited. *)
Lemma refused awaitWriter ref message token err (c c' : Conn) (w w' : W) (o : wire) :
  awaitWriter (c, w) = (if token : bool then WriterToken else WriterClosed, (c', w')) -> c_err c' = Some err ->
  writeRequest (lifted (sret None)) (lifted awaitWriter) (accepting taking_write) (giveWriter id) ref message (c, (w, o)) =
    (Some (0%nat, Some (unsentError err)), (c', (w', o))).
Proof.
  intros Ha He. unfold writeRequest, acquireWriter, sbind, lifted. rewrite Ha. destruct token; cbn.
  - unfold unusable, closedError. by rewrite He.
  - unfold closedError. by rewrite He.
Qed.

Lemma installed_usable ref p scope c c' : installPending ref p scope c = (None, c') -> c_err c' = None /\ c_closing c' = false.
Proof.
  unfold installPending. destruct (unusable c) eqn:Eu; [done|]. case_ifs; intros [= <-]. unfold unusable in Eu. cbn. by destruct (c_err c).
Qed.
End both.

Lemma retire_error err c : c_err c = None -> c_closing c = false -> c_err (retire (Some err) c) = Some err.
Proof. intros He Hc. unfold retire. by rewrite He, Hc. Qed.

Definition do_with awaitWriter wait fuel scope op : ST (Conn * ((list nat * wire) * wire)) doResult :=
  do (lifted (sret None)) (lifted (sret wait)) (lifted awaitWriter) (accepting taking_write) (giveWriter id) fuel scope op.

(** C38. A request that was never sent is reported as both definitely unsent and
    ambiguous when another request's write fails half way. For every operation
    that could be sent (with the writer free it gets its stream), every message of
    another request whose write the transport accepts in part, in one or more
    calls, before it fails, and whichever case the select for the writer then
    sees: the other write returns the bytes accepted and an ambiguous error; the
    waiting request fails, no byte of it was written and [Write] was not called
    for it, and its error matches both classes with [errors.Is]. *)
Theorem unsent_reported_as_both cause other chunks token wait fuel scope op c ref :
  Forall (fun n => 0 < n)%nat chunks -> chunks <> [] -> (sum_list chunks < length other)%nat ->
  (do_with (sret WriterToken) wait fuel scope op (c, ((chunks, no_wire), no_wire))).1 = DoStream ref ->
  (forall c1, (writeAll (lifted (sret None)) (accepting (failing_write cause)) other (c1, (chunks, no_wire))).1 =
     Some (sum_list chunks, Some (ambiguousError cause))) /\
  exists err c', do_with (otherWrite cause other token) wait fuel scope op (c, ((chunks, no_wire), no_wire)) =
    (DoFailed err, (c', (([], MkWire (take (sum_list chunks) other) (S (length chunks)) false), no_wire))) /\
  Is err ErrDefinitelyUnsent = true /\ Is err ErrAmbiguousOutcome = true.
Proof.
  intros Hc Hne Hl Hsent. split; [intros c1; by destruct (otherWrite_spec cause other token chunks c1 Hc Hne Hl) as [-> _]|].
  unfold do_with, do in *. destruct (UntypedOperation_Validate op); [done|]. destruct (uo_Protocol op) as [protocol|]; [|done].
  destruct (match scope with operationApplication => _ | _ => _ end); [done|]. unfold sbind at 1. unfold sbind at 1 in Hsent.
  pose proof (reserve_frame wait fuel scope c (chunks, no_wire) no_wire) as Hf.
  destruct (reserveMessageID _ fuel scope _) as [[[id|err]|] [c1 [w1 o1]]]; [|done..]. cbn in Hf. injection Hf as -> ->.
  unfold sbind at 1, locked at 1. unfold sbind at 1, locked at 1 in Hsent. cbv beta iota in *.
  destruct (encodeLDAPRequest _ _ _ _) as [message|err]; [|done].
  unfold sbind at 1, lifted at 1, sret at 1. unfold sbind at 1, lifted at 1, sret at 1 in Hsent. cbv beta iota in *.
  unfold do_write, locked in *. unfold sbind at 1. unfold sbind at 1 in Hsent. destruct (installPending _ _ scope c1) as [[err|] c2] eqn:Ei; [done|].
  apply installed_usable in Ei as [He Hcl]. cbv beta iota. unfold sbind at 1.
  rewrite (refused _ _ _ token (ambiguousError cause) c2 (retire (Some (ambiguousError cause)) c2) _
             ([], MkWire (take (sum_list chunks) other) (S (length chunks)) false));
    [|by apply otherWrite_spec|by apply retire_error].
  cbn. eexists _, _. split; [reflexivity|done].
Qed.

Lemma unsent_reported_as_both_witness : exists err c', do_with (otherWrite (Plain EOF) (bs "0123456789") true) IDChanged 1
    operationApplication sample_request (sample_new, (([4; 3]%nat, no_wire), no_wire)) =
    (DoFailed err, (c', (([], MkWire (bs "0123456") 3 false), no_wire))) /\
  Is err ErrDefinitelyUnsent = true /\ Is err ErrAmbiguousOutcome = true.
Proof.
  refine (proj2 (unsent_reported_as_both (Plain EOF) (bs "0123456789") [4; 3]%nat true IDChanged 1 operationApplication sample_request
    sample_new 0%nat _ _ _ _)); [repeat constructor; lia|done|cbn; lia|vm_compute; reflexivity].
Defined.
