(* ===== verification/PoolOptions.v ===== *)
(** * Pool options and selections

    Models src/pool/options.go and src/pool/selection.go. Durations are
    nanoseconds; the jitter is an IEEE 754 double, with its NaN. *)

From Stdlib Require Import SpecFloat.
From S2P Require Import Prelude Endpoint.

(** Zero, one and the default 0.20, as doubles. *)
Definition float64 := spec_float.
Definition float_zero : float64 := S754_zero false.
Definition float_one : float64 := S754_finite false 4503599627370496 (-52).
Definition defaultBackoffJitter : float64 := S754_finite false 7205759403792794 (-55).

Definition defaultMaxConnectionsPerEndpoint : Z := 2.
Definition defaultMaxInFlightPerConnection : Z := 8.
Definition defaultMaxWaiters : Z := 128.
Definition defaultIdleLifetime : Z := 300000000000.
Definition defaultMaximumLifetime : Z := 1800000000000.
Definition defaultShutdownTimeout : Z := 5000000000.
Definition defaultBackoffInitial : Z := 100000000.
Definition defaultBackoffMaximum : Z := 30000000000.

Record Options := MkOptions {
  MaxConnectionsPerEndpoint : Z;
  MaxInFlightPerConnection : Z;
  MaxWaiters : Z;
  IdleLifetime : Z;
  MaximumLifetime : Z;
  ShutdownTimeout : Z;
  BackoffInitial : Z;
  BackoffMaximum : Z;
  BackoffJitter : float64
}.

Definition DefaultOptions : Options :=
  {| MaxConnectionsPerEndpoint := defaultMaxConnectionsPerEndpoint;
     MaxInFlightPerConnection := defaultMaxInFlightPerConnection;
     MaxWaiters := defaultMaxWaiters;
     IdleLifetime := defaultIdleLifetime;
     MaximumLifetime := defaultMaximumLifetime;
     ShutdownTimeout := defaultShutdownTimeout;
     BackoffInitial := defaultBackoffInitial;
     BackoffMaximum := defaultBackoffMaximum;
     BackoffJitter := defaultBackoffJitter |}.

Definition nonzero (value default : Z) : Z := if value =? 0 then default else value.

Definition Options_defaults (o : Options) : Options :=
  let d := DefaultOptions in
  {| MaxConnectionsPerEndpoint := nonzero (MaxConnectionsPerEndpoint o) (MaxConnectionsPerEndpoint d);
     MaxInFlightPerConnection := nonzero (MaxInFlightPerConnection o) (MaxInFlightPerConnection d);
     MaxWaiters := nonzero (MaxWaiters o) (MaxWaiters d);
     IdleLifetime := nonzero (IdleLifetime o) (IdleLifetime d);
     MaximumLifetime := nonzero (MaximumLifetime o) (MaximumLifetime d);
     ShutdownTimeout := nonzero (ShutdownTimeout o) (ShutdownTimeout d);
     BackoffInitial := nonzero (BackoffInitial o) (BackoffInitial d);
     BackoffMaximum := nonzero (BackoffMaximum o) (BackoffMaximum d);
     BackoffJitter := if SFeqb (BackoffJitter o) float_zero then BackoffJitter d else BackoffJitter o |}.

Definition Options_normalized (o : Options) : result Options :=
  let o := Options_defaults o in
  if MaxConnectionsPerEndpoint o <? 0
  then Err (ErrorString "pool: MaxConnectionsPerEndpoint must be positive")
  else if MaxInFlightPerConnection o <? 0
  then Err (ErrorString "pool: MaxInFlightPerConnection must be positive")
  else if MaxWaiters o <? 0
  then Err (ErrorString "pool: MaxWaiters must be positive")
  else if IdleLifetime o <? 0
  then Err (ErrorString "pool: IdleLifetime must be positive")
  else if MaximumLifetime o <? 0
  then Err (ErrorString "pool: MaximumLifetime must be positive")
  else if ShutdownTimeout o <? 0
  then Err (ErrorString "pool: ShutdownTimeout must be positive")
  else if BackoffInitial o <? 0
  then Err (ErrorString "pool: BackoffInitial must be positive")
  else if BackoffMaximum o <? 0
  then Err (ErrorString "pool: BackoffMaximum must be positive")
  else if BackoffMaximum o <? BackoffInitial o
  then Err (ErrorString "pool: BackoffMaximum must not be less than BackoffInitial")
  else if SFltb (BackoffJitter o) float_zero || SFltb float_one (BackoffJitter o)
  then Err (ErrorString "pool: BackoffJitter must be between zero and one")
  else Ok o.

Definition Options_Validate (o : Options) : option error :=
  match Options_normalized o with Ok _ => None | Err err => Some err end.

(** ** Selections *)

Definition SelectionKind := Z.
Definition SelectionAny : SelectionKind := 1.
Definition SelectionExactEndpoint : SelectionKind := 2.

Record Selection := MkSelection { sel_kind : SelectionKind; sel_endpoint : EndpointID }.

Definition selectAny : Selection := MkSelection SelectionAny "".
Definition selectEndpoint (id : EndpointID) : result Selection :=
  match EndpointID_Validate id with
  | Some err => Err err
  | None => Ok (MkSelection SelectionExactEndpoint id)
  end.
Definition Selection_EndpointID (s : Selection) : option EndpointID :=
  if sel_kind s =? SelectionExactEndpoint then Some (sel_endpoint s) else None.
Definition Selection_Validate (s : Selection) : option error :=
  if sel_kind s =? SelectionAny then None
  else if sel_kind s =? SelectionExactEndpoint then EndpointID_Validate (sel_endpoint s)
  else Some (ErrorString "pool: invalid endpoint selection").

(** ** What normalization guarantees *)

Definition pool_options_ok (o : Options) : Prop :=
  0 < MaxConnectionsPerEndpoint o /\ 0 < MaxInFlightPerConnection o /\ 0 < MaxWaiters o /\
  0 < IdleLifetime o /\ 0 < MaximumLifetime o /\ 0 < ShutdownTimeout o /\
  0 < BackoffInitial o <= BackoffMaximum o /\
  SFltb (BackoffJitter o) float_zero = false /\ SFltb float_one (BackoffJitter o) = false.

Lemma nonzero_pos v d : 0 < d -> (nonzero v d <? 0) = false -> 0 < nonzero v d.
Proof. unfold nonzero. case_ifs; intros; zbool; lia. Qed.

Lemma Options_normalized_ok o o' : Options_normalized o = Ok o' -> pool_options_ok o'.
Proof.
  unfold Options_normalized. set (d := Options_defaults o).
  destruct (MaxConnectionsPerEndpoint d <? 0) eqn:E1; [done|].
  destruct (MaxInFlightPerConnection d <? 0) eqn:E2; [done|]. destruct (MaxWaiters d <? 0) eqn:E3; [done|].
  destruct (IdleLifetime d <? 0) eqn:E4; [done|]. destruct (MaximumLifetime d <? 0) eqn:E5; [done|].
  destruct (ShutdownTimeout d <? 0) eqn:E6; [done|]. destruct (BackoffInitial d <? 0) eqn:E7; [done|].
  destruct (BackoffMaximum d <? 0); [done|]. destruct (BackoffMaximum d <? _) eqn:Eb; [done|].
  destruct (_ || _) eqn:Ej; [done|]. intros [= <-]. apply orb_false_iff in Ej as [J1 J2].
  apply Z.ltb_ge in Eb. unfold pool_options_ok.
  split_and!; try done; apply nonzero_pos; first [done|vm_compute; reflexivity].
Qed.

(** Normalized pool options bound everything: the connection, in-flight and
    waiter limits and the lifetimes are strictly positive, the back-off starts
    positive and within its maximum, and the jitter is not below zero or above
    one; and an exact selection never degrades: it names an endpoint, or is an
    error. *)
Theorem pool_options_positive o o' : Options_normalized o = Ok o' ->
  pool_options_ok o' /\
  forall id s, selectEndpoint id = Ok s -> Selection_EndpointID s = Some id /\ Selection_Validate s = None.
Proof.
  intros H. split; [by eapply Options_normalized_ok|]. intros id s Hs. unfold selectEndpoint in Hs.
  destruct (EndpointID_Validate id) eqn:E; [done|]. injection Hs as <-. by split.
Qed.

Lemma pool_options_positive_witness : pool_options_ok DefaultOptions.
Proof.
  refine (proj1 (pool_options_positive (MkOptions 0 0 0 0 0 0 0 0 float_zero) DefaultOptions _)).
  vm_compute. reflexivity.
Defined.

(** The jitter check does not exclude NaN: both comparisons with NaN are
    false, so options whose jitter is NaN are accepted and kept. *)
Theorem nan_jitter_accepted :
  Options_normalized (MkOptions 0 0 0 0 0 0 0 0 S754_nan) =
  Ok (MkOptions defaultMaxConnectionsPerEndpoint defaultMaxInFlightPerConnection defaultMaxWaiters
        defaultIdleLifetime defaultMaximumLifetime defaultShutdownTimeout defaultBackoffInitial
        defaultBackoffMaximum S754_nan).
Proof. vm_compute. reflexivity. Qed.
