(* ===== verification/Pool.v ===== *)
(** * The connection pool

    Models src/pool/pool.go, src/pool/lease.go and src/pool/stats.go: the state
    of [Pool] and the critical sections of its operations, each function below
    being what one goroutine does while it holds [p.mu].

    Pooled connections and leases are objects that the pool, its streams and
    its watchers share: [pl_conns] and [pl_leases] are the heaps of these
    objects and a reference is its key. An endpoint is its position in
    [p.order]. Times are nanoseconds after Go's zero time, and the current time
    and the random jitter are arguments. Logging is not part of the state. *)

From S2P Require Import Prelude Wire Errors Endpoint PoolOptions.

Definition ConnRef := nat.
Definition LeaseRef := nat.
Definition EpRef := nat.
Definition Time := Z.
Definition zeroTime : Time := 0.

Record pooledConnection := MkPooled {
  pc_created : Time;
  pc_lastIdle : Time;
  pc_inFlight : Z;
  pc_leased : bool;
  pc_draining : bool;
  pc_broken : bool;
  pc_retiring : bool
}.

(** The frozen set-up (identity, profile, policy) is an argument of
    [checkProfile], the one place that reads it. *)
Record endpointState := MkEndpointState {
  es_config : Endpoint;
  es_connections : list ConnRef;
  es_dialing : Z;
  es_waiters : Z;
  es_failures : Z;
  es_backoff : Z;
  es_nextDial : Time;
  es_replacing : bool
}.

Definition es_id (e : endpointState) : EndpointID := ep_ID (es_config e).

Record Lease := MkLease { l_connection : ConnRef; l_closed : bool; l_inFlight : Z }.

Record Pool := MkPool {
  pl_options : Options;
  pl_closing : bool;
  pl_closed : bool;
  pl_waiters : Z;
  pl_selectionSeq : Z;
  pl_order : list endpointState;
  pl_conns : gmap ConnRef pooledConnection;
  pl_leases : gmap LeaseRef Lease
}.

(** ** Field updates *)

Definition with_waiters (n : Z) (p : Pool) : Pool :=
  MkPool (pl_options p) (pl_closing p) (pl_closed p) n (pl_selectionSeq p) (pl_order p) (pl_conns p) (pl_leases p).
Definition with_seq (n : Z) (p : Pool) : Pool :=
  MkPool (pl_options p) (pl_closing p) (pl_closed p) (pl_waiters p) n (pl_order p) (pl_conns p) (pl_leases p).
Definition with_closing (closing closed : bool) (p : Pool) : Pool :=
  MkPool (pl_options p) closing closed (pl_waiters p) (pl_selectionSeq p) (pl_order p) (pl_conns p) (pl_leases p).
Definition with_order (order : list endpointState) (p : Pool) : Pool :=
  MkPool (pl_options p) (pl_closing p) (pl_closed p) (pl_waiters p) (pl_selectionSeq p) order (pl_conns p) (pl_leases p).
Definition with_conns (conns : gmap ConnRef pooledConnection) (p : Pool) : Pool :=
  MkPool (pl_options p) (pl_closing p) (pl_closed p) (pl_waiters p) (pl_selectionSeq p) (pl_order p) conns (pl_leases p).
Definition with_leases (leases : gmap LeaseRef Lease) (p : Pool) : Pool :=
  MkPool (pl_options p) (pl_closing p) (pl_closed p) (pl_waiters p) (pl_selectionSeq p) (pl_order p) (pl_conns p) leases.

Definition set_inFlight n (c : pooledConnection) :=
  MkPooled (pc_created c) (pc_lastIdle c) n (pc_leased c) (pc_draining c) (pc_broken c) (pc_retiring c).
Definition set_lastIdle t (c : pooledConnection) :=
  MkPooled (pc_created c) t (pc_inFlight c) (pc_leased c) (pc_draining c) (pc_broken c) (pc_retiring c).
Definition set_leased b (c : pooledConnection) :=
  MkPooled (pc_created c) (pc_lastIdle c) (pc_inFlight c) b (pc_draining c) (pc_broken c) (pc_retiring c).
Definition set_draining (c : pooledConnection) :=
  MkPooled (pc_created c) (pc_lastIdle c) (pc_inFlight c) (pc_leased c) true (pc_broken c) (pc_retiring c).
Definition set_broken (c : pooledConnection) :=
  MkPooled (pc_created c) (pc_lastIdle c) (pc_inFlight c) (pc_leased c) (pc_draining c) true (pc_retiring c).
Definition set_retiring (c : pooledConnection) :=
  MkPooled (pc_created c) (pc_lastIdle c) (pc_inFlight c) (pc_leased c) (pc_draining c) (pc_broken c) true.

Definition set_connections l (e : endpointState) :=
  MkEndpointState (es_config e) l (es_dialing e) (es_waiters e) (es_failures e) (es_backoff e) (es_nextDial e) (es_replacing e).
Definition set_dialing n (e : endpointState) :=
  MkEndpointState (es_config e) (es_connections e) n (es_waiters e) (es_failures e) (es_backoff e) (es_nextDial e) (es_replacing e).
Definition set_epWaiters n (e : endpointState) :=
  MkEndpointState (es_config e) (es_connections e) (es_dialing e) n (es_failures e) (es_backoff e) (es_nextDial e) (es_replacing e).
Definition set_dialState failures backoff nextDial (e : endpointState) :=
  MkEndpointState (es_config e) (es_connections e) (es_dialing e) (es_waiters e) failures backoff nextDial (es_replacing e).
Definition set_replacing b (e : endpointState) :=
  MkEndpointState (es_config e) (es_connections e) (es_dialing e) (es_waiters e) (es_failures e) (es_backoff e) (es_nextDial e) b.

(** Updates through a reference. *)
Definition update_conn (ref : ConnRef) (f : pooledConnection -> pooledConnection) (p : Pool) : Pool :=
  with_conns (alter f ref (pl_conns p)) p.
Definition update_endpoint (ep : EpRef) (f : endpointState -> endpointState) (p : Pool) : Pool :=
  with_order (alter f ep (pl_order p)) p.
Definition update_lease (l : LeaseRef) (f : Lease -> Lease) (p : Pool) : Pool :=
  with_leases (alter f l (pl_leases p)) p.

(** ** Selection *)

(** The head of [acquire]: the endpoint state an exact selection names. *)
Definition endpoint_ref (p : Pool) (id : EndpointID) : option EpRef :=
  fst <$> list_find (fun e => es_id e = id) (pl_order p).

Definition acquire_enter (selection : Selection) (p : Pool) : option EpRef + cerror :=
  match Selection_Validate selection with
  | Some err => inr (Plain err)
  | None =>
      match Selection_EndpointID selection with
      | None => inl None
      | Some id =>
          match endpoint_ref p id with
          | None => inr (RouteError id ErrEndpointUnavailable)
          | Some ep => inl (Some ep)
          end
      end
  end.

(** The object behind a reference; the pool holds references to objects only. *)
Definition zeroConn : pooledConnection := MkPooled 0 0 0 false false false false.
Definition conn_of (p : Pool) (ref : ConnRef) : pooledConnection := default zeroConn (pl_conns p !! ref).

Definition live (c : pooledConnection) : bool := negb (pc_broken c) && negb (pc_draining c).

(** The endpoints a request may use: all of them or an exact one. *)
Definition selected (p : Pool) (exact : option EpRef) : list (EpRef * endpointState) :=
  match exact with
  | None => imap pair (pl_order p)
  | Some ep => match pl_order p !! ep with Some e => [(ep, e)] | None => [] end
  end.

Definition admissible (o : Options) (lease : bool) (c : pooledConnection) : bool :=
  if pc_broken c || pc_draining c || pc_leased c then false
  else if lease then pc_inFlight c =? 0
  else negb (pc_inFlight c >=? MaxInFlightPerConnection o).

(** The loop over the connections: the smallest load seen and the connections
    with that load. *)
Fixpoint candidates_loop (p : Pool) (lease : bool) (refs : list ConnRef) (minimum : Z)
    (candidates : list ConnRef) : list ConnRef :=
  match refs with
  | [] => candidates
  | ref :: refs =>
      let c := conn_of p ref in
      if negb (admissible (pl_options p) lease c) then candidates_loop p lease refs minimum candidates
      else
        let '(minimum, candidates) :=
          if pc_inFlight c <? minimum then (pc_inFlight c, []) else (minimum, candidates) in
        let candidates := if pc_inFlight c =? minimum then candidates ++ [ref] else candidates in
        candidates_loop p lease refs minimum candidates
  end.

(** [candidates[p.selectionSeq%uint64(len(candidates))]], and [selectionSeq++]. *)
Definition pick {A} (p : Pool) (candidates : list A) : option A * Pool :=
  if len candidates =? 0 then (None, p)
  else (candidates !! Z.to_nat (pl_selectionSeq p mod len candidates),
        with_seq (conv uint64 (pl_selectionSeq p + 1)) p).

Definition selectConnectionLocked (p : Pool) (exact : option EpRef) (lease : bool) : option ConnRef * Pool :=
  let refs := concat (map (fun e => es_connections (snd e)) (selected p exact)) in
  pick p (candidates_loop p lease refs (MaxInFlightPerConnection (pl_options p) + 1) []).

Definition liveCount (p : Pool) (e : endpointState) : Z :=
  es_dialing e + len (List.filter (fun ref => live (conn_of p ref)) (es_connections e)).

Fixpoint dial_loop (p : Pool) (now : Time) (endpoints : list (EpRef * endpointState)) (minimum : Z)
    (candidates : list EpRef) (earliest : Time) : list EpRef * Time :=
  match endpoints with
  | [] => (candidates, earliest)
  | (ep, e) :: endpoints =>
      let n := liveCount p e in
      if n >=? MaxConnectionsPerEndpoint (pl_options p)
      then dial_loop p now endpoints minimum candidates earliest
      else if es_nextDial e >? now
      then dial_loop p now endpoints minimum candidates
             (if (earliest =? zeroTime) || (es_nextDial e <? earliest) then es_nextDial e else earliest)
      else
        let '(minimum, candidates) := if n <? minimum then (n, []) else (minimum, candidates) in
        let candidates := if n =? minimum then candidates ++ [ep] else candidates in
        dial_loop p now endpoints minimum candidates earliest
  end.

(** The endpoint to dial, or the time to wait for. *)
Definition selectDialEndpointLocked (p : Pool) (exact : option EpRef) (now : Time)
    : option EpRef * Time * Pool :=
  let '(candidates, earliest) :=
    dial_loop p now (selected p exact) (MaxConnectionsPerEndpoint (pl_options p) + 1) [] zeroTime in
  match pick p candidates with
  | (None, p) => (None, earliest, p)
  | (Some ep, p) => (Some ep, zeroTime, p)
  end.

(** ** Acquisition *)

(** The second result is the flag [*registered] after the call. *)
Definition unregisterWaiterLocked (endpoint : option EpRef) (registered : bool) (p : Pool) : bool * Pool :=
  if negb registered then (registered, p)
  else
    let p := with_waiters (pl_waiters p - 1) p in
    let p := match endpoint with
             | Some ep => update_endpoint ep (fun e => set_epWaiters (es_waiters e - 1) e) p
             | None => p
             end in
    (false, p).

(** What one round of [acquire] under the lock decides. *)
Inductive acquisition :=
| Acquired (ref : ConnRef)
| DialFirst (ep : EpRef)
| AcquireRefused (err : cerror)
| AcquireWait (waitUntil : Time).

Definition waitersLimit (p : Pool) : cerror :=
  LimitError "pool waiters" (pl_waiters p + 1) (MaxWaiters (pl_options p)).

Definition acquire_round (exact : option EpRef) (lease registered : bool) (now : Time) (p : Pool)
    : acquisition * bool * Pool :=
  if pl_closing p then
    let '(registered, p) := unregisterWaiterLocked exact registered p in
    (AcquireRefused ErrClosed, registered, p)
  else
    match selectConnectionLocked p exact lease with
    | (Some ref, p) =>
        let p := update_conn ref (fun c => if lease then set_leased true c
                                           else set_inFlight (pc_inFlight c + 1) c) p in
        let '(registered, p) := unregisterWaiterLocked exact registered p in
        (Acquired ref, registered, p)
    | (None, p) =>
        match selectDialEndpointLocked p exact now with
        | (Some ep, _, p) =>
            (DialFirst ep, registered, update_endpoint ep (fun e => set_dialing (es_dialing e + 1) e) p)
        | (None, waitUntil, p) =>
            if registered then (AcquireWait waitUntil, registered, p)
            else if pl_waiters p =? MaxWaiters (pl_options p)
            then (AcquireRefused (waitersLimit p), registered, p)
            else
              let p := with_waiters (pl_waiters p + 1) p in
              let p := match exact with
                       | Some ep => update_endpoint ep (fun e => set_epWaiters (es_waiters e + 1) e) p
                       | None => p
                       end in
              (AcquireWait waitUntil, true, p)
        end
    end.

(** [endpoint.backoff *= 2] on an [int64]; [delay] is the jittered back-off. *)
Definition nextBackoff (o : Options) (backoff : Z) : Z :=
  if backoff =? 0 then BackoffInitial o
  else
    let backoff := conv int64 (backoff * 2) in
    if backoff >? BackoffMaximum o then BackoffMaximum o else backoff.

Definition recordDialFailureLocked (ep : EpRef) (now delay : Time) (p : Pool) : Pool :=
  update_endpoint ep (fun e =>
    set_dialState (conv uint64 (es_failures e + 1)) (nextBackoff (pl_options p) (es_backoff e)) (now + delay) e) p.

(** Entering circulation: the connection is appended and the back-off reset. *)
Definition addConnection (ep : EpRef) (ref : ConnRef) (c : pooledConnection) (p : Pool) : Pool :=
  update_endpoint ep (fun e => set_dialState (es_failures e) 0 zeroTime (set_connections (es_connections e ++ [ref]) e))
    (with_conns (<[ref := c]> (pl_conns p)) p).

Definition newConnection (now : Time) : pooledConnection := MkPooled now now 0 false false false false.

(** The critical section after a dial, of [acquire] and of [replace]: a new
    connection (created at the given time) or an error. The dialed connection
    of a closing pool never enters it. *)
Inductive dialOutcome := DialOk (ref : ConnRef) (created : Time) | DialErr (err : cerror).
Inductive dialResult := DialAdded | DialDiscarded | DialFailed (err : cerror).

Definition afterDial (ep : EpRef) (outcome : dialOutcome) (now delay : Time) (p : Pool) : dialResult * Pool :=
  let p := update_endpoint ep (fun e => set_dialing (es_dialing e - 1) e) p in
  match outcome with
  | DialOk ref created =>
      if negb (pl_closing p) then (DialAdded, addConnection ep ref (newConnection created) p)
      else (DialDiscarded, p)
  | DialErr err => (DialFailed err, recordDialFailureLocked ep now delay p)
  end.

(** What [acquire] does next: [None] is another round. [ctxErr] is [ctx.Err()]. *)
Definition acquire_afterDial (p : Pool) (exact : option EpRef) (res : dialResult) (ctxErr : option cerror)
    : option cerror :=
  match res with
  | DialAdded => None
  | DialDiscarded => Some ErrClosed
  | DialFailed err =>
      match ctxErr with
      | Some ctxErr => Some ctxErr
      | None =>
          match exact with
          | Some ep => (fun e => RouteError (es_id e) err) <$> pl_order p !! ep
          | None => None
          end
      end
  end.

(** Is the profile of a dialed connection the frozen one? The profiles have an
    arbitrary type; [deepEqual] is [reflect.DeepEqual] on it. *)
Definition checkProfile {P} (deepEqual : P -> P -> bool) (validate : option (P -> P -> option cerror))
    (endpoint : EndpointID) (identity identity' : Identity) (policy policy' : ConnectionPolicy)
    (frozen replacement : P) : option cerror :=
  if negb (bool_decide (identity' = identity)) || negb (bool_decide (policy' = policy))
  then Some (SetupError endpoint SetupProfileMismatch ErrProfileMismatch)
  else
    match validate with
    | Some validate =>
        match validate frozen replacement with
        | Some err => Some (SetupError endpoint SetupProfileMismatch (ProfileMismatchError (Some err)))
        | None => None
        end
    | None =>
        if negb (deepEqual frozen replacement)
        then Some (SetupError endpoint SetupProfileMismatch ErrProfileMismatch) else None
    end.

(** ** Replacement *)

Definition endpointHasLiveConnectionLocked (p : Pool) (ep : EpRef) : bool :=
  match pl_order p !! ep with
  | Some e => existsb (fun ref => live (conn_of p ref)) (es_connections e)
  | None => false
  end.

Definition replacing (p : Pool) (ep : EpRef) : bool :=
  match pl_order p !! ep with Some e => es_replacing e | None => false end.

(** [true]: the replacing goroutine is started. *)
Definition startReplacement (ep : EpRef) (p : Pool) : bool * Pool :=
  if pl_closing p || replacing p ep || endpointHasLiveConnectionLocked p ep then (false, p)
  else (true, update_endpoint ep (set_replacing true) p).

Inductive replaceAction := ReplaceExit | ReplaceDial | ReplaceWait.

Definition nextDial (p : Pool) (ep : EpRef) : Time :=
  match pl_order p !! ep with Some e => es_nextDial e | None => zeroTime end.

Definition replace_round (ep : EpRef) (now : Time) (p : Pool) : replaceAction * Pool :=
  if pl_closing p || endpointHasLiveConnectionLocked p ep then (ReplaceExit, p)
  else if nextDial p ep - now <=? 0
  then (ReplaceDial, update_endpoint ep (fun e => set_dialing (es_dialing e + 1) e) p)
  else (ReplaceWait, p).

Definition replace_exit (ep : EpRef) (p : Pool) : Pool := update_endpoint ep (set_replacing false) p.

(** ** Release *)

Fixpoint removeFirst (target : ConnRef) (l : list ConnRef) : list ConnRef :=
  match l with
  | [] => []
  | ref :: l => if decide (ref = target) then l else ref :: removeFirst target l
  end.

Definition removeConnectionIfUnusedLocked (ep : EpRef) (target : ConnRef) (p : Pool) : Pool :=
  let c := conn_of p target in
  if negb (pc_inFlight c =? 0) || pc_leased c || (negb (pc_broken c) && negb (pc_retiring c)) then p
  else update_endpoint ep (fun e => set_connections (removeFirst target (es_connections e)) e) p.

(** [for _, endpoint := range p.order]. *)
Definition removeEverywhere (target : ConnRef) (p : Pool) : Pool :=
  foldl (fun p ep => removeConnectionIfUnusedLocked ep target p) p (seq 0 (length (pl_order p))).

Definition decrement (n : Z) : Z := if n >? 0 then n - 1 else n.

(** A connection that just became idle. *)
Definition settle (now : Time) (c : pooledConnection) : pooledConnection :=
  let c := set_lastIdle now c in
  if pc_draining c && negb (pc_leased c) then set_retiring c else c.

Definition releaseOperation (ref : ConnRef) (now : Time) (p : Pool) : Pool :=
  let p := update_conn ref (fun c =>
    let c := set_inFlight (decrement (pc_inFlight c)) c in
    if pc_inFlight c =? 0 then settle now c else c) p in
  removeEverywhere ref p.

(** The section of [watchConnection] that runs when the connection is done;
    [true]: the endpoint wants a replacement. *)
Definition connectionBroken (ep : EpRef) (ref : ConnRef) (p : Pool) : bool * Pool :=
  let p := update_conn ref (fun c => set_leased false (set_broken c)) p in
  let p := removeConnectionIfUnusedLocked ep ref p in
  (negb (pl_closing p || pc_retiring (conn_of p ref)), p).

(** ** Leases *)

Definition lease_of (p : Pool) (l : LeaseRef) : Lease := default (MkLease 0%nat true 0) (pl_leases p !! l).
Definition set_leaseInFlight n (l : Lease) := MkLease (l_connection l) (l_closed l) n.
Definition set_leaseClosed (l : Lease) := MkLease (l_connection l) true (l_inFlight l).

Inductive leaseAcquisition := LeaseAcquired | LeaseRefused (err : cerror) | LeaseWait.

(** One round of [Lease.acquireOperation]. [failed] is [conn.Err() != nil] and
    [endpoint] the ID of the connection's endpoint. *)
Definition lease_round (l : LeaseRef) (endpoint : EndpointID) (failed registered : bool) (p : Pool)
    : leaseAcquisition * bool * Pool :=
  let lease := lease_of p l in
  if l_closed lease || pl_closing p then
    let '(registered, p) := unregisterWaiterLocked None registered p in
    (LeaseRefused ErrClosed, registered, p)
  else if pc_broken (conn_of p (l_connection lease)) || failed then
    let '(registered, p) := unregisterWaiterLocked None registered p in
    (LeaseRefused (RouteError endpoint ErrEndpointUnavailable), registered, p)
  else if l_inFlight lease <? MaxInFlightPerConnection (pl_options p) then
    let p := update_lease l (fun l => set_leaseInFlight (l_inFlight l + 1) l) p in
    let p := update_conn (l_connection lease) (fun c => set_inFlight (pc_inFlight c + 1) c) p in
    let '(registered, p) := unregisterWaiterLocked None registered p in
    (LeaseAcquired, registered, p)
  else if registered then (LeaseWait, registered, p)
  else if pl_waiters p =? MaxWaiters (pl_options p)
  then (LeaseRefused (waitersLimit p), registered, p)
  else (LeaseWait, true, with_waiters (pl_waiters p + 1) p).

Definition releaseLeaseOperation (l : LeaseRef) (now : Time) (p : Pool) : Pool :=
  let p := update_lease l (fun l => set_leaseInFlight (decrement (l_inFlight l)) l) p in
  let lease := lease_of p l in
  let p := update_conn (l_connection lease) (fun c =>
    let c := set_inFlight (decrement (pc_inFlight c)) c in
    if pc_inFlight c =? 0
    then
      let c := set_lastIdle now c in
      let c := if l_closed lease then set_leased false c else c in
      if pc_draining c && negb (pc_leased c) then set_retiring c else c
    else c) p in
  removeEverywhere (l_connection lease) p.

(** [Lease.Close]: the closed flag stands for [once], which nothing else sets. *)
Definition Lease_Close (l : LeaseRef) (now : Time) (p : Pool) : Pool :=
  if l_closed (lease_of p l) then p
  else
    let p := update_lease l set_leaseClosed p in
    let lease := lease_of p l in
    let p :=
      if l_inFlight lease =? 0
      then update_conn (l_connection lease) (fun c =>
             let c := set_lastIdle now (set_leased false c) in
             if pc_draining c then set_retiring c else c) p
      else p in
    removeEverywhere (l_connection lease) p.

(** ** Expiry *)

(** The loop over the connections of an endpoint: the connections after it,
    the connections to close, and whether the endpoint wants a replacement for
    each expired last connection. *)
Fixpoint expire_loop (o : Options) (now : Time) (refs : list ConnRef) (n : Z)
    (conns : gmap ConnRef pooledConnection) (close : list ConnRef) (replace : bool)
    : gmap ConnRef pooledConnection * list ConnRef * bool :=
  match refs with
  | [] => (conns, close, replace)
  | ref :: refs =>
      let c := default zeroConn (conns !! ref) in
      if pc_broken c || pc_draining c || pc_leased c then expire_loop o now refs n conns close replace
      else
        let expired := now - pc_created c >=? MaximumLifetime o in
        let idle := (pc_inFlight c =? 0) && (n >? 1) && (now - pc_lastIdle c >=? IdleLifetime o) in
        if negb expired && negb idle then expire_loop o now refs n conns close replace
        else
          let c := set_draining c in
          let n := n - 1 in
          let '(c, close) := if pc_inFlight c =? 0 then (set_retiring c, close ++ [ref]) else (c, close) in
          expire_loop o now refs n (<[ref := c]> conns) close (replace || (expired && (n =? 0)))
  end.

Fixpoint retireExpired_loop (o : Options) (now : Time) (endpoints : list (EpRef * endpointState))
    (conns : gmap ConnRef pooledConnection) (close : list ConnRef) (replace : list EpRef)
    : gmap ConnRef pooledConnection * list ConnRef * list EpRef :=
  match endpoints with
  | [] => (conns, close, replace)
  | (ep, e) :: endpoints =>
      let n := len (List.filter (fun ref => live (default zeroConn (conns !! ref))) (es_connections e)) in
      let '(conns, close, again) := expire_loop o now (es_connections e) n conns close false in
      retireExpired_loop o now endpoints conns close (if again then replace ++ [ep] else replace)
  end.

(** The connections to close, the endpoints to replace, and the pool. *)
Definition retireExpired (now : Time) (p : Pool) : list ConnRef * list EpRef * Pool :=
  if pl_closing p then ([], [], p)
  else
    let '(conns, close, replace) :=
      retireExpired_loop (pl_options p) now (imap pair (pl_order p)) (pl_conns p) [] [] in
    (close, replace, with_conns conns p).

(** ** Shutdown *)

(** The first section of [CloseContext]; [true]: it is closed already. *)
Definition close_begin (p : Pool) : bool * Pool :=
  if pl_closed p then (true, p) else (false, with_closing true (pl_closed p) p).

(** The work that is still active: it is drained until this is zero. *)
Definition activeCount (p : Pool) : Z :=
  foldr Z.add 0 (map (fun ref => pc_inFlight (conn_of p ref) + (if pc_leased (conn_of p ref) then 1 else 0))
                     (concat (map es_connections (pl_order p)))).

Definition close_all (p : Pool) : list ConnRef * Pool :=
  let refs := concat (map es_connections (pl_order p)) in
  (refs, foldl (fun p ref => update_conn ref set_retiring p) p refs).

Definition close_end (p : Pool) : Pool := with_closing (pl_closing p) true p.

(** ** Statistics *)

Record EndpointStats := MkEndpointStats {
  st_Endpoint : EndpointID;
  st_Address : bytes;
  st_Healthy : bool;
  st_Connections : Z;
  st_InFlight : Z;
  st_Leases : Z;
  st_Dialing : Z;
  st_Waiters : Z;
  st_Failures : Z
}.

Record Stats := MkStats {
  ps_Connections : Z;
  ps_InFlight : Z;
  ps_Waiters : Z;
  ps_Dialing : Z;
  ps_Closing : bool;
  ps_Endpoints : list EndpointStats
}.

Definition unbroken (p : Pool) (e : endpointState) : list pooledConnection :=
  List.filter (fun c => negb (pc_broken c)) (map (conn_of p) (es_connections e)).

Definition endpointStats (p : Pool) (e : endpointState) : EndpointStats :=
  let cs := unbroken p e in
  {| st_Endpoint := es_id e;
     st_Address := ep_Address (es_config e);
     st_Healthy := negb (len cs =? 0);
     st_Connections := len cs;
     st_InFlight := foldr Z.add 0 (map pc_inFlight cs);
     st_Leases := len (List.filter pc_leased cs);
     st_Dialing := es_dialing e;
     st_Waiters := es_waiters e;
     st_Failures := es_failures e |}.

Definition Pool_Stats (p : Pool) : Stats :=
  let endpoints := map (endpointStats p) (pl_order p) in
  {| ps_Connections := foldr Z.add 0 (map st_Connections endpoints);
     ps_InFlight := foldr Z.add 0 (map st_InFlight endpoints);
     ps_Waiters := pl_waiters p;
     ps_Dialing := foldr Z.add 0 (map es_dialing (pl_order p));
     ps_Closing := pl_closing p;
     ps_Endpoints := endpoints |}.

(** [statsLocked], the running totals of the log lines: a connection of an
    endpoint, an endpoint. *)
Definition countConnection (p : Pool) (result : Stats) (ref : ConnRef) : Stats :=
  let c := conn_of p ref in
  if pc_broken c then result
  else MkStats (ps_Connections result + 1) (ps_InFlight result + pc_inFlight c) (ps_Waiters result)
         (ps_Dialing result) (ps_Closing result) (ps_Endpoints result).
Definition countEndpoint (p : Pool) (result : Stats) (e : endpointState) : Stats :=
  foldl (countConnection p)
    (MkStats (ps_Connections result) (ps_InFlight result) (ps_Waiters result) (ps_Dialing result + es_dialing e)
       (ps_Closing result) (ps_Endpoints result)) (es_connections e).
Definition statsLocked (p : Pool) : Stats :=
  foldl (countEndpoint p) (MkStats 0 0 (pl_waiters p) 0 (pl_closing p) []) (pl_order p).

Record ConnectionStats := MkConnectionStats {
  cs_Endpoint : EndpointID;
  cs_Connection : ConnRef;
  cs_InFlight : Z;
  cs_Leased : bool;
  cs_Draining : bool;
  cs_Age : Time;
  cs_IdleFor : Time
}.

Definition connectionStats (p : Pool) (now : Time) (e : endpointState) : list ConnectionStats :=
  omap (fun ref =>
    let c := conn_of p ref in
    if pc_broken c then None
    else Some {| cs_Endpoint := es_id e; cs_Connection := ref; cs_InFlight := pc_inFlight c;
                 cs_Leased := pc_leased c; cs_Draining := pc_draining c;
                 cs_Age := now - pc_created c; cs_IdleFor := now - pc_lastIdle c |}) (es_connections e).

Definition Pool_ConnectionStats (now : Time) (p : Pool) : list ConnectionStats :=
  concat (map (connectionStats p now) (pl_order p)).

(** ** Construction and routed errors *)

(** [New], given for each endpoint its configuration and the outcome of its
    set-up: the time its first connection was made, or an error. Connection
    [i] is the first connection of endpoint [i]. *)
Fixpoint New_loop (endpoints : list (Endpoint * (Time + cerror))) (p : Pool) : Pool + cerror :=
  match endpoints with
  | [] => inl p
  | (config, setup) :: endpoints =>
      match Endpoint_Validate config with
      | Some err => inr (Plain err)
      | None =>
          if existsb (fun e => bool_decide (es_id e = ep_ID config)) (pl_order p)
          then inr (Plain (ErrorString "pool: duplicate endpoint ID"))
          else
            match setup with
            | inr err => inr (RouteError (ep_ID config) err)
            | inl now =>
                let ref := length (pl_order p) in
                let state := MkEndpointState config [ref] 0 0 0 0 zeroTime false in
                New_loop endpoints
                  (with_order (pl_order p ++ [state])
                     (with_conns (<[ref := newConnection now]> (pl_conns p)) p))
            end
      end
  end.

Definition New (endpoints : list (Endpoint * (Time + cerror))) (options : Options) : Pool + cerror :=
  if len endpoints =? 0 then inr (Plain (ErrorString "pool: no endpoints configured"))
  else
    match Options_normalized options with
    | Err err => inr (Plain err)
    | Ok options => New_loop endpoints (MkPool options false false 0 0 [] ∅ ∅)
    end.

Definition routeFailure (err : cerror) : bool :=
  Is err ErrTransport || Is err ErrProtocol || Is err ErrNoticeOfDisconnection || Is err ErrClosed.

(** The error of an operation that was routed to an exact endpoint. *)
Definition routedError (routed : option EndpointID) (err : cerror) : cerror :=
  match routed with
  | Some endpoint => if routeFailure err then RouteError endpoint err else err
  | None => err
  end.

(** ** Operations and their streams *)

(** [Pool.Do] and [Lease.Do] after the connection's [Do]: an operation that
    could not be started gives its capacity back. *)
Definition Pool_Do_started (selection : Selection) (ref : ConnRef) (err : option cerror) (now : Time) (p : Pool)
    : option cerror * Pool :=
  match err with
  | Some err => (Some (routedError (Selection_EndpointID selection) err), releaseOperation ref now p)
  | None => (None, p)
  end.

Definition Lease_Do_started (l : LeaseRef) (endpoint : EndpointID) (err : option cerror) (now : Time) (p : Pool)
    : option cerror * Pool :=
  match err with
  | Some err => (Some (routedError (Some endpoint) err), releaseLeaseOperation l now p)
  | None => (None, p)
  end.

(** A tracked stream: [ts_released] is the state of its [once]; the empty
    [routed] is no endpoint. *)
Record trackedStream := MkTracked { ts_lifecycle : bool; ts_routed : EndpointID; ts_released : bool }.

Definition trackStream (lifecycle : bool) (routed : EndpointID) : trackedStream := MkTracked lifecycle routed false.

(** [true]: the release function runs now. *)
Definition releaseOnce (s : trackedStream) : bool * trackedStream :=
  (negb (ts_released s), MkTracked (ts_lifecycle s) (ts_routed s) true).

(** What the wrapped stream's [Next] returned: a response, the end or an error. *)
Inductive nextResult := NextResponse | NextEOF | NextError (err : cerror).

Definition routed_of (s : trackedStream) : option EndpointID :=
  if bool_decide (ts_routed s = ""%string) then None else Some (ts_routed s).

Definition tracked_Next (inner : nextResult) (s : trackedStream) : nextResult * bool * trackedStream :=
  match inner with
  | NextResponse => (NextResponse, false, s)
  | NextEOF => let '(run, s) := releaseOnce s in (NextEOF, run, s)
  | NextError err => (NextError (routedError (routed_of s) err), false, s)
  end.

Definition tracked_Close (s : trackedStream) : bool * trackedStream :=
  if negb (ts_lifecycle s) then releaseOnce s else (false, s).

(** The goroutine that waits for a stream with a life cycle. *)
Definition tracked_Done (s : trackedStream) : bool * trackedStream :=
  if ts_lifecycle s then releaseOnce s else (false, s).
