(* ===== verification/PoolSafety.v ===== *)
(** * Safety of the connection pool

    The interleavings of the pool's critical sections as a step relation over
    the pool and what its callers hold (operations in flight, calls that wait
    or dial, replacing goroutines), and what every schedule keeps: exact
    in-flight counts within their bounds, exclusive leases, bounded waiters and
    bounded numbers of connections. *)

From S2P Require Import Prelude Wire Errors Endpoint PoolOptions Pool.

(** ** Callers *)

(** Capacity that is held: by an operation of the pool, or of a lease. *)
Inductive token := TPlain (ref : ConnRef) | TLease (l : LeaseRef).

(** A call of [acquire] or of [Lease.acquireOperation] that has not returned:
    [registered] is its local flag, and it may be dialing an endpoint. *)
Inductive callKind := KAcquire (exact : option EpRef) (lease : bool) | KLease (l : LeaseRef).
Record call := MkCall { k_kind : callKind; k_registered : bool; k_dialing : option EpRef }.

(** A goroutine that runs [replace]. *)
Inductive rphase := RLoop | RDialing | RExiting.

Record World := MkWorld {
  w_pool : Pool;
  w_tokens : list token;
  w_calls : list call;
  w_replacers : list (EpRef * rphase)
}.

#[export] Instance token_eq_dec : EqDecision token.
Proof. solve_decision. Defined.
#[export] Instance rphase_eq_dec : EqDecision rphase.
Proof. solve_decision. Defined.

Definition exact_of (k : callKind) : option EpRef :=
  match k with KAcquire exact _ => exact | KLease _ => None end.

Definition fresh_conn (p : Pool) (outcome : dialOutcome) : Prop :=
  match outcome with DialOk ref _ => pl_conns p !! ref = None | DialErr _ => True end.

(** The end of a round of [acquire]: what the caller got. [lref] is the lease
    object that [Pool.Lease] makes. *)
Definition after_round (k : callKind) (lease : bool) (lref : LeaseRef) (res : acquisition) (registered : bool)
    (p : Pool) (tokens : list token) (l1 l2 : list call) (replacers : list (EpRef * rphase)) : World :=
  match res with
  | Acquired ref =>
      if lease then MkWorld (with_leases (<[lref := MkLease ref false 0]> (pl_leases p)) p) tokens (l1 ++ l2) replacers
      else MkWorld p (TPlain ref :: tokens) (l1 ++ l2) replacers
  | DialFirst ep => MkWorld p tokens (l1 ++ MkCall k registered (Some ep) :: l2) replacers
  | AcquireRefused _ => MkWorld p tokens (l1 ++ l2) replacers
  | AcquireWait _ => MkWorld p tokens (l1 ++ MkCall k registered None :: l2) replacers
  end.

Definition after_leaseRound (l : LeaseRef) (res : leaseAcquisition) (registered : bool)
    (p : Pool) (tokens : list token) (l1 l2 : list call) (replacers : list (EpRef * rphase)) : World :=
  match res with
  | LeaseAcquired => MkWorld p (TLease l :: tokens) (l1 ++ l2) replacers
  | LeaseRefused _ => MkWorld p tokens (l1 ++ l2) replacers
  | LeaseWait => MkWorld p tokens (l1 ++ MkCall (KLease l) registered None :: l2) replacers
  end.

Definition after_replace (a : replaceAction) : rphase :=
  match a with ReplaceExit => RExiting | ReplaceDial => RDialing | ReplaceWait => RLoop end.
Definition after_replaceDial (r : dialResult) : rphase :=
  match r with DialFailed _ => RLoop | _ => RExiting end.

Inductive pstep : World -> World -> Prop :=
| ps_call p tokens calls replacers kind :
    match kind with KLease l => is_Some (pl_leases p !! l) | _ => True end ->
    pstep (MkWorld p tokens calls replacers) (MkWorld p tokens (MkCall kind false None :: calls) replacers)
| ps_round p tokens l1 l2 replacers exact lease registered now res registered' p' lref :
    acquire_round exact lease registered now p = (res, registered', p') -> pl_leases p !! lref = None ->
    pstep (MkWorld p tokens (l1 ++ MkCall (KAcquire exact lease) registered None :: l2) replacers)
          (after_round (KAcquire exact lease) lease lref res registered' p' tokens l1 l2 replacers)
| ps_dialed p tokens l1 l2 replacers exact lease registered ep outcome now delay ctxErr res p' :
    fresh_conn p outcome -> afterDial ep outcome now delay p = (res, p') ->
    pstep (MkWorld p tokens (l1 ++ MkCall (KAcquire exact lease) registered (Some ep) :: l2) replacers)
          (MkWorld p' tokens
             (match acquire_afterDial p' exact res ctxErr with
              | None => l1 ++ MkCall (KAcquire exact lease) registered None :: l2
              | Some _ => l1 ++ l2
              end) replacers)
| ps_giveUp p tokens l1 l2 replacers kind registered :
    pstep (MkWorld p tokens (l1 ++ MkCall kind registered None :: l2) replacers)
          (MkWorld (snd (unregisterWaiterLocked (exact_of kind) registered p)) tokens (l1 ++ l2) replacers)
| ps_release p t1 t2 calls replacers ref now :
    pstep (MkWorld p (t1 ++ TPlain ref :: t2) calls replacers)
          (MkWorld (releaseOperation ref now p) (t1 ++ t2) calls replacers)
| ps_leaseRound p tokens l1 l2 replacers l endpoint failed registered res registered' p' :
    lease_round l endpoint failed registered p = (res, registered', p') -> is_Some (pl_leases p !! l) ->
    pstep (MkWorld p tokens (l1 ++ MkCall (KLease l) registered None :: l2) replacers)
          (after_leaseRound l res registered' p' tokens l1 l2 replacers)
| ps_leaseRelease p t1 t2 calls replacers l now :
    pstep (MkWorld p (t1 ++ TLease l :: t2) calls replacers)
          (MkWorld (releaseLeaseOperation l now p) (t1 ++ t2) calls replacers)
| ps_leaseClose p tokens calls replacers l now : is_Some (pl_leases p !! l) ->
    pstep (MkWorld p tokens calls replacers) (MkWorld (Lease_Close l now p) tokens calls replacers)
| ps_broken p tokens calls replacers ep ref again p' : connectionBroken ep ref p = (again, p') ->
    pstep (MkWorld p tokens calls replacers) (MkWorld p' tokens calls replacers)
| ps_startReplacement p tokens calls replacers ep started p' :
    is_Some (pl_order p !! ep) -> startReplacement ep p = (started, p') ->
    pstep (MkWorld p tokens calls replacers)
          (MkWorld p' tokens calls (if started then (ep, RLoop) :: replacers else replacers))
| ps_replaceRound p tokens calls r1 r2 ep now a p' : replace_round ep now p = (a, p') ->
    pstep (MkWorld p tokens calls (r1 ++ (ep, RLoop) :: r2))
          (MkWorld p' tokens calls (r1 ++ (ep, after_replace a) :: r2))
| ps_replaceStop p tokens calls r1 r2 ep :
    pstep (MkWorld p tokens calls (r1 ++ (ep, RLoop) :: r2)) (MkWorld p tokens calls (r1 ++ (ep, RExiting) :: r2))
| ps_replaceDialed p tokens calls r1 r2 ep outcome now delay res p' :
    fresh_conn p outcome -> afterDial ep outcome now delay p = (res, p') ->
    pstep (MkWorld p tokens calls (r1 ++ (ep, RDialing) :: r2))
          (MkWorld p' tokens calls (r1 ++ (ep, after_replaceDial res) :: r2))
| ps_replaceExit p tokens calls r1 r2 ep :
    pstep (MkWorld p tokens calls (r1 ++ (ep, RExiting) :: r2))
          (MkWorld (replace_exit ep p) tokens calls (r1 ++ r2))
| ps_expire p tokens calls replacers now close replace p' : retireExpired now p = (close, replace, p') ->
    pstep (MkWorld p tokens calls replacers) (MkWorld p' tokens calls replacers)
| ps_closeBegin p tokens calls replacers :
    pstep (MkWorld p tokens calls replacers) (MkWorld (snd (close_begin p)) tokens calls replacers)
| ps_closeAll p tokens calls replacers :
    pstep (MkWorld p tokens calls replacers) (MkWorld (snd (close_all p)) tokens calls replacers)
| ps_closeEnd p tokens calls replacers : pl_closing p = true ->
    pstep (MkWorld p tokens calls replacers) (MkWorld (close_end p) tokens calls replacers).

Inductive psteps (w : World) : World -> Prop :=
| psteps_refl : psteps w w
| psteps_step w1 w2 : psteps w w1 -> pstep w1 w2 -> psteps w w2.

(** The pools that [New] makes, and what is reachable from them. *)
Definition pool_reachable (w : World) : Prop :=
  exists endpoints options p, New endpoints options = inl p /\ psteps (MkWorld p [] [] []) w.

(** ** Counting *)

Definition tally {A} (P : A -> bool) (l : list A) : Z := len (List.filter P l).

Lemma tally_nil {A} (P : A -> bool) : tally P [] = 0.
Proof. done. Qed.

Lemma tally_cons {A} (P : A -> bool) x l : tally P (x :: l) = (if P x then 1 else 0) + tally P l.
Proof. unfold tally. cbn. destruct (P x); [by rewrite len_cons|lia]. Qed.

Lemma tally_app {A} (P : A -> bool) l k : tally P (l ++ k) = tally P l + tally P k.
Proof. unfold tally. by rewrite List.filter_app, len_app. Qed.

Lemma tally_nonneg {A} (P : A -> bool) l : 0 <= tally P l.
Proof. apply len_nonneg. Qed.

Lemma tally_mid {A} (P : A -> bool) l x k :
  tally P (l ++ x :: k) = (if P x then 1 else 0) + tally P (l ++ k).
Proof. rewrite !tally_app, tally_cons. lia. Qed.

Lemma tally_ext {A} (P Q : A -> bool) l : (forall x, x ∈ l -> P x = Q x) -> tally P l = tally Q l.
Proof.
  induction l as [|x l IH]; intros H; [done|]. rewrite !tally_cons, (H x) by set_solver.
  rewrite IH; [done|]. intros y Hy. apply H. set_solver.
Qed.

Lemma tally_le {A} (P Q : A -> bool) l : (forall x, x ∈ l -> P x = true -> Q x = true) -> tally P l <= tally Q l.
Proof.
  induction l as [|x l IH]; intros H; [done|]. rewrite !tally_cons.
  assert (tally P l <= tally Q l) by (apply IH; set_solver).
  assert (P x = true -> Q x = true) as Hx by (apply H; set_solver).
  destruct (P x), (Q x); try lia.
Qed.

Lemma tally_zero {A} (P : A -> bool) l : tally P l = 0 -> forall x, x ∈ l -> P x = false.
Proof.
  induction l as [|y l IH]; intros H x Hx; [set_solver|]. rewrite tally_cons in H.
  pose proof (tally_nonneg P l). destruct (P y) eqn:E; [lia|].
  apply elem_of_cons in Hx as [->|Hx]; [done|]. apply IH; [lia|done].
Qed.

Lemma tally_none {A} (P : A -> bool) l : (forall x, x ∈ l -> P x = false) -> tally P l = 0.
Proof. induction l as [|y l IH]; intros H; [done|]. rewrite tally_cons, (H y), IH; set_solver. Qed.

Lemma tally_pos {A} (P : A -> bool) l x : x ∈ l -> P x = true -> 0 < tally P l.
Proof.
  intros Hx HP. destruct (Z.le_gt_cases (tally P l) 0) as [Hle|]; [|done].
  pose proof (tally_nonneg P l). rewrite (tally_zero P l ltac:(lia) x Hx) in HP. done.
Qed.

(** ** Held capacity *)

Definition on_conn (leases : gmap LeaseRef Lease) (ref : ConnRef) (t : token) : bool :=
  match t with
  | TPlain r => bool_decide (r = ref)
  | TLease l => match leases !! l with Some L => bool_decide (l_connection L = ref) | None => false end
  end.
Definition of_lease (l : LeaseRef) (t : token) : bool := bool_decide (t = TLease l).

(** A lease that may use its connection: it is open or has operations left. *)
Definition active_lease (L : Lease) : bool := negb (l_closed L) || (l_inFlight L >? 0).

Record counts_ok (o : Options) (conns : gmap ConnRef pooledConnection) (leases : gmap LeaseRef Lease)
    (tokens : list token) : Prop := {
  co_inFlight : forall ref c, conns !! ref = Some c ->
    pc_inFlight c = tally (on_conn leases ref) tokens /\ pc_inFlight c <= MaxInFlightPerConnection o;
  co_lease : forall l L, leases !! l = Some L ->
    l_inFlight L = tally (of_lease l) tokens /\ is_Some (conns !! l_connection L);
  co_plain : forall ref, TPlain ref ∈ tokens -> is_Some (conns !! ref);
  co_token : forall l, TLease l ∈ tokens -> is_Some (leases !! l);
  co_exclusive : forall l L c, leases !! l = Some L -> active_lease L = true ->
    conns !! l_connection L = Some c -> pc_leased c = true \/ pc_broken c = true;
  co_unique : forall l l' L L', leases !! l = Some L -> leases !! l' = Some L' ->
    active_lease L = true -> active_lease L' = true -> l_connection L = l_connection L' -> l = l';
  co_alone : forall l L, leases !! l = Some L -> active_lease L = true -> TPlain (l_connection L) ∉ tokens;
  co_leased : forall ref c, conns !! ref = Some c -> pc_leased c = true ->
    exists l L, leases !! l = Some L /\ active_lease L = true /\ l_connection L = ref
}.

(** Updates of connections that keep the load, and unlease only what breaks. *)
Definition conn_keeps (c c' : pooledConnection) : Prop :=
  pc_inFlight c' = pc_inFlight c /\
  (pc_leased c' = pc_leased c /\ (pc_broken c = true -> pc_broken c' = true) \/
   pc_leased c' = false /\ pc_broken c' = true).

Lemma conn_keeps_refl c : conn_keeps c c.
Proof. split; [done|]. by left. Qed.

Definition conns_keep (conns conns' : gmap ConnRef pooledConnection) : Prop :=
  forall ref, match conns !! ref, conns' !! ref with
              | Some c, Some c' => conn_keeps c c'
              | None, None => True
              | _, _ => False
              end.

#[export] Instance conns_keep_preorder : PreOrder conns_keep.
Proof.
  split.
  - intros m r. destruct (m !! r); [apply conn_keeps_refl|done].
  - intros a b c H1 H2 r. specialize (H1 r). specialize (H2 r).
    destruct (a !! r), (b !! r), (c !! r); try done.
    destruct H1 as (? & [[? ?]|[? ?]]), H2 as (? & [[? ?]|[? ?]]); (split; [congruence|]); auto.
    + left. split; [congruence|auto].
    + right. split; [congruence|auto].
Qed.

Lemma conns_keep_insert conns ref c c' : conns !! ref = Some c -> conn_keeps c c' ->
  conns_keep conns (<[ref := c']> conns).
Proof.
  intros Hc Hk r. destruct (decide (ref = r)) as [<-|Hne].
  - by rewrite lookup_insert_eq, Hc.
  - rewrite lookup_insert_ne by done. destruct (conns !! r); [apply conn_keeps_refl|done].
Qed.

Lemma conns_keep_some conns conns' ref : conns_keep conns conns' -> is_Some (conns !! ref) -> is_Some (conns' !! ref).
Proof. intros H [c Hc]. specialize (H ref). rewrite Hc in H. by destruct (conns' !! ref). Qed.

Lemma counts_keep o conns conns' leases tokens : counts_ok o conns leases tokens ->
  conns_keep conns conns' -> counts_ok o conns' leases tokens.
Proof.
  intros [] Hk.
  assert (forall ref c', conns' !! ref = Some c' -> exists c, conns !! ref = Some c /\ conn_keeps c c') as Hback.
  { intros ref c' H. specialize (Hk ref). rewrite H in Hk. destruct (conns !! ref); [eauto|done]. }
  assert (forall ref, is_Some (conns !! ref) -> is_Some (conns' !! ref)) as Hsome.
  { intros ref. by apply conns_keep_some. }
  constructor; try done.
  - intros ref c' H. destruct (Hback _ _ H) as (c & Hc & Hn & _). rewrite Hn. by apply co_inFlight0.
  - intros l L H. destruct (co_lease0 _ _ H). auto.
  - auto.
  - intros l L c' H1 H2 H3. destruct (Hback _ _ H3) as (c & Hc & _ & Hd).
    destruct (co_exclusive0 _ _ _ H1 H2 Hc), Hd as [[-> Hb]|[_ ?]]; auto.
  - intros ref c' H Hl. destruct (Hback _ _ H) as (c & Hc & _ & [[He _]|[He _]]); [|congruence].
    rewrite He in Hl. eauto.
Qed.

Lemma counts_alter o conns leases tokens ref f : counts_ok o conns leases tokens ->
  (forall c, conns !! ref = Some c -> conn_keeps c (f c)) -> counts_ok o (alter f ref conns) leases tokens.
Proof.
  intros Hok Hf. eapply counts_keep; [done|]. intros r. destruct (decide (r = ref)) as [->|Hne].
  - rewrite lookup_alter_eq. destruct (conns !! ref) eqn:E; cbn; [by apply Hf|done].
  - rewrite lookup_alter_ne by done. destruct (conns !! r); [apply conn_keeps_refl|done].
Qed.

(** A load of zero: nobody holds the connection. *)
Lemma counts_idle o conns leases tokens ref c l L : counts_ok o conns leases tokens ->
  conns !! ref = Some c -> pc_leased c = false -> pc_broken c = false ->
  leases !! l = Some L -> l_connection L = ref -> active_lease L = false.
Proof.
  intros [] Hc H1 H2 HL HLc. destruct (active_lease L) eqn:E; [|done].
  rewrite <- HLc in Hc. destruct (co_exclusive0 _ _ _ HL E Hc); congruence.
Qed.

Lemma on_conn_plain leases ref r : on_conn leases ref (TPlain r) = bool_decide (r = ref).
Proof. done. Qed.

Lemma of_lease_plain l r : of_lease l (TPlain r) = false.
Proof. unfold of_lease. by rewrite bool_decide_false. Qed.

(** Acquiring capacity for one operation of the pool. *)
Lemma counts_acquire o conns leases tokens ref c : counts_ok o conns leases tokens ->
  conns !! ref = Some c -> pc_leased c = false -> pc_broken c = false ->
  pc_inFlight c < MaxInFlightPerConnection o ->
  counts_ok o (alter (fun c => set_inFlight (pc_inFlight c + 1) c) ref conns) leases (TPlain ref :: tokens).
Proof.
  intros Hok Hc Hl Hb Hn. pose proof Hok as []. constructor.
  - intros r c' H. rewrite tally_cons, on_conn_plain. destruct (decide (r = ref)) as [->|Hne].
    + rewrite lookup_alter_eq, Hc in H. cbn in H. injection H as <-. rewrite bool_decide_true by done.
      destruct (co_inFlight0 _ _ Hc). cbn. lia.
    + rewrite lookup_alter_ne in H by done. rewrite bool_decide_false by done.
      destruct (co_inFlight0 _ _ H). lia.
  - intros l L H. rewrite tally_cons, of_lease_plain. destruct (co_lease0 _ _ H) as [H1 H2].
    split; [lia|]. by apply lookup_alter_is_Some.
  - intros r Hr. apply lookup_alter_is_Some. apply elem_of_cons in Hr as [[= ->]|Hr]; [eauto|auto].
  - intros l Hr. apply elem_of_cons in Hr as [?|Hr]; [done|auto].
  - intros l L c' H1 H2 H3. destruct (decide (l_connection L = ref)) as [He|Hne].
    + exfalso. rewrite (counts_idle _ _ _ _ _ _ _ _ Hok Hc Hl Hb H1 He) in H2. done.
    + rewrite lookup_alter_ne in H3 by done. eauto.
  - done.
  - intros l L H1 H2 Hin. apply elem_of_cons in Hin as [[= He]|Hin]; [|by eapply co_alone0].
    rewrite (counts_idle _ _ _ _ _ _ _ _ Hok Hc Hl Hb H1 He) in H2. done.
  - intros r c' H Hl'. destruct (decide (r = ref)) as [->|Hne].
    + rewrite lookup_alter_eq, Hc in H. cbn in H. injection H as <-. cbn in Hl'. congruence.
    + rewrite lookup_alter_ne in H by done. eauto.
Qed.

(** The tokens on a connection do not depend on a lease nobody uses. *)
Lemma on_conn_insert leases l L ref tokens : TLease l ∉ tokens ->
  tally (on_conn (<[l := L]> leases) ref) tokens = tally (on_conn leases ref) tokens.
Proof.
  intros Hl. apply tally_ext. intros [r|l'] Ht; [done|]. cbn.
  rewrite lookup_insert_ne; [done|]. intros ->. done.
Qed.

(** Leases keep their connection, so updates of a lease keep the counts. *)
Lemma on_conn_alter leases l f ref tokens : (forall L, l_connection (f L) = l_connection L) ->
  tally (on_conn (alter f l leases) ref) tokens = tally (on_conn leases ref) tokens.
Proof.
  intros Hf. apply tally_ext. intros [r|l'] Ht; [done|]. cbn. destruct (decide (l' = l)) as [->|Hne].
  - rewrite lookup_alter_eq. destruct (leases !! l); cbn; [by rewrite Hf|done].
  - by rewrite lookup_alter_ne.
Qed.

(** A new lease on an idle connection. *)
Lemma counts_newLease o conns leases tokens ref c lref : counts_ok o conns leases tokens ->
  conns !! ref = Some c -> pc_leased c = false -> pc_broken c = false -> pc_inFlight c = 0 ->
  leases !! lref = None ->
  counts_ok o (alter (set_leased true) ref conns) (<[lref := MkLease ref false 0]> leases) tokens.
Proof.
  intros Hok Hc Hl Hb Hn Hf. pose proof Hok as [].
  assert (TLease lref ∉ tokens) as Hfree by (intros Ht; destruct (co_token0 _ Ht); congruence).
  assert (tally (on_conn leases ref) tokens = 0) as Hz by (destruct (co_inFlight0 _ _ Hc); lia).
  constructor.
  - intros r c' H. rewrite on_conn_insert by done. destruct (decide (r = ref)) as [->|Hne].
    + rewrite lookup_alter_eq, Hc in H. cbn in H. injection H as <-. exact (co_inFlight0 _ _ Hc).
    + rewrite lookup_alter_ne in H by done. by apply co_inFlight0.
  - intros l L H. apply lookup_insert_Some in H as [[<- <-]|[Hne H]].
    + split; [|by apply lookup_alter_is_Some]. cbn. symmetry. apply tally_none. intros t Ht.
      unfold of_lease. rewrite bool_decide_false; [done|]. by intros ->.
    + destruct (co_lease0 _ _ H). split; [done|]. by apply lookup_alter_is_Some.
  - intros r Hr. apply lookup_alter_is_Some. auto.
  - intros l Ht. apply lookup_insert_is_Some. destruct (decide (lref = l)); auto.
  - intros l L c' H1 H2 H3. apply lookup_insert_Some in H1 as [[<- <-]|[Hne H1]].
    + cbn in H3. rewrite lookup_alter_eq, Hc in H3. cbn in H3. injection H3 as <-. by left.
    + destruct (decide (l_connection L = ref)) as [He|Hnr].
      * rewrite (counts_idle _ _ _ _ _ _ _ _ Hok Hc Hl Hb H1 He) in H2. done.
      * rewrite lookup_alter_ne in H3 by done. eauto.
  - intros l l' L L' H1 H2 A1 A2 He. apply lookup_insert_Some in H1 as [[<- <-]|[Hne H1]];
      apply lookup_insert_Some in H2 as [[<- <-]|[Hne' H2]]; try done; cbn in He.
    + rewrite (counts_idle _ _ _ _ _ _ _ _ Hok Hc Hl Hb H2 (eq_sym He)) in A2. done.
    + rewrite (counts_idle _ _ _ _ _ _ _ _ Hok Hc Hl Hb H1 He) in A1. done.
    + eauto.
  - intros l L H1 H2 Hin. apply lookup_insert_Some in H1 as [[<- <-]|[Hne H1]]; [|by eapply co_alone0].
    cbn in Hin. pose proof (tally_zero _ _ Hz _ Hin) as H0. cbn in H0. by rewrite bool_decide_true in H0.
  - intros r c' H Hl'. destruct (decide (r = ref)) as [->|Hne].
    + exists lref, (MkLease ref false 0). by rewrite lookup_insert_eq.
    + rewrite lookup_alter_ne in H by done. destruct (co_leased0 _ _ H Hl') as (l & L & H1 & H2).
      exists l, L. rewrite lookup_insert_ne by congruence. done.
Qed.

(** A new connection, unused. *)
Lemma counts_newConn o conns leases tokens ref now : counts_ok o conns leases tokens ->
  0 < MaxInFlightPerConnection o -> conns !! ref = None ->
  counts_ok o (<[ref := newConnection now]> conns) leases tokens.
Proof.
  intros Hok Ho Hf. pose proof Hok as [].
  assert (forall r, is_Some (conns !! r) -> is_Some (<[ref := newConnection now]> conns !! r)) as Hsome.
  { intros r Hr. apply lookup_insert_is_Some. destruct (decide (ref = r)); auto. }
  assert (forall l L, leases !! l = Some L -> l_connection L <> ref) as Hne.
  { intros l L H He. destruct (co_lease0 _ _ H) as [_ [? ?]]. congruence. }
  constructor; try done.
  - intros r c H. apply lookup_insert_Some in H as [[<- <-]|[Hn H]]; [|by apply co_inFlight0].
    cbn. split; [|lia]. symmetry. apply tally_none. intros [r|l] Ht; cbn.
    + rewrite bool_decide_false; [done|]. intros ->. destruct (co_plain0 _ Ht). congruence.
    + destruct (leases !! l) eqn:E; [|done]. rewrite bool_decide_false; [done|]. eauto.
  - intros l L H. destruct (co_lease0 _ _ H). auto.
  - auto.
  - intros l L c H1 H2 H3. rewrite lookup_insert_ne in H3 by (apply not_eq_sym; eauto). eauto.
  - intros r c H Hl. apply lookup_insert_Some in H as [[<- <-]|[Hn H]]; [done|eauto].
Qed.

Lemma decrement_pos n : 0 < n -> decrement n = n - 1.
Proof. intros. unfold decrement. by replace (n >? 0) with true by lia. Qed.

(** The release of one operation; [f] keeps the rest of the connection. *)
Lemma counts_release o conns leases t1 t2 ref f : counts_ok o conns leases (t1 ++ TPlain ref :: t2) ->
  (forall c, 0 < pc_inFlight c -> pc_inFlight (f c) = pc_inFlight c - 1 /\
             pc_leased (f c) = pc_leased c /\ pc_broken (f c) = pc_broken c) ->
  counts_ok o (alter f ref conns) leases (t1 ++ t2).
Proof.
  intros [] Hf. assert (forall t, t ∈ t1 ++ t2 -> t ∈ t1 ++ TPlain ref :: t2) as Hsub by set_solver.
  destruct (co_plain0 ref ltac:(set_solver)) as [c Hc].
  assert (0 < pc_inFlight c) as Hpos.
  { destruct (co_inFlight0 _ _ Hc) as [-> _]. apply (tally_pos _ _ (TPlain ref)); [set_solver|].
    cbn. by rewrite bool_decide_true. }
  destruct (Hf c Hpos) as (F1 & F2 & F3).
  assert (forall r c', alter f ref conns !! r = Some c' -> r = ref /\ c' = f c \/ r <> ref /\ conns !! r = Some c') as Hcase.
  { intros r c' H. destruct (decide (r = ref)) as [->|Hne].
    - rewrite lookup_alter_eq, Hc in H. cbn in H. injection H as <-. auto.
    - rewrite lookup_alter_ne in H by done. auto. }
  constructor; try done.
  - intros r c' H. destruct (Hcase _ _ H) as [[-> ->]|[Hne H']].
    + destruct (co_inFlight0 _ _ Hc) as [H1 H2]. rewrite tally_mid in H1. cbn [on_conn] in H1.
      rewrite bool_decide_true in H1 by done. lia.
    + destruct (co_inFlight0 _ _ H') as [H1 H2]. rewrite tally_mid in H1. cbn [on_conn] in H1.
      rewrite bool_decide_false in H1 by congruence. lia.
  - intros l L H. destruct (co_lease0 _ _ H) as [H1 H2]. rewrite tally_mid, of_lease_plain in H1.
    split; [lia|]. by apply lookup_alter_is_Some.
  - intros r Hr. apply lookup_alter_is_Some. auto.
  - auto.
  - intros l L c' H1 H2 H3. destruct (Hcase _ _ H3) as [[He ->]|[Hne H']]; [|eauto].
    rewrite F2, F3. rewrite <- He in Hc. eauto.
  - intros l L H1 H2 Hin. eapply co_alone0; [done|done|auto].
  - intros r c' H Hl. destruct (Hcase _ _ H) as [[-> ->]|[Hne H']]; [|eauto]. rewrite F2 in Hl. eauto.
Qed.

(** The operations of one lease changed from [tokens] to [tokens']. *)
Definition lease_tokens (l : LeaseRef) (tokens tokens' : list token) : Prop :=
  (forall t, t <> TLease l -> t ∈ tokens' <-> t ∈ tokens) /\
  (forall P : token -> bool, P (TLease l) = false -> tally P tokens' = tally P tokens).

(** A connection with an active lease is used by that lease only. *)
Lemma lease_load o conns leases tokens l L tokens' : counts_ok o conns leases tokens ->
  leases !! l = Some L -> active_lease L = true -> lease_tokens l tokens tokens' ->
  tally (on_conn leases (l_connection L)) tokens' = tally (of_lease l) tokens'.
Proof.
  intros [] HL Ha [Hin _]. apply tally_ext. intros [r|l'] Ht.
  - rewrite of_lease_plain. cbn. apply bool_decide_false. intros ->.
    eapply co_alone0; [done|done|]. by apply Hin.
  - unfold of_lease. cbn. destruct (decide (l' = l)) as [->|Hne].
    + rewrite HL. by rewrite !bool_decide_true.
    + apply Hin in Ht; [|congruence]. destruct (co_token0 _ Ht) as [L' HL']. rewrite HL'.
      rewrite (bool_decide_false (TLease l' = _)) by congruence. apply bool_decide_false. intros He.
      apply Hne. eapply co_unique0; [done|done| |done|done].
      unfold active_lease. destruct (co_lease0 _ _ HL') as [-> _].
      pose proof (tally_pos (of_lease l') tokens (TLease l') Ht ltac:(unfold of_lease; by rewrite bool_decide_true)).
      replace (_ >? 0) with true by lia. by rewrite orb_true_r.
Qed.

Lemma counts_leaseUpdate o conns leases tokens l L c tokens' L' c' : counts_ok o conns leases tokens ->
  leases !! l = Some L -> active_lease L = true -> conns !! l_connection L = Some c ->
  lease_tokens l tokens tokens' -> l_connection L' = l_connection L ->
  l_inFlight L' = tally (of_lease l) tokens' -> pc_inFlight c' = l_inFlight L' ->
  pc_inFlight c' <= MaxInFlightPerConnection o -> pc_broken c' = pc_broken c ->
  pc_leased c' = pc_leased c && active_lease L' ->
  counts_ok o (<[l_connection L := c']> conns) (<[l := L']> leases) tokens'.
Proof.
  intros Hok HL Ha Hc Htok HLc Hn Hcn Hmax Hb Hl. pose proof Hok as []. pose proof Htok as [Hin Hcount].
  assert (forall r, is_Some (conns !! r) -> is_Some (<[l_connection L := c']> conns !! r)) as Hsome.
  { intros r Hr. apply lookup_insert_is_Some. destruct (decide (l_connection L = r)); auto. }
  assert (forall r, tally (on_conn (<[l := L']> leases) r) tokens' = tally (on_conn leases r) tokens') as Hon.
  { intros r. apply tally_ext. intros [r'|l'] _; [done|]. cbn. destruct (decide (l = l')) as [<-|Hne].
    - by rewrite lookup_insert_eq, HL, HLc.
    - by rewrite lookup_insert_ne. }
  constructor.
  - intros r c0 H. rewrite Hon. apply lookup_insert_Some in H as [[<- <-]|[Hne H]].
    + split; [|done]. rewrite (lease_load _ _ _ _ _ _ _ Hok HL Ha Htok). lia.
    + rewrite Hcount; [by apply co_inFlight0|]. cbn. rewrite HL. by apply bool_decide_false.
  - intros l0 L0 H. apply lookup_insert_Some in H as [[<- <-]|[Hne H]].
    + split; [done|]. rewrite HLc. apply Hsome. eauto.
    + destruct (co_lease0 _ _ H) as [H1 H2]. split; [|auto]. rewrite Hcount; [done|].
      unfold of_lease. apply bool_decide_false. congruence.
  - intros r Hr. apply Hsome, co_plain0. by apply Hin.
  - intros l0 Ht. apply lookup_insert_is_Some. destruct (decide (l = l0)) as [|Hne]; [auto|].
    right. split; [done|]. apply co_token0. apply Hin; [congruence|done].
  - intros l0 L0 c0 H1 H2 H3. apply lookup_insert_Some in H1 as [[<- <-]|[Hne H1]].
    + rewrite HLc, lookup_insert_eq in H3. injection H3 as <-. rewrite Hl, Hb, H2, andb_true_r. eauto.
    + destruct (decide (l_connection L = l_connection L0)) as [He|Hnc].
      * exfalso. apply Hne. eauto.
      * rewrite lookup_insert_ne in H3 by done. eauto.
  - intros l1 l2 L1 L2 H1 H2 A1 A2 He. apply lookup_insert_Some in H1 as [[<- <-]|[Hne H1]];
      apply lookup_insert_Some in H2 as [[<- <-]|[Hne' H2]]; try done.
    + eapply co_unique0; [exact HL|exact H2|done|done|congruence].
    + eapply co_unique0; [exact H1|exact HL|done|done|congruence].
    + eauto.
  - intros l0 L0 H1 H2 Ht. apply Hin in Ht; [|done]. apply lookup_insert_Some in H1 as [[<- <-]|[Hne H1]].
    + rewrite HLc in Ht. by eapply co_alone0.
    + by eapply co_alone0.
  - intros r c0 H Hl0. apply lookup_insert_Some in H as [[<- <-]|[Hne H]].
    + rewrite Hl in Hl0. apply andb_true_iff in Hl0 as [_ Hl0]. exists l, L'. by rewrite lookup_insert_eq.
    + destruct (co_leased0 _ _ H Hl0) as (l0 & L0 & H1 & H2 & H3). exists l0, L0.
      rewrite lookup_insert_ne; [done|]. intros <-. congruence.
Qed.

Lemma lease_tokens_add l tokens : lease_tokens l tokens (TLease l :: tokens).
Proof. split; [set_solver|]. intros P HP. rewrite tally_cons, HP. lia. Qed.

Lemma lease_tokens_remove l t1 t2 : lease_tokens l (t1 ++ TLease l :: t2) (t1 ++ t2).
Proof. split; [set_solver|]. intros P HP. rewrite tally_mid, HP. lia. Qed.

Lemma lease_tokens_same l tokens : lease_tokens l tokens tokens.
Proof. done. Qed.

Lemma of_lease_refl l : of_lease l (TLease l) = true.
Proof. unfold of_lease. by rewrite bool_decide_true. Qed.

(** ** Selection *)

(** The connections a request may use. *)
Definition scope (p : Pool) (exact : option EpRef) : list ConnRef :=
  concat (map (fun e => es_connections (snd e)) (selected p exact)).

Lemma admissible_bound o lease c : 0 < MaxInFlightPerConnection o -> admissible o lease c = true ->
  pc_leased c = false /\ pc_broken c = false /\ pc_draining c = false /\
  pc_inFlight c < MaxInFlightPerConnection o /\ (lease = true -> pc_inFlight c = 0).
Proof.
  unfold admissible. intros Ho H. destruct (pc_broken c), (pc_draining c), (pc_leased c); try done.
  destruct lease; [apply Z.eqb_eq in H|apply negb_true_iff in H]; split_and!; done || lia.
Qed.

(** What the loop knows: the candidates are the least loaded of the seen. *)
Definition least (p : Pool) (lease : bool) (seen : list ConnRef) (minimum : Z) (cs : list ConnRef) : Prop :=
  (forall r, r ∈ cs -> r ∈ seen /\ admissible (pl_options p) lease (conn_of p r) = true /\
     pc_inFlight (conn_of p r) = minimum) /\
  (forall r, r ∈ seen -> admissible (pl_options p) lease (conn_of p r) = true ->
     minimum <= pc_inFlight (conn_of p r)) /\
  (cs = [] -> MaxInFlightPerConnection (pl_options p) < minimum).

Lemma candidates_least p lease refs : forall seen minimum cs, least p lease seen minimum cs ->
  exists minimum', least p lease (seen ++ refs) minimum' (candidates_loop p lease refs minimum cs).
Proof.
  induction refs as [|ref refs IH]; intros seen minimum cs Hl; cbn [candidates_loop].
  { exists minimum. by rewrite app_nil_r. }
  rewrite (cons_middle ref), (assoc_L (++)). destruct Hl as (H1 & H2 & H3).
  destruct (admissible _ _ (conn_of p ref)) eqn:Ea; cbn [negb].
  - set (n := pc_inFlight (conn_of p ref)) in *. destruct (n <? minimum) eqn:E; zbool.
    + apply IH. rewrite Z.eqb_refl. split; [|split; [|done]].
      * intros r Hr. apply elem_of_app in Hr as [Hr|Hr]; [set_solver|].
        apply list_elem_of_singleton in Hr as ->. set_solver.
      * intros r Hr Har. apply elem_of_app in Hr as [Hr|Hr]; [specialize (H2 _ Hr Har); lia|].
        apply list_elem_of_singleton in Hr as ->. done.
    + apply IH. destruct (n =? minimum) eqn:En; zbool.
      * split; [|split; [|by intros [_ ?]%app_nil]].
        -- intros r Hr. apply elem_of_app in Hr as [Hr|Hr]; [destruct (H1 _ Hr); set_solver|].
           apply list_elem_of_singleton in Hr as ->. set_solver.
        -- intros r Hr Har. apply elem_of_app in Hr as [Hr|Hr]; [auto|].
           apply list_elem_of_singleton in Hr as ->. done.
      * split; [|split; [|done]].
        -- intros r Hr. destruct (H1 _ Hr). set_solver.
        -- intros r Hr Har. apply elem_of_app in Hr as [Hr|Hr]; [auto|].
           apply list_elem_of_singleton in Hr as ->. done.
  - apply IH. split; [|split; [|done]].
    + intros r Hr. destruct (H1 _ Hr). set_solver.
    + intros r Hr Har. apply elem_of_app in Hr as [Hr|Hr]; [auto|].
      apply list_elem_of_singleton in Hr as ->. congruence.
Qed.

Lemma pick_spec {A} p (cs : list A) : 0 <= pl_selectionSeq p ->
  match pick p cs with
  | (None, p') => cs = [] /\ p' = p
  | (Some x, p') => x ∈ cs /\ exists n, 0 <= n /\ p' = with_seq n p
  end.
Proof.
  intros Hs. unfold pick. destruct (len cs =? 0) eqn:E; zbool; [by apply len_zero in E|].
  pose proof (len_nonneg cs). pose proof (Z.mod_pos_bound (pl_selectionSeq p) (len cs) ltac:(lia)).
  destruct (lookup_lt_is_Some_2 cs (Z.to_nat (pl_selectionSeq p mod len cs))) as [x Hx].
  { unfold len in *. lia. }
  rewrite Hx. split; [by eapply list_elem_of_lookup_2|]. eexists. split; [|done].
  apply uwrap_range. done.
Qed.

Lemma select_spec p exact lease : 0 <= pl_selectionSeq p -> 0 < MaxInFlightPerConnection (pl_options p) ->
  match selectConnectionLocked p exact lease with
  | (None, p') => p' = p /\ forall r, r ∈ scope p exact -> admissible (pl_options p) lease (conn_of p r) = false
  | (Some ref, p') => (exists n, 0 <= n /\ p' = with_seq n p) /\ ref ∈ scope p exact /\
      admissible (pl_options p) lease (conn_of p ref) = true /\
      forall r, r ∈ scope p exact -> admissible (pl_options p) lease (conn_of p r) = true ->
        pc_inFlight (conn_of p ref) <= pc_inFlight (conn_of p r)
  end.
Proof.
  intros Hs Ho. unfold selectConnectionLocked. fold (scope p exact).
  destruct (candidates_least p lease (scope p exact) [] (MaxInFlightPerConnection (pl_options p) + 1) [])
    as (m & H1 & H2 & H3).
  { split; [set_solver|]. split; [set_solver|]. intros _. lia. }
  cbn [app] in *. pose proof (pick_spec p (candidates_loop p lease (scope p exact)
    (MaxInFlightPerConnection (pl_options p) + 1) []) Hs) as Hp.
  destruct (pick _ _) as [[ref|] p'].
  - destruct Hp as (Hin & Hp). destruct (H1 _ Hin) as (Hr & Ha & Hm). split; [done|]. split; [done|].
    split; [done|]. intros r Hr' Har. rewrite Hm. auto.
  - destruct Hp as [Hc ->]. split; [done|]. intros r Hr.
    destruct (admissible _ _ (conn_of p r)) eqn:Ea; [|done]. specialize (H3 Hc). specialize (H2 _ Hr Ea).
    apply admissible_bound in Ea as (_ & _ & _ & ? & _); [lia|done].
Qed.

Lemma dial_loop_in p now endpoints : forall minimum cs earliest ep,
  ep ∈ fst (dial_loop p now endpoints minimum cs earliest) ->
  ep ∈ cs \/ exists e, (ep, e) ∈ endpoints /\ liveCount p e < MaxConnectionsPerEndpoint (pl_options p) /\
    es_nextDial e <= now.
Proof.
  induction endpoints as [|[ep0 e0] endpoints IH]; intros minimum cs earliest ep H; cbn [dial_loop] in H.
  { by left. }
  destruct (_ >=? _) eqn:E1.
  { destruct (IH _ _ _ _ H) as [?|(e & ? & ?)]; [by left|]. right. exists e. set_solver. }
  destruct (es_nextDial e0 >? now) eqn:E2.
  { destruct (IH _ _ _ _ H) as [?|(e & ? & ?)]; [by left|]. right. exists e. set_solver. }
  assert (liveCount p e0 < MaxConnectionsPerEndpoint (pl_options p) /\ es_nextDial e0 <= now) as He
    by (zbool; lia).
  destruct (_ <? minimum); apply IH in H as [H|(e & ? & ?)];
    try (right; exists e; set_solver); destruct (_ =? _) eqn:En;
    try (apply elem_of_app in H as [H|H]; [|apply list_elem_of_singleton in H as ->; right; exists e0; set_solver]);
    try (by left); set_solver.
Qed.

Lemma selected_lookup p exact ep e : (ep, e) ∈ selected p exact -> pl_order p !! ep = Some e.
Proof.
  destruct exact as [x|]; cbn.
  - destruct (pl_order p !! x) eqn:E; [|set_solver]. intros H%list_elem_of_singleton. by injection H as -> ->.
  - intros H. apply list_elem_of_lookup in H as [i Hi]. rewrite list_lookup_imap in Hi.
    destruct (pl_order p !! i) eqn:E; [|done]. cbn in Hi. by injection Hi as -> ->.
Qed.

Lemma selectDial_spec p exact now : 0 <= pl_selectionSeq p ->
  match selectDialEndpointLocked p exact now with
  | (None, _, p') => p' = p
  | (Some ep, _, p') => (exists n, 0 <= n /\ p' = with_seq n p) /\
      exists e, pl_order p !! ep = Some e /\ liveCount p e < MaxConnectionsPerEndpoint (pl_options p) /\
        es_nextDial e <= now
  end.
Proof.
  intros Hs. unfold selectDialEndpointLocked.
  pose proof (dial_loop_in p now (selected p exact) (MaxConnectionsPerEndpoint (pl_options p) + 1) [] zeroTime) as Hd.
  destruct (dial_loop _ _ _ _ _ _) as [cs earliest]. cbn [fst] in Hd.
  pose proof (pick_spec p cs Hs) as Hp. destruct (pick p cs) as [[ep|] p'].
  - destruct Hp as [Hin Hp]. split; [done|]. destruct (Hd _ Hin) as [?|(e & He & Hrest)]; [set_solver|].
    exists e. split; [by eapply selected_lookup|done].
  - by destruct Hp.
Qed.

(** ** Frames *)

(** What an endpoint has besides its waiters and its back-off. *)
Definition core (e : endpointState) := (es_connections e, es_dialing e, es_replacing e).
Definition cores (p : Pool) := map core (pl_order p).

(** Two pools that differ in waiters, back-off and the selection counter only. *)
Record same_pool (p p' : Pool) : Prop := {
  sp_options : pl_options p' = pl_options p;
  sp_closing : pl_closing p' = pl_closing p;
  sp_conns : pl_conns p' = pl_conns p;
  sp_leases : pl_leases p' = pl_leases p;
  sp_cores : cores p' = cores p
}.

#[export] Instance same_pool_preorder : PreOrder same_pool.
Proof.
  split; [by constructor|]. intros a b c [] []. constructor; congruence.
Qed.

Lemma cores_alter ep f order : (forall e, core (f e) = core e) -> map core (alter f ep order) = map core order.
Proof.
  intros Hf. apply list_eq. intros i. rewrite !list_lookup_fmap. destruct (decide (i = ep)) as [->|Hne].
  - rewrite list_lookup_alter_eq. destruct (order !! ep); cbn; [by rewrite Hf|done].
  - by rewrite list_lookup_alter_ne.
Qed.

Lemma same_update ep f p : (forall e, core (f e) = core e) -> same_pool p (update_endpoint ep f p).
Proof. intros Hf. constructor; try done. by apply cores_alter. Qed.

Lemma unregister_spec exact registered p :
  let '(registered', p') := unregisterWaiterLocked exact registered p in
  same_pool p p' /\ pl_selectionSeq p' = pl_selectionSeq p /\ registered' = false /\
  pl_waiters p' = pl_waiters p - (if registered then 1 else 0).
Proof.
  unfold unregisterWaiterLocked. destruct registered; cbn [negb].
  - destruct exact as [ep|]; (split; [|split; [done|split; [done|cbn; lia]]]); [|by constructor].
    etrans; [|by apply same_update]. by constructor.
  - split; [done|]. split; [done|]. split; [done|lia].
Qed.

(** Lookups in the order after an update. *)
Lemma update_endpoint_lookup ep f p i : pl_order (update_endpoint ep f p) !! i =
  if decide (i = ep) then f <$> pl_order p !! ep else pl_order p !! i.
Proof.
  cbn. destruct (decide (i = ep)) as [->|Hne]; [by rewrite list_lookup_alter_eq|by rewrite list_lookup_alter_ne].
Qed.

Lemma remove_conns target p l :
  let p' := foldl (fun p ep => removeConnectionIfUnusedLocked ep target p) p l in
  pl_options p' = pl_options p /\ pl_closing p' = pl_closing p /\ pl_conns p' = pl_conns p /\
  pl_leases p' = pl_leases p /\ pl_waiters p' = pl_waiters p /\ pl_selectionSeq p' = pl_selectionSeq p.
Proof.
  revert p. induction l as [|ep l IH]; intros p; [done|]. cbn.
  destruct (IH (removeConnectionIfUnusedLocked ep target p)) as (-> & -> & -> & -> & -> & ->).
  unfold removeConnectionIfUnusedLocked. by case_ifs.
Qed.

(** ** Capacity is accounted for *)

Definition members (p : Pool) : list ConnRef := concat (map es_connections (pl_order p)).

Record use_ok (p : Pool) (tokens : list token) : Prop := {
  uo_options : pool_options_ok (pl_options p);
  uo_seq : 0 <= pl_selectionSeq p;
  uo_counts : counts_ok (pl_options p) (pl_conns p) (pl_leases p) tokens;
  uo_members : forall ref, ref ∈ members p -> is_Some (pl_conns p !! ref)
}.

Lemma members_cores p p' : cores p' = cores p -> members p' = members p.
Proof.
  intros H. unfold members. f_equal.
  assert (forall q, map es_connections (pl_order q) = map (fun c => c.1.1) (cores q)) as E.
  { intros q. unfold cores. by rewrite map_map. }
  by rewrite !E, H.
Qed.

Lemma use_same p p' tokens : same_pool p p' -> 0 <= pl_selectionSeq p' -> use_ok p tokens -> use_ok p' tokens.
Proof.
  intros [] Hs []. constructor; [congruence|done|congruence|].
  rewrite sp_conns0, (members_cores _ _ sp_cores0). done.
Qed.

Lemma concat_elem {A} (x : A) ls : x ∈ concat ls <-> exists l, x ∈ l /\ l ∈ ls.
Proof.
  induction ls as [|l ls IH]; cbn; [set_solver|]. rewrite elem_of_app, IH. set_solver.
Qed.

Lemma members_elem p ref : ref ∈ members p <-> exists ep e, pl_order p !! ep = Some e /\ ref ∈ es_connections e.
Proof.
  unfold members. rewrite concat_elem. split.
  - intros (l & Hl & Hr). apply list_elem_of_fmap in Hr as (e & -> & He).
    apply list_elem_of_lookup in He as [i Hi]. eauto.
  - intros (ep & e & He & Hr). exists (es_connections e). split; [done|]. apply list_elem_of_fmap.
    exists e. split; [done|]. by eapply list_elem_of_lookup_2.
Qed.

Lemma scope_members p exact ref : ref ∈ scope p exact -> ref ∈ members p.
Proof.
  unfold scope. rewrite concat_elem. intros (l & Hl & Hr). apply list_elem_of_fmap in Hr as ([ep e] & -> & He).
  apply members_elem. exists ep, e. split; [by eapply selected_lookup|done].
Qed.

(** Replacing the connections, the leases and the held capacity. *)
Lemma use_update p tokens conns leases tokens' : use_ok p tokens ->
  counts_ok (pl_options p) conns leases tokens' ->
  (forall ref, is_Some (pl_conns p !! ref) -> is_Some (conns !! ref)) ->
  use_ok (with_leases leases (with_conns conns p)) tokens'.
Proof. intros [] Hc Hs. constructor; try done. cbn. auto. Qed.

Lemma alter_some {A} (f : A -> A) ref (m : gmap nat A) r : is_Some (m !! r) -> is_Some (alter f ref m !! r).
Proof. apply lookup_alter_is_Some. Qed.

Lemma with_same p : with_leases (pl_leases p) p = p.
Proof. by destruct p. Qed.

Lemma round_use exact lease registered now p res registered' p' tokens lref l1 l2 replacers :
  acquire_round exact lease registered now p = (res, registered', p') -> pl_leases p !! lref = None ->
  use_ok p tokens ->
  let w := after_round (KAcquire exact lease) lease lref res registered' p' tokens l1 l2 replacers in
  use_ok (w_pool w) (w_tokens w).
Proof.
  intros H Hfree Hok. pose proof Hok as [Ho Hs Hc Hm]. pose proof Ho as (_ & Ho' & _). unfold acquire_round in H.
  destruct (pl_closing p).
  { pose proof (unregister_spec exact registered p) as Hu. destruct (unregisterWaiterLocked _ _ _) as [reg q].
    injection H as <- <- <-. destruct Hu as (Hu & Hseq & _). cbn. eapply use_same; [done|lia|done]. }
  pose proof (select_spec p exact lease Hs Ho') as Hsel.
  destruct (selectConnectionLocked p exact lease) as [[ref|] q].
  - destruct Hsel as ((n & Hn & ->) & Hin & Ha & _).
    destruct (Hm ref) as [c Hcr]; [by eapply scope_members|].
    unfold conn_of in Ha. rewrite Hcr in Ha. cbn in Ha. apply admissible_bound in Ha as (A1 & A2 & _ & A4 & A5); [|done].
    match type of H with context [unregisterWaiterLocked _ _ ?q] =>
      pose proof (unregister_spec exact registered q) as Hu; set (q1 := q) in * end.
    destruct (unregisterWaiterLocked _ _ _) as [reg q2]. injection H as <- <- <-.
    destruct Hu as (Hu & Hseq & _). pose proof Hu as []. cbn [after_round]. destruct lease; cbn [w_pool w_tokens].
    + apply (use_same (with_leases (<[lref := MkLease ref false 0]> (pl_leases p)) q1)).
      * constructor; try done. cbn. by rewrite sp_leases0.
      * cbn. rewrite Hseq. done.
      * change (use_ok (with_leases (<[lref := MkLease ref false 0]> (pl_leases p))
          (with_conns (alter (set_leased true) ref (pl_conns (with_seq n p))) (with_seq n p))) tokens).
        apply (use_update (with_seq n p) tokens); [by constructor| |intros; by apply alter_some].
        eapply counts_newLease; eauto.
    + apply (use_same q1); [done|rewrite Hseq; done|]. rewrite <- (with_same q1).
      change (use_ok (with_leases (pl_leases p) (with_conns
        (alter (fun c => set_inFlight (pc_inFlight c + 1) c) ref (pl_conns (with_seq n p))) (with_seq n p)))
        (TPlain ref :: tokens)).
      apply (use_update (with_seq n p) tokens); [by constructor| |intros; by apply alter_some].
      eapply counts_acquire; eauto.
  - destruct Hsel as [-> _]. pose proof (selectDial_spec p exact now Hs) as Hd.
    destruct (selectDialEndpointLocked p exact now) as [[[ep|] t] q].
    + destruct Hd as [(n & Hn & ->) _]. injection H as <- <- <-. cbn.
      constructor; try done. intros r Hr. apply Hm. apply members_elem in Hr as (i & e & He & Hr).
      rewrite update_endpoint_lookup in He. apply members_elem. case_decide; [|eauto].
      subst. destruct (pl_order (with_seq n p) !! ep) eqn:E; [|done]. cbn in He. injection He as <-. eauto.
    + subst q. destruct registered; [injection H as <- <- <-; done|].
      destruct (_ =? _); injection H as <- <- <-; cbn; [done|].
      destruct exact as [ep|]; (eapply use_same; [|done|done]); [|by constructor].
      etrans; [|by apply same_update]. by constructor.
Qed.

(** An endpoint that keeps its connections or loses some. *)
Lemma members_update ep f p ref : (forall e, ref ∈ es_connections (f e) -> ref ∈ es_connections e) ->
  ref ∈ members (update_endpoint ep f p) -> ref ∈ members p.
Proof.
  intros Hf Hr. apply members_elem in Hr as (i & e & He & Hr). rewrite update_endpoint_lookup in He.
  apply members_elem. case_decide; [|eauto]. subst. destruct (pl_order p !! ep) eqn:E; [|done].
  cbn in He. injection He as <-. eauto.
Qed.

Lemma use_endpoint ep f p tokens : (forall e ref, ref ∈ es_connections (f e) -> ref ∈ es_connections e) ->
  use_ok p tokens -> use_ok (update_endpoint ep f p) tokens.
Proof. intros Hf []. constructor; try done. intros r Hr. apply uo_members0. eapply members_update; [|exact Hr]. eauto. Qed.

Lemma removeFirst_subset target l ref : ref ∈ removeFirst target l -> ref ∈ l.
Proof. induction l as [|x l IH]; cbn; [done|]. case_decide; set_solver. Qed.

Lemma use_remove ep target p tokens : use_ok p tokens -> use_ok (removeConnectionIfUnusedLocked ep target p) tokens.
Proof.
  intros Hok. unfold removeConnectionIfUnusedLocked. case_ifs; [done|].
  apply use_endpoint; [|done]. intros e r. apply removeFirst_subset.
Qed.

Lemma use_removeEverywhere target p tokens : use_ok p tokens -> use_ok (removeEverywhere target p) tokens.
Proof.
  unfold removeEverywhere. generalize (seq 0 (length (pl_order p))) as l. intros l. revert p.
  induction l as [|ep l IH]; intros p Hok; [done|]. cbn. apply IH. by apply use_remove.
Qed.

(** A connection changes, the leases stay. *)
Lemma use_conn ref f p tokens tokens' : use_ok p tokens ->
  counts_ok (pl_options p) (alter f ref (pl_conns p)) (pl_leases p) tokens' -> use_ok (update_conn ref f p) tokens'.
Proof.
  intros Hok Hc. rewrite <- (with_same (update_conn ref f p)).
  apply (use_update p tokens); [done|done|]. intros. by apply alter_some.
Qed.

Lemma afterDial_use ep outcome now delay p res p' tokens : afterDial ep outcome now delay p = (res, p') ->
  fresh_conn p outcome -> use_ok p tokens -> use_ok p' tokens.
Proof.
  intros H Hfresh Hok. unfold afterDial in H. set (q := update_endpoint _ _ p) in *.
  assert (use_ok q tokens) as Hq by (by apply use_endpoint).
  destruct outcome as [ref created|err].
  - destruct (negb (pl_closing q)); injection H as <- <-; [|done].
    pose proof Hq as [Ho Hs Hc Hm]. pose proof Ho as (_ & Ho' & _).
    constructor; [done|done|by apply counts_newConn|]. unfold addConnection. intros r Hr.
    apply members_elem in Hr as (i & e & He & Hr). rewrite update_endpoint_lookup in He.
    apply lookup_insert_is_Some. destruct (decide (ref = r)) as [|Hne]; [by left|right; split; [done|]].
    apply Hm, members_elem. case_decide; [|eauto]. subst i.
    destruct (pl_order q !! ep) eqn:E; [|cbn in *; by rewrite E in He].
    change (pl_order (with_conns _ q)) with (pl_order q) in He. rewrite E in He. cbn in He. injection He as <-.
    cbn in Hr. apply elem_of_app in Hr as [?|Hr%list_elem_of_singleton]; [eauto|congruence].
  - injection H as <- <-. by apply use_endpoint.
Qed.

(** A release: the connection may settle when it becomes idle. *)
Lemma release_use ref now p t1 t2 : use_ok p (t1 ++ TPlain ref :: t2) -> use_ok (releaseOperation ref now p) (t1 ++ t2).
Proof.
  intros Hok. unfold releaseOperation. apply use_removeEverywhere. eapply use_conn; [done|].
  apply counts_release; [by destruct Hok|]. intros c Hc. rewrite decrement_pos by done. cbn.
  unfold settle. case_ifs; done.
Qed.

Lemma conns_keep_use p conns tokens : use_ok p tokens -> conns_keep (pl_conns p) conns -> use_ok (with_conns conns p) tokens.
Proof.
  intros Hok Hk. rewrite <- (with_same (with_conns conns p)). apply (use_update p tokens); [done| |].
  - eapply counts_keep; [by destruct Hok|done].
  - intros r. by apply conns_keep_some.
Qed.

Lemma conns_keep_alter ref f conns : (forall c, conn_keeps c (f c)) -> conns_keep conns (alter f ref conns).
Proof.
  intros Hf r. destruct (decide (r = ref)) as [->|Hne].
  - rewrite lookup_alter_eq. by destruct (conns !! ref); cbn.
  - rewrite lookup_alter_ne by done. destruct (conns !! r); [apply conn_keeps_refl|done].
Qed.

Lemma broken_use ep ref p tokens : use_ok p tokens -> use_ok (snd (connectionBroken ep ref p)) tokens.
Proof.
  intros Hok. cbn. apply use_remove, conns_keep_use; [done|]. apply conns_keep_alter.
  intros c. split; [done|]. by right.
Qed.

Lemma expire_keep o now refs : forall n conns close again, (forall ref, ref ∈ refs -> is_Some (conns !! ref)) ->
  conns_keep conns (fst (fst (expire_loop o now refs n conns close again))).
Proof.
  induction refs as [|ref refs IH]; intros n conns close again Hr; cbn [expire_loop]; [done|].
  destruct (Hr ref ltac:(set_solver)) as [c Hc]. rewrite Hc. cbn [default from_option].
  assert (forall c' n close again, conn_keeps c c' ->
    conns_keep conns (fst (fst (expire_loop o now refs n (<[ref := c']> conns) close again)))) as Hstep.
  { intros c' n' close' again' Hk. etrans; [exact (conns_keep_insert _ _ _ _ Hc Hk)|]. apply IH. intros r Hr'.
    apply lookup_insert_is_Some. destruct (decide (ref = r)); [by left|right; set_solver]. }
  cbn [id]. case_ifs; try (apply IH; set_solver); apply Hstep; (split; [done|by left]).
Qed.

Lemma retire_keep o now endpoints : forall conns close again,
  (forall ep e ref, (ep, e) ∈ endpoints -> ref ∈ es_connections e -> is_Some (conns !! ref)) ->
  conns_keep conns (fst (fst (retireExpired_loop o now endpoints conns close again))).
Proof.
  induction endpoints as [|[ep e] endpoints IH]; intros conns close again Hr; cbn [retireExpired_loop]; [done|].
  match goal with |- context [expire_loop o now ?l ?n conns close false] =>
    pose proof (expire_keep o now l n conns close false ltac:(set_solver)) as Hk;
    destruct (expire_loop o now l n conns close false) as [[conns' close'] again'] end.
  cbn [fst] in Hk. etrans; [exact Hk|]. apply IH. intros ep' e' r He Hr'.
  apply (conns_keep_some _ _ _ Hk), (Hr ep' e' r); [set_solver|done].
Qed.

Lemma expire_use now p tokens : use_ok p tokens -> use_ok (snd (retireExpired now p)) tokens.
Proof.
  intros Hok. unfold retireExpired. destruct (pl_closing p); [done|].
  pose proof (retire_keep (pl_options p) now (imap pair (pl_order p)) (pl_conns p) [] []) as Hk.
  destruct (retireExpired_loop _ _ _ _ _ _) as [[conns close] again]. cbn in *.
  apply conns_keep_use; [done|]. apply Hk. intros ep e ref He Hr. destruct Hok as [_ _ _ Hm]. apply Hm, members_elem.
  exists ep, e. split; [by apply (selected_lookup p None)|done].
Qed.

Lemma closeAll_use p tokens : use_ok p tokens -> use_ok (snd (close_all p)) tokens.
Proof.
  cbn. generalize (concat (map es_connections (pl_order p))) as refs. intros refs. revert p.
  induction refs as [|ref refs IH]; intros p Hok; cbn; [done|]. apply IH, conns_keep_use; [done|].
  apply conns_keep_alter. intros c. split; [done|by left].
Qed.

Lemma active_tokens o conns leases tokens l : counts_ok o conns leases tokens -> TLease l ∈ tokens ->
  exists L c, leases !! l = Some L /\ active_lease L = true /\ conns !! l_connection L = Some c /\
    0 < l_inFlight L /\ pc_inFlight c = l_inFlight L.
Proof.
  intros Hok Ht. pose proof Hok as []. destruct (co_token0 _ Ht) as [L HL]. destruct (co_lease0 _ _ HL) as [Hn [c Hc]].
  pose proof (tally_pos (of_lease l) tokens (TLease l) Ht (of_lease_refl l)).
  assert (active_lease L = true) as Ha.
  { unfold active_lease. replace (_ >? 0) with true by lia. by rewrite orb_true_r. }
  exists L, c. split_and!; try done; [lia|]. destruct (co_inFlight0 _ _ Hc) as [-> _].
  rewrite (lease_load _ _ _ _ _ _ _ Hok HL Ha (lease_tokens_same l tokens)). done.
Qed.

(** The connection of an open lease has the load of the lease. *)
Lemma open_lease_load o conns leases tokens l L : counts_ok o conns leases tokens -> leases !! l = Some L ->
  active_lease L = true -> exists c, conns !! l_connection L = Some c /\ pc_inFlight c = l_inFlight L.
Proof.
  intros Hok HL Ha. pose proof Hok as []. destruct (co_lease0 _ _ HL) as [Hn [c Hc]]. exists c. split; [done|].
  destruct (co_inFlight0 _ _ Hc) as [-> _].
  rewrite (lease_load _ _ _ _ _ _ _ Hok HL Ha (lease_tokens_same l tokens)). done.
Qed.

Lemma alter_insert {A} (f : A -> A) i (m : gmap nat A) x : m !! i = Some x -> alter f i m = <[i := f x]> m.
Proof.
  intros Hx. apply map_eq. intros j. destruct (decide (i = j)) as [<-|Hne].
  - by rewrite lookup_alter_eq, lookup_insert_eq, Hx.
  - by rewrite lookup_alter_ne, lookup_insert_ne.
Qed.

(** A lease and its connection change together. *)
Lemma use_lease p tokens tokens' l L c f g : use_ok p tokens ->
  pl_leases p !! l = Some L -> active_lease L = true -> pl_conns p !! l_connection L = Some c ->
  lease_tokens l tokens tokens' -> l_connection (f L) = l_connection L ->
  l_inFlight (f L) = tally (of_lease l) tokens' -> pc_inFlight (g c) = l_inFlight (f L) ->
  pc_inFlight (g c) <= MaxInFlightPerConnection (pl_options p) -> pc_broken (g c) = pc_broken c ->
  pc_leased (g c) = pc_leased c && active_lease (f L) ->
  use_ok (update_conn (l_connection L) g (update_lease l f p)) tokens'.
Proof.
  intros Hok HL Ha Hc Ht H1 H2 H3 H4 H5 H6.
  change (use_ok (with_leases (alter f l (pl_leases p)) (with_conns (alter g (l_connection L) (pl_conns p)) p)) tokens').
  apply (use_update p tokens); [done| |intros; by apply alter_some].
  rewrite (alter_insert _ _ _ _ HL), (alter_insert _ _ _ _ Hc). destruct Hok. by eapply counts_leaseUpdate.
Qed.

Lemma leaseRound_use l endpoint failed registered p res registered' p' tokens l1 l2 replacers :
  lease_round l endpoint failed registered p = (res, registered', p') -> is_Some (pl_leases p !! l) ->
  use_ok p tokens ->
  let w := after_leaseRound l res registered' p' tokens l1 l2 replacers in use_ok (w_pool w) (w_tokens w).
Proof.
  intros H [L HL] Hok. unfold lease_round in H. unfold lease_of in H. rewrite HL in H. cbn [default from_option id] in H.
  assert (forall q toks, use_ok q toks -> use_ok (snd (unregisterWaiterLocked None registered q)) toks) as Hun.
  { intros q toks Hq. pose proof (unregister_spec None registered q) as Hu.
    destruct (unregisterWaiterLocked None registered q) as [reg q']. destruct Hu as (Hu & Hseq & _). cbn.
    eapply use_same; [done|rewrite Hseq; by destruct Hq|done]. }
  destruct (l_closed L || pl_closing p) eqn:E1.
  { specialize (Hun p tokens Hok). destruct (unregisterWaiterLocked None registered p). by injection H as <- <- <-. }
  destruct (pc_broken _ || failed).
  { specialize (Hun p tokens Hok). destruct (unregisterWaiterLocked None registered p). by injection H as <- <- <-. }
  apply orb_false_iff in E1 as [E1 _]. destruct (_ <? _) eqn:E2; zbool.
  - assert (active_lease L = true) as Ha by (unfold active_lease; by rewrite E1).
    destruct (open_lease_load _ _ _ _ _ _ (uo_counts _ _ Hok) HL Ha) as (c & Hc & Hn).
    match type of H with context [unregisterWaiterLocked None registered ?q] =>
      specialize (Hun q (TLease l :: tokens)); destruct (unregisterWaiterLocked None registered q) end.
    injection H as <- <- <-. apply Hun. eapply use_lease; try done.
    + apply lease_tokens_add.
    + rewrite tally_cons, of_lease_refl. cbn. destruct (co_lease _ _ _ _ (uo_counts _ _ Hok) _ _ HL). lia.
    + cbn. lia.
    + cbn. lia.
    + cbn. unfold active_lease. cbn. by rewrite E1, andb_true_r.
  - destruct registered; [by injection H as <- <- <-|].
    destruct (_ =? _); injection H as <- <- <-; [done|].
    apply (use_same p); [by constructor|by destruct Hok|done].
Qed.

Lemma leaseRelease_use l now p t1 t2 : use_ok p (t1 ++ TLease l :: t2) ->
  use_ok (releaseLeaseOperation l now p) (t1 ++ t2).
Proof.
  intros Hok. unfold releaseLeaseOperation. apply use_removeEverywhere.
  destruct (active_tokens _ _ _ _ l (uo_counts _ _ Hok) ltac:(set_solver)) as (L & c & HL & Ha & Hc & Hpos & Hn).
  unfold lease_of. cbn. rewrite lookup_alter_eq, HL. cbn [fmap option_fmap option_map default from_option id].
  destruct (co_lease _ _ _ _ (uo_counts _ _ Hok) _ _ HL) as [Ht _]. rewrite tally_mid, of_lease_refl in Ht.
  destruct (co_inFlight _ _ _ _ (uo_counts _ _ Hok) _ _ Hc) as [_ Hmax].
  eapply (use_lease p (t1 ++ TLease l :: t2) _ l L c); try done.
  - apply lease_tokens_remove.
  - cbn. rewrite decrement_pos by done. lia.
  - cbn. rewrite Hn. case_ifs; done.
  - cbn. rewrite Hn, decrement_pos by done. case_ifs; cbn; lia.
  - cbn. case_ifs; done.
  - cbn. unfold active_lease. cbn. rewrite Hn. rewrite decrement_pos by done.
    destruct (l_inFlight L - 1 =? 0) eqn:E; zbool.
    + replace (l_inFlight L - 1 >? 0) with false by lia. rewrite orb_false_r.
      destruct (l_closed L); cbn; case_ifs; cbn; by rewrite ?andb_true_r, ?andb_false_r.
    + replace (l_inFlight L - 1 >? 0) with true by lia. by rewrite orb_true_r, andb_true_r.
Qed.

Lemma leaseClose_use l now p tokens : is_Some (pl_leases p !! l) -> use_ok p tokens -> use_ok (Lease_Close l now p) tokens.
Proof.
  intros [L HL] Hok. unfold Lease_Close, lease_of. rewrite HL. cbn [default from_option id].
  destruct (l_closed L) eqn:Hcl; [done|]. apply use_removeEverywhere. cbn. rewrite lookup_alter_eq, HL.
  cbn [fmap option_fmap option_map default from_option id set_leaseClosed l_inFlight l_connection].
  assert (active_lease L = true) as Ha by (unfold active_lease; by rewrite Hcl).
  destruct (open_lease_load _ _ _ _ _ _ (uo_counts _ _ Hok) HL Ha) as (c & Hc & Hn).
  destruct (co_lease _ _ _ _ (uo_counts _ _ Hok) _ _ HL) as [Ht _].
  destruct (co_inFlight _ _ _ _ (uo_counts _ _ Hok) _ _ Hc) as [_ Hmax].
  assert (forall g, pc_inFlight (g c) = pc_inFlight c -> pc_broken (g c) = pc_broken c ->
    pc_leased (g c) = pc_leased c && (l_inFlight L >? 0) ->
    use_ok (update_conn (l_connection L) g (update_lease l set_leaseClosed p)) tokens) as Hg.
  { intros g G1 G2 G3. eapply (use_lease p tokens _ l L c); try done; cbn; rewrite ?G1; done. }
  destruct (_ =? 0) eqn:E; zbool.
  - apply Hg; cbn; case_ifs; try done; cbn; by rewrite E, andb_false_r.
  - specialize (Hg id). assert (update_conn (l_connection L) id (update_lease l set_leaseClosed p) =
      update_lease l set_leaseClosed p) as He.
    { unfold update_conn. cbn. rewrite (alter_insert _ _ _ _ Hc), insert_id by done. done. }
    rewrite He in Hg. apply Hg; try done. pose proof (tally_nonneg (of_lease l) tokens).
    replace (_ >? 0) with true by lia. by rewrite andb_true_r.
Qed.

(** ** The capacity invariant *)

Lemma unregister_use exact registered p tokens : use_ok p tokens ->
  use_ok (snd (unregisterWaiterLocked exact registered p)) tokens.
Proof.
  intros Hok. pose proof (unregister_spec exact registered p) as Hu.
  destruct (unregisterWaiterLocked exact registered p) as [reg q]. destruct Hu as (Hu & Hseq & _). cbn.
  eapply use_same; [done|rewrite Hseq; by destruct Hok|done].
Qed.

Lemma pstep_use w w' : pstep w w' -> use_ok (w_pool w) (w_tokens w) -> use_ok (w_pool w') (w_tokens w').
Proof.
  intros Hstep. destruct Hstep; cbn [w_pool w_tokens]; intros Hok; try exact Hok.
  - by eapply round_use.
  - by eapply afterDial_use.
  - by apply unregister_use.
  - by apply release_use.
  - by eapply leaseRound_use.
  - by apply leaseRelease_use.
  - by apply leaseClose_use.
  - pose proof (broken_use ep ref p tokens Hok) as Hb. by rewrite H in Hb.
  - unfold startReplacement in H0. case_ifs; injection H0 as <- <-; [done|by apply use_endpoint].
  - unfold replace_round in H. case_ifs; injection H as <- <-; try done. by apply use_endpoint.
  - by eapply afterDial_use.
  - by apply use_endpoint.
  - pose proof (expire_use now p tokens Hok) as He. by rewrite H in He.
  - unfold close_begin. destruct Hok. case_ifs; by constructor.
  - by apply closeAll_use.
  - destruct Hok. by constructor.
Qed.

(** ** Dials and connections are bounded *)

Definition call_dials (ep : EpRef) (k : call) : bool := bool_decide (k_dialing k = Some ep).
Definition repl_dials (ep : EpRef) (r : EpRef * rphase) : bool := bool_decide (r = (ep, RDialing)).

(** The dials of an endpoint are those of the calls and of its one replacing
    goroutine. *)
Record dial_ok (p : Pool) (calls : list call) (replacers : list (EpRef * rphase)) : Prop := {
  do_dialing : forall ep e, pl_order p !! ep = Some e ->
    es_dialing e = tally (call_dials ep) calls + tally (repl_dials ep) replacers;
  do_calls : forall ep e, pl_order p !! ep = Some e ->
    tally (call_dials ep) calls <= MaxConnectionsPerEndpoint (pl_options p);
  do_live : forall ep e, pl_order p !! ep = Some e ->
    liveCount p e <= MaxConnectionsPerEndpoint (pl_options p) + 1;
  do_nodup : NoDup (map fst replacers);
  do_replacing : forall ep ph, (ep, ph) ∈ replacers -> replacing p ep = true
}.

(** [d] more dials on endpoint [ep], and otherwise no new live connection. *)
Definition moves (p p' : Pool) (ep : EpRef) (d : Z) : Prop :=
  pl_options p' = pl_options p /\
  forall i, match pl_order p !! i, pl_order p' !! i with
            | Some e, Some e' =>
                es_dialing e' = es_dialing e + (if decide (i = ep) then d else 0) /\
                es_replacing e' = es_replacing e /\
                liveCount p' e' <= liveCount p e + Z.max 0 (if decide (i = ep) then d else 0)
            | None, None => True
            | _, _ => False
            end.

Definition shrinks (p p' : Pool) : Prop := moves p p' 0%nat 0.

Lemma moves_replacing p p' ep d i : moves p p' ep d -> replacing p' i = replacing p i.
Proof.
  intros [_ H]. specialize (H i). unfold replacing. destruct (pl_order p !! i), (pl_order p' !! i); try done.
  by destruct H as (_ & -> & _).
Qed.

Lemma dial_moves p p' ep d calls calls' replacers replacers' : dial_ok p calls replacers -> moves p p' ep d ->
  (forall i, tally (call_dials i) calls' + tally (repl_dials i) replacers' =
    tally (call_dials i) calls + tally (repl_dials i) replacers + (if decide (i = ep) then d else 0)) ->
  (forall i e, pl_order p !! i = Some e -> tally (call_dials i) calls' <= MaxConnectionsPerEndpoint (pl_options p)) ->
  (forall e, pl_order p !! ep = Some e -> 0 < d -> liveCount p e + d <= MaxConnectionsPerEndpoint (pl_options p) + 1) ->
  map fst replacers' = map fst replacers -> dial_ok p' calls' replacers'.
Proof.
  intros [] Hm Ht Hc Hl Hr. pose proof Hm as [Ho Hi].
  assert (forall i e', pl_order p' !! i = Some e' -> exists e, pl_order p !! i = Some e /\
    es_dialing e' = es_dialing e + (if decide (i = ep) then d else 0) /\
    liveCount p' e' <= liveCount p e + Z.max 0 (if decide (i = ep) then d else 0)) as Hback.
  { intros i e' H. specialize (Hi i). rewrite H in Hi. destruct (pl_order p !! i); [|done]. naive_solver. }
  constructor.
  - intros i e' H. destruct (Hback _ _ H) as (e & He & -> & _). rewrite Ht, (do_dialing0 _ _ He). done.
  - intros i e' H. destruct (Hback _ _ H) as (e & He & _). rewrite Ho. eauto.
  - intros i e' H. destruct (Hback _ _ H) as (e & He & _ & Hle). rewrite Ho. specialize (do_live0 _ _ He).
    case_decide; [|lia]. subst i. specialize (Hl _ He). lia.
  - by rewrite Hr.
  - intros i ph H. rewrite (moves_replacing _ _ _ _ i Hm).
    assert (i ∈ map fst replacers) as Hin by (rewrite <- Hr; apply list_elem_of_fmap; by exists (i, ph)).
    apply list_elem_of_fmap in Hin as ([i' ph'] & -> & Hin). eauto.
Qed.

Lemma dial_shrinks p p' calls calls' replacers : dial_ok p calls replacers -> shrinks p p' ->
  (forall i, tally (call_dials i) calls' = tally (call_dials i) calls) -> dial_ok p' calls' replacers.
Proof.
  intros Hok Hs Ht. eapply dial_moves; try done.
  - intros i. rewrite Ht. case_decide; lia.
  - intros i e He. rewrite Ht. by eapply do_calls.
Qed.

Lemma tally_call_same i l1 k l2 : k_dialing k = None ->
  tally (call_dials i) (l1 ++ k :: l2) = tally (call_dials i) (l1 ++ l2).
Proof. intros Hk. rewrite tally_mid. unfold call_dials at 1. rewrite Hk. by rewrite bool_decide_false. Qed.

(** ** Steps that start no dial *)

Ltac solve_moves := repeat case_decide; split_and!; first [done | congruence | lia].

#[export] Instance shrinks_preorder : PreOrder shrinks.
Proof.
  split.
  - intros p. split; [done|]. intros i. destruct (pl_order p !! i); [|done]. solve_moves.
  - intros a b c [H1 H2] [H3 H4]. split; [congruence|]. intros i. specialize (H2 i). specialize (H4 i).
    destruct (pl_order a !! i), (pl_order b !! i), (pl_order c !! i); try done.
    destruct H2 as (? & ? & ?), H4 as (? & ? & ?). solve_moves.
Qed.

Definition conns_fade (conns conns' : gmap ConnRef pooledConnection) : Prop :=
  forall r, live (default zeroConn (conns' !! r)) = true -> live (default zeroConn (conns !! r)) = true.

#[export] Instance conns_fade_preorder : PreOrder conns_fade.
Proof. split; [by intros m r|]. intros a b c H1 H2 r. auto. Qed.

Lemma live_le p p' e : conns_fade (pl_conns p) (pl_conns p') -> liveCount p' e <= liveCount p e.
Proof.
  intros Hf. unfold liveCount. pose proof (tally_le (fun r => live (conn_of p' r)) (fun r => live (conn_of p r))
    (es_connections e) (fun r _ => Hf r)). unfold tally in *. lia.
Qed.

Lemma shrinks_fade p p' : pl_options p' = pl_options p -> pl_order p' = pl_order p ->
  conns_fade (pl_conns p) (pl_conns p') -> shrinks p p'.
Proof.
  intros H1 H2 H3. split; [done|]. intros i. rewrite H2. destruct (pl_order p !! i); [|done].
  pose proof (live_le p p' e H3). solve_moves.
Qed.

Lemma fade_alter f ref conns : (forall c, live (f c) = true -> live c = true) -> conns_fade conns (alter f ref conns).
Proof.
  intros Hf r. destruct (decide (r = ref)) as [->|Hne]; [|by rewrite lookup_alter_ne].
  rewrite lookup_alter_eq. destruct (conns !! ref); cbn; [apply Hf|done].
Qed.

Lemma shrinks_same p p' : same_pool p p' -> shrinks p p'.
Proof.
  intros []. split; [done|]. intros i.
  assert (cores p' !! i = cores p !! i) as Hi by (by rewrite sp_cores0).
  unfold cores in Hi. rewrite !list_lookup_fmap in Hi.
  assert (core <$> pl_order p' !! i = core <$> pl_order p !! i) as Hi' by exact Hi.
  destruct (pl_order p !! i) as [e|], (pl_order p' !! i) as [e'|]; try done.
  injection Hi' as H1 H2 H3. unfold liveCount, conn_of. rewrite H1, H2, H3, sp_conns0. solve_moves.
Qed.

(** An endpoint that loses connections only. *)
Lemma shrinks_endpoint ep f p : (forall e, es_dialing (f e) = es_dialing e /\ es_replacing (f e) = es_replacing e /\
    forall P, tally P (es_connections (f e)) <= tally P (es_connections e)) -> shrinks p (update_endpoint ep f p).
Proof.
  intros Hf. split; [done|]. intros i. rewrite update_endpoint_lookup.
  assert (forall e, liveCount (update_endpoint ep f p) (f e) <= liveCount p e) as Hl.
  { intros e. destruct (Hf e) as (H1 & _ & H3). specialize (H3 (fun r => live (conn_of p r))).
    unfold liveCount, tally in *. rewrite H1. change (conn_of (update_endpoint ep f p)) with (conn_of p). lia. }
  destruct (decide (i = ep)) as [->|]; destruct (pl_order p !! _) as [e|]; cbn; try done.
  - destruct (Hf e) as (H1 & H2 & _). specialize (Hl e). solve_moves.
  - change (liveCount (update_endpoint ep f p) e) with (liveCount p e). solve_moves.
Qed.

Lemma tally_removeFirst P target l : tally P (removeFirst target l) <= tally P l.
Proof.
  induction l as [|x l IH]; [done|]. cbn [removeFirst]. case_decide; rewrite !tally_cons; destruct (P x); lia.
Qed.

Lemma shrinks_remove ep target p : shrinks p (removeConnectionIfUnusedLocked ep target p).
Proof.
  unfold removeConnectionIfUnusedLocked. case_ifs; [done|]. apply shrinks_endpoint. intros e.
  split; [done|]. split; [done|]. intros P. apply tally_removeFirst.
Qed.

Lemma shrinks_removeEverywhere target p : shrinks p (removeEverywhere target p).
Proof.
  unfold removeEverywhere. generalize (seq 0 (length (pl_order p))) as l. intros l. revert p.
  induction l as [|ep l IH]; intros p; [done|]. cbn. etrans; [|apply IH]. apply shrinks_remove.
Qed.

Lemma shrinks_conn ref f p : (forall c, live (f c) = true -> live c = true) -> shrinks p (update_conn ref f p).
Proof. intros Hf. apply shrinks_fade; [done|done|]. by apply fade_alter. Qed.

Lemma shrinks_unregister exact registered p : shrinks p (snd (unregisterWaiterLocked exact registered p)).
Proof.
  pose proof (unregister_spec exact registered p) as Hu.
  destruct (unregisterWaiterLocked exact registered p). apply shrinks_same, Hu.
Qed.

Lemma shrinks_release ref now p : shrinks p (releaseOperation ref now p).
Proof.
  unfold releaseOperation. etrans; [|apply shrinks_removeEverywhere]. apply shrinks_conn.
  intros c. unfold settle, live. cbn. by case_ifs.
Qed.

Lemma shrinks_lease l f p : shrinks p (update_lease l f p).
Proof. apply shrinks_fade; done. Qed.

Lemma shrinks_leaseRelease l now p : shrinks p (releaseLeaseOperation l now p).
Proof.
  unfold releaseLeaseOperation. etrans; [|apply shrinks_removeEverywhere]. etrans; [apply shrinks_lease|].
  apply shrinks_conn. intros c. unfold live. cbn. by case_ifs.
Qed.

Lemma shrinks_leaseClose l now p : shrinks p (Lease_Close l now p).
Proof.
  unfold Lease_Close. destruct (l_closed _); [done|]. etrans; [apply (shrinks_lease l set_leaseClosed)|].
  etrans; [|apply shrinks_removeEverywhere]. destruct (_ =? 0); [|done]. apply shrinks_conn.
  intros [? ? ? ? [] [] ?]; by cbn.
Qed.

Lemma shrinks_broken ep ref p : shrinks p (snd (connectionBroken ep ref p)).
Proof. cbn. etrans; [|apply shrinks_remove]. apply shrinks_conn. intros c. unfold live. cbn. done. Qed.

Lemma fade_insert ref c conns : live c = false -> conns_fade conns (<[ref := c]> conns).
Proof.
  intros Hc r. destruct (decide (ref = r)) as [<-|Hne]; [|by rewrite lookup_insert_ne].
  rewrite lookup_insert_eq. cbn. by rewrite Hc.
Qed.

Lemma expire_fade o now refs : forall n conns close again,
  conns_fade conns (fst (fst (expire_loop o now refs n conns close again))).
Proof.
  induction refs as [|ref refs IH]; intros n conns close again; cbn [expire_loop]; [done|].
  case_ifs; try apply IH; (etrans; [|apply IH]); apply fade_insert; unfold live; cbn; by rewrite andb_false_r.
Qed.

Lemma retire_fade o now endpoints : forall conns close again,
  conns_fade conns (fst (fst (retireExpired_loop o now endpoints conns close again))).
Proof.
  induction endpoints as [|[ep e] endpoints IH]; intros conns close again; cbn [retireExpired_loop]; [done|].
  match goal with |- context [expire_loop o now ?l ?n conns close false] =>
    pose proof (expire_fade o now l n conns close false) as Hk;
    destruct (expire_loop o now l n conns close false) as [[conns' close'] again'] end.
  etrans; [exact Hk|]. apply IH.
Qed.

Lemma shrinks_expire now p : shrinks p (snd (retireExpired now p)).
Proof.
  unfold retireExpired. destruct (pl_closing p); [done|].
  pose proof (retire_fade (pl_options p) now (imap pair (pl_order p)) (pl_conns p) [] []) as Hk.
  destruct (retireExpired_loop _ _ _ _ _ _) as [[conns close] again]. by apply shrinks_fade.
Qed.

Lemma shrinks_closeAll p : shrinks p (snd (close_all p)).
Proof.
  cbn. generalize (concat (map es_connections (pl_order p))) as refs. intros refs. revert p.
  induction refs as [|ref refs IH]; intros p; cbn; [done|]. etrans; [|apply IH]. by apply shrinks_conn.
Qed.

(** ** Steps that dial *)

Lemma moves_dial ep d p : moves p (update_endpoint ep (fun e => set_dialing (es_dialing e + d) e) p) ep d.
Proof.
  split; [done|]. intros i. rewrite update_endpoint_lookup.
  destruct (decide (i = ep)) as [->|]; destruct (pl_order p !! _) as [e|]; cbn; try done.
  - split; [done|]. split; [done|]. unfold liveCount. cbn. change (conn_of (update_endpoint _ _ p)) with (conn_of p). lia.
  - change (liveCount (update_endpoint ep (fun e => set_dialing (es_dialing e + d) e) p) e) with (liveCount p e).
    solve_moves.
Qed.

Lemma moves_shrinks p q r ep d : moves p q ep d -> shrinks q r -> moves p r ep d.
Proof.
  intros [H1 H2] [H3 H4]. split; [congruence|]. intros i. specialize (H2 i). specialize (H4 i).
  destruct (pl_order p !! i), (pl_order q !! i), (pl_order r !! i); try done.
  destruct H2 as (? & ? & ?), H4 as (? & ? & ?). repeat case_decide; split_and!; first [congruence | lia].
Qed.

Lemma shrinks_moves p q r ep d : shrinks p q -> moves q r ep d -> moves p r ep d.
Proof.
  intros [H1 H2] [H3 H4]. split; [congruence|]. intros i. specialize (H2 i). specialize (H4 i).
  destruct (pl_order p !! i), (pl_order q !! i), (pl_order r !! i); try done.
  destruct H2 as (? & ? & ?), H4 as (? & ? & ?). repeat case_decide; split_and!; first [congruence | lia].
Qed.

(** The end of a dial: the connection that was dialed takes the place of the dial. *)
Lemma moves_afterDial ep outcome now delay p res p' : afterDial ep outcome now delay p = (res, p') ->
  fresh_conn p outcome -> (forall ref, ref ∈ members p -> is_Some (pl_conns p !! ref)) -> moves p p' ep (-1).
Proof.
  intros H Hfresh Hm. unfold afterDial in H.
  change (fun e => set_dialing (es_dialing e - 1) e) with (fun e => set_dialing (es_dialing e + -1) e) in H.
  pose proof (moves_dial ep (-1) p) as Hd. set (q := update_endpoint _ _ p) in *.
  destruct outcome as [ref created|err].
  2:{ injection H as <- <-. eapply moves_shrinks; [done|]. apply shrinks_same. by apply same_update. }
  destruct (negb (pl_closing q)); injection H as <- <-; [|done].
  unfold addConnection. set (q' := with_conns _ q). split; [done|]. intros i. rewrite update_endpoint_lookup.
  change (pl_order q') with (pl_order q). unfold q. rewrite !update_endpoint_lookup. fold q.
  assert (forall e, pl_order p !! i = Some e ->
    tally (fun r => live (conn_of q' r)) (es_connections e) = tally (fun r => live (conn_of p r)) (es_connections e)) as Ht.
  { intros e He. apply tally_ext. intros r Hr. unfold conn_of, q'. cbn. rewrite lookup_insert_ne; [done|].
    intros <-. destruct (Hm ref) as [? Hc]; [apply members_elem; eauto|]. cbn in Hfresh. congruence. }
  destruct (decide (i = ep)) as [->|Hne].
  - rewrite decide_True by done. destruct (pl_order p !! ep) as [e|] eqn:He; cbn; [|done]. split; [done|]. split; [done|].
    unfold liveCount. cbn. fold (tally (fun r => live (conn_of p r)) (es_connections e)).
    match goal with |- _ + len (List.filter ?P ?l) <= _ => change (len (List.filter P l)) with (tally P l) end.
    rewrite tally_app, tally_cons, tally_nil.
    change (conn_of (update_endpoint _ _ q')) with (conn_of q'). rewrite (Ht e eq_refl). case_ifs; lia.
  - destruct (pl_order p !! i) as [e|] eqn:He; [|done]. split; [lia|]. split; [done|].
    unfold liveCount. change (conn_of (update_endpoint _ _ q')) with (conn_of q'). specialize (Ht e eq_refl).
    unfold tally in Ht. lia.
Qed.

(** What a round of [acquire] does to the accounts. *)
Definition round_moves (p p' : Pool) (registered registered' : bool) (res : acquisition) : Prop :=
  match res with
  | DialFirst ep => registered' = registered /\ pl_waiters p' = pl_waiters p /\ moves p p' ep 1 /\
      exists e, pl_order p !! ep = Some e /\ liveCount p e < MaxConnectionsPerEndpoint (pl_options p)
  | AcquireWait _ => registered' = true /\ shrinks p p' /\
      (registered = true /\ pl_waiters p' = pl_waiters p \/
       registered = false /\ pl_waiters p' = pl_waiters p + 1 /\ pl_waiters p <> MaxWaiters (pl_options p))
  | _ => shrinks p p' /\ pl_waiters p' = pl_waiters p - (if registered then 1 else 0)
  end.

Lemma round_spec exact lease registered now p res registered' p' :
  0 <= pl_selectionSeq p -> 0 < MaxInFlightPerConnection (pl_options p) ->
  acquire_round exact lease registered now p = (res, registered', p') -> round_moves p p' registered registered' res.
Proof.
  intros Hs Ho H. unfold acquire_round in H.
  assert (forall q, pl_waiters (snd (unregisterWaiterLocked exact registered q)) =
    pl_waiters q - (if registered then 1 else 0)) as Hw.
  { intros q. pose proof (unregister_spec exact registered q) as Hu.
    destruct (unregisterWaiterLocked exact registered q). apply Hu. }
  pose proof (shrinks_unregister exact registered) as Hun.
  destruct (pl_closing p).
  { specialize (Hw p). specialize (Hun p). destruct (unregisterWaiterLocked exact registered p).
    by injection H as <- <- <-. }
  pose proof (select_spec p exact lease Hs Ho) as Hsel.
  destruct (selectConnectionLocked p exact lease) as [[ref|] q].
  - destruct Hsel as ((n & _ & ->) & _). set (q := update_conn _ _ _) in H. specialize (Hw q). specialize (Hun q).
    destruct (unregisterWaiterLocked exact registered q). injection H as <- <- <-. split; [|done].
    etrans; [|exact Hun]. etrans; [|apply shrinks_conn; destruct lease; done]. by apply shrinks_fade.
  - destruct Hsel as [-> _]. pose proof (selectDial_spec p exact now Hs) as Hd.
    destruct (selectDialEndpointLocked p exact now) as [[[ep|] t] q].
    + destruct Hd as [(n & Hn & ->) (e & He & Hlt & _)]. injection H as <- <- <-. split_and!; try done; [|by exists e].
      eapply shrinks_moves; [|apply moves_dial]. by apply shrinks_fade.
    + subst q. destruct registered; [injection H as <- <- <-; split; [done|]; split; [done|by left]|].
      destruct (_ =? _) eqn:E; injection H as <- <- <-; cbn; [split; [done|lia]|]. zbool. split; [done|].
      split; [|right; destruct exact; done]. apply shrinks_same.
      destruct exact as [ep|]; [|by constructor]. etrans; [|by apply same_update]. by constructor.
Qed.

Definition leaseRound_moves (p p' : Pool) (registered registered' : bool) (res : leaseAcquisition) : Prop :=
  shrinks p p' /\
  match res with
  | LeaseWait => registered' = true /\
      (registered = true /\ pl_waiters p' = pl_waiters p \/
       registered = false /\ pl_waiters p' = pl_waiters p + 1 /\ pl_waiters p <> MaxWaiters (pl_options p))
  | _ => pl_waiters p' = pl_waiters p - (if registered then 1 else 0)
  end.

Lemma leaseRound_spec l endpoint failed registered p res registered' p' :
  lease_round l endpoint failed registered p = (res, registered', p') ->
  leaseRound_moves p p' registered registered' res.
Proof.
  intros H. unfold lease_round in H.
  assert (forall q, shrinks p q -> pl_waiters q = pl_waiters p ->
    let p'' := snd (unregisterWaiterLocked None registered q) in
    shrinks p p'' /\ pl_waiters p'' = pl_waiters p - (if registered then 1 else 0)) as Hu.
  { intros q Hq Hw. pose proof (shrinks_unregister None registered q) as Hun.
    pose proof (unregister_spec None registered q) as Hs.
    destruct (unregisterWaiterLocked None registered q). cbn in *. split; [by etrans|]. rewrite <- Hw. apply Hs. }
  destruct (_ || pl_closing p).
  { specialize (Hu p ltac:(done) eq_refl). destruct (unregisterWaiterLocked None registered p).
    by injection H as <- <- <-. }
  destruct (_ || failed).
  { specialize (Hu p ltac:(done) eq_refl). destruct (unregisterWaiterLocked None registered p).
    by injection H as <- <- <-. }
  destruct (_ <? _).
  - set (q := update_conn _ _ _) in H. specialize (Hu q). destruct (unregisterWaiterLocked None registered q).
    injection H as <- <- <-. apply Hu; [|done]. etrans; [apply shrinks_lease|]. by apply shrinks_conn.
  - destruct registered; [injection H as <- <- <-; split; [done|]; split; [done|by left]|].
    destruct (_ =? _) eqn:E; injection H as <- <- <-; (split; [by apply shrinks_fade|]); [cbn; lia|].
    zbool. split; [done|]. by right.
Qed.

Lemma dial_start_call p p' ep l1 l2 k k' replacers : dial_ok p (l1 ++ k :: l2) replacers -> moves p p' ep 1 ->
  k_dialing k = None -> k_dialing k' = Some ep ->
  (exists e, pl_order p !! ep = Some e /\ liveCount p e < MaxConnectionsPerEndpoint (pl_options p)) ->
  dial_ok p' (l1 ++ k' :: l2) replacers.
Proof.
  intros Hok Hm Hk Hk' (e & He & Hlt).
  assert (forall i, tally (call_dials i) (l1 ++ k' :: l2) =
    tally (call_dials i) (l1 ++ k :: l2) + (if decide (i = ep) then 1 else 0)) as Ht.
  { intros i. rewrite (tally_call_same i l1 k l2 Hk), tally_mid. unfold call_dials at 1. rewrite Hk'. case_decide.
    - subst i. rewrite bool_decide_true by done. lia.
    - rewrite bool_decide_false by congruence. lia. }
  eapply dial_moves; try done.
  - intros i. rewrite Ht. lia.
  - intros i e' He'. rewrite Ht. pose proof (do_calls _ _ _ Hok _ _ He'). case_decide; [|lia]. subst i.
    assert (e' = e) as -> by congruence. pose proof (do_dialing _ _ _ Hok _ _ He).
    pose proof (tally_nonneg (repl_dials ep) replacers).
    pose proof (tally_nonneg (fun r => live (conn_of p r)) (es_connections e)).
    unfold liveCount, tally in *. lia.
  - intros e' He' _. assert (e' = e) as -> by congruence. lia.
Qed.

Lemma dial_end_call p p' ep l1 l2 k calls' replacers : dial_ok p (l1 ++ k :: l2) replacers -> moves p p' ep (-1) ->
  k_dialing k = Some ep -> (forall i, tally (call_dials i) calls' = tally (call_dials i) (l1 ++ l2)) ->
  dial_ok p' calls' replacers.
Proof.
  intros Hok Hm Hk Hc.
  assert (forall i, tally (call_dials i) (l1 ++ k :: l2) =
    tally (call_dials i) calls' + (if decide (i = ep) then 1 else 0)) as Ht.
  { intros i. rewrite Hc, tally_mid. unfold call_dials at 1. rewrite Hk. case_decide.
    - subst i. rewrite bool_decide_true by done. lia.
    - rewrite bool_decide_false by congruence. lia. }
  eapply dial_moves; try done.
  - intros i. rewrite Ht. case_decide; lia.
  - intros i e He. pose proof (do_calls _ _ _ Hok _ _ He) as Hle. rewrite Ht in Hle. case_decide; lia.
Qed.

Lemma tally_repl i r1 r2 ep ph :
  tally (repl_dials i) (r1 ++ (ep, ph) :: r2) =
  (if decide (i = ep /\ ph = RDialing) then 1 else 0) + tally (repl_dials i) (r1 ++ r2).
Proof.
  rewrite tally_mid. unfold repl_dials at 1. case_decide as H.
  - destruct H as [-> ->]. by rewrite bool_decide_true.
  - rewrite bool_decide_false; [done|]. intros [= -> ->]. by apply H.
Qed.

Lemma map_fst_mid (r1 r2 : list (EpRef * rphase)) ep ph ph' :
  map fst (r1 ++ (ep, ph') :: r2) = map fst (r1 ++ (ep, ph) :: r2).
Proof. by rewrite !map_app. Qed.

(** A phase of the replacing goroutine that starts no dial. *)
Lemma dial_phase p p' d calls r1 r2 ep ph ph' : dial_ok p calls (r1 ++ (ep, ph) :: r2) -> moves p p' ep d ->
  ph' <> RDialing -> d = (if decide (ph = RDialing) then -1 else 0) -> dial_ok p' calls (r1 ++ (ep, ph') :: r2).
Proof.
  intros Hok Hm Hp Hd. eapply dial_moves; try done.
  - intros i. rewrite !tally_repl, Hd. repeat case_decide; try lia; naive_solver lia.
  - intros i e He. by eapply do_calls.
  - intros e He. rewrite Hd. case_decide; lia.
  - apply map_fst_mid.
Qed.

(** Only one goroutine replaces an endpoint. *)
Lemma dial_alone p calls r1 r2 ep : dial_ok p calls (r1 ++ (ep, RLoop) :: r2) ->
  tally (repl_dials ep) (r1 ++ (ep, RLoop) :: r2) = 0.
Proof.
  intros Hok. apply tally_none. intros [i ph] Hin. unfold repl_dials. apply bool_decide_false. intros [= -> ->].
  pose proof (do_nodup _ _ _ Hok) as Hn. rewrite map_app in Hn. cbn in Hn. apply NoDup_app in Hn as (_ & Hn1 & Hn2).
  apply NoDup_cons in Hn2 as [Hn2 _]. apply elem_of_app in Hin as [Hin|Hin].
  - apply (Hn1 ep); [apply list_elem_of_fmap; by exists (ep, RDialing)|set_solver].
  - apply elem_of_cons in Hin as [?|Hin]; [done|]. apply Hn2, list_elem_of_fmap. by exists (ep, RDialing).
Qed.

Lemma no_live p ep e : pl_order p !! ep = Some e -> endpointHasLiveConnectionLocked p ep = false ->
  liveCount p e = es_dialing e.
Proof.
  unfold endpointHasLiveConnectionLocked. intros -> H. unfold liveCount.
  assert (tally (fun ref => live (conn_of p ref)) (es_connections e) = 0) as Ht.
  { apply tally_none. intros r Hr. destruct (live (conn_of p r)) eqn:E; [|done].
    rewrite <- H. symmetry. apply existsb_exists. exists r. split; [by apply list_elem_of_In|done]. }
  unfold tally in Ht. lia.
Qed.

Lemma dial_start_replace p p' calls r1 r2 ep : dial_ok p calls (r1 ++ (ep, RLoop) :: r2) -> moves p p' ep 1 ->
  endpointHasLiveConnectionLocked p ep = false -> dial_ok p' calls (r1 ++ (ep, RDialing) :: r2).
Proof.
  intros Hok Hm Hl. eapply dial_moves; try done.
  - intros i. rewrite !tally_repl. repeat case_decide; try lia; naive_solver lia.
  - intros i e He. by eapply do_calls.
  - intros e He _. rewrite (no_live _ _ _ He Hl). rewrite (do_dialing _ _ _ Hok _ _ He), (dial_alone _ _ _ _ _ Hok).
    pose proof (do_calls _ _ _ Hok _ _ He). lia.
  - apply map_fst_mid.
Qed.

(** Starting and stopping the replacing goroutine. *)
Lemma dial_start p calls replacers ep : dial_ok p calls replacers -> is_Some (pl_order p !! ep) ->
  replacing p ep = false -> dial_ok (update_endpoint ep (set_replacing true) p) calls ((ep, RLoop) :: replacers).
Proof.
  intros Hok Hsome Hr. set (p' := update_endpoint _ _ p).
  assert (forall i e', pl_order p' !! i = Some e' -> exists e, pl_order p !! i = Some e /\
    es_dialing e' = es_dialing e /\ liveCount p' e' = liveCount p e) as Hback.
  { intros i e' H. unfold p' in H. rewrite update_endpoint_lookup in H. case_decide; [|eauto]. subst i.
    destruct (pl_order p !! ep) as [e|] eqn:He; [|done]. injection H as <-. exists e. split; [exact He|done]. }
  destruct Hok. constructor.
  - intros i e' H. destruct (Hback _ _ H) as (e & He & -> & _). rewrite tally_cons. unfold repl_dials at 1.
    rewrite bool_decide_false by done. eauto.
  - intros i e' H. destruct (Hback _ _ H) as (e & He & _). by eapply do_calls0.
  - intros i e' H. destruct (Hback _ _ H) as (e & He & _ & ->). by eapply do_live0.
  - cbn. apply NoDup_cons. split; [|done]. intros Hin. apply list_elem_of_fmap in Hin as ([i ph] & -> & Hin).
    cbn [fst] in Hr. rewrite (do_replacing0 _ _ Hin) in Hr. done.
  - intros i ph Hin. unfold replacing, p'. rewrite update_endpoint_lookup. case_decide as Hi.
    + subst i. by destruct Hsome as [e ->].
    + apply elem_of_cons in Hin as [[= -> ->]|Hin]; [done|]. by eapply do_replacing0.
Qed.

Lemma dial_exit p calls r1 r2 ep : dial_ok p calls (r1 ++ (ep, RExiting) :: r2) ->
  dial_ok (replace_exit ep p) calls (r1 ++ r2).
Proof.
  intros Hok. set (p' := replace_exit ep p).
  assert (forall i e', pl_order p' !! i = Some e' -> exists e, pl_order p !! i = Some e /\
    es_dialing e' = es_dialing e /\ liveCount p' e' = liveCount p e) as Hback.
  { intros i e' H. unfold p', replace_exit in H. rewrite update_endpoint_lookup in H. case_decide; [|eauto]. subst i.
    destruct (pl_order p !! ep) as [e|] eqn:He; [|done]. injection H as <-. exists e. split; [exact He|done]. }
  destruct Hok. rewrite map_app in do_nodup0. cbn in do_nodup0.
  apply NoDup_app in do_nodup0 as (N1 & N2 & N3). apply NoDup_cons in N3 as [N3 N4]. constructor.
  - intros i e' H. destruct (Hback _ _ H) as (e & He & -> & _). rewrite (do_dialing0 _ _ He), tally_repl.
    rewrite decide_False by naive_solver. done.
  - intros i e' H. destruct (Hback _ _ H) as (e & He & _). by eapply do_calls0.
  - intros i e' H. destruct (Hback _ _ H) as (e & He & _ & ->). by eapply do_live0.
  - rewrite map_app. apply NoDup_app. split; [done|]. split; [|done]. intros i Hi. specialize (N2 i Hi). set_solver.
  - intros i ph Hin. unfold replacing, p', replace_exit. rewrite update_endpoint_lookup. case_decide as Hi.
    + exfalso. subst i. apply elem_of_app in Hin as [Hin|Hin].
      * apply (N2 ep); [apply list_elem_of_fmap; by exists (ep, ph)|set_solver].
      * apply N3, list_elem_of_fmap. by exists (ep, ph).
    + apply (do_replacing0 i ph). set_solver.
Qed.

Lemma pstep_dial w w' : pstep w w' -> use_ok (w_pool w) (w_tokens w) ->
  dial_ok (w_pool w) (w_calls w) (w_replacers w) -> dial_ok (w_pool w') (w_calls w') (w_replacers w').
Proof.
  intros Hstep. destruct Hstep; cbn [w_pool w_tokens w_calls w_replacers]; intros Huse Hok;
    pose proof Huse as [(_ & Ho & _) Hs _ Hm].
  - eapply dial_shrinks; [done|done|]. intros i. apply (tally_call_same i []). done.
  - pose proof (round_spec _ _ _ _ _ _ _ _ Hs Ho H) as Hr.
    destruct res as [ref|ep|err|t]; cbn in Hr |- *.
    + destruct Hr as [Hr _]. destruct lease; (eapply dial_shrinks; [done| |intros i; by rewrite tally_call_same]); [|done].
      etrans; [exact Hr|]. by apply shrinks_fade.
    + destruct Hr as (_ & _ & Hr & He). by eapply dial_start_call.
    + destruct Hr as [Hr _]. eapply dial_shrinks; [done|done|]. intros i. by rewrite tally_call_same.
    + destruct Hr as (_ & Hr & _). eapply dial_shrinks; [done|done|]. intros i. by rewrite !tally_call_same.
  - pose proof (moves_afterDial _ _ _ _ _ _ _ H0 H Hm) as Hmv.
    eapply dial_end_call; [done|done|done|]. intros i. destruct (acquire_afterDial _ _ _ _); [done|by rewrite tally_call_same].
  - eapply dial_shrinks; [done|apply shrinks_unregister|]. intros i. by rewrite tally_call_same.
  - eapply dial_shrinks; [done|apply shrinks_release|done].
  - destruct (leaseRound_spec _ _ _ _ _ _ _ _ H) as [Hr _].
    destruct res; cbn; (eapply dial_shrinks; [done|done|]); intros i; by rewrite !tally_call_same.
  - eapply dial_shrinks; [done|apply shrinks_leaseRelease|done].
  - eapply dial_shrinks; [done|apply shrinks_leaseClose|done].
  - pose proof (shrinks_broken ep ref p) as Hb. rewrite H in Hb. by eapply dial_shrinks.
  - unfold startReplacement in H0. destruct (pl_closing p || replacing p ep || _) eqn:E; injection H0 as <- <-; [done|].
    apply orb_false_iff in E as [E _]. apply orb_false_iff in E as [_ E]. by apply dial_start.
  - unfold replace_round in H. destruct (pl_closing p || _) eqn:E.
    { injection H as <- <-. eapply (dial_phase p p 0); try done. split; [done|]. intros i.
      destruct (pl_order p !! i); [|done]. solve_moves. }
    apply orb_false_iff in E as [_ E]. destruct (_ <=? 0); injection H as <- <-; [|done].
    eapply dial_start_replace; [done|apply moves_dial|done].
  - eapply (dial_phase p p 0); try done. split; [done|]. intros i. destruct (pl_order p !! i); [|done]. solve_moves.
  - pose proof (moves_afterDial _ _ _ _ _ _ _ H0 H Hm) as Hmv. eapply dial_phase; [done|done|by destruct res|done].
  - by apply dial_exit.
  - pose proof (shrinks_expire now p) as He. rewrite H in He. by eapply dial_shrinks.
  - eapply dial_shrinks; [done| |done]. unfold close_begin. case_ifs; [done|]. by apply shrinks_fade.
  - eapply dial_shrinks; [done|apply shrinks_closeAll|done].
  - eapply dial_shrinks; [done| |done]. by apply shrinks_fade.
Qed.

(** ** Waiters are bounded *)

Definition waiters_ok (p : Pool) (calls : list call) : Prop :=
  tally k_registered calls <= pl_waiters p <= MaxWaiters (pl_options p).

Lemma waiters_keep p p' calls calls' : waiters_ok p calls -> pl_options p' = pl_options p ->
  pl_waiters p' = pl_waiters p -> tally k_registered calls' <= tally k_registered calls -> waiters_ok p' calls'.
Proof. unfold waiters_ok. intros H -> -> Ht. lia. Qed.

(** A registered call leaves, or a call is registered. *)
Lemma waiters_leave p p' l1 k l2 : waiters_ok p (l1 ++ k :: l2) -> shrinks p p' ->
  pl_waiters p' = pl_waiters p - (if k_registered k then 1 else 0) -> waiters_ok p' (l1 ++ l2).
Proof. unfold waiters_ok. rewrite tally_mid. intros H [-> _] ->. destruct (k_registered k); lia. Qed.

Lemma waiters_wait p p' l1 k k' l2 : waiters_ok p (l1 ++ k :: l2) -> shrinks p p' -> k_registered k' = true ->
  (k_registered k = true /\ pl_waiters p' = pl_waiters p \/
   k_registered k = false /\ pl_waiters p' = pl_waiters p + 1 /\ pl_waiters p <> MaxWaiters (pl_options p)) ->
  waiters_ok p' (l1 ++ k' :: l2).
Proof.
  unfold waiters_ok. rewrite !tally_mid. intros H [-> _] ->. intros [[Hk ->]|(Hk & -> & Hne)]; rewrite Hk in H;
    cbn in *; lia.
Qed.

Lemma remove_waiters target p : pl_waiters (removeEverywhere target p) = pl_waiters p.
Proof. unfold removeEverywhere. by destruct (remove_conns target p (seq 0 (length (pl_order p)))) as (_ & _ & _ & _ & -> & _). Qed.

Lemma closeAll_waiters p : pl_waiters (snd (close_all p)) = pl_waiters p.
Proof.
  cbn. generalize (concat (map es_connections (pl_order p))) as refs. intros refs. revert p.
  induction refs as [|ref refs IH]; intros p; cbn; [done|]. by rewrite IH.
Qed.

Lemma leaseClose_waiters l now p : pl_waiters (Lease_Close l now p) = pl_waiters p.
Proof. unfold Lease_Close. destruct (l_closed _); [done|]. rewrite remove_waiters. by destruct (_ =? 0). Qed.

Lemma pstep_waiters w w' : pstep w w' -> use_ok (w_pool w) (w_tokens w) ->
  waiters_ok (w_pool w) (w_calls w) -> waiters_ok (w_pool w') (w_calls w').
Proof.
  intros Hstep. destruct Hstep; cbn [w_pool w_tokens w_calls]; intros Huse Hok;
    pose proof Huse as [(_ & Ho & _) Hs _ Hm].
  - by eapply waiters_keep.
  - pose proof (round_spec _ _ _ _ _ _ _ _ Hs Ho H) as Hr. destruct res as [ref|ep|err|t]; cbn in Hr |- *.
    + destruct Hr as [Hr Hw]. destruct lease; cbn; [|by eapply waiters_leave].
      eapply waiters_leave; [done| |exact Hw]. etrans; [exact Hr|]. by apply shrinks_fade.
    + destruct Hr as (-> & Hw & [Hopt _] & _). eapply waiters_keep; try done. by rewrite !tally_mid.
    + destruct Hr as [Hr Hw]. by eapply waiters_leave.
    + destruct Hr as (-> & Hr & Hw). by eapply waiters_wait.
  - unfold afterDial in H0. assert (pl_options p' = pl_options p /\ pl_waiters p' = pl_waiters p) as [E1 E2].
    { destruct outcome; case_ifs; by injection H0 as <- <-. }
    eapply waiters_keep; [done|done|done|]. destruct (acquire_afterDial _ _ _ _); rewrite !tally_mid; cbn; case_ifs; lia.
  - eapply waiters_leave; [done|apply shrinks_unregister|]. pose proof (unregister_spec (exact_of kind) registered p) as Hu.
    destruct (unregisterWaiterLocked _ registered p). apply Hu.
  - eapply waiters_keep; [done|apply shrinks_release| |done]. unfold releaseOperation. by rewrite remove_waiters.
  - destruct (leaseRound_spec _ _ _ _ _ _ _ _ H) as [Hr Hw]. destruct res; cbn in *; try (by eapply waiters_leave).
    destruct Hw as [-> Hw]. by eapply waiters_wait.
  - eapply waiters_keep; [done|apply shrinks_leaseRelease| |done]. unfold releaseLeaseOperation. by rewrite remove_waiters.
  - eapply waiters_keep; [done|apply shrinks_leaseClose|apply leaseClose_waiters|done].
  - unfold connectionBroken, removeConnectionIfUnusedLocked in H. by case_ifs; injection H as <- <-.
  - unfold startReplacement in H0. by case_ifs; injection H0 as <- <-.
  - unfold replace_round in H. by case_ifs; injection H as <- <-.
  - done.
  - unfold afterDial in H0. by destruct outcome; case_ifs; injection H0 as <- <-.
  - done.
  - unfold retireExpired in H. destruct (pl_closing p); [by injection H as <- <- <-|].
    destruct (retireExpired_loop _ _ _ _ _ _) as [[? ?] ?]. by injection H as <- <- <-.
  - unfold close_begin. by case_ifs.
  - eapply waiters_keep; [done|apply shrinks_closeAll|apply closeAll_waiters|done].
  - done.
Qed.

(** ** Every reachable world *)

Record world_ok (w : World) : Prop := {
  wo_use : use_ok (w_pool w) (w_tokens w);
  wo_dial : dial_ok (w_pool w) (w_calls w) (w_replacers w);
  wo_waiters : waiters_ok (w_pool w) (w_calls w)
}.

Lemma pstep_ok w w' : pstep w w' -> world_ok w -> world_ok w'.
Proof.
  intros Hs []. constructor; [by eapply pstep_use|by eapply pstep_dial|by eapply pstep_waiters].
Qed.

(** The pool while [New] sets up its endpoints: one idle connection each. *)
Record new_ok (p : Pool) : Prop := {
  no_use : use_ok p [];
  no_waiters : pl_waiters p = 0;
  no_fresh : forall r, is_Some (pl_conns p !! r) -> (r < length (pl_order p))%nat;
  no_endpoint : forall i e, pl_order p !! i = Some e -> es_dialing e = 0 /\ len (es_connections e) = 1
}.

Lemma new_ok_add p config now : new_ok p ->
  new_ok (with_order (pl_order p ++ [MkEndpointState config [length (pl_order p)] 0 0 0 0 zeroTime false])
            (with_conns (<[length (pl_order p) := newConnection now]> (pl_conns p)) p)).
Proof.
  intros [[Ho Hs Hc Hm] Hw Hf He]. set (n := length (pl_order p)).
  assert (pl_conns p !! n = None) as Hfree.
  { destruct (pl_conns p !! n) eqn:E; [|done]. specialize (Hf n ltac:(eauto)). unfold n in Hf. lia. }
  constructor.
  - constructor; cbn; [done|done|apply counts_newConn; [done|by destruct Ho as (_ & ? & _)|done]|].
    intros r Hr. apply lookup_insert_is_Some. destruct (decide (n = r)) as [|Hne]; [by left|right; split; [done|]].
    apply Hm. unfold members in *. cbn in Hr. rewrite map_app, concat_app in Hr. cbn in Hr. set_solver.
  - done.
  - intros r. cbn. rewrite length_app. cbn. intros H%lookup_insert_is_Some. destruct H as [<-|[_ H]]; [unfold n; lia|].
    specialize (Hf r H). lia.
  - cbn. intros i e H. apply lookup_app_Some in H as [H|[_ H]]; [eauto|].
    apply list_lookup_singleton_Some in H as [_ <-]. done.
Qed.

Lemma New_loop_ok endpoints : forall p p', new_ok p -> New_loop endpoints p = inl p' -> new_ok p'.
Proof.
  induction endpoints as [|[config setup] endpoints IH]; intros p p' Hok H; cbn [New_loop] in H; [congruence|].
  destruct (Endpoint_Validate config); [done|]. destruct (existsb _ _); [done|]. destruct setup as [now|err]; [|done].
  eapply IH; [|exact H]. by apply new_ok_add.
Qed.

Lemma New_ok endpoints options p : New endpoints options = inl p -> world_ok (MkWorld p [] [] []).
Proof.
  unfold New. destruct (len endpoints =? 0); [done|]. destruct (Options_normalized options) as [o|err] eqn:E; [|done].
  apply Options_normalized_ok in E as Ho. intros H.
  apply New_loop_ok in H as [Huse Hw Hf He].
  - pose proof (uo_options _ _ Huse) as (O1 & O2 & O3 & _). constructor; [done| |].
    2:{ unfold waiters_ok. cbn [w_pool w_calls]. rewrite tally_nil. lia. }
    constructor; cbn [w_pool w_calls w_replacers map]; try (intros ? ? Hin; by apply elem_of_nil in Hin); [| | |constructor].
    + intros i e H. by destruct (He i e H).
    + intros i e H. rewrite tally_nil. lia.
    + intros i e H. destruct (He i e H) as [H1 H2]. unfold liveCount. rewrite H1.
      pose proof (filter_length_le (fun ref => live (conn_of p ref)) (es_connections e)). unfold len in *. lia.
  - constructor; [|done|cbn; intros r [? ?]; done|cbn; done]. constructor; [done|done| |cbn; set_solver].
    by constructor; cbn; set_solver.
Qed.

Lemma psteps_ok w w' : psteps w w' -> world_ok w -> world_ok w'.
Proof. induction 1; [done|]. intros Hw. eapply pstep_ok; [done|]. auto. Qed.

Lemma pool_reachable_ok w : pool_reachable w -> world_ok w.
Proof. intros (endpoints & options & p & Hn & Hs). eapply psteps_ok; [done|]. by eapply New_ok. Qed.

(** ** The guarantees *)

(** C8. Capacity is accounted for exactly in every reachable state of the pool:
    the in-flight count of a connection is the number of operations that hold
    it, directly or through a lease, and never exceeds its limit; the count of
    a lease is the number of its operations; and a lease that is open or has
    operations left is exclusive: no operation of the pool and no other such
    lease holds its connection, which selection cannot pick (it is marked
    leased, or broken). *)
Theorem pool_capacity w : pool_reachable w ->
  let p := w_pool w in
  (forall ref c, pl_conns p !! ref = Some c ->
     pc_inFlight c = tally (on_conn (pl_leases p) ref) (w_tokens w) /\
     0 <= pc_inFlight c <= MaxInFlightPerConnection (pl_options p)) /\
  (forall l L, pl_leases p !! l = Some L -> l_inFlight L = tally (of_lease l) (w_tokens w)) /\
  (forall l L, pl_leases p !! l = Some L -> active_lease L = true ->
     TPlain (l_connection L) ∉ w_tokens w /\
     (forall l' L', pl_leases p !! l' = Some L' -> active_lease L' = true -> l_connection L' = l_connection L -> l' = l) /\
     forall lease, admissible (pl_options p) lease (conn_of p (l_connection L)) = false) /\
  (forall ref, TPlain ref ∈ w_tokens w -> is_Some (pl_conns p !! ref)) /\
  (forall l, TLease l ∈ w_tokens w -> is_Some (pl_leases p !! l)).
Proof.
  intros Hr. destruct (pool_reachable_ok w Hr) as [[_ _ [] _] _ _]. cbn. split_and!; try done.
  - intros ref c Hc. destruct (co_inFlight0 _ _ Hc) as [H1 H2]. split; [done|].
    split; [rewrite H1; apply tally_nonneg|done].
  - intros l L HL. by destruct (co_lease0 _ _ HL).
  - intros l L HL Ha. split; [eauto|]. split; [eauto|]. intros lease. destruct (co_lease0 _ _ HL) as [_ [c Hc]].
    unfold conn_of. rewrite Hc. cbn. unfold admissible.
    destruct (co_exclusive0 _ _ _ HL Ha Hc) as [-> | ->]; by rewrite ?orb_true_r.
Qed.

(** C25. The pool is bounded in every reachable state: a call that is counted as
    a waiter is one of at most [MaxWaiters]; the dials of an endpoint are those
    of the calls and of at most one replacing goroutine; and its dials and live
    connections together exceed [MaxConnectionsPerEndpoint] by at most one. *)
Theorem pool_bounds w : pool_reachable w ->
  let p := w_pool w in
  tally k_registered (w_calls w) <= pl_waiters p <= MaxWaiters (pl_options p) /\
  NoDup (map fst (w_replacers w)) /\
  forall ep e, pl_order p !! ep = Some e ->
    es_dialing e = tally (call_dials ep) (w_calls w) + tally (repl_dials ep) (w_replacers w) /\
    0 <= es_dialing e /\
    liveCount p e <= MaxConnectionsPerEndpoint (pl_options p) + 1.
Proof.
  intros Hr. destruct (pool_reachable_ok w Hr) as [_ [] Hw]. cbn. split; [done|]. split; [done|]. intros ep e He.
  rewrite (do_dialing0 _ _ He). split; [done|]. split; [|eauto].
  pose proof (tally_nonneg (call_dials ep) (w_calls w)). pose proof (tally_nonneg (repl_dials ep) (w_replacers w)). lia.
Qed.

Lemma countConnections p refs : forall result,
  let cs := List.filter (fun c => negb (pc_broken c)) (map (conn_of p) refs) in
  foldl (countConnection p) result refs =
    MkStats (ps_Connections result + len cs) (ps_InFlight result + foldr Z.add 0 (map pc_inFlight cs))
      (ps_Waiters result) (ps_Dialing result) (ps_Closing result) (ps_Endpoints result).
Proof.
  induction refs as [|ref refs IH]; intros []; cbn [foldl map List.filter foldr]; [rewrite len_nil; cbn; by rewrite !Z.add_0_r|].
  cbv zeta. rewrite IH. unfold countConnection. destruct (pc_broken (conn_of p ref)); cbn; [done|].
  rewrite len_cons. f_equal; lia.
Qed.

(** The totals in the log lines are those of [Stats]. *)
Theorem stats_locked_agrees p : statsLocked p =
  let s := Pool_Stats p in MkStats (ps_Connections s) (ps_InFlight s) (ps_Waiters s) (ps_Dialing s) (ps_Closing s) [].
Proof.
  unfold statsLocked, Pool_Stats. cbn zeta. cbn [ps_Connections ps_InFlight ps_Waiters ps_Dialing ps_Closing].
  assert (forall es a b d, foldl (countEndpoint p) (MkStats a b (pl_waiters p) d (pl_closing p) []) es =
    MkStats (a + foldr Z.add 0 (map st_Connections (map (endpointStats p) es)))
      (b + foldr Z.add 0 (map st_InFlight (map (endpointStats p) es))) (pl_waiters p)
      (d + foldr Z.add 0 (map es_dialing es)) (pl_closing p) []) as H; [|by rewrite H].
  induction es as [|e es IH]; intros a b d; cbn [foldl map foldr]; [f_equal; lia|].
  unfold countEndpoint at 2. rewrite countConnections. cbn. rewrite IH. unfold unbroken. f_equal; lia.
Qed.

(** Selection is least loaded and complete: in a reachable state the chosen
    connection belongs to the requested endpoints, is unbroken, not draining
    and not leased, has a free slot (all its slots, for a lease) and has the
    smallest load of the connections that qualify; and nothing is chosen only
    if no connection of these endpoints qualifies. *)
Theorem least_loaded_selection w exact lease : pool_reachable w ->
  let p := w_pool w in
  match fst (selectConnectionLocked p exact lease) with
  | None => forall r, r ∈ scope p exact -> admissible (pl_options p) lease (conn_of p r) = false
  | Some ref => ref ∈ scope p exact /\
      pc_broken (conn_of p ref) = false /\ pc_draining (conn_of p ref) = false /\ pc_leased (conn_of p ref) = false /\
      pc_inFlight (conn_of p ref) < MaxInFlightPerConnection (pl_options p) /\
      (lease = true -> pc_inFlight (conn_of p ref) = 0) /\
      forall r, r ∈ scope p exact -> admissible (pl_options p) lease (conn_of p r) = true ->
        pc_inFlight (conn_of p ref) <= pc_inFlight (conn_of p r)
  end.
Proof.
  intros Hr. destruct (pool_reachable_ok w Hr) as [[(_ & Ho & _) Hs _ _] _ _]. cbn.
  pose proof (select_spec (w_pool w) exact lease Hs Ho) as Hsel.
  destruct (selectConnectionLocked _ exact lease) as [[ref|] p']; cbn; [|by destruct Hsel].
  destruct Hsel as (_ & Hin & Ha & Hmin). apply admissible_bound in Ha as (? & ? & ? & ? & ?); [|done]. done.
Qed.

(** ** Sample schedules *)

Definition sampleEndpoint : Endpoint := MkEndpoint "a" (bs "ldap:389") [] TransportPlaintext.

(** One endpoint, at most [n] connections, one operation each and one waiter. *)
Definition samplePool (n : Z) : Pool :=
  match New [(sampleEndpoint, inl 5)] (MkOptions n 1 1 0 0 0 0 0 float_zero) with
  | inl p => p
  | inr _ => MkPool DefaultOptions true true 0 0 [] ∅ ∅
  end.

Lemma pool_sample_reachable n w : psteps (MkWorld (samplePool n) [] [] []) w ->
  New [(sampleEndpoint, inl 5)] (MkOptions n 1 1 0 0 0 0 0 float_zero) = inl (samplePool n) -> pool_reachable w.
Proof. intros Hs Hn. eexists _, _, _. split; [exact Hn|exact Hs]. Qed.

Lemma psteps_cons w w1 w2 : pstep w w1 -> psteps w1 w2 -> psteps w w2.
Proof.
  intros H. induction 1; [eapply psteps_step; [apply psteps_refl|done]|]. by eapply psteps_step.
Qed.

Ltac run_step := vm_compute; reflexivity.
Tactic Notation "take" uconstr(step) := eapply psteps_cons; [eapply step; try run_step |].

(** An operation holds the first connection; a lease call dials a second one,
    leases it and starts an operation. *)
Definition busyPool : Pool :=
  let p := snd (acquire_round None false false 10 (samplePool 2)) in
  let p := snd (acquire_round None true false 10 p) in
  let p := snd (afterDial 0%nat (DialOk 1%nat 11) 11 0 p) in
  let p := snd (acquire_round None true false 12 p) in
  snd (lease_round 0%nat "a" false false (with_leases {[ 0%nat := MkLease 1%nat false 0 ]} p)).
Definition busyWorld : World := MkWorld busyPool [TLease 0%nat; TPlain 0%nat] [] [].

Lemma sample_busy : pool_reachable busyWorld.
Proof.
  apply (pool_sample_reachable 2); [|run_step].
  take (ps_call _ _ _ _ (KAcquire None false) I).
  take (ps_round _ _ [] [] _ None false false 10 _ _ _ 0%nat).
  take (ps_call _ _ _ _ (KAcquire None true) I).
  take (ps_round _ _ [] [] _ None true false 10 _ _ _ 0%nat).
  take (ps_dialed _ _ [] [] _ None true false 0%nat (DialOk 1%nat 11) 11 0 None).
  take (ps_round _ _ [] [] _ None true false 12 _ _ _ 0%nat).
  take (ps_call _ _ _ _ (KLease 0%nat)); [eexists; run_step|].
  take (ps_leaseRound _ _ [] [] _ 0%nat "a" false false); [eexists; run_step|].
  vm_compute. apply psteps_refl.
Qed.

Lemma pool_capacity_witness : pool_reachable busyWorld /\
  TPlain 1%nat ∉ w_tokens busyWorld /\ pc_inFlight (conn_of busyPool 1%nat) = 1.
Proof.
  split; [exact sample_busy|]. destruct (pool_capacity busyWorld sample_busy) as (Hin & _ & Hex & _). split.
  - exact (proj1 (Hex 0%nat (MkLease 1%nat false 1) eq_refl eq_refl)).
  - rewrite (proj1 (Hin 1%nat (conn_of busyPool 1%nat) eq_refl)). reflexivity.
Defined.

(** A call and the replacing goroutine dial the same endpoint, which may have
    one connection. *)
Lemma sample_overshoot : exists w e, pool_reachable w /\ pl_order (w_pool w) !! 0%nat = Some e /\
  MaxConnectionsPerEndpoint (pl_options (w_pool w)) = 1 /\ es_dialing e = 0 /\ liveCount (w_pool w) e = 2.
Proof.
  eexists _, _. split.
  { apply (pool_sample_reachable 1); [|run_step].
    take (ps_broken _ _ _ _ 0%nat 0%nat).
    take (ps_startReplacement _ _ _ _ 0%nat); [eexists; run_step|].
    take (ps_call _ _ _ _ (KAcquire None false) I).
    take (ps_round _ _ [] [] _ None false false 10 _ _ _ 0%nat).
    take (ps_replaceRound _ _ _ [] [] 0%nat 10).
    take (ps_dialed _ _ [] [] _ None false false 0%nat (DialOk 1%nat 11) 11 0 None).
    take (ps_replaceDialed _ _ _ [] [] 0%nat (DialOk 2%nat 12) 12 0).
    apply psteps_refl. }
  split_and!; vm_compute; reflexivity.
Qed.

(** The first connection broke, and a goroutine replaces it. *)
Definition replacingWorld : World :=
  MkWorld (snd (startReplacement 0%nat (snd (connectionBroken 0%nat 0%nat (samplePool 1))))) [] [] [(0%nat, RLoop)].

Lemma sample_replacing : pool_reachable replacingWorld.
Proof.
  apply (pool_sample_reachable 1); [|run_step]. take (ps_broken _ _ _ _ 0%nat 0%nat).
  take (ps_startReplacement _ _ _ _ 0%nat); [eexists; run_step|]. vm_compute. apply psteps_refl.
Qed.

Lemma pool_bounds_witness : pool_reachable replacingWorld /\
  tally k_registered (w_calls replacingWorld) <= pl_waiters (w_pool replacingWorld)
    <= MaxWaiters (pl_options (w_pool replacingWorld)).
Proof. split; [exact sample_replacing|]. exact (proj1 (pool_bounds replacingWorld sample_replacing)). Defined.

Lemma least_loaded_selection_witness : pool_reachable busyWorld /\
  forall r, r ∈ scope busyPool None -> admissible (pl_options busyPool) false (conn_of busyPool r) = false.
Proof.
  split; [exact sample_busy|].
  assert (fst (selectConnectionLocked (w_pool busyWorld) None false) = None) as Hs by run_step.
  pose proof (least_loaded_selection busyWorld None false sample_busy) as H. cbv zeta in H. rewrite Hs in H. exact H.
Defined.

(** The bound on connections is not kept exactly: [replace] looks at live
    connections only, not at the dials in progress, so that a call and the
    replacing goroutine can both dial an endpoint whose last connection broke,
    and an endpoint limited to one connection ends up with two live ones. *)
Lemma connection_limit_exceeded : exists w e, pool_reachable w /\ pl_order (w_pool w) !! 0%nat = Some e /\
  es_dialing e = 0 /\ liveCount (w_pool w) e > MaxConnectionsPerEndpoint (pl_options (w_pool w)).
Proof.
  destruct sample_overshoot as (w & e & Hr & He & Hm & Hd & Hl). exists w, e. split; [done|]. split; [done|].
  split; [done|]. rewrite Hm, Hl. done.
Qed.

(** Waiters leak: [acquire] returns without leaving the waiter count when a
    dial that follows a wait fails for an exact endpoint. In this reachable
    state there is no call, no operation and no replacement left, the one place
    of the waiter queue is still taken, and a request that has to wait is
    refused. *)
Lemma waiter_leak : exists p, pool_reachable (MkWorld p [] [] []) /\
  MaxWaiters (pl_options p) = 1 /\ pl_waiters p = 1 /\
  fst (fst (acquire_round None false false 20 p)) = AcquireRefused (LimitError "pool waiters" 2 1).
Proof.
  eexists. split.
  { apply (pool_sample_reachable 1); [|run_step].
    take (ps_call _ _ _ _ (KAcquire None false) I).
    take (ps_round _ _ [] [] _ None false false 10 _ _ _ 0%nat).
    take (ps_call _ _ _ _ (KAcquire (Some 0%nat) false) I).
    take (ps_round _ _ [] [] _ (Some 0%nat) false false 10 _ _ _ 0%nat).
    take (ps_broken _ _ _ _ 0%nat 0%nat).
    take (ps_round _ _ [] [] _ (Some 0%nat) false true 10 _ _ _ 0%nat).
    take (ps_dialed _ _ [] [] _ (Some 0%nat) false true 0%nat (DialErr ErrTransport) 11 100000000 None).
    take (ps_release _ [] [] _ _ 0%nat 12).
    apply psteps_refl. }
  split_and!; vm_compute; reflexivity.
Qed.

(** C39. Two limits of the pool that its code does not keep. [replace] looks at live
    connections only, not at the dials in progress, so that a call and the
    replacing goroutine can both dial an endpoint whose last connection broke, and
    an endpoint limited to one connection ends up with two live ones. And [acquire]
    returns without leaving the waiter count when a dial that follows a wait fails
    for an exact endpoint: in a reachable state without any call, operation or
    replacement the one place of the waiter queue is still taken, and a request
    that has to wait is refused. *)
Theorem pool_limits_missed :
  (exists w e, pool_reachable w /\ pl_order (w_pool w) !! 0%nat = Some e /\
     es_dialing e = 0 /\ liveCount (w_pool w) e > MaxConnectionsPerEndpoint (pl_options (w_pool w))) /\
  (exists p, pool_reachable (MkWorld p [] [] []) /\ MaxWaiters (pl_options p) = 1 /\ pl_waiters p = 1 /\
     fst (fst (acquire_round None false false 20 p)) = AcquireRefused (LimitError "pool waiters" 2 1)).
Proof. split; [apply connection_limit_exceeded|apply waiter_leak]. Qed.
