(* ===== verification/PoolRun.v ===== *)
(** * The handlers of the pool

    Models the functions of src/pool/pool.go and src/pool/lease.go that run over
    several critical sections: [acquire], [Do], [Lease], [Lease.Do],
    [acquireOperation], the tracked streams, [dialEndpoint], [replace],
    [watchConnection], [maintain], [retireExpired] and [CloseContext]. Pool.v has
    the critical sections themselves.

    What a handler waits for or calls outside the pool (a context, a channel, a
    connection, a dial) is a variable of the section: a function on the state of
    the pool and of the world. Other goroutines run meanwhile, so these functions
    may change the pool too. A goroutine that a handler starts ([go], [wg.Go]) is
    such another goroutine; its body is a handler of its own. Clocks, jitter and
    [conn.Err()] are read while the lock is held, so they only see the world. *)

From S2P Require Import Prelude Wire Packet Types Errors Endpoint Protocol PoolOptions Pool.

Open Scope run_scope.

(** What [setupEndpoint] returns: a new connection with its profile. *)
Record SetupResult (P : Type) := MkSetupResult {
  sr_Conn : ConnRef;
  sr_Identity : Identity;
  sr_Profile : P;
  sr_Policy : ConnectionPolicy
}.
Arguments MkSetupResult {P}.
Arguments sr_Conn {P}.
Arguments sr_Identity {P}.
Arguments sr_Profile {P}.
Arguments sr_Policy {P}.

(** [acquire] waits for its context, the pool, a change or a timer; the others
    for some of these. *)
Inductive acquireWait := AcquireCanceled (err : cerror) | AcquireClosed | AcquireChanged.

(** A stream with the capacity it gives back: of a connection or of a lease. *)
Inductive holder := HeldConnection (ref : ConnRef) | HeldLease (l : LeaseRef).

(** A reference that no lease has: the address of a new one. *)
Definition newLease (p : Pool) : LeaseRef := S (list_max (map fst (map_to_list (pl_leases p)))).

(** A round of [acquire] for [Pool.Lease] that succeeds makes the lease: nothing
    happens in between. *)
Definition acquire_section (exact : option EpRef) (lease registered : bool) (now : Time) (p : Pool)
    : acquisition * bool * holder * Pool :=
  let '(res, registered, p) := acquire_round exact lease registered now p in
  match res with
  | Acquired ref =>
      if lease then
        let l := newLease p in
        (res, registered, HeldLease l, with_leases (<[l := MkLease ref false 0]> (pl_leases p)) p)
      else (res, registered, HeldConnection ref, p)
  | _ => (res, registered, HeldConnection 0%nat, p)
  end.

Section handlers.
Context {W P : Type}.
Abbreviation PW := (Pool * W)%type.

(** The ticker's interval in [maintain]; times are nanoseconds. *)
Definition maintainInterval (o : Options) : Z :=
  let interval := IdleLifetime o ÷ 4 in
  let lifetimeInterval := MaximumLifetime o ÷ 4 in
  let interval := if lifetimeInterval <? interval then lifetimeInterval else interval in
  let interval := if interval >? 1000000000 then 1000000000 else interval in
  if interval <? 1000000 then 1000000 else interval.

(** A critical section; one that reads the clock; one that reads the clock and
    the jittered delay. *)
Definition under {A} (f : Pool -> A * Pool) : ST PW A := fun '(p, w) => let '(x, p) := f p in (x, (p, w)).
Definition modify (f : Pool -> Pool) : ST PW unit := fun '(p, w) => (tt, (f p, w)).
Definition reads {A} (f : Pool -> A) : ST PW A := fun '(p, w) => (f p, (p, w)).

Variable clock : W -> Time.
Variable jitter : W -> Time.
Definition timed {A} (f : Time -> Pool -> A * Pool) : ST PW A :=
  fun '(p, w) => let '(x, p) := f (clock w) p in (x, (p, w)).

Variable ctxErr : ST PW (option cerror).
Variable awaitAcquire : Time -> ST PW acquireWait.
Variable awaitLease : ST PW acquireWait.
(** The timer, or [false]: the pool is closing. *)
Variable awaitReplace : ST PW bool.
Variable awaitDone : ConnRef -> ST PW unit.
Variable awaitTick : Z -> ST PW (option Time).
(** A change, or the context's error. *)
Variable awaitDrain : ST PW (option cerror).
(** [closeMu] and [wg.Wait]. *)
Variable awaitCloseMu awaitGroup : ST PW unit.
(** [go p.replace(endpoint)]: it runs [replace] below. *)
Variable spawnReplace : EpRef -> ST PW unit.

(** The connections: [setupEndpoint], [Close], [CloseContext], [Err] and [Do];
    a stream tells whether it has a life cycle. *)
Variable setupEndpoint : EpRef -> ST PW (SetupResult P + cerror).
Variable closeConn : ConnRef -> ST PW unit.
Variable closeConnContext : ConnRef -> ST PW (option cerror).
Variable connErr : ConnRef -> W -> bool.
Variable connDo : ConnRef -> UntypedOperation -> ST PW (bool + cerror).

(** The frozen set-up of an endpoint and its validator; [reflect.DeepEqual]. *)
Variable frozen : EpRef -> Identity * P * ConnectionPolicy.
Variable ValidateProfile : EpRef -> option (P -> P -> option cerror).
Variable deepEqual : P -> P -> bool.

Definition endpointID (ep : EpRef) (p : Pool) : EndpointID := default ""%string (es_id <$> pl_order p !! ep).

(** *** Dialing *)

Definition dialEndpoint (ep : EpRef) : ST PW dialOutcome :=
  let* r := setupEndpoint ep in
  match r with
  | inr err => sret (DialErr err)
  | inl result =>
      let* id := reads (endpointID ep) in
      let '(identity, profile, policy) := frozen ep in
      match checkProfile deepEqual (ValidateProfile ep) id identity (sr_Identity result) policy (sr_Policy result)
              profile (sr_Profile result) with
      | Some err => closeConn (sr_Conn result) ;; sret (DialErr err)
      | None => fun '(p, w) => (DialOk (sr_Conn result) (clock w), (p, w))
      end
  end.

(** The section after a dial; a connection that came too late is closed. *)
Definition finishDial (ep : EpRef) (outcome : dialOutcome) : ST PW dialResult :=
  fun '(p, w) => let '(r, p) := afterDial ep outcome (clock w) (jitter w) p in (r, (p, w)).
Definition discard (outcome : dialOutcome) : ST PW unit :=
  match outcome with DialOk ref _ => closeConn ref | DialErr _ => sret tt end.

Definition runStartReplacement (ep : EpRef) : ST PW unit :=
  let* started := under (startReplacement ep) in
  if started then spawnReplace ep else sret tt.

(** [None]: still at it after [fuel] rounds. *)
Fixpoint replace_loop (fuel : nat) (ep : EpRef) : ST PW (option unit) :=
  match fuel with
  | O => sret None
  | S fuel =>
      let* a := timed (fun now => replace_round ep now) in
      match a with
      | ReplaceExit => sret (Some tt)
      | ReplaceDial =>
          let* outcome := dialEndpoint ep in
          let* res := finishDial ep outcome in
          match res with
          | DialAdded => sret (Some tt)
          | DialDiscarded => discard outcome ;; sret (Some tt)
          | DialFailed _ => replace_loop fuel ep
          end
      | ReplaceWait =>
          let* expired := awaitReplace in
          if expired then replace_loop fuel ep else sret (Some tt)
      end
  end.

Definition replace (fuel : nat) (ep : EpRef) : ST PW (option unit) :=
  let* r := replace_loop fuel ep in
  match r with
  | None => sret None
  | Some _ => modify (replace_exit ep) ;; sret (Some tt)
  end.

Definition watchConnection (ep : EpRef) (ref : ConnRef) : ST PW unit :=
  awaitDone ref ;;
  let* again := under (connectionBroken ep ref) in
  if again then runStartReplacement ep else sret tt.

(** *** Acquisition *)

Definition unregister (exact : option EpRef) (registered : bool) : ST PW unit :=
  modify (fun p => snd (unregisterWaiterLocked exact registered p)).

(** [None]: still waiting after [fuel] rounds. *)
Fixpoint acquire_loop (fuel : nat) (exact : option EpRef) (lease registered : bool) : ST PW (option (holder + cerror)) :=
  match fuel with
  | O => sret None
  | S fuel =>
      let* r := timed (fun now => acquire_section exact lease registered now) in
      let '(res, registered, held) := r in
      match res with
      | Acquired _ => sret (Some (inl held))
      | AcquireRefused err => sret (Some (inr err))
      | DialFirst ep =>
          let* outcome := dialEndpoint ep in
          let* res := finishDial ep outcome in
          match res with
          | DialAdded => acquire_loop fuel exact lease registered
          | DialDiscarded => discard outcome ;; sret (Some (inr ErrClosed))
          | DialFailed err =>
              runStartReplacement ep ;;
              let* canceled := ctxErr in
              let* next := reads (fun p => acquire_afterDial p exact res canceled) in
              match next with
              | Some err => sret (Some (inr err))
              | None => acquire_loop fuel exact lease registered
              end
          end
      | AcquireWait waitUntil =>
          let* wait := awaitAcquire waitUntil in
          match wait with
          | AcquireCanceled err => unregister exact registered ;; sret (Some (inr err))
          | AcquireClosed => unregister exact registered ;; sret (Some (inr ErrClosed))
          | AcquireChanged => acquire_loop fuel exact lease registered
          end
      end
  end.

Definition acquire (fuel : nat) (selection : Selection) (lease : bool) : ST PW (option (holder + cerror)) :=
  let* r := reads (acquire_enter selection) in
  match r with
  | inr err => sret (Some (inr err))
  | inl exact => acquire_loop fuel exact lease false
  end.

(** *** Operations *)

(** [releaseOperation] and [releaseLeaseOperation], as a stream's release. *)
Definition releaseHeld (held : holder) : ST PW unit :=
  match held with
  | HeldConnection ref => timed (fun now p => (tt, releaseOperation ref now p))
  | HeldLease l => timed (fun now p => (tt, releaseLeaseOperation l now p))
  end.

(** A connection, or the one of a lease. *)
Definition heldConn (held : holder) (p : Pool) : ConnRef :=
  match held with HeldConnection ref => ref | HeldLease l => l_connection (lease_of p l) end.

(** The connection's [Do], and the stream it is tracked by. An operation that
    could not be started gives its capacity back. *)
Definition startOperation (held : holder) (routed : option EndpointID) (op : UntypedOperation)
    : ST PW ((trackedStream * holder) + cerror) :=
  let* ref := reads (heldConn held) in
  let* r := connDo ref op in
  match r with
  | inr err => releaseHeld held ;; sret (inr (routedError routed err))
  | inl lifecycle => sret (inl (trackStream lifecycle (default ""%string routed), held))
  end.

Definition Pool_Do (fuel : nat) (selection : Selection) (op : UntypedOperation)
    : ST PW (option ((trackedStream * holder) + cerror)) :=
  match UntypedOperation_Validate op with
  | Some err => sret (Some (inr (Plain err)))
  | None =>
      let* r := acquire fuel selection false in
      match r with
      | None => sret None
      | Some (inr err) => sret (Some (inr err))
      | Some (inl held) => let* s := startOperation held (Selection_EndpointID selection) op in sret (Some s)
      end
  end.

Definition Pool_Lease (fuel : nat) (selection : Selection) : ST PW (option (LeaseRef + cerror)) :=
  let* r := acquire fuel selection true in
  match r with
  | None => sret None
  | Some (inr err) => sret (Some (inr err))
  | Some (inl (HeldLease l)) => sret (Some (inl l))
  | Some (inl (HeldConnection _)) => sret None
  end.

(** [l.Endpoint().ID]: a lease stays with the connection it was made for, and the
    endpoint of a connection does not change. *)
Variable leaseEndpoint : LeaseRef -> EndpointID.

Definition lease_section (l : LeaseRef) (registered : bool) : ST PW (leaseAcquisition * bool) :=
  fun '(p, w) =>
  let '(r, p) := lease_round l (leaseEndpoint l) (connErr (l_connection (lease_of p l)) w) registered p in (r, (p, w)).

Fixpoint acquireOperation (fuel : nat) (l : LeaseRef) (registered : bool) : ST PW (option (option cerror)) :=
  match fuel with
  | O => sret None
  | S fuel =>
      let* r := lease_section l registered in
      let '(res, registered) := r in
      match res with
      | LeaseAcquired => sret (Some None)
      | LeaseRefused err => sret (Some (Some err))
      | LeaseWait =>
          let* wait := awaitLease in
          match wait with
          | AcquireCanceled err => unregister None registered ;; sret (Some (Some err))
          | AcquireClosed => unregister None registered ;; sret (Some (Some ErrClosed))
          | AcquireChanged => acquireOperation fuel l registered
          end
      end
  end.

Definition Lease_Do (fuel : nat) (l : LeaseRef) (op : UntypedOperation)
    : ST PW (option ((trackedStream * holder) + cerror)) :=
  match UntypedOperation_Validate op with
  | Some err => sret (Some (inr (Plain err)))
  | None =>
      let* r := acquireOperation fuel l false in
      match r with
      | None => sret None
      | Some (Some err) => sret (Some (inr err))
      | Some None => let* s := startOperation (HeldLease l) (Some (leaseEndpoint l)) op in sret (Some s)
      end
  end.

Definition runLeaseClose (l : LeaseRef) : ST PW unit := timed (fun now p => (tt, Lease_Close l now p)).

(** *** Streams *)

(** What is called on a stream: [Next] and [Close] by its user, with what the
    wrapped stream does, and the end of the operation's life cycle. *)
Inductive streamCall := StreamNext | StreamClose | StreamDone.
Variable innerNext : ST PW nextResult.
Variable innerClose : ST PW unit.

Definition releaseWhen (run : bool) (held : holder) : ST PW unit := if run then releaseHeld held else sret tt.

Definition runStream (held : holder) (k : streamCall) (s : trackedStream) : ST PW trackedStream :=
  match k with
  | StreamNext =>
      let* r := innerNext in
      let '(_, run, s) := tracked_Next r s in releaseWhen run held ;; sret s
  | StreamClose =>
      innerClose ;;
      let '(run, s) := tracked_Close s in releaseWhen run held ;; sret s
  | StreamDone => let '(run, s) := tracked_Done s in releaseWhen run held ;; sret s
  end.

(** Any calls on one stream, one after the other. *)
Fixpoint runStreams (held : holder) (ks : list streamCall) (s : trackedStream) : ST PW trackedStream :=
  match ks with
  | [] => sret s
  | k :: ks => let* s := runStream held k s in runStreams held ks s
  end.

(** *** Maintenance *)

Fixpoint closeEach (refs : list ConnRef) : ST PW unit :=
  match refs with
  | [] => sret tt
  | ref :: refs => closeConn ref ;; closeEach refs
  end.
Fixpoint replaceEach (eps : list EpRef) : ST PW unit :=
  match eps with
  | [] => sret tt
  | ep :: eps => runStartReplacement ep ;; replaceEach eps
  end.

Definition runRetireExpired (now : Time) : ST PW unit :=
  let* r := under (retireExpired now) in
  let '(close, eps) := r in
  closeEach close ;; replaceEach eps.

Fixpoint maintain_loop (fuel : nat) (interval : Z) : ST PW (option unit) :=
  match fuel with
  | O => sret None
  | S fuel =>
      let* tick := awaitTick interval in
      match tick with
      | None => sret (Some tt)
      | Some now => runRetireExpired now ;; maintain_loop fuel interval
      end
  end.

Definition maintain (fuel : nat) : ST PW (option unit) :=
  let* interval := reads (fun p => maintainInterval (pl_options p)) in maintain_loop fuel interval.

(** *** Shutdown *)

(** [None]: still draining after [fuel] rounds; else the error of the wait. *)
Fixpoint drain (fuel : nat) : ST PW (option (option cerror)) :=
  match fuel with
  | O => sret None
  | S fuel =>
      let* active := reads activeCount in
      if active =? 0 then sret (Some None)
      else
        let* canceled := awaitDrain in
        match canceled with
        | Some err => sret (Some (Some err))
        | None => drain fuel
        end
  end.

Fixpoint closeAllContext (refs : list ConnRef) (drainErr : option cerror) : ST PW (option cerror) :=
  match refs with
  | [] => sret drainErr
  | ref :: refs =>
      let* err := closeConnContext ref in
      closeAllContext refs (match err, drainErr with Some err, None => Some err | _, _ => drainErr end)
  end.

Definition Pool_CloseContext (fuel : nat) : ST PW (option (option cerror)) :=
  awaitCloseMu ;;
  let* closed := under close_begin in
  if closed then sret (Some None)
  else
    let* drained := drain fuel in
    match drained with
    | None => sret None
    | Some drainErr =>
        let* refs := under close_all in
        let* drainErr := closeAllContext refs drainErr in
        awaitGroup ;;
        modify close_end ;;
        sret (Some drainErr)
    end.
End handlers.

(** ** Construction *)

Section construction.
Context {W : Type}.
(** [setupEndpoint] for the first connection of an endpoint, with the time it is
    made; and [Close] of a connection. Connection [i] is the one of endpoint [i]. *)
Variable setupNew : Endpoint -> ST W (Time + cerror).
Variable closeNew : ConnRef -> ST W unit.

Fixpoint closeNewEach (refs : list ConnRef) : ST W unit :=
  match refs with
  | [] => sret tt
  | ref :: refs => closeNew ref ;; closeNewEach refs
  end.
Definition closeConstructed (p : Pool) : ST W unit := closeNewEach (concat (map es_connections (pl_order p))).

Definition abandonNew (p : Pool) (err : cerror) : ST W (Pool + cerror) := closeConstructed p ;; sret (inr err).

Fixpoint runNew_loop (endpoints : list Endpoint) (p : Pool) : ST W (Pool + cerror) :=
  match endpoints with
  | [] => sret (inl p)
  | config :: endpoints =>
      match Endpoint_Validate config with
      | Some err => abandonNew p (Plain err)
      | None =>
          if existsb (fun e => bool_decide (es_id e = ep_ID config)) (pl_order p)
          then abandonNew p (Plain (ErrorString "pool: duplicate endpoint ID"))
          else
            let* setup := setupNew config in
            match setup with
            | inr err => abandonNew p (RouteError (ep_ID config) err)
            | inl now =>
                let ref := length (pl_order p) in
                let state := MkEndpointState config [ref] 0 0 0 0 zeroTime false in
                runNew_loop endpoints
                  (with_order (pl_order p ++ [state]) (with_conns (<[ref := newConnection now]> (pl_conns p)) p))
            end
      end
  end.

Definition runNew (endpoints : list Endpoint) (options : Options) : ST W (Pool + cerror) :=
  if len endpoints =? 0 then sret (inr (Plain (ErrorString "pool: no endpoints configured")))
  else
    match Options_normalized options with
    | Err err => sret (inr (Plain err))
    | Ok options => runNew_loop endpoints (MkPool options false false 0 0 [] ∅ ∅)
    end.
End construction.
