(* ===== verification/PoolRefine.v ===== *)
(** * The handlers refine the steps of the pool

    The handlers of PoolRun.v do nothing to a pool but run its critical sections
    as the interleavings of PoolSafety.v allow: if what other goroutines do while
    a handler waits are steps that leave alone what the handler holds, then the
    whole handler is a sequence of steps, and leaves alone what the others hold.
    What a handler and the others hold - capacity, calls in progress, a replacing
    goroutine's mark - is together exactly what there is, so a handler that ends
    with nothing more than it began with has given everything back. *)

From S2P Require Import Prelude Wire Packet Types Errors Endpoint Protocol PoolOptions Pool PoolSafety PoolRun.

Open Scope run_scope.

(** ** What steps keep *)

Lemma psteps_trans w w1 w2 : psteps w w1 -> psteps w1 w2 -> psteps w w2.
Proof. intros H1. induction 1; [done|]. by eapply psteps_step. Qed.

Lemma psteps_one w w' : pstep w w' -> psteps w w'.
Proof. intros H. eapply psteps_step; [apply psteps_refl|done]. Qed.

Lemma reachable_psteps w w' : pool_reachable w -> psteps w w' -> pool_reachable w'.
Proof. intros (es & o & p & Hn & Hs) H. exists es, o, p. split; [done|]. by eapply psteps_trans. Qed.

(** The endpoints stay, leases stay, and closing is for good; only the end of a
    shutdown marks the pool closed. *)
Record pool_keeps (p p' : Pool) : Prop := {
  pk_order : length (pl_order p') = length (pl_order p);
  pk_leases : forall l, is_Some (pl_leases p !! l) -> is_Some (pl_leases p' !! l);
  pk_closing : pl_closing p = true -> pl_closing p' = true;
  pk_closed : pl_closed p' = pl_closed p
}.

(** What all steps keep. *)
Record pool_grows (p p' : Pool) : Prop := {
  pg_order : length (pl_order p') = length (pl_order p);
  pg_leases : forall l, is_Some (pl_leases p !! l) -> is_Some (pl_leases p' !! l);
  pg_closing : pl_closing p = true -> pl_closing p' = true;
  pg_closed : pl_closed p = true -> pl_closed p' = true
}.

#[export] Instance pool_grows_preorder : PreOrder pool_grows.
Proof. split; [by split|]. intros p q r [] []. split; [congruence|auto..]. Qed.

#[export] Instance pool_keeps_preorder : PreOrder pool_keeps.
Proof. split; [by split|]. intros p q r [] []. split; [congruence|auto..|congruence]. Qed.

Lemma keeps_endpoint ep f p : pool_keeps p (update_endpoint ep f p).
Proof. split; try done. cbn. apply length_alter. Qed.

Lemma keeps_conn ref f p : pool_keeps p (update_conn ref f p).
Proof. by split. Qed.

Lemma keeps_lease l f p : pool_keeps p (update_lease l f p).
Proof. split; try done. intros k Hk. by apply alter_some. Qed.

Lemma keeps_newLease l L p : pool_keeps p (with_leases (<[l := L]> (pl_leases p)) p).
Proof. split; try done. intros k Hk. cbn. destruct (decide (k = l)) as [->|]; [by rewrite lookup_insert_eq|by rewrite lookup_insert_ne]. Qed.

Create HintDb pool_keep.
#[export] Hint Resolve keeps_endpoint keeps_conn keeps_lease keeps_newLease : pool_keep.
#[export] Hint Extern 0 (pool_keeps ?p ?p) => reflexivity : pool_keep.

Lemma keeps_unregister exact registered p : pool_keeps p (snd (unregisterWaiterLocked exact registered p)).
Proof. unfold unregisterWaiterLocked. destruct registered, exact; cbn; try done; by etrans; [|apply keeps_endpoint]. Qed.

Lemma keeps_remove ep target p : pool_keeps p (removeConnectionIfUnusedLocked ep target p).
Proof. unfold removeConnectionIfUnusedLocked. case_match; auto with pool_keep. Qed.

Lemma keeps_removeAll target l : forall p, pool_keeps p (foldl (fun p ep => removeConnectionIfUnusedLocked ep target p) p l).
Proof. induction l as [|ep l IH]; intros p; [done|]. cbn. etrans; [apply keeps_remove|apply IH]. Qed.

Lemma keeps_removeEverywhere target p : pool_keeps p (removeEverywhere target p).
Proof. apply keeps_removeAll. Qed.

Lemma keeps_pick {A} p (cs : list A) : pool_keeps p (snd (pick p cs)).
Proof. unfold pick. by case_match. Qed.

Lemma keeps_select p exact lease : pool_keeps p (snd (selectConnectionLocked p exact lease)).
Proof. apply keeps_pick. Qed.

Lemma keeps_selectDial p exact now : pool_keeps p (snd (selectDialEndpointLocked p exact now)).
Proof.
  unfold selectDialEndpointLocked. destruct (dial_loop _ _ _ _ _ _) as [cs t].
  pose proof (keeps_pick p cs). by destruct (pick p cs) as [[ep|] p'].
Qed.

Lemma keeps_round exact lease registered now p : pool_keeps p (snd (acquire_round exact lease registered now p)).
Proof.
  unfold acquire_round. destruct (pl_closing p).
  { pose proof (keeps_unregister exact registered p). by destruct (unregisterWaiterLocked _ _ _). }
  pose proof (keeps_select p exact lease) as Hs. destruct (selectConnectionLocked p exact lease) as [[ref|] p1]; cbn [snd] in Hs.
  { set (p2 := update_conn _ _ _). pose proof (keeps_unregister exact registered p2) as Hu.
    destruct (unregisterWaiterLocked _ _ _). cbn [snd] in *. etrans; [done|]. by etrans; [apply keeps_conn|]. }
  pose proof (keeps_selectDial p1 exact now) as Hd. destruct (selectDialEndpointLocked p1 exact now) as [[[ep|] t] p2]; cbn [snd] in Hd.
  - etrans; [done|]. etrans; [done|]. apply keeps_endpoint.
  - destruct registered; cbn [snd]; [by etrans|]. case_match; cbn [snd]; [by etrans|].
    etrans; [done|]. etrans; [done|]. destruct exact; [|done]. by etrans; [|apply keeps_endpoint].
Qed.

Lemma keeps_leaseRound l endpoint failed registered p : pool_keeps p (snd (lease_round l endpoint failed registered p)).
Proof.
  unfold lease_round. case_match; [|case_match; [|case_match]].
  1, 2: pose proof (keeps_unregister None registered p); by destruct (unregisterWaiterLocked _ _ _).
  - set (p1 := update_conn _ _ _). pose proof (keeps_unregister None registered p1) as Hu.
    destruct (unregisterWaiterLocked _ _ _). cbn [snd] in *. etrans; [|done]. etrans; [apply keeps_lease|apply keeps_conn].
  - destruct registered; [done|]. by case_match.
Qed.

Lemma keeps_release ref now p : pool_keeps p (releaseOperation ref now p).
Proof. etrans; [apply keeps_conn|apply keeps_removeEverywhere]. Qed.

Lemma keeps_leaseRelease l now p : pool_keeps p (releaseLeaseOperation l now p).
Proof. unfold releaseLeaseOperation. etrans; [|apply keeps_removeEverywhere]. etrans; [apply keeps_lease|apply keeps_conn]. Qed.

Lemma keeps_leaseClose l now p : pool_keeps p (Lease_Close l now p).
Proof.
  unfold Lease_Close. case_match; [done|]. etrans; [|apply keeps_removeEverywhere]. case_match; [|apply keeps_lease].
  etrans; [apply keeps_lease|apply keeps_conn].
Qed.

Lemma keeps_afterDial ep outcome now delay p : pool_keeps p (snd (afterDial ep outcome now delay p)).
Proof.
  unfold afterDial. destruct outcome; [case_match|]; cbn [snd]; try apply keeps_endpoint.
  - unfold addConnection. etrans; [apply keeps_endpoint|]. etrans; [|apply keeps_endpoint]. by split.
  - unfold recordDialFailureLocked. etrans; apply keeps_endpoint.
Qed.

Lemma keeps_broken ep ref p : pool_keeps p (snd (connectionBroken ep ref p)).
Proof. unfold connectionBroken. cbn [snd]. etrans; [apply keeps_conn|apply keeps_remove]. Qed.

Lemma keeps_startReplacement ep p : pool_keeps p (snd (startReplacement ep p)).
Proof. unfold startReplacement. case_match; [done|apply keeps_endpoint]. Qed.

Lemma keeps_replaceRound ep now p : pool_keeps p (snd (replace_round ep now p)).
Proof. unfold replace_round. case_match; [done|]. case_match; [apply keeps_endpoint|done]. Qed.

Lemma keeps_expire now p : pool_keeps p (snd (retireExpired now p)).
Proof. unfold retireExpired. case_match; [done|]. by destruct (retireExpired_loop _ _ _ _ _ _) as [[? ?] ?]. Qed.

Lemma keeps_closeAll p : pool_keeps p (snd (close_all p)).
Proof.
  unfold close_all. cbn [snd]. generalize (concat (map es_connections (pl_order p))). intros l. revert p.
  induction l as [|ref l IH]; intros p; [done|]. cbn. etrans; [apply keeps_conn|apply IH].
Qed.

#[export] Hint Resolve keeps_unregister keeps_round keeps_leaseRound keeps_release keeps_leaseRelease keeps_leaseClose
  keeps_afterDial keeps_broken keeps_startReplacement keeps_replaceRound keeps_expire keeps_closeAll : pool_keep.

Lemma keeps_of {A} p (r : A * Pool) x p' : r = (x, p') -> pool_keeps p (snd r) -> pool_keeps p p'.
Proof. by intros ->. Qed.

Lemma pstep_keeps w w' : pstep w w' ->
  pool_keeps (w_pool w) (w_pool w') \/ pl_closing (w_pool w) = true /\ w_pool w' = close_end (w_pool w).
Proof.
  destruct 1; cbn [w_pool]; try (left; solve [eauto using keeps_of with pool_keep]).
  - left. apply (keeps_of p) in H; [|auto with pool_keep]. etrans; [done|]. unfold after_round.
    destruct res; try done. destruct lease; [apply keeps_newLease|done].
  - left. apply (keeps_of p) in H; [|auto with pool_keep]. etrans; [done|]. by destruct res.
  - left. unfold close_begin. case_match; by split.
  - by right.
Qed.

Lemma psteps_grow w w' : psteps w w' -> pool_grows (w_pool w) (w_pool w').
Proof.
  induction 1 as [|w1 w2 _ IH H]; [done|]. etrans; [done|]. apply pstep_keeps in H as [[]|[_ ->]]; split; try done. congruence.
Qed.

Lemma New_loop_open endpoints : forall p p', New_loop endpoints p = inl p' -> pl_closed p' = pl_closed p.
Proof.
  induction endpoints as [|[config [now|err]] endpoints IH]; intros p p' H; cbn [New_loop] in H; [congruence|..].
  all: destruct (Endpoint_Validate config); [done|]; destruct (existsb _ _); try done. by apply IH in H.
Qed.

(** A closed pool is closing. *)
Lemma closed_closing w : pool_reachable w -> pl_closed (w_pool w) = true -> pl_closing (w_pool w) = true.
Proof.
  intros (es & o & p & Hn & Hs). induction Hs as [|w1 w2 _ IH H].
  - cbn. unfold New in Hn. destruct (len es =? 0); [done|]. destruct (Options_normalized o); [|done].
    apply New_loop_open in Hn as ->. done.
  - apply pstep_keeps in H as [[]|[? ->]]; [|done]. intros H. apply pk_closing0, IH. congruence.
Qed.

(** ** Ownership *)

Record local := MkLocal { lo_tokens : list token; lo_calls : list call; lo_replacers : list (EpRef * rphase) }.
Definition holding (t : token) (r : local) : local := MkLocal (t :: lo_tokens r) (lo_calls r) (lo_replacers r).
Definition calling (k : call) (r : local) : local := MkLocal (lo_tokens r) (k :: lo_calls r) (lo_replacers r).
Definition replaces (ep : EpRef) (ph : rphase) (r : local) : local :=
  MkLocal (lo_tokens r) (lo_calls r) ((ep, ph) :: lo_replacers r).

(** An element that is there has a place; the others are the rest. *)
Lemma perm_split {A} (x : A) l k : x :: l ≡ₚ k -> exists k1 k2, k = k1 ++ x :: k2 /\ l ≡ₚ k1 ++ k2.
Proof.
  intros H. assert (x ∈ k) as Hx by (rewrite <- H; set_solver).
  apply list_elem_of_split in Hx as (k1 & k2 & ->). exists k1, k2. split; [done|].
  rewrite <- Permutation_middle in H. by apply Permutation_cons_inv in H.
Qed.

Section triples.
Context {W : Type}.
(** What the other goroutines hold. *)
Variable others : W -> local.

(** A goroutine that holds [r], and the others: together they hold exactly the
    capacity in use, the calls in progress and the marks of replacing goroutines. *)
Definition owns (r : local) (w : World) (e : W) : Prop :=
  lo_tokens r ++ lo_tokens (others e) ≡ₚ w_tokens w /\ lo_calls r ++ lo_calls (others e) ≡ₚ w_calls w /\
  lo_replacers r ++ lo_replacers (others e) ≡ₚ w_replacers w.

(** From every reachable world with the property [Pre] the computation takes
    steps to one with the property [Post]. *)
Definition runs {A} (Pre : World -> W -> Prop) (m : ST (Pool * W) A) (Post : A -> World -> W -> Prop) : Prop :=
  forall w e, pool_reachable w -> Pre w e ->
  exists w', psteps w w' /\ w_pool w' = (snd (m (w_pool w, e))).1 /\ Post (fst (m (w_pool w, e))) w' (snd (m (w_pool w, e))).2.

(** Others run, and leave alone what is owned. *)
Definition yields {A} (m : ST (Pool * W) A) : Prop := forall r, runs (owns r) m (fun _ => owns r).

Lemma runs_ret {A} (Pre : World -> W -> Prop) (x : A) (Post : A -> World -> W -> Prop) :
  (forall w e, Pre w e -> Post x w e) -> runs Pre (sret x) Post.
Proof. intros H w e _ Hp. exists w. split; [apply psteps_refl|]. auto. Qed.

Lemma runs_bind {A B} Pre (m : ST (Pool * W) A) Mid (k : A -> ST (Pool * W) B) Post :
  runs Pre m Mid -> (forall x, runs (Mid x) (k x) Post) -> runs Pre (sbind m k) Post.
Proof.
  intros Hm Hk w e Hr Hp. destruct (Hm w e Hr Hp) as (w1 & Hs1 & Hw1 & Hp1). unfold sbind.
  destruct (m (w_pool w, e)) as [x [p1 e1]]. cbn in Hw1, Hp1. subst p1.
  destruct (Hk x w1 e1) as (w2 & Hs2 & Hw2 & Hp2); [by eapply reachable_psteps|done|].
  exists w2. split; [by eapply psteps_trans|]. done.
Qed.

Lemma runs_pre {A} (Pre Pre' : World -> W -> Prop) (m : ST (Pool * W) A) Post :
  (forall w e, Pre w e -> Pre' w e) -> runs Pre' m Post -> runs Pre m Post.
Proof. intros H Hm w e Hr Hp. apply Hm; auto. Qed.

Lemma runs_post {A} Pre (m : ST (Pool * W) A) (Post Post' : A -> World -> W -> Prop) :
  (forall x w e, Post x w e -> Post' x w e) -> runs Pre m Post -> runs Pre m Post'.
Proof. intros H Hm w e Hr Hp. destruct (Hm w e Hr Hp) as (w' & ? & ? & ?). exists w'. auto. Qed.

(** A property that all steps keep. *)
Definition stable_pool (I : Pool -> Prop) : Prop := forall p p', pool_grows p p' -> I p -> I p'.

Lemma runs_stable {A} (I : Pool -> Prop) Pre (m : ST (Pool * W) A) Post : stable_pool I -> runs Pre m Post ->
  runs (fun w e => I (w_pool w) /\ Pre w e) m (fun x w e => I (w_pool w) /\ Post x w e).
Proof.
  intros HI Hm w e Hr [Hi Hp]. destruct (Hm w e Hr Hp) as (w' & Hs & Hw & Hq). exists w'. split; [done|]. split; [done|].
  split; [|done]. eapply HI; [by apply psteps_grow|done].
Qed.

(** One section as one step. *)
Lemma runs_step {A} Pre (m : ST (Pool * W) A) (Post : A -> World -> W -> Prop) :
  (forall w e, pool_reachable w -> Pre w e -> exists w', pstep w w' /\ w_pool w' = (snd (m (w_pool w, e))).1 /\
     Post (fst (m (w_pool w, e))) w' (snd (m (w_pool w, e))).2) -> runs Pre m Post.
Proof. intros H w e Hr Hp. destruct (H w e Hr Hp) as (w' & Hs & Hw). exists w'. split; [by apply psteps_one|done]. Qed.

Lemma runs_reads {A} Pre (f : Pool -> A) (Post : A -> World -> W -> Prop) :
  (forall w e, pool_reachable w -> Pre w e -> Post (f (w_pool w)) w e) -> runs Pre (reads f : ST (Pool * W) A) Post.
Proof. intros H w e Hr Hp. exists w. split; [apply psteps_refl|]. split; [done|]. by apply H. Qed.
End triples.

(** ** The sections *)

Lemma newLease_fresh p : pl_leases p !! newLease p = None.
Proof.
  destruct (pl_leases p !! newLease p) as [L|] eqn:E; [|done]. exfalso.
  apply elem_of_map_to_list in E. assert (newLease p ∈ map fst (map_to_list (pl_leases p))) as Hin.
  { apply list_elem_of_fmap. by eexists (_, L). }
  pose proof (proj1 (list_max_le (map fst (map_to_list (pl_leases p))) _) (le_n _)) as Hall.
  rewrite List.Forall_forall in Hall. apply list_elem_of_In, Hall in Hin. unfold newLease in Hin at 1. lia.
Qed.

Section sections.
Context {W : Type}.
Variable others : W -> local.
Abbreviation owns := (owns others).
Abbreviation runs := (runs (W := W)).
Variable clock jitter : W -> Time.
Abbreviation PW := (Pool * W)%type.

Definition valid_ep (ep : EpRef) (p : Pool) : Prop := (ep < length (pl_order p))%nat.
Lemma valid_stable ep : stable_pool (valid_ep ep).
Proof. intros p p' [] H. unfold valid_ep in *. by rewrite pg_order0. Qed.
Lemma valid_lookup ep p : valid_ep ep p -> is_Some (pl_order p !! ep).
Proof. apply lookup_lt_is_Some_2. Qed.

Definition has_lease (l : LeaseRef) (p : Pool) : Prop := is_Some (pl_leases p !! l).
Lemma has_lease_stable l : stable_pool (has_lease l).
Proof. intros p p' [] H. by apply pg_leases0. Qed.

(** What an acquired capacity is. *)
Definition held_by (held : holder) (r : local) (w : World) (e : W) : Prop :=
  match held with
  | HeldConnection ref => owns (holding (TPlain ref) r) w e
  | HeldLease l => has_lease l (w_pool w) /\ owns r w e
  end.

Definition round_post (exact : option EpRef) (lease : bool) (r : local) (x : acquisition * bool * holder) (w : World) (e : W) : Prop :=
  let '(res, registered, held) := x in
  match res with
  | Acquired _ => held_by held r w e /\ match held with HeldLease _ => lease = true | HeldConnection _ => lease = false end
  | DialFirst ep => valid_ep ep (w_pool w) /\ owns (calling (MkCall (KAcquire exact lease) registered (Some ep)) r) w e
  | AcquireRefused _ => owns r w e
  | AcquireWait _ => owns (calling (MkCall (KAcquire exact lease) registered None) r) w e
  end.

(** A call begins without changing the pool. *)
Lemma runs_call {A} kind r (m : ST PW A) Post (I : Pool -> Prop) :
  match kind with KLease l => forall p, I p -> has_lease l p | KAcquire _ _ => True end ->
  runs (fun w e => I (w_pool w) /\ owns (calling (MkCall kind false None) r) w e) m Post ->
  runs (fun w e => I (w_pool w) /\ owns r w e) m Post.
Proof.
  intros Hk Hm [p tokens calls replacers] e Hr (Hi & H1 & H2 & H3). cbn in *.
  assert (pstep (MkWorld p tokens calls replacers) (MkWorld p tokens (MkCall kind false None :: calls) replacers)) as Hs.
  { apply ps_call. destruct kind; [done|]. by apply Hk. }
  destruct (Hm (MkWorld p tokens (MkCall kind false None :: calls) replacers) e) as (w' & Hs' & Hw).
  - eapply reachable_psteps; [done|by apply psteps_one].
  - split; [done|]. split_and!; [done| |done]. cbn. by apply perm_skip.
  - exists w'. split; [|done]. eapply psteps_trans; [by apply psteps_one|done].
Qed.

Lemma round_runs exact lease registered r :
  runs (owns (calling (MkCall (KAcquire exact lease) registered None) r))
    (timed clock (fun now => acquire_section exact lease registered now)) (round_post exact lease r).
Proof.
  apply runs_step. intros [p tokens calls replacers] e Hr (H1 & H2 & H3). cbn in *.
  apply perm_split in H2 as (l1 & l2 & -> & H2). unfold acquire_section.
  destruct (acquire_round exact lease registered (clock e) p) as [[res registered'] p'] eqn:E.
  assert (forall ep, res = DialFirst ep -> valid_ep ep p') as Hv.
  { intros ep ->. destruct (pool_reachable_ok _ Hr) as [[(_ & Ho & _) Hs _ _] _ _].
    pose proof (round_spec _ _ _ _ _ _ _ _ Hs Ho E) as (_ & _ & _ & ep' & He & _).
    pose proof (keeps_round exact lease registered (clock e) p) as [Hk _ _ _]. rewrite E in Hk. cbn in Hk.
    unfold valid_ep. rewrite Hk. by eapply lookup_lt_Some. }
  destruct res as [ref|ep|err|until].
  - destruct lease; cbn.
    + eexists. split; [eapply ps_round; [exact E|]|].
      { pose proof (newLease_fresh p') as Hf. instantiate (1 := newLease p').
        pose proof (keeps_round exact true registered (clock e) p) as [_ Hk _ _]. rewrite E in Hk. cbn in Hk.
        destruct (pl_leases p !! newLease p') eqn:E'; [|done]. destruct (Hk (newLease p')) as [? ?]; [by eexists|]. congruence. }
      cbn. split; [done|]. split; [|done]. split; [unfold has_lease; cbn; by rewrite lookup_insert_eq|]. done.
    + eexists. split; [eapply ps_round; [exact E|apply newLease_fresh]|]. cbn. split; [done|]. split; [|done].
      split_and!; [|done|done]. cbn. by apply perm_skip.
  - eexists. split; [eapply ps_round; [exact E|apply newLease_fresh]|]. cbn. split; [done|]. split; [by apply Hv|].
    split_and!; [done| |done]. cbn. by apply Permutation_cons_app.
  - eexists. split; [eapply ps_round; [exact E|apply newLease_fresh]|]. done.
  - eexists. split; [eapply ps_round; [exact E|apply newLease_fresh]|]. cbn. split; [done|].
    split_and!; [done| |done]. cbn. by apply Permutation_cons_app.
Qed.

Lemma unregister_runs kind registered r :
  runs (owns (calling (MkCall kind registered None) r)) (unregister (W := W) (exact_of kind) registered) (fun _ => owns r).
Proof.
  apply runs_step. intros [p tokens calls replacers] e Hr (H1 & H2 & H3). cbn in *.
  apply perm_split in H2 as (l1 & l2 & -> & H2). eexists. split; [apply ps_giveUp|]. done.
Qed.

(** The section after the dial of a call: [canceled] is what [ctx.Err()] will be. *)
Lemma dialed_step exact lease registered ep outcome now delay canceled r w (e : W) res p' : fresh_conn (w_pool w) outcome ->
  afterDial ep outcome now delay (w_pool w) = (res, p') ->
  owns (calling (MkCall (KAcquire exact lease) registered (Some ep)) r) w e ->
  exists w', pstep w w' /\ w_pool w' = p' /\
    owns (match acquire_afterDial p' exact res canceled with
          | None => calling (MkCall (KAcquire exact lease) registered None) r
          | Some _ => r
          end) w' e.
Proof.
  destruct w as [p tokens calls replacers]. intros Hf E (H1 & H2 & H3). cbn in *.
  apply perm_split in H2 as (l1 & l2 & -> & H2). eexists. split; [eapply ps_dialed; [exact Hf|exact E]|].
  cbn. split; [done|]. instantiate (1 := canceled). destruct (acquire_afterDial p' exact res canceled); [done|].
  split_and!; [done| |done]. cbn. by apply Permutation_cons_app.
Qed.

Lemma startReplacement_runs ep r : runs (fun w e => valid_ep ep (w_pool w) /\ owns r w e) (under (startReplacement ep))
  (fun started => owns (if started then replaces ep RLoop r else r)).
Proof.
  apply runs_step. intros [p tokens calls replacers] e Hr (Hv & H1 & H2 & H3). cbn in *.
  destruct (startReplacement ep p) as [started p'] eqn:E. eexists. split; [eapply ps_startReplacement; [by apply valid_lookup|exact E]|].
  cbn. split; [done|]. destruct started; [|done]. split_and!; [done|done|]. cbn. by apply perm_skip.
Qed.

Lemma replaceRound_runs ep r : runs (owns (replaces ep RLoop r)) (timed clock (fun now => replace_round ep now))
  (fun a => owns (replaces ep (after_replace a) r)).
Proof.
  apply runs_step. intros [p tokens calls replacers] e Hr (H1 & H2 & H3). cbn in *.
  apply perm_split in H3 as (r1 & r2 & -> & H3). destruct (replace_round ep (clock e) p) as [a p'] eqn:E.
  eexists. split; [eapply ps_replaceRound; exact E|]. cbn. split; [done|]. split_and!; [done|done|].
  cbn. by apply Permutation_cons_app.
Qed.

Lemma replaceStop_runs {A} ep r (m : ST PW A) Post : runs (owns (replaces ep RExiting r)) m Post ->
  runs (owns (replaces ep RLoop r)) m Post.
Proof.
  intros Hm [p tokens calls replacers] e Hr (H1 & H2 & H3). cbn in *. apply perm_split in H3 as (r1 & r2 & -> & H3).
  pose proof (ps_replaceStop p tokens calls r1 r2 ep) as Hs.
  destruct (Hm (MkWorld p tokens calls (r1 ++ (ep, RExiting) :: r2)) e) as (w' & Hs' & Hw).
  - eapply reachable_psteps; [done|by apply psteps_one].
  - split_and!; [done|done|]. cbn. by apply Permutation_cons_app.
  - exists w'. split; [|done]. eapply psteps_trans; [by apply psteps_one|done].
Qed.

Lemma replaceDialed_runs ep outcome r :
  runs (fun w e => fresh_conn (w_pool w) outcome /\ owns (replaces ep RDialing r) w e) (finishDial clock jitter ep outcome)
    (fun res => owns (replaces ep (after_replaceDial res) r)).
Proof.
  apply runs_step. intros [p tokens calls replacers] e Hr (Hf & H1 & H2 & H3). cbn in *.
  apply perm_split in H3 as (r1 & r2 & -> & H3). destruct (afterDial ep outcome (clock e) (jitter e) p) as [res p'] eqn:E.
  eexists. split; [eapply ps_replaceDialed; [exact Hf|exact E]|]. cbn. split; [done|]. split_and!; [done|done|].
  cbn. by apply Permutation_cons_app.
Qed.

Lemma replaceExit_runs ep r : runs (owns (replaces ep RExiting r)) (modify (replace_exit ep)) (fun _ => owns r).
Proof.
  apply runs_step. intros [p tokens calls replacers] e Hr (H1 & H2 & H3). cbn in *.
  apply perm_split in H3 as (r1 & r2 & -> & H3). eexists. split; [apply ps_replaceExit|]. done.
Qed.

(** The token a stream holds. *)
Definition token_of (held : holder) : token :=
  match held with HeldConnection ref => TPlain ref | HeldLease l => TLease l end.

Lemma release_runs held r : runs (owns (holding (token_of held) r)) (releaseHeld clock held) (fun _ => owns r).
Proof.
  apply runs_step. intros [p tokens calls replacers] e Hr (H1 & H2 & H3). cbn in *.
  apply perm_split in H1 as (t1 & t2 & -> & H1). destruct held as [ref|l]; cbn.
  - eexists. split; [apply (ps_release _ _ _ _ _ ref (clock e))|]. done.
  - eexists. split; [apply (ps_leaseRelease _ _ _ _ _ l (clock e))|]. done.
Qed.

Lemma leaseClose_runs l r : runs (fun w e => has_lease l (w_pool w) /\ owns r w e) (runLeaseClose clock l) (fun _ => owns r).
Proof.
  apply runs_step. intros [p tokens calls replacers] e Hr (Hl & H1 & H2 & H3). cbn in *.
  eexists. split; [by apply (ps_leaseClose _ _ _ _ l (clock e))|]. done.
Qed.

Variable connErr : ConnRef -> W -> bool.
Variable leaseEndpoint : LeaseRef -> EndpointID.

Lemma leaseRound_runs l registered r :
  runs (fun w e => has_lease l (w_pool w) /\ owns (calling (MkCall (KLease l) registered None) r) w e)
    (lease_section connErr leaseEndpoint l registered)
    (fun '(res, registered) => match res with
     | LeaseAcquired => owns (holding (TLease l) r)
     | LeaseRefused _ => owns r
     | LeaseWait => owns (calling (MkCall (KLease l) registered None) r)
     end).
Proof.
  apply runs_step. intros [p tokens calls replacers] e Hr (Hl & H1 & H2 & H3). cbn in *.
  apply perm_split in H2 as (l1 & l2 & -> & H2).
  destruct (lease_round _ _ _ _ _) as [[res registered'] p'] eqn:E.
  eexists. split; [eapply ps_leaseRound; [exact E|exact Hl]|].
  destruct res; cbn; (split; [done|]); split_and!; try done; cbn; by (apply perm_skip || apply Permutation_cons_app).
Qed.

(** Sections that need nothing and give nothing. *)
Lemma quiet_runs {A} (f : Pool -> A * Pool) r :
  (forall p tokens calls replacers, pstep (MkWorld p tokens calls replacers) (MkWorld (snd (f p)) tokens calls replacers)) ->
  runs (owns r) (under f) (fun _ => owns r).
Proof.
  intros H. apply runs_step. intros [p tokens calls replacers] e Hr (H1 & H2 & H3). cbn in *. specialize (H p tokens calls replacers).
  destruct (f p) as [x p'] eqn:E. eexists. split; [exact H|]. done.
Qed.
Lemma broken_runs ep ref r : runs (owns r) (under (connectionBroken ep ref)) (fun _ => owns r).
Proof. apply quiet_runs. intros. eapply ps_broken, surjective_pairing. Qed.
End sections.

(** ** The handlers *)

Section handlers.
Context {W P : Type}.
Variable others : W -> local.
Abbreviation owns := (owns others).
Abbreviation runs := (runs (W := W)).
Abbreviation yields := (yields others).
Abbreviation held_by := (held_by others).
Variable clock jitter : W -> Time.
Variable ctxErr : ST (Pool * W) (option cerror).
Variable awaitAcquire : Time -> ST (Pool * W) acquireWait.
Variable awaitLease : ST (Pool * W) acquireWait.
Variable awaitReplace : ST (Pool * W) bool.
Variable awaitDone : ConnRef -> ST (Pool * W) unit.
Variable awaitTick : Z -> ST (Pool * W) (option Time).
Variable awaitDrain : ST (Pool * W) (option cerror).
Variable awaitCloseMu awaitGroup : ST (Pool * W) unit.
Variable spawnReplace : EpRef -> ST (Pool * W) unit.
Variable setupEndpoint : EpRef -> ST (Pool * W) (SetupResult P + cerror).
Variable closeConn : ConnRef -> ST (Pool * W) unit.
Variable closeConnContext : ConnRef -> ST (Pool * W) (option cerror).
Variable connErr : ConnRef -> W -> bool.
Variable connDo : ConnRef -> UntypedOperation -> ST (Pool * W) (bool + cerror).
Variable frozen : EpRef -> Identity * P * ConnectionPolicy.
Variable ValidateProfile : EpRef -> option (P -> P -> option cerror).
Variable deepEqual : P -> P -> bool.
Variable leaseEndpoint : LeaseRef -> EndpointID.
Variable innerNext : ST (Pool * W) nextResult.
Variable innerClose : ST (Pool * W) unit.

(** While a handler waits, or a connection works, the others take steps and leave
    alone what the handler holds; a replacing goroutine that is started takes its
    mark along; a connection that was set up is new. *)
Record pool_scheduled : Prop := {
  sc_ctxErr : yields ctxErr;
  sc_awaitAcquire t : yields (awaitAcquire t);
  sc_awaitLease : yields awaitLease;
  sc_awaitReplace : yields awaitReplace;
  sc_awaitDone ref : yields (awaitDone ref);
  sc_awaitTick n : yields (awaitTick n);
  sc_awaitDrain : yields awaitDrain;
  sc_awaitCloseMu : yields awaitCloseMu;
  sc_awaitGroup : yields awaitGroup;
  sc_spawnReplace ep r : runs (owns (replaces ep RLoop r)) (spawnReplace ep) (fun _ => owns r);
  sc_closeConn ref : yields (closeConn ref);
  sc_closeConnContext ref : yields (closeConnContext ref);
  sc_connDo ref op : yields (connDo ref op);
  sc_innerNext : yields innerNext;
  sc_innerClose : yields innerClose;
  sc_setup ep r : runs (owns r) (setupEndpoint ep) (fun x w e => owns r w e /\
    match x with inl result => pl_conns (w_pool w) !! sr_Conn result = None | inr _ => True end)
}.
Hypothesis scheduled : pool_scheduled.

Abbreviation dial := (dialEndpoint clock setupEndpoint closeConn frozen ValidateProfile deepEqual).

Lemma dial_runs ep r : runs (owns r) (dial ep) (fun outcome w e => fresh_conn (w_pool w) outcome /\ owns r w e).
Proof.
  unfold dialEndpoint. eapply runs_bind; [apply (sc_setup scheduled)|]. intros [result|err]; [|by apply runs_ret; intros w e []].
  eapply runs_bind; [apply (runs_reads _ _ (fun _ w e => owns r w e /\ pl_conns (w_pool w) !! sr_Conn result = None)); done|].
  intros id. destruct (frozen ep) as [[identity profile] policy]. destruct (checkProfile _ _ _ _ _ _ _ _ _) as [err|].
  - eapply runs_bind; [eapply runs_pre; [|apply (sc_closeConn scheduled _ r)]; by intros w e []|]. intros []. by apply runs_ret.
  - intros w e _ [Ho Hf]. exists w. split; [apply psteps_refl|]. done.
Qed.

Lemma discard_runs outcome : yields (discard (W := W) closeConn outcome).
Proof. intros r. destruct outcome; [apply (sc_closeConn scheduled)|by apply runs_ret]. Qed.

(** *** Replacement *)

Lemma runStart_runs ep r : runs (fun w e => valid_ep ep (w_pool w) /\ owns r w e) (runStartReplacement spawnReplace ep) (fun _ => owns r).
Proof.
  unfold runStartReplacement. eapply runs_bind; [apply startReplacement_runs|]. intros []; [apply (sc_spawnReplace scheduled)|by apply runs_ret].
Qed.

Abbreviation run_replace_loop :=
  (replace_loop clock jitter awaitReplace setupEndpoint closeConn frozen ValidateProfile deepEqual).
Abbreviation run_replace := (replace clock jitter awaitReplace setupEndpoint closeConn frozen ValidateProfile deepEqual).

Lemma replace_loop_runs fuel ep r : runs (owns (replaces ep RLoop r)) (run_replace_loop fuel ep)
  (fun res => owns (replaces ep (match res with Some _ => RExiting | None => RLoop end) r)).
Proof.
  induction fuel as [|fuel IH]; [by apply runs_ret|]. cbn [replace_loop].
  eapply runs_bind; [apply replaceRound_runs|]. intros []; cbn [after_replace].
  - by apply runs_ret.
  - eapply runs_bind; [apply dial_runs|]. intros outcome. eapply runs_bind; [apply replaceDialed_runs|].
    intros []; cbn [after_replaceDial]; [by apply runs_ret| |exact IH].
    eapply runs_bind; [apply discard_runs|]. intros []. by apply runs_ret.
  - eapply runs_bind; [apply (sc_awaitReplace scheduled)|]. intros []; [exact IH|]. apply replaceStop_runs. by apply runs_ret.
Qed.

Lemma replace_runs fuel ep r : runs (owns (replaces ep RLoop r)) (run_replace fuel ep)
  (fun res => match res with Some _ => owns r | None => owns (replaces ep RLoop r) end).
Proof.
  unfold replace. eapply runs_bind; [apply replace_loop_runs|]. intros [[]|]; cbn; [|by apply runs_ret].
  eapply runs_bind; [apply replaceExit_runs|]. intros []. by apply runs_ret.
Qed.

Lemma watch_runs ep ref r : runs (fun w e => valid_ep ep (w_pool w) /\ owns r w e)
  (PoolRun.watchConnection awaitDone spawnReplace ep ref) (fun _ => owns r).
Proof.
  unfold watchConnection. eapply runs_bind; [apply runs_stable; [apply valid_stable|apply (sc_awaitDone scheduled)]|]. intros [].
  eapply runs_bind; [apply runs_stable; [apply valid_stable|apply broken_runs]|]. intros [].
  - apply runStart_runs.
  - by apply runs_ret; intros w e [].
Qed.

(** *** Acquisition *)

Abbreviation run_acquire_loop :=
  (acquire_loop clock jitter ctxErr awaitAcquire spawnReplace setupEndpoint closeConn frozen ValidateProfile deepEqual).

(** What a call of [acquire] returns with: the capacity, or nothing. A call that
    has not returned is still one. *)
Definition acquire_post (exact : option EpRef) (lease : bool) (r : local) (res : option (holder + cerror)) (w : World) (e : W) : Prop :=
  match res with
  | Some (inl held) => held_by held r w e /\ match held with HeldLease _ => lease = true | HeldConnection _ => lease = false end
  | Some (inr _) => owns r w e
  | None => exists registered, owns (calling (MkCall (KAcquire exact lease) registered None) r) w e
  end.

(** What follows a dial that failed: the replacement is started and the context
    looked at, and then the call goes on or returns. *)
Definition afterFailure (exact : option EpRef) (ep : EpRef) (err : cerror) : ST (Pool * W) (option cerror) :=
  runStartReplacement spawnReplace ep ;;
  let* canceled := ctxErr in
  reads (fun p => acquire_afterDial p exact (DialFailed err) canceled).

Lemma afterDial_failed p p' exact err canceled : pool_grows p p' ->
  acquire_afterDial p exact (DialFailed err) canceled = None <-> acquire_afterDial p' exact (DialFailed err) canceled = None.
Proof.
  intros [Hk _ _ _]. cbn. destruct canceled; [done|]. destruct exact as [i|]; [|done].
  destruct (pl_order p !! i) eqn:E1, (pl_order p' !! i) eqn:E2; try done.
  - apply lookup_lt_Some in E1. apply lookup_ge_None_1 in E2. lia.
  - apply lookup_lt_Some in E2. apply lookup_ge_None_1 in E1. lia.
Qed.

Lemma afterFailure_runs r ep : runs (fun w e => valid_ep ep (w_pool w) /\ owns r w e)
  (runStartReplacement spawnReplace ep ;; ctxErr) (fun _ => owns r).
Proof. eapply runs_bind; [apply runStart_runs|]. intros b. apply (sc_ctxErr scheduled). Qed.

Lemma failed_runs exact lease registered ep err r :
  runs (fun w e => valid_ep ep (w_pool w) /\ fresh_conn (w_pool w) (DialErr err) /\
          owns (calling (MkCall (KAcquire exact lease) registered (Some ep)) r) w e)
    (let* _ := finishDial clock jitter ep (DialErr err) in afterFailure exact ep err)
    (fun next => match next with Some _ => owns r | None => owns (calling (MkCall (KAcquire exact lease) registered None) r) end).
Proof.
  intros w e Hr (Hv & Hf & Ho). unfold afterFailure, sbind, finishDial.
  destruct (afterDial ep (DialErr err) (clock e) (jitter e) (w_pool w)) as [res p1] eqn:E1.
  assert (res = DialFailed err) as -> by (cbn in E1; by injection E1).
  assert (valid_ep ep p1) as Hv1.
  { assert (pool_keeps (w_pool w) p1) as [Hk _ _ _] by (eapply keeps_of; [exact E1|apply keeps_afterDial]).
    unfold valid_ep in *. by rewrite Hk. }
  destruct ((runStartReplacement spawnReplace ep ;; ctxErr) (p1, e)) as [canceled [p3 e3]] eqn:E3.
  assert (forall r' w1, pstep w w1 -> w_pool w1 = p1 -> owns r' w1 e ->
    exists w', psteps w1 w' /\ w_pool w' = p3 /\ owns r' w' e3) as Hrest.
  { intros r' w1 Hs1 Hw1 Ho1. destruct (afterFailure_runs r' ep w1 e) as (w' & Hs & Hw & Ho').
    - eapply reachable_psteps; [exact Hr|by apply psteps_one].
    - by rewrite Hw1.
    - rewrite Hw1, E3 in Hw, Ho'. by exists w'. }
  unfold sbind in E3. destruct (runStartReplacement spawnReplace ep (p1, e)) as [b [p2 e2]]. rewrite E3. cbn [fst snd reads].
  destruct (dialed_step others exact lease registered ep _ _ _ canceled r w e _ _ Hf E1 Ho) as (w1 & Hs1 & Hw1 & Ho1).
  apply Hrest in Ho1 as (w' & Hs & Hw & Ho'); [|done|done]. exists w'.
  split; [eapply psteps_trans; [by apply psteps_one|done]|]. split; [done|].
  assert (pool_grows p1 p3) as Hk by (rewrite <- Hw1, <- Hw; by apply psteps_grow).
  pose proof (afterDial_failed p1 p3 exact err canceled Hk) as Hiff.
  destruct (acquire_afterDial p1 exact (DialFailed err) canceled), (acquire_afterDial p3 exact (DialFailed err) canceled); try done.
  - by destruct Hiff as [_ Hiff]; specialize (Hiff eq_refl).
  - by destruct Hiff as [Hiff _]; specialize (Hiff eq_refl).
Qed.

Lemma dialed_runs exact lease registered ep ref created r :
  runs (fun w e => fresh_conn (w_pool w) (DialOk ref created) /\
          owns (calling (MkCall (KAcquire exact lease) registered (Some ep)) r) w e)
    (finishDial clock jitter ep (DialOk ref created))
    (fun res w e => match res with
     | DialAdded => owns (calling (MkCall (KAcquire exact lease) registered None) r) w e
     | DialDiscarded => owns r w e
     | DialFailed _ => False
     end).
Proof.
  apply runs_step. intros w e Hr (Hf & Ho). unfold finishDial.
  destruct (afterDial ep (DialOk ref created) (clock e) (jitter e) (w_pool w)) as [res p1] eqn:E1.
  destruct (dialed_step others exact lease registered ep _ _ _ None r w e _ _ Hf E1 Ho) as (w1 & Hs1 & Hw1 & Ho1).
  exists w1. split; [done|]. split; [done|]. cbn [fst snd]. unfold afterDial in E1. destruct (negb _); injection E1 as <- E1; exact Ho1.
Qed.

(** The tail of a round that dials. *)
Definition afterDialing (loop : ST (Pool * W) (option (holder + cerror))) (exact : option EpRef) (ep : EpRef)
    (outcome : dialOutcome) : ST (Pool * W) (option (holder + cerror)) :=
  let* res := finishDial clock jitter ep outcome in
  match res with
  | DialAdded => loop
  | DialDiscarded => discard closeConn outcome ;; sret (Some (inr ErrClosed))
  | DialFailed err =>
      runStartReplacement spawnReplace ep ;;
      let* canceled := ctxErr in
      let* next := reads (fun p => acquire_afterDial p exact res canceled) in
      match next with
      | Some err => sret (Some (inr err))
      | None => loop
      end
  end.

Lemma afterDialing_failed loop exact ep err s : afterDialing loop exact ep (DialErr err) s =
  (let* next := (let* _ := finishDial clock jitter ep (DialErr err) in afterFailure exact ep err) in
   match next with Some err => sret (Some (inr err)) | None => loop end) s.
Proof.
  destruct s as [p e]. unfold afterDialing, afterFailure, sbind, finishDial.
  destruct (afterDial ep (DialErr err) (clock e) (jitter e) p) as [res p1] eqn:E.
  assert (res = DialFailed err) as -> by (cbn in E; by injection E).
  destruct (runStartReplacement spawnReplace ep (p1, e)) as [b s2]. by destruct (ctxErr s2) as [canceled [p3 e3]].
Qed.

Lemma afterDialing_runs loop exact lease registered ep outcome r :
  runs (owns (calling (MkCall (KAcquire exact lease) registered None) r)) loop (acquire_post exact lease r) ->
  runs (fun w e => valid_ep ep (w_pool w) /\ fresh_conn (w_pool w) outcome /\
          owns (calling (MkCall (KAcquire exact lease) registered (Some ep)) r) w e)
    (afterDialing loop exact ep outcome) (acquire_post exact lease r).
Proof.
  intros Hloop. destruct outcome as [ref created|err].
  - unfold afterDialing. eapply runs_bind; [eapply runs_pre; [|apply dialed_runs]; by intros w e []|].
    intros []; [exact Hloop| |by intros w e _ []].
    eapply runs_bind; [apply discard_runs|]. intros []. by apply runs_ret.
  - intros w e Hr Hpre.
    rewrite afterDialing_failed. eapply (runs_bind _ _ _ _ _ (failed_runs exact lease registered ep err r)); [|done|done].
    intros []; [by apply runs_ret|exact Hloop].
Qed.

Lemma acquire_loop_runs fuel exact lease registered r :
  runs (owns (calling (MkCall (KAcquire exact lease) registered None) r)) (run_acquire_loop fuel exact lease registered)
    (acquire_post exact lease r).
Proof.
  revert registered. induction fuel as [|fuel IH]; intros registered; [apply runs_ret; intros w e Hw; by exists registered|].
  cbn [acquire_loop]. eapply runs_bind; [apply round_runs|]. intros [[res registered'] held]. destruct res as [ref|ep|err|until].
  - by apply runs_ret.
  - eapply runs_bind; [apply runs_stable; [apply valid_stable|apply dial_runs]|]. intros outcome.
    exact (afterDialing_runs _ exact lease registered' ep outcome r (IH registered')).
  - by apply runs_ret.
  - eapply runs_bind; [apply (sc_awaitAcquire scheduled)|]. intros [err| |]; [| |exact (IH registered')].
    all: eapply runs_bind; [apply (unregister_runs others (KAcquire exact lease))|]; intros []; by apply runs_ret.
Qed.

(** *** Operations *)

Abbreviation run_acquire :=
  (acquire clock jitter ctxErr awaitAcquire spawnReplace setupEndpoint closeConn frozen ValidateProfile deepEqual).

Definition call_post (lease : bool) (r : local) (res : option (holder + cerror)) (w : World) (e : W) : Prop :=
  exists exact, acquire_post exact lease r res w e.

Lemma acquire_runs fuel selection lease r : runs (owns r) (run_acquire fuel selection lease) (call_post lease r).
Proof.
  unfold acquire. eapply runs_bind; [apply (runs_reads _ _ (fun _ => owns r)); done|]. intros [exact|err].
  - eapply runs_post; [|eapply (runs_pre _ (fun w e => True /\ owns r w e));
      [by intros w e|apply (runs_call others (KAcquire exact lease) r _ _ (fun _ => True)); [done|]]].
    + intros x w e Hx. exists exact. exact Hx.
    + eapply runs_pre; [|apply acquire_loop_runs]. by intros w e [].
  - apply runs_ret. intros w e Hw. by exists None.
Qed.

(** A stream holds its capacity until it is released. *)
Definition stream_holds (held : holder) (s : trackedStream) (r : local) : local :=
  if ts_released s then r else holding (token_of held) r.

Definition started (r : local) (x : (trackedStream * holder) + cerror) : World -> W -> Prop :=
  match x with inl (s, held) => owns (stream_holds held s r) | inr _ => owns r end.

Lemma startOperation_runs held routed op r :
  runs (owns (holding (token_of held) r)) (startOperation clock connDo held routed op) (started r).
Proof.
  unfold startOperation. eapply runs_bind; [apply (runs_reads _ _ (fun _ => owns (holding (token_of held) r))); done|].
  intros ref. eapply runs_bind; [apply (sc_connDo scheduled)|]. intros [lifecycle|err]; [by apply runs_ret|].
  eapply runs_bind; [apply release_runs|]. intros []. by apply runs_ret.
Qed.

(** A call that has not returned is still one. *)
Definition pending_or {A} (r : local) (Post : A -> World -> W -> Prop) (res : option A) (w : World) (e : W) : Prop :=
  match res with Some x => Post x w e | None => exists k, owns (calling k r) w e end.

Abbreviation run_Do :=
  (Pool_Do clock jitter ctxErr awaitAcquire spawnReplace setupEndpoint closeConn connDo frozen ValidateProfile deepEqual).

Lemma Do_runs fuel selection op r : runs (owns r) (run_Do fuel selection op) (pending_or r (started r)).
Proof.
  unfold Pool_Do. destruct (UntypedOperation_Validate op); [by apply runs_ret|].
  eapply runs_bind; [apply acquire_runs|]. intros [[held|err]|].
  - eapply runs_bind; [|intros x; by apply (runs_ret (started r x))].
    eapply runs_pre; [|apply startOperation_runs]. intros w e (exact & Hh & Hl). by destruct held.
  - apply runs_ret. by intros w e (exact & Hw).
  - apply runs_ret. intros w e (exact & registered & Hw). by eexists.
Qed.

Abbreviation run_Lease :=
  (Pool_Lease clock jitter ctxErr awaitAcquire spawnReplace setupEndpoint closeConn frozen ValidateProfile deepEqual).

Lemma Lease_runs fuel selection r : runs (owns r) (run_Lease fuel selection)
  (pending_or r (fun x w e => match x with inl l => has_lease l (w_pool w) /\ owns r w e | inr _ => owns r w e end)).
Proof.
  unfold Pool_Lease. eapply runs_bind; [apply acquire_runs|]. intros [[[ref|l]|err]|].
  - intros w e _ (exact & _ & Hl). done.
  - apply runs_ret. by intros w e (exact & Hw & _).
  - apply runs_ret. by intros w e (exact & Hw).
  - apply runs_ret. intros w e (exact & registered & Hw). by eexists.
Qed.

Lemma acquireOperation_runs fuel l registered r :
  runs (fun w e => has_lease l (w_pool w) /\ owns (calling (MkCall (KLease l) registered None) r) w e)
    (acquireOperation awaitLease connErr leaseEndpoint fuel l registered)
    (pending_or r (fun err => match err with None => owns (holding (TLease l) r) | Some _ => owns r end)).
Proof.
  revert registered. induction fuel as [|fuel IH]; intros registered; [apply runs_ret; intros w e [_ Hw]; by eexists|].
  cbn [acquireOperation]. eapply runs_bind.
  { eapply (runs_pre _ (fun w e => has_lease l (w_pool w) /\ has_lease l (w_pool w) /\ _)); [|apply runs_stable;
      [apply has_lease_stable|apply leaseRound_runs]]. intros w e [H1 H2]. split; [done|]. split; [done|exact H2]. }
  intros [[|err|] registered']; [by apply runs_ret; intros w e []|by apply runs_ret; intros w e []|].
  eapply runs_bind; [apply runs_stable; [apply has_lease_stable|apply (sc_awaitLease scheduled)]|].
  intros [err| |]; [| |exact (IH registered')].
  all: eapply runs_bind; [eapply runs_pre; [|apply (unregister_runs others (KLease l))]; by intros w e []|]; intros []; by apply runs_ret.
Qed.

Lemma Lease_Do_runs fuel l op r : runs (fun w e => has_lease l (w_pool w) /\ owns r w e)
  (Lease_Do clock awaitLease connErr connDo leaseEndpoint fuel l op) (pending_or r (started r)).
Proof.
  unfold Lease_Do. destruct (UntypedOperation_Validate op) as [verr|]; [by apply runs_ret; intros w e []|].
  eapply runs_bind; [apply (runs_call others (KLease l) r _ _ (has_lease l)); [done|apply acquireOperation_runs]|].
  intros [[err|]|]; [by apply runs_ret| |by apply runs_ret].
  eapply runs_bind; [apply (startOperation_runs (HeldLease l))|]. intros x. by apply (runs_ret (started r x)).
Qed.

(** *** Streams *)

Lemma releaseWhen_runs (run : bool) held s s' r : (run = true -> ts_released s = false) ->
  ts_released s' = run || ts_released s ->
  runs (owns (stream_holds held s r)) (releaseWhen clock run held ;; sret s') (fun s => owns (stream_holds held s r)).
Proof.
  intros H1 H2. unfold stream_holds, releaseWhen. destruct run; cbn in *.
  - rewrite H1 by done. eapply runs_bind; [apply release_runs|]. intros []. apply runs_ret. intros w. by rewrite H2.
  - eapply runs_bind; [by apply (runs_ret _ tt (fun _ => owns (if ts_released s then r else holding (token_of held) r)))|].
    intros []. apply runs_ret. intros w. by rewrite H2.
Qed.

Lemma runStream_runs held k s r : runs (owns (stream_holds held s r)) (runStream clock innerNext innerClose held k s)
  (fun s => owns (stream_holds held s r)).
Proof.
  destruct k; cbn [runStream].
  - eapply runs_bind; [apply (sc_innerNext scheduled)|]. intros []; cbn [tracked_Next releaseOnce];
      apply (releaseWhen_runs _ held s); cbn; try done; by destruct (ts_released s).
  - eapply runs_bind; [apply (sc_innerClose scheduled)|]. intros []. unfold tracked_Close, releaseOnce.
    destruct (negb (ts_lifecycle s)); apply (releaseWhen_runs _ held s); cbn; try done; by destruct (ts_released s).
  - unfold tracked_Done, releaseOnce. destruct (ts_lifecycle s); apply (releaseWhen_runs _ held s); cbn; try done; by destruct (ts_released s).
Qed.

Lemma runStreams_runs held ks r : forall s, runs (owns (stream_holds held s r))
  (runStreams clock innerNext innerClose held ks s) (fun s => owns (stream_holds held s r)).
Proof.
  induction ks as [|k ks IH]; intros s; [by apply runs_ret|]. cbn [runStreams].
  eapply runs_bind; [apply runStream_runs|]. intros s'. apply IH.
Qed.

(** *** Maintenance *)

Lemma closeEach_runs refs : yields (closeEach (W := W) closeConn refs).
Proof.
  intros r. induction refs as [|ref refs IH]; [by apply runs_ret|]. cbn. eapply runs_bind; [apply (sc_closeConn scheduled)|].
  intros []. exact IH.
Qed.

Lemma replaceEach_runs eps r : runs (fun w e => Forall (fun ep => valid_ep ep (w_pool w)) eps /\ owns r w e)
  (replaceEach spawnReplace eps) (fun _ => owns r).
Proof.
  induction eps as [|ep eps IH]; [by apply runs_ret; intros w e []|]. cbn [replaceEach].
  eapply runs_bind; [|intros b; exact IH].
  eapply (runs_pre _ (fun w e => Forall (fun ep => valid_ep ep (w_pool w)) eps /\ (valid_ep ep (w_pool w) /\ owns r w e))).
  - intros w e [H Ho]. by inversion H.
  - apply (runs_stable (fun p => Forall (fun ep => valid_ep ep p) eps)); [|apply runStart_runs].
    intros p p' Hg H. eapply Forall_impl; [exact H|]. intros i. by apply valid_stable.
Qed.

Lemma retire_eps o now endpoints : forall conns close again ep,
  ep ∈ snd (retireExpired_loop o now endpoints conns close again) -> ep ∈ again \/ ep ∈ map fst endpoints.
Proof.
  induction endpoints as [|[i e] endpoints IH]; intros conns close again ep H; cbn in H; [by left|].
  destruct (expire_loop _ _ _ _ _ _ _) as [[conns' close'] b]. apply IH in H as [H|H]; [|set_solver].
  destruct b; set_solver.
Qed.

Lemma expire_runs now r : runs (owns r) (under (retireExpired now))
  (fun x w e => Forall (fun ep => valid_ep ep (w_pool w)) (snd x) /\ owns r w e).
Proof.
  apply runs_step. intros [p tokens calls replacers] e Hr (H1 & H2 & H3). cbn [w_pool under].
  destruct (retireExpired now p) as [[close eps] p'] eqn:E. eexists. split; [eapply ps_expire; exact E|].
  cbn. split; [done|]. split; [|done]. apply Forall_forall. intros ep Hep. unfold retireExpired in E.
  destruct (pl_closing p); [injection E as <- <- <-; set_solver|].
  pose proof (retire_eps (pl_options p) now (imap pair (pl_order p)) (pl_conns p) [] [] ep) as Hin.
  destruct (retireExpired_loop _ _ _ _ _ _) as [[conns close'] eps']. injection E as <- <- <-. unfold valid_ep. cbn.
  destruct (Hin Hep) as [?|Hm]; [set_solver|]. apply list_elem_of_fmap in Hm as ([i x] & -> & Hx).
  apply list_elem_of_lookup in Hx as [j Hj]. rewrite list_lookup_imap in Hj. destruct (pl_order p !! j) eqn:Ej; [|done].
  cbn in Hj. injection Hj as <- <-. cbn. by eapply lookup_lt_Some.
Qed.

Lemma runRetire_runs now : yields (runRetireExpired (W := W) spawnReplace closeConn now).
Proof.
  intros r. unfold runRetireExpired. eapply runs_bind; [apply expire_runs|]. intros [close eps]. cbn [snd].
  eapply (runs_bind _ _ (fun _ w e => Forall (fun ep => valid_ep ep (w_pool w)) eps /\ owns r w e));
    [|intros []; apply (replaceEach_runs eps)].
  apply (runs_stable (fun p => Forall (fun ep => valid_ep ep p) eps)); [|apply closeEach_runs].
  intros p p' Hg H. eapply Forall_impl; [exact H|]. intros i. by apply valid_stable.
Qed.

Lemma maintain_runs fuel : yields (maintain awaitTick spawnReplace closeConn fuel).
Proof.
  intros r. unfold maintain. eapply runs_bind; [apply (runs_reads _ _ (fun _ => owns r)); done|]. intros interval.
  induction fuel as [|fuel IH]; [by apply runs_ret|]. cbn [maintain_loop].
  eapply runs_bind; [apply (sc_awaitTick scheduled)|]. intros [now|]; [|by apply runs_ret].
  eapply runs_bind; [apply runRetire_runs|]. intros []. exact IH.
Qed.

(** *** Shutdown *)

Definition is_closing (p : Pool) : Prop := pl_closing p = true.
Lemma closing_stable : stable_pool is_closing.
Proof. intros p p' []. exact pg_closing0. Qed.

Lemma closeBegin_runs r : runs (owns r) (under close_begin)
  (fun closed w e => is_closing (w_pool w) /\ owns r w e /\ (closed = true -> pl_closed (w_pool w) = true)).
Proof.
  apply runs_step. intros [p tokens calls replacers] e Hr (H1 & H2 & H3). pose proof (closed_closing _ Hr) as Hc. cbn in *.
  eexists. split; [apply ps_closeBegin|]. unfold close_begin, is_closing in *. destruct (pl_closed p) eqn:E; cbn; [|done].
  specialize (Hc eq_refl). done.
Qed.

Lemma closeAll_runs r : runs (owns r) (under close_all) (fun _ => owns r).
Proof. apply quiet_runs. intros. apply ps_closeAll. Qed.

Lemma closeEnd_runs r : runs (fun w e => is_closing (w_pool w) /\ owns r w e) (modify close_end)
  (fun _ w e => is_closing (w_pool w) /\ pl_closed (w_pool w) = true /\ owns r w e).
Proof.
  apply runs_step. intros [p tokens calls replacers] e Hr (Hc & H1 & H2 & H3). cbn in *.
  eexists. split; [by apply ps_closeEnd|]. done.
Qed.

Lemma drain_runs fuel : yields (drain awaitDrain fuel).
Proof.
  intros r. induction fuel as [|fuel IH]; [by apply runs_ret|]. cbn [drain].
  eapply runs_bind; [apply (runs_reads _ _ (fun _ => owns r)); done|]. intros active.
  destruct (active =? 0); [by apply runs_ret|]. eapply runs_bind; [apply (sc_awaitDrain scheduled)|].
  intros [err|]; [by apply runs_ret|exact IH].
Qed.

Lemma closeContexts_runs refs : forall drainErr, yields (closeAllContext closeConnContext refs drainErr).
Proof.
  induction refs as [|ref refs IH]; intros drainErr r; [by apply runs_ret|]. cbn [closeAllContext].
  eapply runs_bind; [apply (sc_closeConnContext scheduled)|]. intros err. apply IH.
Qed.

Abbreviation run_CloseContext := (Pool_CloseContext awaitDrain awaitCloseMu awaitGroup closeConnContext).

Lemma CloseContext_runs fuel r : runs (owns r) (run_CloseContext fuel)
  (fun res w e => is_closing (w_pool w) /\ owns r w e /\ (res <> None -> pl_closed (w_pool w) = true)).
Proof.
  unfold Pool_CloseContext. eapply runs_bind; [apply (sc_awaitCloseMu scheduled)|]. intros [].
  eapply runs_bind; [apply closeBegin_runs|]. intros []; [apply runs_ret; intros w e (? & ? & ?); auto|].
  eapply (runs_pre _ (fun w e => is_closing (w_pool w) /\ owns r w e)); [by intros w e (? & ? & _)|].
  eapply runs_bind; [apply runs_stable; [apply closing_stable|apply drain_runs]|].
  intros [drainErr|]; [|by apply runs_ret; intros w e [? ?]].
  eapply runs_bind; [apply runs_stable; [apply closing_stable|apply closeAll_runs]|]. intros refs.
  eapply runs_bind; [apply runs_stable; [apply closing_stable|apply closeContexts_runs]|]. intros err.
  eapply runs_bind; [apply runs_stable; [apply closing_stable|apply (sc_awaitGroup scheduled)]|]. intros [].
  eapply runs_bind; [apply closeEnd_runs|]. intros []. apply runs_ret. intros w e (? & ? & ?). auto.
Qed.

Lemma closing_refuses fuel selection op p e exact : pl_closing p = true -> UntypedOperation_Validate op = None ->
  acquire_enter selection p = inl exact -> run_Do (S fuel) selection op (p, e) = (Some (inr ErrClosed), (p, e)).
Proof.
  intros Hc Hv He. unfold Pool_Do, acquire, sbind, reads. rewrite Hv, He.
  cbn [acquire_loop]. unfold sbind, timed, acquire_section, acquire_round. rewrite Hc. reflexivity.
Qed.

(** C9. The pool's handlers refine its interleavings, and give back what they
    take. What a handler holds together with what the others hold is exactly the
    units of capacity in use, the calls in progress and the marks of replacing
    goroutines. If what happens while a handler waits (for a context, a channel, a
    dial or a connection) are steps of the pool that leave alone what the handler
    holds, then each whole handler is a sequence of steps too, and leaves alone what
    the others hold: [Do] returns a stream that holds one unit of its connection's
    capacity, or an error with no unit taken and no call left; [Lease] returns a
    lease or an error, with no unit and no call left; an operation of a lease
    likewise holds one unit of the lease or nothing; after any calls on a stream it
    holds its unit if its release function has not run, and nothing if it has; the
    replacing goroutine gives its mark back, and the watching and maintaining ones
    end with nothing held, but for what the goroutines that they start hold; and
    when [CloseContext] returns the pool is closed, and a closing pool refuses every
    operation. So the invariants of all interleavings hold for every schedule of
    handlers. *)
Theorem pool_handlers_refine fuel selection op l ep ref held ks s r :
  runs (owns r) (run_Do fuel selection op) (pending_or r (started r)) /\
  runs (owns r) (run_Lease fuel selection)
    (pending_or r (fun x w e => match x with inl l => has_lease l (w_pool w) /\ owns r w e | inr _ => owns r w e end)) /\
  runs (fun w e => has_lease l (w_pool w) /\ owns r w e)
    (Lease_Do clock awaitLease connErr connDo leaseEndpoint fuel l op) (pending_or r (started r)) /\
  runs (fun w e => has_lease l (w_pool w) /\ owns r w e) (runLeaseClose clock l) (fun _ => owns r) /\
  runs (owns (stream_holds held s r)) (runStreams clock innerNext innerClose held ks s)
    (fun s => owns (stream_holds held s r)) /\
  runs (owns (replaces ep RLoop r)) (run_replace fuel ep)
    (fun res => match res with Some _ => owns r | None => owns (replaces ep RLoop r) end) /\
  runs (fun w e => valid_ep ep (w_pool w) /\ owns r w e) (PoolRun.watchConnection awaitDone spawnReplace ep ref) (fun _ => owns r) /\
  runs (owns r) (maintain awaitTick spawnReplace closeConn fuel) (fun _ => owns r) /\
  runs (owns r) (run_CloseContext fuel)
    (fun res w e => is_closing (w_pool w) /\ owns r w e /\ (res <> None -> pl_closed (w_pool w) = true)) /\
  (forall p e exact, is_closing p -> UntypedOperation_Validate op = None -> acquire_enter selection p = inl exact ->
     run_Do (S fuel) selection op (p, e) = (Some (inr ErrClosed), (p, e))).
Proof.
  split_and!.
  - apply Do_runs.
  - apply Lease_runs.
  - apply Lease_Do_runs.
  - apply leaseClose_runs.
  - apply runStreams_runs.
  - apply replace_runs.
  - apply watch_runs.
  - apply maintain_runs.
  - apply CloseContext_runs.
  - intros p e exact. apply closing_refuses.
Qed.
End handlers.

(** ** Construction *)

Section construction.
Context {W : Type}.
Variable setupNew : Endpoint -> ST W (Time + cerror).

(** The set-ups with a record of the connections that are closed. *)
Definition recordedSetup (config : Endpoint) : ST (W * list ConnRef) (Time + cerror) :=
  fun '(w, closed) => let '(x, w) := setupNew config w in (x, (w, closed)).
Definition recordedClose (ref : ConnRef) : ST (W * list ConnRef) unit := fun '(w, closed) => (tt, (w, closed ++ [ref])).

Lemma closeNewEach_record refs : forall w closed, closeNewEach recordedClose refs (w, closed) = (tt, (w, closed ++ refs)).
Proof.
  induction refs as [|ref refs IH]; intros w closed; [by rewrite app_nil_r|]. cbn. unfold sbind. cbn. rewrite IH.
  by rewrite <- app_assoc.
Qed.

(** Endpoint [i] has connection [i]. *)
Definition numbered (p : Pool) : Prop := concat (map es_connections (pl_order p)) = seq 0 (length (pl_order p)).

Lemma abandonNew_record p err w : numbered p ->
  abandonNew recordedClose p err (w, []) = (inr err, (w, seq 0 (length (pl_order p)))).
Proof. intros Hp. unfold abandonNew, closeConstructed, sbind. by rewrite closeNewEach_record, Hp. Qed.

Lemma runNew_loop_exact endpoints : forall p w, numbered p -> exists setups n w',
  length setups = length endpoints /\ (n <= length endpoints)%nat /\
  runNew_loop recordedSetup recordedClose endpoints p (w, []) =
    (New_loop (zip endpoints setups) p,
     (w', match New_loop (zip endpoints setups) p with inl _ => [] | inr _ => seq 0 (length (pl_order p) + n) end)).
Proof.
  induction endpoints as [|config endpoints IH]; intros p w Hp; [by exists [], 0%nat, w|].
  cbn [runNew_loop]. destruct (Endpoint_Validate config) as [err|] eqn:Ev.
  { exists (inl 0 :: replicate (length endpoints) (inl 0)), 0%nat, w. cbn. rewrite length_replicate, Ev, Nat.add_0_r.
    split; [done|]. split; [lia|]. by apply abandonNew_record. }
  destruct (existsb _ (pl_order p)) eqn:Ed.
  { exists (inl 0 :: replicate (length endpoints) (inl 0)), 0%nat, w. cbn. rewrite length_replicate, Ev, Ed, Nat.add_0_r.
    split; [done|]. split; [lia|]. by apply abandonNew_record. }
  unfold sbind at 1. cbn [recordedSetup]. destruct (setupNew config w) as [[now|err] w1] eqn:Es.
  - set (p1 := with_order _ _). destruct (IH p1 w1) as (setups & n & w' & Hlen & Hn & H).
    { unfold numbered, p1 in *. cbn. rewrite map_app, concat_app, Hp, length_app. cbn. by rewrite seq_app. }
    exists (inl now :: setups), (S n), w'. cbn [zip zip_with New_loop length]. rewrite Ev, Ed. fold p1. rewrite H.
    split; [by rewrite Hlen|]. split; [lia|]. repeat f_equal. destruct (New_loop _ p1); [done|].
    unfold p1. cbn. rewrite length_app. cbn. f_equal. lia.
  - exists (inr err :: replicate (length endpoints) (inl 0)), 0%nat, w1. cbn. rewrite length_replicate, Ev, Ed, Nat.add_0_r.
    split; [done|]. split; [lia|]. by apply abandonNew_record.
Qed.

Lemma len_cons_zero {A} (x : A) l : (len (x :: l) =? 0) = false.
Proof. rewrite len_cons. pose proof (len_nonneg l). lia. Qed.

(** [New] makes the pool of the set-ups it saw, or closes every connection it
    made, each once and in order, and reports the error. *)
Lemma runNew_exact endpoints options w : exists setups n w',
  length setups = length endpoints /\ (n <= length endpoints)%nat /\
  runNew recordedSetup recordedClose endpoints options (w, []) =
    (New (zip endpoints setups) options,
     (w', match New (zip endpoints setups) options with inl _ => [] | inr _ => seq 0 n end)).
Proof.
  unfold runNew, New. destruct (len endpoints =? 0) eqn:E0.
  { exists (replicate (length endpoints) (inl 0)), 0%nat, w. rewrite length_replicate. split; [done|]. split; [lia|].
    destruct endpoints; [done|]. by rewrite len_cons_zero in E0. }
  destruct (Options_normalized options) as [o|err].
  - destruct (runNew_loop_exact endpoints (MkPool o false false 0 0 [] ∅ ∅) w) as (setups & n & w' & Hl & Hn & H); [done|].
    exists setups, n, w'. split; [done|]. split; [done|]. rewrite H. destruct endpoints as [|config endpoints]; [done|].
    destruct setups as [|setup setups]; [done|]. cbn [zip zip_with]. by rewrite len_cons_zero.
  - exists (replicate (length endpoints) (inl 0)), 0%nat, w. rewrite length_replicate. split; [done|]. split; [lia|].
    destruct endpoints as [|config endpoints]; [done|]. cbn [zip zip_with replicate length]. by rewrite len_cons_zero.
Qed.
End construction.

(** ** A sample schedule: nobody else runs, and dials fail *)

(** The world is what the others hold; a replacing goroutine that is started only
    takes its mark. *)
Lemma yields_ret {A} (x : A) : yields id (sret x : ST (Pool * local) A).
Proof. intros r. by apply runs_ret. Qed.

Definition quietSetup (ep : EpRef) : ST (Pool * local) (SetupResult unit + cerror) := sret (inr ErrTransport).
Definition quietSpawn (ep : EpRef) : ST (Pool * local) unit := fun '(p, e) => (tt, (p, replaces ep RLoop e)).

Lemma quiet_scheduled : pool_scheduled (P := unit) id (sret None) (fun _ => sret AcquireChanged) (sret AcquireChanged) (sret false)
  (fun _ => sret tt) (fun _ => sret None) (sret None) (sret tt) (sret tt) quietSpawn quietSetup (fun _ => sret tt)
  (fun _ => sret None) (fun _ _ => sret (inl true)) (sret NextEOF) (sret tt).
Proof.
  split; intros; try apply yields_ret; [|by apply runs_ret].
  intros w e _ (H1 & H2 & H3). exists w. split; [apply psteps_refl|]. split; [done|]. split_and!; [done|done|].
  cbn in *. by rewrite <- Permutation_middle.
Qed.

Definition pooledRequest : UntypedOperation :=
  MkUntypedOperation (Some (MkProtocolOperation (Primitive (applicationPrimitive 10) (bs "dc=example"))
                              (applicationPrimitive 10))) []
    (MkFramingPattern [] [applicationConstructed 11] false true) CancelDrain "ldap.delete".

Definition quietDo : ST (Pool * local) (option ((trackedStream * holder) + cerror)) :=
  Pool_Do (fun _ => 10) (fun _ => 0) (sret None) (fun _ => sret AcquireChanged) quietSpawn quietSetup (fun _ => sret tt)
    (fun _ _ => sret (inl true)) (fun _ => (MkIdentity [], tt, MkConnectionPolicy CancellationConservative)) (fun _ => None)
    (fun _ _ => true) 5 selectAny pooledRequest.
Definition quietLocal : local := MkLocal [] [] [].

Lemma quiet_new : pool_reachable (MkWorld (samplePool 2) [] [] []).
Proof. eapply (pool_sample_reachable 2); [apply psteps_refl|vm_compute; reflexivity]. Qed.

(** One operation: its unit of capacity is the only one in use, and no call is left. *)
Lemma pool_handlers_refine_witness :
  fst (quietDo (samplePool 2, quietLocal)) = Some (inl (MkTracked true "" false, HeldConnection 0%nat)) /\
  exists w, psteps (MkWorld (samplePool 2) [] [] []) w /\ w_pool w = (snd (quietDo (samplePool 2, quietLocal))).1 /\
    w_tokens w = [TPlain 0%nat] /\ w_calls w = [] /\ w_replacers w = [].
Proof.
  split; [vm_compute; reflexivity|].
  destruct (proj1 (pool_handlers_refine id (fun _ => 10) (fun _ => 0) _ _ _ _ _ _ _ _ _ _ _ _ _ (fun _ _ => false) _
    (fun _ => (MkIdentity [], tt, MkConnectionPolicy CancellationConservative)) (fun _ => None) (fun _ _ => true) (fun _ => ""%string)
    _ _ quiet_scheduled 5 selectAny pooledRequest 0%nat 0%nat 0%nat (HeldConnection 0%nat) [] (MkTracked true "" false)
    quietLocal) (MkWorld (samplePool 2) [] [] []) quietLocal quiet_new) as (w & Hs & Hw & Hp).
  - split; [|split]; reflexivity.
  - exists w. split; [exact Hs|]. split; [exact Hw|].
    assert (fst (quietDo (samplePool 2, quietLocal)) = Some (inl (MkTracked true "" false, HeldConnection 0%nat))) as E1
      by (vm_compute; reflexivity).
    assert (snd (snd (quietDo (samplePool 2, quietLocal))) = quietLocal) as E2 by (vm_compute; reflexivity).
    unfold quietDo in E1, E2. cbn [w_pool] in Hp. rewrite E1, E2 in Hp. destruct Hp as (Ht & Hc & Hr).
    split; [|split].
    + exact (Permutation_length_1_inv Ht).
    + exact (Permutation_nil Hc).
    + exact (Permutation_nil Hr).
Defined.
