(* ===== verification/Client.v ===== *)
(** * The client

    Models src/client.go and src/entry.go: ordinary LDAP operations over an
    executor, decoded response streams and the iteration over the entries of a
    search, with RFC 2696 paging.

    An executor is an interface of the source (a connection, a pool or a lease
    implements it): here the class [Executor], a state that its three methods
    change. Stream handles are opaque. The functions below thread that state
    and the mutable fields of [DecodedStream] and [Entries] explicitly. *)

From S2P Require Import Prelude Wire Packet Reader Decoder Types Protocol Result Attributes.
From S2P Require Import Filter Operations Search Errors.

(** ** The executor interface *)

Class Executor (S H : Type) := {
  ex_Do : UntypedOperation -> ST S (H + cerror);
  ex_Next : H -> ST S (Response + cerror);
  ex_Close : H -> ST S (option cerror)
}.

Definition pagedResultsOID : LDAPOID := bs "1.2.840.113556.1.4.319".
Definition ErrNotFound : cerror := Plain (ErrorString "arden: LDAP entry not found").
Definition ResultNoSuchObject : ResultCode := 32.

(** [*ResultError], or an error of the executor or a decoder. *)
Inductive clientError :=
| ClientFailure (err : cerror)
| ResultError (Operation : string) (Result : LDAPResult) (Controls : list Control).

(** [errors.Is]: the [Is] method of [*ResultError], which wraps nothing. *)
Definition clientError_Is (err : clientError) (target : cerror) : bool :=
  match err with
  | ClientFailure err => Is err target
  | ResultError _ result _ => is_sentinel target ErrNotFound && (lr_ResultCode result =? ResultNoSuchObject)
  end.

Definition failure (text : string) : clientError := ClientFailure (Plain (ErrorString text)).

(** The interface [rfc4511.ResultResponse]. *)
Class HasLDAPResult (T : Type) := LDAPResult_of : T -> LDAPResult.
#[export] Instance ResultResponse_result id : HasLDAPResult (ResultResponse id) := fun v => Result v.

(** ** Options *)

(** [None] is a nil option; the options of the package are controls and
    accepted result codes. *)
Definition requestControls (options : list (option Control)) : list (option Packet) :=
  omap (fmap (fun control => Some (BERPacket control))) options.

Definition applyExecute (accepted : gset ResultCode) (option : option (list ResultCode)) : gset ResultCode :=
  match option with
  | None => accepted
  | Some codes => list_to_set codes
  end.
Definition acceptedCodes (options : list (option (list ResultCode))) : gset ResultCode :=
  foldl applyExecute {[ResultSuccess]} options.

(** [strings.CutPrefix(label, "ldap.")]. *)
Definition operationName (label : string) : string :=
  if String.prefix "ldap." label then String.substring 5 (String.length label - 5) label else label.

Definition requireSuccess (operation : string) (result : LDAPResult) (controls : list Control) : option clientError :=
  if lr_ResultCode result =? ResultSuccess then None else Some (ResultError operation result controls).

(** ** Controls *)

Fixpoint decodeControls (elements : list Element) (limits : Limits) : result (list Control) :=
  match elements with
  | [] => Ok []
  | element :: elements =>
      control ← decode_message Control_UnmarshalBER (e_Raw element) limits;
      controls ← decodeControls elements limits;
      Ok (control :: controls)
  end.

Definition newPagedResultsControl (size : Z) (cookie : bytes) : Control :=
  let value := Encode (BERPacket (Add Sequence [Integer size; OctetString cookie])) in
  MkControl pagedResultsOID false value true [].

Definition readCookie (value : bytes) (limits : Limits) : result bytes :=
  reader ← NewReader value limits;
  match Reader_Sequence reader with
  | (Err err, _) => Err err
  | (Ok contents, reader) =>
      match Reader_Integer contents with
      | (Err err, _) => Err err
      | (Ok _, contents) =>
          match Reader_OctetString contents with
          | (Err err, _) => Err err
          | (Ok cookie, contents) =>
              match RequireEmpty contents with
              | Some err => Err err
              | None => match RequireEmpty reader with Some err => Err err | None => Ok cookie end
              end
          end
      end
  end.

Fixpoint pagedResultsCookie (controls : list Control) (limits : Limits) : result bytes :=
  match controls with
  | [] => Err (ErrorString "arden: paged-results response control is missing")
  | control :: controls =>
      if bool_decide (c_Type control = pagedResultsOID) then readCookie (c_Value control) limits
      else pagedResultsCookie controls limits
  end.

(** ** Decoded streams *)

Record DecodedStream (H T : Type) := MkDecoded {
  ds_stream : H;
  ds_responses : ResponsePattern T;
  ds_limits : Limits;
  ds_closed : bool
}.
Arguments MkDecoded {H T}.
Arguments ds_stream {H T} _.
Arguments ds_responses {H T} _.
Arguments ds_limits {H T} _.
Arguments ds_closed {H T} _.

Section streams.
Context {S H : Type} `{!Executor S H}.

(** The limits of a client are [ber.DefaultLimits()]. *)
Definition ExecuteStream {T} (operation : Operation T) : ST S (DecodedStream H T + cerror) := fun s =>
  match ex_Do (Untyped operation) s with
  | (inr err, s) => (inr err, s)
  | (inl stream, s) => (inl (MkDecoded stream (op_Responses operation) DefaultLimits false), s)
  end.

Definition DecodedStream_Next {T} (d : DecodedStream H T) : ST S ((T * list Control) + cerror) := fun s =>
  if ds_closed d then (inr (Plain (ErrorString "arden: decoded response stream is closed")), s)
  else
    match ex_Next (ds_stream d) s with
    | (inr err, s) => (inr err, s)
    | (inl response, s) =>
        (match Decode (ds_responses d) response (ds_limits d) with
         | Err err => inr (Plain err)
         | Ok decoded =>
             match decodeControls (rsp_Controls response) (ds_limits d) with
             | Err err => inr (Plain err)
             | Ok controls => inl (decoded, controls)
             end
         end, s)
    end.

Definition requireEnd {T} (d : DecodedStream H T) (unexpected : string) : ST S (option cerror) := fun s =>
  match DecodedStream_Next d s with
  | (inr err, s) => (if Is err (Plain EOF) then None else Some err, s)
  | (inl _, s) => (Some (Plain (ErrorString unexpected)), s)
  end.

Definition DecodedStream_Close {T} (d : DecodedStream H T) : ST S (option cerror * DecodedStream H T) := fun s =>
  if ds_closed d then (None, d, s)
  else
    let d' := MkDecoded (ds_stream d) (ds_responses d) (ds_limits d) true in
    let '(err, s) := ex_Close (ds_stream d) s in (err, d', s).

(** ** Single responses *)

(** The body of [ExecuteSingle] before its deferred [Close]: the response with
    its controls, and an error; a rejected result has both. *)
Definition ExecuteSingle_body {T} `{HasLDAPResult T} (operation : Operation T)
    (options : list (option (list ResultCode))) (d : DecodedStream H T)
    : ST S (option (T * list Control) * option clientError) := fun s =>
  match DecodedStream_Next d s with
  | (inr err, s) => (None, Some (ClientFailure err), s)
  | (inl (decoded, controls), s) =>
      match requireEnd d "arden: single-response operation returned more than one response" s with
      | (Some err, s) => (None, Some (ClientFailure err), s)
      | (None, s) =>
          let result := LDAPResult_of decoded in
          if bool_decide (lr_ResultCode result ∈ acceptedCodes options)
          then (Some (decoded, controls), None, s)
          else (Some (decoded, controls),
                Some (ResultError (operationName (op_Label operation)) result controls), s)
      end
  end.

Definition ExecuteSingle {T} `{HasLDAPResult T} (operation : Operation T)
    (options : list (option (list ResultCode))) : ST S (option (T * list Control) * option clientError) := fun s =>
  match ExecuteStream operation s with
  | (inr err, s) => (None, Some (ClientFailure err), s)
  | (inl d, s) =>
      let '(res, s) := ExecuteSingle_body operation options d s in
      let '(_, _, s) := DecodedStream_Close d s in
      (res, s)
  end.

(** The shape shared by the update operations. *)
Definition run {T} `{HasLDAPResult T} (operation : result (Operation T)) : ST S (option clientError) := fun s =>
  match operation with
  | Err err => (Some (ClientFailure (Plain err)), s)
  | Ok operation => let '(_, err, s) := ExecuteSingle operation [] s in (err, s)
  end.
End streams.

(** ** Entries *)

Record Entry := MkEntry { DN : LDAPDN; en_Attributes : Attributes }.
#[export] Instance Zero_Entry : Zero Entry := MkEntry [] None.

Definition NewEntry (dn : LDAPDN) : Entry := MkEntry dn None.
Definition entryFromSearchResult (wire : SearchResultEntry) : Entry :=
  MkEntry (se_ObjectName wire) (se_Attributes wire).

Section entry.
Context `{GoUnicode}.

(** [Set] and [SetBytes]: strings are their bytes. *)
Definition Entry_Set (e : Entry) (name : bytes) (values : list bytes) : Entry :=
  MkEntry (DN e) (Attributes_Set (en_Attributes e) (MkAttribute name values [])).

Definition attribute_values (e : Entry) (name : bytes) : list AttributeValue :=
  match Lookup (en_Attributes e) name with None => [] | Some attribute => a_Values attribute end.

Definition Entry_Values (e : Entry) (name : bytes) : list bytes := attribute_values e name.
Definition Entry_RawValue (e : Entry) (name : bytes) : bytes :=
  match attribute_values e name with [] => [] | value :: _ => value end.
Definition Entry_Value (e : Entry) (name : bytes) : bytes := Entry_RawValue e name.
Definition Entry_Contains (e : Entry) (name value : bytes) : bool :=
  existsb (fun candidate => bool_decide (candidate = value)) (attribute_values e name).
End entry.

(** ** Operations of the client *)

(** [Result] of an update is nil ([None]) or an error. *)
Section client.
Context `{U : GoUnicode} {S H : Type} `{!Executor S H}.

Definition Client_Add (entry : option Entry) (options : list (option Control)) : ST S (option clientError) := fun s =>
  match entry with
  | None => (Some (failure "arden: nil Add entry"), s)
  | Some entry =>
      run (NewAddOperation (Some (MkAddRequest (DN entry) (en_Attributes entry) [])) (requestControls options)) s
  end.

Definition ModifyWithOptions (dn : LDAPDN) (changes : list Change) (options : list (option Control))
    : ST S (option clientError) :=
  run (NewModifyOperation (Some (MkModifyRequest dn changes [])) (requestControls options)).
Definition Client_Modify (dn : LDAPDN) (changes : list Change) : ST S (option clientError) :=
  ModifyWithOptions dn changes [].

Definition Client_Delete (dn : LDAPDN) (options : list (option Control)) : ST S (option clientError) :=
  run (NewDeleteOperation (Some (MkDeleteRequest dn)) (requestControls options)).

Definition Client_compare (dn : LDAPDN) (attribute value : bytes) (options : list (option Control))
    : ST S (bool * option clientError) := fun s =>
  match NewCompareOperation (Some (MkCompareRequest dn (MkAVA attribute value []) [])) (requestControls options) with
  | Err err => (false, Some (ClientFailure (Plain err)), s)
  | Ok operation =>
      match ExecuteSingle operation [Some [ResultCompareFalse; ResultCompareTrue]] s with
      | (_, Some err, s) => (false, Some err, s)
      | (Some (response, _), None, s) =>
          let code := lr_ResultCode (Result response) in
          if code =? ResultCompareTrue then (true, None, s)
          else if code =? ResultCompareFalse then (false, None, s)
          else (false, Some (failure "arden: Compare returned an accepted non-Compare result code"), s)
      | (None, None, s) => (false, None, s)
      end
  end.

Definition Client_ModifyDN (dn : LDAPDN) (newRDN : RelativeLDAPDN) (deleteOldRDN : bool) (newSuperior : LDAPDN)
    (options : list (option Control)) : ST S (option clientError) :=
  let superior := if bool_decide (newSuperior = []) then None else Some newSuperior in
  run (NewModifyDNOperation (Some (MkModifyDNRequest dn newRDN deleteOldRDN superior [])) (requestControls options)).

(** ** Search *)

Record ClientSearchRequest := MkClientSearch {
  q_BaseDN : LDAPDN;
  q_Scope : SearchScope;
  q_DerefAliases : DerefAliases;
  q_SizeLimit : Z;
  q_TimeLimit : Z;
  q_TypesOnly : bool;
  q_Filter : Filter;
  q_Attributes : AttributeSelectors;
  q_PageSize : Z
}.

Definition protocolRequest (r : ClientSearchRequest) : SearchRequest :=
  MkSearchRequest (q_BaseDN r) (q_Scope r) (q_DerefAliases r) (q_SizeLimit r) (q_TimeLimit r) (q_TypesOnly r)
    (q_Filter r) (q_Attributes r) [].

Record Entries := MkEntries {
  rows_request : ClientSearchRequest;
  rows_options : list (option Packet);
  rows_stream : option (DecodedStream H SearchResult);
  rows_entry : Entry;
  rows_err : option clientError;
  rows_done : bool;
  rows_closed : bool;
  rows_controls : list Control;
  rows_referrals : list URI
}.

Definition set_stream d (r : Entries) : Entries :=
  MkEntries (rows_request r) (rows_options r) d (rows_entry r) (rows_err r) (rows_done r) (rows_closed r)
    (rows_controls r) (rows_referrals r).
Definition set_entry e (r : Entries) : Entries :=
  MkEntries (rows_request r) (rows_options r) (rows_stream r) e (rows_err r) (rows_done r) (rows_closed r)
    (rows_controls r) (rows_referrals r).
Definition set_err err (r : Entries) : Entries :=
  MkEntries (rows_request r) (rows_options r) (rows_stream r) (rows_entry r) (Some err) (rows_done r) (rows_closed r)
    (rows_controls r) (rows_referrals r).
Definition set_done closed (r : Entries) : Entries :=
  MkEntries (rows_request r) (rows_options r) (rows_stream r) (rows_entry r) (rows_err r) true closed
    (rows_controls r) (rows_referrals r).
Definition set_controls controls (r : Entries) : Entries :=
  MkEntries (rows_request r) (rows_options r) (rows_stream r) (rows_entry r) (rows_err r) (rows_done r) (rows_closed r)
    controls (rows_referrals r).
Definition add_referrals uris (r : Entries) : Entries :=
  MkEntries (rows_request r) (rows_options r) (rows_stream r) (rows_entry r) (rows_err r) (rows_done r) (rows_closed r)
    (rows_controls r) (rows_referrals r ++ uris).

Definition pageControls (r : Entries) (cookie : bytes) : list (option Packet) :=
  if q_PageSize (rows_request r) >? 0
  then rows_options r ++ [Some (BERPacket (newPagedResultsControl (q_PageSize (rows_request r)) cookie))]
  else rows_options r.

Definition startPage (cookie : bytes) (r : Entries) : ST S (option clientError * Entries) := fun s =>
  match rows_stream r with
  | Some _ =>
      (Some (failure "arden: cannot start a search page before closing the previous response stream"), r, s)
  | None =>
      match NewSearchOperation (Some (protocolRequest (rows_request r))) (pageControls r cookie) with
      | Err err => (Some (ClientFailure (Plain err)), r, s)
      | Ok operation =>
          match ExecuteStream operation s with
          | (inr err, s) => (Some (ClientFailure err), set_stream None r, s)
          | (inl d, s) => (None, set_stream (Some d) r, s)
          end
      end
  end.

Definition closeStream (r : Entries) : ST S (option cerror * Entries) := fun s =>
  match rows_stream r with
  | None => (None, r, s)
  | Some d => let '(err, _, s) := DecodedStream_Close d s in (err, set_stream None r, s)
  end.

(** What follows a [SearchResultDone]: [inl] another page was started, [inr] the
    iteration stops. *)
Definition Entries_finish (d : DecodedStream H SearchResult) (value : SearchResultDone) (controls : list Control)
    (r : Entries) : ST S (Entries + Entries) := fun s =>
  let r := set_controls controls r in
  match requireSuccess "search" (Result value) controls with
  | Some err => (inr (set_err err r), s)
  | None =>
      match requireEnd d "arden: Search returned data after SearchResultDone" s with
      | (Some err, s) => (inr (set_err (ClientFailure err) r), s)
      | (None, s) =>
          match closeStream r s with
          | (Some err, r, s) => (inr (set_err (ClientFailure err) r), s)
          | (None, r, s) =>
              if q_PageSize (rows_request r) =? 0 then (inr (set_done (rows_closed r) r), s)
              else
                match pagedResultsCookie controls DefaultLimits with
                | Err err => (inr (set_err (ClientFailure (Plain err)) r), s)
                | Ok cookie =>
                    if len cookie =? 0 then (inr (set_done (rows_closed r) r), s)
                    else
                      match startPage cookie r s with
                      | (Some err, r, s) => (inr (set_err err r), s)
                      | (None, r, s) => (inl r, s)
                      end
                end
          end
      end
  end.

(** The outcome of [Next]: its boolean, a nil dereference, or no more fuel. *)
Inductive nextOutcome := Advanced | Stopped | NilStream | OutOfFuel.

Fixpoint Entries_loop (fuel : nat) (r : Entries) : ST S (nextOutcome * Entries) := fun s =>
  match fuel with
  | O => (OutOfFuel, r, s)
  | Datatypes.S fuel =>
      match rows_stream r with
      | None => (NilStream, r, s)
      | Some d =>
          match DecodedStream_Next d s with
          | (inr err, s) => (Stopped, set_err (ClientFailure err) r, s)
          | (inl (decoded, controls), s) =>
              match sres_value decoded with
              | Some (SearchEntry value) => (Advanced, set_entry (entryFromSearchResult value) r, s)
              | Some (SearchReference value) => Entries_loop fuel (add_referrals (ref_URIs value) r) s
              | Some (SearchDone value) =>
                  match Entries_finish d value controls r s with
                  | (inl r, s) => Entries_loop fuel r s
                  | (inr r, s) => (Stopped, r, s)
                  end
              | None =>
                  (Stopped, set_err (ClientFailure (Plain
                     (FormatError "arden: Search decoded unexpected response type %T" []))) r, s)
              end
          end
      end
  end.

Definition Entries_Next (fuel : nat) (r : Entries) : ST S (nextOutcome * Entries) := fun s =>
  if rows_done r || match rows_err r with Some _ => true | None => false end then (Stopped, r, s)
  else Entries_loop fuel r s.

Definition Entries_Close (r : Entries) : ST S (option cerror * Entries) := fun s =>
  if rows_closed r then (None, r, s) else closeStream (set_done true r) s.

Definition Client_Search (request : ClientSearchRequest) (options : list (option Control)) : ST S (Entries + clientError) :=
  fun s =>
  let rows := MkEntries request (requestControls options) None zero None false false [] [] in
  match startPage [] rows s with
  | (Some err, _, s) => (inr err, s)
  | (None, rows, s) => (inl rows, s)
  end.

(** [Get] before its deferred [rows.Close()]. [None] stands for a call of
    [Next] that does not return. *)
Definition Get_body (fuel : nat) (rows : Entries) : ST S (option (Entry + clientError) * Entries) := fun s =>
  match Entries_Next fuel rows s with
  | (Advanced, rows, s) =>
      let entry := rows_entry rows in
      match Entries_Next fuel rows s with
      | (Advanced, rows, s) =>
          (Some (inr (failure "arden: base-object lookup returned more than one entry")), rows, s)
      | (Stopped, rows, s) =>
          (Some (match rows_err rows with Some err => inr err | None => inl entry end), rows, s)
      | (_, rows, s) => (None, rows, s)
      end
  | (Stopped, rows, s) =>
      (Some (inr (match rows_err rows with Some err => err | None => ClientFailure ErrNotFound end)), rows, s)
  | (_, rows, s) => (None, rows, s)
  end.

Definition getRequest (dn : LDAPDN) (attributes : list bytes) : ClientSearchRequest :=
  MkClientSearch dn ScopeBaseObject DerefNever 1 0 false (Has (bs "objectClass")) (NewAttributeSelectors attributes) 0.

Definition Client_Get (fuel : nat) (dn : LDAPDN) (attributes : list bytes) : ST S (option (Entry + clientError)) :=
  fun s =>
  match Client_Search (getRequest dn attributes) [] s with
  | (inr err, s) => (Some (inr err), s)
  | (inl rows, s) =>
      let '(res, rows, s) := Get_body fuel rows s in
      let '(_, _, s) := Entries_Close rows s in
      (res, s)
  end.

Definition RootDSE (fuel : nat) (attributes : list bytes) : ST S (option (Entry + clientError)) :=
  Client_Get fuel [] attributes.
End client.
Arguments Entries H : clear implicits.
