(* ===== verification/ClientSafety.v ===== *)
(** * Correctness of the client

    What the operations of Client.v guarantee for every executor: single
    responses are accepted exactly, streams are used and closed in order, and a
    paged search delivers what a paging server holds. *)

From S2P Require Import Prelude Wire Packet Reader Decoder Types Protocol Result Attributes.
From S2P Require Import Response Filter Operations Search Errors Client.

(** ** Single responses *)

Section single.
Context {S H : Type} `{!Executor S H} {T : Type} `{!HasLDAPResult T}.

Definition opened (operation : Operation T) (h : H) : DecodedStream H T :=
  MkDecoded h (op_Responses operation) DefaultLimits false.

(** The stream of the operation is one decodable response, and then its end. *)
Definition delivers (operation : Operation T) (h : H) (s : S) (decoded : T) (controls : list Control) (s' : S) : Prop :=
  exists response s1 err, ex_Next h s = (inl response, s1) /\
    Decode (op_Responses operation) response DefaultLimits = Ok decoded /\
    decodeControls (rsp_Controls response) DefaultLimits = Ok controls /\
    DecodedStream_Next (opened operation h) s1 = (inr err, s') /\ Is err (Plain EOF) = true.

Lemma DecodedStream_Next_ok operation h s v cs s' : DecodedStream_Next (opened operation h) s = (inl (v, cs), s') <->
  exists response, ex_Next h s = (inl response, s') /\
    Decode (op_Responses operation) response DefaultLimits = Ok v /\
    decodeControls (rsp_Controls response) DefaultLimits = Ok cs.
Proof.
  unfold DecodedStream_Next. cbn. destruct (ex_Next h s) as [[response|e] s1]; [|split; [done|naive_solver]].
  destruct (Decode _ _ _) as [v'|] eqn:Ed; [destruct (decodeControls _ _) as [cs'|] eqn:Ec|].
  - split; [intros [= -> -> ->]; eauto|]. intros (r & [= <- <-] & ? & ?). congruence.
  - split; [done|]. intros (r & [= <- <-] & ? & ?). congruence.
  - split; [done|]. intros (r & [= <- <-] & ? & ?). congruence.
Qed.

Definition verdict (operation : Operation T) (options : list (option (list ResultCode))) (decoded : T)
    (controls : list Control) : option clientError :=
  if bool_decide (lr_ResultCode (LDAPResult_of decoded) ∈ acceptedCodes options) then None
  else Some (ResultError (operationName (op_Label operation)) (LDAPResult_of decoded) controls).

Lemma body_exact operation options h s decoded controls err s' :
  ExecuteSingle_body operation options (opened operation h) s = (Some (decoded, controls), err, s') <->
  delivers operation h s decoded controls s' /\ err = verdict operation options decoded controls.
Proof.
  unfold ExecuteSingle_body, requireEnd, delivers, verdict.
  destruct (DecodedStream_Next (opened operation h) s) as [[[v cs]|e] s1] eqn:E1.
  2:{ split; [done|]. intros [(r & s0 & e0 & H1 & H2 & H3 & _) _].
      rewrite (proj2 (DecodedStream_Next_ok operation h s decoded controls s0)) in E1 by eauto. done. }
  apply DecodedStream_Next_ok in E1 as (response & H1 & H2 & H3).
  destruct (DecodedStream_Next (opened operation h) s1) as [[?|e] s2] eqn:E2.
  - split; [done|]. intros [(r & s0 & e0 & H1' & _ & _ & H4 & _) _]. rewrite H1 in H1'. injection H1' as <- <-. congruence.
  - destruct (Is e (Plain EOF)) eqn:Ee.
    + split.
      * intros Heq. case_bool_decide as Hb; injection Heq as <- <- <- <-; (split; [by eauto 10|]);
          [by rewrite bool_decide_true|by rewrite bool_decide_false].
      * intros [(r & s0 & e0 & H1' & H2' & H3' & H4 & _) ->]. rewrite H1 in H1'. injection H1' as <- <-.
        rewrite H2 in H2'. injection H2' as <-. rewrite H3 in H3'. injection H3' as <-.
        rewrite E2 in H4. injection H4 as <- <-. by case_bool_decide.
    + split; [done|]. intros [(r & s0 & e0 & H1' & _ & _ & H4 & He) _]. rewrite H1 in H1'. injection H1' as <- <-.
      congruence.
Qed.

Lemma ExecuteSingle_spec (operation : Operation T) options (s : S) :
  match ex_Do (Untyped operation) s with
  | (inr err, s1) => ExecuteSingle operation options s = (None, Some (ClientFailure err), s1)
  | (inl h, s1) => exists res err s2,
      ExecuteSingle operation options s = (res, err, snd (ex_Close h s2)) /\
      (res = None -> err <> None) /\
      (forall decoded controls s2', res = Some (decoded, controls) /\ s2 = s2' <->
         delivers operation h s1 decoded controls s2') /\
      forall decoded controls, res = Some (decoded, controls) -> err = verdict operation options decoded controls
  end.
Proof.
  unfold ExecuteSingle, ExecuteStream. destruct (ex_Do (Untyped operation) s) as [[h|err] s1]; [|done].
  fold (opened operation h). pose proof (body_exact operation options h s1) as Hb.
  destruct (ExecuteSingle_body operation options (opened operation h) s1) as [[res err] s2] eqn:E.
  unfold DecodedStream_Close. cbn [ds_closed ds_stream opened].
  exists res, err, s2. destruct (ex_Close h s2) as [c s3]. split; [done|]. split.
  - intros ->. unfold ExecuteSingle_body in E. destruct (DecodedStream_Next _ _) as [[[v cs]|e] s0]; [|by injection E as <- _].
    destruct (requireEnd _ _ _) as [[e|] s4]; [by injection E as <- _|]. case_bool_decide; done.
  - split.
    + intros decoded controls s2'. split.
      * intros [-> ->]. by apply (proj1 (Hb decoded controls err s2')).
      * intros Hd. specialize (Hb decoded controls (verdict operation options decoded controls) s2').
        pose proof (proj2 Hb (conj Hd eq_refl)) as He. by injection He as -> _ ->.
    + intros decoded controls ->. by apply (proj1 (Hb decoded controls err s2)).
Qed.

(** C15. [ExecuteSingle] accepts exactly one response: it returns a decoded
    response and its controls if and only if the executor starts the operation
    and its stream delivers one response that decodes, with its controls, and
    then the end; and then the error is nil if the result code is one of the
    accepted ones, and a [*ResultError] with that result otherwise. Whenever the
    executor started the operation, the last thing done is to close its stream. *)
Theorem execute_single_exact (operation : Operation T) options (s : S) :
  match ex_Do (Untyped operation) s with
  | (inr err, s1) => ExecuteSingle operation options s = (None, Some (ClientFailure err), s1)
  | (inl h, s1) => exists res err s2,
      ExecuteSingle operation options s = (res, err, snd (ex_Close h s2)) /\
      (res = None -> err <> None) /\
      (forall decoded controls s2', res = Some (decoded, controls) /\ s2 = s2' <->
         delivers operation h s1 decoded controls s2') /\
      forall decoded controls, res = Some (decoded, controls) ->
        err = (if bool_decide (lr_ResultCode (LDAPResult_of decoded) ∈ acceptedCodes options) then None
               else Some (ResultError (operationName (op_Label operation)) (LDAPResult_of decoded) controls))
  end.
Proof. exact (ExecuteSingle_spec operation options s). Qed.
End single.

Section operations.
Context {S H : Type} `{!Executor S H}.

(** [Compare] answers exactly: it returns true (false) without an error if
    and only if the operation is started and its one response has the result
    code compareTrue (compareFalse); every other outcome is an error. *)
Theorem compare_exact dn attribute value options (s : S) b s' :
  Client_compare dn attribute value options s = (b, None, s') <->
  exists operation h s1 response controls s2,
    NewCompareOperation (Some (MkCompareRequest dn (MkAVA attribute value []) [])) (requestControls options) = Ok operation /\
    ex_Do (Untyped operation) s = (inl h, s1) /\ delivers operation h s1 response controls s2 /\
    lr_ResultCode (Result response) = (if b then ResultCompareTrue else ResultCompareFalse) /\
    s' = snd (ex_Close h s2).
Proof.
  unfold Client_compare. destruct (NewCompareOperation _ _) as [operation|e]; [|split; [done|naive_solver]].
  pose proof (ExecuteSingle_spec operation [Some [ResultCompareFalse; ResultCompareTrue]] s) as Hs.
  destruct (ex_Do (Untyped operation) s) as [[h|e] s1] eqn:Ed.
  2:{ rewrite Hs. split; [done|]. intros (op & h & s2 & r & cs & s3 & [= <-] & He & _). congruence. }
  destruct Hs as (res & err & s2 & -> & Hn & Hr & Hv').
  assert (forall v cs, verdict operation [Some [ResultCompareFalse; ResultCompareTrue]] v cs = None <->
    lr_ResultCode (Result v) = ResultCompareFalse \/ lr_ResultCode (Result v) = ResultCompareTrue) as Hv.
  { intros v cs. unfold verdict, acceptedCodes. cbn. case_bool_decide as Hb; [|split; [done|]]; set_solver. }
  split.
  - intros Heq. destruct err as [err|]; [by destruct res as [[]|]|]. destruct res as [[v cs]|]; [|by destruct (Hn eq_refl)].
    pose proof (proj1 (Hr v cs s2) (conj eq_refl eq_refl)) as Hd. pose proof (Hv' v cs eq_refl) as Hvd.
    symmetry in Hvd. apply Hv in Hvd. exists operation, h, s1, v, cs, s2.
    destruct (_ =? ResultCompareTrue) eqn:E1; [|destruct (_ =? ResultCompareFalse) eqn:E2]; zbool; try done;
      simplify_eq; split_and!; done.
  - intros (op & h' & s1' & v & cs & s2' & [= <-] & He & Hd & Hc & ->).
    rewrite Ed in He. injection He as <- <-. destruct (proj2 (Hr v cs s2') Hd) as [-> ->].
    rewrite (Hv' v cs eq_refl), (proj2 (Hv v cs)), Hc; [by destruct b|]. destruct b; auto.
Qed.
End operations.

(** ** Stream discipline *)

(** An executor that also records the calls it gets. *)
Inductive event (H : Type) := EvDo (h : option H) | EvNext (h : H) | EvClose (h : H).
Arguments EvDo {H} h.
Arguments EvNext {H} h.
Arguments EvClose {H} h.

Definition started {H} (r : H + cerror) : option H := match r with inl h => Some h | inr _ => None end.

Definition traced {S H} (E : Executor S H) : Executor (S * list (event H)) H := {|
  ex_Do operation '(s, log) := let '(r, s) := ex_Do operation s in (r, (s, log ++ [EvDo (started r)]));
  ex_Next h '(s, log) := let '(r, s) := ex_Next h s in (r, (s, log ++ [EvNext h]));
  ex_Close h '(s, log) := let '(r, s) := ex_Close h s in (r, (s, log ++ [EvClose h]))
|}.

(** The stream that is open after the calls: [None] if a call was out of order,
    that is a second stream was started before the first was closed, or a stream
    was used that is not the open one. *)
Definition track {H} `{!EqDecision H} (state : option (option H)) (ev : event H) : option (option H) :=
  match state, ev with
  | Some None, EvDo h => Some h
  | Some (Some open), EvDo None => Some (Some open)
  | Some (Some open), EvNext h => if decide (h = open) then Some (Some open) else None
  | Some (Some open), EvClose h => if decide (h = open) then Some None else None
  | _, _ => None
  end.
Definition tracked {H} `{!EqDecision H} (log : list (event H)) : option (option H) := foldl track (Some None) log.

#[global] Arguments tracked : simpl never.

Lemma tracked_snoc {H} `{!EqDecision H} log (ev : event H) : tracked (log ++ [ev]) = track (tracked log) ev.
Proof. unfold tracked. by rewrite foldl_app. Qed.

Section discipline.
Context `{U : GoUnicode} {S H : Type} {E : Executor S H} `{!EqDecision H}.
Local Existing Instance traced.

(** The open stream is the one the iteration holds, and it holds one unless it
    is over. *)
Definition holds_stream (r : Entries H) (w : S * list (event H)) : Prop :=
  tracked (snd w) = Some (ds_stream <$> rows_stream r) /\
  (forall d, rows_stream r = Some d -> ds_closed d = false).

Definition live_rows (r : Entries H) : Prop :=
  rows_closed r = false /\ (rows_done r = true \/ rows_err r <> None \/ rows_stream r <> None).

Lemma next_tracked {T} (d : DecodedStream H T) w : ds_closed d = false -> tracked (snd w) = Some (Some (ds_stream d)) ->
  tracked (snd (snd (DecodedStream_Next d w))) = Some (Some (ds_stream d)).
Proof.
  destruct w as [s log]. intros Hc Ht. unfold DecodedStream_Next. rewrite Hc. cbn in *.
  destruct (ex_Next (ds_stream d) s) as [[response|e] s1]; cbn; rewrite tracked_snoc, Ht; cbn; by rewrite decide_True.
Qed.

Lemma requireEnd_tracked {T} (d : DecodedStream H T) text w : ds_closed d = false ->
  tracked (snd w) = Some (Some (ds_stream d)) ->
  tracked (snd (snd (requireEnd d text w))) = Some (Some (ds_stream d)).
Proof.
  intros Hc Ht. unfold requireEnd. pose proof (next_tracked d w Hc Ht) as Hn.
  by destruct (DecodedStream_Next d w) as [[?|e] w'].
Qed.

Lemma startPage_holds cookie r w : rows_stream r = None -> holds_stream r w ->
  let '(err, r', w') := startPage cookie r w in
  holds_stream r' w' /\ (match err with Some _ => rows_stream r' = None | None => rows_stream r' <> None end) /\
  rows_closed r' = rows_closed r.
Proof.
  intros Hr [Ht _]. unfold startPage. rewrite Hr. destruct (NewSearchOperation _ _) as [operation|e].
  2:{ split; [|done]. split; [done|]. intros d. by rewrite Hr. }
  destruct w as [s log]. unfold ExecuteStream. cbn in *. rewrite Hr in Ht.
  destruct (ex_Do (Untyped operation) s) as [[h|e] s1]; cbn; (split; [|done]); split; cbn;
    rewrite ?tracked_snoc, ?Ht; try done. by intros d [= <-].
Qed.

Lemma closeStream_holds r w : holds_stream r w ->
  let '(err, r', w') := closeStream r w in
  holds_stream r' w' /\ rows_stream r' = None /\ rows_closed r' = rows_closed r.
Proof.
  intros [Ht Hc]. unfold closeStream. destruct (rows_stream r) as [d|] eqn:Hr.
  2:{ split; [|done]. split; [by rewrite Hr|]. intros d. by rewrite Hr. }
  destruct w as [s log]. unfold DecodedStream_Close. rewrite (Hc d eq_refl). cbn in *.
  destruct (ex_Close (ds_stream d) s) as [e s1]. cbn. split; [|done]. split; [|done].
  cbn. rewrite tracked_snoc, Ht. cbn. by rewrite decide_True.
Qed.

Lemma holds_same r r' w : rows_stream r' = rows_stream r -> holds_stream r w -> holds_stream r' w.
Proof. unfold holds_stream. by intros ->. Qed.

Lemma finish_holds d value controls r w : rows_stream r = Some d -> rows_closed r = false -> holds_stream r w ->
  match Entries_finish d value controls r w with
  | (inl r', w') => holds_stream r' w' /\ rows_stream r' <> None /\ rows_closed r' = false
  | (inr r', w') => holds_stream r' w' /\ live_rows r'
  end.
Proof.
  intros Hr Hcl0 [Ht Hc]. pose proof (Hc d Hr) as Hd. unfold Entries_finish, live_rows.
  assert (holds_stream (set_controls controls r) w) as Hh by (eapply holds_same; [|by split]; done).
  destruct (requireSuccess _ _ _) as [e|]; [split; [by eapply holds_same|naive_solver]|].
  rewrite Hr in Ht. pose proof (requireEnd_tracked d "arden: Search returned data after SearchResultDone" w Hd Ht) as Hq.
  destruct (requireEnd _ _ _) as [[e|] w1]; cbn in Hq.
  { split; [|naive_solver]. split; [cbn; by rewrite Hq, Hr|]. cbn. apply Hc. }
  assert (holds_stream (set_controls controls r) w1) as Hh1.
  { split; [cbn; by rewrite Hq, Hr|]. cbn. apply Hc. }
  pose proof (closeStream_holds _ _ Hh1) as Hcl. destruct (closeStream _ _) as [[[e|] r2] w2].
  { destruct Hcl as (Hh2 & _ & Hcl2). split; [by eapply holds_same|]. cbn in *. rewrite Hcl2. naive_solver. }
  destruct Hcl as (Hh2 & Hn & Hcl2). cbn in Hcl2. rewrite Hcl0 in Hcl2.
  destruct (_ =? 0); [split; [by eapply holds_same|naive_solver]|].
  destruct (pagedResultsCookie _ _) as [cookie|e]; [|split; [by eapply holds_same|naive_solver]].
  destruct (len cookie =? 0); [split; [by eapply holds_same|naive_solver]|].
  pose proof (startPage_holds cookie r2 w2 Hn Hh2) as Hsp. destruct (startPage _ _ _) as [[[e|] r3] w3];
    destruct Hsp as (Hh3 & Hs & Hcl3); rewrite Hcl2 in Hcl3.
  - split; [by eapply holds_same|naive_solver].
  - done.
Qed.

Lemma loop_holds fuel : forall r w, rows_stream r <> None -> rows_closed r = false -> holds_stream r w ->
  let '(outcome, r', w') := Entries_loop fuel r w in
  holds_stream r' w' /\ outcome <> NilStream /\ live_rows r'.
Proof.
  unfold live_rows. induction fuel as [|fuel IH]; intros r w Hn Hcl Hh; [by split; [|split; [|naive_solver]]|].
  cbn [Entries_loop]. destruct (rows_stream r) as [d|] eqn:Hr; [|done]. pose proof Hh as [Ht Hc].
  rewrite Hr in Ht. pose proof (next_tracked d w (Hc d Hr) Ht) as Hq.
  destruct (DecodedStream_Next d w) as [[[decoded controls]|e] w1]; cbn in Hq.
  2:{ split; [|split; [done|naive_solver]]. split; [cbn; by rewrite Hq, Hr|]. cbn. apply Hc. }
  assert (holds_stream r w1) as Hh1 by (split; [by rewrite Hq, Hr|apply Hc]).
  destruct (sres_value decoded) as [[value|value|value]|].
  - split; [by eapply holds_same|]. split; [done|]. split; [done|]. right. right. cbn. by rewrite Hr.
  - apply IH; [cbn; by rewrite Hr|done|by eapply holds_same].
  - pose proof (finish_holds d value controls r w1 Hr Hcl Hh1) as Hf. destruct (Entries_finish _ _ _ _ _) as [[r2|r2] w2].
    + apply IH; apply Hf.
    + split; [apply Hf|]. split; [done|]. apply Hf.
  - split; [by eapply holds_same|]. split; [done|naive_solver].
Qed.

Lemma next_holds fuel r w : live_rows r -> holds_stream r w ->
  let '(outcome, r', w') := Entries_Next fuel r w in
  holds_stream r' w' /\ outcome <> NilStream /\ live_rows r'.
Proof.
  intros [Hcl Hl] Hh. unfold Entries_Next, live_rows. destruct (rows_done r) eqn:Ed; [naive_solver|].
  destruct (rows_err r) eqn:Ee; [naive_solver|].
  cbn [orb]. apply loop_holds; [|done|done]. destruct Hl as [?|[?|?]]; congruence.
Qed.

(** The calls of [Next] a caller makes, and whether one dereferenced nil. *)
Fixpoint nexts (fuels : list nat) (r : Entries H) (w : S * list (event H)) : bool * Entries H * (S * list (event H)) :=
  match fuels with
  | [] => (true, r, w)
  | fuel :: fuels =>
      let '(outcome, r, w) := Entries_Next fuel r w in
      let '(ok, r, w) := nexts fuels r w in
      (match outcome with NilStream => false | _ => ok end, r, w)
  end.

Lemma nexts_holds fuels : forall r w, live_rows r -> holds_stream r w ->
  let '(ok, r', w') := nexts fuels r w in ok = true /\ holds_stream r' w' /\ live_rows r'.
Proof.
  induction fuels as [|fuel fuels IH]; intros r w Hl Hh; [done|]. cbn [nexts].
  pose proof (next_holds fuel r w Hl Hh) as Hn. destruct (Entries_Next fuel r w) as [[outcome r1] w1].
  destruct Hn as (Hh1 & Ho & Hl1). specialize (IH r1 w1 Hl1 Hh1). destruct (nexts fuels r1 w1) as [[ok r2] w2].
  destruct IH as (-> & ?). by destruct outcome.
Qed.

(** C16. The iteration over a search uses its executor in order, whatever the
    executor answers: at most one response stream is open at a time, only the
    open stream is read, each stream is closed once before the next page is
    requested, and after any number of calls of [Next] a call of [Close] leaves
    no stream open; and [Next] never reads through a nil stream. *)
Theorem search_stream_discipline request options fuels (s : S) :
  match Client_Search (H := H) request options (s, []) with
  | (inr _, (_, log)) => tracked log = Some None
  | (inl rows, w) =>
      let '(ok, rows, w) := nexts fuels rows w in
      let '(_, _, (_, log)) := Entries_Close rows w in
      ok = true /\ tracked log = Some None
  end.
Proof.
  unfold Client_Search. set (rows := MkEntries _ _ _ _ _ _ _ _ _).
  assert (holds_stream rows (s, [])) as Hh by (split; done).
  pose proof (startPage_holds [] rows (s, []) eq_refl Hh) as Hp.
  destruct (startPage [] rows (s, [])) as [[[e|] r1] [s1 log1]]; destruct Hp as (Hh1 & Hs1 & Hc1).
  { destruct Hh1 as [Ht _]. by rewrite Hs1 in Ht. }
  pose proof (nexts_holds fuels r1 (s1, log1)) as Hn. destruct (nexts fuels r1 (s1, log1)) as [[ok r2] w2].
  destruct Hn as (-> & Hh2 & Hl2); [split; [done|by right; right]|done|]. unfold Entries_Close. destruct Hl2 as [-> _].
  pose proof (closeStream_holds (set_done true r2) w2) as Hc. destruct (closeStream _ w2) as [[e r3] [s3 log3]].
  destruct Hc as ([Ht _] & Hs & _); [by eapply holds_same|]. rewrite Hs in Ht. done.
Qed.
End discipline.

(** ** Paging *)

(** A page of a server: responses with the entry or the reference each decodes
    to, the final response, and the cookie of its paged-results control. *)
Inductive pageItem := PageEntry (v : SearchResultEntry) | PageReference (v : SearchResultReference).
Record Page := MkPage { pg_items : list (Response * pageItem); pg_done : Response; pg_cookie : bytes }.

Definition item_value (i : pageItem) : SearchResultValue :=
  match i with PageEntry v => SearchEntry v | PageReference v => SearchReference v end.

(** The responses a server still has to send on a stream. *)
Definition page_script (p : Page) : list Response := map fst (pg_items p) ++ [pg_done p].

(** A server that holds pages: it starts a search if the last control of the
    request is the paged-results control with the cookie it handed out last. *)
Record PageServer := MkServer { sv_size : Z; sv_cookie : bytes; sv_pages : list Page; sv_script : list Response }.

Definition asks_for (size : Z) (cookie : bytes) (operation : UntypedOperation) : bool :=
  match last (uo_Controls operation) with
  | Some (Some control) => bool_decide (Encode control = Encode (BERPacket (newPagedResultsControl size cookie)))
  | _ => false
  end.

#[export] Instance PageServer_Executor : Executor PageServer unit := {|
  ex_Do operation sv :=
    match sv_pages sv with
    | p :: pages =>
        if asks_for (sv_size sv) (sv_cookie sv) operation
        then (inl tt, MkServer (sv_size sv) (pg_cookie p) pages (page_script p))
        else (inr (Plain (ErrorString "unexpected cookie")), sv)
    | [] => (inr (Plain (ErrorString "no page left")), sv)
    end;
  ex_Next _ sv :=
    match sv_script sv with
    | response :: script => (inl response, MkServer (sv_size sv) (sv_cookie sv) (sv_pages sv) script)
    | [] => (inr (Plain EOF), sv)
    end;
  ex_Close _ sv := (None, sv)
|}.

Definition page_entries (items : list (Response * pageItem)) : list Entry :=
  omap (fun '(_, i) => match i with PageEntry v => Some (entryFromSearchResult v) | _ => None end) items.
Definition page_referrals (items : list (Response * pageItem)) : list URI :=
  concat (map (fun '(_, i) => match i with PageReference v => ref_URIs v | _ => [] end) items).

Section paging.
Context `{U : GoUnicode}.

Definition item_ok (x : Response * pageItem) : Prop :=
  Decode searchResponsePattern (fst x) DefaultLimits = Ok (MkSearchResult (Some (item_value (snd x)))) /\
  exists controls, decodeControls (rsp_Controls (fst x)) DefaultLimits = Ok controls.

Definition done_ok (p : Page) : Prop := exists v controls,
  Decode searchResponsePattern (pg_done p) DefaultLimits = Ok (MkSearchResult (Some (SearchDone v))) /\
  lr_ResultCode (Result v) = ResultSuccess /\
  decodeControls (rsp_Controls (pg_done p)) DefaultLimits = Ok controls /\
  pagedResultsCookie controls DefaultLimits = Ok (pg_cookie p).

(** Every page but the last has a cookie. *)
Fixpoint pages_ok (pages : list Page) : Prop :=
  match pages with
  | [] => True
  | p :: rest => Forall item_ok (pg_items p) /\ done_ok p /\ (pg_cookie p = [] <-> rest = []) /\ pages_ok rest
  end.

Definition all_items (pages : list Page) : list (Response * pageItem) := concat (map pg_items pages).

Definition search_operation (request : SearchRequest) (controls : list (option Packet)) : Operation SearchResult :=
  MkOperation (Some (MkProtocolOperation (BERPacket request) searchRequestIdentifier)) controls
    searchResponsePattern CancelAbandon "ldap.search".

Lemma search_operation_ok request controls : Forall (fun c => c <> None) controls ->
  NewSearchOperation (Some request) controls = Ok (search_operation request controls).
Proof.
  intros Hc. unfold NewSearchOperation. cbn [fmap option_fmap option_map]. apply newOperation_ok; [done| |done|done].
  unfold searchResponsePattern. by rewrite (proj2 (mustResponsePattern_ok _ _ searchResponseSpec_ok)).
Qed.

(** The iteration [rows] is in the middle of the page [p], with [items] left,
    and [rest] are the pages after it. *)
Record serving (rows : Entries unit) (sv : PageServer) (items : list (Response * pageItem)) (p : Page)
    (rest : list Page) : Prop := {
  sg_stream : rows_stream rows = Some (MkDecoded tt searchResponsePattern DefaultLimits false);
  sg_err : rows_err rows = None;
  sg_notDone : rows_done rows = false;
  sg_options : Forall (fun c => c <> None) (rows_options rows);
  sg_pageSize : 0 < q_PageSize (rows_request rows);
  sg_script : sv_script sv = map fst items ++ [pg_done p];
  sg_cookie : sv_cookie sv = pg_cookie p;
  sg_pages : sv_pages sv = rest;
  sg_size : sv_size sv = q_PageSize (rows_request rows);
  sg_items : Forall item_ok items;
  sg_done : done_ok p;
  sg_last : pg_cookie p = [] <-> rest = [];
  sg_rest : pages_ok rest
}.

(** Starting a page at the server. *)
Lemma startPage_serves rows sv p rest cookie : rows_stream rows = None -> rows_err rows = None ->
  rows_done rows = false -> Forall (fun c => c <> None) (rows_options rows) -> 0 < q_PageSize (rows_request rows) ->
  sv_size sv = q_PageSize (rows_request rows) -> sv_cookie sv = cookie -> sv_pages sv = p :: rest -> pages_ok (p :: rest) ->
  exists rows' sv', startPage cookie rows sv = (None, rows', sv') /\ serving rows' sv' (pg_items p) p rest /\
    rows_referrals rows' = rows_referrals rows /\ rows_controls rows' = rows_controls rows.
Proof.
  intros Hs He Hd Ho Hp Hz Hk Hpg Hok. unfold startPage, pageControls. rewrite Hs.
  replace (q_PageSize (rows_request rows) >? 0) with true by lia.
  set (controls := rows_options rows ++ _).
  assert (Forall (fun c => c <> None) controls) as Hc by (apply Forall_app; split; [done|by repeat constructor]).
  rewrite (search_operation_ok _ _ Hc). unfold ExecuteStream. cbn. rewrite Hpg.
  assert (asks_for (sv_size sv) (sv_cookie sv) (Untyped (search_operation (protocolRequest (rows_request rows)) controls)) = true) as ->.
  { unfold asks_for. cbn. unfold controls. rewrite last_snoc, Hz, Hk. by apply bool_decide_true. }
  destruct Hok as (? & ? & ? & ?). eexists _, _. split; [done|]. split; [|done]. by constructor.
Qed.

(** What a call of [Next] does at the server: it delivers the next entry, after
    the references before it and across pages, or ends. *)
Definition served (rows : Entries unit) (items : list (Response * pageItem)) (rest : list Page)
    (res : nextOutcome * Entries unit * PageServer) : Prop :=
  let '(outcome, rows', sv') := res in
  (outcome = Advanced /\ exists items' p' rest' skipped,
     serving rows' sv' items' p' rest' /\
     page_entries (items ++ all_items rest) = rows_entry rows' :: page_entries (items' ++ all_items rest') /\
     rows_referrals rows' = rows_referrals rows ++ skipped /\
     page_referrals (items ++ all_items rest) = skipped ++ page_referrals (items' ++ all_items rest') /\
     (length (items' ++ all_items rest') < length (items ++ all_items rest))%nat /\
     (length (items' ++ all_items rest') + length rest' < length (items ++ all_items rest) + length rest)%nat) \/
  (outcome = Stopped /\ rows_err rows' = None /\ rows_done rows' = true /\
   page_entries (items ++ all_items rest) = [] /\
   rows_referrals rows' = rows_referrals rows ++ page_referrals (items ++ all_items rest)).

Lemma next_item rows sv (x : Response * pageItem) items p rest : serving rows sv (x :: items) p rest ->
  exists controls sv', DecodedStream_Next (MkDecoded tt searchResponsePattern DefaultLimits false) sv =
    (inl (MkSearchResult (Some (item_value (snd x))), controls), sv') /\ serving rows sv' items p rest.
Proof.
  intros []. inversion_clear sg_items0 as [|? ? [Hx [cs Hcs]] Hxs].
  unfold DecodedStream_Next. cbn. rewrite sg_script0. cbn. rewrite Hx, Hcs. eexists _, _. split; [done|]. by constructor.
Qed.

(** The fields an update of the iteration keeps. *)
Lemma serving_update rows rows' sv items p rest : serving rows sv items p rest ->
  rows_stream rows' = rows_stream rows -> rows_err rows' = rows_err rows -> rows_done rows' = rows_done rows ->
  rows_options rows' = rows_options rows -> rows_request rows' = rows_request rows -> serving rows' sv items p rest.
Proof. intros [] E1 E2 E3 E4 E5. constructor; rewrite ?E1, ?E2, ?E3, ?E4, ?E5; done. Qed.

(** The end of a page. *)
Lemma page_end rows sv p rest : serving rows sv [] p rest ->
  exists v controls sv' sv2, DecodedStream_Next (MkDecoded tt searchResponsePattern DefaultLimits false) sv =
    (inl (MkSearchResult (Some (SearchDone v)), controls), sv') /\
  match rest with
  | [] => exists rows', Entries_finish (MkDecoded tt searchResponsePattern DefaultLimits false) v controls rows sv' =
        (inr rows', sv2) /\ rows_err rows' = None /\ rows_done rows' = true /\ rows_referrals rows' = rows_referrals rows
  | p' :: rest' => exists rows', Entries_finish (MkDecoded tt searchResponsePattern DefaultLimits false) v controls rows sv' =
        (inl rows', sv2) /\ serving rows' sv2 (pg_items p') p' rest' /\ rows_referrals rows' = rows_referrals rows
  end.
Proof.
  intros []. destruct sg_done0 as (v & controls & Hd & Hc & Hcs & Hk).
  exists v, controls, (MkServer (sv_size sv) (sv_cookie sv) (sv_pages sv) []).
  unfold DecodedStream_Next at 1. cbn. rewrite sg_script0. cbn. rewrite Hd, Hcs.
  unfold Entries_finish, requireSuccess, requireEnd, DecodedStream_Next, closeStream. cbn. rewrite Hc, sg_stream0. cbn.
  replace (q_PageSize (rows_request rows) =? 0) with false by lia. rewrite Hk.
  destruct rest as [|p' rest'].
  - assert (pg_cookie p = []) as -> by (by apply sg_last0). cbn. eexists. split; [done|]. by eexists.
  - replace (len (pg_cookie p) =? 0) with false.
    2:{ symmetry. apply Z.eqb_neq. rewrite len_zero. intros Hn. by apply sg_last0 in Hn. }
    destruct (startPage_serves (set_stream None (set_controls controls rows))
      (MkServer (sv_size sv) (sv_cookie sv) (sv_pages sv) []) p' rest' (pg_cookie p))
      as (rows' & sv2 & Hst & Hsv & Href & _); try done.
    exists sv2. split; [done|]. exists rows'. split; [|done].
    cbn in Hst. by rewrite Hst.
Qed.

Lemma Entries_loop_serves fuel : forall rows sv items p rest, serving rows sv items p rest ->
  (length (items ++ all_items rest) + length rest < fuel)%nat -> served rows items rest (Entries_loop fuel rows sv).
Proof.
  induction fuel as [|fuel IH]; intros rows sv items p rest Hs Hf; [lia|]. cbn [Entries_loop].
  rewrite (sg_stream _ _ _ _ _ Hs). destruct items as [|x items].
  - destruct (page_end _ _ _ _ Hs) as (v & controls & sv1 & sv2 & -> & Hrest). cbn [sres_value].
    destruct rest as [|p' rest'].
    + destruct Hrest as (rows' & -> & He & Hd & Hr). right. cbn. rewrite app_nil_r. done.
    + destruct Hrest as (rows' & -> & Hs' & Hr). cbn in Hf.
      specialize (IH _ _ _ _ _ Hs' ltac:(unfold all_items in *; cbn in *; lia)).
      unfold served in *. destruct (Entries_loop fuel rows' sv2) as [[outcome rows2] sv3]. rewrite Hr in IH. 
      change ([] ++ all_items (p' :: rest')) with (pg_items p' ++ all_items rest'). cbn [length].
      destruct IH as [(-> & items2 & p2 & rest2 & skipped & ? & ? & ? & ? & ? & ?)|IH]; [left|by right].
      split; [done|]. exists items2, p2, rest2, skipped. split_and!; try done; lia.
  - destruct (next_item _ _ _ _ _ _ Hs) as (controls & sv' & -> & Hs'). destruct x as [response [v|v]]; cbn.
    + left. split; [done|]. exists items, p, rest, []. cbn. split_and!; try done; [|by rewrite app_nil_r|lia|lia].
      by eapply serving_update.
    + assert (serving (add_referrals (ref_URIs v) rows) sv' items p rest) as Hs'' by (by eapply serving_update).
      specialize (IH _ _ _ _ _ Hs'' ltac:(cbn in Hf; lia)). unfold served in *.
      destruct (Entries_loop fuel _ sv') as [[outcome rows'] sv'']. cbn in IH.
      destruct IH as [(-> & items2 & p2 & rest2 & skipped & ? & ? & Hr & Hp & ? & ?)|(-> & ? & ? & ? & Hr)]; [left|right].
      * split; [done|]. exists items2, p2, rest2, (ref_URIs v ++ skipped). split_and!; try done; try (cbn; lia).
        -- by rewrite Hr, (assoc_L (++)).
        -- unfold page_referrals in *. cbn. by rewrite Hp, (assoc_L (++)).
      * split_and!; try done. rewrite Hr. unfold page_referrals. cbn. by rewrite (assoc_L (++)).
Qed.
End paging.

(** ** The paged-results control *)

Definition paged_tree (size : Z) (cookie : bytes) : tlv :=
  Cons SequenceIdentifier [t_int size; t_octets cookie].

Lemma paged_encodes m size cookie : wf_tlv m (paged_tree size cookie) = true ->
  encodes (BERPacket (Add Sequence [Integer size; OctetString cookie])) (paged_tree size cookie).
Proof.
  intros Hwf. unfold paged_tree in *. wf_split Hwf. encoder m.
Qed.

Lemma readCookie_enc l size cookie : admits l (paged_tree size cookie) -> in_type int64 size = true -> size < 2 ^ 63 ->
  readCookie (enc (paged_tree size cookie)) l = Ok cookie.
Proof.
  intros (Hv & Hwf & Hfr & Hcnt & Hh & Hi) H64 Hmax. unfold readCookie, NewReader.
  rewrite Hv. set (t := paged_tree size cookie) in *.
  replace (len (enc t) >? MaxFrameBytes l) with false by lia. cbn [mbind result_bind].
  set (r := MkReader (enc t) 0 0 0 l 0). pose proof (count_pos t). pose proof (len_nonneg (enc t)).
  assert (reader_ok r) as Hr by (split; cbn; lia).
  assert (unread r = enc t ++ []) as Hu by (unfold unread, slice_from; cbn; by rewrite drop_0, app_nil_r).
  assert (fits r t) as Hf by (split; [done|split; cbn; lia]).
  unfold Reader_Sequence. rewrite (Reader_Constructed_enc r SequenceIdentifier _ [] Hr Hu Hf). cbn zeta.
  fold t. destruct (childReader_enc r SequenceIdentifier _ [] Hr Hu Hf) as (Hr1 & Hu1 & Hf1 & _). fold t in Hr1, Hu1, Hf1.
  set (c := childReader _ _) in *. change (concat (map enc [t_int size; t_octets cookie])) with
    (encs [t_int size; t_octets cookie]) in Hu1.
  destruct (fits_all_cons _ _ _ Hf1) as [Hft _]. rewrite encs_cons in Hu1.
  assert (int_ok c) as Hic by done.
  unfold Reader_Integer. rewrite (integer_Decodes int64 IntegerIdentifier size eq_refl H64 Hmax c _ Hr1 Hu1 Hft Hic).
  destruct (skip_step c (t_int size) [t_octets cookie] Hr1) as (_ & _ & _ & Hr2 & Hu2 & Hf2); [by rewrite encs_cons|done|].
  fold (t_int size). set (c2 := advance c _ _) in *. destruct (fits_all_cons _ _ _ Hf2) as [Hft2 _].
  destruct (skip_step c2 (t_octets cookie) [] Hr2 Hu2 Hf2) as (_ & _ & _ & Hr3 & Hu3 & _).
  rewrite encs_cons in Hu2. unfold Reader_OctetString.
  rewrite (Reader_Primitive_enc c2 OctetStringIdentifier cookie _ Hr2 Hu2 Hft2).
  assert (RequireEmpty (advance c2 (len (enc (Prim OctetStringIdentifier cookie))) 1) = None) as ->.
  { assert (Empty (advance c2 (len (enc (Prim OctetStringIdentifier cookie))) 1) = true) as He
      by exact (proj2 (Empty_unread _ Hr3) Hu3). unfold RequireEmpty. by rewrite He. }
  unfold RequireEmpty, Empty, Remaining. cbn. by rewrite Z.sub_diag.
Qed.

Lemma paged_cookie size cookie l : admits l (paged_tree size cookie) -> in_type uint32 size = true ->
  pagedResultsCookie [newPagedResultsControl size cookie] l = Ok cookie.
Proof.
  intros Hl Hs. cbn [pagedResultsCookie newPagedResultsControl c_Type c_Value]. rewrite bool_decide_true by done.
  destruct (paged_encodes _ _ _ (proj1 (proj2 Hl))) as [-> _].
  unfold in_type in Hs. cbn [it_signed it_bits uint32] in Hs. zbool.
  apply readCookie_enc; [done| |lia]. unfold in_type. cbn [it_signed it_bits int64]. lia.
Qed.

(** ** The whole search *)

Section search.
Context `{U : GoUnicode}.

(** The loop of a caller: [for rows.Next() { entries = append(entries, rows.Entry()) }]. *)
Fixpoint collect (n fuel : nat) (rows : Entries unit) (sv : PageServer) : option (list Entry) * Entries unit * PageServer :=
  match n with
  | O => (None, rows, sv)
  | Datatypes.S n =>
      match Entries_Next fuel rows sv with
      | (Advanced, rows, sv) =>
          let entry := rows_entry rows in
          let '(entries, rows, sv) := collect n fuel rows sv in ((cons entry) <$> entries, rows, sv)
      | (Stopped, rows, sv) => (Some [], rows, sv)
      | (_, rows, sv) => (None, rows, sv)
      end
  end.

Lemma collect_serves n : forall fuel rows sv items p rest, serving rows sv items p rest ->
  (length (items ++ all_items rest) < n)%nat ->
  (length (items ++ all_items rest) + length rest < fuel)%nat ->
  exists rows' sv', collect n fuel rows sv = (Some (page_entries (items ++ all_items rest)), rows', sv') /\
    rows_err rows' = None /\ rows_done rows' = true /\
    rows_referrals rows' = rows_referrals rows ++ page_referrals (items ++ all_items rest).
Proof.
  induction n as [|n IH]; intros fuel rows sv items p rest Hs Hn Hf; [lia|]. cbn [collect].
  unfold Entries_Next. rewrite (sg_notDone _ _ _ _ _ Hs), (sg_err _ _ _ _ _ Hs). cbn [orb].
  pose proof (Entries_loop_serves fuel rows sv items p rest Hs Hf) as Hl.
  destruct (Entries_loop fuel rows sv) as [[outcome rows1] sv1].
  destruct Hl as [(-> & items' & p' & rest' & skipped & Hs' & He & Hr & Hp & Hlt & Hlt')|(-> & Herr & Hd & He & Hr)].
  - destruct (IH fuel rows1 sv1 items' p' rest' Hs' ltac:(lia) ltac:(lia)) as (rows2 & sv2 & Hc & H1 & H2 & H3).
    rewrite Hc. exists rows2, sv2. cbn. rewrite He. split_and!; try done. by rewrite H3, Hr, Hp, (assoc_L (++)).
  - exists rows1, sv1. by rewrite He.
Qed.

(** C10. A paged search is complete and in order: from a server that holds pages
    (each response decodes, each page ends in success with a paged-results
    control, and only the last page has an empty cookie), iterating until
    [Next] is false collects exactly the entries of all pages in order, and the
    referrals of all pages in order, without an error; every page is requested
    with the cookie of the page before it, since the server serves no other
    request. The bounds on the calls and on the responses that one call reads
    are the numbers of responses and pages. *)
Theorem paged_search_complete request options pages n fuel :
  0 < q_PageSize request -> pages <> [] -> pages_ok pages ->
  (length (all_items pages) < n)%nat -> (length (all_items pages) + length pages <= fuel)%nat ->
  exists rows sv rows' sv',
    Client_Search request options (MkServer (q_PageSize request) [] pages []) = (inl rows, sv) /\
    collect n fuel rows sv = (Some (page_entries (all_items pages)), rows', sv') /\
    rows_err rows' = None /\ rows_done rows' = true /\ rows_referrals rows' = page_referrals (all_items pages).
Proof.
  intros Hp Hn Hok Hcalls Hfuel. destruct pages as [|p rest]; [done|]. unfold Client_Search.
  destruct (startPage_serves (MkEntries request (requestControls options) None zero None false false [] [])
    (MkServer (q_PageSize request) [] (p :: rest) []) p rest []) as (rows & sv & -> & Hs & Href & _); try done.
  { unfold requestControls. cbn. induction options as [|[c|] options IH]; cbn; [constructor|by constructor|done]. }
  change (all_items (p :: rest)) with (pg_items p ++ all_items rest) in *. cbn [length] in Hfuel.
  destruct (collect_serves n fuel rows sv (pg_items p) p rest Hs ltac:(lia) ltac:(lia)) as (rows' & sv' & H1 & H2 & H3 & H4).
  exists rows, sv, rows', sv'. split; [done|]. split; [done|]. split; [done|]. split; [done|]. by rewrite H4, Href.
Qed.
End search.

(** ** A sample search *)

#[local] Existing Instance ascii_unicode.

Definition sample_response {T} `{Packeter T} (id : Identifier) (v : T) (controls : list Control) : Response :=
  MkResponse 1 id [] (Encode (BERPacket v))
    (map (fun c => MkElement SequenceIdentifier [] (Encode (BERPacket c)) 0) controls) [].

Definition sample_item (dn : string) : Response * pageItem :=
  let v := MkSearchResultEntry (bs dn) (NewAttributes [MkAttribute (bs "cn") [bs dn] []]) [] in
  (sample_response searchEntryIdentifier v [], PageEntry v).
Definition sample_reference : Response * pageItem :=
  let v := MkSearchResultReference [bs "ldap://other"] [] in
  (sample_response searchReferenceIdentifier v [], PageReference v).
Definition sampleDone : SearchResultDone := MkResultResponse (MkLDAPResult 0 [] [] [] []).
Definition sample_done (cookie : bytes) : Response :=
  sample_response searchDoneIdentifier sampleDone
    [newPagedResultsControl 0 cookie].

Definition sample_pages : list Page :=
  [MkPage [sample_item "cn=a"; sample_reference] (sample_done [7]) [7]; MkPage [sample_item "cn=b"] (sample_done []) []].
Definition sample_search : ClientSearchRequest :=
  MkClientSearch (bs "dc=x") ScopeWholeSubtree DerefNever 0 0 false (Has (bs "cn")) (NewAttributeSelectors []) 1.

Lemma sample_pages_ok : pages_ok sample_pages.
Proof.
  cbn [pages_ok sample_pages].
  assert (forall dn, dn = "cn=a"%string \/ dn = "cn=b"%string -> item_ok (sample_item dn)) as Hi.
  { intros dn [-> | ->]; (split; [vm_compute; reflexivity|]); eexists; vm_compute; reflexivity. }
  assert (item_ok sample_reference) as Hr by (split; [vm_compute; reflexivity|eexists; vm_compute; reflexivity]).
  assert (forall items cookie, cookie = [7] \/ cookie = [] -> done_ok (MkPage items (sample_done cookie) cookie)) as Hd.
  { intros items cookie [-> | ->]; exists sampleDone;
      eexists; (split; [vm_compute; reflexivity|]); (split; [reflexivity|]); (split; [vm_compute; reflexivity|]); vm_compute; reflexivity. }
  assert (item_ok (sample_item "cn=a")) by auto. assert (item_ok (sample_item "cn=b")) by auto.
  split; [by repeat (apply Forall_cons; split; [done|])|]. split; [auto|]. split; [done|].
  split; [by repeat (apply Forall_cons; split; [done|])|]. split; [auto|]. done.
Qed.

Lemma paged_search_complete_witness : exists rows sv rows' sv',
  Client_Search sample_search [] (MkServer 1 [] sample_pages []) = (inl rows, sv) /\
  collect 4 5 rows sv = (Some (page_entries (all_items sample_pages)), rows', sv') /\
  map DN (page_entries (all_items sample_pages)) = [bs "cn=a"; bs "cn=b"] /\
  rows_referrals rows' = [bs "ldap://other"].
Proof.
  destruct (paged_search_complete sample_search [] sample_pages 4 5) as (rows & sv & rows' & sv' & H1 & H2 & _ & _ & H3).
  - reflexivity.
  - discriminate.
  - exact sample_pages_ok.
  - cbn. lia.
  - cbn. lia.
  - exists rows, sv, rows', sv'. split; [exact H1|]. split; [exact H2|]. split; [vm_compute; reflexivity|].
    rewrite H3. vm_compute. reflexivity.
Defined.
