(* ===== verification/Stack.v ===== *)
(** * The whole stack

    Composes the client (Client.v) with the handlers of a connection (ConnRun.v),
    the envelope (Response.v), the framer (Framer.v) and the message codecs over a
    network. The network accepts writes in pieces of any sizes and gives back the
    bytes of a server, a function of the bytes it was sent; while a caller waits for
    a response, the read loop takes its turns. The connection implements the
    interface [Executor] of the client, and the theorem says what a client's single
    request amounts to, from bytes to bytes. *)

From S2P Require Import Prelude Wire Packet Reader Framer Decoder Types Protocol Result Errors Options.
From S2P Require Import Response Attributes Operations Search Bind Extended Endpoint Conn ConnSafety.
From S2P Require Import ConnRun ConnRefine Client ClientSafety.

Open Scope run_scope.

(** ** The network *)

(** The sizes of the next writes, all bytes sent, those that the server has not
    answered yet, and the framer over the bytes received. *)
Record Net := MkNet { nt_sizes : list nat; nt_sent : bytes; nt_out : bytes; nt_framer : Framer }.

Definition set_framer (f : Framer) (n : Net) : Net := MkNet (nt_sizes n) (nt_sent n) [] f.

Section stack.
Variable serve : bytes -> bytes.
Abbreviation World := (Conn * Net)%type.

(** A context that is never done. *)
Definition background : ST World (option cerror) := fun w => (None, w).

(** A write takes at least one byte. *)
Definition net_write (data : bytes) : ST World (nat * option cerror * bool) := fun '(c, n) =>
  let k := match nt_sizes n with [] => length data | s :: _ => Nat.max 1 (Nat.min s (length data)) end in
  ((k, None, true),
   (c, MkNet (tail (nt_sizes n)) (nt_sent n ++ take k data) (nt_out n ++ take k data) (nt_framer n))).

(** The bytes that the framer is still to see. *)
Definition incoming (n : Net) : bytes := f_stream (nt_framer n) ++ serve (nt_out n).

Definition net_frame : ST World (bytes + error * bool) := fun '(c, n) =>
  match Framer.Next (with_stream (nt_framer n) (incoming n)) with
  | (Frame b, f) => (inl b, (c, set_framer f n))
  | (FrameErr err, f) => (inr (err, false), (c, set_framer f n))
  | (FramePanic, f) => (inr (ErrorString "panic", false), (c, set_framer f n))
  end.

Definition nowhere (_ : OpRef) : ST World unit := sret tt.

(** While a caller of [Next] waits, the reader takes one message. *)
Definition reader_turn : ST World nextWait :=
  readLoop_round nowhere net_frame (sret true) 1 ;; sret NextSignal.

(** ** The connection is an executor *)

Definition starved : cerror := Plain (ErrorString "no progress").

#[export] Instance conn_executor : Executor World OpRef := {|
  ex_Do op :=
    let* r := do background (sret IDChanged) (sret WriterToken) net_write (sret tt) 1 operationApplication op in
    sret (match r with DoStream ref => inl ref | DoFailed err => inr err | DoBlocked => inr starved end);
  ex_Next ref :=
    let* r := Next nowhere background reader_turn 2 ref in
    sret (match r with Some outcome => outcome | None => inr starved end);
  ex_Close ref := (stream_Close nowhere ref ;; sret None)
|}.

(** ** Writing *)

Lemma net_writeAll_loop message fuel : forall total c n, (total <= length message <= total + fuel)%nat ->
  exists sizes, writeAll_loop background net_write fuel message total (c, n) =
    (Some (length message, None),
     (c, MkNet sizes (nt_sent n ++ drop total message) (nt_out n ++ drop total message) (nt_framer n))).
Proof.
  induction fuel as [|fuel IH]; intros total c n Ht; cbn [writeAll_loop].
  - assert (total = length message) as -> by lia. rewrite Nat.ltb_irrefl, drop_all, !app_nil_r. cbn.
    exists (nt_sizes n). by destruct n.
  - destruct (total <? length message)%nat eqn:El; cbn [negb].
    2:{ apply Nat.ltb_ge in El. assert (total = length message) as -> by lia. rewrite drop_all, !app_nil_r.
        exists (nt_sizes n). by destruct n. }
    apply Nat.ltb_lt in El. unfold sbind, writeAll_round, sbind, sret, net_write at 1. unfold background at 1. rewrite length_drop.
    set (k := match nt_sizes n with [] => _ | s :: _ => _ end).
    assert (1 <= k <= length message - total)%nat as Hk by (unfold k; destruct (nt_sizes n); lia).
    replace (k =? 0)%nat with false by (symmetry; apply Nat.eqb_neq; lia). cbn [negb]. cbv zeta.
    destruct (IH (total + k)%nat c (MkNet (tail (nt_sizes n)) (nt_sent n ++ take k (drop total message))
      (nt_out n ++ take k (drop total message)) (nt_framer n)) ltac:(lia)) as [sizes ->].
    exists sizes. cbn [nt_sent nt_out nt_framer]. rewrite <- !app_assoc, <- drop_drop, take_drop. done.
Qed.

Lemma net_writeAll message c n : exists sizes, writeAll background net_write message (c, n) =
  (Some (length message, None), (c, MkNet sizes (nt_sent n ++ message) (nt_out n ++ message) (nt_framer n))).
Proof. apply net_writeAll_loop. lia. Qed.

(** ** Starting an operation *)

(** A connection that is ready and has a free identifier, and a network with
    nothing under way. *)
Record idle_stack (c : Conn) (n : Net) : Prop := {
  is_reachable : reachable c;
  is_err : c_err c = None;
  is_closing : c_closing c = false;
  is_state : c_state c = stateReady;
  is_free : Z.of_nat (size (c_reserved c)) + Z.of_nat (size (c_pending c)) + Z.of_nat (size (c_tombstones c)) < c_maxID c;
  is_queue : 0 < MaxQueuedResponses (c_options c);
  is_out : nt_out n = [];
  is_in : f_stream (nt_framer n) = [];
  is_limits : f_limits (nt_framer n) = BERLimits (c_options c)
}.

(** The connection [c] with the operation [p] under way, and after it; [next] is
    the identifier that was given out last. *)
Definition running (c : Conn) (next : MessageID) (ref : OpRef) (p : pendingOperation) : Conn :=
  set_op ref p (set_ids next (c_reserved c) (<[p_id p := ref]> (c_pending c)) (c_tombstones c) c).
Definition ended (c : Conn) (next : MessageID) (ref : OpRef) (p : pendingOperation) : Conn :=
  set_op ref p (set_ids next (c_reserved c) (c_pending c) (c_tombstones c) c).

Lemma set_op_twice ref p q c : set_op ref p (set_op ref q c) = set_op ref p c.
Proof. unfold set_op, set_ops. cbn. by rewrite insert_insert_eq. Qed.

Lemma lookup_set_op ref p c : c_ops (set_op ref p c) !! ref = Some p.
Proof. cbn. by rewrite lookup_insert_eq. Qed.

Lemma running_op c next ref p : c_ops (running c next ref p) !! ref = Some p.
Proof. apply lookup_set_op. Qed.

(** The operation as [do] leaves it. *)
Definition requested (id : MessageID) (op : UntypedOperation) (message : bytes) : pendingOperation :=
  set_written true true (new_pending id (uo_Responses op) (uo_Cancellation op) (len message)).

Lemma reserve_free c n : idle_stack c n -> exists id, 1 <= id <= c_maxID c /\ (id ∉ used_ids c) /\
  reserveMessageID (sret IDChanged) 1 operationApplication (c, n) =
    (Some (inl id), (set_ids id ({[id]} ∪ c_reserved c) (c_pending c) (c_tombstones c) c, n)).
Proof.
  intros []. pose proof (reachable_ok _ is_reachable0) as Hok. pose proof (ok_bounds _ Hok) as Hb.
  destruct (search_finds c Hb) as (id & Hs & Hid & Hf); [pose proof (size_used c); lia|]. exists id. split; [done|]. split; [done|].
  cbn [reserveMessageID]. unfold sbind, locked, reserveMessageID_round, unusable, tryReserveMessageIDLocked, scopeAllowedLocked.
  rewrite is_err0, is_closing0, is_state0, Hs. cbn [negb bool_decide]. destruct (_ >=? _) eqn:E; [lia|]. done.
Qed.

Lemma do_ok c n op protocol message : idle_stack c n ->
  UntypedOperation_Validate op = None -> uo_Protocol op = Some protocol ->
  isAssociationChanging (ProtocolIdentifier protocol) = false -> FramingPattern_NoResponse (uo_Responses op) = false ->
  (forall id, 1 <= id <= c_maxID c ->
     encodeLDAPRequest id protocol (present (uo_Controls op)) (BERLimits (c_options c)) = inl (message id)) ->
  exists id ref sizes, 1 <= id <= c_maxID c /\ (id ∉ used_ids c) /\ c_ops c !! ref = None /\
    ex_Do op (c, n) = (inl ref, (running c id ref (requested id op (message id)),
      MkNet sizes (nt_sent n ++ message id) (message id) (nt_framer n))).
Proof.
  intros Hi Hv Hp Ha Hn He. destruct (reserve_free c n Hi) as (id & Hid & Hu & Hr). destruct Hi.
  set (c1 := set_ids id ({[id]} ∪ c_reserved c) (c_pending c) (c_tombstones c) c) in *.
  set (ref := base.fresh (dom (c_ops c1))).
  set (p := new_pending id (uo_Responses op) (uo_Cancellation op) (len (message id))).
  assert (c_ops c !! ref = None) as Href by (apply not_elem_of_dom, (is_fresh (dom (c_ops c1)))).
  assert (installPending ref p operationApplication c1 = (None, running c id ref p)) as Hinst.
  { unfold installPending, unusable, scopeAllowedLocked. cbn. rewrite is_err0, is_closing0, is_state0. cbn.
    rewrite (bool_decide_true (id ∈ _)) by set_solver. cbn [negb]. unfold running. cbn.
    replace (({[id]} ∪ c_reserved c) ∖ {[id]}) with (c_reserved c); [done|]. unfold used_ids in Hu. set_solver. }
  destruct (net_writeAll (message id) (running c id ref (set_written true false p)) n) as [sizes Hw].
  exists id, ref, sizes. split; [done|]. split; [done|]. split; [done|]. cbn [ex_Do conn_executor]. unfold sbind at 1. unfold do. rewrite Hv, Hp, Ha.
  unfold sbind at 1. rewrite Hr. unfold sbind at 1, locked at 1. cbn [c_options set_ids c1].
  rewrite (He id Hid). unfold sbind at 1, background at 1. unfold do_write, sbind at 1, locked at 1.
  fold c1 ref p. rewrite Hinst. unfold sbind at 1, writeRequest, sbind at 1, acquireWriter, sbind at 1, sret at 1.
  unfold sbind at 1, background at 1, sbind at 1, locked at 1, unusable. cbn [c_err c_closing running set_op set_ops set_ids].
  rewrite is_err0, is_closing0. unfold sret at 1. unfold sbind at 1, update_op at 1, with_op at 1. rewrite running_op.
  assert (startWrite ref p (running c id ref p) = running c id ref (set_written true false p)) as ->.
  { unfold startWrite, is_pending. cbn [running set_op set_ops set_ids c_pending p_id p new_pending].
    rewrite lookup_insert_eq, bool_decide_true by done. apply set_op_twice. }
  unfold sbind at 1. rewrite Hw. unfold sbind, update_op, with_op, sret. rewrite running_op, Hn. rewrite is_out0.
  do 3 f_equal. unfold observeWrite. apply set_op_twice.
Qed.

(** ** Reading responses *)

(** An operation whose request was written and whose responses were all taken. *)
Record awaiting (p : pendingOperation) : Prop := {
  aw_observed : p_writeObserved p = true;
  aw_queue : p_queue p = [] /\ p_queuedBytes p = 0;
  aw_delivery : p_deliveryErr p = None /\ p_canceled p = false;
  aw_terminal : p_terminal p = false
}.
Record drained (p : pendingOperation) : Prop := {
  dr_queue : p_queue p = [];
  dr_delivery : p_deliveryErr p = None;
  dr_terminal : p_terminal p = true
}.

Lemma requested_awaiting id op message : awaiting (requested id op message).
Proof. done. Qed.

(** A response message of a server: its operation and its controls. *)
Record Reply := MkReply { ry_protocol : tlv; ry_hasControls : bool; ry_controls : list tlv }.
Definition reply_tree (id : MessageID) (r : Reply) : tlv := message_tree id (ry_protocol r) (ry_hasControls r) (ry_controls r) [].

(** A message that the connection accepts for an operation. *)
Record acceptable (c : Conn) (id : MessageID) (r : Reply) : Prop := {
  ac_ok : message_ok id (ry_protocol r) (ry_hasControls r) (ry_controls r) [];
  ac_admits : admits (BERLimits (c_options c)) (reply_tree id r);
  ac_frame : MaxFrameBytes (BERLimits (c_options c)) <= MaxInt;
  ac_bytes : len (enc (reply_tree id r)) <= MaxQueuedResponseBytes (c_options c)
}.

Definition delivered (id : MessageID) (r : Reply) (response : Response) : Prop :=
  rsp_MessageID response = id /\ rsp_ProtocolID response = tid (ry_protocol r) /\
  rsp_Bytes response = enc (reply_tree id r) /\ rsp_Protocol response = enc (ry_protocol r) /\
  map e_Raw (rsp_Controls response) = map enc (ry_controls r).

Lemma raw_elements ts : forall off, map e_Raw (elements_at off ts) = map enc ts.
Proof. induction ts as [|t ts IH]; intros off; [done|]. cbn [elements_at map]. by rewrite IH. Qed.

Lemma parse_reply c id r : acceptable c id r -> exists response,
  parseOwnedResponse (enc (reply_tree id r)) (BERLimits (c_options c)) = Ok response /\ delivered id r response.
Proof.
  intros []. destruct (parse_message _ _ _ _ _ _ ac_ok0 ac_admits0) as (offc & offe & E). eexists. split; [exact E|].
  unfold delivered. cbn. by rewrite raw_elements.
Qed.

Lemma frame_reply c d n id r rest : acceptable c id r -> f_limits (nt_framer n) = BERLimits (c_options c) ->
  incoming n = enc (reply_tree id r) ++ rest ->
  net_frame (d, n) = (inl (enc (reply_tree id r)), (d, set_framer (with_stream (nt_framer n) rest) n)).
Proof.
  intros [_ Hadm Hmax _] Hl Hin. unfold net_frame. rewrite Hin. destruct Hadm as (_ & Hwf & Hlen & _).
  destruct (wf_tlv_frame _ _ Hwf Hlen) as (i & v & H1 & H2 & H3 & _). rewrite H3 in Hlen |- *.
  rewrite (Next_enc (with_stream (nt_framer n) _) i v rest); rewrite ?with_stream_stream; cbn; rewrite ?Hl; done.
Qed.

(** The operation when a response was routed to it. *)
Definition queued (response : Response) (p : pendingOperation) : pendingOperation :=
  signalReady (set_queue [response] (len (rsp_Bytes response)) (count_response (len (rsp_Bytes response)) p)).
Definition queued_last (response : Response) (p : pendingOperation) : pendingOperation :=
  finishLifecycle (signalReady (set_queue [response] (len (rsp_Bytes response))
    (set_terminal (count_response (len (rsp_Bytes response)) p)))).

Lemma route_reply c next ref p r response : awaiting p -> acceptable c (p_id p) r -> delivered (p_id p) r response ->
  p_id p <> 0 -> c_pending c !! p_id p = None -> 0 < MaxQueuedResponses (c_options c) ->
  route response (running c next ref p) =
    match FramingPattern_Classify (p_pattern p) (tid (ry_protocol r)) with
    | ClassificationInvalid => (RouteError' (unexpectedIdentifier response), running c next ref p)
    | ClassificationContinue => (RouteDone cancelActionNone ref, running c next ref (queued response p))
    | ClassificationComplete => (RouteDone cancelActionNone ref, ended c next ref (queued_last response p))
    end.
Proof.
  intros [Hw [Hq Hqb] [Hd Hc] Ht] [_ _ _ Hb] (Hid & Hpid & Hbytes & _ & _) Hne Hnone Hmax.
  unfold route. rewrite Hid. replace (p_id p =? 0) with false by lia.
  assert (c_pending (running c next ref p) !! p_id p = Some ref) as -> by (cbn; apply lookup_insert_eq).
  rewrite running_op. unfold route_pending. rewrite Hw, Hpid. cbn [negb].
  destruct (FramingPattern_Classify (p_pattern p) (tid (ry_protocol r))) eqn:Hcl;
    [by rewrite bool_decide_true|rewrite (bool_decide_false (_ = ClassificationInvalid)), (bool_decide_false (_ = ClassificationComplete)) by done|
     rewrite (bool_decide_false (_ = ClassificationInvalid)), bool_decide_true by done]; cbn zeta iota; unfold deliver, queue_full.
  all: cbn [p_canceled p_queue p_queuedBytes count_response set_terminal c_options set_ids set_op set_ops running set_pending].
  all: rewrite Hc, Hq, Hqb, len_nil, Hbytes; replace (0 =? MaxQueuedResponses (c_options c)) with false by lia.
  all: replace (0 + len (enc (reply_tree (p_id p) r)) >? MaxQueuedResponseBytes (c_options c)) with false by lia.
  all: cbn [orb app]; rewrite Z.add_0_l.
  - f_equal. unfold queued, running. rewrite Hbytes. apply set_op_twice.
  - f_equal. unfold ended, queued_last, running, set_op, set_ops, set_pending, set_ids. cbn.
    by rewrite insert_insert_eq, delete_insert_id, Hbytes.
Qed.

(** The operation after its caller took the response, and the connection. *)
Definition taken (c : Conn) (next : MessageID) (ref : OpRef) (p' : pendingOperation) (last : bool) : Conn :=
  if last then ended c next ref p' else running c next ref p'.

Lemma next_reply c next ref p n r rest : awaiting p -> acceptable c (p_id p) r -> p_id p <> 0 ->
  c_pending c !! p_id p = None -> 0 < MaxQueuedResponses (c_options c) ->
  f_limits (nt_framer n) = BERLimits (c_options c) -> incoming n = enc (reply_tree (p_id p) r) ++ rest ->
  FramingPattern_Classify (p_pattern p) (tid (ry_protocol r)) <> ClassificationInvalid ->
  let last := bool_decide (FramingPattern_Classify (p_pattern p) (tid (ry_protocol r)) = ClassificationComplete) in
  exists response p', delivered (p_id p) r response /\ p_id p' = p_id p /\ p_pattern p' = p_pattern p /\
    (if last then drained p' else awaiting p') /\
    ex_Next ref (running c next ref p, n) =
      (inl response, (taken c next ref p' last, set_framer (with_stream (nt_framer n) rest) n)).
Proof.
  intros Haw Hac Hne Hnone Hmax Hl Hin Hcl last. destruct (parse_reply c _ _ Hac) as (response & Hparse & Hdel).
  set (n' := set_framer _ n).
  set (q := if last then queued_last response p else queued response p).
  set (p' := set_queue [] 0 q). exists response, p'.
  assert (reader_turn (running c next ref p, n) = (NextSignal, (taken c next ref q last, n'))) as Hturn.
  { unfold reader_turn, readLoop_round, sbind, sret. rewrite (frame_reply c _ n _ r rest Hac Hl Hin).
    unfold locked at 1. cbn [c_options running set_op set_ops set_ids]. rewrite Hparse. cbn [routeResponse].
    unfold sbind, locked. rewrite (route_reply c next ref p r response Haw Hac Hdel Hne Hnone Hmax).
    unfold q, last, taken. destruct (FramingPattern_Classify _ _); [done| |].
    - by rewrite bool_decide_false.
    - by rewrite bool_decide_true. }
  assert (c_ops (taken c next ref q last) !! ref = Some q) as Hop by (unfold taken; destruct last; apply lookup_set_op).
  assert (p_queue q = [response] /\ p_queuedBytes q - len (rsp_Bytes response) = 0) as [Hq1 Hq2].
  { unfold q. destruct last; cbn; split; try done; lia. }
  split; [done|]. split; [by unfold p', q; destruct last|]. split; [by unfold p', q; destruct last|]. split.
  { destruct Haw as [? [? ?] [? ?] ?]. unfold p', q. destruct last; by constructor. }
  cbn [ex_Next conn_executor]. unfold Next, sbind, background, sret. cbn [Next_loop]. unfold sbind, with_op at 1, sret.
  rewrite running_op. unfold stream_Next at 1. destruct Haw as [_ [Hq _] [Hd _] Ht]. rewrite Hq, Hd, Ht. rewrite Hturn.
  unfold with_op. rewrite Hop. unfold stream_Next. rewrite Hq1, Hq2. cbv beta iota. do 2 f_equal.
  fold p'. unfold taken. destruct last; [apply set_op_twice|]. unfold running.
  replace (p_id p') with (p_id q) by done. apply set_op_twice.
Qed.

Lemma next_end c next ref p n : drained p -> ex_Next ref (ended c next ref p, n) = (inr (Plain EOF), (ended c next ref p, n)).
Proof.
  intros [Hq Hd Ht]. cbn [ex_Next conn_executor]. unfold Next, sbind, background, sret. cbn [Next_loop].
  unfold sbind, with_op, sret, ended at 1. rewrite lookup_set_op. unfold stream_Next. by rewrite Hq, Hd, Ht.
Qed.

Lemma close_end c next ref p n : drained p -> ex_Close ref (ended c next ref p, n) = (None, (ended c next ref p, n)).
Proof.
  intros [Hq Hd Ht]. cbn [ex_Close conn_executor]. unfold stream_Close, cancel, sbind, with_op, sret, ended at 1.
  rewrite lookup_set_op. unfold cancelOperation. by rewrite Ht.
Qed.

(** ** Whole response streams *)

(** Read until there is an error, at most [k] times. *)
Fixpoint read_all (k : nat) (ref : OpRef) : ST World (list Response * option cerror) :=
  match k with
  | O => sret ([], None)
  | S k =>
      let* r := ex_Next ref in
      match r with
      | inr err => sret ([], Some err)
      | inl response =>
          let* rest := read_all k ref in
          sret (response :: rest.1, rest.2)
      end
  end.

(** The replies continue the operation and the last one completes it. *)
Fixpoint completes (pattern : FramingPattern) (replies : list Reply) : Prop :=
  match replies with
  | [] => False
  | [r] => FramingPattern_Classify pattern (tid (ry_protocol r)) = ClassificationComplete
  | r :: replies => FramingPattern_Classify pattern (tid (ry_protocol r)) = ClassificationContinue /\ completes pattern replies
  end.

Definition replies_bytes (id : MessageID) (replies : list Reply) : bytes :=
  concat (map (fun r => enc (reply_tree id r)) replies).

Lemma read_replies replies c next ref : serve [] = [] -> 0 < MaxQueuedResponses (c_options c) ->
  forall p n, awaiting p -> p_id p <> 0 -> c_pending c !! p_id p = None -> Forall (acceptable c (p_id p)) replies ->
  completes (p_pattern p) replies -> f_limits (nt_framer n) = BERLimits (c_options c) ->
  incoming n = replies_bytes (p_id p) replies ->
  exists responses p' n', Forall2 (delivered (p_id p)) replies responses /\ drained p' /\
    read_all (S (length replies)) ref (running c next ref p, n) = ((responses, Some (Plain EOF)), (ended c next ref p', n')) /\
    nt_sent n' = nt_sent n /\ nt_out n' = [] /\ f_stream (nt_framer n') = [] /\ f_limits (nt_framer n') = f_limits (nt_framer n).
Proof.
  intros Hserve Hmax. induction replies as [|r replies IH]; intros p n Haw Hne Hnone Hac Hcomp Hl Hin; [done|].
  apply Forall_cons in Hac as [Hr Hrs]. cbn [replies_bytes concat map] in Hin.
  assert (FramingPattern_Classify (p_pattern p) (tid (ry_protocol r)) <> ClassificationInvalid) as Hcl.
  { destruct replies; [|destruct Hcomp as [Hcomp _]]; cbn in Hcomp; congruence. }
  destruct (next_reply c next ref p n r _ Haw Hr Hne Hnone Hmax Hl Hin Hcl) as (response & p' & Hdel & Hid & Hpat & Hp' & Hnext).
  set (n' := set_framer _ n) in Hnext. cbn [length]. set (k := S (length replies)).
  cbn [read_all]. unfold sbind at 1. rewrite Hnext. unfold taken in *. unfold k. clear k.
  destruct replies as [|r' replies].
  - cbn in Hcomp. rewrite bool_decide_true in * by done. exists [response], p', n'. split; [by apply Forall2_cons|].
    split; [done|]. split; [|done]. cbn [read_all]. unfold sbind, sret. by rewrite next_end.
  - destruct Hcomp as [Hc Hcomp]. rewrite Hc, bool_decide_false in * by done.
    destruct (IH p' n') as (responses & p2 & n2 & Hf & Hd & Hread & Hs & Ho & Hst & Hli); rewrite ?Hid, ?Hpat; try done.
    { unfold incoming, n', set_framer. cbn. by rewrite Hserve, app_nil_r. }
    exists (response :: responses), p2, n2. split; [constructor; [done|by rewrite <- Hid]|]. split; [done|].
    split; [|by rewrite Hs]. unfold sbind at 1. by rewrite Hread.
Qed.

(** ** Steps *)

(** A computation that takes steps from every reachable connection. *)
Definition steady {A} (m : ST World A) : Prop := forall c n, reachable c -> exists log, steps c log (m (c, n)).2.1.

Lemma steady_same {A} (m : ST World A) : (forall w, (m w).2.1 = w.1) -> steady m.
Proof. intros H c n _. exists []. rewrite H. constructor. Qed.
Lemma steady_ret {A} (x : A) : steady (sret x).
Proof. by apply steady_same. Qed.
Lemma steady_bind {A B} (m : ST World A) (k : A -> ST World B) : steady m -> (forall x, steady (k x)) -> steady (sbind m k).
Proof.
  intros Hm Hk c n Hr. destruct (Hm c n Hr) as [log Hl]. unfold sbind. destruct (m (c, n)) as [x [c1 n1]]. cbn in Hl.
  destruct (Hk x c1 n1) as [log' Hl']; [by eapply reachable_steps|]. exists (log ++ log'). by eapply steps_trans.
Qed.
Lemma steady_locked {A} (f : Conn -> A * Conn) : (forall c, one_step c (f c).2) -> steady (locked f).
Proof. intros Hf c n _. unfold locked. specialize (Hf c). destruct (f c). by apply one_step_steps. Qed.
Lemma steady_update f : (forall c, one_step c (f c)) -> steady (update f).
Proof. intros Hf c n _. apply one_step_steps, Hf. Qed.
Lemma steady_with_op {A} ref (missing : A) f : (forall p c, c_ops c !! ref = Some p -> one_step c (f p c).2) ->
  steady (with_op ref missing f).
Proof.
  intros Hf c n _. unfold with_op. destruct (c_ops c !! ref) as [p|] eqn:E; [|exists []; constructor].
  specialize (Hf p c E). destruct (f p c). by apply one_step_steps.
Qed.
Lemma steady_update_op ref f : (forall p c, c_ops c !! ref = Some p -> one_step c (f p c)) -> steady (update_op ref f).
Proof. intros Hf. by apply steady_with_op. Qed.

(** Follow the structure of a handler. *)
Ltac handler := repeat first
  [ progress intros | solve [eauto using steady_ret] | apply steady_bind | case_match ].

Lemma background_steady : steady background.
Proof. by apply steady_same. Qed.
Lemma write_steady data : steady (net_write data).
Proof. apply steady_same. by intros [c n]. Qed.
Lemma frame_steady : steady net_frame.
Proof. apply steady_same. intros [c n]. unfold net_frame. by destruct (Framer.Next _) as [[] ?]. Qed.
Lemma read_steady {A} (f : Conn -> A) : steady (locked (fun c => (f c, c))).
Proof. by apply steady_same; intros [c n]. Qed.
Lemma retire_steady err : steady (update (retire err)).
Proof. apply steady_update. intros c. eapply one_step_of, step_retire. Qed.
Lemma release_steady id : steady (update (releaseReserved id)).
Proof. apply steady_update. intros c. eapply one_step_of, step_release. Qed.
Lemma remove_steady ref : steady (update_op ref (removePending ref)).
Proof. apply steady_update_op. intros p c Hp. by eapply one_step_of, step_remove. Qed.
#[local] Hint Resolve background_steady write_steady frame_steady read_steady retire_steady release_steady remove_steady steady_ret : core.

Lemma writeAll_steady message : steady (writeAll background net_write message).
Proof.
  unfold writeAll. generalize (length message) at 1. intros fuel. generalize 0%nat as total.
  induction fuel as [|fuel IH]; intros total; cbn [writeAll_loop]; unfold writeAll_round, writeOutcome; handler.
Qed.

Lemma do_steady op : steady (do background (sret IDChanged) (sret WriterToken) net_write (sret tt) 1 operationApplication op).
Proof.
  unfold do. case_match; [auto|]. destruct (uo_Protocol op) as [protocol|]; [|auto].
  destruct (isAssociationChanging _); [auto|]. apply steady_bind.
  { cbn [reserveMessageID]. apply steady_bind; [|handler]. apply steady_locked. intros c.
    destruct (reserveMessageID_round _ c) as [r c'] eqn:E. by eapply one_step_of, step_reserve. }
  intros [[id|err]|]; [|auto..]. apply steady_bind; [auto|]. intros limits. destruct (encodeLDAPRequest _ _ _ _) as [message|err]; [|handler].
  apply steady_bind; [auto|]. intros [err|]; [handler|]. unfold do_write. apply steady_bind.
  { apply steady_locked. intros c. cbv zeta. destruct (installPending _ _ _ c) as [err c'] eqn:E. cbn.
    eapply one_step_of, step_install; [|exact E]. apply not_elem_of_dom, is_fresh. }
  intros [ref [err|]]; [handler|]. apply steady_bind.
  { unfold writeRequest, acquireWriter. apply steady_bind; [handler|]. intros [err|]; [auto|]. apply steady_bind.
    - apply steady_update_op. intros p c Hp. by eapply one_step_of, step_startWrite.
    - intros []. apply steady_bind; [apply writeAll_steady|handler]. }
  intros [[n [err|]]|]; [| |auto]; (apply steady_bind; [|handler; apply remove_steady]).
  - case_match; [apply remove_steady|auto].
  - apply steady_update_op. intros p c Hp. by eapply one_step_of, step_observeWrite.
Qed.

Lemma cancel_steady ref reason : steady (cancel nowhere ref reason).
Proof.
  unfold cancel. apply steady_bind; [|unfold nowhere; handler]. apply steady_with_op. intros p c Hp.
  destruct (cancelOperation ref p reason c) as [a c'] eqn:E. by eapply one_step_of, step_cancel.
Qed.

Lemma turn_steady : steady reader_turn.
Proof.
  unfold reader_turn, readLoop_round. apply steady_bind; [|auto]. apply steady_bind; [auto|]. intros [message|[err closed]]; [|handler].
  apply steady_bind; [auto|]. intros limits. destruct (parseOwnedResponse _ _) as [response|err]; [|handler].
  apply steady_bind; [|handler]. cbn [routeResponse]. apply steady_bind; [|unfold nowhere; handler].
  apply steady_locked. intros c. destruct (route response c) as [r c'] eqn:E. by eapply one_step_of, step_route.
Qed.

Lemma Next_steady fuel ref : steady (Next nowhere background reader_turn fuel ref).
Proof.
  unfold Next. apply steady_bind; [auto|]. intros err. apply steady_bind; [case_match; [apply cancel_steady|auto]|]. intros [].
  induction fuel as [|fuel IH]; cbn [Next_loop]; [auto|]. apply steady_bind.
  { apply steady_with_op. intros p c Hp. destruct (stream_Next ref p c) as [d c'] eqn:E. by eapply one_step_of, step_next. }
  intros [response|e|]; [auto..|]. apply steady_bind; [apply turn_steady|]. intros [e|e|]; [auto| |done].
  apply steady_bind; [apply cancel_steady|done].
Qed.

Lemma read_all_steady k ref : steady (read_all k ref).
Proof.
  induction k as [|k IH]; cbn [read_all]; [auto|]. apply steady_bind.
  - cbn [ex_Next conn_executor]. apply steady_bind; [apply Next_steady|auto].
  - intros [response|err]; [|auto]. apply steady_bind; [done|auto].
Qed.

(** ** One request, from the client to the bytes and back *)

Definition request_tree (operation_tree : tlv) (controls : list (option Packet)) (control_trees : list tlv)
    (id : MessageID) : tlv :=
  message_tree id operation_tree (negb (len (present controls) =? 0)) control_trees [].

(** An operation that the connection can send, and a server that answers it, under
    every identifier, with [replies]. *)
Record exchange (c : Conn) (op : UntypedOperation) (tree : tlv) (controls : list tlv) (replies : list Reply) : Prop := {
  xc_valid : UntypedOperation_Validate op = None;
  xc_protocol : exists protocol, uo_Protocol op = Some protocol /\ encodes (po_packet protocol) tree /\
    tid tree = ProtocolIdentifier protocol /\ isAssociationChanging (ProtocolIdentifier protocol) = false;
  xc_controls : Forall2 encodes (present (uo_Controls op)) controls /\ Forall is_sequence controls;
  xc_completes : completes (uo_Responses op) replies;
  xc_silent : serve [] = [];
  xc_each id : 1 <= id <= c_maxID c ->
    admits (BERLimits (c_options c)) (request_tree tree (uo_Controls op) controls id) /\
    Forall (acceptable c id) replies /\
    serve (enc (request_tree tree (uo_Controls op) controls id)) = replies_bytes id replies
}.

Lemma completes_responds pattern replies : completes pattern replies -> FramingPattern_NoResponse pattern = false.
Proof.
  intros H. destruct (FramingPattern_NoResponse pattern) eqn:E; [|done]. exfalso.
  unfold FramingPattern_NoResponse in E. apply andb_true_iff in E as [_ E].
  assert (forall id, FramingPattern_Classify pattern id = ClassificationInvalid) as Hinv.
  { intros id. unfold FramingPattern_Classify. by rewrite E, orb_true_r. }
  destruct replies as [|r [|r' replies]]; [done|..]; cbn in H; rewrite Hinv in H; [done|by destruct H].
Qed.

Lemma start_exchange c n op tree controls replies : idle_stack c n -> exchange c op tree controls replies ->
  exists id ref sizes, 1 <= id <= c_maxID c /\ (id ∉ used_ids c) /\ c_ops c !! ref = None /\
    let message := enc (request_tree tree (uo_Controls op) controls id) in
    ex_Do op (c, n) = (inl ref, (running c id ref (requested id op message),
      MkNet sizes (nt_sent n ++ message) message (nt_framer n))).
Proof.
  intros Hi [Hv (protocol & Hp & Henc & Htid & Happ) [Hcs Hseq] Hcomp _ Heach].
  apply (do_ok c n op protocol (fun id => enc (request_tree tree (uo_Controls op) controls id))); try done.
  - by eapply completes_responds.
  - intros id Hid. destruct (Heach id Hid) as (Hadm & _ & _).
    pose proof (ok_bounds _ (reachable_ok _ (is_reachable _ _ Hi))) as [Hb _].
    apply request_encoding; try done; [lia|]. rewrite Htid. unfold UntypedOperation_Validate in Hv. rewrite Hp in Hv.
    destruct (id_Class (ProtocolIdentifier protocol) =? ClassApplication) eqn:E; [by apply Z.eqb_eq|].
    rewrite orb_true_r in Hv. done.
Qed.

Lemma ended_idle c n id ref p n' : idle_stack c n -> reachable (ended c id ref p) -> nt_out n' = [] ->
  f_stream (nt_framer n') = [] -> f_limits (nt_framer n') = f_limits (nt_framer n) -> idle_stack (ended c id ref p) n'.
Proof. intros [] Hr Ho Hs Hl. constructor; try done. by rewrite Hl. Qed.

Lemma run_exchange c n op tree controls replies : idle_stack c n -> exchange c op tree controls replies ->
  exists id ref w responses p' n', 1 <= id <= c_maxID c /\ (id ∉ used_ids c) /\ drained p' /\
    Forall2 (delivered id) replies responses /\ ex_Do op (c, n) = (inl ref, w) /\
    read_all (S (length replies)) ref w = ((responses, Some (Plain EOF)), (ended c id ref p', n')) /\
    nt_sent n' = nt_sent n ++ enc (request_tree tree (uo_Controls op) controls id) /\ idle_stack (ended c id ref p') n'.
Proof.
  intros Hi Hx. destruct (start_exchange c n op tree controls replies Hi Hx) as (id & ref & sizes & Hid & Hu & Href & Hdo).
  cbv zeta in Hdo. set (message := enc _) in Hdo. set (p := requested id op message) in Hdo. set (n1 := MkNet _ _ _ _) in Hdo.
  destruct Hx as [_ _ _ Hcomp Hserve Heach]. destruct (Heach id Hid) as (_ & Hac & Hsrv). fold message in Hsrv.
  assert (c_pending c !! id = None) as Hpend by (apply not_elem_of_dom; unfold used_ids in Hu; set_solver).
  assert (incoming n1 = replies_bytes id replies) as Hin
    by (unfold incoming; cbn [nt_framer nt_out n1]; by rewrite (is_in _ _ Hi), Hsrv).
  destruct (read_replies replies c id ref Hserve (is_queue _ _ Hi) p n1 (requested_awaiting _ _ _) ltac:(cbn; lia) Hpend Hac
    Hcomp (is_limits _ _ Hi) Hin) as (responses & p' & n' & Hf & Hd & Hread & Hs & Ho & Hst & Hl).
  exists id, ref, (running c id ref p, n1), responses, p', n'. do 4 (split; [done|]). split; [exact Hdo|]. split; [exact Hread|]. split; [exact Hs|].
  apply (ended_idle c n); try done. assert (steady (ex_Do op)) as Ht by (apply steady_bind; [apply do_steady|intros; apply steady_ret]).
  destruct (Ht c n (is_reachable _ _ Hi)) as [log Hlog]. rewrite Hdo in Hlog. cbn [snd fst] in Hlog.
  destruct (read_all_steady (S (length replies)) ref _ n1 (reachable_steps _ _ _ (is_reachable _ _ Hi) Hlog)) as [log' Hlog'].
  rewrite Hread in Hlog'. eapply reachable_steps; [|exact Hlog']. by eapply reachable_steps; [apply (is_reachable _ _ Hi)|].
Qed.

Lemma read_one ref w response w' : read_all 2 ref w = (([response], Some (Plain EOF)), w') ->
  exists w1, ex_Next ref w = (inl response, w1) /\ ex_Next ref w1 = (inr (Plain EOF), w').
Proof.
  cbn [read_all]. unfold sbind, sret. destruct (ex_Next ref w) as [[r|e] w1]; [|done].
  destruct (ex_Next ref w1) as [[r'|e] w2] eqn:E; [done|]. intros [= -> -> ->]. eauto.
Qed.

(** The controls of a reply decode to [cs]. *)
Definition controls_decode (trees : list tlv) (cs : list Control) : Prop :=
  Forall2 (fun t v => Decodes Control_UnmarshalBER t v /\ admits DefaultLimits t) trees cs.

Lemma decode_reply_controls trees cs elements : controls_decode trees cs -> map e_Raw elements = map enc trees ->
  decodeControls elements DefaultLimits = Ok cs.
Proof.
  intros H. revert elements. induction H as [|t v trees cs [Hd Ha] Hr IH]; intros [|e elements] Heq; try done.
  injection Heq as He Heq. cbn [decodeControls]. rewrite He, (Decodes_message _ t v) by done. cbn. by rewrite IH.
Qed.

Lemma decode_reply {T} (u : Unmarshal T) spec pattern id r response v : NewResponsePattern u spec = Ok pattern ->
  delivered id r response -> completes (Framing pattern) [r] -> Decodes u (ry_protocol r) v ->
  admits DefaultLimits (ry_protocol r) -> Decode pattern response DefaultLimits = Ok v.
Proof.
  intros Hpat (_ & Hpid & _ & Hproto & _) Hcomp Hdec Hadm. pose proof (completes_responds _ _ Hcomp) as Hnr. cbn in Hcomp.
  unfold NewResponsePattern in Hpat. destruct (newFramingPattern spec) as [framing|] eqn:Ef; [|done]. injection Hpat as <-.
  apply newFramingPattern_ok in Ef as [_ ->]. unfold Framing in *. cbn [rp_framing] in *.
  unfold Decode, ResponsePattern_Valid, ResponsePattern_NoResponse, Classify, FramingPattern_Valid. cbn [rp_framing rp_decode].
  rewrite Hnr, Hpid, Hcomp, bool_decide_false by done. cbn [valid pattern_of negb].
  unfold FramingPattern_NoResponse in Hnr. cbn [valid pattern_of andb noResponse] in Hnr |- *. rewrite Hnr.
  unfold UnmarshalProtocol. rewrite Hproto. replace (len (enc (ry_protocol r)) =? 0) with false
    by (pose proof (enc_nonempty (ry_protocol r)); unfold len in *; lia).
  by apply Decodes_message.
Qed.

(** C4. A request goes from the client to the wire and back. Over a network that
    accepts writes in pieces of any sizes, from every reachable connection that is
    ready and has a free identifier, whatever other operations it has under way: an
    operation whose request the limits admit is sent as exactly the bytes of one
    LDAPMessage with an identifier that is not in use; the responses that the server
    sends for it are delivered in order, each with the identifier, the operation
    bytes and the controls that were sent, and then the stream ends; and for a
    single response, [ExecuteSingle] returns exactly the value and the controls that
    the server encoded, with an error if and only if the result code is not one of
    the accepted ones. Afterwards the identifier is free, the other operations are as
    before, and the connection and the network are ready for the next request. *)
Theorem request_end_to_end c n op tree controls replies : idle_stack c n -> exchange c op tree controls replies ->
  exists id ref w responses c' n', 1 <= id <= c_maxID c /\ (id ∉ used_ids c) /\
    ex_Do op (c, n) = (inl ref, w) /\
    read_all (S (length replies)) ref w = ((responses, Some (Plain EOF)), (c', n')) /\
    Forall2 (delivered id) replies responses /\
    nt_sent n' = nt_sent n ++ enc (request_tree tree (uo_Controls op) controls id) /\
    idle_stack c' n' /\ used_ids c' = used_ids c /\ c_pending c' = c_pending c /\
    (forall ref', ref' <> ref -> c_ops c' !! ref' = c_ops c !! ref') /\
    (forall T (H : HasLDAPResult T) (u : Unmarshal T) spec (operation : Operation T) options r v cs,
       op = Untyped operation -> replies = [r] -> NewResponsePattern u spec = Ok (op_Responses operation) ->
       Decodes u (ry_protocol r) v -> admits DefaultLimits (ry_protocol r) -> controls_decode (ry_controls r) cs ->
       ExecuteSingle operation options (c, n) =
         (Some (v, cs),
          if bool_decide (lr_ResultCode (LDAPResult_of v) ∈ acceptedCodes options) then None
          else Some (ResultError (operationName (op_Label operation)) (LDAPResult_of v) cs), (c', n'))).
Proof.
  intros Hi Hx. pose proof (xc_completes _ _ _ _ _ Hx) as Hcomp.
  destruct (run_exchange c n op tree controls replies Hi Hx) as (id & ref & w & responses & p' & n' & Hid & Hu & Hd & Hf & Hdo & Hread & Hs & Hidle).
  exists id, ref, w, responses, (ended c id ref p'), n'. do 8 (split; [done|]). split; [done|].
  split; [intros ref' Hne; cbn; by apply lookup_insert_ne|].
  intros T H u spec operation options r v cs -> -> Hpat Hdec Hadm Hcs.
  apply Forall2_cons_inv_l in Hf as (response & rest & Hdel & ->%Forall2_nil_inv_l & ->). cbn [length] in Hread.
  destruct (read_one _ _ _ _ Hread) as (w1 & H1 & H2).
  pose proof (decode_reply u spec _ id r response v Hpat Hdel Hcomp Hdec Hadm) as Hv.
  destruct Hdel as (_ & _ & _ & _ & Hraw). pose proof (decode_reply_controls _ _ _ Hcs Hraw) as Hc.
  unfold ExecuteSingle, ExecuteStream, ExecuteSingle_body, requireEnd, DecodedStream_Close, DecodedStream_Next.
  rewrite Hdo. cbn [ds_closed ds_stream ds_responses ds_limits]. rewrite H1, Hv, Hc, H2.
  change (Is (Plain EOF) (Plain EOF)) with true. cbv iota beta. case_bool_decide; by rewrite close_end.
Qed.
End stack.

(** ** A comparison over a network that splits every write *)

Definition sample_request : CompareRequest := MkCompareRequest (bs "cn=a") (MkAVA (bs "sn") (bs "b") []) [].
Definition sample_assertion_tree : tlv := Cons SequenceIdentifier [t_octets (bs "sn"); t_octets (bs "b")].
Definition sample_request_tree : tlv := Cons compareRequestIdentifier [t_octets (bs "cn=a"); sample_assertion_tree].
Definition sample_operation : Operation CompareResponse :=
  MkOperation (Some (MkProtocolOperation (BERPacket sample_request) compareRequestIdentifier)) [] compareResponsePattern
    CancelDrain "ldap.compare".

Definition sample_result : CompareResponse := MkResultResponse (MkLDAPResult ResultCompareTrue [] (bs "yes") [] []).
Definition sample_reply : Reply :=
  MkReply (Cons compareResponseIdentifier (result_prefix (Result sample_result))) true
    [Cons SequenceIdentifier [t_octets (bs "1.2.3")]].

(** The server answers with the identifier of the message it got. *)
Definition sample_server (data : bytes) : bytes :=
  match ParseResponse data DefaultLimits with
  | Ok m => enc (reply_tree (rsp_MessageID m) sample_reply)
  | Err _ => []
  end.
Definition sample_net : Net := MkNet [3; 0; 7; 1]%nat [] [] (MkFramer [] EOF (BERLimits DefaultConnectionOptions)).

Lemma sample_idle : idle_stack sample_new sample_net.
Proof. constructor; try reflexivity. exact (sample_reachable [] sample_new (steps_refl _)). Qed.

Lemma sample_ids id : 1 <= id <= c_maxID sample_new -> id = 1 \/ id = 2 \/ id = 3 \/ id = 4 \/ id = 5.
Proof. cbn. lia. Qed.

Ltac computed := unfold admits, is_sequence, not_controls; vm_compute; intuition congruence.

Lemma sample_exchange : exchange sample_server sample_new (Untyped sample_operation) sample_request_tree [] [sample_reply].
Proof.
  constructor.
  - vm_compute. reflexivity.
  - eexists. split; [reflexivity|]. split; [split; vm_compute; reflexivity|]. split; vm_compute; reflexivity.
  - split; constructor.
  - vm_compute. reflexivity.
  - vm_compute. reflexivity.
  - intros id Hid. destruct (sample_ids id Hid) as [->|[->|[->|[->| ->]]]].
    all: (split; [computed|]; split; [|vm_compute; reflexivity]; apply Forall_singleton; split; [|computed|computed|computed]).
    all: split; [computed|]; split; [reflexivity|]; split; [done|]; split; [by apply Forall_singleton|constructor].
Qed.

Lemma sample_decodes : Decodes CompareResponse_UnmarshalBER (ry_protocol sample_reply) sample_result.
Proof.
  apply ResultResponse_Decodes. exists []. split; [reflexivity|]. split; [|repeat constructor].
  split_and!; [..|constructor|]; vm_compute; reflexivity.
Qed.

Lemma sample_pattern_ok :
  NewResponsePattern CompareResponse_UnmarshalBER (terminal compareResponseIdentifier) = Ok (op_Responses sample_operation).
Proof.
  cbn [op_Responses sample_operation]. unfold compareResponsePattern, mustResponsePattern, NewResponsePattern.
  destruct (newFramingPattern (terminal compareResponseIdentifier)) as [framing|] eqn:E; [done|]. vm_compute in E. discriminate.
Qed.

Lemma request_end_to_end_witness : exists c' n',
  ExecuteSingle (Executor0 := conn_executor sample_server) sample_operation [Some [ResultCompareFalse; ResultCompareTrue]]
    (sample_new, sample_net) = (Some (sample_result, [MkControl (bs "1.2.3") false [] false []]), None, (c', n')) /\
  idle_stack c' n'.
Proof.
  destruct (request_end_to_end sample_server sample_new sample_net _ _ _ _ sample_idle sample_exchange)
    as (id & ref & w & responses & c' & n' & _ & _ & _ & _ & _ & _ & Hidle & _ & _ & _ & Hsingle).
  exists c', n'. split; [|exact Hidle].
  refine (eq_trans (Hsingle _ _ CompareResponse_UnmarshalBER (terminal compareResponseIdentifier) sample_operation
    [Some [ResultCompareFalse; ResultCompareTrue]] sample_reply sample_result [MkControl (bs "1.2.3") false [] false []]
    eq_refl eq_refl sample_pattern_ok sample_decodes _ _) _).
  - unfold admits. vm_compute. intuition congruence.
  - apply Forall2_cons. split; [|constructor]. split; [|unfold admits; vm_compute; intuition congruence].
    apply (repr_decodes (u := Control_UnmarshalBER)). exists []. split; [reflexivity|].
    split; [vm_compute; reflexivity|]. split; [vm_compute; reflexivity|]. split; [done|]. constructor; constructor.
  - reflexivity.
Defined.
