(* ===== verification/WhoAmI.v ===== *)
(** * Who Am I?

    Models src/rfc4532/whoami.go over any executor (the interface [Executor] of
    Client.v), and says what the operation amounts to over a connection and a
    network (Stack.v). *)

From S2P Require Import Prelude Wire Packet Reader Framer Decoder Types Protocol Result Errors Options.
From S2P Require Import Response Attributes Operations Search Bind Extended Endpoint Conn ConnSafety.
From S2P Require Import ConnRun ConnRefine Client ClientSafety Stack.

Definition OID : LDAPOID := bs "1.3.6.1.4.1.4203.1.11.3".

(** [*ResultError] is kept apart from the other errors. *)
Inductive whoamiError :=
| WhoAmIError (err : cerror)
| WhoAmIResult (Result : LDAPResult).

Definition whoamiError_ResultCode (result : LDAPResult) : ResultCode := lr_ResultCode result.

Definition whoami_fails (text : string) : whoamiError := WhoAmIError (Plain (ErrorString text)).

(** The checks of the final response. *)
Definition authorizationIdentity (response : ExtendedResponse) : bytes + whoamiError :=
  if negb (lr_ResultCode (ext_Result response) =? ResultSuccess) then inr (WhoAmIResult (ext_Result response))
  else if ext_HasResponseName response then inr (whoami_fails "rfc4532: Who Am I? returned an unexpected response name")
  else if negb (ext_HasResponseValue response) then inr (whoami_fails "rfc4532: Who Am I? omitted the authorization identity")
  else if negb (utf8_Valid (ext_ResponseValue response))
  then inr (whoami_fails "rfc4532: Who Am I? returned a non-UTF-8 authorization identity")
  else inl (ext_ResponseValue response).

Section whoami.
Context {S H : Type}.

(** [WhoAmI] between [Do] and the deferred [stream.Close()]. *)
Definition WhoAmI_body `{!Executor S H} (operation : Operation ExtendedResult) (stream : H) : ST S (bytes + whoamiError) :=
  fun s =>
  match ex_Next stream s with
  | (inr err, s) => (inr (WhoAmIError err), s)
  | (inl message, s) =>
      match Decode (op_Responses operation) message DefaultLimits with
      | Err err => (inr (WhoAmIError (Plain err)), s)
      | Ok decoded =>
          match eres_value decoded with
          | Some (ExtResponse response) =>
              match ex_Next stream s with
              | (inl _, s) => (inr (whoami_fails "rfc4532: Who Am I? returned more than one response"), s)
              | (inr err, s) =>
                  if negb (Is err (Plain EOF)) then (inr (WhoAmIError err), s)
                  else (authorizationIdentity response, s)
              end
          | _ => (inr (WhoAmIError (Plain (FormatError "rfc4532: unexpected response type %T" []))), s)
          end
      end
  end.

(** The executor is nil if it is [None]. *)
Definition WhoAmI (executor : option (Executor S H)) : ST S (bytes + whoamiError) := fun s =>
  match executor with
  | None => (inr (whoami_fails "rfc4532: nil executor"), s)
  | Some executor =>
      match NewExtendedOperation (Some (MkExtendedRequest OID [] false [])) [] with
      | Err err => (inr (WhoAmIError (Plain err)), s)
      | Ok operation =>
          match ex_Do (Untyped operation) s with
          | (inr err, s) => (inr (WhoAmIError err), s)
          | (inl stream, s) =>
              let '(r, s) := WhoAmI_body operation stream s in
              let '(_, s) := ex_Close stream s in
              (r, s)
          end
      end
  end.
End whoami.

(** ** The operation *)

(** The operation that [WhoAmI] sends. *)
Definition whoami_operation : Operation ExtendedResult :=
  MkOperation (Some (MkProtocolOperation (BERPacket (MkExtendedRequest OID [] false [])) extendedRequestIdentifier))
    [] extendedResponsePattern CancelDrain "ldap.extended".

Lemma whoami_operation_ok :
  NewExtendedOperation (Some (MkExtendedRequest OID [] false [])) [] = Ok whoami_operation.
Proof.
  unfold NewExtendedOperation. cbn [fmap option_fmap option_map].
  apply newOperation_ok; [done| |done|constructor].
  unfold extendedResponsePattern. by rewrite (proj2 (mustResponsePattern_ok _ _ extendedResponseSpec_ok)).
Qed.

(** A response that names an identity. *)
Definition identifies (response : ExtendedResponse) (identity : bytes) : Prop :=
  lr_ResultCode (ext_Result response) = ResultSuccess /\ ext_HasResponseName response = false /\
  ext_HasResponseValue response = true /\ utf8_Valid identity = true /\ ext_ResponseValue response = identity.

Lemma authorizationIdentity_exact response identity :
  authorizationIdentity response = inl identity <-> identifies response identity.
Proof.
  unfold authorizationIdentity, identifies. split.
  - intros Hi. case_ifs; try done. injection Hi as <-.
    repeat match goal with H : negb _ = false |- _ => apply negb_false_iff in H end. zbool. done.
  - intros (-> & -> & -> & Hu & <-). by rewrite Hu.
Qed.

Section exact.
Context {S H : Type} (executor : Executor S H).

(** [WhoAmI] returns an identity exactly when the executor accepts the Who Am I?
    request, the first response decodes to a final extended response with the
    success code, without a response name and with a value that is valid UTF-8,
    and the stream then ends; the identity is that value. *)
Lemma whoami_exact s identity : fst (WhoAmI (Some executor) s) = inl identity <->
  exists stream s1 message s2 response err s3,
    ex_Do (Untyped whoami_operation) s = (inl stream, s1) /\ ex_Next stream s1 = (inl message, s2) /\
    Decode extendedResponsePattern message DefaultLimits = Ok (MkExtendedResult (Some (ExtResponse response))) /\
    ex_Next stream s2 = (inr err, s3) /\ Is err (Plain EOF) = true /\ identifies response identity.
Proof.
  unfold WhoAmI. rewrite whoami_operation_ok. unfold WhoAmI_body. cbn [op_Responses whoami_operation]. split.
  - intros Hw. destruct (ex_Do _ s) as [[stream|?] s1] eqn:Ed; [|done]. destruct (ex_Next stream s1) as [[message|?] s2] eqn:E1.
    2:{ by destruct (ex_Close stream s2). }
    destruct (Decode _ _ _) as [[[[?|response]|]]|] eqn:E2; cbn in Hw; try by destruct (ex_Close stream s2).
    destruct (ex_Next stream s2) as [[?|err] s3] eqn:E3; [by destruct (ex_Close stream s3)|].
    destruct (Is err (Plain EOF)) eqn:Ee; cbn [negb] in Hw; [|by destruct (ex_Close stream s3)].
    exists stream, s1, message, s2, response, err, s3. do 5 (split; [done|]). apply authorizationIdentity_exact.
    by destruct (ex_Close stream s3).
  - intros (stream & s1 & message & s2 & response & err & s3 & -> & -> & -> & E3 & He & Hi%authorizationIdentity_exact).
    cbn [eres_value]. rewrite E3, He. cbn [negb]. rewrite Hi. by destruct (ex_Close stream s3).
Qed.

(** A stream that was opened is closed last, whatever the result. *)
Lemma whoami_closes s stream s1 : ex_Do (Untyped whoami_operation) s = (inl stream, s1) ->
  exists s2, snd (WhoAmI (Some executor) s) = snd (ex_Close stream s2).
Proof.
  intros Ed. unfold WhoAmI. rewrite whoami_operation_ok, Ed. destruct (WhoAmI_body _ stream s1) as [r s2].
  exists s2. by destruct (ex_Close stream s2).
Qed.
End exact.

(** ** Over a connection *)

(** Over a ready connection, the identity in the response of the server. *)
Theorem whoami_end_to_end (serve : bytes -> bytes) c n tree r response identity :
  idle_stack c n -> exchange serve c (Untyped whoami_operation) tree [] [r] ->
  Decodes ExtendedResult_UnmarshalBER (ry_protocol r) (MkExtendedResult (Some (ExtResponse response))) ->
  admits DefaultLimits (ry_protocol r) -> identifies response identity ->
  exists c' n', WhoAmI (Some (conn_executor serve)) (c, n) = (inl identity, (c', n')) /\ idle_stack c' n' /\
    used_ids c' = used_ids c.
Proof.
  intros Hi Hx Hdec Hadm Hid. pose proof (xc_completes _ _ _ _ _ _ Hx) as Hcomp.
  destruct (run_exchange serve c n _ tree [] [r] Hi Hx) as (id & ref & w & responses & p' & n' & _ & _ & Hd & Hf & Hdo & Hread & _ & Hidle).
  apply Forall2_cons_inv_l in Hf as (message & rest & Hdel & ->%Forall2_nil_inv_l & ->). cbn [length] in Hread.
  destruct (read_one _ _ _ _ _ Hread) as (w1 & H1 & H2).
  assert (Decode extendedResponsePattern message DefaultLimits = Ok (MkExtendedResult (Some (ExtResponse response)))) as Hv.
  { refine (decode_reply _ _ _ id r message _ _ Hdel Hcomp Hdec Hadm). apply (mustResponsePattern_ok _ _ extendedResponseSpec_ok). }
  exists (ended c id ref p'), n'. split; [|done]. unfold WhoAmI. rewrite whoami_operation_ok, Hdo. unfold WhoAmI_body.
  cbn [op_Responses whoami_operation]. rewrite H1, Hv. cbn [eres_value]. rewrite H2.
  change (Is (Plain EOF) (Plain EOF)) with true. cbn [negb]. rewrite (proj2 (authorizationIdentity_exact _ _) Hid).
  by rewrite close_end.
Qed.
