(* ===== verification/Session.v ===== *)
(** * The initialization session

    Models [initializationSession] and [initializationStream] of
    src/bootstrap.go: the executor that an authentication mechanism and an
    initializer use while a connection is set up. The connection below it is
    any [Executor]; the session is an [Executor] again.

    Streams are objects that the session and its callers share: [sn_heap] holds
    them, and a reference to one is its key. The context of every operation is
    derived from the set-up context; [sn_canceled] is the log of the calls of
    [stopSetupCancel] and [cancel], by the stream they belong to. *)

From S2P Require Import Prelude Wire Types Protocol Errors Client ClientSafety.

(** [sync.Once] is the flag [is_released]. *)
Record initializationStream (H : Type) := MkStream {
  is_stream : H;
  is_pattern : FramingPattern;
  is_released : bool
}.
Arguments MkStream {H}.
Arguments is_stream {H} _.
Arguments is_pattern {H} _.
Arguments is_released {H} _.

Record initializationSession (H : Type) := MkSession {
  sn_maxOps : Z;
  sn_active : bool;
  sn_operations : Z;
  sn_streams : gset nat;
  sn_heap : gmap nat (initializationStream H);
  sn_canceled : list nat
}.
Arguments MkSession {H}.
Arguments sn_maxOps {H} _.
Arguments sn_active {H} _.
Arguments sn_operations {H} _.
Arguments sn_streams {H} _.
Arguments sn_heap {H} _.
Arguments sn_canceled {H} _.

Definition newInitializationSession {H} (maxOps : Z) : initializationSession H := MkSession maxOps true 0 ∅ ∅ [].

Section session.
Context {S H : Type} `{!Executor S H}.
Abbreviation Session := (initializationSession H).

(** [s.setupCtx.Err()]. *)
Variable setupErr : ST S (option cerror).

(** [releaseLocked] in the [once] of a stream. *)
Definition releaseLocked (ref : nat) (sn : Session) : Session :=
  match sn_heap sn !! ref with
  | Some st =>
      if is_released st then sn
      else MkSession (sn_maxOps sn) (sn_active sn) (sn_operations sn) (sn_streams sn)
             (<[ref := MkStream (is_stream st) (is_pattern st) true]> (sn_heap sn)) (sn_canceled sn ++ [ref])
  | None => sn
  end.

Definition forget (ref : nat) (sn : Session) : Session :=
  MkSession (sn_maxOps sn) (sn_active sn) (sn_operations sn) (sn_streams sn ∖ {[ref]}) (sn_heap sn) (sn_canceled sn).

(** [release]: the body runs once. *)
Definition release (ref : nat) (sn : Session) : Session :=
  match sn_heap sn !! ref with
  | Some st => if is_released st then sn else releaseLocked ref (forget ref sn)
  | None => sn
  end.

(** [s.operations++]. *)
Definition count_operation (sn : Session) : Session :=
  MkSession (sn_maxOps sn) (sn_active sn) (sn_operations sn + 1) (sn_streams sn) (sn_heap sn) (sn_canceled sn).

(** [wrapped := ...; s.streams[wrapped] = struct{}{}]. *)
Definition add_stream (ref : nat) (stream : H) (pattern : FramingPattern) (sn : Session) : Session :=
  MkSession (sn_maxOps sn) (sn_active sn) (sn_operations sn) ({[ref]} ∪ sn_streams sn)
    (<[ref := MkStream stream pattern false]> (sn_heap sn)) (sn_canceled sn).

Definition fresh_ref (sn : Session) : nat := fresh (dom (sn_heap sn)).

Definition session_Do (op : UntypedOperation) : ST (Session * S) (nat + cerror) := fun '(sn, s) =>
  if negb (sn_active sn) then (inr ErrInitializationClosed, (sn, s))
  else
  match setupErr s with
  | (Some err, s) => (inr err, (sn, s))
  | (None, s) =>
  if sn_operations sn =? sn_maxOps sn
  then (inr (LimitError "initialization operations" (conv uint64 (sn_operations sn + 1)) (conv uint64 (sn_maxOps sn))),
        (sn, s))
  else
  let sn := count_operation sn in
  match ex_Do op s with
  | (inr err, s) => (inr err, (sn, s))
  | (inl stream, s) =>
      let ref := fresh_ref sn in
      let sn := add_stream ref stream (uo_Responses op) sn in
      let sn := if FramingPattern_NoResponse (uo_Responses op) then releaseLocked ref (forget ref sn) else sn in
      (inl ref, (sn, s))
  end
  end.

Definition deactivate (sn : Session) : Session :=
  if negb (sn_active sn) then sn
  else
    let streams := elements (sn_streams sn) in
    let sn := MkSession (sn_maxOps sn) false (sn_operations sn) ∅ (sn_heap sn) (sn_canceled sn) in
    foldl (fun sn ref => release ref sn) sn streams.

(** The caller holds [ref] only if the session handed it out. *)
Definition nil_stream : cerror := Plain (ErrorString "nil pointer dereference").

Definition initStream_Next (ref : nat) : ST (Session * S) (Response + cerror) := fun '(sn, s) =>
  match sn_heap sn !! ref with
  | None => (inr nil_stream, (sn, s))
  | Some st =>
      match ex_Next (is_stream st) s with
      | (inr err, s) => (inr err, (if Is err (Plain EOF) then release ref sn else sn, s))
      | (inl response, s) =>
          (inl response,
           (if bool_decide (FramingPattern_Classify (is_pattern st) (rsp_ProtocolID response) = ClassificationComplete)
            then release ref sn else sn, s))
      end
  end.

Definition initStream_Close (ref : nat) : ST (Session * S) (option cerror) := fun '(sn, s) =>
  match sn_heap sn !! ref with
  | None => (Some nil_stream, (sn, s))
  | Some st => let '(err, s) := ex_Close (is_stream st) s in (err, (release ref sn, s))
  end.

Definition session_executor : Executor (Session * S) nat := {|
  ex_Do := session_Do;
  ex_Next := initStream_Next;
  ex_Close := initStream_Close
|}.

(** ** Every use of a session *)

Inductive call := CallDo (op : UntypedOperation) | CallNext (ref : nat) | CallClose (ref : nat) | CallDeactivate.

Definition session_call (w : Session * S) (c : call) : Session * S :=
  match c with
  | CallDo op => snd (session_Do op w)
  | CallNext ref => snd (initStream_Next ref w)
  | CallClose ref => snd (initStream_Close ref w)
  | CallDeactivate => (deactivate (fst w), snd w)
  end.

(** What every call keeps. [todo] are the streams that [deactivate] has taken
    out of the session and not released yet. *)
Record session_ok (todo : gset nat) (sn : Session) : Prop := {
  sk_operations : 0 <= sn_operations sn <= sn_maxOps sn;
  sk_heap : Z.of_nat (size (sn_heap sn)) <= sn_operations sn;
  sk_nodup : NoDup (sn_canceled sn);
  sk_canceled ref : ref ∈ sn_canceled sn <-> exists st, sn_heap sn !! ref = Some st /\ is_released st = true;
  sk_streams ref : ref ∈ sn_streams sn ∪ todo <-> exists st, sn_heap sn !! ref = Some st /\ is_released st = false;
  sk_inactive : sn_active sn = false -> sn_streams sn = ∅
}.

Lemma session_release_ok todo sn ref : session_ok todo sn -> session_ok (todo ∖ {[ref]}) (release ref sn).
Proof.
  intros [Ho Hh Hn Hc Hs Hi]. unfold release. destruct (sn_heap sn !! ref) as [st|] eqn:E; [destruct (is_released st) eqn:Er|].
  - assert (ref ∉ sn_streams sn ∪ todo). { rewrite Hs, E. naive_solver congruence. }
    constructor; try done. intros r. rewrite <- Hs. set_solver.
  - unfold releaseLocked. cbn. rewrite E, Er. constructor; cbn; try done.
    + rewrite map_size_insert, E. done.
    + apply NoDup_app. split; [done|]. split; [|apply NoDup_singleton].
      intros r Hr ->%list_elem_of_singleton. apply Hc in Hr as (st' & ? & ?). congruence.
    + intros r. rewrite elem_of_app, list_elem_of_singleton, Hc. destruct (decide (r = ref)) as [->|Hne].
      * rewrite lookup_insert_eq. naive_solver.
      * rewrite lookup_insert_ne by done. naive_solver.
    + intros r. specialize (Hs r). destruct (decide (r = ref)) as [->|Hne].
      * rewrite lookup_insert_eq. split; [set_solver|]. intros (st' & [= <-] & ?). done.
      * rewrite lookup_insert_ne by done. rewrite <- Hs. set_solver.
    + intros Ha. rewrite Hi by done. set_solver.
  - assert (ref ∉ sn_streams sn ∪ todo). { rewrite Hs, E. naive_solver. }
    constructor; try done. intros r. rewrite <- Hs. set_solver.
Qed.

(** What the loop of [deactivate] and the calls leave alone. *)
Lemma release_keeps ref sn : sn_active (release ref sn) = sn_active sn /\ sn_maxOps (release ref sn) = sn_maxOps sn /\
  sn_operations (release ref sn) = sn_operations sn /\ dom (sn_heap (release ref sn)) = dom (sn_heap sn).
Proof.
  unfold release, releaseLocked. destruct (sn_heap sn !! ref) as [st|] eqn:E; [destruct (is_released st) eqn:Er|]; [done| |done].
  cbn. rewrite E, Er. cbn. split_and!; try done. apply elem_of_dom_2 in E. set_solver.
Qed.

Lemma releases_ok refs : forall todo sn, session_ok todo sn ->
  session_ok (todo ∖ list_to_set refs) (foldl (fun sn ref => release ref sn) sn refs).
Proof.
  induction refs as [|ref refs IH]; intros todo sn Hok; cbn.
  - by replace (todo ∖ ∅) with todo by set_solver.
  - specialize (IH _ _ (session_release_ok todo sn ref Hok)).
    by replace (todo ∖ ({[ref]} ∪ list_to_set refs)) with ((todo ∖ {[ref]}) ∖ list_to_set refs) by set_solver.
Qed.

Lemma releases_keep refs : forall sn, sn_active (foldl (fun sn ref => release ref sn) sn refs) = sn_active sn /\
  sn_operations (foldl (fun sn ref => release ref sn) sn refs) = sn_operations sn /\
  sn_maxOps (foldl (fun sn ref => release ref sn) sn refs) = sn_maxOps sn.
Proof.
  induction refs as [|ref refs IH]; intros sn; cbn; [done|]. destruct (IH (release ref sn)) as (-> & -> & ->).
  by destruct (release_keeps ref sn) as (-> & -> & -> & _).
Qed.

Lemma deactivate_ok sn : session_ok ∅ sn -> session_ok ∅ (deactivate sn).
Proof.
  intros Hok. unfold deactivate. destruct (sn_active sn) eqn:Ea; cbn; [|done].
  set (sn0 := MkSession (sn_maxOps sn) false (sn_operations sn) ∅ (sn_heap sn) (sn_canceled sn)).
  assert (H0 : session_ok (sn_streams sn) sn0).
  { destruct Hok as [Ho Hh Hn Hc Hs Hi]. constructor; try done. intros ref. cbn. rewrite <- Hs. set_solver. }
  pose proof (releases_ok (elements (sn_streams sn)) _ _ H0) as H1.
  rewrite list_to_set_elements_L in H1. by replace (sn_streams sn ∖ sn_streams sn) with (∅ : gset nat) in H1 by set_solver.
Qed.

Lemma deactivate_inactive sn : sn_active (deactivate sn) = false.
Proof.
  unfold deactivate. destruct (sn_active sn) eqn:Ea; cbn [negb]; [|done].
  match goal with |- context [foldl ?f ?sn0 ?l] => by destruct (releases_keep l sn0) as (-> & _ & _) end.
Qed.

Lemma session_release_ok_nil sn ref : session_ok ∅ sn -> session_ok ∅ (release ref sn).
Proof. intros Hok%(session_release_ok _ _ ref). by replace (∅ ∖ {[ref]}) with (∅ : gset nat) in Hok by set_solver. Qed.

Lemma Do_ok op sn s : session_ok ∅ sn -> session_ok ∅ (fst (snd (session_Do op (sn, s)))).
Proof.
  intros Hok. unfold session_Do. destruct (sn_active sn) eqn:Ea; cbn [negb]; [|done].
  destruct (setupErr s) as [[err|] s1]; [done|]. destruct (sn_operations sn =? sn_maxOps sn) eqn:Em; [done|]. zbool.
  assert (Hc : session_ok ∅ (count_operation sn)).
  { destruct Hok as [Ho Hh Hn Hc Hs Hi]. constructor; cbn; try done; lia. }
  destruct (ex_Do op s1) as [[stream|err] s2]; [|done].
  assert (Hr : sn_heap sn !! fresh_ref (count_operation sn) = None).
  { apply not_elem_of_dom. unfold fresh_ref. cbn. apply is_fresh. }
  set (ref := fresh_ref (count_operation sn)) in *.
  assert (Hadd : session_ok ∅ (add_stream ref stream (uo_Responses op) (count_operation sn))).
  { destruct Hok as [Ho Hh Hn Hca Hs Hi]. constructor; cbn; try done; [lia| | | |].
    - rewrite map_size_insert, Hr. lia.
    - intros r. rewrite Hca. destruct (decide (r = ref)) as [->|Hne].
      + rewrite lookup_insert_eq, Hr. naive_solver.
      + by rewrite lookup_insert_ne by done.
    - intros r. specialize (Hs r). destruct (decide (r = ref)) as [->|Hne].
      + rewrite lookup_insert_eq. split; [eauto|set_solver].
      + rewrite lookup_insert_ne by done. rewrite <- Hs. set_solver.
    - congruence. }
  destruct (FramingPattern_NoResponse _); cbn [fst snd]; [|done].
  apply (session_release_ok_nil _ ref) in Hadd. unfold release in Hadd. cbn [add_stream sn_heap] in Hadd.
  by rewrite lookup_insert_eq in Hadd.
Qed.

Lemma call_ok w c : session_ok ∅ (fst w) -> session_ok ∅ (fst (session_call w c)).
Proof.
  destruct w as [sn s]. intros Hok. destruct c as [op|ref|ref|]; cbn [session_call fst].
  - by apply Do_ok.
  - cbn. destruct (sn_heap sn !! ref) as [st|]; [|done]. destruct (ex_Next (is_stream st) s) as [[r|e] s1]; cbn;
      case_match; try done; by apply session_release_ok_nil.
  - cbn. destruct (sn_heap sn !! ref) as [st|]; [|done]. destruct (ex_Close (is_stream st) s) as [e s1]. by apply session_release_ok_nil.
  - by apply deactivate_ok.
Qed.

(** What a call does to the bound and to the activity. *)
Lemma call_keeps w c : sn_maxOps (fst (session_call w c)) = sn_maxOps (fst w) /\
  (sn_active (fst w) = false -> sn_active (fst (session_call w c)) = false).
Proof.
  destruct w as [sn s]. destruct c as [op|ref|ref|]; cbn [session_call fst].
  - cbn. destruct (sn_active sn) eqn:Ea; cbn [negb fst snd]; [|done].
    destruct (setupErr s) as [[err|] s1]; [done|]. case_match; [done|].
    destruct (ex_Do op s1) as [[stream|err] s2]; [|done]. cbn. split; [|done].
    destruct (FramingPattern_NoResponse _); [|done]. unfold releaseLocked. cbn. by rewrite lookup_insert_eq.
  - cbn. destruct (sn_heap sn !! ref) as [st|]; [|done]. destruct (release_keeps ref sn) as (Ha & Hm & _).
    destruct (ex_Next (is_stream st) s) as [[r|e] s1]; cbn; case_match; rewrite ?Ha, ?Hm; done.
  - cbn. destruct (sn_heap sn !! ref) as [st|]; [|done]. destruct (release_keeps ref sn) as (Ha & Hm & _).
    destruct (ex_Close (is_stream st) s) as [e s1]. cbn. by rewrite Ha, Hm.
  - cbn. unfold deactivate. destruct (sn_active sn) eqn:Ea; cbn [negb]; [|by rewrite Ea].
    match goal with |- context [foldl ?f ?sn0 ?l] => destruct (releases_keep l sn0) as (-> & _ & ->) end. cbn. by split.
Qed.

Lemma calls_ok calls : forall w, session_ok ∅ (fst w) -> session_ok ∅ (fst (foldl session_call w calls)) /\
  sn_maxOps (fst (foldl session_call w calls)) = sn_maxOps (fst w) /\
  (sn_active (fst w) = false -> sn_active (fst (foldl session_call w calls)) = false).
Proof.
  induction calls as [|c calls IH]; intros w Hok; cbn [foldl]; [done|].
  destruct (IH _ (call_ok w c Hok)) as (H1 & H2 & H3). destruct (call_keeps w c) as [Hm Ha].
  split; [done|]. split; [congruence|auto].
Qed.
End session.

(** ** The session over an executor whose calls are traced *)
Section traced.
Context {S H : Type} {E : Executor S H}.
Local Existing Instance traced.
Variable setupErr : ST S (option cerror).

Definition setupErr_traced : ST (S * list (event H)) (option cerror) := fun '(s, log) =>
  let '(err, s) := setupErr s in (err, (s, log)).

Definition is_do (ev : event H) : bool := match ev with EvDo _ => true | _ => false end.
(** The operations that reached the connection. *)
Definition dos (log : list (event H)) : Z := countb is_do log.
#[global] Arguments dos : simpl never.

Lemma dos_snoc log ev : dos (log ++ [ev]) = dos log + (if is_do ev then 1 else 0).
Proof. apply countb_snoc. Qed.

Abbreviation call_ := (session_call setupErr_traced).
Abbreviation run := (foldl call_).

(** Every operation that reaches the connection is counted. *)
Lemma call_counts w c : dos (snd (snd (call_ w c))) - dos (snd (snd w)) =
  sn_operations (fst (call_ w c)) - sn_operations (fst w).
Proof.
  destruct w as [sn [s log]]. destruct c as [op|ref|ref|]; cbn.
  - destruct (sn_active sn) eqn:Ea; cbn [negb fst snd]; [|lia].
    destruct (setupErr s) as [[err|] s1]; [cbn; lia|]. case_match; [cbn; lia|].
    destruct (ex_Do op s1) as [[stream|err] s2]; cbn; rewrite dos_snoc; cbn; [|lia].
    destruct (FramingPattern_NoResponse _); [|cbn; lia]. unfold releaseLocked. cbn. rewrite lookup_insert_eq. cbn. lia.
  - destruct (sn_heap sn !! ref) as [st|]; [|cbn; lia]. destruct (release_keeps ref sn) as (_ & _ & Ho & _).
    destruct (ex_Next (is_stream st) s) as [[r|e] s1]; cbn; case_match; rewrite ?Ho, dos_snoc; cbn; lia.
  - destruct (sn_heap sn !! ref) as [st|]; [|cbn; lia]. destruct (release_keeps ref sn) as (_ & _ & Ho & _).
    destruct (ex_Close (is_stream st) s) as [e s1]. cbn. rewrite Ho, dos_snoc. cbn. lia.
  - unfold deactivate. destruct (sn_active sn); cbn [negb]; [|lia].
    match goal with |- context [foldl ?f ?sn0 ?l] => destruct (releases_keep l sn0) as (_ & -> & _) end. cbn. lia.
Qed.

Lemma run_counts calls : forall w, dos (snd (snd (run w calls))) - dos (snd (snd w)) =
  sn_operations (fst (run w calls)) - sn_operations (fst w).
Proof.
  induction calls as [|c calls IH]; intros w; cbn [foldl]; [lia|].
  specialize (IH (call_ w c)). pose proof (call_counts w c). lia.
Qed.

Lemma inactive_run calls : forall w, sn_active (fst w) = false -> sn_operations (fst (run w calls)) = sn_operations (fst w).
Proof.
  induction calls as [|c calls IH]; intros w Ha; cbn [foldl]; [done|].
  rewrite IH by (by apply call_keeps). destruct w as [sn [s log]]. cbn [fst] in Ha.
  destruct c as [op|ref|ref|]; cbn; rewrite ?Ha; try done.
  - destruct (sn_heap sn !! ref) as [st|]; [|done]. destruct (release_keeps ref sn) as (_ & _ & Ho & _).
    destruct (ex_Next (is_stream st) s) as [[r|e] s1]; cbn; case_match; by rewrite ?Ho.
  - destruct (sn_heap sn !! ref) as [st|]; [|done]. destruct (release_keeps ref sn) as (_ & _ & Ho & _).
    destruct (ex_Close (is_stream st) s) as [e s1]. done.
  - unfold deactivate. by rewrite Ha.
Qed.

(** C14. A session is bounded and ends for good. After any sequence of calls of
    [Do], of [Next] and [Close] of its streams and of [deactivate], from a new
    session with a bound that is not negative: at most [maxOps] operations have
    reached the connection; the context of no stream is canceled twice; and once
    the session is deactivated, the context of every stream it handed out has
    been canceled, and no later call starts an operation. *)
Theorem session_discipline maxOps (s : S) calls : 0 <= maxOps ->
  let w := run (newInitializationSession maxOps, (s, [])) calls in
  dos (snd (snd w)) <= maxOps /\
  NoDup (sn_canceled (fst w)) /\
  (sn_active (fst w) = false ->
     (forall ref, ref ∈ sn_canceled (fst w) <-> is_Some (sn_heap (fst w) !! ref)) /\
     forall later, dos (snd (snd (run w later))) = dos (snd (snd w))).
Proof.
  intros Hm w.
  assert (H0 : session_ok ∅ (newInitializationSession maxOps : initializationSession H)).
  { constructor; cbn; try (rewrite ?map_size_empty; lia); try done; [constructor|..]; intros ref;
      rewrite lookup_empty; set_solver. }
  destruct (calls_ok setupErr_traced calls (newInitializationSession maxOps, (s, [])) H0) as (Hok & HM & _).
  fold w in Hok, HM. cbn in HM. pose proof (run_counts calls (newInitializationSession maxOps, (s, []))) as Hc.
  fold w in Hc. cbn in Hc. destruct Hok as [Ho Hh Hn Hca Hs Hi]. split; [|split; [done|]].
  - replace (dos []) with 0 in Hc by done. lia.
  - intros Ha. specialize (Hi Ha). split.
    + intros ref. rewrite Hca. split; [intros (st & -> & _); eauto|]. intros [st Hst]. exists st. split; [done|].
      destruct (is_released st) eqn:Er; [done|]. assert (ref ∈ (∅ : gset nat)); [|set_solver].
      specialize (Hs ref). rewrite Hi in Hs. set_solver.
    + intros later. pose proof (run_counts later w). pose proof (inactive_run later w Ha). lia.
Qed.
End traced.

(** A connection that answers every operation with its own number and never
    delivers a response. *)
#[local] Instance counting : Executor nat nat := {|
  ex_Do _ s := (inl s, Datatypes.S s);
  ex_Next _ s := (inr (Plain EOF), s);
  ex_Close _ s := (None, s)
|}.

Definition any_operation : UntypedOperation :=
  MkUntypedOperation None [] (MkFramingPattern [] [] false true) CancelAbandon "".

Lemma session_discipline_witness :
  let calls := [CallDo any_operation; CallDo any_operation; CallDo any_operation; CallNext 0; CallDeactivate;
                CallDo any_operation] in
  let w := foldl (session_call (Executor0 := traced counting) (setupErr_traced (fun s => (None, s))))
             (newInitializationSession 2, (0%nat, [])) calls in
  sn_canceled (fst w) = [0%nat; 1%nat] /\ dos (snd (snd w)) = 2 /\ sn_active (fst w) = false /\
  dos (snd (snd w)) <= 2 /\ forall later, dos (snd (snd
     (foldl (session_call (Executor0 := traced counting) (setupErr_traced (fun s => (None, s)))) w later))) = dos (snd (snd w)).
Proof.
  intros calls w. split; [by vm_compute|]. split; [by vm_compute|]. split; [by vm_compute|].
  destruct (session_discipline (E := counting) (fun s => (None, s)) 2 0%nat calls) as (H1 & _ & H2); [lia|].
  split; [exact H1|]. apply H2. by vm_compute.
Defined.
