(* ===== verification/Setup.v ===== *)
(** * Connection set-up

    Models the set-up of src/bootstrap.go ([Bootstrap], [initialize],
    [authenticate]) and [Dialer.dial] of src/connection.go.

    The authentication mechanism, the initializer, the network and the context
    are code outside these functions: the variables of the section below. They
    act on a state that holds the connection, the initialization session
    (Session.v) and whatever else they own. *)

From S2P Require Import Prelude Wire Types Errors Options Endpoint Protocol Response Conn ConnSafety Client Session.

(** [setupFailure]: an error that is a [*SetupError] already is kept. *)
Definition setupFailure (endpoint : EndpointID) (stage : SetupStage) (err : cerror) : cerror :=
  if isSetup err then err else SetupError endpoint stage err.

Definition unauthenticatedIdentity : Identity := MkIdentity (bs "unauthenticated").

(** ** Authentication and initialization *)

(** The connection, the session and the rest of the world. *)
Definition World (W : Type) : Type := Conn * (initializationSession OpRef * W).

(** The interfaces [Authentication] and [Authenticator]; [None] is a nil
    authenticator. *)
Record Mechanism (W A : Type) := MkMechanism {
  mech_Begin : Endpoint -> ST (World W) (option A * option cerror);
  mech_Authenticate : A -> ST (World W) (Identity * option cerror);
  mech_Close : A -> ST (World W) (option cerror)
}.
Arguments MkMechanism {W A}.
Arguments mech_Begin {W A} _.
Arguments mech_Authenticate {W A} _.
Arguments mech_Close {W A} _.

Section setup.
Context {W A P : Type}.
Variable authentication : option (Mechanism W A).
(** [setupCtx.Err()]. *)
Variable setupErr : ST (World W) (option cerror).
(** A connection initializer: profile, policy and error. *)
Variable initializer : option (ST (World W) (P * ConnectionPolicy * option cerror)).

Definition authenticate (endpoint : Endpoint) : ST (World W) (Identity + cerror) := fun s =>
  match authentication with
  | None => (inl unauthenticatedIdentity, s)
  | Some mech =>
      match mech_Begin mech endpoint s with
      | (None, Some beginErr, s) => (inr beginErr, s)
      | (None, None, s) =>
          (inr (Plain (ErrorString "arden: authentication returned a nil authenticator")), s)
      | (Some authenticator, Some beginErr, s) =>
          let '(closeErr, s) := mech_Close mech authenticator s in (inr (JoinError beginErr closeErr), s)
      | (Some authenticator, None, s) =>
          let '(identity, authErr, s) := mech_Authenticate mech authenticator s in
          let '(closeErr, s) := mech_Close mech authenticator s in
          match join authErr closeErr with
          | Some err => (inr err, s)
          | None => (inl identity, s)
          end
      end
  end.

(** A step of [initialize] that fails set-up at a stage. *)
Definition check (endpoint : EndpointID) (stage : SetupStage) {B} (err : option cerror)
    (k : ST (World W) (B + cerror)) : ST (World W) (B + cerror) := fun s =>
  match err with
  | Some err => (inr (setupFailure endpoint stage err), s)
  | None => k s
  end.

(** A critical section of the connection. *)
Definition on_conn {B} (f : Conn -> B * Conn) : ST (World W) B := fun '(c, w) =>
  let '(b, c) := f c in (b, (c, w)).
Definition peek {B} (f : Conn -> B) : ST (World W) B := fun '(c, w) => (f c, (c, w)).
Definition deactivateSession : ST (World W) unit := fun '(c, (sn, w)) => (tt, (c, (deactivate sn, w))).

Definition bindST {B C} (m : ST (World W) B) (k : B -> ST (World W) C) : ST (World W) C := fun s =>
  let '(b, s) := m s in k b s.

Definition conservative : ConnectionPolicy := MkConnectionPolicy CancellationConservative.

(** The call of the initializer. *)
Definition initialize_profile (id : EndpointID) : ST (World W) ((option P * ConnectionPolicy) + cerror) :=
  match initializer with
  | None => fun s => (inl (None, conservative), s)
  | Some initializer => bindST initializer (fun '(profile, policy, err) s =>
      match err with
      | Some err =>
          let stage := if Is err ErrProfileMismatch then SetupProfileMismatch else SetupInitialization in
          (inr (setupFailure id stage err), s)
      | None => (inl (Some profile, policy), s)
      end)
  end.

(** The result of set-up: identity, profile and policy. *)
Definition handoff : Type := Identity * option P * ConnectionPolicy.

(** The last checks of [initialize] and the handoff. *)
Definition initialize_ready (id : EndpointID) (identity : Identity) (profile : option P) (policy : ConnectionPolicy)
    : ST (World W) (handoff + cerror) :=
  bindST setupErr (fun err => check id SetupInitialization err
  (check id SetupInitialization (Plain <$> ConnectionPolicy_Validate policy)
  (bindST (peek requireInitializationIdle) (fun err => check id SetupInitialization err
  (bindST deactivateSession (fun _ =>
  bindST (on_conn (markReady identity policy)) (fun err => check id SetupInitialization err
  (fun s => (inl (identity, profile, policy), s))))))))).

(** The body of [initialize], without its deferred functions. *)
Definition initialize_body (endpoint : Endpoint) : ST (World W) (handoff + cerror) :=
  let id := ep_ID endpoint in
  bindST (on_conn (transition stateAuthenticating)) (fun err => check id SetupAuthentication err
  (bindST (authenticate endpoint) (fun r =>
  match r with
  | inr err => check id SetupAuthentication (Some err) (fun s => (inr err, s))
  | inl identity =>
  bindST setupErr (fun err => check id SetupAuthentication err
  (check id SetupAuthentication (Plain <$> Identity_Validate identity)
  (bindST (peek requireInitializationIdle) (fun err => check id SetupAuthentication err
  (bindST (on_conn (transition stateInitializing)) (fun err => check id SetupInitialization err
  (bindST (initialize_profile id) (fun r =>
  match r with
  | inr err => fun s => (inr err, s)
  | inl (profile, policy) => initialize_ready id identity profile policy
  end)))))))) end))).

(** The deferred functions deactivate the session, and retire the connection
    on an error. *)
Definition initialize (endpoint : Endpoint) (c : Conn) (w : W) : (handoff + cerror) * World W :=
  let session := newInitializationSession (MaxInitializationOperations (c_options c)) in
  let '(r, s) := initialize_body endpoint (c, (session, w)) in
  let '(_, (c, w)) := deactivateSession s in
  match r with
  | inl ok => (inl ok, (c, w))
  | inr err => (inr err, (retire (Some err) c, w))
  end.

(** ** Dialing *)

(** The preflight hook of the mechanism, if it has one, and what the network
    and the TLS handshake answer. *)
Variable validateEndpoint : option (Endpoint -> option cerror).
Variable dialTCP : bytes -> W -> option cerror * W.
Variable handshake : bytes -> W -> option cerror * W.

(** [dial]: the second result is the connection that was made, if any.
    Retiring it again on an error changes nothing. *)
Definition dial (options : ConnectionOptions) (endpoint : Endpoint) (w : W)
    : (Conn * handoff + cerror) * option Conn * W :=
  match Endpoint_Validate endpoint with
  | Some err => (inr (Plain err), None, w)
  | None =>
  match ConnectionOptions_normalized options with
  | Err err => (inr (Plain err), None, w)
  | Ok options =>
  match match validateEndpoint with Some validate => validate endpoint | None => None end with
  | Some err => (inr (SetupError (ep_ID endpoint) SetupAuthentication err), None, w)
  | None =>
  match dialTCP (ep_Address endpoint) w with
  | (Some err, w) => (inr (TransportError StageDial OutcomeNotApplicable err), None, w)
  | (None, w) =>
  match (if ep_Transport endpoint =? TransportDirectTLS then handshake (ep_ServerName endpoint) w else (None, w)) with
  | (Some err, w) => (inr (TransportError StageTLS OutcomeNotApplicable err), None, w)
  | (None, w) =>
  match advanceConnectionState stateDialing stateTransportSetup with
  | Err err => (inr (Plain err), None, w)
  | Ok state =>
  match newConnWithState options MaxMessageID state with
  | Err err => (inr (Plain err), None, w)
  | Ok c =>
  match initialize endpoint c w with
  | (inr err, (c, (_, w))) => (inr err, Some (retire (Some err) c), w)
  | (inl ok, (c, (_, w))) => (inl (c, ok), Some c, w)
  end end end end end end end end.

(** [Bootstrap]: the identity and the policy are read back from the connection. *)
Record SetupResult := MkSetupResult {
  sr_Conn : Conn;
  sr_Endpoint : Endpoint;
  sr_Identity : Identity;
  sr_Profile : option P;
  sr_Policy : ConnectionPolicy
}.

Definition Bootstrap (options : ConnectionOptions) (endpoint : Endpoint) (w : W) : (SetupResult + cerror) * W :=
  if match initializer with None => true | Some _ => false end then (inr (Plain (ErrorString "arden: nil initializer")), w)
  else
    match dial options endpoint w with
    | (inr err, _, w) => (inr err, w)
    | (inl (conn, (_, profile, _)), _, w) =>
        (inl (MkSetupResult conn endpoint (c_identity conn) profile (c_policy conn)), w)
    end.

(** ** Properties of set-up *)

Lemma setupFailure_setup id stage err : isSetup (setupFailure id stage err) = true.
Proof. unfold setupFailure. by destruct (isSetup err) eqn:E. Qed.

Lemma isSetup_Is err : isSetup err = true -> Is err ErrSetup = true.
Proof.
  revert err. fix IH 1. intros err. destruct err as [| | |? ? ? [e|]| | | |[e|]| | | | |e1 rest]; cbn; try done;
    rewrite ?orb_true_iff; auto.
  intros [H%IH|H]; [auto|]. right. destruct rest as [e|]; auto.
Qed.

(** What set-up has established when it hands a connection over. *)
Definition published (c : Conn) (ok : handoff) : Prop :=
  c_state c = stateReady /\ c_err c = None /\ idle c = true /\
  c_identity c = ok.1.1 /\ c_policy c = ok.2 /\
  Identity_Validate ok.1.1 = None /\ ConnectionPolicy_Validate ok.2 = None.

Lemma markReady_publishes identity policy c c' : markReady identity policy c = (None, c') ->
  c_state c' = stateReady /\ c_err c' = None /\ idle c' = true /\ c_identity c' = identity /\ c_policy c' = policy.
Proof.
  unfold markReady. destruct (c_err c) eqn:Ee; [done|]. case_bool_decide as Hs; [|done]. cbn [negb].
  destruct (idle c) eqn:Ei; [|done]. cbn [negb]. rewrite Hs. cbn. intros [= <-]. cbn. done.
Qed.

Lemma ready_publishes id identity profile policy s : Identity_Validate identity = None ->
  match initialize_ready id identity profile policy s with
  | (inl ok, (c, _)) => published c ok /\ ok = (identity, profile, policy)
  | (inr err, _) => isSetup err = true
  end.
Proof.
  intros Hi. unfold initialize_ready, check, bindST, peek, on_conn, deactivateSession.
  destruct (setupErr s) as [[err|] [c [sn w]]]; [apply setupFailure_setup|].
  destruct (ConnectionPolicy_Validate policy) eqn:Ep; cbn [fmap option_fmap option_map]; [apply setupFailure_setup|].
  destruct (requireInitializationIdle c); [apply setupFailure_setup|].
  destruct (markReady identity policy c) as [[err|] c'] eqn:Em; [apply setupFailure_setup|].
  apply markReady_publishes in Em as (? & ? & ? & ? & ?). split; [|done]. by repeat split.
Qed.

Lemma body_publishes endpoint s :
  match initialize_body endpoint s with
  | (inl ok, (c, _)) => published c ok
  | (inr err, _) => isSetup err = true
  end.
Proof.
  unfold initialize_body, check, bindST. destruct (on_conn _ s) as [[err|] s1]; [apply setupFailure_setup|].
  destruct (authenticate endpoint s1) as [[identity|err] s2]; [|apply setupFailure_setup].
  destruct (setupErr s2) as [[err|] s3]; [apply setupFailure_setup|].
  destruct (Identity_Validate identity) eqn:Ei; cbn [fmap option_fmap option_map]; [apply setupFailure_setup|].
  destruct (peek _ s3) as [[err|] s4]; [apply setupFailure_setup|].
  destruct (on_conn _ s4) as [[err|] s5]; [apply setupFailure_setup|].
  assert (Hp : match initialize_profile (ep_ID endpoint) s5 with (inr err, _) => isSetup err = true | _ => True end).
  { unfold initialize_profile, bindST. destruct initializer as [init|]; [|done].
    destruct (init s5) as [[[profile policy] [err|]] s6]; [apply setupFailure_setup|done]. }
  destruct (initialize_profile _ s5) as [[[profile policy]|err] s6]; [|done].
  pose proof (ready_publishes (ep_ID endpoint) identity profile policy s6 Ei) as Hr.
  destruct (initialize_ready _ _ _ _ s6) as [[ok|err] [c w]]; [by destruct Hr|done].
Qed.

Lemma initialize_publishes endpoint c w :
  match initialize endpoint c w with
  | (inl ok, (c', (sn, _))) => published c' ok /\ sn_active sn = false
  | (inr err, (c', (sn, _))) => is_Some (c_err c') /\ isSetup err = true /\ sn_active sn = false
  end.
Proof.
  unfold initialize, deactivateSession.
  match goal with |- context [initialize_body endpoint ?s] => pose proof (body_publishes endpoint s) as Hb;
    destruct (initialize_body endpoint s) as [[ok|err] [c' [session w']]] end;
    pose proof (deactivate_inactive session) as Hd; [done|].
  split; [apply retire_sets|done].
Qed.

(** C13. [dial] publishes only finished connections. When it returns one, the
    endpoint and the options are valid, the TCP connection was made and, for a
    TLS endpoint, the handshake for the endpoint's server name succeeded; the
    connection is ready, has no error and no operation in progress, and carries
    the returned identity and policy, both valid. When it fails, a connection
    that was made is retired, and from the moment there is one every failure is
    a set-up failure. *)
Theorem dial_publishes_ready options endpoint w :
  match dial options endpoint w with
  | (inl (c, ok), made, _) =>
      made = Some c /\ published c ok /\ Endpoint_Validate endpoint = None /\
      (exists o, ConnectionOptions_normalized options = Ok o) /\
      exists w1 w2, dialTCP (ep_Address endpoint) w = (None, w1) /\
        (ep_Transport endpoint = TransportPlaintext \/ handshake (ep_ServerName endpoint) w1 = (None, w2))
  | (inr err, made, _) =>
      forall c, made = Some c -> is_Some (c_err c) /\ Is err ErrSetup = true
  end.
Proof.
  unfold dial. destruct (Endpoint_Validate endpoint) eqn:Ee; [done|].
  destruct (ConnectionOptions_normalized options) as [o|] eqn:Eo; [|done].
  destruct (match validateEndpoint with Some validate => _ | None => _ end); [done|].
  destruct (dialTCP (ep_Address endpoint) w) as [[err|] w1] eqn:Et; [done|].
  destruct (if ep_Transport endpoint =? TransportDirectTLS then _ else _) as [[err|] w2] eqn:Eh; [done|].
  cbn [advanceConnectionState]. destruct (advanceConnectionState _ _) as [state|]; [|done].
  destruct (newConnWithState o MaxMessageID state) as [c|]; [|done].
  pose proof (initialize_publishes endpoint c w2) as Hi.
  destruct (initialize endpoint c w2) as [[ok|err] [c' [sn w']]].
  - destruct Hi as [Hp _]. split_and!; eauto. exists w1, w2. split; [done|].
    apply endpoint_validate_exact in Ee as (_ & _ & [?|[Ht _]]); [by left|right]. by rewrite Ht in Eh.
  - intros c0 [= <-]. destruct Hi as ([e He] & Hs & _). split; [apply retire_sets|by apply isSetup_Is].
Qed.
End setup.

(** ** The life of an authenticator *)

Inductive mechEvent (A : Type) := Began (a : option A) | Authenticated (a : A) | Closed (a : A).
Arguments Began {A} a.
Arguments Authenticated {A} a.
Arguments Closed {A} a.

(** A mechanism that also records its calls. *)
Definition record {W A B} (event : B -> mechEvent A) (m : ST (World W) B) : ST (World (W * list (mechEvent A))) B :=
  fun '(c, (session, (w, log))) =>
    let '(b, (c, (session, w))) := m (c, (session, w)) in (b, (c, (session, (w, log ++ [event b])))).

Definition recorded {W A} (m : Mechanism W A) : Mechanism (W * list (mechEvent A)) A :=
  MkMechanism (fun endpoint => record (fun r => Began r.1) (mech_Begin m endpoint))
    (fun a => record (fun _ => Authenticated a) (mech_Authenticate m a))
    (fun a => record (fun _ => Closed a) (mech_Close m a)).

(** Set-up uses an authenticator once and always closes it. For every
    mechanism, [authenticate] calls [Begin] once; if that gives no
    authenticator nothing else happens; otherwise the authenticator is closed,
    after at most one [Authenticate], as the last call. An identity is returned
    only after [Authenticate]. *)
Theorem authenticator_lifecycle {W A} (mech : Mechanism W A) endpoint c session w :
  match authenticate (Some (recorded mech)) endpoint (c, (session, (w, []))) with
  | (r, (_, (_, (_, log)))) =>
      (log = [Began None] /\ exists err, r = inr err) \/
      (exists a err, log = [Began (Some a); Closed a] /\ r = inr err) \/
      (exists a, log = [Began (Some a); Authenticated a; Closed a])
  end.
Proof.
  unfold authenticate, recorded, record. cbn [mech_Begin mech_Authenticate mech_Close].
  destruct (mech_Begin mech endpoint _) as [[[a|] [err|]] [c1 [s1 w1]]]; cbn; eauto.
  - destruct (mech_Close mech a _) as [e2 [c2 [s2 w2]]]. eauto 6.
  - destruct (mech_Authenticate mech a _) as [[who err] [c2 [s2 w2]]].
    destruct (mech_Close mech a _) as [e3 [c3 [s3 w3]]]. destruct (join err e3); eauto 6.
Qed.
