(* ===== verification/Auth.v ===== *)
(** * Anonymous and simple authentication

    Models src/auth/auth.go and src/auth/simple.go: the mechanisms, and the
    authenticator of one Bind that both share, over the executor interface that
    an initialization session implements (Session.v). *)

From S2P Require Import Prelude Wire Packet Types Protocol Result Operations Bind Errors Options Endpoint.
From S2P Require Import Response Conn Client ClientSafety Session Setup.

Definition anonymousStableID : bytes := bs "anonymous".

(** An authenticator is a mutable object. [ba_memory] is the array that
    [credentials] points to, and [ba_held] tells whether the field still points
    to it; a nil slice reads as no bytes. *)
Record bindAuthenticator := MkBind {
  ba_identity : Identity;
  ba_name : bytes;
  ba_memory : bytes;
  ba_held : bool;
  ba_used : bool;
  ba_closed : bool
}.
Definition ba_credentials (a : bindAuthenticator) : bytes := if ba_held a then ba_memory a else [].

Definition set_used (a : bindAuthenticator) : bindAuthenticator :=
  MkBind (ba_identity a) (ba_name a) (ba_memory a) (ba_held a) true (ba_closed a).

(** [clear] of a byte slice. *)
Definition clear (b : bytes) : bytes := map (fun _ => 0) b.

(** ** Mechanisms *)

(** [Anonymous.Begin]; the argument is [ctx.Err()]. *)
Definition Anonymous_Begin (ctxErr : option cerror) : bindAuthenticator + cerror :=
  match ctxErr with
  | Some err => inr err
  | None => inl (MkBind (MkIdentity anonymousStableID) [] [] false false false)
  end.

Record SimpleBind := MkSimpleBind {
  sb_identity : Identity;
  sb_bindDN : bytes;
  sb_credentials : bytes
}.

Definition NewSimpleBind (stableID bindDN credentials : bytes) : result SimpleBind :=
  let identity := MkIdentity stableID in
  match Identity_Validate identity with
  | Some err => Err err
  | None =>
      if len bindDN =? 0 then
        Err (ErrorString "arden/auth: Simple Bind DN is empty; use Anonymous for anonymous authentication")
      else if negb (utf8_Valid bindDN) then Err (ErrorString "arden/auth: Simple Bind DN is not valid UTF-8")
      else if len credentials =? 0 then Err (ErrorString "arden/auth: Simple Bind credentials are empty")
      else Ok (MkSimpleBind identity bindDN credentials)
  end.

Definition SimpleBind_ValidateEndpoint (endpoint : Endpoint) : option cerror :=
  if negb (ep_Transport endpoint =? TransportDirectTLS)
  then Some (Plain (ErrorString "arden/auth: Simple Bind requires direct TLS")) else None.

Definition SimpleBind_Begin (a : SimpleBind) (ctxErr : option cerror) (endpoint : Endpoint)
    : bindAuthenticator + cerror :=
  match ctxErr with
  | Some err => inr err
  | None =>
      match SimpleBind_ValidateEndpoint endpoint with
      | Some err => inr err
      | None => inl (MkBind (sb_identity a) (sb_bindDN a) (sb_credentials a) true false false)
      end
  end.

(** ** The authenticator *)
Section authenticator.
Context {S H : Type} `{!Executor S H}.

Definition bindRequest (a : bindAuthenticator) : BindRequest :=
  MkBindRequest 3 (ba_name a) (SimpleAuthentication (ba_credentials a)) [].

(** The part of [Authenticate] after the stream was opened. *)
Definition readBind (operation : Operation BindResponse) (stream : H) : ST S (option cerror) := fun s =>
  match ex_Next stream s with
  | (inr err, s) => (Some err, s)
  | (inl response, s) =>
  match Decode (op_Responses operation) response DefaultLimits with
  | Err err => (Some (Plain err), s)
  | Ok bindResponse =>
  let code := lr_ResultCode (bind_Result bindResponse) in
  if negb (code =? ResultSuccess) then (Some (BindError code), s)
  else
  match ex_Next stream s with
  | (inl _, s) => (Some (Plain (ErrorString "arden/auth: Bind returned more than one response")), s)
  | (inr err, s) => if Is err (Plain EOF) then (None, s) else (Some err, s)
  end end end.

Definition bind_Authenticate (a : bindAuthenticator) : ST S ((Identity + cerror) * bindAuthenticator) := fun s =>
  if ba_closed a then (inr (Plain (ErrorString "arden/auth: authenticator is closed")), a, s)
  else if ba_used a then (inr (Plain (ErrorString "arden/auth: authenticator was already used")), a, s)
  else
  let a := set_used a in
  match NewBindOperation (Some (bindRequest a)) [] with
  | Err err => (inr (Plain err), a, s)
  | Ok operation =>
  match ex_Do (Untyped operation) s with
  | (inr err, s) => (inr err, a, s)
  | (inl stream, s) =>
  match readBind operation stream s with
  | (Some err, s) => (inr err, a, s)
  | (None, s) => (inl (ba_identity a), a, s)
  end end end.

Definition bind_Close (a : bindAuthenticator) : bindAuthenticator :=
  if ba_closed a then a
  else
    let memory := if ba_held a then clear (ba_memory a) else ba_memory a in
    MkBind (ba_identity a) [] memory false (ba_used a) true.
End authenticator.

(** ** Correctness *)
Section correctness.
Context {S H : Type} `{!Executor S H}.

Definition bindOperation (a : bindAuthenticator) : Operation BindResponse :=
  MkOperation (Some (MkProtocolOperation (BERPacket (bindRequest a)) bindRequestIdentifier)) [] bindResponsePattern
    CancelClose "ldap.bind".

Lemma bindOperation_ok a : NewBindOperation (Some (bindRequest a)) [] = Ok (bindOperation a).
Proof.
  unfold NewBindOperation. cbn [fmap option_fmap option_map]. apply newOperation_ok; [done| |done|done].
  by vm_compute.
Qed.

(** The stream delivers one Bind response with the result code success, and
    then its end. *)
Definition binds (h : H) (s s' : S) : Prop := exists response decoded s1 err,
  ex_Next h s = (inl response, s1) /\ Decode bindResponsePattern response DefaultLimits = Ok decoded /\
  lr_ResultCode (bind_Result decoded) = ResultSuccess /\ ex_Next h s1 = (inr err, s') /\ Is err (Plain EOF) = true.

Lemma readBind_exact a h s s' : readBind (bindOperation a) h s = (None, s') <-> binds h s s'.
Proof.
  unfold readBind, binds. cbn [bindOperation op_Responses]. split.
  - destruct (ex_Next h s) as [[response|e] s1]; [|done].
    destruct (Decode _ _ _) as [decoded|] eqn:Ed; [|done].
    destruct (negb _) eqn:Ec; [done|]. destruct (ex_Next h s1) as [[r|e] s2] eqn:E2; [done|].
    destruct (Is e (Plain EOF)) eqn:Ee; intros [= <-]. apply negb_false_iff, Z.eqb_eq in Ec. eauto 12.
  - intros (response & decoded & s1 & err & -> & -> & Hc & -> & He). by rewrite Hc, He.
Qed.

(** A Bind authenticator answers exactly: [Authenticate] returns an
    identity if and only if the authenticator is neither closed nor used, the
    session accepts the LDAPv3 Bind request with the mechanism's name and
    credentials, and its stream is one decodable response with the result code
    success, followed by the end of the stream; the identity is then the one of
    the mechanism, never something the server sent. *)
Lemma bind_authenticate_exact a (s : S) who a' s' : bind_Authenticate a s = (inl who, a', s') <->
  ba_closed a = false /\ ba_used a = false /\ who = ba_identity a /\ a' = set_used a /\
  exists h s1, ex_Do (Untyped (bindOperation a)) s = (inl h, s1) /\ binds h s1 s'.
Proof.
  unfold bind_Authenticate. destruct (ba_closed a) eqn:Ec; [split; [done|naive_solver]|].
  destruct (ba_used a) eqn:Eu; [split; [done|naive_solver]|]. cbv zeta. rewrite bindOperation_ok.
  change (bindOperation (set_used a)) with (bindOperation a). split.
  - destruct (ex_Do _ s) as [[h|e] s1]; [|done]. destruct (readBind _ h s1) as [[e|] s2] eqn:E; [done|].
    apply readBind_exact in E. intros [= <- <- <-]. split_and!; try done. eauto.
  - intros (_ & _ & -> & -> & h & s1 & -> & Hb%(readBind_exact a)). by rewrite Hb.
Qed.
End correctness.

(** Any sequence of calls of one authenticator. *)
Inductive authCall := AuthAuthenticate | AuthClose.

Section lifetime.
Context {S H : Type} {E : Executor S H}.
Local Existing Instance traced.

Definition auth_call (w : bindAuthenticator * (S * list (event H))) (c : authCall) :=
  match c with
  | AuthAuthenticate => let '(_, a, s) := bind_Authenticate w.1 w.2 in (a, s)
  | AuthClose => (bind_Close w.1, w.2)
  end.

(** How many operations the authenticator may still start, and what it holds. *)
Record auth_ok (secret : bytes) (w : bindAuthenticator * (S * list (event H))) : Prop := {
  ak_dos : dos w.2.2 <= 1 /\ (ba_used w.1 = false -> dos w.2.2 = 0);
  ak_open : ba_closed w.1 = false -> ba_memory w.1 = secret /\ (ba_held w.1 = true \/ secret = []);
  ak_closed : ba_closed w.1 = true -> ba_held w.1 = false /\ ba_name w.1 = [] /\ ba_memory w.1 = clear secret
}.

Lemma readBind_dos operation h (w : S * list (event H)) : dos (snd (readBind operation h w)).2 = dos w.2.
Proof.
  destruct w as [s log]. unfold readBind. cbn. destruct (ex_Next h s) as [[response|e] s1]; cbn.
  2:{ rewrite dos_snoc. cbn. lia. }
  destruct (Decode _ _ _) as [decoded|]; [|cbn; rewrite dos_snoc; cbn; lia].
  destruct (negb _); [cbn; rewrite dos_snoc; cbn; lia|].
  destruct (ex_Next h s1) as [[r|e] s2]; cbn; [|destruct (Is e (Plain EOF))]; cbn; rewrite !dos_snoc; cbn; lia.
Qed.

Lemma authenticate_starts a (w : S * list (event H)) r a' w' : bind_Authenticate a w = (r, a', w') ->
  (ba_used a || ba_closed a = true /\ a' = a /\ w' = w) \/
  (ba_used a = false /\ ba_closed a = false /\ a' = set_used a /\ dos w'.2 = dos w.2 + 1).
Proof.
  unfold bind_Authenticate. destruct (ba_closed a), (ba_used a); try (intros [= <- <- <-]; auto).
  cbv zeta. rewrite bindOperation_ok. intros Heq. right. destruct w as [s log]. cbn in Heq.
  destruct (ex_Do _ s) as [[h|e] s1]; cbn in Heq.
  - match type of Heq with context [readBind ?o h ?w] => pose proof (readBind_dos o h w) as Hr;
      destruct (readBind o h w) as [[err|] w2] end; injection Heq as _ <- <-; cbn in *;
      rewrite Hr, dos_snoc; cbn; split_and!; try done; lia.
  - injection Heq as _ <- <-. cbn. rewrite dos_snoc. cbn. split_and!; try done; lia.
Qed.
Lemma call_auth_ok secret w c : auth_ok secret w -> auth_ok secret (auth_call w c).
Proof.
  intros [[Hd Hu] Ho Hc]. destruct w as [a w]. destruct c; cbn in *.
  - destruct (bind_Authenticate a w) as [[r a'] w'] eqn:Ea. apply authenticate_starts in Ea as [(_ & -> & ->)|(Hu' & Hc' & -> & Hd')].
    + by constructor.
    + constructor; cbn; [|done|congruence]. rewrite Hd'. split; [|done]. rewrite Hu by done. lia.
  - unfold bind_Close. destruct (ba_closed a) eqn:Ec; [constructor; cbn; rewrite ?Ec; auto|].
    constructor; cbn; [done|done|]. intros _. split_and!; try done.
    destruct (Ho eq_refl) as [<- [->|Hn]]; [done|]. rewrite Hn. by destruct (ba_held a).
Qed.

Lemma calls_auth_ok secret calls : forall w, auth_ok secret w -> auth_ok secret (foldl auth_call w calls).
Proof. induction calls as [|c calls IH]; intros w Hw; [done|]. apply IH. by apply call_auth_ok. Qed.

Lemma bind_Close_closed a : ba_closed (bind_Close a) = true.
Proof. unfold bind_Close. by destruct (ba_closed a) eqn:Eb. Qed.

(** A closed authenticator does nothing. *)
Lemma closed_calls calls : forall w, ba_closed w.1 = true -> foldl auth_call w calls = w.
Proof.
  induction calls as [|c calls IH]; intros [a w] Hc; [done|]. cbn [foldl fst] in *.
  assert (auth_call (a, w) c = (a, w)) as ->; [|by apply IH].
  destruct c; cbn; [unfold bind_Authenticate|unfold bind_Close]; by rewrite Hc.
Qed.

(** C35. A simple Bind authenticator is used once and leaves no secret. For any
    sequence of [Authenticate] and [Close] on an authenticator of [SimpleBind]:
    at most one operation reaches the session. Once [Close] is among the calls,
    the array of the credentials is all zero bytes, the authenticator holds
    neither it nor the name, and nothing after the first [Close] has any
    effect. And [Authenticate] answers exactly: it returns an identity if and only
    if the session accepts the LDAPv3 Bind request with the configured name and
    credentials, and its stream is one decodable response with the result code
    success, followed by the end of the stream; the identity is then the configured
    one, never something the server sent. *)
Theorem simple_bind_single_use config endpoint a (s : S) before after :
  SimpleBind_Begin config None endpoint = inl a ->
  dos (foldl auth_call (a, (s, [])) before).2.2 <= 1 /\
  let closed := auth_call (foldl auth_call (a, (s, [])) before) AuthClose in
  ba_memory closed.1 = replicate (length (sb_credentials config)) 0 /\
  ba_credentials closed.1 = [] /\ ba_name closed.1 = [] /\
  foldl auth_call closed after = closed /\
  (forall who a' s', bind_Authenticate (Executor0 := E) a s = (inl who, a', s') <->
     who = sb_identity config /\ a' = set_used a /\
     exists h s1, ex_Do (Untyped (bindOperation a)) s = (inl h, s1) /\ binds (Executor0 := E) h s1 s').
Proof.
  unfold SimpleBind_Begin. destruct (SimpleBind_ValidateEndpoint endpoint); [done|]. intros [= <-].
  set (w0 := (_, (s, []))).
  assert (H0 : auth_ok (sb_credentials config) w0) by (constructor; cbn; auto; done).
  apply (calls_auth_ok _ before) in H0. split; [apply H0|]. cbv zeta.
  set (closed := auth_call _ AuthClose).
  apply (call_auth_ok _ _ AuthClose) in H0. fold closed in H0.
  assert (Hc : ba_closed closed.1 = true).
  { apply bind_Close_closed. }
  destruct (ak_closed _ _ H0 Hc) as (H1 & H2 & H3). split_and!; [|by unfold ba_credentials; rewrite H1|done|by apply closed_calls|].
  - rewrite H3. unfold clear. by apply (const_fmap (fun _ => 0)).
  - intros who a' s'. rewrite bind_authenticate_exact. cbn [ba_closed ba_used ba_identity]. tauto.
Qed.
End lifetime.

Lemma simple_bind_single_use_witness :
  let config := MkSimpleBind (MkIdentity (bs "service")) (bs "cn=app") (bs "secret") in
  let endpoint := MkEndpoint "a" (bs "host:636") (bs "host") TransportDirectTLS in
  exists a, SimpleBind_Begin config None endpoint = inl a /\
    ba_memory (auth_call (E := counting) (foldl (auth_call (E := counting)) (a, (0%nat, [])) [AuthAuthenticate]) AuthClose).1
    = [0; 0; 0; 0; 0; 0].
Proof.
  intros config endpoint. eexists. split; [reflexivity|].
  exact (proj1 (proj2 (simple_bind_single_use (E := counting) config endpoint _ 0%nat [AuthAuthenticate] [] eq_refl))).
Defined.

(** Simple Bind credentials never meet a plaintext transport: with
    [SimpleBind] as the mechanism, dialing an endpoint whose transport is not
    direct TLS fails as a set-up error before any network call, whatever the
    rest of the dialer is; and [Begin] refuses such an endpoint as well. *)
Theorem simple_bind_refuses_plaintext {W A P} (mech : option (Mechanism W A)) setupErr
    (initializer : option (ST (World W) (P * ConnectionPolicy * option cerror))) dialTCP handshake config options endpoint w
    ctxErr :
  ep_Transport endpoint <> TransportDirectTLS ->
  (exists err, dial mech setupErr initializer (Some SimpleBind_ValidateEndpoint) dialTCP handshake options endpoint w =
     (inr err, None, w)) /\
  exists err, SimpleBind_Begin config ctxErr endpoint = inr err.
Proof.
  intros Ht. assert (Hv : is_Some (SimpleBind_ValidateEndpoint endpoint)).
  { unfold SimpleBind_ValidateEndpoint. apply Z.eqb_neq in Ht. rewrite Ht. eauto. }
  destruct Hv as [err Hv]. split.
  - unfold dial. destruct (Endpoint_Validate endpoint); [eauto|]. destruct (ConnectionOptions_normalized options); [|eauto].
    rewrite Hv. eauto.
  - unfold SimpleBind_Begin. rewrite Hv. destruct ctxErr; eauto.
Qed.

Lemma simple_bind_refuses_plaintext_witness :
  let endpoint := MkEndpoint "a" (bs "host:389") [] TransportPlaintext in
  let config := MkSimpleBind (MkIdentity (bs "service")) (bs "cn=app") (bs "secret") in
  exists err, dial (A := unit) (P := unit) None (fun s => (None, s)) None (Some SimpleBind_ValidateEndpoint)
    (fun _ n => (None, n + 1)) (fun _ n => (None, n + 1)) DefaultConnectionOptions endpoint 0 = (inr err, None, 0).
Proof.
  intros endpoint config.
  exact (proj1 (simple_bind_refuses_plaintext (A := unit) (P := unit) None (fun s => (None, s)) None (fun _ n => (None, n + 1))
    (fun _ n => (None, n + 1)) config DefaultConnectionOptions endpoint 0 None ltac:(vm_compute; discriminate))).
Defined.
