(* ===== verification/Gssapi.v ===== *)
(** * GSSAPI authentication

    Models src/auth/gssapi (gssapi.go, bind.go and errors.go): the RFC 4752
    conversation for one connection, its errors and the release of its handles.

    The GSS library is third-party code: the class [Provider] below is what the
    package calls of it, with a nil handle as [None]. The session is any
    [Executor] on the same state. Erasing token buffers after their use is not
    part of the state: tokens are values here. *)

From S2P Require Import Prelude Wire Packet Types Protocol Result Operations Bind Errors Options Endpoint.
From S2P Require Import Client.

Definition defaultMaxContextRounds : Z := 8.
Definition ldapServiceName : bytes := bs "ldap".

Definition layerNone : Z := 1.

(** ** Errors *)

Definition OperationNewProvider : string := "new-provider".
Definition OperationImportName : string := "import-name".
Definition OperationInitContext : string := "init-context".
Definition OperationContinue : string := "continue-context".
Definition OperationReleaseName : string := "release-name".
Definition OperationUnwrap : string := "unwrap".
Definition OperationWrap : string := "wrap".
Definition OperationDeleteContext : string := "delete-context".
Definition OperationReleaseProvider : string := "release-provider".

Definition StepContext : Z := 1.
Definition StepSecurityLayer : Z := 2.
Definition StepFinalBind : Z := 3.

Definition FailureNilHandle : Z := 1.
Definition FailureTooManyRounds : Z := 2.
Definition FailureInconsistentContextState : Z := 3.
Definition FailureUnexpectedLDAPResult : Z := 4.
Definition FailureMissingServerCredentials : Z := 5.
Definition FailureMissingContextProtection : Z := 6.
Definition FailureWrongMechanism : Z := 7.
Definition FailureInvalidSecurityOffer : Z := 8.
Definition FailureEncryptedSecurityOffer : Z := 9.
Definition FailureNoAuthenticationOnlyLayer : Z := 10.
Definition FailureInvalidServerBuffer : Z := 11.
Definition FailureEncryptedLayerSelection : Z := 12.
Definition FailureUnexpectedFinalCredentials : Z := 13.

Definition NegotiationStep_String (s : Z) : string :=
  if s =? StepContext then "context-establishment"
  else if s =? StepSecurityLayer then "security-layer-selection"
  else if s =? StepFinalBind then "final-bind"
  else ("step(" +:+ pretty s +:+ ")")%string.

Definition NegotiationFailure_String (f : Z) : string :=
  if f =? FailureNilHandle then "provider returned a nil handle"
  else if f =? FailureTooManyRounds then "context round limit exceeded"
  else if f =? FailureInconsistentContextState then "provider returned inconsistent context state"
  else if f =? FailureUnexpectedLDAPResult then "server returned an unexpected LDAP result"
  else if f =? FailureMissingServerCredentials then "server omitted required SASL credentials"
  else if f =? FailureMissingContextProtection then "context lacks mutual authentication or integrity"
  else if f =? FailureWrongMechanism then "context did not negotiate Kerberos V5"
  else if f =? FailureInvalidSecurityOffer then "server security-layer offer is invalid"
  else if f =? FailureEncryptedSecurityOffer then "server encrypted the security-layer offer"
  else if f =? FailureNoAuthenticationOnlyLayer then "server did not offer authentication-only operation"
  else if f =? FailureInvalidServerBuffer then "server advertised a buffer for authentication-only operation"
  else if f =? FailureEncryptedLayerSelection then "provider encrypted the security-layer selection"
  else if f =? FailureUnexpectedFinalCredentials then "server returned unexpected final SASL credentials"
  else ("failure(" +:+ pretty f +:+ ")")%string.

(** ** The GSS library *)

Record SecContextInfoPartial := MkInfo {
  FullyEstablished : bool;
  Flags : Z;
  (** The OID of the mechanism; [None] is a nil mechanism. *)
  Mech : option (list Z)
}.

Class Provider (S P N C : Type) := {
  (** The name and its type. *)
  pv_ImportName : P -> bytes -> list Z -> ST S (option N * option cerror);
  (** The target, the mechanism and the flags. *)
  pv_InitSecContext : P -> N -> list Z -> Z -> ST S (option C * option cerror);
  pv_Release : P -> ST S (option cerror);
  nm_Release : N -> ST S (option cerror);
  cx_Continue : C -> bytes -> ST S (bytes * SecContextInfoPartial * option cerror);
  cx_ContinueNeeded : C -> ST S bool;
  cx_Unwrap : C -> bytes -> ST S (bytes * bool * option cerror);
  (** The message, whether it is to be encrypted, and the quality of protection. *)
  cx_Wrap : C -> bytes -> bool -> Z -> ST S (bytes * bool * option cerror);
  cx_Delete : C -> ST S (option cerror)
}.

(** Its constants, and what [errors.As] finds of its status types in an error:
    a [FatalStatus] or a pointer to one, an [InfoStatus] or a pointer to one. *)
Class GssConstants := {
  ContextFlagMutual : Z;
  ContextFlagInteg : Z;
  GSS_MECH_KRB5 : list Z;
  GSS_NT_HOSTBASED_SERVICE : list Z;
  asFatalStatus : cerror -> option (Z * Z);
  asFatalStatusPointer : cerror -> option (Z * Z);
  asInfoStatus : cerror -> option Z;
  asInfoStatusPointer : cerror -> option Z
}.

Section errors.
Context `{!GssConstants}.

Definition fatalMajor (status : Z * Z) : Z :=
  Z.lor (conv uint32 (Z.shiftl (conv uint32 status.1) 16)) (conv uint32 status.2).

Definition majorStatus (err : cerror) : Z * bool :=
  match asFatalStatus err with
  | Some fatal => (fatalMajor fatal, true)
  | None =>
  match asFatalStatusPointer err with
  | Some fatal => (fatalMajor fatal, true)
  | None =>
  match asInfoStatus err with
  | Some info => (conv uint32 info, true)
  | None =>
  match asInfoStatusPointer err with
  | Some info => (conv uint32 info, true)
  | None => (0, false)
  end end end end.

Definition gssError (operation : string) (err : cerror) : cerror :=
  let '(major, known) := majorStatus err in GssError operation major known err.
Definition negotiationError (step failure : Z) : cerror := NegotiationError step failure 0 0.

Definition validateEstablishedContext (info : SecContextInfoPartial) : option cerror :=
  let required := Z.lor ContextFlagMutual ContextFlagInteg in
  if negb (FullyEstablished info) || negb (Z.land (Flags info) required =? required)
  then Some (negotiationError StepContext FailureMissingContextProtection)
  else if negb (bool_decide (Mech info = Some GSS_MECH_KRB5))
  then Some (negotiationError StepContext FailureWrongMechanism)
  else None.
End errors.

(** ** Configuration *)

Record options := MkOptions { o_authorizationID : bytes; o_maxRounds : Z }.

(** An option, [None] if it is nil. *)
Inductive Option := WithAuthorizationID (id : bytes) | WithMaxContextRounds (rounds : Z).

Definition apply_option (o : Option) (configuration : options) : result options :=
  match o with
  | WithAuthorizationID id =>
      if negb (utf8_Valid id) then Err (ErrorString "arden/auth/gssapi: authorization identity is not valid UTF-8")
      else if existsb (Z.eqb 0) id then Err (ErrorString "arden/auth/gssapi: authorization identity contains U+0000")
      else Ok (MkOptions id (o_maxRounds configuration))
  | WithMaxContextRounds rounds =>
      if rounds <=? 0 then Err (ErrorString "arden/auth/gssapi: maximum context rounds must be positive")
      else Ok (MkOptions (o_authorizationID configuration) rounds)
  end.

Fixpoint apply_options (opts : list (option Option)) (configuration : options) : result options :=
  match opts with
  | [] => Ok configuration
  | None :: _ => Err (ErrorString "arden/auth/gssapi: nil option")
  | Some o :: opts => configuration ← apply_option o configuration; apply_options opts configuration
  end.

(** [factory] is the provider factory, [None] if it is nil. *)
Record Authentication (S P : Type) := MkAuthentication {
  an_identity : Identity;
  an_providerFactory : ST S (option P * option cerror);
  an_authorizationID : bytes;
  an_maxRounds : Z
}.
Arguments MkAuthentication {S P}.
Arguments an_identity {S P} _.
Arguments an_providerFactory {S P} _.
Arguments an_authorizationID {S P} _.
Arguments an_maxRounds {S P} _.

Definition NewWithProviderFactory {S P} (stableID : bytes) (factory : option (ST S (option P * option cerror)))
    (opts : list (option Option)) : result (Authentication S P) :=
  let identity := MkIdentity stableID in
  match Identity_Validate identity with
  | Some err => Err err
  | None =>
      match factory with
      | None => Err (ErrorString "arden/auth/gssapi: nil provider factory")
      | Some factory =>
          configuration ← apply_options opts (MkOptions [] defaultMaxContextRounds);
          Ok (MkAuthentication identity factory (o_authorizationID configuration) (o_maxRounds configuration))
      end
  end.

Definition ValidateEndpoint (endpoint : Endpoint) : option cerror :=
  if negb (ep_Transport endpoint =? TransportDirectTLS)
  then Some (Plain (ErrorString "arden/auth/gssapi: GSSAPI authentication-only mode requires direct TLS"))
  else if bool_decide (ep_ServerName endpoint = [])
  then Some (Plain (ErrorString "arden/auth/gssapi: endpoint TLS server name is empty"))
  else None.

(** ** The authenticator *)

Record authenticator (P N C : Type) := MkAuthenticator {
  au_identity : Identity;
  au_provider : option P;
  au_target : bytes;
  au_authorizationID : bytes;
  au_maxRounds : Z;
  au_targetName : option N;
  au_context : option C;
  au_used : bool;
  au_closed : bool
}.
Arguments MkAuthenticator {P N C}.
Arguments au_identity {P N C} _.
Arguments au_provider {P N C} _.
Arguments au_target {P N C} _.
Arguments au_authorizationID {P N C} _.
Arguments au_maxRounds {P N C} _.
Arguments au_targetName {P N C} _.
Arguments au_context {P N C} _.
Arguments au_used {P N C} _.
Arguments au_closed {P N C} _.

Section conversation.
Context {S H P N C : Type} `{!GssConstants, !Executor S H, !Provider S P N C}.
Abbreviation authn := (authenticator P N C).

(** [ctx.Err()]. *)
Variable ctxErr : ST S (option cerror).

Definition set_handles (provider : option P) (name : option N) (context : option C) (a : authn) : authn :=
  MkAuthenticator (au_identity a) provider (au_target a) (au_authorizationID a) (au_maxRounds a) name context
    (au_used a) (au_closed a).
Definition set_targetName (name : option N) (a : authn) : authn := set_handles (au_provider a) name (au_context a) a.
Definition set_context (context : option C) (a : authn) : authn := set_handles (au_provider a) (au_targetName a) context a.
Definition mark_used (a : authn) : authn :=
  MkAuthenticator (au_identity a) (au_provider a) (au_target a) (au_authorizationID a) (au_maxRounds a)
    (au_targetName a) (au_context a) true (au_closed a).

(** [Begin]. *)
Definition Begin (a : Authentication S P) (endpoint : Endpoint) : ST S (authn + cerror) := fun s =>
  match ctxErr s with
  | (Some err, s) => (inr err, s)
  | (None, s) =>
  match ValidateEndpoint endpoint with
  | Some err => (inr err, s)
  | None =>
  match an_providerFactory a s with
  | (Some provider, Some err, s) =>
      let '(releaseErr, s) := pv_Release provider s in
      (inr (JoinError (gssError OperationNewProvider err) (gssError OperationReleaseProvider <$> releaseErr)), s)
  | (None, Some err, s) => (inr (gssError OperationNewProvider err), s)
  | (None, None, s) => (inr (negotiationError StepContext FailureNilHandle), s)
  | (Some provider, None, s) =>
  match ctxErr s with
  | (Some err, s) =>
      let '(releaseErr, s) := pv_Release provider s in
      (inr (JoinError err (gssError OperationReleaseProvider <$> releaseErr)), s)
  | (None, s) =>
      (inl (MkAuthenticator (an_identity a) (Some provider) (ldapServiceName ++ bs "@" ++ ep_ServerName endpoint)
              (an_authorizationID a) (an_maxRounds a) None None false false), s)
  end end end end.

(** *** A monad for [Authenticate]: it changes the authenticator and the state
    of the world, and may fail. *)
Definition GM (A : Type) : Type := ST (authn * S) (A + cerror).
Definition gret {A} (x : A) : GM A := fun w => (inl x, w).
Definition gbind {A B} (m : GM A) (k : A -> GM B) : GM B := fun w =>
  match m w with
  | (inl x, w) => k x w
  | (inr err, w) => (inr err, w)
  end.
Definition gfail {A} (err : cerror) : GM A := fun w => (inr err, w).
Definition lift {A} (m : ST S A) : GM A := fun '(a, s) => let '(x, s) := m s in (inl x, (a, s)).
Definition get : GM authn := fun w => (inl w.1, w).
Definition modify (f : authn -> authn) : GM unit := fun '(a, s) => (inl tt, (f a, s)).
(** [if err != nil { return err }]. *)
Definition require (err : option cerror) : GM unit := match err with Some err => gfail err | None => gret tt end.
Definition requireThat (b : bool) (err : cerror) : GM unit := if b then gret tt else gfail err.
(** [if nilHandle(h) { return err }], or the dereference of a nil handle. *)
Definition handle {A} (h : option A) (err : cerror) : GM A := match h with Some h => gret h | None => gfail err end.
Definition nil_handle : cerror := Plain (ErrorString "nil pointer dereference").

Local Notation "'do' x <- m ; k" := (gbind m (fun x => k)) (at level 10, x pattern, m at level 100, k at level 200).
Local Notation "m ;; k" := (gbind m (fun _ => k)) (at level 100, right associativity).

Definition checkCtx : GM unit := do err <- lift ctxErr; require err.

Record bindResult := MkBindResult { code : Z; credentials : bytes; hasCredentials : bool }.

Definition saslRequest (token : bytes) : BindRequest :=
  MkBindRequest 3 [] (SASL (MkSASL (bs "GSSAPI") token true [])) [].

(** [ex_Do] and [ex_Next] fail with the error they return. *)
Definition attempt {A} (m : ST S (A + cerror)) : GM A := fun '(a, s) => let '(r, s) := m s in (r, (a, s)).

Definition exchangeBind (token : bytes) : GM bindResult :=
  match NewBindOperation (Some (saslRequest token)) [] with
  | Err err => gfail (Plain err)
  | Ok operation =>
      do stream <- attempt (ex_Do (Untyped operation));
      do response <- attempt (ex_Next stream);
      match Decode (op_Responses operation) response DefaultLimits with
      | Err err => gfail (Plain err)
      | Ok decoded =>
          do again <- lift (ex_Next stream);
          match again with
          | inl _ => gfail (Plain (ErrorString "arden/auth/gssapi: Bind returned more than one response"))
          | inr err =>
              requireThat (Is err (Plain EOF)) err ;;
              gret (MkBindResult (lr_ResultCode (bind_Result decoded)) (ServerSASLCredentials decoded)
                      (HasServerSASLCredentials decoded))
          end
      end
  end.

(** One round of [establishContext]: the token and the description of an
    established context, or the next input token. *)
Definition contextRound (context : C) (inputToken : bytes) : GM (bytes * SecContextInfoPartial + bytes) :=
  checkCtx ;;
  do step <- lift (cx_Continue context inputToken);
  let '(outputToken, info, err) := step in
  require (gssError OperationContinue <$> err) ;;
  checkCtx ;;
  do continueNeeded <- lift (cx_ContinueNeeded context);
  requireThat (negb (Bool.eqb (FullyEstablished info) continueNeeded))
    (negotiationError StepContext FailureInconsistentContextState) ;;
  do result <- exchangeBind outputToken;
  requireThat (code result =? ResultSASLBindInProgress)
    (if negb (code result =? ResultSuccess) then BindError (code result)
     else NegotiationError StepContext FailureUnexpectedLDAPResult (code result) 0) ;;
  requireThat (hasCredentials result) (negotiationError StepContext FailureMissingServerCredentials) ;;
  gret (if continueNeeded then inr (credentials result) else inl (credentials result, info)).

(** [for range a.maxRounds]. *)
Fixpoint establishContext (rounds : nat) (context : C) (inputToken : bytes) : GM (bytes * SecContextInfoPartial) :=
  match rounds with
  | O => gfail (negotiationError StepContext FailureTooManyRounds)
  | Datatypes.S rounds =>
      do r <- contextRound context inputToken;
      match r with
      | inl established => gret established
      | inr token => establishContext rounds context token
      end
  end.

(** The check of the security layers that the server offers. *)
Definition checkOffer (offer : bytes) (confidential : bool) : option cerror :=
  if confidential then Some (negotiationError StepSecurityLayer FailureEncryptedSecurityOffer)
  else match offer with
  | [offeredLayers; b1; b2; b3] =>
      let serverMaxBuffer := Z.lor (Z.lor (Z.shiftl b1 16) (Z.shiftl b2 8)) b3 in
      if Z.land offeredLayers layerNone =? 0
      then Some (NegotiationError StepSecurityLayer FailureNoAuthenticationOnlyLayer 0 offeredLayers)
      else if (offeredLayers =? layerNone) && negb (serverMaxBuffer =? 0)
      then Some (NegotiationError StepSecurityLayer FailureInvalidServerBuffer 0 offeredLayers)
      else None
  | _ => Some (negotiationError StepSecurityLayer FailureInvalidSecurityOffer)
  end.

(** The first part of [Authenticate]: the name and the security context. *)
Definition beginContext : GM C :=
  do a <- get;
  do provider <- handle (au_provider a) nil_handle;
  do imported <- lift (pv_ImportName provider (au_target a) GSS_NT_HOSTBASED_SERVICE);
  let '(name, err) := imported in
  require (gssError OperationImportName <$> err) ;;
  do name <- handle name (negotiationError StepContext FailureNilHandle);
  modify (set_targetName (Some name)) ;;
  checkCtx ;;
  do initialized <- lift (pv_InitSecContext provider name GSS_MECH_KRB5 (Z.lor ContextFlagMutual ContextFlagInteg));
  let '(securityContext, err) := initialized in
  match securityContext with Some context => modify (set_context (Some context)) | None => gret tt end ;;
  require (gssError OperationInitContext <$> err) ;;
  do context <- handle securityContext (negotiationError StepContext FailureNilHandle);
  modify (set_targetName None) ;;
  do err <- lift (nm_Release name);
  require (gssError OperationReleaseName <$> err) ;;
  checkCtx ;;
  gret context.

Definition selection (authorizationID : bytes) : bytes := [layerNone; 0; 0; 0] ++ authorizationID.

(** The last part: the security layer and the final Bind. *)
Definition selectLayer (context : C) (serverToken : bytes) : GM unit :=
  do unwrapped <- lift (cx_Unwrap context serverToken);
  let '(offer, confidential, err) := unwrapped in
  require (gssError OperationUnwrap <$> err) ;;
  checkCtx ;;
  require (checkOffer offer confidential) ;;
  do a <- get;
  do wrapped <- lift (cx_Wrap context (selection (au_authorizationID a)) false 0);
  let '(wrappedSelection, confidential, err) := wrapped in
  require (gssError OperationWrap <$> err) ;;
  checkCtx ;;
  requireThat (negb confidential) (negotiationError StepSecurityLayer FailureEncryptedLayerSelection) ;;
  do result <- exchangeBind wrappedSelection;
  requireThat (code result =? ResultSuccess)
    (if negb (code result =? ResultSASLBindInProgress) then BindError (code result)
     else NegotiationError StepFinalBind FailureUnexpectedLDAPResult (code result) 0) ;;
  requireThat (negb (hasCredentials result && negb (len (credentials result) =? 0)))
    (negotiationError StepFinalBind FailureUnexpectedFinalCredentials).

Definition Authenticate : GM Identity :=
  do a <- get;
  requireThat (negb (au_closed a)) (Plain (ErrorString "arden/auth/gssapi: authenticator is closed")) ;;
  requireThat (negb (au_used a)) (Plain (ErrorString "arden/auth/gssapi: authenticator was already used")) ;;
  modify mark_used ;;
  checkCtx ;;
  do context <- beginContext;
  do established <- establishContext (Z.to_nat (au_maxRounds a)) context [];
  let '(serverToken, info) := established in
  require (validateEstablishedContext info) ;;
  checkCtx ;;
  selectLayer context serverToken ;;
  gret (au_identity a).

(** The error of releasing one handle, if there is one. *)
Definition releaseWith {A} (operation : string) (release : A -> ST S (option cerror)) (h : option A) : ST S (option cerror) :=
  fun s =>
  match h with
  | None => (None, s)
  | Some h => let '(err, s) := release h s in (gssError operation <$> err, s)
  end.

(** [errors.Join] of the errors that are not nil. *)
Fixpoint joinAll (errs : list (option cerror)) : option cerror :=
  match errs with
  | [] => None
  | None :: errs => joinAll errs
  | Some err :: errs => Some (JoinError err (joinAll errs))
  end.

Definition gss_Close : ST (authn * S) (option cerror) := fun '(a, s) =>
  if au_closed a then (None, (a, s))
  else
    let '(contextErr, s) := releaseWith OperationDeleteContext cx_Delete (au_context a) s in
    let '(nameErr, s) := releaseWith OperationReleaseName nm_Release (au_targetName a) s in
    let '(providerErr, s) := releaseWith OperationReleaseProvider pv_Release (au_provider a) s in
    (joinAll [contextErr; nameErr; providerErr],
     (MkAuthenticator (au_identity a) None [] [] (au_maxRounds a) None None (au_used a) true, s)).
End conversation.
