(* ===== verification/GssapiSafety.v ===== *)
(** * Correctness of GSSAPI authentication

    What Gssapi.v guarantees for every GSS library, session and context: what a
    success means, how many Bind operations there are, and that every handle of
    the library is released once and never used after that. *)

From S2P Require Import Prelude Wire Packet Types Protocol Result Operations Bind Errors Options Endpoint.
From S2P Require Import Attributes Client ClientSafety Gssapi.

(** ** What a success means *)
Section success.
Context {S H P N C : Type} `{!GssConstants, !Executor S H, !Provider S P N C}.
Variable ctxErr : ST S (option cerror).
Abbreviation authn := (authenticator P N C).

Lemma gbind_inl {A B} (m : GM A) (k : A -> GM B) (w : authn * S) y w' : gbind m k w = (inl y, w') <->
  exists x w1, m w = (inl x, w1) /\ k x w1 = (inl y, w').
Proof.
  unfold gbind. destruct (m w) as [[x|e] w1]; split; [eauto|naive_solver|done|naive_solver].
Qed.

Lemma require_inl err (w : authn * S) w' : require err w = (inl tt, w') <-> err = None /\ w' = w.
Proof. unfold require, gret, gfail. destruct err; naive_solver. Qed.

Lemma requireThat_inl b err (w : authn * S) w' : requireThat b err w = (inl tt, w') <-> b = true /\ w' = w.
Proof. unfold requireThat, gret, gfail. destruct b; naive_solver. Qed.

Lemma lift_inl {A} (m : ST S A) (a : authn) s x w' : lift m (a, s) = (inl x, w') <-> exists s', m s = (x, s') /\ w' = (a, s').
Proof. unfold lift. destruct (m s) as [y s']. naive_solver. Qed.

(** A step that succeeds leaves the authenticator alone. *)
Definition fixes {A} (m : GM A) : Prop := forall (a : authn) (s : S), fst (snd (m (a, s))) = a.

Lemma fixes_bind {A B} (m : GM A) (k : A -> GM B) : fixes m -> (forall x, fixes (k x)) -> fixes (gbind m k).
Proof.
  intros Hm Hk a s. unfold gbind. specialize (Hm a s). destruct (m (a, s)) as [[x|e] [a1 s1]]; cbn in *; subst; [apply Hk|done].
Qed.
Lemma fixes_lift {A} (m : ST S A) : fixes (lift m).
Proof. intros a s. unfold lift. by destruct (m s). Qed.
Lemma fixes_attempt {A} (m : ST S (A + cerror)) : fixes (attempt m).
Proof. intros a s. unfold attempt. by destruct (m s). Qed.
Lemma fixes_ret {A} (x : A) : fixes (gret x).
Proof. by intros a s. Qed.
Lemma fixes_fail {A} err : fixes (gfail err : GM A).
Proof. by intros a s. Qed.
Lemma fixes_require err : fixes (require err).
Proof. by destruct err. Qed.
Lemma fixes_requireThat b err : fixes (requireThat b err).
Proof. by destruct b. Qed.
Lemma fixes_get : fixes get.
Proof. by intros a s. Qed.
End success.

Create HintDb gss.
#[export] Hint Resolve fixes_lift fixes_attempt fixes_ret fixes_fail fixes_require fixes_requireThat fixes_get : gss.

(** Prove a property of a computation by its structure. *)
Ltac by_structure bind := repeat first [ progress intros | solve [eauto with gss] | apply bind | case_match ].

Section success2.
Context {S H P N C : Type} `{!GssConstants, !Executor S H, !Provider S P N C}.
Variable ctxErr : ST S (option cerror).
Abbreviation authn := (authenticator P N C).

Lemma fixes_checkCtx : fixes (P := P) (N := N) (C := C) (checkCtx ctxErr).
Proof. unfold checkCtx. by_structure @fixes_bind. Qed.
Hint Resolve fixes_checkCtx : gss.

Lemma fixes_exchange token : fixes (P := P) (N := N) (C := C) (exchangeBind token).
Proof. unfold exchangeBind. by_structure @fixes_bind. Qed.
Hint Resolve fixes_exchange : gss.

Lemma fixes_round context token : fixes (P := P) (N := N) (contextRound ctxErr context token).
Proof. unfold contextRound. by_structure @fixes_bind. Qed.
Hint Resolve fixes_round : gss.

Lemma fixes_establish rounds context : forall token, fixes (P := P) (N := N) (establishContext ctxErr rounds context token).
Proof. induction rounds as [|rounds IH]; intros token; cbn [establishContext]; by_structure @fixes_bind. Qed.

Lemma checkOffer_ok offer : checkOffer offer false = None ->
  exists layers b1 b2 b3, offer = [layers; b1; b2; b3] /\ Z.testbit layers 0 = true /\
    (layers = layerNone -> Z.lor (Z.lor (Z.shiftl b1 16) (Z.shiftl b2 8)) b3 = 0).
Proof.
  unfold checkOffer. destruct offer as [|layers [|b1 [|b2 [|b3 [|]]]]]; try done.
  cbv zeta. destruct (Z.land layers layerNone =? 0) eqn:El; [done|].
  destruct ((layers =? layerNone) && _) eqn:Eb; [done|]. intros _. exists layers, b1, b2, b3. split; [done|]. split.
  - apply Z.eqb_neq in El. unfold layerNone in El. change 1 with (Z.ones 1) in El. rewrite Z.land_ones in El by lia.
    change (2 ^ 1) with 2 in El. rewrite Z.bit0_odd. rewrite Zmod_odd in El. by destruct (Z.odd layers).
  - intros ->. rewrite Z.eqb_refl in Eb. cbn [andb] in Eb. apply negb_false_iff, Z.eqb_eq in Eb. done.
Qed.

Lemma established_ok info : validateEstablishedContext info = None <->
  FullyEstablished info = true /\
  Z.land (Flags info) (Z.lor ContextFlagMutual ContextFlagInteg) = Z.lor ContextFlagMutual ContextFlagInteg /\
  Mech info = Some GSS_MECH_KRB5.
Proof.
  unfold validateEstablishedContext. cbv zeta. destruct (FullyEstablished info); cbn; [|naive_solver].
  destruct (_ =? _) eqn:E; cbn; zbool; [|naive_solver]. case_bool_decide; cbn; naive_solver.
Qed.

(** Invert a successful computation step by step. *)
Ltac ginv := repeat match goal with
  | H : gbind _ _ ?w = (inl _, _) |- _ => apply gbind_inl in H as (? & [? ?] & ? & ?)
  | H : lift _ (_, _) = (inl _, _) |- _ => apply lift_inl in H as (? & ? & ?)
  | u : unit |- _ => destruct u
  | H : require _ _ = (inl tt, _) |- _ => apply require_inl in H as [? ?]
  | H : requireThat _ _ _ = (inl tt, _) |- _ => apply requireThat_inl in H as [? ?]
  | H : get _ = (inl _, _) |- _ => injection H as <- <-
  | H : gret _ _ = (inl _, _) |- _ => injection H as <- <-
  | H : (_, _) = (_, _) |- _ => injection H as ? ?; subst
  | H : checkCtx _ _ = _ |- _ => unfold checkCtx in H
  | x : (_ * _)%type |- _ => destruct x
  | H : _ <$> ?o = None |- _ => apply fmap_None in H; subst
  | H : context [let '(_, _) := ?x in _] |- _ => destruct x
  end.

Lemma fixes_inl {A} (m : GM A) (a : authn) (s : S) x a' s' : fixes m -> m (a, s) = (inl x, (a', s')) -> a' = a.
Proof. intros Hf Hm. specialize (Hf a s). by rewrite Hm in Hf. Qed.

(** What [selectLayer] has seen when it succeeds. *)
Lemma selectLayer_ok context token a s a' s' : selectLayer ctxErr context token (a, s) = (inl tt, (a', s')) ->
  exists offer s1, cx_Unwrap context token s = (offer, false, None, s1) /\ checkOffer offer false = None /\
  exists s2 wrapped s3, cx_Wrap context (selection (au_authorizationID a)) false 0 s2 = (wrapped, false, None, s3) /\
  exists s4 result, exchangeBind wrapped (a, s4) = (inl result, (a, s')) /\
    code result = ResultSuccess /\ (hasCredentials result = false \/ credentials result = []).
Proof.
  intros Hs. unfold selectLayer in Hs. ginv.
  assert (b = false) as -> by (destruct b; [done|done]).
  match goal with He : exchangeBind ?t _ = _ |- _ => pose proof (fixes_inl _ _ _ _ _ _ (fixes_exchange t) He) as -> end.
  match goal with Hn : negb ?x = true |- _ => is_var x; apply negb_true_iff in Hn; subst end.
  do 2 eexists. split; [done|]. split; [done|]. do 3 eexists. split; [done|]. do 2 eexists. split; [done|].
  zbool. split; [done|]. destruct (hasCredentials _); [right|by left].
  match goal with Hn : negb (true && _) = true |- _ => cbn in Hn; rewrite negb_involutive in Hn; apply Z.eqb_eq in Hn;
    by apply len_zero end.
Qed.

Lemma fixes_select context token : fixes (P := P) (N := N) (selectLayer ctxErr context token).
Proof. unfold selectLayer. by_structure @fixes_bind. Qed.

(** [beginContext] changes only the name and the context. *)
Definition configuration (a : authn) := (au_identity a, au_authorizationID a, au_maxRounds a, au_used a, au_closed a,
  au_provider a).

Lemma begin_configured a s context a' s' : beginContext ctxErr (a, s) = (inl context, (a', s')) ->
  configuration a' = configuration a.
Proof.
  intros Hb. unfold beginContext, handle, modify in Hb. ginv.
  repeat (case_match || ginv); by simplify_eq.
Qed.

(** C11. A GSSAPI success means mutual authentication. When [Authenticate]
    returns an identity, it is the configured one, and the authenticator was
    open and unused; the security context that the library established is
    complete, has mutual authentication and integrity, and is Kerberos V5; the
    server's offer of security layers was integrity protected but not
    encrypted, has four bytes and contains the authentication-only layer (with
    no buffer size if it is the only one); the reply selects exactly that layer,
    with the configured authorization identity, and is not encrypted; and the
    final Bind ended with the result code success and no further credentials. *)
Theorem gss_success_means_protected a s who a' s' : Authenticate ctxErr (a, s) = (inl who, (a', s')) ->
  who = au_identity a /\ au_closed a = false /\ au_used a = false /\
  exists context info token w1 w2 s1,
    establishContext ctxErr (Z.to_nat (au_maxRounds a)) context [] w1 = (inl (token, info), w2) /\
    FullyEstablished info = true /\
    Z.land (Flags info) (Z.lor ContextFlagMutual ContextFlagInteg) = Z.lor ContextFlagMutual ContextFlagInteg /\
    Mech info = Some GSS_MECH_KRB5 /\
    exists layers b1 b2 b3 s2 s3 wrapped s4 s5 result,
      cx_Unwrap context token s1 = ([layers; b1; b2; b3], false, None, s2) /\
      Z.testbit layers 0 = true /\
      (layers = layerNone -> Z.lor (Z.lor (Z.shiftl b1 16) (Z.shiftl b2 8)) b3 = 0) /\
      cx_Wrap context ([1; 0; 0; 0] ++ au_authorizationID a) false 0 s3 = (wrapped, false, None, s4) /\
      exchangeBind wrapped (a', s5) = (inl result, (a', s')) /\
      code result = ResultSuccess /\ (hasCredentials result = false \/ credentials result = []).
Proof.
  intros Ha. unfold Authenticate in Ha. ginv.
  match goal with Hm : modify mark_used _ = _ |- _ => injection Hm as <- <- end.
  match goal with He : establishContext _ _ _ _ _ = _ |- _ =>
    pose proof (fixes_inl _ _ _ _ _ _ (fixes_establish _ _ _) He) as -> end.
  match goal with Hb : beginContext _ _ = (inl _, (?a5, _)) |- _ =>
    assert (Hc : au_authorizationID a5 = au_authorizationID a) by (pose proof (begin_configured _ _ _ _ _ Hb) as Hc; by injection Hc) end.
  match goal with Hs : selectLayer _ _ _ _ = _ |- _ => pose proof (fixes_inl _ _ _ _ _ _ (fixes_select _ _) Hs) as -> ;
    apply selectLayer_ok in Hs as (offer & s2 & Hu & Ho & s3' & wrapped & s4 & Hw & s5' & result & Hx & Hcode & Hcred) end.
  apply checkOffer_ok in Ho as (layers & b1 & b2 & b3 & -> & Hbit & Hbuf). rewrite Hc in Hw.
  match goal with Hv : validateEstablishedContext _ = None |- _ => apply established_ok in Hv as (? & ? & ?) end.
  split; [done|]. split; [by apply negb_true_iff|]. split; [by apply negb_true_iff|].
  do 6 eexists. split_and!; [eassumption..|]. do 10 eexists. split_and!; eassumption.
Qed.
End success2.

(** ** Handles and operations *)

(** What the conversation asks of the session and of the GSS library: an
    operation, a response, a name that was imported or not, a context that was
    created or not, a use of the context, and the three releases. *)
Inductive gevent :=
| GDo | GNext | GImported (ok : bool) | GInitialized (ok : bool) | GUsed
| GReleasedName | GDeleted | GReleasedProvider.

(** The handles the package owns: the name, the context and the provider. *)
Definition owned : Type := bool * bool * bool.

(** The effect of an event on them; [None] if it is out of order: a handle that
    is used or released while it is not owned, or lost by taking a second one. *)
Definition gtrack (o : option owned) (ev : gevent) : option owned :=
  match o with
  | None => None
  | Some (nm, cx, pv) =>
      match ev with
      | GDo | GNext => Some (nm, cx, pv)
      | GImported ok => if pv && negb nm then Some (ok, cx, pv) else None
      | GInitialized ok => if pv && nm && negb cx then Some (nm, ok, pv) else None
      | GUsed => if cx then Some (nm, cx, pv) else None
      | GReleasedName => if nm then Some (false, cx, pv) else None
      | GDeleted => if cx then Some (nm, false, pv) else None
      | GReleasedProvider => if pv then Some (nm, cx, false) else None
      end
  end.

(** A provider is all that [Begin] hands over. *)
Definition owned_after (log : list gevent) : option owned := foldl gtrack (Some (false, false, true)) log.
#[global] Arguments owned_after : simpl never.
Lemma owned_snoc log ev : owned_after (log ++ [ev]) = gtrack (owned_after log) ev.
Proof. unfold owned_after. by rewrite foldl_app. Qed.

Definition is_operation (ev : gevent) : bool := match ev with GDo => true | _ => false end.
Definition operations (log : list gevent) : Z := countb is_operation log.
#[global] Arguments operations : simpl never.
Lemma operations_snoc log ev : operations (log ++ [ev]) = operations log + (if is_operation ev then 1 else 0).
Proof. apply countb_snoc. Qed.

Section traced.
Context {S H P N C : Type} `{!GssConstants} {E : Executor S H} {V : Provider S P N C}.
Variable ctxErr : ST S (option cerror).
Abbreviation authn := (authenticator P N C).

Definition log1 {A} (event : A -> gevent) (m : ST S A) : ST (S * list gevent) A := fun '(s, log) =>
  let '(x, s) := m s in (x, (s, log ++ [event x])).
Definition silent {A} (m : ST S A) : ST (S * list gevent) A := fun '(s, log) => let '(x, s) := m s in (x, (s, log)).

Definition imported (r : option N * option cerror) : bool :=
  match r with (Some _, None) => true | _ => false end.
Definition initialized (r : option C * option cerror) : bool := match r.1 with Some _ => true | None => false end.

#[local] Instance traced_session : Executor (S * list gevent) H := {|
  ex_Do operation := log1 (fun _ => GDo) (ex_Do operation);
  ex_Next h := log1 (fun _ => GNext) (ex_Next h);
  ex_Close h := silent (ex_Close h)
|}.

#[local] Instance traced_provider : Provider (S * list gevent) P N C := {|
  pv_ImportName p target type := log1 (fun r => GImported (imported r)) (pv_ImportName p target type);
  pv_InitSecContext p n mech flags := log1 (fun r => GInitialized (initialized r)) (pv_InitSecContext p n mech flags);
  pv_Release p := log1 (fun _ => GReleasedProvider) (pv_Release p);
  nm_Release n := log1 (fun _ => GReleasedName) (nm_Release n);
  cx_Continue c token := log1 (fun _ => GUsed) (cx_Continue c token);
  cx_ContinueNeeded c := log1 (fun _ => GUsed) (cx_ContinueNeeded c);
  cx_Unwrap c token := log1 (fun _ => GUsed) (cx_Unwrap c token);
  cx_Wrap c message conf qop := log1 (fun _ => GUsed) (cx_Wrap c message conf qop);
  cx_Delete c := log1 (fun _ => GDeleted) (cx_Delete c)
|}.

Abbreviation ctx := (silent ctxErr).
Abbreviation TM := (GM (S := S * list gevent) (P := P) (N := N) (C := C)).

(** A computation that leaves the authenticator alone, starts at most [n]
    operations and touches no handle but an owned context. *)
Definition neutral {A} (n : Z) (m : TM A) : Prop := forall (a : authn) s log,
  let '(_, (a', (_, log'))) := m (a, (s, log)) in
  a' = a /\ operations log' <= operations log + n /\
  forall nm pv, owned_after log = Some (nm, true, pv) -> owned_after log' = Some (nm, true, pv).

Lemma neutral_bind {A B} n1 n2 (m : TM A) (k : A -> TM B) : 0 <= n2 -> neutral n1 m -> (forall x, neutral n2 (k x)) ->
  neutral (n1 + n2) (gbind m k).
Proof.
  intros Hn Hm Hk a s log. unfold gbind. specialize (Hm a s log). destruct (m (a, (s, log))) as [[x|e] [a1 [s1 log1]]].
  - destruct Hm as (-> & Ho & Ht). specialize (Hk x a s1 log1). destruct (k x (a, (s1, log1))) as [r [a2 [s2 log2]]].
    destruct Hk as (-> & Ho2 & Ht2). split; [done|]. split; [lia|auto].
  - destruct Hm as (-> & Ho & Ht). split; [done|]. split; [lia|auto].
Qed.

(** The part without operations, before or after. *)
Lemma neutral_bind_l {A B} n (m : TM A) (k : A -> TM B) : 0 <= n -> neutral 0 m -> (forall x, neutral n (k x)) ->
  neutral n (gbind m k).
Proof. intros Hn Hm Hk. by apply (neutral_bind 0 n). Qed.

Lemma neutral_le {A} n n' (m : TM A) : n <= n' -> neutral n m -> neutral n' m.
Proof.
  intros Hn Hm a s log. specialize (Hm a s log). destruct (m (a, (s, log))) as [r [a1 [s1 log1]]].
  destruct Hm as (-> & Ho & Ht). split; [done|]. split; [lia|done].
Qed.

Lemma neutral_log {A} n event (m : ST S A) : 0 <= n -> (forall x, event x = GUsed \/ event x = GNext) -> neutral n (lift (log1 event m)).
Proof.
  intros Hn He a s log. unfold lift, log1. destruct (m s) as [x s1]. rewrite operations_snoc. split; [done|].
  split; [destruct (He x) as [-> | ->]; cbn; lia|]. intros nm pv Ho. rewrite owned_snoc, Ho. by destruct (He x) as [-> | ->].
Qed.
Lemma neutral_silent {A} n (m : ST S A) : 0 <= n -> neutral n (lift (silent m)).
Proof. intros Hn a s log. unfold lift, silent. destruct (m s) as [x s1]. split; [done|]. split; [lia|done]. Qed.
Lemma neutral_const {A} n (r : A + cerror) : 0 <= n -> neutral n (fun w => (r, w)).
Proof. intros Hn a s log. split; [done|]. split; [lia|done]. Qed.
Lemma neutral_require n err : 0 <= n -> neutral n (require err).
Proof. destruct err; apply neutral_const. Qed.
Lemma neutral_requireThat n b err : 0 <= n -> neutral n (requireThat b err).
Proof. destruct b; apply neutral_const. Qed.
Lemma neutral_get n : 0 <= n -> neutral n get.
Proof. intros Hn a s log. split; [done|]. split; [lia|done]. Qed.
Lemma neutral_checkCtx : neutral 0 (checkCtx ctx).
Proof. unfold checkCtx. apply neutral_bind_l; [lia|by apply neutral_silent|]. intros err. by apply neutral_require. Qed.
Lemma neutral_attempt_next h : neutral 0 (attempt (ex_Next h)).
Proof.
  intros a s log. unfold attempt. cbn. unfold log1. destruct (ex_Next h s) as [x s1]. rewrite operations_snoc. split; [done|].
  split; [cbn; lia|]. intros nm pv Ho. by rewrite owned_snoc, Ho.
Qed.
Lemma neutral_attempt_do operation : neutral 1 (attempt (ex_Do operation)).
Proof.
  intros a s log. unfold attempt. cbn. unfold log1. destruct (ex_Do operation s) as [x s1]. rewrite operations_snoc. split; [done|].
  split; [cbn; lia|]. intros nm pv Ho. by rewrite owned_snoc, Ho.
Qed.

Hint Resolve neutral_checkCtx neutral_attempt_next neutral_attempt_do : gss.
Hint Extern 2 (neutral _ (lift (ex_Next _))) => apply neutral_log; [lia|auto] : gss.
Hint Extern 2 (neutral _ (lift (cx_Continue _ _))) => apply neutral_log; [lia|auto] : gss.
Hint Extern 2 (neutral _ (lift (cx_ContinueNeeded _))) => apply neutral_log; [lia|auto] : gss.
Hint Extern 2 (neutral _ (lift (cx_Unwrap _ _))) => apply neutral_log; [lia|auto] : gss.
Hint Extern 2 (neutral _ (lift (cx_Wrap _ _ _ _))) => apply neutral_log; [lia|auto] : gss.
Hint Extern 2 (neutral _ (require _)) => apply neutral_require; lia : gss.
Hint Extern 2 (neutral _ (requireThat _ _)) => apply neutral_requireThat; lia : gss.
Hint Extern 2 (neutral _ get) => apply neutral_get; lia : gss.
Hint Extern 2 (neutral _ (gret _)) => apply neutral_const; lia : gss.
Hint Extern 2 (neutral _ (gfail _)) => apply neutral_const; lia : gss.

(** Everything but an operation costs nothing. *)
Ltac neutrality := repeat first
  [ progress intros
  | solve [eauto with gss]
  | apply neutral_bind_l; [lia|solve [eauto with gss]|]
  | apply (neutral_bind 1 0); [lia|solve [eauto with gss]|]
  | case_match ].

Lemma neutral_exchange token : neutral 1 (exchangeBind token).
Proof. unfold exchangeBind. neutrality. Qed.
Hint Resolve neutral_exchange : gss.

Lemma neutral_round context token : neutral 1 (contextRound ctx context token).
Proof. unfold contextRound. neutrality. Qed.

Lemma neutral_establish rounds context : forall token, neutral (Z.of_nat rounds) (establishContext ctx rounds context token).
Proof.
  induction rounds as [|rounds IH]; intros token; cbn [establishContext]; [by apply neutral_const|].
  replace (Z.of_nat (Datatypes.S rounds)) with (1 + Z.of_nat rounds) by lia.
  apply neutral_bind; [lia|apply neutral_round|]. intros [established|next]; [apply neutral_const; lia|apply IH].
Qed.

Lemma neutral_select context token : neutral 1 (selectLayer ctx context token).
Proof. unfold selectLayer. neutrality. Qed.
Definition has {A} (o : option A) : bool := match o with Some _ => true | None => false end.
(** The handles that the authenticator holds. *)
Definition holds (a : authn) : owned := (has (au_targetName a), has (au_context a), has (au_provider a)).

Lemma begin_owned a s log p : owned_after log = Some (holds a) -> holds a = (false, false, true) -> au_provider a = Some p ->
  let '(r, (a', (_, log'))) := beginContext ctx (a, (s, log)) in
  owned_after log' = Some (holds a') /\ operations log' = operations log /\ configuration a' = configuration a /\
  forall context, r = inl context -> au_context a' = Some context.
Proof.
  intros Ho Hh Hp. rewrite Hh in Ho. injection Hh as Hnm Hcx Hpv.
  unfold beginContext, checkCtx, require, get, gbind, handle, gret, lift, gfail, modify, holds. cbn. rewrite Hp. cbn. unfold log1, silent.
  destruct (pv_ImportName p _ _ s) as [[[name|] [e1|]] s1]; cbn; rewrite ?operations_snoc, ?owned_snoc, ?Ho; cbn;
    try (split_and!; [by rewrite Hnm, Hcx, Hpv|lia|done|done]).
  set (log1 := log ++ [GImported true]).
  assert (Ho1 : owned_after log1 = Some (true, false, true)) by (unfold log1; by rewrite owned_snoc, Ho).
  assert (Hn1 : operations log1 = operations log) by (unfold log1; rewrite operations_snoc; cbn; lia).
  clearbody log1.
  destruct (ctxErr s1) as [[e|] s2]; cbn; [split_and!; [by rewrite Ho1, Hcx, Hpv|done|done|done]|].
  destruct (pv_InitSecContext p name _ _ s2) as [[[context|] [e2|]] s3]; cbn; rewrite ?operations_snoc, ?owned_snoc, ?Ho1; cbn;
    try (split_and!; [by rewrite ?Hcx, ?Hpv|lia|done|done]).
  destruct (nm_Release name s3) as [[e3|] s4]; cbn; rewrite ?operations_snoc, ?owned_snoc, ?Ho1; cbn;
    [split_and!; [by rewrite ?Hcx, ?Hpv|lia|done|done]|].
  destruct (ctxErr s4) as [[e|] s5]; cbn; rewrite ?operations_snoc, ?owned_snoc, ?Ho1; cbn;
    split_and!; try (by rewrite ?Hcx, ?Hpv); try lia; try done. by intros c [= <-].
Qed.

Lemma neutral_run {A} n (m : TM A) a s log : neutral n m -> has (au_context a) = true -> owned_after log = Some (holds a) ->
  let '(_, (a', (_, log'))) := m (a, (s, log)) in
  a' = a /\ owned_after log' = Some (holds a) /\ operations log' <= operations log + n.
Proof.
  intros Hm Hc Ho. specialize (Hm a s log). destruct (m (a, (s, log))) as [r [a' [s' log']]].
  destruct Hm as (-> & Hn & Ht). split_and!; try done. unfold holds in *. rewrite Hc in *. by apply Ht.
Qed.

(** The conversation after the checks of [Authenticate]. *)
Definition converse (rounds : nat) : TM unit :=
  gbind (beginContext ctx) (fun context =>
  gbind (establishContext ctx rounds context []) (fun established =>
  let '(serverToken, info) := established in
  gbind (require (validateEstablishedContext info)) (fun _ =>
  gbind (checkCtx ctx) (fun _ => selectLayer ctx context serverToken)))).

Lemma converse_owned rounds a s log p : owned_after log = Some (holds a) -> holds a = (false, false, true) -> au_provider a = Some p ->
  let '(_, (a', (_, log'))) := converse rounds (a, (s, log)) in
  owned_after log' = Some (holds a') /\ operations log' <= operations log + Z.of_nat rounds + 1 /\
  configuration a' = configuration a.
Proof.
  intros Ho Hh Hp. unfold converse. pose proof (begin_owned a s log p Ho Hh Hp) as Hb. unfold gbind at 1.
  destruct (beginContext ctx (a, (s, log))) as [[context|e] [a1 [s1 log1]]]; destruct Hb as (Ho1 & Hn1 & Hc1 & Hx).
  2:{ split_and!; [done|lia|done]. }
  specialize (Hx context eq_refl).
  assert (Hrest : neutral (Z.of_nat rounds + 1) (gbind (establishContext ctx rounds context []) (fun established =>
    let '(serverToken, info) := established in
    gbind (require (validateEstablishedContext info)) (fun _ =>
    gbind (checkCtx ctx) (fun _ => selectLayer ctx context serverToken))))).
  { apply neutral_bind; [lia|apply neutral_establish|]. intros [token info].
    apply neutral_bind_l; [lia|by apply neutral_require|]. intros _.
    apply neutral_bind_l; [lia|apply neutral_checkCtx|]. intros _. apply neutral_select. }
  apply (neutral_run _ _ a1 s1 log1) in Hrest; [|by rewrite Hx|done].
  destruct (gbind _ _ (a1, (s1, log1))) as [r [a2 [s2 log2]]]. destruct Hrest as (-> & Ho2 & Hn2). split_and!; [done|lia|done].
Qed.
#[local] Arguments beginContext : simpl never.
#[local] Arguments establishContext : simpl never.
#[local] Arguments selectLayer : simpl never.
#[local] Arguments checkCtx : simpl never.
#[local] Arguments require : simpl never.

Lemma authenticate_converse a s log : au_closed a = false -> au_used a = false ->
  snd (Authenticate ctx (a, (s, log))) =
  match ctxErr s with
  | (Some _, s1) => (mark_used a, (s1, log))
  | (None, s1) => snd (converse (Z.to_nat (au_maxRounds a)) (mark_used a, (s1, log)))
  end.
Proof.
  intros Hc Hu. unfold Authenticate, converse. remember (Z.to_nat (au_maxRounds a)) as rounds eqn:Er.
  set (first := checkCtx ctx) at 1. assert (Hf : first (mark_used a, (s, log)) =
    match ctxErr s with (Some e, s1) => (inr e, (mark_used a, (s1, log))) | (None, s1) => (inl tt, (mark_used a, (s1, log))) end).
  { unfold first, checkCtx, gbind, lift, silent. by destruct (ctxErr s) as [[e|] s1]. }
  unfold gbind. cbn. rewrite Hc, Hu. cbn. rewrite Hf. destruct (ctxErr s) as [[e|] s1]; [done|]. cbn. rewrite <- Er.
  destruct (beginContext ctx _) as [[context|e] w1]; [|done].
  destruct (establishContext ctx rounds context [] w1) as [[[token info]|e] w2]; [|done].
  destruct (require _ w2) as [[u|e] w3]; [|done]. destruct (checkCtx ctx w3) as [[u'|e] w4]; [|done].
  by destruct (selectLayer ctx context token w4) as [[u''|e] w5].
Qed.
(** Any sequence of calls of one authenticator. *)
Inductive gssCall := GssAuthenticate | GssClose.
Definition gss_call (w : authn * (S * list gevent)) (c : gssCall) : authn * (S * list gevent) :=
  match c with
  | GssAuthenticate => snd (Authenticate ctx w)
  | GssClose => snd (gss_Close w)
  end.

Record gss_ok (maxRounds : Z) (w : authn * (S * list gevent)) : Prop := {
  gk_owned : owned_after w.2.2 = Some (holds w.1);
  gk_rounds : au_maxRounds w.1 = maxRounds;
  gk_operations : operations w.2.2 <= Z.of_nat (Z.to_nat maxRounds) + 1;
  gk_unused : au_used w.1 = false -> au_closed w.1 = false ->
    operations w.2.2 = 0 /\ au_targetName w.1 = None /\ au_context w.1 = None;
  gk_open : au_closed w.1 = false -> is_Some (au_provider w.1);
  gk_closed : au_closed w.1 = true -> holds w.1 = (false, false, false)
}.

Lemma authenticate_ok maxRounds w : gss_ok maxRounds w -> gss_ok maxRounds (snd (Authenticate ctx w)).
Proof.
  destruct w as [a [s log]]. intros Hok. destruct (au_closed a) eqn:Ec.
  { unfold Authenticate, get, gbind. cbn. rewrite Ec. done. }
  destruct (au_used a) eqn:Eu.
  { unfold Authenticate, get, gbind. cbn. rewrite Ec, Eu. done. }
  rewrite authenticate_converse by done. destruct Hok as [Ho Hr Hn Hu Hp Hc]. cbn in *.
  destruct (Hu Eu Ec) as (Hn0 & Hnm & Hcx). destruct (Hp Ec) as [p Hpv].
  destruct (ctxErr s) as [[e|] s1].
  - constructor; cbn; auto; congruence.
  - pose proof (converse_owned (Z.to_nat (au_maxRounds a)) (mark_used a) s1 log p) as Hv.
    destruct (converse _ _) as [r [a' [s' log']]]. cbn [snd].
    destruct Hv as (Ho' & Hn' & Hcfg); [done|by unfold holds; cbn; rewrite Hnm, Hcx, Hpv|done|].
    unfold configuration in Hcfg. cbn in Hcfg. injection Hcfg as _ _ Hm' Hu' Hc' Hp'.
    constructor; cbn; try congruence; [lia|]. intros _. rewrite Hp', Hpv. eauto.
Qed.

(** The effect of releasing one handle. *)
Lemma release_owned {A} operation (release : A -> ST S (option cerror)) event h s log : is_operation event = false ->
  let '(_, (_, log')) := releaseWith operation (fun h => log1 (fun _ => event) (release h)) h (s, log) in
  operations log' = operations log /\
  owned_after log' = if has h then gtrack (owned_after log) event else owned_after log.
Proof.
  intros He. unfold releaseWith. destruct h as [h|]; [|done]. unfold log1. destruct (release h s) as [err s1].
  cbn. rewrite operations_snoc, owned_snoc, He. split; [lia|done].
Qed.

Lemma close_ok maxRounds w : gss_ok maxRounds w -> gss_ok maxRounds (snd (gss_Close w)) /\ au_closed (snd (gss_Close w)).1 = true.
Proof.
  destruct w as [a [s log]]. intros Hok. unfold gss_Close. destruct (au_closed a) eqn:Ec; [done|].
  destruct Hok as [Ho Hr Hn Hu Hp Hc]. cbn in *.
  pose proof (release_owned OperationDeleteContext cx_Delete GDeleted (au_context a) s log eq_refl) as H1.
  destruct (releaseWith OperationDeleteContext _ _ _) as [e1 [s1 log1]]. destruct H1 as [Hn1 Ho1].
  pose proof (release_owned OperationReleaseName nm_Release GReleasedName (au_targetName a) s1 log1 eq_refl) as H2.
  destruct (releaseWith OperationReleaseName _ _ _) as [e2 [s2 log2]]. destruct H2 as [Hn2 Ho2].
  pose proof (release_owned OperationReleaseProvider pv_Release GReleasedProvider (au_provider a) s2 log2 eq_refl) as H3.
  destruct (releaseWith OperationReleaseProvider _ _ _) as [e3 [s3 log3]]. destruct H3 as [Hn3 Ho3].
  split; [|done]. constructor; cbn; try done; [|lia].
  rewrite Ho3, Ho2, Ho1, Ho. unfold holds. by destruct (au_context a), (au_targetName a), (au_provider a).
Qed.

Lemma calls_gss_ok maxRounds calls : forall w, gss_ok maxRounds w -> gss_ok maxRounds (foldl gss_call w calls).
Proof.
  induction calls as [|c calls IH]; intros w Hw; [done|]. apply IH.
  destruct c; [by apply authenticate_ok|by apply close_ok].
Qed.

(** C12. The handles of the GSS library are released exactly once. From an
    authenticator of [Begin], after any sequence of [Authenticate] and [Close]:
    the calls the package made on the library were in order, that is a name or
    a context is used only between the call that returned it and its release,
    none is released twice and none is lost; what is not released is held by the
    authenticator; and after a [Close] nothing is left, whatever failed before.
    At most [maxRounds] Bind operations, and one for the security layer, reached
    the session. *)
Theorem gss_handles_released_once config endpoint a (s s1 : S) calls :
  Begin ctxErr config endpoint s = (inl a, s1) -> 0 < an_maxRounds config ->
  let w := foldl gss_call (a, (s1, [])) calls in
  owned_after w.2.2 = Some (holds w.1) /\
  (au_closed w.1 = true -> owned_after w.2.2 = Some (false, false, false)) /\
  operations w.2.2 <= an_maxRounds config + 1.
Proof.
  intros Hb Hm w. unfold Begin in Hb. destruct (ctxErr s) as [[e|] s2]; [done|].
  destruct (ValidateEndpoint endpoint); [done|].
  destruct (an_providerFactory config s2) as [[[p|] [e|]] s3]; [|..]; try done.
  { by destruct (pv_Release p s3). }
  destruct (ctxErr s3) as [[e|] s4]; [by destruct (pv_Release p s4)|]. injection Hb as <- <-.
  assert (Hk : gss_ok (an_maxRounds config) w).
  { apply calls_gss_ok. constructor; cbn; try done; unfold operations; cbn; lia. }
  destruct Hk as [Ho Hr Hn Hu Hp Hc]. split; [done|]. split; [intros Hcl; by rewrite Ho, Hc|lia].
Qed.
End traced.

(** ** A sample conversation *)

(** The session delivers the responses of a script, [None] ends a stream. The
    library establishes its context in one round and accepts everything. *)
#[local] Instance scripted : Executor (list (option Response)) unit := {|
  ex_Do _ s := (inl tt, s);
  ex_Next _ s := match s with Some r :: s => (inl r, s) | None :: s => (inr (Plain EOF), s) | [] => (inr (Plain EOF), []) end;
  ex_Close _ s := (None, s)
|}.

#[local] Instance sample_constants : GssConstants := {|
  ContextFlagMutual := 2;
  ContextFlagInteg := 32;
  GSS_MECH_KRB5 := [1; 2; 840; 113554; 1; 2; 2];
  GSS_NT_HOSTBASED_SERVICE := [1; 2; 840; 113554; 1; 2; 1; 4];
  asFatalStatus _ := None;
  asFatalStatusPointer _ := None;
  asInfoStatus _ := None;
  asInfoStatusPointer _ := None
|}.

#[local] Instance sample_provider : Provider (list (option Response)) unit unit unit := {|
  pv_ImportName _ _ _ s := (Some tt, None, s);
  pv_InitSecContext _ _ _ _ s := (Some tt, None, s);
  pv_Release _ s := (None, s);
  nm_Release _ s := (None, s);
  cx_Continue _ _ s := ([1], MkInfo true 34 (Some [1; 2; 840; 113554; 1; 2; 2]), None, s);
  cx_ContinueNeeded _ s := (false, s);
  cx_Unwrap _ token s := (token, false, None, s);
  cx_Wrap _ message _ _ s := (message, false, None, s);
  cx_Delete _ s := (None, s)
|}.

Definition sample_bind_response (code : Z) (credentials : bytes) (has : bool) : Response :=
  sample_response bindResponseIdentifier (MkBindResponse (MkLDAPResult code [] [] [] []) credentials has []) [].

Definition sample_conversation : list (option Response) :=
  [Some (sample_bind_response 14 [1; 0; 0; 0] true); None; Some (sample_bind_response 0 [] false); None].

Definition sample_authentication : Authentication (list (option Response)) unit :=
  MkAuthentication (MkIdentity (bs "service")) (fun s => (Some tt, None, s)) (bs "u:app") 8.
Definition sample_endpoint : Endpoint := MkEndpoint "a" (bs "host:636") (bs "host") TransportDirectTLS.
Definition sample_authenticator : authenticator unit unit unit :=
  MkAuthenticator (MkIdentity (bs "service")) (Some tt) (bs "ldap@host") (bs "u:app") 8 None None false false.

Definition sample_final := snd (Authenticate (fun s => (None, s)) (sample_authenticator, sample_conversation)).

Lemma gss_success_means_protected_witness :
  Authenticate (fun s => (None, s)) (sample_authenticator, sample_conversation) =
    (inl (MkIdentity (bs "service")), (sample_final.1, sample_final.2)) /\
  exists context info token w1 w2,
    establishContext (fun s => (None, s)) 8 context [] w1 = (inl (token, info), w2) /\
    Mech info = Some [1; 2; 840; 113554; 1; 2; 2].
Proof.
  assert (Ha : Authenticate (fun s => (None, s)) (sample_authenticator, sample_conversation) =
    (inl (MkIdentity (bs "service")), (sample_final.1, sample_final.2))) by (vm_compute; reflexivity).
  split; [exact Ha|].
  pose proof (gss_success_means_protected (fun s => (None, s)) sample_authenticator sample_conversation
              (MkIdentity (bs "service")) sample_final.1 sample_final.2 Ha) as Hs.
  destruct Hs as (_ & _ & _ & context & info & token & w1 & w2 & s1 & He & _ & _ & Hm & _).
  exists context, info, token, w1, w2. split; [exact He|exact Hm].
Defined.

Lemma gss_handles_released_once_witness : exists a,
  Begin (fun s => (None, s)) sample_authentication sample_endpoint sample_conversation = (inl a, sample_conversation) /\
  let w := foldl (gss_call (fun s => (None, s))) (a, (sample_conversation, [])) [GssAuthenticate; GssClose; GssClose] in
  operations w.2.2 = 2 /\ au_closed w.1 = true /\ owned_after w.2.2 = Some (false, false, false) /\ operations w.2.2 <= 9.
Proof.
  exists sample_authenticator. split; [by vm_compute|].
  destruct (gss_handles_released_once (fun s => (None, s)) sample_authentication sample_endpoint sample_authenticator
              sample_conversation sample_conversation [GssAuthenticate; GssClose; GssClose])
    as (_ & Hc & Ho); [by vm_compute|by vm_compute|].
  cbv zeta. split; [by vm_compute|]. split; [by vm_compute|]. split; [apply Hc; by vm_compute|exact Ho].
Defined.
