(* ===== verification/ModelCodecs.v ===== *)
(** * Value codecs of the model mapping

    Models src/ldapmodel/codecs.go, uint32.go and the codecs of attribute.go:
    conversions between schema values and their LDAP wire bytes, with what they
    use of [strconv] and [time].

    A [time.Time] is the instant it stands for, in seconds of the proleptic
    Gregorian calendar after the start of year 0 and nanoseconds: its location
    only matters for printing, and the codec prints UTC. *)

From S2P Require Import Prelude Wire Packet Reader Decoder Types Result Attributes.

(** ** Codecs *)

(** The interface [ValueCodec[T]]. *)
Record ValueCodec (T : Type) := MkValueCodec {
  vc_Encode : T -> result bytes;
  vc_Decode : bytes -> result T
}.
Arguments MkValueCodec {T}.
Arguments vc_Encode {T} _.
Arguments vc_Decode {T} _.

(** The struct [Codec[T]]: a nil function is [None]. *)
Record FuncCodec (T : Type) := MkFuncCodec {
  EncodeFunc : option (T -> result bytes);
  DecodeFunc : option (bytes -> result T)
}.
Arguments MkFuncCodec {T}.
Arguments EncodeFunc {T} _.
Arguments DecodeFunc {T} _.

Definition FuncCodec_Encode {T} (c : FuncCodec T) (value : T) : result bytes :=
  match EncodeFunc c with
  | None => Err (ErrorString "ldapmodel: codec has no encoder")
  | Some f => f value
  end.
Definition FuncCodec_Decode {T} (c : FuncCodec T) (value : bytes) : result T :=
  match DecodeFunc c with
  | None => Err (ErrorString "ldapmodel: codec has no decoder")
  | Some f => f value
  end.

(** A [Codec[T]] as a [ValueCodec[T]]. *)
Definition codec {T} (encode : T -> result bytes) (decode : bytes -> result T) : ValueCodec T :=
  let c := MkFuncCodec (Some encode) (Some decode) in MkValueCodec (FuncCodec_Encode c) (FuncCodec_Decode c).

(** ** Text *)

Definition StringCodec : ValueCodec bytes := codec (fun value => Ok value) (fun value => Ok value).
Definition BytesCodec : ValueCodec bytes := codec (fun value => Ok value) (fun value => Ok value).

Definition textCodec (valid : bytes -> bool) : ValueCodec bytes :=
  let check s := if negb (valid s) then Err (ErrorString "invalid LDAP string syntax") else Ok s in
  codec check check.

Definition isDigit (c : Z) : bool := in_range 48 57 c.

(** A loop over the runes of a string sees the bytes below 128 as they are, and
    only runes above 127 for all other bytes. *)
Definition DirectoryStringCodec : ValueCodec bytes :=
  textCodec (fun s => negb (bool_decide (s = [])) && utf8_Valid s).
Definition IA5StringCodec : ValueCodec bytes := textCodec (fun s => forallb (fun c => negb (c >? 127)) s).
Definition NumericStringCodec : ValueCodec bytes :=
  textCodec (fun s => forallb (fun c => negb (negb (c =? 32) && ((c <? 48) || (c >? 57)))) s
                      && negb (bool_decide (s = []))).

Definition DNCodec : ValueCodec LDAPDN :=
  let check s := if negb (utf8_Valid s) then Err (ErrorString "DN is not UTF-8") else Ok s in
  codec check check.

Definition BoolCodec : ValueCodec bool :=
  codec (fun v => Ok (if v : bool then bs "TRUE" else bs "FALSE"))
    (fun raw =>
       if bool_decide (raw = bs "TRUE") then Ok true
       else if bool_decide (raw = bs "FALSE") then Ok false
       else Err (ErrorString "invalid LDAP boolean")).

(** ** Decimal numbers *)

(** [strconv.AppendUint] and [AppendInt] in base 10: 20 digits are enough for 64
    bits. *)
Fixpoint formatDigits (fuel : nat) (u : Z) (acc : bytes) : bytes :=
  match fuel with
  | O => acc
  | S fuel =>
      let acc := (48 + u mod 10) :: acc in
      if u >=? 10 then formatDigits fuel (u / 10) acc else acc
  end.
Definition AppendUint (u : Z) : bytes := formatDigits 20 u [].
Definition AppendInt (v : Z) : bytes := if v <? 0 then 45 :: AppendUint (- v) else AppendUint v.

(** The errors inside [*strconv.NumError]. *)
Inductive NumErr := ErrSyntax | ErrRange.
Definition NumError (err : NumErr) : error :=
  match err with
  | ErrSyntax => WrapError (ErrorString "invalid syntax") "strconv.ParseUint"
  | ErrRange => WrapError (ErrorString "value out of range") "strconv.ParseUint"
  end.

(** [strconv.ParseUint] in base 10: letters are digits above the base, so that
    every byte but a decimal digit is a syntax error. *)
Fixpoint ParseUint_loop (maxVal n : Z) (s : bytes) : Z * option NumErr :=
  match s with
  | [] => (n, None)
  | c :: s =>
      if negb (isDigit c) then (0, Some ErrSyntax)
      else if n >=? MaxUint64 / 10 + 1 then (maxVal, Some ErrRange)
      else
        let n := uwrap 64 (n * 10) in
        let n1 := uwrap 64 (n + (c - 48)) in
        if (n1 <? n) || (n1 >? maxVal) then (maxVal, Some ErrRange) else ParseUint_loop maxVal n1 s
  end.
Definition ParseUint (s : bytes) (bitSize : Z) : Z * option NumErr :=
  if bool_decide (s = []) then (0, Some ErrSyntax) else ParseUint_loop (2 ^ bitSize - 1) 0 s.

Definition ParseInt (s : bytes) (bitSize : Z) : Z * option NumErr :=
  match s with
  | [] => (0, Some ErrSyntax)
  | c :: rest =>
      let neg := c =? 45 in
      let '(un, err) := ParseUint (if (c =? 43) || neg then rest else s) bitSize in
      match err with
      | Some ErrSyntax => (0, Some ErrSyntax)
      | _ =>
          let cutoff := 2 ^ (bitSize - 1) in
          if negb neg && (un >=? cutoff) then (cutoff - 1, Some ErrRange)
          else if neg && (un >? cutoff) then (- cutoff, Some ErrRange)
          else let n := swrap 64 un in (if neg then swrap 64 (- n) else n, None)
      end
  end.

(** The regular expression: [0], or an optional minus sign, a digit from 1 to 9
    and any digits. *)
Definition integerSyntax (raw : bytes) : bool :=
  bool_decide (raw = [48]) ||
  match (match raw with 45 :: rest => rest | _ => raw end) with
  | [] => false
  | c :: rest => in_range 49 57 c && forallb isDigit rest
  end.

Definition Int64Codec : ValueCodec Z :=
  codec (fun v => Ok (AppendInt v))
    (fun raw =>
       if negb (integerSyntax raw) then Err (ErrorString "invalid LDAP integer")
       else match ParseInt raw 64 with
            | (_, Some _) => Err (ErrorString "LDAP integer outside int64 range")
            | (v, None) => Ok v
            end).
Definition Uint64Codec : ValueCodec Z :=
  codec (fun v => Ok (AppendUint v))
    (fun raw =>
       if negb (integerSyntax raw) then Err (ErrorString "invalid LDAP integer")
       else match ParseUint raw 64 with
            | (_, Some _) => Err (ErrorString "LDAP integer outside uint64 range")
            | (v, None) => Ok v
            end).
Definition Uint32Codec : ValueCodec Z :=
  codec (fun value => Ok (AppendUint (conv uint64 value)))
    (fun value =>
       match ParseUint value 32 with
       | (_, Some err) => Err (WrapError (NumError err) "decode unsigned 32-bit integer")
       | (decoded, None) => Ok (conv uint32 decoded)
       end).

(** ** What decimal text means *)

Definition decimal (s : bytes) : Z := be 10 (map (fun c => c - 48) s).

Lemma isDigit_range c : isDigit c = true -> 48 <= c <= 57.
Proof. unfold isDigit, in_range. intros. zbool. lia. Qed.

Lemma digits_Forall s : forallb isDigit s = true -> Forall (fun d => 0 <= d < 10) (map (fun c => c - 48) s).
Proof.
  rewrite forallb_forall. intros H. apply Forall_map, Forall_forall. intros c Hc.
  apply list_elem_of_In, H, isDigit_range in Hc. cbn. lia.
Qed.

Lemma decimal_snoc s c : decimal (s ++ [c]) = decimal s * 10 + (c - 48).
Proof. unfold decimal. rewrite map_app. apply be_snoc. Qed.

Lemma decimal_range s : forallb isDigit s = true -> 0 <= decimal s < 10 ^ len s.
Proof.
  intros H. pose proof (be_range 10 _ eq_refl (digits_Forall s H)) as Hr.
  unfold len in *. by rewrite length_map in Hr.
Qed.

Lemma decimal_cons c s : decimal (c :: s) = (c - 48) * 10 ^ len s + decimal s.
Proof. unfold decimal. cbn [map]. rewrite be_cons. unfold len. by rewrite length_map. Qed.

(** [ParseUint_loop] accepts exactly the digits whose value fits. *)
Lemma ParseUint_loop_exact maxVal s : 0 <= maxVal <= MaxUint64 -> forall n v, 0 <= n <= maxVal ->
  ParseUint_loop maxVal n s = (v, None) <->
  forallb isDigit s = true /\ v = n * 10 ^ len s + decimal s /\ v <= maxVal.
Proof.
  intros Hm. induction s as [|c s IH]; intros n v Hn; cbn [ParseUint_loop forallb].
  - rewrite len_nil. change (decimal []) with 0. split; [intros [= <-]; lia|intros (_ & -> & _); f_equal; lia].
  - destruct (isDigit c) eqn:Hc; cbn [negb andb]; [|split; [done|intros [? _]; done]].
    apply isDigit_range in Hc as Hr. rewrite decimal_cons, len_cons, Z.pow_add_r by (done || apply len_nonneg).
    assert (0 < 10 ^ len s) by (apply Z.pow_pos_nonneg; [done|apply len_nonneg]).
    unfold MaxUint64 in *. change ((2 ^ 64 - 1) / 10 + 1) with 1844674407370955162.
    destruct (n >=? 1844674407370955162) eqn:Hcut.
    { split; [done|]. intros (Hd & -> & Hle). pose proof (decimal_range s Hd). nia. }
    unfold uwrap. destruct (Z.lt_ge_cases (n * 10 + (c - 48)) (2 ^ 64)) as [Hsmall|Hbig].
    + rewrite (Z.mod_small (n * 10)), Z.mod_small by lia.
      destruct (_ || _) eqn:Hover.
      * split; [done|]. intros (Hd & -> & Hle). pose proof (decimal_range s Hd). zbool. nia.
      * zbool. rewrite IH by lia. replace ((n * 10 + (c - 48)) * 10 ^ len s) with
          (n * (10 ^ 1 * 10 ^ len s) + (c - 48) * 10 ^ len s) by lia.
        by rewrite Z.add_assoc.
    + destruct (_ || _) eqn:Hover.
      * split; [done|]. intros (Hd & -> & Hle). pose proof (decimal_range s Hd). nia.
      * exfalso. zbool. rewrite <- (Z.mod_small (n * 10) (2 ^ 64)) in Hbig by lia.
        pose proof (Z.mod_pos_bound (n * 10) (2 ^ 64) eq_refl).
        assert (n * 10 < 2 ^ 64) by lia.
        rewrite (Z.mod_small (n * 10)) in * by lia.
        replace (n * 10 + (c - 48)) with (n * 10 + (c - 48) - 2 ^ 64 + 1 * 2 ^ 64) in H0 by lia.
        rewrite Z.mod_add, Z.mod_small in H0 by lia. lia.
Qed.

(** The one way to write a positive number. *)
Definition canonical (s : bytes) : bool :=
  match s with [] => false | c :: rest => in_range 49 57 c && forallb isDigit rest end.

Lemma canonical_digits s : canonical s = true -> forallb isDigit s = true.
Proof. destruct s; cbn; [done|]. unfold isDigit, in_range. intros. zbool. rewrite H0. lia. Qed.

Lemma canonical_lower s : canonical s = true -> 10 ^ (len s - 1) <= decimal s.
Proof.
  destruct s as [|c s]; [done|]. cbn [canonical]. unfold in_range. intros H. zbool.
  rewrite decimal_cons, len_cons. replace (1 + len s - 1) with (len s) by lia.
  pose proof (decimal_range s H0).
  assert (0 < 10 ^ len s) by (apply Z.pow_pos_nonneg; [done|apply len_nonneg]). nia.
Qed.

Lemma canonical_snoc c s d : canonical (c :: s ++ [d]) = true -> canonical (c :: s) = true /\ isDigit d = true.
Proof. cbn [canonical]. rewrite forallb_app. cbn. intros. zbool. split; [|done]. by rewrite H, H0. Qed.

Lemma format_canonical s : forall fuel acc, canonical s = true -> (length s <= fuel)%nat ->
  formatDigits fuel (decimal s) acc = s ++ acc.
Proof.
  induction s as [|d s IH] using rev_ind; intros fuel acc Hc Hf; [done|].
  rewrite length_app in Hf. cbn in Hf. destruct fuel as [|fuel]; [lia|]. cbn [formatDigits].
  rewrite decimal_snoc. destruct s as [|c s].
  - change (decimal []) with 0. cbn in Hc. unfold in_range in Hc. zbool.
    rewrite Z.mod_small by lia. destruct (_ >=? 10) eqn:?; [lia|]. cbn. f_equal. lia.
  - apply canonical_snoc in Hc as [Hc Hd]. pose proof (canonical_lower _ Hc) as Hlow.
    apply isDigit_range in Hd. rewrite len_cons in Hlow.
    assert (0 < 10 ^ (1 + len s - 1)) by (apply Z.pow_pos_nonneg; [done|pose proof (len_nonneg s); lia]).
    replace ((decimal (c :: s) * 10 + (d - 48)) mod 10) with (d - 48)
      by (rewrite Z.add_comm, Z.mod_add, Z.mod_small; lia).
    replace ((decimal (c :: s) * 10 + (d - 48)) / 10) with (decimal (c :: s))
      by (rewrite Z.div_add_l, (Z.div_small (d - 48)); lia).
    destruct (_ >=? 10) eqn:?; [|lia]. rewrite IH by (done || (cbn in *; lia)).
    rewrite <- app_assoc. cbn. repeat f_equal. lia.
Qed.

Lemma format_spec fuel : forall u acc, (0 < fuel)%nat -> 0 <= u < 10 ^ Z.of_nat fuel ->
  exists s, formatDigits fuel u acc = s ++ acc /\ decimal s = u /\ (u = 0 /\ s = [48] \/ canonical s = true).
Proof.
  induction fuel as [|fuel IH]; intros u acc Hf Hu; [lia|]. cbn [formatDigits].
  pose proof (Z.mod_pos_bound u 10 eq_refl) as Hmod. pose proof (Z.div_mod u 10 ltac:(lia)) as Hdiv.
  destruct (u >=? 10) eqn:Hge.
  - rewrite Nat2Z.inj_succ, Z.pow_succ_r in Hu by lia.
    destruct fuel as [|fuel]; [change (Z.of_nat 0) with 0 in *; lia|].
    destruct (IH (u / 10) ((48 + u mod 10) :: acc)) as (s & Heq & Hd & Hs); [lia|split; [lia|]|].
    { apply Z.div_lt_upper_bound; lia. }
    exists (s ++ [48 + u mod 10]). rewrite Heq, <- app_assoc, decimal_snoc, Hd.
    split; [done|]. split; [lia|]. right. destruct Hs as [[Hz _]|Hs]; [lia|].
    destruct s as [|c s]; [done|]. cbn [canonical app] in *. rewrite forallb_app. cbn.
    zbool. rewrite H, H0. unfold isDigit, in_range. lia.
  - exists [48 + u mod 10]. rewrite Z.mod_small by lia. split; [done|].
    split; [unfold decimal, be; cbn; lia|]. destruct (decide (u = 0)) as [->|]; [by left|].
    right. cbn. unfold in_range. lia.
Qed.

Lemma AppendUint_exact v raw : 0 <= v < 2 ^ 64 ->
  raw = AppendUint v <-> (v = 0 /\ raw = [48] \/ canonical raw = true /\ decimal raw = v).
Proof.
  intros Hv. unfold AppendUint. split.
  - destruct (format_spec 20 v []) as (s & -> & Hd & Hs); [lia|lia|]. rewrite app_nil_r. intros ->. naive_solver.
  - intros [[-> ->]|[Hc <-]]; [done|]. rewrite format_canonical, app_nil_r; [done|done|].
    pose proof (canonical_lower _ Hc). destruct (decide (length raw <= 20)%nat); [done|].
    assert (10 ^ 20 <= 10 ^ (len raw - 1)) by (apply Z.pow_le_mono_r; unfold len; lia). lia.
Qed.

Lemma ParseUint_exact s bits v : 0 <= bits <= 64 -> ParseUint s bits = (v, None) <->
  s <> [] /\ forallb isDigit s = true /\ v = decimal s /\ decimal s < 2 ^ bits.
Proof.
  intros Hb. unfold ParseUint, MaxUint64.
  assert (2 ^ bits <= 2 ^ 64) by (apply Z.pow_le_mono_r; lia).
  assert (0 < 2 ^ bits) by (apply Z.pow_pos_nonneg; lia).
  case_bool_decide; [naive_solver|]. rewrite ParseUint_loop_exact by (unfold MaxUint64; lia).
  rewrite Z.mul_0_l, Z.add_0_l. naive_solver lia.
Qed.

(** The decoder of a codec accepts exactly what its encoder writes. *)
Definition exact_codec {T} (c : ValueCodec T) (P : T -> Prop) : Prop := forall raw v,
  vc_Decode c raw = Ok v <-> P v /\ vc_Encode c v = Ok raw.

Lemma integerSyntax_canonical raw : integerSyntax raw = true <->
  raw = [48] \/ canonical raw = true \/ exists rest, raw = 45 :: rest /\ canonical rest = true.
Proof.
  unfold integerSyntax. rewrite orb_true_iff, bool_decide_eq_true. apply or_iff_compat_l.
  fold (canonical match raw with 45 :: rest => rest | _ => raw end).
  destruct raw as [|c rest]; [naive_solver|].
  destruct (decide (c = 45)) as [->|Hc]; [naive_solver|].
  assert (match c :: rest with 45 :: rest => rest | _ => c :: rest end = c :: rest) as ->.
  { destruct c as [|p|p]; try done. do 6 (destruct p as [p|p|]; try done). }
  naive_solver.
Qed.

Lemma Uint64_exact : exact_codec Uint64Codec (fun v => 0 <= v < 2 ^ 64).
Proof.
  intros raw v. cbn [vc_Decode vc_Encode Uint64Codec codec FuncCodec_Decode FuncCodec_Encode DecodeFunc EncodeFunc].
  assert (ParseUint raw 64 = (v, None) /\ integerSyntax raw = true <-> 0 <= v < 2 ^ 64 /\ raw = AppendUint v) as Hiff.
  { rewrite ParseUint_exact, integerSyntax_canonical by lia. split.
    - intros [(Hne & Hd & -> & Hlt) Hs]. pose proof (decimal_range _ Hd). split; [lia|].
      apply AppendUint_exact; [lia|]. destruct Hs as [->|[?|(rest & -> & ?)]]; [by left|by right|discriminate].
    - intros [Hv Hraw]. apply AppendUint_exact in Hraw as [[-> ->]|[Hc <-]]; [..|done].
      + split; [|by left]. done.
      + split; [|by right; left]. apply canonical_digits in Hc as Hd. split_and!; [by destruct raw|done|done|lia]. }
  destruct (integerSyntax raw), (ParseUint raw 64) as [w [e|]]; cbn [negb];
    naive_solver.
Qed.

Lemma ParseUint_loop_digits maxVal s : forallb isDigit s = true -> forall n v e,
  ParseUint_loop maxVal n s = (v, Some e) -> v = maxVal /\ e = ErrRange.
Proof.
  induction s as [|c s IH]; intros Hd n v e; cbn [ParseUint_loop]; [done|]. cbn in Hd. zbool.
  rewrite H. cbn [negb]. case_ifs; [naive_solver..|]. by apply IH.
Qed.

Lemma ParseUint_digits s : s <> [] -> forallb isDigit s = true ->
  ParseUint s 64 = if decimal s <? 2 ^ 64 then (decimal s, None) else (2 ^ 64 - 1, Some ErrRange).
Proof.
  intros Hne Hd. destruct (decimal s <? 2 ^ 64) eqn:Hlt.
  - apply ParseUint_exact; [lia|]. naive_solver lia.
  - destruct (ParseUint s 64) as [v [e|]] eqn:Hp.
    + revert Hp. unfold ParseUint. case_bool_decide; [done|]. intros Hp.
      by apply ParseUint_loop_digits in Hp as [-> ->].
    + apply ParseUint_exact in Hp as (_ & _ & _ & ?); lia.
Qed.

Lemma ParseInt_positive raw v : forallb isDigit raw = true -> raw <> [] ->
  ParseInt raw 64 = (v, None) <-> v = decimal raw /\ v < 2 ^ 63.
Proof.
  intros Hd Hne. pose proof (decimal_range _ Hd). destruct raw as [|c s]; [done|].
  assert (48 <= c) by (apply isDigit_range; cbn in Hd; by zbool).
  unfold ParseInt. destruct (c =? 43) eqn:?; [lia|]. destruct (c =? 45) eqn:?; [lia|]. cbn [orb negb andb].
  rewrite ParseUint_digits by done. destruct (decimal (c :: s) <? 2 ^ 64) eqn:?.
  - destruct (_ >=? _) eqn:?; [split; [done|lia]|]. rewrite swrap_small by lia. naive_solver lia.
  - split; [done|lia].
Qed.

Lemma ParseInt_negative rest v : canonical rest = true ->
  ParseInt (45 :: rest) 64 = (v, None) <-> v = - decimal rest /\ - 2 ^ 63 <= v.
Proof.
  intros Hc. apply canonical_digits in Hc as Hd. pose proof (decimal_range _ Hd).
  cbn [ParseInt]. change (45 =? 43) with false. change (45 =? 45) with true. cbn [orb negb andb].
  rewrite ParseUint_digits by (done || by destruct rest). destruct (decimal rest <? 2 ^ 64) eqn:?.
  - destruct (_ >? _) eqn:?; zbool; [split; [done|lia]|].
    assert (swrap 64 (- swrap 64 (decimal rest)) = - decimal rest) as ->.
    { destruct (decide (decimal rest = 2 ^ 63)) as [->|]; [done|]. rewrite (swrap_small 64 (decimal rest)), swrap_small by lia. done. }
    split; [intros [= <-]; lia|by intros [-> _]].
  - split; [done|lia].
Qed.

Lemma Int64_exact : exact_codec Int64Codec (fun v => - 2 ^ 63 <= v < 2 ^ 63).
Proof.
  intros raw v. cbn [vc_Decode vc_Encode Int64Codec codec FuncCodec_Decode FuncCodec_Encode DecodeFunc EncodeFunc].
  assert (ParseInt raw 64 = (v, None) /\ integerSyntax raw = true <-> - 2 ^ 63 <= v < 2 ^ 63 /\ raw = AppendInt v) as Hiff.
  { unfold AppendInt. rewrite integerSyntax_canonical. split.
    - intros [Hp [->|[Hc|(rest & -> & Hc)]]].
      + apply ParseInt_positive in Hp as [-> ?]; done.
      + apply canonical_digits in Hc as Hd. pose proof (decimal_range _ Hd).
        apply ParseInt_positive in Hp as [-> ?]; [|done|by destruct raw]. split; [lia|].
        destruct (_ <? 0) eqn:?; [lia|]. apply AppendUint_exact; [lia|]. by right.
      + pose proof (canonical_lower _ Hc) as Hlow.
        assert (0 < 10 ^ (len rest - 1)) by (apply Z.pow_pos_nonneg; [done|destruct rest; [done|rewrite len_cons;
          pose proof (len_nonneg rest); lia]]).
        apply ParseInt_negative in Hp as [-> ?]; [|done]. split; [lia|].
        destruct (_ <? 0) eqn:?; [|lia]. f_equal. apply AppendUint_exact; [lia|]. right. split; [done|lia].
    - intros [Hv ->]. destruct (v <? 0) eqn:?.
      + destruct (AppendUint_exact (- v) (AppendUint (- v))) as [Hex _]; [lia|].
        destruct (Hex eq_refl) as [[? _]|[Hc Hd]]; [lia|]. split; [|by eauto].
        apply ParseInt_negative; [done|]. lia.
      + destruct (AppendUint_exact v (AppendUint v)) as [Hex _]; [lia|].
        destruct (Hex eq_refl) as [[-> ->]|[Hc Hd]]; [by split; [|left]|]. split; [|by eauto].
        apply ParseInt_positive; [by apply canonical_digits|by destruct (AppendUint v)|]. lia. }
  destruct (integerSyntax raw), (ParseInt raw 64) as [w [e|]]; cbn [negb]; naive_solver.
Qed.

(** ** Generalized time *)

Record Time := MkTime { t_seconds : Z; t_nanos : Z }.

(** The calendar: days before the first of January of a year, and the lengths
    of its months. *)
Definition isLeap (y : Z) : bool := (y mod 4 =? 0) && (negb (y mod 100 =? 0) || (y mod 400 =? 0)).
Definition daysBeforeYear (y : Z) : Z := 365 * y + (y + 3) / 4 - (y + 99) / 100 + (y + 399) / 400.
Definition monthLengths (y : Z) : list Z :=
  [31; if isLeap y then 29 else 28; 31; 30; 31; 30; 31; 31; 30; 31; 30; 31].
Definition sumZ (l : list Z) : Z := foldr Z.add 0 l.

(** [time.Date] in UTC, for parts within their ranges. *)
Definition time_Date (year month day hour min sec : Z) : Time :=
  let days := daysBeforeYear year + sumZ (take (Z.to_nat (month - 1)) (monthLengths year)) + (day - 1) in
  MkTime (days * 86400 + hour * 3600 + min * 60 + sec) 0.

(** [Year], [Month] and [Day] of a day number. The estimate of the year is off by
    one at most. *)
Definition yearOf (days : Z) : Z :=
  let y := days * 400 / 146097 in
  if daysBeforeYear (y + 1) <=? days then y + 1 else if days <? daysBeforeYear y then y - 1 else y.
Fixpoint splitMonth (lengths : list Z) (month yday : Z) : Z * Z :=
  match lengths with
  | [] => (month, yday)
  | l :: lengths => if yday <? l then (month, yday) else splitMonth lengths (month + 1) (yday - l)
  end.
Definition Time_Year (t : Time) : Z := yearOf (t_seconds t / 86400).

(** [Add] of a duration in nanoseconds. *)
Definition Time_Add (t : Time) (d : Z) : Time :=
  let n := t_nanos t + d in MkTime (t_seconds t + n / 10 ^ 9) (n mod 10 ^ 9).

(** The layout [20060102150405.999999999Z]: zero-padded numbers, and a fraction
    without trailing zeros. *)
Fixpoint pad (width : nat) (n : Z) (acc : bytes) : bytes :=
  match width with
  | O => acc
  | S width => pad width (n / 10) ((48 + n mod 10) :: acc)
  end.
Fixpoint trimZeros (s : bytes) : bytes :=
  match s with
  | [] => []
  | c :: s => match trimZeros s with [] => if c =? 48 then [] else [c] | s' => c :: s' end
  end.
Definition fractionText (n : Z) : bytes := match trimZeros (pad 9 n []) with [] => [] | digits => 46 :: digits end.
Definition Time_Format (t : Time) : bytes :=
  let days := t_seconds t / 86400 in
  let rest := t_seconds t mod 86400 in
  let year := yearOf days in
  let '(month, day) := splitMonth (monthLengths year) 1 (days - daysBeforeYear year) in
  pad 4 year (pad 2 month (pad 2 (day + 1)
    (pad 2 (rest / 3600) (pad 2 (rest mod 3600 / 60) (pad 2 (rest mod 60) (fractionText (t_nanos t) ++ [90])))))).

(** [time.Parse] with the layout [20060102150405-0700], on 14 digits, a sign and
    four digits. The caller checked the range of the zone. *)
Definition time_Parse (value : bytes) : option Time :=
  let field i j := decimal (slice value i j) in
  let year := field 0 4 in let month := field 4 6 in let day := field 6 8 in
  let hour := field 8 10 in let min := field 10 12 in let sec := field 12 14 in
  let offset := (field 15 17 * 60 + field 17 19) * 60 in
  let offset := if bool_decide (slice value 14 15 = [45]) then - offset else offset in
  if (month <=? 0) || (12 <? month) || (24 <=? hour) || (60 <=? min) || (60 <=? sec) then None
  else if (day <? 1) || (default 0 (monthLengths year !! Z.to_nat (month - 1)) <? day) then None
  else let t := time_Date year month day hour min sec in Some (MkTime (t_seconds t - offset) (t_nanos t)).

(** The groups 1 to 5 of the regular expression; a group that is not there is
    empty. *)
Definition takeDigits (n : nat) (s : bytes) : option (bytes * bytes) :=
  if Nat.eqb (length (take n s)) n && forallb isDigit (take n s) then Some (take n s, drop n s) else None.
Fixpoint spanDigits (s : bytes) : bytes * bytes :=
  match s with
  | [] => ([], [])
  | c :: rest => if isDigit c then let '(p, r) := spanDigits rest in (c :: p, r) else ([], s)
  end.
Definition optionalPair (s : bytes) : bytes * bytes := default ([], s) (takeDigits 2 s).
Definition isZone (s : bytes) : bool :=
  bool_decide (s = [90]) ||
  match s with
  | [] => false
  | sign :: digits => ((sign =? 43) || (sign =? 45)) && ((len digits =? 2) || (len digits =? 4)) && forallb isDigit digits
  end.
Definition fractionGroup (s : bytes) : option (bytes * bytes) :=
  match s with
  | c :: rest =>
      if (c =? 46) || (c =? 44) then
        let '(digits, rest) := spanDigits rest in
        if bool_decide (digits = []) then None else Some (c :: digits, rest)
      else Some ([], s)
  | [] => Some ([], [])
  end.
Definition generalizedTimeSyntax (s : bytes) : option (bytes * bytes * bytes * bytes * bytes) :=
  '(m1, s) ← takeDigits 10 s;
  let '(m2, s) := optionalPair s in
  let '(m3, s) := optionalPair s in
  '(m4, s) ← fractionGroup s;
  if isZone s then Some (m1, m2, m3, m4, s) else None.

(** [strings.TrimLeft(s, ".,")]. *)
Fixpoint TrimLeft (s : bytes) : bytes :=
  match s with
  | [] => []
  | c :: rest => if (c =? 46) || (c =? 44) then TrimLeft rest else s
  end.

Definition Hour : Z := 3600 * 10 ^ 9.
Definition Minute : Z := 60 * 10 ^ 9.
Definition Second : Z := 10 ^ 9.

Definition decodeGeneralizedTime (raw : bytes) : result Time :=
  let invalid := Err (ErrorString "invalid or unrepresentable LDAP generalized time") in
  match generalizedTimeSyntax raw with
  | None => invalid
  | Some (m1, m2, m3, m4, m5) =>
      let '(date, unit) := if bool_decide (m2 = []) then (m1 ++ bs "00", Hour) else (m1 ++ m2, Minute) in
      let '(date, unit) := if bool_decide (m3 = []) then (date ++ bs "00", unit) else (date ++ m3, Second) in
      let zone := if bool_decide (m5 = [90]) then bs "+0000" else if len m5 =? 3 then m5 ++ bs "00" else m5 in
      if str_lt (bs "23") (slice zone 1 3) || str_lt (bs "59") (slice zone 3 5) then invalid
      else
        match time_Parse (date ++ zone) with
        | None => invalid
        | Some v =>
            if bool_decide (m4 = []) then Ok v
            else
              let digits := TrimLeft m4 in
              let numerator := decimal digits * unit in
              let denominator := 10 ^ len digits in
              if negb (numerator mod denominator =? 0) || (numerator / denominator >? MaxInt) then invalid
              else Ok (Time_Add v (numerator / denominator))
        end
  end.

Definition GeneralizedTimeCodec : ValueCodec Time :=
  codec
    (fun v =>
       if (Time_Year v <? 0) || (Time_Year v >? 9999)
       then Err (ErrorString "generalized time year outside four-digit range")
       else Ok (Time_Format v))
    decodeGeneralizedTime.

(** ** The calendar is consistent *)

Lemma daysBeforeYear_bounds y : 146097 * y - 396 <= 400 * daysBeforeYear y <= 146097 * y + 699.
Proof. unfold daysBeforeYear. Z.div_mod_to_equations. lia. Qed.

Lemma yearOf_spec days : daysBeforeYear (yearOf days) <= days < daysBeforeYear (yearOf days + 1).
Proof.
  unfold yearOf. set (y := days * 400 / 146097).
  assert (146097 * y <= 400 * days < 146097 * (y + 1)) by (subst y; Z.div_mod_to_equations; lia).
  pose proof (daysBeforeYear_bounds (y - 1)). pose proof (daysBeforeYear_bounds (y + 2)).
  replace (y - 1 + 1) with y by lia. replace (y + 1 + 1) with (y + 2) by lia.
  destruct (daysBeforeYear (y + 1) <=? days) eqn:?; zbool.
  { replace (y + 1 + 1) with (y + 2) by lia. lia. }
  destruct (days <? daysBeforeYear y) eqn:?; zbool; [replace (y - 1 + 1) with y by lia|]; lia.
Qed.

Lemma year_length y : daysBeforeYear (y + 1) = daysBeforeYear y + sumZ (monthLengths y).
Proof.
  assert (sumZ (monthLengths y) = 365 + if isLeap y then 1 else 0) as ->.
  { unfold monthLengths. destruct (isLeap y); done. }
  unfold daysBeforeYear, isLeap.
  destruct (y mod 4 =? 0) eqn:H4, (y mod 100 =? 0) eqn:H100, (y mod 400 =? 0) eqn:H400; cbn [andb orb negb];
    zbool; Z.div_mod_to_equations; lia.
Qed.

Lemma splitMonth_spec lengths : forall month yday m d, 0 <= yday < sumZ lengths ->
  splitMonth lengths month yday = (m, d) ->
  exists k l, m = month + Z.of_nat k /\ lengths !! k = Some l /\ 0 <= d < l /\ yday = sumZ (take k lengths) + d.
Proof.
  induction lengths as [|l lengths IH]; intros month yday m d Hy; cbn [splitMonth]; [cbn in Hy; lia|].
  change (sumZ (l :: lengths)) with (l + sumZ lengths) in Hy.
  destruct (yday <? l) eqn:Hlt; zbool.
  - intros [= <- <-]. exists 0%nat, l. cbn. split_and!; try lia. done.
  - intros Hs. apply IH in Hs as (k & l' & -> & Hk & Hd & Heq); [|lia].
    exists (S k), l'. change (sumZ (take (S k) (l :: lengths))) with (l + sumZ (take k lengths)).
    split_and!; [lia|done|lia..].
Qed.

Lemma month_lengths y k l : monthLengths y !! k = Some l -> (k < 12)%nat /\ l <= 31.
Proof.
  intros Hk. split; [by apply lookup_lt_Some in Hk|]. revert Hk. unfold monthLengths.
  destruct (isLeap y); do 12 (destruct k as [|k]; [intros [= <-]; lia|]); done.
Qed.

(** ** Printing and parsing numbers *)

Lemma pad_app w : forall n acc, pad w n acc = pad w n [] ++ acc.
Proof.
  induction w as [|w IH]; intros n acc; cbn; [done|]. rewrite IH, (IH _ [_]), <- app_assoc. done.
Qed.

Lemma length_pad w : forall n, length (pad w n []) = w.
Proof. induction w as [|w IH]; intros n; cbn; [done|]. rewrite pad_app, length_app, IH. cbn. lia. Qed.

Lemma pad_digits w : forall n, forallb isDigit (pad w n []) = true.
Proof.
  induction w as [|w IH]; intros n; cbn; [done|]. rewrite pad_app, forallb_app, IH. cbn.
  pose proof (Z.mod_pos_bound n 10 eq_refl). unfold isDigit, in_range. lia.
Qed.

Lemma decimal_pad w : forall n, 0 <= n < 10 ^ Z.of_nat w -> decimal (pad w n []) = n.
Proof.
  induction w as [|w IH]; intros n Hn; [change (decimal (pad 0 n [])) with 0; cbn in Hn; lia|].
  rewrite Nat2Z.inj_succ, Z.pow_succ_r in Hn by lia. cbn [pad].
  rewrite pad_app, decimal_snoc, IH.
  - pose proof (Z.div_mod n 10 ltac:(lia)). lia.
  - split; [apply Z.div_pos; lia|apply Z.div_lt_upper_bound; lia].
Qed.

Lemma trimZeros_spec s : exists k, s = trimZeros s ++ replicate k 48.
Proof.
  induction s as [|c s [k IH]]; [by exists 0%nat|]. cbn. destruct (trimZeros s) as [|c' s'] eqn:?.
  - cbn in IH. destruct (c =? 48) eqn:?; zbool; [exists (S k)|exists k]; cbn; congruence.
  - exists k. cbn. by rewrite IH at 1.
Qed.

Lemma decimal_zeros s k : decimal (s ++ replicate k 48) = decimal s * 10 ^ Z.of_nat k.
Proof.
  induction k as [|k IH]; cbn [replicate]; [rewrite app_nil_r; lia|].
  change (48 :: replicate k 48) with (replicate (S k) 48). rewrite replicate_S_end, app_assoc, decimal_snoc, IH.
  rewrite Nat2Z.inj_succ, Z.pow_succ_r by lia. lia.
Qed.

Lemma takeDigits_app p s : forallb isDigit p = true -> takeDigits (length p) (p ++ s) = Some (p, s).
Proof. intros Hp. unfold takeDigits. rewrite take_app_length, drop_app_length, Nat.eqb_refl, Hp. done. Qed.

Lemma takeDigits_pad w n s : takeDigits w (pad w n [] ++ s) = Some (pad w n [], s).
Proof. rewrite <- (length_pad w n) at 1. apply takeDigits_app, pad_digits. Qed.

Lemma spanDigits_app p c s : forallb isDigit p = true -> isDigit c = false -> spanDigits (p ++ c :: s) = (p, c :: s).
Proof.
  intros Hp Hc. induction p as [|d p IH]; cbn; [by rewrite Hc|]. cbn in Hp. zbool. rewrite H, IH; done.
Qed.

Lemma decimal_slice l p r i j : i = len l -> j = len l + len p -> decimal (slice (l ++ p ++ r) i j) = decimal p.
Proof. intros. by rewrite slice_prefix. Qed.

Lemma time_Parse_fields y mo d h mi s l :
  0 <= y <= 9999 -> 1 <= mo <= 12 -> 0 <= h < 24 -> 0 <= mi < 60 -> 0 <= s < 60 ->
  monthLengths y !! Z.to_nat (mo - 1) = Some l -> 1 <= d <= l ->
  time_Parse ((pad 4 y [] ++ pad 2 mo [] ++ pad 2 d [] ++ pad 2 h []) ++ pad 2 mi [] ++ pad 2 s [] ++ bs "+0000")
  = Some (time_Date y mo d h mi s).
Proof.
  intros Hy Hmo Hh Hmi Hs Hl Hd. pose proof (month_lengths _ _ _ Hl) as [_ Hl31].
  unfold time_Parse. set (value := _ ++ _).
  change (slice value 0 4) with (pad 4 y []). change (slice value 4 6) with (pad 2 mo []).
  change (slice value 6 8) with (pad 2 d []). change (slice value 8 10) with (pad 2 h []).
  change (slice value 10 12) with (pad 2 mi []). change (slice value 12 14) with (pad 2 s []).
  change (slice value 14 15) with [43]. change (decimal (slice value 15 17)) with 0.
  change (decimal (slice value 17 19)) with 0. clear value.
  rewrite !decimal_pad by lia. rewrite Hl. cbn [from_option id].
  rewrite bool_decide_eq_false_2 by done.
  destruct (_ || _) eqn:Hb; [lia|]. clear Hb. destruct (_ || _) eqn:Hb; [lia|].
  unfold time_Date. cbn. do 2 f_equal. lia.
Qed.

Lemma trimZeros_digits n : forallb isDigit (trimZeros (pad 9 n [])) = true.
Proof.
  pose proof (pad_digits 9 n) as Hd. destruct (trimZeros_spec (pad 9 n [])) as [k Hk].
  rewrite Hk, forallb_app in Hd. by zbool.
Qed.

Lemma fractionGroup_text n : fractionGroup (fractionText n ++ [90]) = Some (fractionText n, [90]).
Proof.
  unfold fractionText. pose proof (trimZeros_digits n) as Hd. destruct (trimZeros _) as [|c s] eqn:Ht; [done|].
  cbn [app fractionGroup]. change (c :: s ++ [90]) with ((c :: s) ++ 90 :: []).
  by rewrite spanDigits_app.
Qed.

(** The fraction stands for the nanoseconds it was printed from. *)
Lemma fraction_value n : 0 <= n < 10 ^ 9 -> fractionText n <> [] ->
  let digits := TrimLeft (fractionText n) in
  (decimal digits * Second) mod 10 ^ len digits = 0 /\ decimal digits * Second / 10 ^ len digits = n.
Proof.
  intros Hn. unfold fractionText. pose proof (trimZeros_digits n) as Hd.
  destruct (trimZeros_spec (pad 9 n [])) as [k Hk]. destruct (trimZeros (pad 9 n [])) as [|c s]; [done|]. intros _. cbv zeta.
  assert (TrimLeft (46 :: c :: s) = c :: s) as ->.
  { cbn in Hd. zbool. apply isDigit_range in H. cbn. destruct (_ || _) eqn:?; [lia|done]. }
  apply (f_equal decimal) in Hk as Hv. rewrite decimal_pad, decimal_zeros in Hv by done.
  apply (f_equal length) in Hk. rewrite length_pad, length_app, length_replicate in Hk.
  assert (Second = 10 ^ Z.of_nat k * 10 ^ len (c :: s)) as ->.
  { rewrite <- Z.pow_add_r by (unfold len; lia). unfold Second. f_equal. unfold len. lia. }
  rewrite Z.mul_assoc, <- Hv. assert (10 ^ len (c :: s) <> 0) by (apply Z.pow_nonzero; unfold len; lia).
  split; [by apply Z.mod_mul|by apply Z.div_mul].
Qed.

Lemma fractionText_nil n : 0 <= n < 10 ^ 9 -> fractionText n = [] -> n = 0.
Proof.
  intros Hn. unfold fractionText. destruct (trimZeros_spec (pad 9 n [])) as [k Hk].
  destruct (trimZeros _); [|done]. intros _. apply (f_equal decimal) in Hk.
  rewrite decimal_pad, decimal_zeros in Hk by done. change (decimal []) with 0 in Hk. lia.
Qed.

Lemma decode_fields y mo d h mi s n l :
  0 <= y <= 9999 -> 1 <= mo <= 12 -> 0 <= h < 24 -> 0 <= mi < 60 -> 0 <= s < 60 -> 0 <= n < 10 ^ 9 ->
  monthLengths y !! Z.to_nat (mo - 1) = Some l -> 1 <= d <= l ->
  decodeGeneralizedTime ((pad 4 y [] ++ pad 2 mo [] ++ pad 2 d [] ++ pad 2 h []) ++ pad 2 mi [] ++ pad 2 s [] ++
    fractionText n ++ [90]) = Ok (MkTime (t_seconds (time_Date y mo d h mi s)) n).
Proof.
  intros Hy Hmo Hh Hmi Hs Hn Hl Hd. unfold decodeGeneralizedTime.
  set (date := pad 4 y [] ++ pad 2 mo [] ++ pad 2 d [] ++ pad 2 h []).
  assert (generalizedTimeSyntax (date ++ pad 2 mi [] ++ pad 2 s [] ++ fractionText n ++ [90])
    = Some (date, pad 2 mi [], pad 2 s [], fractionText n, [90])) as ->.
  { unfold generalizedTimeSyntax. change 10%nat with (length date). rewrite takeDigits_app.
    - cbn [mbind option_bind]. unfold optionalPair. rewrite takeDigits_pad. cbn [from_option id].
      rewrite takeDigits_pad. cbn [from_option id]. rewrite fractionGroup_text. done.
    - subst date. by rewrite !forallb_app, !pad_digits. }
  rewrite !(bool_decide_eq_false_2 (pad 2 _ [] = [])) by done. rewrite bool_decide_eq_true_2 by done.
  cbv beta iota zeta. change (str_lt _ _ || str_lt _ _) with false. cbv iota.
  pose proof (time_Parse_fields y mo d h mi s l) as Hp. unfold date. rewrite <- !app_assoc in *.
  rewrite Hp by done. case_bool_decide as Hnil.
  - apply fractionText_nil in Hnil as ->; done.
  - destruct (fraction_value n Hn Hnil) as [-> ->]. destruct (_ || _) eqn:Hb; [unfold MaxInt in Hb; lia|].
    unfold Time_Add. cbn [time_Date t_seconds t_nanos]. rewrite Z.add_0_l, Z.div_small, Z.mod_small, Z.add_0_r by done. done.
Qed.

(** The parts that are printed are those of the instant. *)
Lemma date_of_seconds days rest k d year : 0 <= d -> days - daysBeforeYear year = sumZ (take k (monthLengths year)) + d ->
  t_seconds (time_Date year (1 + Z.of_nat k) (d + 1) (rest / 3600) (rest mod 3600 / 60) (rest mod 60)) = days * 86400 + rest.
Proof.
  intros Hd Hday. unfold time_Date. cbn [t_seconds]. replace (Z.to_nat (1 + Z.of_nat k - 1)) with k by lia.
  replace (daysBeforeYear year + sumZ (take k (monthLengths year)) + (d + 1 - 1)) with days by lia.
  Z.div_mod_to_equations. lia.
Qed.

Lemma decode_format t : 0 <= Time_Year t <= 9999 -> 0 <= t_nanos t < 10 ^ 9 -> decodeGeneralizedTime (Time_Format t) = Ok t.
Proof.
  unfold Time_Year, Time_Format. intros Hy Hn.
  pose proof (Z.mod_pos_bound (t_seconds t) 86400 eq_refl) as Hrest. pose proof (Z.div_mod (t_seconds t) 86400 ltac:(lia)) as Hsec.
  revert Hy Hrest Hsec. generalize (t_seconds t / 86400) as days, (t_seconds t mod 86400) as rest. intros days rest Hy Hrest Hsec.
  pose proof (yearOf_spec days) as Hyear. rewrite year_length in Hyear. revert Hy Hyear. generalize (yearOf days). intros year Hy Hyear.
  destruct (splitMonth _ 1 _) as [mo d] eqn:Hs.
  apply splitMonth_spec in Hs as (k & l & -> & Hk & Hd & Hday); [|lia].
  pose proof (month_lengths _ _ _ Hk) as [Hk12 _].
  rewrite (pad_app 4), (pad_app 2 (1 + _)), (pad_app 2 (d + 1)), (pad_app 2 (rest / 3600)),
    (pad_app 2 (rest mod 3600 / 60)), (pad_app 2 (rest mod 60)).
  pose proof (decode_fields year (1 + Z.of_nat k) (d + 1) (rest / 3600) (rest mod 3600 / 60) (rest mod 60)
    (t_nanos t) l) as Hdec. rewrite <- !app_assoc in Hdec.
  replace (Z.to_nat (1 + Z.of_nat k - 1)) with k in Hdec by lia.
  rewrite Hdec by (done || lia || (Z.div_mod_to_equations; lia)).
  rewrite (date_of_seconds days) by (done || lia). destruct t as [sec ns]. cbn [t_seconds t_nanos] in *. do 2 f_equal. lia.
Qed.

(** Every instant survives generalized time: for a time in the years 0 to 9999,
    to the nanosecond, [GeneralizedTimeCodec] encodes it (the calendar date in UTC
    and a fraction without trailing zeros), and decoding that text gives the same
    instant back. *)
Lemma generalized_time_roundtrip t : 0 <= Time_Year t <= 9999 -> 0 <= t_nanos t < 10 ^ 9 ->
  exists raw, vc_Encode GeneralizedTimeCodec t = Ok raw /\ vc_Decode GeneralizedTimeCodec raw = Ok t.
Proof.
  intros Hy Hn. exists (Time_Format t). cbn [vc_Encode vc_Decode GeneralizedTimeCodec codec FuncCodec_Encode
    FuncCodec_Decode EncodeFunc DecodeFunc]. split; [destruct (_ || _) eqn:Hb; [lia|done]|]. by apply decode_format.
Qed.

(** ** The codecs are exact *)

Lemma checked_exact {T} (valid : T -> bool) (P : T -> Prop) (e : error) (c : ValueCodec T) (f : T -> bytes) (g : bytes -> T) :
  (forall v, vc_Encode c v = if negb (valid v) then Err e else Ok (f v)) ->
  (forall raw, vc_Decode c raw = if negb (valid (g raw)) then Err e else Ok (g raw)) ->
  (forall raw, f (g raw) = raw) -> (forall v, g (f v) = v) -> (forall v, valid v = true <-> P v) -> exact_codec c P.
Proof.
  intros He Hd Hfg Hgf HP raw v. rewrite He, Hd, <- HP. destruct (valid (g raw)) eqn:Hr, (valid v) eqn:Hv; cbn; naive_solver congruence.
Qed.

Lemma textCodec_exact valid (P : bytes -> Prop) : (forall v, valid v = true <-> P v) -> exact_codec (textCodec valid) P.
Proof. by apply (checked_exact valid P (ErrorString "invalid LDAP string syntax") _ id id). Qed.

Lemma Uint32_exact raw v : vc_Decode Uint32Codec raw = Ok v <->
  raw <> [] /\ forallb isDigit raw = true /\ v = decimal raw /\ v < 2 ^ 32.
Proof.
  cbn [vc_Decode Uint32Codec codec FuncCodec_Decode DecodeFunc].
  destruct (ParseUint raw 32) as [w [e|]] eqn:Hp.
  - split; [done|]. intros (Hne & Hd & -> & Hlt).
    assert (ParseUint raw 32 = (decimal raw, None)) by (apply ParseUint_exact; [lia|]; done). congruence.
  - apply ParseUint_exact in Hp as (Hne & Hd & -> & Hlt); [|lia]. pose proof (decimal_range _ Hd).
    unfold conv. cbn [it_signed it_bits uint32]. rewrite uwrap_small by lia. naive_solver.
Qed.

Lemma Uint32_written v : 0 <= v < 2 ^ 32 -> vc_Decode Uint32Codec (AppendUint (conv uint64 v)) = Ok v.
Proof.
  intros Hv. apply Uint32_exact. unfold conv. cbn [it_signed it_bits uint64]. rewrite uwrap_small by lia.
  destruct (AppendUint_exact v (AppendUint v)) as [Hex _]; [lia|].
  destruct (Hex eq_refl) as [[-> ->]|[Hc Hd]]; [done|].
  split_and!; [by destruct (AppendUint v)|by apply canonical_digits|done|lia].
Qed.

(** C33. The codecs of schema values accept exactly what they write. For directory
    strings (non-empty UTF-8), IA5 strings (bytes below 128), numeric strings
    (digits and spaces, not empty), distinguished names (UTF-8), booleans ([TRUE]
    and [FALSE]), 64-bit signed and unsigned integers, decoding [raw] gives [v] if
    and only if [v] is a value of the syntax (in the range of its machine type) and
    [raw] is the encoding of [v]: no value has two spellings and none is lost to
    overflow. [Uint32Codec] accepts exactly the decimal digits (leading zeros
    included) of a number below 2^32, and reads back what it writes. A time of the
    years 0 to 9999 is written by [GeneralizedTimeCodec] as a value that decodes to
    the same instant, to the nanosecond. *)
Theorem value_codecs_exact :
  exact_codec DirectoryStringCodec (fun s => s <> [] /\ utf8_Valid s = true) /\
  exact_codec IA5StringCodec (Forall (fun c => c < 128)) /\
  exact_codec NumericStringCodec (fun s => s <> [] /\ Forall (fun c => c = 32 \/ 48 <= c <= 57) s) /\
  exact_codec DNCodec (fun s => utf8_Valid s = true) /\
  exact_codec BoolCodec (fun _ => True) /\
  exact_codec Int64Codec (fun v => - 2 ^ 63 <= v < 2 ^ 63) /\
  exact_codec Uint64Codec (fun v => 0 <= v < 2 ^ 64) /\
  (forall raw v, vc_Decode Uint32Codec raw = Ok v <->
     raw <> [] /\ forallb isDigit raw = true /\ v = decimal raw /\ v < 2 ^ 32) /\
  (forall v, 0 <= v < 2 ^ 32 -> exists raw, vc_Encode Uint32Codec v = Ok raw /\ vc_Decode Uint32Codec raw = Ok v) /\
  (forall t, 0 <= Time_Year t <= 9999 -> 0 <= t_nanos t < 10 ^ 9 ->
     exists raw, vc_Encode GeneralizedTimeCodec t = Ok raw /\ vc_Decode GeneralizedTimeCodec raw = Ok t).
Proof.
  split_and!; [apply textCodec_exact..| | |apply Int64_exact|apply Uint64_exact|apply Uint32_exact| |apply generalized_time_roundtrip].
  - intros v. rewrite andb_true_iff, negb_true_iff, bool_decide_eq_false. done.
  - intros v. rewrite forallb_forall, Forall_forall. setoid_rewrite list_elem_of_In.
    apply forall_proper; intros c. split; intros H Hc; specialize (H Hc); lia.
  - intros v. rewrite andb_true_iff, negb_true_iff, bool_decide_eq_false, forallb_forall, Forall_forall.
    setoid_rewrite list_elem_of_In. split; intros [H1 H2]; split; try done;
      intros c Hc; [specialize (H1 c Hc)|specialize (H2 c Hc)]; lia.
  - by apply (checked_exact utf8_Valid _ (ErrorString "DN is not UTF-8") DNCodec id id).
  - intros raw []; cbn; repeat case_bool_decide; naive_solver.
  - intros v Hv. eexists. split; [reflexivity|]. by apply Uint32_written.
Qed.
