(* ===== verification/Model.v ===== *)
(** * The model mapping

    Models src/ldapmodel: typed attributes (attribute.go, decode.go), models and
    criteria (model.go), additions (add.go), modifications (modify.go) and queries
    (query.go), over the client of Client.v.

    The type parameter [M] that keeps attributes of different models apart has no
    run-time content and is left out. A model's [decode] is a function of the
    caller. A [DAO] is its model: the client is the [Executor] of the context, and
    the context of an operation is part of that executor's behaviour. *)

From S2P Require Import Prelude Wire Packet Reader Decoder Types Protocol Result Attributes.
From S2P Require Import Filter Operations Search Errors Client ModelCodecs.

(** ** Typed attributes *)

Record ModelAttribute (T : Type) := MkModelAttribute {
  at_name : bytes;
  at_key : AttributeKey;
  at_Codec : option (ValueCodec T)
}.
Arguments MkModelAttribute {T}.
Arguments at_name {T} _.
Arguments at_key {T} _.
Arguments at_Codec {T} _.

Definition noCodec {T} (a : ModelAttribute T) : error :=
  FormatError "ldapmodel: attribute %q has no codec" [at_name a].

Section attributes.
Context `{U : GoUnicode} {T : Type}.
Implicit Types (a : ModelAttribute T).

Definition NewAttribute (name : bytes) (codec : option (ValueCodec T)) : ModelAttribute T :=
  MkModelAttribute name (Key name) codec.

Definition decodeAt (a : ModelAttribute T) (raw : bytes) (index : Z) : result T :=
  match at_Codec a with
  | None => Err (noCodec a)
  | Some codec =>
      match vc_Decode codec raw with
      | Err err => Err (WrapError err "ldapmodel: decode %s value %d: %w")
      | Ok value => Ok value
      end
  end.
Definition ModelAttribute_Decode (a : ModelAttribute T) (raw : bytes) : result T := decodeAt a raw 0.

Fixpoint decodeValues (a : ModelAttribute T) (raw : list bytes) (i : Z) : result (list T) :=
  match raw with
  | [] => Ok []
  | r :: raw =>
      value ← decodeAt a r i;
      values ← decodeValues a raw (i + 1);
      Ok (value :: values)
  end.

(** The raw values of an attribute that is not there are nil. *)
Definition rawValues (a : ModelAttribute T) (entry : Entry) : list bytes :=
  match LookupKey (en_Attributes entry) (at_key a) with None => [] | Some attribute => a_Values attribute end.

Definition ModelAttribute_Values (a : ModelAttribute T) (entry : Entry) : result (list T) :=
  match at_Codec a with
  | None => Err (noCodec a)
  | Some _ => decodeValues a (rawValues a entry) 0
  end.

Definition ModelAttribute_Equal (a : ModelAttribute T) (value : T) : result Filter :=
  match at_Codec a with
  | None => Err (noCodec a)
  | Some codec =>
      match vc_Encode codec value with
      | Err err => Err (WrapError err "ldapmodel: encode %s assertion: %w")
      | Ok encoded => Ok (EqualBytes (at_name a) encoded)
      end
  end.
(** [None] is a panic. *)
Definition MustEqual (a : ModelAttribute T) (value : T) : option Filter :=
  match ModelAttribute_Equal a value with Ok filter => Some filter | Err _ => None end.

Fixpoint encodeValues (codec : ValueCodec T) (values : list T) : result (list bytes) :=
  match values with
  | [] => Ok []
  | value :: values =>
      match vc_Encode codec value with
      | Err err => Err (WrapError err "ldapmodel: encode %s value %d: %w")
      | Ok encoded => rest ← encodeValues codec values; Ok (encoded :: rest)
      end
  end.
Definition ModelAttribute_encode (a : ModelAttribute T) (values : list T) : result Attribute :=
  match at_Codec a with
  | None => Err (noCodec a)
  | Some codec => raw ← encodeValues codec values; Ok (MkAttribute (at_name a) raw [])
  end.

(** The entry [Set] leaves, and its error. *)
Definition ModelAttribute_Set (a : ModelAttribute T) (entry : option Entry) (values : list T)
    : option Entry * option error :=
  match entry with
  | None => (None, Some (ErrorString "ldapmodel: nil entry"))
  | Some e =>
      match ModelAttribute_encode a values with
      | Err err => (Some e, Some err)
      | Ok attribute => (Some (MkEntry (DN e) (Attributes_Set (en_Attributes e) attribute)), None)
      end
  end.

(** ** Cardinality *)

Definition RequiredMany (a : ModelAttribute T) (entry : Entry) : result (list T) :=
  if len (rawValues a entry) =? 0
  then Err (FormatError "ldapmodel: required attribute %q has no values" [at_name a])
  else ModelAttribute_Values a entry.

Definition RequiredOne (a : ModelAttribute T) (entry : Entry) : result T :=
  match rawValues a entry with
  | [value] => ModelAttribute_Decode a value
  | values => Err (FormatError "ldapmodel: required attribute %q has %d values" [at_name a; [len values]])
  end.

Definition OptionalOne (a : ModelAttribute T) (entry : Entry) : result (option T) :=
  match rawValues a entry with
  | [] => Ok None
  | [value] => v ← ModelAttribute_Decode a value; Ok (Some v)
  | values => Err (FormatError "ldapmodel: single-valued attribute %q has %d values" [at_name a; [len values]])
  end.
End attributes.

(** ** Models and criteria *)

Definition defaultPageSize : Z := 100.

Record Model (T : Type) := MkModel {
  m_baseDN : LDAPDN;
  m_scope : SearchScope;
  m_classes : list bytes;
  m_rdn : ModelAttribute bytes;
  m_filter : Filter;
  m_attributes : AttributeSelectors;
  m_decode : Entry -> result T
}.
Arguments MkModel {T}.
Arguments m_baseDN {T} _.
Arguments m_scope {T} _.
Arguments m_classes {T} _.
Arguments m_rdn {T} _.
Arguments m_filter {T} _.
Arguments m_attributes {T} _.
Arguments m_decode {T} _.

Definition NewModel {T} (baseDN : LDAPDN) (scope : SearchScope) (baseClasses : list bytes)
    (naming : ModelAttribute bytes) (attributes : AttributeSelectors) (decode : Entry -> result T) : Model T :=
  MkModel baseDN scope baseClasses naming
    (Filter_All (map (Equal (bs "objectClass")) baseClasses)) attributes decode.

Record Criterion := MkCriterion { cr_filter : Filter; cr_err : option error }.

Definition EqualCriterion {T} (a : ModelAttribute T) (value : T) : Criterion :=
  match ModelAttribute_Equal a value with
  | Ok filter => MkCriterion filter None
  | Err err => MkCriterion NilFilter (Some err)
  end.
Definition NewCriterion (filter : Filter) : Criterion := MkCriterion filter None.

(** ** Additions *)

(** [Assignment]: a failed encoding leaves the zero attribute. *)
Record Assignment := MkAssignment { as_wire : Attribute; as_err : option error }.

Definition SetAttribute {T} (a : ModelAttribute T) (values : list T) : Assignment :=
  match ModelAttribute_encode a values with
  | Ok wire => MkAssignment wire None
  | Err err => MkAssignment zero (Some err)
  end.

(** [strings.EqualFold] compares ASCII bytes; from the first other byte on it
    needs Go's tables of Unicode case folding, which are a parameter. *)
Class GoFold := { equalFoldUnicode : bytes -> bytes -> bool }.

Fixpoint EqualFold `{GoFold} (s t : bytes) : bool :=
  match s, t with
  | [], [] => true
  | sr :: s', tr :: t' =>
      if (sr >=? 0x80) || (tr >=? 0x80) then equalFoldUnicode s t
      else if tr =? sr then EqualFold s' t'
      else
        let lo := Z.min sr tr in
        let hi := Z.max sr tr in
        if in_range 65 90 lo && (hi =? lo + 32) then EqualFold s' t' else false
  | _, _ => false
  end.

(** The regular expression: a letter, then letters, digits and hyphens. *)
Definition isLetter (c : Z) : bool := in_range 65 90 c || in_range 97 122 c.
Definition rdnAttributeName (s : bytes) : bool :=
  match s with
  | [] => false
  | c :: s => isLetter c && forallb (fun c => isLetter c || isDigit c || (c =? 45)) s
  end.

Definition hex (d : Z) : Z := if d <? 10 then 48 + d else 87 + d.

(** Characters that are escaped anywhere: the quotation mark, plus, comma,
    semicolon, angle brackets, backslash and the equals sign. *)
Definition rdnSpecial : list Z := [34; 43; 44; 59; 60; 62; 92; 61].

Definition escapeByte (first last : bool) (b : Z) : bytes :=
  if (b <? 0x20) || (b =? 0x7f) then [92; hex (Z.shiftr b 4); hex (Z.land b 0xf)]
  else if existsb (Z.eqb b) rdnSpecial || (first && ((b =? 32) || (b =? 35))) || (last && (b =? 32)) then [92; b]
  else [b].
Fixpoint escapeRDN_loop (first : bool) (value : bytes) : bytes :=
  match value with
  | [] => []
  | b :: rest => escapeByte first (bool_decide (rest = [])) b ++ escapeRDN_loop false rest
  end.
Definition escapeRDNValue (value : bytes) : bytes := escapeRDN_loop true value.

Section dao.
Context `{U : GoUnicode, F : GoFold} {S H : Type} `{!Executor S H} {T : Type}.

(** The loop over the assignments of [Add]: the attributes it leaves. *)
Fixpoint applyAssignments (naming : bytes) (attributes : Attributes) (assignments : list Assignment) (i : Z)
    : result Attributes :=
  match assignments with
  | [] => Ok attributes
  | a :: assignments =>
      match as_err a with
      | Some err => Err (WrapError err "ldapmodel: assignment %d: %w")
      | None =>
          let type := a_Type (as_wire a) in
          if bool_decide (type = []) then Err (FormatError "ldapmodel: assignment %d has no attribute" [[i]])
          else
            let '(name, _, _) := Cut type in
            if EqualFold name (bs "objectClass") || bool_decide (name = bs "2.5.4.0")
            then Err (FormatError "ldapmodel: assignment %d: objectClass is defined by the model" [[i]])
            else if EqualFold name naming
            then Err (FormatError "ldapmodel: assignment %d: naming attribute %q is defined by the model" [[i]; naming])
            else if len (a_Values (as_wire a)) =? 0
            then Err (FormatError "ldapmodel: assignment %d: attribute %q has no values" [[i]; type])
            else applyAssignments naming (Attributes_Set attributes (as_wire a)) assignments (i + 1)
      end
  end.

(** The entry that [Add] sends, or its error before it sends anything. *)
Definition addEntry (d : Model T) (name : bytes) (assignments : list Assignment) : result Entry :=
  if len (m_classes d) =? 0 then Err (ErrorString "ldapmodel: model has no base object classes")
  else
    let naming := m_rdn d in
    if negb (rdnAttributeName (at_name naming)) || EqualFold (at_name naming) (bs "objectClass")
    then Err (ErrorString "ldapmodel: model has an invalid naming attribute")
    else
      initial ← ModelAttribute_encode naming [name];
      let value := hd [] (a_Values initial) in
      if negb (utf8_Valid value) then Err (ErrorString "ldapmodel: naming attribute encoded invalid UTF-8")
      else
        let dn := at_name naming ++ bs "=" ++ escapeRDNValue value in
        let dn := if bool_decide (m_baseDN d = []) then dn else dn ++ bs "," ++ m_baseDN d in
        let entry := Entry_Set (NewEntry dn) (bs "objectClass") (m_classes d) in
        let attributes := Attributes_Set (en_Attributes entry) initial in
        attributes ← applyAssignments (at_name naming) attributes assignments 0;
        Ok (MkEntry (DN entry) attributes).

Definition DAO_Add (d : Model T) (name : bytes) (assignments : list Assignment) : ST S (option clientError) := fun s =>
  match addEntry d name assignments with
  | Err err => (Some (ClientFailure (Plain err)), s)
  | Ok entry => Client_Add (Some entry) [] s
  end.

(** ** Modifications *)

Definition ErrEmptyChanges : error := ErrorString "ldapmodel: no changes to modify".

(** [ldapmodel.Change]. *)
Record ModelChange := MkModelChange { mc_wire : Change; mc_err : option error }.

Definition encodeChange {V} (a : ModelAttribute V) (operation : bytes -> list bytes -> Change) (values : list V)
    : ModelChange :=
  match at_Codec a with
  | None => MkModelChange zero (Some (noCodec a))
  | Some codec =>
      match encodeValues codec values with
      | Err err => MkModelChange zero (Some err)
      | Ok encoded => MkModelChange (operation (at_name a) encoded) None
      end
  end.
Definition ChangeAdd {V} (a : ModelAttribute V) (values : list V) : ModelChange := encodeChange a AddBytes values.
Definition ChangeDelete {V} (a : ModelAttribute V) (values : list V) : ModelChange := encodeChange a DeleteBytes values.
Definition ChangeReplace {V} (a : ModelAttribute V) (values : list V) : ModelChange := encodeChange a ReplaceBytes values.

Fixpoint wireChanges (changes : list ModelChange) (i : Z) : result (list Change) :=
  match changes with
  | [] => Ok []
  | change :: changes =>
      match mc_err change with
      | Some err => Err (WrapError err "ldapmodel: change %d: %w")
      | None =>
          if bool_decide (a_Type (ch_Modification (mc_wire change)) = [])
          then Err (FormatError "ldapmodel: change %d has no attribute" [[i]])
          else rest ← wireChanges changes (i + 1); Ok (mc_wire change :: rest)
      end
  end.

Definition DAO_Modify (dn : LDAPDN) (changes : list ModelChange) : ST S (option clientError) := fun s =>
  if len changes =? 0 then (Some (ClientFailure (Plain ErrEmptyChanges)), s)
  else
    match wireChanges changes 0 with
    | Err err => (Some (ClientFailure (Plain err)), s)
    | Ok wire => Client_Modify dn wire s
    end.

(** ** Queries *)

Definition ErrNotUnique : error := ErrorString "ldapmodel: result is not unique".

Record ResultSet := MkResultSet { rs_dao : Model T; rs_criteria : list Criterion }.

Definition DAO_Where (d : Model T) (first : Criterion) (rest : list Criterion) : ResultSet :=
  MkResultSet d (first :: rest).
Definition ResultSet_Where (r : ResultSet) (first : Criterion) (rest : list Criterion) : ResultSet :=
  MkResultSet (rs_dao r) (rs_criteria r ++ first :: rest).

Record entryStream := MkEntryStream {
  es_entries : Entries H;
  es_decode : Entry -> result T;
  es_value : T;
  es_err : option error
}.

Definition entryStream_Next (fuel : nat) (st : entryStream) : ST S (nextOutcome * entryStream) := fun s =>
  match es_err st with
  | Some _ => (Stopped, st, s)
  | None =>
      match Entries_Next fuel (es_entries st) s with
      | (Advanced, rows, s) =>
          match es_decode st (rows_entry rows) with
          | Err err => (Stopped, MkEntryStream rows (es_decode st) (es_value st) (Some err), s)
          | Ok value => (Advanced, MkEntryStream rows (es_decode st) value None, s)
          end
      | (outcome, rows, s) => (outcome, MkEntryStream rows (es_decode st) (es_value st) None, s)
      end
  end.

Definition entryStream_Err (st : entryStream) : option clientError :=
  match es_err st with
  | Some err => Some (ClientFailure (Plain err))
  | None => rows_err (es_entries st)
  end.

Fixpoint criteriaFilters (criteria : list Criterion) : result (list Filter) :=
  match criteria with
  | [] => Ok []
  | c :: criteria =>
      match cr_err c with
      | Some err => Err err
      | None => filters ← criteriaFilters criteria; Ok (cr_filter c :: filters)
      end
  end.

Definition queryRequest (d : Model T) (filters : list Filter) (sizeLimit pageSize : Z) : ClientSearchRequest :=
  MkClientSearch (m_baseDN d) (m_scope d) DerefNever sizeLimit 0 false
    (Filter_All (m_filter d :: filters)) (m_attributes d) pageSize.

Definition ResultSet_open `{!Zero T} (r : ResultSet) (sizeLimit pageSize : Z) : ST S (entryStream + clientError) := fun s =>
  match criteriaFilters (rs_criteria r) with
  | Err err => (inr (ClientFailure (Plain err)), s)
  | Ok filters =>
      match Client_Search (queryRequest (rs_dao r) filters sizeLimit pageSize) [] s with
      | (inr err, s) => (inr err, s)
      | (inl entries, s) => (inl (MkEntryStream entries (m_decode (rs_dao r)) zero None), s)
      end
  end.
Definition ResultSet_Stream `{!Zero T} (r : ResultSet) : ST S (entryStream + clientError) :=
  ResultSet_open r 0 defaultPageSize.

(** [errors.Join] of the body's error and the one of the deferred close: the
    errors that are not nil. *)
Definition joinErrors (err : option clientError) (closed : option cerror) : list clientError :=
  option_list err ++ option_list (ClientFailure <$> closed).

(** A terminal method: open, run the body, close. The body's outcome is [None]
    when a call of [Next] does not return. *)
Definition runQuery {A} `{!Zero T} (r : ResultSet) (sizeLimit pageSize : Z)
    (body : entryStream -> ST S (option (A * option clientError) * entryStream)) (failed : A)
    : ST S (option (A * list clientError)) := fun s =>
  match ResultSet_open r sizeLimit pageSize s with
  | (inr err, s) => (Some (failed, [err]), s)
  | (inl st, s) =>
      let '(res, st, s) := body st s in
      let '(closed, _, s) := Entries_Close (es_entries st) s in
      ((fun '(value, err) => (value, joinErrors err closed)) <$> res, s)
  end.

Fixpoint All_body (n fuel : nat) (values : list T) (st : entryStream)
    : ST S (option (list T * option clientError) * entryStream) := fun s =>
  match n with
  | O => (None, st, s)
  | Datatypes.S n =>
      match entryStream_Next fuel st s with
      | (Advanced, st, s) => All_body n fuel (values ++ [es_value st]) st s
      | (Stopped, st, s) => (Some (values, entryStream_Err st), st, s)
      | (_, st, s) => (None, st, s)
      end
  end.
Definition ResultSet_All `{!Zero T} (n fuel : nat) (r : ResultSet) : ST S (option (list T * list clientError)) :=
  runQuery r 0 defaultPageSize (All_body n fuel []) [].

Definition notFound : clientError := ClientFailure ErrNotFound.

Definition One_body `{!Zero T} (fuel : nat) (st : entryStream)
    : ST S (option (T * option clientError) * entryStream) := fun s =>
  match entryStream_Next fuel st s with
  | (Advanced, st, s) =>
      let value := es_value st in
      match entryStream_Next fuel st s with
      | (Advanced, st, s) => (Some (zero, Some (ClientFailure (Plain ErrNotUnique))), st, s)
      | (Stopped, st, s) =>
          (Some (match entryStream_Err st with Some err => (zero, Some err) | None => (value, None) end), st, s)
      | (_, st, s) => (None, st, s)
      end
  | (Stopped, st, s) =>
      (Some (zero, Some (match entryStream_Err st with Some err => err | None => notFound end)), st, s)
  | (_, st, s) => (None, st, s)
  end.
Definition ResultSet_One `{!Zero T} (fuel : nat) (r : ResultSet) : ST S (option (T * list clientError)) :=
  runQuery r 2 0 (One_body fuel) zero.

Definition First_body `{!Zero T} (fuel : nat) (st : entryStream)
    : ST S (option (T * option clientError) * entryStream) := fun s =>
  match entryStream_Next fuel st s with
  | (Advanced, st, s) => (Some (es_value st, None), st, s)
  | (Stopped, st, s) =>
      (Some (zero, Some (match entryStream_Err st with Some err => err | None => notFound end)), st, s)
  | (_, st, s) => (None, st, s)
  end.
Definition ResultSet_First `{!Zero T} (fuel : nat) (r : ResultSet) : ST S (option (T * list clientError)) :=
  runQuery r 1 0 (First_body fuel) zero.
End dao.
Arguments ResultSet T : clear implicits.
Arguments entryStream H T : clear implicits.
