(* ===== verification/ModelSafety.v ===== *)
(** * Correctness of the model mapping

    What Model.v guarantees: names survive escaping in a distinguished name,
    [Add] and [Modify] send exactly what they are given or nothing, and queries
    close their searches and return what the server holds. *)

From S2P Require Import Prelude Wire Packet Reader Decoder Types Protocol Result Attributes.
From S2P Require Import Filter Operations Search Errors Client ClientSafety ModelCodecs Model.

(** ** Distinguished names

    A reference reader of the attribute value at the start of the text, by the
    string form of RFC 4514: characters with the mark whether they were escaped,
    up to the comma or plus sign that ends the value. *)
Definition escapable (c : Z) : bool := existsb (Z.eqb c) [34; 43; 44; 59; 60; 62; 92; 32; 35; 61].
Definition unhex (c : Z) : option Z :=
  if in_range 48 57 c then Some (c - 48)
  else if in_range 97 102 c then Some (c - 87)
  else if in_range 65 70 c then Some (c - 55)
  else None.

Fixpoint rdnCharacters (s : bytes) : option (list (bool * Z) * bytes) :=
  match s with
  | [] => Some ([], [])
  | c :: s1 =>
      if (c =? 44) || (c =? 43) then Some ([], s)
      else if c =? 92 then
        match s1 with
        | [] => None
        | d :: s2 =>
            if escapable d then '(cs, rest) ← rdnCharacters s2; Some ((true, d) :: cs, rest)
            else
              match unhex d, s2 with
              | Some high, e :: s3 =>
                  low ← unhex e; '(cs, rest) ← rdnCharacters s3; Some ((true, 16 * high + low) :: cs, rest)
              | _, _ => None
              end
        end
      else if existsb (Z.eqb c) [0; 34; 59; 60; 62] then None
      else '(cs, rest) ← rdnCharacters s1; Some ((false, c) :: cs, rest)
  end.

(** A space or number sign at the start, and a space at the end, are escaped. *)
Definition badLead (cs : list (bool * Z)) : bool :=
  match cs with (false, c) :: _ => (c =? 32) || (c =? 35) | _ => false end.
Definition badTrail (cs : list (bool * Z)) : bool :=
  match last cs with Some (false, c) => c =? 32 | _ => false end.
Definition rdnValue (s : bytes) : option (bytes * bytes) :=
  '(cs, rest) ← rdnCharacters s;
  if badLead cs || badTrail cs then None else Some (map snd cs, rest).

Definition ends_value (rest : bytes) : Prop :=
  match rest with [] => True | c :: _ => c = 44 \/ c = 43 end.

Definition escaped (first last : bool) (b : Z) : bool := negb (Nat.eqb (length (escapeByte first last b)) 1).
Fixpoint escapedCharacters (first : bool) (value : bytes) : list (bool * Z) :=
  match value with
  | [] => []
  | b :: rest => (escaped first (bool_decide (rest = [])) b, b) :: escapedCharacters false rest
  end.

Lemma escapeByte_read first last b s : is_byte b ->
  rdnCharacters (escapeByte first last b ++ s) = '(cs, rest) ← rdnCharacters s; Some ((escaped first last b, b) :: cs, rest).
Proof.
  intros Hb. unfold escaped, escapeByte. destruct (_ || (b =? 0x7f)) eqn:Hctl.
  - byte_enum (fun b => negb (escapable (hex (Z.shiftr b 4))) && bool_decide (unhex (hex (Z.shiftr b 4)) = Some (Z.shiftr b 4))
      && bool_decide (unhex (hex (Z.land b 0xf)) = Some (Z.land b 0xf)) && (16 * Z.shiftr b 4 + Z.land b 0xf =? b)) b.
    cbn [app rdnCharacters]. zbool. apply negb_true_iff in H. apply bool_decide_eq_true in H1, H2.
    rewrite H, H1. cbn. rewrite H2. cbn. by rewrite H0.
  - destruct (_ || _ || _) eqn:Hs.
    + assert (escapable b = true) as He.
      { unfold escapable, rdnSpecial in *. cbn in *. destruct first, last; cbn in *; lia. }
      cbn [app rdnCharacters]. rewrite He. done.
    + cbn in Hs. cbn [app rdnCharacters].
      destruct ((b =? 44) || (b =? 43)) eqn:?; [exfalso; lia|]. destruct (b =? 92) eqn:?; [exfalso; lia|].
      destruct (existsb _ _) eqn:Hx; [exfalso; cbn in Hx; lia|]. done.
Qed.

Lemma escapeRDN_read value rest : Forall is_byte value -> ends_value rest -> forall first,
  rdnCharacters (escapeRDN_loop first value ++ rest) = Some (escapedCharacters first value, rest).
Proof.
  intros Hv Hr. induction Hv as [|b value Hb Hv IH]; intros first; cbn [escapeRDN_loop escapedCharacters].
  - destruct rest as [|c rest]; [done|]. cbn [app rdnCharacters]. cbn in Hr.
    destruct (_ || _) eqn:?; [done|lia].
  - by rewrite <- app_assoc, escapeByte_read, IH.
Qed.

Lemma escaped_lead last b : escaped true last b = false -> ((b =? 32) || (b =? 35)) = false.
Proof.
  unfold escaped, escapeByte. destruct (_ || (b =? 0x7f)); [done|]. cbn [andb].
  destruct ((b =? 32) || (b =? 35)); [|done]. by rewrite orb_true_r.
Qed.

Lemma escaped_trail first b : escaped first true b = false -> (b =? 32) = false.
Proof.
  unfold escaped, escapeByte. destruct (_ || (b =? 0x7f)); [done|]. cbn [andb].
  destruct (b =? 32); [|done]. by rewrite !orb_true_r.
Qed.

Lemma escaped_snd value : forall first, map snd (escapedCharacters first value) = value.
Proof. induction value as [|b value IH]; intros first; cbn; [done|]. by rewrite IH. Qed.

Lemma escaped_badTrail value : forall first, badTrail (escapedCharacters first value) = false.
Proof.
  induction value as [|b value IH]; intros first; [done|]. cbn [escapedCharacters].
  destruct value as [|b' value].
  - cbn. destruct (escaped first true b) eqn:?; [done|]. by eapply escaped_trail.
  - specialize (IH false). unfold badTrail in *. exact IH.
Qed.

(** Escaping is read back, and what follows the value stays apart from it. *)
Lemma escape_read value rest : Forall is_byte value -> ends_value rest ->
  rdnValue (escapeRDNValue value ++ rest) = Some (value, rest).
Proof.
  intros Hv Hr. unfold rdnValue, escapeRDNValue. rewrite escapeRDN_read by done. cbn [mbind option_bind].
  rewrite escaped_badTrail, escaped_snd, orb_false_r. assert (badLead (escapedCharacters true value) = false) as ->; [|done].
  destruct value as [|b value]; [done|]. cbn. destruct (escaped _ _ b) eqn:?; [done|]. by eapply escaped_lead.
Qed.

(** ** Additions *)

(** Case folding and keys of ASCII text. *)
Lemma EqualFold_lower `{GoFold} s : forall t, isASCII s = true -> isASCII t = true ->
  EqualFold s t = bool_decide (map lowerByte s = map lowerByte t).
Proof.
  unfold isASCII. induction s as [|a s IH]; intros [|b t] Hs Ht; [done..|].
  cbn [EqualFold map]. cbn in Hs, Ht. zbool.
  destruct (_ || _) eqn:Hn; [lia|]. destruct (b =? a) eqn:Hab.
  - zbool. subst. rewrite IH by done. apply bool_decide_ext. split; [by intros ->|by intros [= ->]].
  - zbool. destruct (_ && _) eqn:Hc.
    + assert (lowerByte a = lowerByte b) as ->.
      { unfold lowerByte, in_range in *. case_ifs; lia. }
      rewrite IH by done. apply bool_decide_ext. split; [by intros ->|by intros [= ->]].
    + symmetry. apply bool_decide_eq_false. intros [= Hl _]. revert Hl. unfold lowerByte, in_range in *. case_ifs; lia.
Qed.

Lemma name_base_lower d : name_base (map lowerByte d) = map lowerByte (name_base d).
Proof.
  unfold name_base. induction d as [|b d IH]; cbn; [done|].
  assert ((lowerByte b =? 59) = (b =? 59)) as -> by (unfold lowerByte, in_range; case_ifs; lia).
  destruct (b =? 59); [done|]. destruct (Cut d) as [[p r] f], (Cut (map lowerByte d)) as [[p' r'] f']. cbn in *. by rewrite IH.
Qed.

Lemma name_base_ascii d : isASCII d = true -> isASCII (name_base d) = true.
Proof.
  unfold isASCII, name_base. induction d as [|b d IH]; cbn; [done|]. intros. zbool.
  destruct (b =? 59); [done|]. destruct (Cut d) as [[p r] f]. cbn in *. rewrite IH by done. lia.
Qed.

Section additions.
Context `{U : GoUnicode, F : GoFold}.

Lemma Key_fold d1 d2 : isASCII d1 = true -> isASCII d2 = true -> Key d1 = Key d2 ->
  EqualFold (name_base d1) (name_base d2) = true.
Proof.
  intros H1 H2 Hk. rewrite EqualFold_lower by (by apply name_base_ascii). apply bool_decide_eq_true.
  rewrite <- !name_base_lower. apply (f_equal normalized) in Hk. rewrite !Key_normal in Hk.
  unfold ToLower in Hk. rewrite H1, H2 in Hk. apply (f_equal Split) in Hk. rewrite !Key_spec_split in Hk. by injection Hk.
Qed.

Lemma spec_lookup_set_ne l x key : key_of x <> key -> spec_lookup (spec_set l x) key = spec_lookup l key.
Proof.
  intros Hne. unfold spec_set, spec_lookup. destruct (has_key l (key_of x)).
  - induction l as [|y l IH]; cbn; [done|]. rewrite IH. repeat case_bool_decide; congruence.
  - induction l as [|y l IH]; cbn; [by rewrite bool_decide_eq_false_2|]. by rewrite IH.
Qed.

Lemma spec_lookup_sets xs key : Forall (fun x => key_of x <> key) xs -> forall l,
  spec_lookup (foldl spec_set l xs) key = spec_lookup l key.
Proof. induction 1 as [|x xs Hx Hxs IH]; intros l; cbn [foldl]; [done|]. by rewrite IH, spec_lookup_set_ne. Qed.

(** What [Add] requires of an assignment, and of the whole call: [value] is the
    encoded name. *)
Definition assignment_ok (naming : bytes) (a : Assignment) : Prop :=
  as_err a = None /\ a_Type (as_wire a) <> [] /\ a_Values (as_wire a) <> [] /\
  EqualFold (name_base (a_Type (as_wire a))) (bs "objectClass") = false /\
  name_base (a_Type (as_wire a)) <> bs "2.5.4.0" /\
  EqualFold (name_base (a_Type (as_wire a))) naming = false.

Record add_ok {T} (d : Model T) (name : bytes) (assignments : list Assignment) (value : bytes) : Prop := {
  ok_classes : m_classes d <> [];
  ok_naming : rdnAttributeName (at_name (m_rdn d)) = true;
  ok_notClass : EqualFold (at_name (m_rdn d)) (bs "objectClass") = false;
  ok_value : exists c, at_Codec (m_rdn d) = Some c /\ vc_Encode c name = Ok value;
  ok_utf8 : utf8_Valid value = true;
  ok_assignments : Forall (assignment_ok (at_name (m_rdn d))) assignments
}.

Definition objectClasses {T} (d : Model T) : Attribute := MkAttribute (bs "objectClass") (m_classes d) [].
Definition namingAttribute {T} (d : Model T) (value : bytes) : Attribute := MkAttribute (at_name (m_rdn d)) [value] [].

Lemma Set_refines a x : store_ok a -> store_ok (Attributes_Set a x) /\ items (Attributes_Set a x) = spec_set (items a) x.
Proof. exact (edit_refines a (EditSet x)). Qed.

Lemma applyAssignments_exact naming assignments : forall a i,
  (Forall (assignment_ok naming) assignments /\
   applyAssignments naming a assignments i = Ok (foldl Attributes_Set a (map as_wire assignments))) \/
  (~ Forall (assignment_ok naming) assignments /\ exists err, applyAssignments naming a assignments i = Err err).
Proof.
  unfold assignment_ok. induction assignments as [|x xs IH]; intros a i; [by left|]. rewrite Forall_cons. cbn [applyAssignments].
  destruct (as_err x); [right; naive_solver|]. case_bool_decide; [right; naive_solver|].
  unfold name_base in *. destruct (Cut (a_Type (as_wire x))) as [[base r] f]. cbn [fst].
  destruct (EqualFold base (bs "objectClass")); [right; naive_solver|]. case_bool_decide; [right; naive_solver|].
  cbn [orb]. destruct (EqualFold base naming); [right; naive_solver|].
  destruct (len (a_Values (as_wire x)) =? 0) eqn:Hl.
  - apply Z.eqb_eq, len_zero in Hl. right. naive_solver.
  - rewrite Z.eqb_neq, len_zero in Hl.
    destruct (IH (Attributes_Set a (as_wire x)) (i + 1)) as [[H1 H2]|[H1 H2]]; [left|right]; naive_solver.
Qed.

Lemma sets_refine xs : forall a, store_ok a ->
  store_ok (foldl Attributes_Set a xs) /\ items (foldl Attributes_Set a xs) = foldl spec_set (items a) xs.
Proof.
  induction xs as [|x xs IH]; intros a Ha; [done|]. cbn [foldl]. destruct (Set_refines a x Ha) as [H1 <-]. by apply IH.
Qed.

Lemma naming_ascii s : rdnAttributeName s = true -> isASCII s = true /\ name_base s = s.
Proof.
  assert (forall s, forallb (fun c => isLetter c || isDigit c || (c =? 45)) s = true -> isASCII s = true /\ name_base s = s) as Hs.
  { clear s. unfold isASCII, name_base. induction s as [|c s IH]; cbn; [done|]. intros Hc. apply andb_true_iff in Hc as [Hc Hcs].
    destruct (IH Hcs) as [-> Hb]. unfold isLetter, isDigit, in_range in Hc. destruct (c =? 59) eqn:?; [lia|].
    destruct (Cut s) as [[p r] f]. cbn in *. rewrite Hb. split; [lia|done]. }
  intros Hn. apply Hs. destruct s as [|c s]; [done|]. cbn in Hn. apply andb_true_iff in Hn as [H1 H2].
  cbn [forallb]. by rewrite H1, H2.
Qed.

Lemma addEntry_exact {T} (d : Model T) name assignments :
  (exists value, add_ok d name assignments value /\ addEntry d name assignments =
     Ok (MkEntry (at_name (m_rdn d) ++ bs "=" ++ escapeRDNValue value ++
                  (if bool_decide (m_baseDN d = []) then [] else bs "," ++ m_baseDN d))
          (foldl Attributes_Set (Attributes_Set (Attributes_Set None (objectClasses d)) (namingAttribute d value))
             (map as_wire assignments)))) \/
  ((forall value, ~ add_ok d name assignments value) /\ exists err, addEntry d name assignments = Err err).
Proof.
  unfold addEntry, ModelAttribute_encode.
  destruct (len (m_classes d) =? 0) eqn:Hc.
  { apply Z.eqb_eq, len_zero in Hc. right. split; [by intros v []|eauto]. }
  apply Z.eqb_neq in Hc. rewrite len_zero in Hc.
  destruct (rdnAttributeName (at_name (m_rdn d))) eqn:Hn; cbn [negb orb]; [|right; split; [intros v []; congruence|eauto]].
  destruct (EqualFold (at_name (m_rdn d)) (bs "objectClass")) eqn:Hf; [right; split; [intros v []; congruence|eauto]|].
  destruct (at_Codec (m_rdn d)) as [c|] eqn:Hcd; [|right; split; [intros v [_ _ _ (c' & ? & ?) _ _]; congruence|eauto]].
  cbn [encodeValues]. destruct (vc_Encode c name) as [value|e] eqn:He; [|right; split; [intros v [_ _ _ (c' & ? & ?) _ _]; congruence|eauto]].
  cbn [mbind result_bind hd a_Values].
  destruct (utf8_Valid value) eqn:Hu; [|right; split; [intros v [_ _ _ (c' & ? & ?) ? _]; congruence|eauto]].
  cbn [negb]. unfold Entry_Set. cbn [DN NewEntry en_Attributes].
  destruct (applyAssignments_exact (at_name (m_rdn d)) assignments
    (Attributes_Set (Attributes_Set None (objectClasses d)) (namingAttribute d value)) 0) as [[Ha Happ]|[Ha [err Happ]]].
  - left. exists value. split; [by constructor; eauto|]. unfold objectClasses, namingAttribute in Happ. rewrite Happ. cbn [mbind result_bind].
    unfold objectClasses, namingAttribute. case_bool_decide; rewrite ?app_nil_r, <- ?app_assoc; done.
  - right. unfold objectClasses, namingAttribute in Happ. rewrite Happ. split; [by intros v []|eauto].
Qed.

(** C17. [Add] sends exactly the entry it describes, or nothing. If the model has
    object classes and a naming attribute, the codec encodes the name as UTF-8 and
    every assignment is valid, the client is asked to add one entry: its DN is the
    naming attribute with a value that an RFC 4514 reader reads back as the encoded
    name, whatever bytes the name has, with the base DN after it; its attributes
    are the object classes, the naming attribute and the assignments, later ones
    replacing earlier ones; and for assignments with ASCII descriptions, the object
    classes and the naming value are those of the model, in whatever case or with
    whatever options an assignment is spelled. If anything of that does not hold,
    there is an error and the executor is not used. *)
Theorem dao_add_exact {S H T} `{!Executor S H} (d : Model T) name assignments (s : S) :
  (exists value entry text rest, add_ok d name assignments value /\
     DAO_Add d name assignments s = Client_Add (Some entry) [] s /\
     DN entry = at_name (m_rdn d) ++ bs "=" ++ text /\
     (rest = [] /\ m_baseDN d = [] \/ rest = bs "," ++ m_baseDN d) /\
     (Forall is_byte value -> rdnValue text = Some (value, rest)) /\
     items (en_Attributes entry) = foldl spec_set [objectClasses d; namingAttribute d value] (map as_wire assignments) /\
     (Forall (fun a => isASCII (a_Type (as_wire a)) = true) assignments ->
      Lookup (en_Attributes entry) (bs "objectClass") = Some (objectClasses d) /\
      Lookup (en_Attributes entry) (at_name (m_rdn d)) = Some (namingAttribute d value))) \/
  ((forall value, ~ add_ok d name assignments value) /\ exists err, DAO_Add d name assignments s = (Some err, s)).
Proof.
  unfold DAO_Add. destruct (addEntry_exact d name assignments) as [(value & Hok & ->)|[Hno [err ->]]]; [left|right; eauto].
  set (base := if bool_decide _ then _ else _). set (attributes := foldl _ _ _).
  eexists value, _, (escapeRDNValue value ++ base), base. split; [done|]. split; [reflexivity|]. split; [done|].
  split; [subst base; case_bool_decide; auto|].
  split; [intros Hb; apply escape_read; [done|]; subst base; case_bool_decide; cbn; auto|].
  assert (Key (bs "objectClass") <> Key (at_name (m_rdn d))) as Hne.
  { destruct Hok as [_ Hn Hf _ _ _]. apply naming_ascii in Hn as [Ha Hb]. intros Hk.
    symmetry in Hk. apply Key_fold in Hk; [|done..]. rewrite Hb in Hk.
    change (name_base (bs "objectClass")) with (bs "objectClass") in Hk. congruence. }
  destruct (Set_refines None (objectClasses d) I) as [H1 I1]. destruct (Set_refines _ (namingAttribute d value) H1) as [H2 I2].
  destruct (sets_refine (map as_wire assignments) _ H2) as [H3 I3]. fold attributes in H3, I3.
  rewrite I2, I1 in I3. change (spec_set (items None) (objectClasses d)) with [objectClasses d] in I3.
  rewrite spec_set_fresh in I3 by (cbn; intros ?%list_elem_of_singleton; by apply Hne). cbn [en_Attributes app] in *.
  split; [done|]. intros Hascii. unfold Lookup. rewrite !LookupKey_refines, I3 by done.
  assert (forall key, (key = bs "objectClass" \/ key = at_name (m_rdn d)) ->
    Forall (fun x => key_of x <> Key key) (map as_wire assignments)) as Hkeys.
  { intros key Hkey. apply Forall_map. destruct Hok as [_ Hn _ _ _ Hall]. apply naming_ascii in Hn as [Ha Hb].
    apply Forall_forall. intros x Hin. rewrite Forall_forall in Hascii, Hall.
    specialize (Hascii x Hin). specialize (Hall x Hin). revert Hascii Hall.
    intros Hx (_ & _ & _ & Hc & _ & Hm) Hk. unfold key_of in Hk.
    apply Key_fold in Hk; [|done|by destruct Hkey as [-> | ->]]. destruct Hkey as [-> | ->].
    { change (name_base (bs "objectClass")) with (bs "objectClass") in Hk. congruence. }
    rewrite Hb in Hk. congruence. }
  rewrite !spec_lookup_sets by auto. unfold spec_lookup. cbn. unfold key_of. cbn.
  rewrite bool_decide_eq_true_2 by done. rewrite bool_decide_eq_false_2 by done. by rewrite bool_decide_eq_true_2.
Qed.
End additions.

(** ** Typed values *)

Section values.
Context `{U : GoUnicode} {T : Type} (c : ValueCodec T).
Hypothesis decode_encode : forall v raw, vc_Encode c v = Ok raw -> vc_Decode c raw = Ok v.

Lemma spec_lookup_set_eq l x : spec_lookup (spec_set l x) (key_of x) = Some x.
Proof.
  unfold spec_set, spec_lookup, has_key. induction l as [|y l IH]; cbn; [by rewrite bool_decide_eq_true_2|].
  destruct (bool_decide (key_of y = key_of x)) eqn:Hy; cbn.
  - by rewrite bool_decide_eq_true_2.
  - destruct (existsb _ l); cbn; rewrite Hy; exact IH.
Qed.

Lemma decode_encoded name values : forall raw i, encodeValues c values = Ok raw ->
  decodeValues (NewAttribute name (Some c)) raw i = Ok values.
Proof.
  induction values as [|v values IH]; intros raw i; cbn [encodeValues]; [by intros [= <-]|].
  destruct (vc_Encode c v) as [r|] eqn:Hv; [|done]. destruct (encodeValues c values) as [rs|]; [|done]. intros [= <-].
  cbn [decodeValues]. unfold decodeAt. cbn [at_Codec NewAttribute]. rewrite (decode_encode _ _ Hv). cbn.
  by rewrite (IH rs (i + 1) eq_refl).
Qed.

(** Values that were set are read back, under any spelling of the attribute, and
    other attributes keep theirs. *)
Lemma set_values_read name e values e' : store_ok (en_Attributes e) ->
  ModelAttribute_Set (NewAttribute name (Some c)) (Some e) values = (Some e', None) ->
  store_ok (en_Attributes e') /\ DN e' = DN e /\
  (forall spelled, Key spelled = Key name -> ModelAttribute_Values (NewAttribute spelled (Some c)) e' = Ok values) /\
  (forall other, Key other <> Key name -> Lookup (en_Attributes e') other = Lookup (en_Attributes e) other).
Proof.
  intros Hok. unfold ModelAttribute_Set, ModelAttribute_encode. cbn [at_Codec NewAttribute at_name].
  destruct (encodeValues c values) as [raw|] eqn:Henc; [|done]. cbn [mbind result_bind]. intros [= <-].
  set (x := MkAttribute name raw []). destruct (Set_refines _ x Hok) as [Hok' Hit]. cbn [en_Attributes DN].
  split_and!; [done|done|..].
  - intros spelled Hk. unfold ModelAttribute_Values, rawValues. cbn [at_Codec NewAttribute at_key en_Attributes].
    rewrite Hk. change (Key name) with (key_of x). rewrite LookupKey_refines, Hit, spec_lookup_set_eq by done.
    by apply decode_encoded.
  - intros other Hk. unfold Lookup. rewrite !LookupKey_refines, Hit, spec_lookup_set_ne; [done|by apply not_eq_sym|done..].
Qed.
End values.

(** ** Modifications *)

(** What [Modify] requires of its changes. *)
Definition change_ok (c : ModelChange) : Prop := mc_err c = None /\ a_Type (ch_Modification (mc_wire c)) <> [].

Lemma wireChanges_exact changes : forall i,
  (Forall change_ok changes /\ wireChanges changes i = Ok (map mc_wire changes)) \/
  (~ Forall change_ok changes /\ exists err, wireChanges changes i = Err err).
Proof.
  unfold change_ok. induction changes as [|c cs IH]; intros i; [by left|]. rewrite Forall_cons. cbn [wireChanges].
  destruct (mc_err c); [right; naive_solver|]. case_bool_decide; [right; naive_solver|].
  destruct (IH (i + 1)) as [[H1 ->]|[H1 [e ->]]]; [left|right]; naive_solver.
Qed.

(** [Modify] sends all changes in the caller's order, or nothing. *)
Lemma dao_modify_exact {S H} `{!Executor S H} dn changes (s : S) :
  (changes <> [] /\ Forall change_ok changes /\ DAO_Modify dn changes s = Client_Modify dn (map mc_wire changes) s) \/
  (~ (changes <> [] /\ Forall change_ok changes) /\ exists err, DAO_Modify dn changes s = (Some err, s)).
Proof.
  unfold DAO_Modify. destruct (len changes =? 0) eqn:Hl.
  - apply Z.eqb_eq, len_zero in Hl. right. naive_solver.
  - apply Z.eqb_neq in Hl. rewrite len_zero in Hl.
    destruct (wireChanges_exact changes 0) as [[H1 ->]|[H1 [e ->]]]; [left|right]; naive_solver.
Qed.

(** ** Queries *)

Section queries.
Context `{U : GoUnicode} {S H T : Type} {E : Executor S H} `{!EqDecision H, !Zero T}.
#[local] Existing Instance traced.

Definition owns (st : entryStream H T) (w : S * list (event H)) : Prop :=
  holds_stream (es_entries st) w /\ live_rows (es_entries st).

Lemma entryStream_owns fuel st w : owns st w ->
  let '(_, st', w') := entryStream_Next fuel st w in owns st' w'.
Proof.
  intros [Hh Hl]. unfold entryStream_Next. destruct (es_err st); [done|].
  pose proof (next_holds fuel (es_entries st) w Hl Hh) as Hn.
  destruct (Entries_Next fuel (es_entries st) w) as [[o rows] w'].
  destruct Hn as (Hh' & _ & Hl'). destruct o; try done. by destruct (es_decode st _).
Qed.

(** The body of a query keeps the search it was given. *)
Definition keeps_search {A} (body : entryStream H T -> ST (S * list (event H)) (option (A * option clientError) * entryStream H T))
  : Prop := forall st w, owns st w -> let '(_, st', w') := body st w in owns st' w'.

Ltac next_owned :=
  match goal with
  | Ho : owns ?st ?w |- context [entryStream_Next ?fuel ?st ?w] =>
      let Hn := fresh in pose proof (entryStream_owns fuel st w Ho) as Hn;
      destruct (entryStream_Next fuel st w) as [[[] ?st'] ?w']; clear Ho; cbn in Hn
  end.

Lemma All_keeps n fuel : forall values, keeps_search (All_body n fuel values).
Proof.
  unfold keeps_search. induction n as [|n IH]; intros values st w Ho; cbn [All_body]; [done|]. next_owned; try done.
  by apply IH.
Qed.

Lemma One_keeps fuel : keeps_search (One_body fuel).
Proof. intros st w Ho. unfold One_body. next_owned; try done. by next_owned. Qed.

Lemma First_keeps fuel : keeps_search (First_body fuel).
Proof. intros st w Ho. unfold First_body. by next_owned. Qed.

Lemma runQuery_closes {A} r sizeLimit pageSize body (failed : A) (s : S) : keeps_search body ->
  let '(_, (_, log)) := runQuery r sizeLimit pageSize body failed (s, []) in tracked log = Some None.
Proof.
  intros Hk. unfold runQuery, ResultSet_open. destruct (criteriaFilters _) as [filters|e]; [|done].
  unfold Client_Search. set (rows := MkEntries _ _ _ _ _ _ _ _ _).
  assert (holds_stream rows (s, [])) as Hh by (split; done).
  pose proof (startPage_holds [] rows (s, []) eq_refl Hh) as Hp.
  destruct (startPage [] rows (s, [])) as [[[e|] r1] [s1 log1]]; destruct Hp as (Hh1 & Hs1 & Hc1).
  { destruct Hh1 as [Ht _]. by rewrite Hs1 in Ht. }
  set (st := MkEntryStream _ _ _ _). assert (owns st (s1, log1)) as Ho by (split; [done|split; [done|by right; right]]).
  specialize (Hk st (s1, log1) Ho). destruct (body st (s1, log1)) as [[res st2] w2]. destruct Hk as [Hh2 [Hcl _]].
  unfold Entries_Close. rewrite Hcl.
  pose proof (closeStream_holds (set_done true (es_entries st2)) w2) as Hc. destruct (closeStream _ w2) as [[e r3] [s3 log3]].
  destruct Hc as ([Ht _] & Hs & _); [by eapply holds_same|]. by rewrite Hs in Ht.
Qed.
End queries.

(** [All] at a server that holds pages. *)
Section all.
Context `{U : GoUnicode} {T : Type} `{!Zero T}.

(** The values of the entries, if all of them decode. *)
Fixpoint decodeAll (decode : Entry -> result T) (entries : list Entry) : result (list T) :=
  match entries with
  | [] => Ok []
  | e :: entries => v ← decode e; vs ← decodeAll decode entries; Ok (v :: vs)
  end.

Lemma All_serves n : forall fuel values (st : entryStream unit T) sv items p rest vs,
  serving (es_entries st) sv items p rest -> es_err st = None ->
  decodeAll (es_decode st) (page_entries (items ++ all_items rest)) = Ok vs ->
  (length (items ++ all_items rest) < n)%nat -> (length (items ++ all_items rest) + length rest < fuel)%nat ->
  exists st' sv', All_body n fuel values st sv = (Some (values ++ vs, None), st', sv').
Proof.
  induction n as [|n IH]; intros fuel values st sv items p rest vs Hs He Hd Hn Hf; [lia|]. cbn [All_body].
  unfold entryStream_Next, Entries_Next. rewrite He, (sg_notDone _ _ _ _ _ Hs), (sg_err _ _ _ _ _ Hs). cbn [orb].
  pose proof (Entries_loop_serves fuel _ sv items p rest Hs Hf) as Hl.
  destruct (Entries_loop fuel (es_entries st) sv) as [[outcome rows1] sv1].
  destruct Hl as [(-> & items' & p' & rest' & skipped & Hs' & Hent & _ & _ & Hlt & Hlt')|(-> & Herr & _ & Hent & _)].
  - rewrite Hent in Hd. cbn [decodeAll] in Hd. destruct (es_decode st (rows_entry rows1)) as [v|e] eqn:Hv; [|done].
    cbn in Hd. destruct (decodeAll (es_decode st) _) as [vs'|] eqn:Hvs; [|done]. cbn in Hd. injection Hd as <-.
    destruct (IH fuel (values ++ [v]) (MkEntryStream rows1 (es_decode st) v None) sv1 items' p' rest' vs')
      as (st2 & sv2 & Heq); try done; [lia|lia|].
    exists st2, sv2. cbn [es_value]. rewrite Heq. by rewrite <- app_assoc.
  - rewrite Hent in Hd. injection Hd as <-. eexists _, _. rewrite app_nil_r. cbn. rewrite Herr. done.
Qed.

Lemma All_complete (r : ResultSet T) filters pages n fuel values :
  criteriaFilters (rs_criteria r) = Ok filters -> pages <> [] -> pages_ok pages ->
  decodeAll (m_decode (rs_dao r)) (page_entries (all_items pages)) = Ok values ->
  (length (all_items pages) < n)%nat -> (length (all_items pages) + length pages <= fuel)%nat ->
  exists sv, ResultSet_All n fuel r (MkServer defaultPageSize [] pages []) = (Some (values, []), sv).
Proof.
  intros Hf Hne Hok Hd Hn Hfuel. destruct pages as [|p rest]; [done|].
  unfold ResultSet_All, runQuery, ResultSet_open, Client_Search. rewrite Hf.
  set (rows := MkEntries _ _ _ _ _ _ _ _ _).
  destruct (startPage_serves rows (MkServer defaultPageSize [] (p :: rest) []) p rest [])
    as (rows1 & sv1 & -> & Hs & _); try done.
  change (all_items (p :: rest)) with (pg_items p ++ all_items rest) in *. cbn [length] in Hfuel.
  set (st := MkEntryStream _ _ _ _).
  destruct (All_serves n fuel [] st sv1 (pg_items p) p rest values) as (st2 & sv2 & ->); try done; [lia|].
  unfold Entries_Close, closeStream, DecodedStream_Close.
  destruct (rows_closed (es_entries st2)); [by eexists|]. cbn [set_done rows_stream].
  destruct (rows_stream (es_entries st2)) as [d|]; [|by eexists]. cbn. destruct (ds_closed d); by eexists.
Qed.
End all.

(** C18. A query owns its search. Whatever the executor answers and however the
    iteration ends, [All], [One] and [First] use one response stream at a time and
    leave none open. And [All] is complete: at a server that holds pages of entries
    which the model decodes, it returns exactly the decoded values of all pages, in
    order and without an error, once the calls and responses it may take reach the
    numbers the server holds. *)
Theorem query_owns_search `{U : GoUnicode} {T} `{!Zero T} (r : ResultSet T) :
  (forall S H (E : Executor S H) `(!EqDecision H) n fuel (s : S),
     tracked (snd (snd (ResultSet_All (H := H) (Executor0 := traced E) n fuel r (s, [])))) = Some None /\
     tracked (snd (snd (ResultSet_One (H := H) (Executor0 := traced E) fuel r (s, [])))) = Some None /\
     tracked (snd (snd (ResultSet_First (H := H) (Executor0 := traced E) fuel r (s, [])))) = Some None) /\
  (forall filters pages n fuel values,
     criteriaFilters (rs_criteria r) = Ok filters -> pages <> [] -> pages_ok pages ->
     decodeAll (m_decode (rs_dao r)) (page_entries (all_items pages)) = Ok values ->
     (length (all_items pages) < n)%nat -> (length (all_items pages) + length pages <= fuel)%nat ->
     exists sv, ResultSet_All n fuel r (MkServer defaultPageSize [] pages []) = (Some (values, []), sv)).
Proof.
  split; [|apply All_complete]. intros S H E Heq n fuel s.
  pose proof (runQuery_closes r 0 defaultPageSize (All_body n fuel []) [] s (All_keeps n fuel [])) as H1.
  pose proof (runQuery_closes r 2 0 (One_body fuel) zero s (One_keeps fuel)) as H2.
  pose proof (runQuery_closes r 1 0 (First_body fuel) zero s (First_keeps fuel)) as H3.
  unfold ResultSet_All, ResultSet_One, ResultSet_First.
  repeat match goal with H : context [runQuery ?a ?b ?c ?d ?e ?f] |- _ => destruct (runQuery a b c d e f) as [? [? ?]] end.
  done.
Qed.

#[local] Existing Instance ascii_unicode.

(** The pages of ClientSafety.v, decoded to their DNs. *)
Definition dnModel : Model LDAPDN :=
  NewModel (bs "dc=example") ScopeWholeSubtree [bs "person"] (NewAttribute (bs "uid") (Some DirectoryStringCodec))
    (NewAttributeSelectors []) (fun e => Ok (DN e)).

Lemma query_owns_search_witness :
  exists sv, ResultSet_All 10 10 (DAO_Where dnModel (NewCriterion (Has (bs "uid"))) [])
    (MkServer defaultPageSize [] sample_pages []) =
    (Some (map DN (page_entries (all_items sample_pages)), []), sv).
Proof.
  destruct (query_owns_search (DAO_Where dnModel (NewCriterion (Has (bs "uid"))) [])) as [_ Hall].
  refine (Hall [Has (bs "uid")] sample_pages 10%nat 10%nat (map DN (page_entries (all_items sample_pages))) _ _ _ _ _ _).
  - reflexivity.
  - discriminate.
  - exact sample_pages_ok.
  - vm_compute. reflexivity.
  - vm_compute. repeat constructor.
  - vm_compute. repeat constructor.
Defined.

(** A name that tries to leave its RDN stays inside it. *)
#[local] Instance ascii_fold : GoFold := {| equalFoldUnicode s t := bool_decide (map lowerByte s = map lowerByte t) |}.

Example add_hostile_name :
  DN <$> (match addEntry dnModel (bs "x,ou=admins+cn=#1 ") [] with Ok e => Some e | Err _ => None end) =
  Some (bs "uid=x\,ou\=admins\+cn\=#1\ ,dc=example").
Proof. vm_compute. reflexivity. Qed.

Example add_rejects_class_options :
  addEntry dnModel (bs "x") [MkAssignment (MkAttribute (bs "OBJECTCLASS;lang-en") [bs "top"] []) None] =
  Err (FormatError "ldapmodel: assignment %d: objectClass is defined by the model" [[0]]).
Proof. vm_compute. reflexivity. Qed.
