(* ===== verification/PosixAccount.v ===== *)
(** * The account model

    Models src/freeipa/posixaccount/user.go, a complete model over ldapmodel: the
    typed attributes of a POSIX user, the projection and its decoder, the model
    bound to a base, and the indexed predicates. The theorem composes it with the
    model mapping (Model.v, ModelSafety.v): what is added is what is read. *)

From S2P Require Import Prelude Wire Packet Reader Decoder Types Protocol Result Attributes.
From S2P Require Import Filter Operations Search Errors Client ClientSafety ModelCodecs Model ModelSafety.

(** ** Attributes *)

Record userAttributes := MkUserAttributes {
  ua_AccountName : ModelAttribute bytes;
  ua_CommonName : ModelAttribute bytes;
  ua_Surname : ModelAttribute bytes;
  ua_UIDNumber : ModelAttribute Z;
  ua_GIDNumber : ModelAttribute Z;
  ua_HomeDirectory : ModelAttribute bytes;
  ua_GECOS : ModelAttribute bytes;
  ua_LoginShell : ModelAttribute bytes;
  ua_EmailAddresses : ModelAttribute bytes
}.

Record User := MkUser {
  u_DN : LDAPDN;
  u_AccountName : bytes;
  u_CommonName : bytes;
  u_UIDNumber : Z;
  u_GIDNumber : Z;
  u_HomeDirectory : bytes;
  u_GECOS : option bytes;
  u_LoginShell : option bytes;
  u_EmailAddresses : list bytes
}.

Section account.
Context `{U : GoUnicode}.

Definition UserAttributes : userAttributes := {|
  ua_AccountName := NewAttribute (bs "uid") (Some StringCodec);
  ua_CommonName := NewAttribute (bs "cn") (Some StringCodec);
  ua_Surname := NewAttribute (bs "sn") (Some StringCodec);
  ua_UIDNumber := NewAttribute (bs "uidNumber") (Some Uint32Codec);
  ua_GIDNumber := NewAttribute (bs "gidNumber") (Some Uint32Codec);
  ua_HomeDirectory := NewAttribute (bs "homeDirectory") (Some StringCodec);
  ua_GECOS := NewAttribute (bs "gecos") (Some StringCodec);
  ua_LoginShell := NewAttribute (bs "loginShell") (Some StringCodec);
  ua_EmailAddresses := NewAttribute (bs "mail") (Some StringCodec)
|}.

Definition userProjection : AttributeSelectors := NewAttributeSelectors [
  at_name (ua_AccountName UserAttributes);
  at_name (ua_CommonName UserAttributes);
  at_name (ua_UIDNumber UserAttributes);
  at_name (ua_GIDNumber UserAttributes);
  at_name (ua_HomeDirectory UserAttributes);
  at_name (ua_GECOS UserAttributes);
  at_name (ua_LoginShell UserAttributes);
  at_name (ua_EmailAddresses UserAttributes)
].

(** ** Decoding *)

Definition decodeUserError (err : error) : error := WrapError err "decode user %q: %w".
Definition userField {A} (r : result A) : result A :=
  match r with Ok value => Ok value | Err err => Err (decodeUserError err) end.

Definition DecodeUser (entry : Entry) : result User :=
  accountName ← userField (RequiredOne (ua_AccountName UserAttributes) entry);
  commonName ← userField (RequiredOne (ua_CommonName UserAttributes) entry);
  uidNumber ← userField (RequiredOne (ua_UIDNumber UserAttributes) entry);
  gidNumber ← userField (RequiredOne (ua_GIDNumber UserAttributes) entry);
  homeDirectory ← userField (RequiredOne (ua_HomeDirectory UserAttributes) entry);
  gecos ← userField (OptionalOne (ua_GECOS UserAttributes) entry);
  loginShell ← userField (OptionalOne (ua_LoginShell UserAttributes) entry);
  emailAddresses ← userField (ModelAttribute_Values (ua_EmailAddresses UserAttributes) entry);
  Ok (MkUser (DN entry) accountName commonName uidNumber gidNumber homeDirectory gecos loginShell emailAddresses).

(** ** The model and its predicates *)

Definition Users (baseDN : LDAPDN) : Model User :=
  NewModel baseDN ScopeSingleLevel
    [bs "top"; bs "person"; bs "organizationalPerson"; bs "inetOrgPerson"; bs "posixAccount"]
    (ua_AccountName UserAttributes) userProjection DecodeUser.

(** [None] is a panic of [MustEqual]. *)
Definition AccountNameIs (value : bytes) : option Criterion := NewCriterion <$> MustEqual (ua_AccountName UserAttributes) value.
Definition UIDNumberIs (value : Z) : option Criterion := NewCriterion <$> MustEqual (ua_UIDNumber UserAttributes) value.
Definition GIDNumberIs (value : Z) : option Criterion := NewCriterion <$> MustEqual (ua_GIDNumber UserAttributes) value.

(** ** The decoder is exact *)

(** The values of an attribute of an entry, none if it is not there. *)
Definition valuesOf (e : Entry) (name : bytes) : list bytes :=
  match Lookup (en_Attributes e) name with Some a => a_Values a | None => [] end.

(** [raw] is the decimal number [n], in 32 bits. *)
Definition number (raw : bytes) (n : Z) : Prop :=
  raw <> [] /\ forallb isDigit raw = true /\ n = decimal raw /\ n < 2 ^ 32.

Record represents (e : Entry) (u : User) : Prop := {
  rep_DN : u_DN u = DN e;
  rep_uid : valuesOf e (bs "uid") = [u_AccountName u];
  rep_cn : valuesOf e (bs "cn") = [u_CommonName u];
  rep_uidNumber : exists raw, valuesOf e (bs "uidNumber") = [raw] /\ number raw (u_UIDNumber u);
  rep_gidNumber : exists raw, valuesOf e (bs "gidNumber") = [raw] /\ number raw (u_GIDNumber u);
  rep_home : valuesOf e (bs "homeDirectory") = [u_HomeDirectory u];
  rep_gecos : valuesOf e (bs "gecos") = option_list (u_GECOS u);
  rep_shell : valuesOf e (bs "loginShell") = option_list (u_LoginShell u);
  rep_mail : valuesOf e (bs "mail") = u_EmailAddresses u
}.

Lemma RequiredOne_exact {T} (c : ValueCodec T) name e v :
  RequiredOne (NewAttribute name (Some c)) e = Ok v <-> exists raw, valuesOf e name = [raw] /\ vc_Decode c raw = Ok v.
Proof.
  unfold RequiredOne, rawValues, valuesOf, Lookup, ModelAttribute_Decode, decodeAt. cbn [at_key at_Codec NewAttribute].
  destruct (match LookupKey _ _ with Some _ => _ | None => _ end) as [|r [|r' rs]].
  1, 3: split; [done|by intros (? & ? & ?)].
  split; [|by intros (? & [= <-] & ->)]. destruct (vc_Decode c r) as [w|] eqn:Hr; [intros [= <-]; eauto|done].
Qed.

Lemma RequiredOne_text name e v : RequiredOne (NewAttribute name (Some StringCodec)) e = Ok v <-> valuesOf e name = [v].
Proof.
  rewrite RequiredOne_exact. change (vc_Decode StringCodec) with (@Ok bytes).
  split; [by intros (raw & -> & [= ->])|eauto].
Qed.

Lemma RequiredOne_number name e v :
  RequiredOne (NewAttribute name (Some Uint32Codec)) e = Ok v <-> exists raw, valuesOf e name = [raw] /\ number raw v.
Proof. rewrite RequiredOne_exact. by setoid_rewrite Uint32_exact. Qed.

Lemma OptionalOne_text name e v :
  OptionalOne (NewAttribute name (Some StringCodec)) e = Ok v <-> valuesOf e name = option_list v.
Proof.
  unfold OptionalOne, rawValues, valuesOf, Lookup, ModelAttribute_Decode, decodeAt. cbn [at_key at_Codec NewAttribute].
  destruct (match LookupKey _ _ with Some _ => _ | None => _ end) as [|r [|r' rs]], v; cbn; split; congruence.
Qed.

Lemma Values_text name e : ModelAttribute_Values (NewAttribute name (Some StringCodec)) e = Ok (valuesOf e name).
Proof.
  unfold ModelAttribute_Values. cbn [at_Codec NewAttribute]. change (rawValues _ e) with (valuesOf e name).
  apply decode_encoded; [by intros v raw [= <-]|]. generalize (valuesOf e name). clear.
  induction l as [|v l IH]; [done|]. cbn [encodeValues]. by rewrite IH.
Qed.

Lemma userField_ok {A} (r : result A) v : userField r = Ok v <-> r = Ok v.
Proof. by destruct r. Qed.

Lemma bind_ok {A B} (r : result A) (k : A -> result B) b : (r ≫= k) = Ok b <-> exists a, r = Ok a /\ k a = Ok b.
Proof. destruct r; cbn; [split; [eauto|by intros (? & [= <-] & ?)]|split; [done|by intros (? & ? & ?)]]. Qed.

Lemma DecodeUser_exact e u : DecodeUser e = Ok u <-> represents e u.
Proof.
  unfold DecodeUser. repeat setoid_rewrite bind_ok. repeat setoid_rewrite userField_ok.
  cbn [UserAttributes ua_AccountName ua_CommonName ua_UIDNumber ua_GIDNumber ua_HomeDirectory ua_GECOS ua_LoginShell
    ua_EmailAddresses].
  repeat setoid_rewrite RequiredOne_text. repeat setoid_rewrite RequiredOne_number.
  repeat setoid_rewrite OptionalOne_text. setoid_rewrite Values_text. split.
  - intros (a & Ha & b & Hb & c & Hc & d & Hd & f & Hf & g & Hg & h & Hh & m & [= <-] & [= <-]). by constructor.
  - intros [Hdn H1 H2 H3 H4 H5 H6 H7 H8]. destruct u as [dn ? ? ? ? ? ? ? ?]. cbn in *.
    do 8 (eexists; split; [eassumption || reflexivity|]). by rewrite Hdn, H8.
Qed.

(** ** Adding a user and reading it back *)

Context `{F : GoFold}.

(** The assignments that describe a user, in the order of the fields; the naming
    attribute is the argument of [Add]. *)
Definition userAssignments (u : User) (surnames : list bytes) : list Assignment :=
  [SetAttribute (ua_CommonName UserAttributes) [u_CommonName u]; SetAttribute (ua_Surname UserAttributes) surnames;
   SetAttribute (ua_UIDNumber UserAttributes) [u_UIDNumber u]; SetAttribute (ua_GIDNumber UserAttributes) [u_GIDNumber u];
   SetAttribute (ua_HomeDirectory UserAttributes) [u_HomeDirectory u]] ++
  map (fun v => SetAttribute (ua_GECOS UserAttributes) [v]) (option_list (u_GECOS u)) ++
  map (fun v => SetAttribute (ua_LoginShell UserAttributes) [v]) (option_list (u_LoginShell u)) ++
  match u_EmailAddresses u with [] => [] | mails => [SetAttribute (ua_EmailAddresses UserAttributes) mails] end.

Definition written (n : Z) : bytes := AppendUint (conv uint64 n).
Definition plainAttribute (name : bytes) (values : list bytes) : Attribute := MkAttribute name values [].

Definition userWire (u : User) (surnames : list bytes) : list Attribute :=
  [plainAttribute (bs "cn") [u_CommonName u]; plainAttribute (bs "sn") surnames;
   plainAttribute (bs "uidNumber") [written (u_UIDNumber u)]; plainAttribute (bs "gidNumber") [written (u_GIDNumber u)];
   plainAttribute (bs "homeDirectory") [u_HomeDirectory u]] ++
  map (fun v => plainAttribute (bs "gecos") [v]) (option_list (u_GECOS u)) ++
  map (fun v => plainAttribute (bs "loginShell") [v]) (option_list (u_LoginShell u)) ++
  match u_EmailAddresses u with [] => [] | mails => [plainAttribute (bs "mail") mails] end.

Lemma SetAttribute_text name values :
  SetAttribute (NewAttribute name (Some StringCodec)) values = MkAssignment (plainAttribute name values) None.
Proof.
  unfold SetAttribute, ModelAttribute_encode. cbn [at_Codec NewAttribute at_name].
  assert (encodeValues StringCodec values = Ok values) as ->; [|done].
  induction values as [|v values IH]; [done|]. cbn [encodeValues]. by rewrite IH.
Qed.

Lemma userAssignments_wire u surnames :
  userAssignments u surnames = map (fun a => MkAssignment a None) (userWire u surnames).
Proof.
  unfold userAssignments, userWire. cbn [UserAttributes ua_CommonName ua_Surname ua_UIDNumber ua_GIDNumber
    ua_HomeDirectory ua_GECOS ua_LoginShell ua_EmailAddresses].
  destruct (u_GECOS u), (u_LoginShell u), (u_EmailAddresses u); cbn [option_list map app]; by rewrite !SetAttribute_text.
Qed.

Definition userAttributesOf (base : LDAPDN) (u : User) (surnames : list bytes) : list Attribute :=
  objectClasses (Users base) :: namingAttribute (Users base) (u_AccountName u) :: userWire u surnames.

Ltac by_fields u :=
  unfold userAttributesOf, userWire, distinct_keys;
  destruct (u_GECOS u), (u_LoginShell u), (u_EmailAddresses u); cbn [option_list map app].

Lemma userAttributes_distinct base u surnames : distinct_keys (userAttributesOf base u surnames).
Proof. by_fields u; apply (bool_decide_unpack _); vm_compute; exact I. Qed.

Lemma userWire_ok u surnames : surnames <> [] -> Forall (fun a => assignment_ok (bs "uid") (MkAssignment a None)) (userWire u surnames).
Proof.
  intros Hs. by_fields u; repeat constructor; cbn; try done; try (vm_compute; congruence).
Qed.

(** The entry of an addition holds the described attributes, in the order given. *)
Lemma add_user base u surnames assignments : utf8_Valid (u_AccountName u) = true -> surnames <> [] ->
  assignments ≡ₚ userAssignments u surnames ->
  exists entry, addEntry (Users base) (u_AccountName u) assignments = Ok entry /\ store_ok (en_Attributes entry) /\
    items (en_Attributes entry) ≡ₚ userAttributesOf base u surnames.
Proof.
  intros Hu Hs Hp. rewrite userAssignments_wire in Hp.
  assert (Forall (assignment_ok (bs "uid")) assignments) as Hok.
  { rewrite Hp. apply Forall_map. by apply userWire_ok. }
  assert (map as_wire assignments ≡ₚ userWire u surnames) as Hw.
  { rewrite Hp, map_map. cbn. by rewrite map_id. }
  assert (add_ok (Users base) (u_AccountName u) assignments (u_AccountName u)) as Hadd
    by (constructor; try done; by exists StringCodec).
  destruct (addEntry_exact (Users base) (u_AccountName u) assignments) as [(value & [_ _ _ (c & [= <-] & [= <-]) _ _] & ->)|[Hno _]];
    [|by destruct (Hno _ Hadd)].
  eexists. split; [reflexivity|]. cbn [en_Attributes].
  destruct (Set_refines None (objectClasses (Users base)) I) as [H1 I1].
  destruct (Set_refines _ (namingAttribute (Users base) (u_AccountName u)) H1) as [H2 I2].
  destruct (sets_refine (map as_wire assignments) _ H2) as [H3 I3]. split; [exact H3|].
  assert (distinct_keys (([] ++ [objectClasses (Users base); namingAttribute (Users base) (u_AccountName u)]) ++ map as_wire assignments)) as Hd.
  { pose proof (userAttributes_distinct base u surnames) as Hd. unfold distinct_keys, userAttributesOf in *.
    cbn [app map] in *. by rewrite Hw. }
  rewrite I3, I2, I1.
  change (spec_set (spec_set (items None) ?a) ?b) with (foldl spec_set [] [a; b]).
  rewrite (sets_fresh [_; _] []), sets_fresh; [cbn [app]; by rewrite Hw|done|].
  unfold distinct_keys in *. rewrite map_app in Hd. by apply NoDup_app in Hd as [Hd _].
Qed.

Definition with_DN (dn : LDAPDN) (u : User) : User :=
  MkUser dn (u_AccountName u) (u_CommonName u) (u_UIDNumber u) (u_GIDNumber u) (u_HomeDirectory u) (u_GECOS u)
    (u_LoginShell u) (u_EmailAddresses u).

Lemma valuesOf_items e l name : store_ok (en_Attributes e) -> items (en_Attributes e) ≡ₚ l -> distinct_keys l ->
  valuesOf e name = match spec_lookup l (Key name) with Some a => a_Values a | None => [] end.
Proof.
  intros Hok Hp Hd. unfold valuesOf, Lookup. rewrite LookupKey_refines by done.
  by rewrite (spec_lookup_perm _ l) by (unfold distinct_keys in *; by rewrite ?Hp).
Qed.

Lemma read_user base u surnames e : 0 <= u_UIDNumber u < 2 ^ 32 -> 0 <= u_GIDNumber u < 2 ^ 32 ->
  store_ok (en_Attributes e) -> items (en_Attributes e) ≡ₚ userAttributesOf base u surnames ->
  represents e (with_DN (DN e) u).
Proof.
  intros Hu Hg Hok Hp. pose proof (userAttributes_distinct base u surnames) as Hd.
  pose proof (fun name => valuesOf_items e _ name Hok Hp Hd) as Hv. clear Hp Hd.
  apply Uint32_written, Uint32_exact in Hu, Hg.
  constructor; [done|..]; cbn [with_DN u_AccountName u_CommonName u_UIDNumber u_GIDNumber u_HomeDirectory u_GECOS
    u_LoginShell u_EmailAddresses]; try setoid_rewrite Hv; clear Hv; revert Hu Hg; unfold number, written;
    by_fields u; intros Hu Hg; try (eexists; split; [reflexivity|eassumption]); reflexivity.
Qed.

Lemma criteria_exact name n : 0 <= n < 2 ^ 32 ->
  AccountNameIs name = Some (MkCriterion (Equal (bs "uid") name) None) /\
  (exists raw, number raw n /\ UIDNumberIs n = Some (MkCriterion (Equal (bs "uidNumber") raw) None)) /\
  (exists raw, number raw n /\ GIDNumberIs n = Some (MkCriterion (Equal (bs "gidNumber") raw) None)).
Proof.
  intros Hn%Uint32_written%Uint32_exact. split; [done|]. split; (eexists; split; [exact Hn|done]).
Qed.

(** C19. Accounts survive the directory. [DecodeUser] accepts exactly the entries that
    represent a user: one value of each required attribute, with numbers that are
    decimal and below 2^32, at most one GECOS and one shell, any mail addresses; no
    other entry is read as a user, and none in two ways. Adding a user whose name is
    UTF-8, with its fields assigned in any order, sends an entry that decodes to that
    same user with the entry's DN. The indexed predicates never panic and assert the
    values that the decoder reads. *)
Theorem posix_account_exact {S H} `{!Executor S H} base u surnames assignments :
  utf8_Valid (u_AccountName u) = true -> 0 <= u_UIDNumber u < 2 ^ 32 -> 0 <= u_GIDNumber u < 2 ^ 32 -> surnames <> [] ->
  assignments ≡ₚ userAssignments u surnames ->
  (forall e v, m_decode (Users base) e = Ok v <-> represents e v) /\
  (exists entry, DecodeUser entry = Ok (with_DN (DN entry) u) /\ forall s : S,
     DAO_Add (Users base) (u_AccountName u) assignments s = Client_Add (Some entry) [] s) /\
  AccountNameIs (u_AccountName u) = Some (MkCriterion (Equal (bs "uid") (u_AccountName u)) None) /\
  (exists raw, number raw (u_UIDNumber u) /\
     UIDNumberIs (u_UIDNumber u) = Some (MkCriterion (Equal (bs "uidNumber") raw) None)) /\
  (exists raw, number raw (u_GIDNumber u) /\
     GIDNumberIs (u_GIDNumber u) = Some (MkCriterion (Equal (bs "gidNumber") raw) None)).
Proof.
  intros Hname Hu Hg Hs Hp.
  destruct (criteria_exact (u_AccountName u) _ Hu) as (? & ? & _), (criteria_exact (u_AccountName u) _ Hg) as (_ & _ & ?).
  split_and!; [apply DecodeUser_exact| |done..].
  destruct (add_user base u surnames assignments Hname Hs Hp) as (entry & Ha & Hok & Hi).
  exists entry. split; [apply DecodeUser_exact; by eapply read_user|]. intros s. unfold DAO_Add. by rewrite Ha.
Qed.
End account.

#[local] Existing Instance ascii_unicode.
#[local] Instance account_fold : GoFold := {| equalFoldUnicode s t := bool_decide (map lowerByte s = map lowerByte t) |}.

Definition sampleUser : User :=
  MkUser [] (bs "ada") (bs "Ada Lovelace") 1815 100 (bs "/home/ada") None (Some (bs "/bin/sh")) [bs "ada@example"].

Lemma posix_account_exact_witness : exists entry, DecodeUser entry = Ok (with_DN (DN entry) sampleUser) /\
  DAO_Add (Users (bs "dc=example")) (bs "ada") (rev (userAssignments sampleUser [bs "Lovelace"]))
    (MkServer defaultPageSize [] [] []) = Client_Add (Some entry) [] (MkServer defaultPageSize [] [] []).
Proof.
  destruct (posix_account_exact (bs "dc=example") sampleUser [bs "Lovelace"] (rev (userAssignments sampleUser [bs "Lovelace"])))
    as (_ & (entry & Hd & Ha) & _).
  - vm_compute. reflexivity.
  - vm_compute. intuition congruence.
  - vm_compute. intuition congruence.
  - discriminate.
  - symmetry. apply Permutation_rev.
  - exists entry. split; [exact Hd|apply Ha].
Defined.
