(* ===== verification/Tools.v ===== *)
(** * The command-line tools

    Models src/freeipa/cmd/whoami (config.go and main.go), [run] of
    src/cmd/arden-gssapi-smoke/main.go and [New] of src/auth/gssapi/native, with
    [time.ParseDuration] and its floating-point arithmetic written out.

    The environment, the certificate pools, the files and the GSS library are code
    of the platform: the class [Platform]. What the tools use of a connection is the
    class [Connections], the dialer and the methods of [Conn]. Both change a state.
    Dialing, and each operation of a connection, is given a context with its
    deadline; what the platform and a connection make of it is theirs. The default
    logger of the smoke test is not modelled. *)

From Stdlib Require Import SpecFloat.
From S2P Require Import Prelude Wire Packet Reader Framer Decoder Types Protocol Result Errors Options.
From S2P Require Import Response Attributes Operations Search Bind Extended Endpoint Conn ConnSafety.
From S2P Require Import ConnRun ConnRefine PoolOptions Client ClientSafety Stack WhoAmI Gssapi ModelCodecs.

(** ** Durations *)

(** [float64(n)] for an unsigned integer, and [uint64(x)] for a positive number. *)
Definition float_of (n : Z) : float64 := binary_normalize 53 1024 n 0 false.
Definition float_mul : float64 -> float64 -> float64 := SFmul 53 1024.
Definition float_div : float64 -> float64 -> float64 := SFdiv 53 1024.
Definition uint64_of (x : float64) : Z :=
  match x with
  | S754_finite false m e => conv uint64 (Z.shiftl (Zpos m) e)
  | _ => 0
  end.

Fixpoint leadingInt (x : Z) (s : bytes) : option (Z * bytes) :=
  match s with
  | c :: rest =>
      if negb (isDigit c) then Some (x, s)
      else if x >? 2 ^ 63 / 10 then None
      else
        let x := x * 10 + (c - 48) in
        if x >? 2 ^ 63 then None else leadingInt x rest
  | [] => Some (x, [])
  end.

Fixpoint leadingFraction (x : Z) (scale : float64) (overflow : bool) (s : bytes) : Z * float64 * bytes :=
  match s with
  | c :: rest =>
      if negb (isDigit c) then (x, scale, s)
      else if overflow then leadingFraction x scale true rest
      else if x >? (2 ^ 63 - 1) / 10 then leadingFraction x scale true rest
      else
        let y := x * 10 + (c - 48) in
        if y >? 2 ^ 63 then leadingFraction x scale true rest
        else leadingFraction y (float_mul scale (float_of 10)) false rest
  | [] => (x, scale, [])
  end.

Definition numeral (c : Z) : bool := (c =? 46) || isDigit c.
Fixpoint spanUnit (s : bytes) : bytes * bytes :=
  match s with
  | c :: rest => if numeral c then ([], s) else let '(u, rest) := spanUnit rest in (c :: u, rest)
  | [] => ([], [])
  end.

(** Micro signs are U+00B5 and U+03BC. *)
Definition unitMap : list (bytes * Z) :=
  [(bs "ns", 1); (bs "us", 1000); ([194; 181; 115], 1000); ([206; 188; 115], 1000); (bs "ms", 10 ^ 6);
   (bs "s", Second); (bs "m", Minute); (bs "h", Hour)].
Fixpoint unitOf (u : bytes) (units : list (bytes * Z)) : option Z :=
  match units with
  | [] => None
  | (name, unit) :: units => if bool_decide (name = u) then Some unit else unitOf u units
  end.

Definition invalidDuration (orig : bytes) : error := FormatError "time: invalid duration " [orig].

(** One term of a duration: its nanoseconds and what follows it. *)
Definition ParseDuration_term (orig s : bytes) : result (Z * bytes) :=
  match s with
  | [] => Err (invalidDuration orig)
  | c :: _ =>
  if negb (numeral c) then Err (invalidDuration orig)
  else
  match leadingInt 0 s with
  | None => Err (invalidDuration orig)
  | Some (v, s1) =>
  let pre := negb (len s =? len s1) in
  let '(f, scale, s2, post) :=
    match s1 with
    | 46 :: s1 => let '(f, scale, s2) := leadingFraction 0 float_one false s1 in (f, scale, s2, negb (len s1 =? len s2))
    | _ => (0, float_one, s1, false)
    end in
  if negb pre && negb post then Err (invalidDuration orig)
  else
  match spanUnit s2 with
  | ([], _) => Err (FormatError "time: missing unit in duration " [orig])
  | (u, s3) =>
  match unitOf u unitMap with
  | None => Err (FormatError "time: unknown unit " [u; orig])
  | Some unit =>
  if v >? 2 ^ 63 / unit then Err (invalidDuration orig)
  else
    let v := v * unit in
    if f >? 0 then
      let v := conv uint64 (v + uint64_of (float_mul (float_of f) (float_div (float_of unit) scale))) in
      if v >? 2 ^ 63 then Err (invalidDuration orig) else Ok (v, s3)
    else Ok (v, s3)
  end end end end.

(** A term takes at least one byte: the length of the text is enough fuel. *)
Fixpoint ParseDuration_loop (fuel : nat) (orig s : bytes) (d : Z) : option (result Z) :=
  match s with
  | [] => Some (Ok d)
  | _ :: _ =>
      match fuel with
      | O => None
      | Datatypes.S fuel =>
          match ParseDuration_term orig s with
          | Err err => Some (Err err)
          | Ok (v, s) =>
              let d := conv uint64 (d + v) in
              if d >? 2 ^ 63 then Some (Err (invalidDuration orig)) else ParseDuration_loop fuel orig s d
          end
      end
  end.

Definition ParseDuration_sign (s : bytes) : bool * bytes :=
  match s with
  | c :: rest => if (c =? 45) || (c =? 43) then (c =? 45, rest) else (false, s)
  | [] => (false, s)
  end.

(** The loop always ends: [ParseDuration_loop_total]. *)
Definition ParseDuration (orig : bytes) : result Z :=
  let '(neg, s) := ParseDuration_sign orig in
  if bool_decide (s = bs "0") then Ok 0
  else if bool_decide (s = []) then Err (invalidDuration orig)
  else
    d ← default (Err (ErrorString "unreachable")) (ParseDuration_loop (length s) orig s 0);
    if neg then Ok (conv int64 (- conv int64 d))
    else if d >? 2 ^ 63 - 1 then Err (invalidDuration orig) else Ok (conv int64 d).

(** ** Configuration *)

Definition defaultTimeout : Z := 30 * Second.

Record configuration := MkConfiguration {
  cf_address : bytes;
  cf_serverName : bytes;
  cf_caFile : bytes;
  cf_stableID : bytes;
  cf_timeout : Z
}.

(** [Getenv] is empty for a variable that is not set. *)
Definition loadConfiguration (Getenv : string -> bytes) : result configuration :=
  let stableID := if bool_decide (Getenv "ARDEN_IDENTITY" = []) then bs "freeipa-compose-client" else Getenv "ARDEN_IDENTITY" in
  timeout ← (if bool_decide (Getenv "ARDEN_TIMEOUT" = []) then Ok defaultTimeout
             else match ParseDuration (Getenv "ARDEN_TIMEOUT") with
                  | Ok timeout => Ok timeout
                  | Err err => Err (WrapError err "parse ARDEN_TIMEOUT: %w")
                  end);
  let config := MkConfiguration (Getenv "ARDEN_ADDRESS") (Getenv "ARDEN_SERVER_NAME") (Getenv "ARDEN_CA_FILE") stableID timeout in
  if bool_decide (cf_address config = []) then Err (ErrorString "ARDEN_ADDRESS is required")
  else if bool_decide (cf_serverName config = []) then Err (ErrorString "ARDEN_SERVER_NAME is required")
  else if bool_decide (cf_caFile config = []) then Err (ErrorString "ARDEN_CA_FILE is required")
  else if cf_timeout config <=? 0 then Err (ErrorString "ARDEN_TIMEOUT must be positive")
  else Ok config.

(** The flags of the smoke test when none is given, and its checks of them. *)
Definition flagDefaults : configuration := MkConfiguration [] [] [] (bs "freeipa-gssapi-smoke") (30 * Second).
Definition checkConfiguration (config : configuration) : option error :=
  if bool_decide (cf_address config = []) || bool_decide (cf_serverName config = [])
  then Some (ErrorString "-address and -server-name are required")
  else if cf_timeout config <=? 0 then Some (ErrorString "-timeout must be positive")
  else None.

(** ** Properties of durations *)

Lemma leadingInt_spec s : forall x v rest, 0 <= x <= 2 ^ 63 -> leadingInt x s = Some (v, rest) ->
  0 <= v <= 2 ^ 63 /\ (length rest <= length s)%nat.
Proof.
  induction s as [|c s IH]; intros x v rest Hx; cbn [leadingInt]; [intros [= <- <-]; done|].
  destruct (isDigit c) eqn:Ec; cbn [negb]; [|intros [= <- <-]; done]. apply isDigit_range in Ec.
  destruct (x >? _) eqn:E1; [done|]. cbv zeta. destruct (_ >? 2 ^ 63) eqn:E2; [done|].
  intros [Hv Hl]%IH; [|lia]. split; [done|cbn; lia].
Qed.

Lemma leadingFraction_spec s : forall x scale o v scale' rest, leadingFraction x scale o s = (v, scale', rest) ->
  (length rest <= length s)%nat.
Proof.
  induction s as [|c s IH]; intros x scale o v scale' rest; cbn [leadingFraction]; [intros [= <- <- <-]; done|].
  case_ifs; try (intros Hr%IH; cbn; lia). intros [= <- <- <-]; done.
Qed.

Lemma spanUnit_spec s : forall u rest, spanUnit s = (u, rest) -> s = u ++ rest.
Proof.
  induction s as [|c s IH]; intros u rest; cbn [spanUnit]; [intros [= <- <-]; done|].
  destruct (numeral c); [intros [= <- <-]; done|]. destruct (spanUnit s) as [u' rest']. intros [= <- <-].
  cbn. f_equal. by apply IH.
Qed.

Lemma unitMap_positive u : forall unit, unitOf u unitMap = Some unit -> 0 < unit.
Proof. intros unit. cbn. case_ifs; intros [= <-]; done. Qed.

Lemma uint64_range z : 0 <= conv uint64 z < 2 ^ 64.
Proof. pose proof (conv_in_type uint64 z eq_refl) as Hz. unfold in_type in Hz. cbn in Hz. lia. Qed.

Lemma ParseDuration_term_spec orig s v rest : ParseDuration_term orig s = Ok (v, rest) ->
  (length rest < length s)%nat /\ 0 <= v <= 2 ^ 63.
Proof.
  unfold ParseDuration_term. destruct s as [|c s]; [done|]. destruct (numeral c); cbn [negb]; [|done].
  destruct (leadingInt 0 (c :: s)) as [[n s1]|] eqn:Ei; [|done]. apply leadingInt_spec in Ei as [Hn Hs1]; [|done].
  set (frac := match s1 with [] => _ | _ => _ end).
  assert (length frac.1.2 <= length s1)%nat as Hs2.
  { unfold frac. destruct s1 as [|b s1]; [done|]. destruct (decide (b = 46)) as [->|Hb].
    - destruct (leadingFraction 0 float_one false s1) as [[f scale] s2] eqn:Ef. apply leadingFraction_spec in Ef. cbn. lia.
    - destruct b as [|b|b]; try done; repeat (destruct b as [b|b|]; try done). }
  destruct frac as [[[f scale] s2] post]. cbn in Hs2. destruct (negb _ && negb post); [done|].
  destruct (spanUnit s2) as [[|u0 u] s3] eqn:Eu; [done|]. apply spanUnit_spec in Eu. subst s2. rewrite length_app in Hs2. cbn in Hs2.
  destruct (unitOf _ _) as [unit|] eqn:Eunit; [|done]. apply unitMap_positive in Eunit.
  destruct (n >? _) eqn:Ev; [done|]. assert (0 <= n * unit <= 2 ^ 63) as Hmul.
  { split; [nia|]. pose proof (Z.mul_div_le (2 ^ 63) unit Eunit). assert (n <= 2 ^ 63 / unit) by lia. nia. }
  cbn [length] in *. destruct (f >? 0); [|intros [= <- <-]; lia].
  set (w := conv uint64 _). cbv zeta. assert (0 <= w) by (unfold w; pose proof (uint64_range (n * unit + uint64_of (float_mul (float_of f) (float_div (float_of unit) scale)))); lia).
  destruct (w >? 2 ^ 63) eqn:Ew; [done|]. intros [= <- <-]; lia.
Qed.

(** The length of the text is enough fuel. *)
Lemma ParseDuration_loop_total orig fuel : forall s d, (length s <= fuel)%nat -> 0 <= d <= 2 ^ 63 ->
  exists r, ParseDuration_loop fuel orig s d = Some r /\ forall v, r = Ok v -> 0 <= v <= 2 ^ 63.
Proof.
  induction fuel as [|fuel IH]; intros s d Hl Hd.
  - destruct s; [|cbn in Hl; lia]. eexists. split; [done|]. intros v [= <-]. lia.
  - destruct s as [|c s]; [eexists; split; [done|]; intros v [= <-]; lia|]. cbn [ParseDuration_loop].
    destruct (ParseDuration_term orig (c :: s)) as [[v rest]|err] eqn:Et; [|eexists; split; [done|]; done].
    apply ParseDuration_term_spec in Et as [Hs Hv]. cbv zeta. destruct (_ >? 2 ^ 63) eqn:E; [by eexists|].
    apply IH; [cbn in *; lia|]. pose proof (uint64_range (d + v)); lia.
Qed.

(** Every duration is a 64-bit integer. *)
Lemma ParseDuration_range s d : ParseDuration s = Ok d -> - 2 ^ 63 <= d < 2 ^ 63.
Proof.
  unfold ParseDuration. destruct (ParseDuration_sign s) as [neg text]. case_bool_decide; [intros [= <-]; done|].
  case_bool_decide; [done|]. destruct (ParseDuration_loop_total s (length text) text 0 ltac:(done) ltac:(done)) as (r & -> & Hr).
  destruct r as [v|]; [|done]. specialize (Hr v eq_refl). cbn [default mbind]. unfold id. cbv beta iota.
  assert (forall z, - 2 ^ 63 <= conv int64 z < 2 ^ 63) as Hc
    by (intros z; pose proof (conv_in_type int64 z eq_refl) as Hz; unfold in_type in Hz; cbn in Hz; lia).
  destruct neg; cbn [mbind result_bind]; [intros [= <-]; apply Hc|]. case_ifs; [done|]. intros [= <-]; apply Hc.
Qed.

Lemma leadingInt_digits s rest : forallb isDigit s = true -> forallb isDigit (take 1 rest) = false -> forall x, 0 <= x ->
  x * 10 ^ len s + decimal s <= 2 ^ 63 -> leadingInt x (s ++ rest) = Some (x * 10 ^ len s + decimal s, rest).
Proof.
  intros Hs Hr. induction s as [|c s IH]; intros x Hx Hb; cbn [app leadingInt].
  - destruct rest as [|c rest]; [done|]. cbn in Hr. rewrite andb_true_r in Hr. cbn [leadingInt]. rewrite Hr. cbn [negb]. change (decimal []) with 0.
    rewrite len_nil, Z.mul_1_r, Z.add_0_r. done.
  - cbn in Hs. apply andb_true_iff in Hs as [Hc Hs]. rewrite Hc. cbn [negb]. apply isDigit_range in Hc.
    rewrite decimal_cons in *. rewrite len_cons, Z.pow_add_r in * by (apply len_nonneg || lia).
    pose proof (decimal_range s Hs). change (10 ^ 1) with 10 in *. assert (1 <= 10 ^ len s) by (pose proof (Z.pow_pos_nonneg 10 (len s) ltac:(lia) (len_nonneg s)); lia).
    replace (x >? 2 ^ 63 / 10) with false. 2:{ symmetry. rewrite Z.gtb_ltb. apply Z.ltb_ge. apply Z.div_le_lower_bound; nia. }
    cbv zeta. replace (_ >? 2 ^ 63) with false by (symmetry; rewrite Z.gtb_ltb; apply Z.ltb_ge; nia).
    rewrite IH; [do 2 f_equal; lia|done|lia|nia].
Qed.

(** Whole seconds are read as such, up to the largest duration. *)
Lemma ParseDuration_seconds s : s <> [] -> forallb isDigit s = true -> decimal s <= 9223372036 ->
  ParseDuration (s ++ bs "s") = Ok (decimal s * Second).
Proof.
  intros Hne Hs Hmax. destruct s as [|c s]; [done|]. pose proof (decimal_range _ Hs) as Hd.
  assert (isDigit c = true) as Hc by (cbn in Hs; apply andb_true_iff in Hs; tauto). pose proof (isDigit_range _ Hc) as Hr.
  assert (ParseDuration_term ((c :: s) ++ bs "s") ((c :: s) ++ bs "s") = Ok (decimal (c :: s) * Second, [])) as Ht.
  { unfold ParseDuration_term. rewrite (leadingInt_digits (c :: s) (bs "s") Hs eq_refl 0 ltac:(done) ltac:(lia)).
    cbn [app]. unfold numeral. rewrite Hc, orb_true_r. cbn [negb]. change (c :: s ++ bs "s") with ((c :: s) ++ bs "s").
    rewrite len_app, len_cons. pose proof (len_nonneg s). replace (1 + len s + len (bs "s") =? len (bs "s")) with false by lia.
    cbn [negb andb]. change (bs "s") with [115]. cbv iota beta.
    change (spanUnit [115]) with ([115], @nil Z). cbv iota beta. replace (unitOf [115] unitMap) with (Some Second) by done.
    change (0 >? 0) with false. cbv iota beta.
    rewrite Z.mul_0_l, Z.add_0_l. change (2 ^ 63 / Second) with 9223372036.
    replace (decimal (c :: s) >? 9223372036) with false by lia. done. }
  unfold ParseDuration. change ((c :: s) ++ bs "s") with (c :: (s ++ bs "s")) in *. cbn [ParseDuration_sign].
  replace ((c =? 45) || (c =? 43)) with false by lia. rewrite (bool_decide_false (_ = bs "0")) by (by destruct s as [|? [|]]).
  rewrite bool_decide_false by done. cbn [length ParseDuration_loop]. rewrite Ht. cbv zeta. rewrite Z.add_0_l.
  assert (0 <= decimal (c :: s) * Second <= 9223372036000000000) as Hm by (unfold Second; lia).
  set (v := decimal (c :: s) * Second) in *.
  rewrite (conv_id uint64 v eq_refl) by (apply in_uint64; lia). replace (v >? 2 ^ 63) with false by lia.
  replace (ParseDuration_loop _ _ [] _) with (Some (Ok v)) by (by destruct (length (s ++ bs "s"))).
  cbn [default mbind]. unfold id. cbv beta iota.
  cbn [mbind result_bind]. replace (v >? 2 ^ 63 - 1) with false by lia. by rewrite (conv_id int64 v eq_refl) by (apply in_int64; lia).
Qed.

(** ** The platform and the connections *)

(** A context, with its deadline if it has one. *)
Record GoContext := MkContext { cx_Deadline : option Z }.
Definition context_Background : GoContext := MkContext None.

(** [context.WithTimeout] at a time: a parent's earlier deadline stays. *)
Definition context_WithTimeout (parent : GoContext) (timeout now : Z) : GoContext :=
  MkContext (Some (match cx_Deadline parent with Some d => Z.min d (now + timeout) | None => now + timeout end)).

(** Certificate pools [R], providers [P] of the GSS library; the clock, and what
    the function that cancels a context does. *)
Class Platform (W R P : Type) := {
  x509_SystemCertPool : ST W (option R * option cerror);
  x509_NewCertPool : R;
  AppendCertsFromPEM : R -> bytes -> bool * R;
  os_ReadFile : bytes -> ST W (bytes + cerror);
  gogssapi_NewProvider : string -> ST W (option P * option cerror);
  time_Now : W -> Z;
  context_cancel : GoContext -> ST W unit
}.

(** The fields of the dialer that the tools set. *)
Record Dialer (W R P : Type) := MkDialer { dl_MinVersion : Z; dl_RootCAs : R; dl_Authentication : Authentication W P }.
Arguments MkDialer {W R P}.
Arguments dl_MinVersion {W R P} _.
Arguments dl_RootCAs {W R P} _.
Arguments dl_Authentication {W R P} _.

(** Connections [C] and the streams [H] of their operations, which are started with
    a context. *)
Class Connections (W R P C H : Type) := {
  dialer_Dial : Dialer W R P -> GoContext -> Endpoint -> ST W (C + cerror);
  conn_Executor : C -> GoContext -> Executor W H;
  conn_Identity : C -> ST W Identity;
  conn_Close : C -> ST W (option cerror)
}.

(** ** The native provider *)

Definition ProviderName : string := "github.com/golang-auth/go-gssapi-c".
Definition ErrUnavailable : error := ErrorString "arden/auth/gssapi/native: native GSSAPI is unavailable".

Definition native_New {W R P} `{!Platform W R P} (stableID : bytes) (options : list (option Option))
    : result (Authentication W P) :=
  NewWithProviderFactory stableID (Some (gogssapi_NewProvider ProviderName)) options.

(** Without cgo, or on a platform without a binding. *)
Definition unsupported_New {W P} (stableID : bytes) (options : list (option Option)) : result (Authentication W P) :=
  Err ErrUnavailable.

(** ** The tools *)

Definition VersionTLS12 : Z := 771.

(** An error of a tool. *)
Inductive toolError :=
| ToolError (err : cerror)
| ToolWhoAmI (err : whoamiError)
| ToolClient (err : clientError).
Definition tool_fails (text : string) : toolError := ToolError (Plain (ErrorString text)).

Section tools.
Context {W R P C H : Type} `{!Platform W R P} `{!Connections W R P C H} `{U : GoUnicode}.

(** The roots of the system, or none. *)
Definition systemRoots : ST W (R + toolError) := fun w =>
  match x509_SystemCertPool w with
  | (_, Some err, w) => (inr (ToolError (WrapC "load system certificate pool" err)), w)
  | (roots, None, w) => (inl (match roots with Some roots => roots | None => x509_NewCertPool end), w)
  end.

Definition addRoots (roots : R) (caFile : bytes) (reading empty : string) : ST W (R + toolError) := fun w =>
  match os_ReadFile caFile w with
  | (inr err, w) => (inr (ToolError (WrapC reading err)), w)
  | (inl pem, w) =>
      match AppendCertsFromPEM roots pem with
      | (false, _) => (inr (tool_fails empty), w)
      | (true, roots) => (inl roots, w)
      end
  end.

Definition loadRoots (caFile : bytes) (optional : bool) (reading empty : string) : ST W (R + toolError) := fun w =>
  match systemRoots w with
  | (inr err, w) => (inr err, w)
  | (inl roots, w) =>
      if optional && bool_decide (caFile = []) then (inl roots, w) else addRoots roots caFile reading empty w
  end.

Definition toolDialer (roots : R) (authentication : Authentication W P) : Dialer W R P :=
  MkDialer VersionTLS12 roots authentication.
Definition toolEndpoint (id : EndpointID) (config : configuration) : Endpoint :=
  MkEndpoint id (cf_address config) (cf_serverName config) TransportDirectTLS.

(** The context of a run. *)
Definition toolContext (config : configuration) (w : W) : GoContext :=
  context_WithTimeout context_Background (cf_timeout config) (time_Now w).

(** Dial, run the body with the connection, and run the deferred [conn.Close()] and
    [cancel()], the last one first. [None] is a body that does not return. *)
Definition withConnection {B} (roots : R) (id : EndpointID) (config : configuration)
    (body : GoContext -> C -> ST W (option (B + toolError))) : ST W (option (B + toolError)) := fun w =>
  match native_New (cf_stableID config) [] with
  | Err err => (Some (inr (ToolError (Plain err))), w)
  | Ok authentication =>
      let ctx := toolContext config w in
      match dialer_Dial (toolDialer roots authentication) ctx (toolEndpoint id config) w with
      | (inr err, w) => let '(_, w) := context_cancel ctx w in (Some (inr (ToolError err)), w)
      | (inl conn, w) =>
          match body ctx conn w with
          | (None, w) => (None, w)
          | (Some r, w) =>
              let '(_, w) := conn_Close conn w in
              let '(_, w) := context_cancel ctx w in (Some r, w)
          end
      end
  end.

(** The identity of the connection, which may not be anonymous. *)
Definition requireIdentity (anonymous : string) (ctx : GoContext) (conn : C) : ST W (bytes + toolError) := fun w =>
  match WhoAmI (Some (conn_Executor conn ctx)) w with
  | (inr err, w) => (inr (ToolWhoAmI err), w)
  | (inl authorizationID, w) =>
      (if bool_decide (authorizationID = []) then inr (tool_fails anonymous) else inl authorizationID, w)
  end.

(** [run] of the whoami command after dialing. *)
Definition whoami_body (ctx : GoContext) (conn : C) : ST W (option (bytes + toolError)) := fun w =>
  match requireIdentity "Who Am I? returned an anonymous authorization identity" ctx conn w with
  | (inr err, w) => (Some (inr err), w)
  | (inl authorizationID, w) =>
      match conn_Close conn w with
      | (Some err, w) => (Some (inr (ToolError err)), w)
      | (None, w) => (Some (inl authorizationID), w)
      end
  end.

Definition whoami_roots (config : configuration) : ST W (R + toolError) :=
  loadRoots (cf_caFile config) false "read FreeIPA CA" "FreeIPA CA file contains no usable certificates".

(** [run] of the whoami command: the identity that it prints, or its error. *)
Definition whoami_run (Getenv : string -> bytes) : ST W (option (bytes + toolError)) := fun w =>
  match loadConfiguration Getenv with
  | Err err => (Some (inr (ToolError (Plain err))), w)
  | Ok config =>
      match whoami_roots config w with
      | (inr err, w) => (Some (inr err), w)
      | (inl roots, w) => withConnection roots "freeipa-compose" config whoami_body w
      end
  end.

Definition rootAttributes : list bytes := [bs "supportedLDAPVersion"; bs "supportedSASLMechanisms"].

(** [run] of the smoke test after dialing. *)
Definition smoke_body (fuel : nat) (ctx : GoContext) (conn : C) : ST W (option (bytes * bytes + toolError)) := fun w =>
  match requireIdentity "Who Am I? reported an anonymous authorization identity after GSSAPI Bind" ctx conn w with
  | (inr err, w) => (Some (inr err), w)
  | (inl authorizationID, w) =>
      match RootDSE (Executor0 := conn_Executor conn ctx) fuel rootAttributes w with
      | (None, w) => (None, w)
      | (Some (inr err), w) => (Some (inr (ToolClient err)), w)
      | (Some (inl rootDSE), w) =>
          if negb (Entry_Contains rootDSE (bs "supportedLDAPVersion") (bs "3"))
          then (Some (inr (tool_fails "root DSE does not advertise LDAPv3")), w)
          else
            let '(identity, w) := conn_Identity conn w in
            match conn_Close conn w with
            | (Some err, w) => (Some (inr (ToolError err)), w)
            | (None, w) => (Some (inl (authorizationID, StableID identity)), w)
            end
      end
  end.

Definition smoke_roots (config : configuration) : ST W (R + toolError) :=
  loadRoots (cf_caFile config) true "read CA file" "CA file contains no usable certificates".

(** [run] of the smoke test: the two identities that it prints, or its error. *)
Definition smoke_run (fuel : nat) (config : configuration) : ST W (option (bytes * bytes + toolError)) := fun w =>
  match checkConfiguration config with
  | Some err => (Some (inr (ToolError (Plain err))), w)
  | None =>
      match smoke_roots config w with
      | (inr err, w) => (Some (inr err), w)
      | (inl roots, w) => withConnection roots "freeipa-gssapi-smoke" config (smoke_body fuel) w
      end
  end.

(** ** Sessions *)

(** Dialing gave a connection: by direct TLS of version 1.2 or later (771 is its
    number) with the certificate pool and the GSSAPI mechanism of the identity, and
    with a context that ends when the timeout of the configuration is over. *)
Definition session (roots : R) (id : EndpointID) (config : configuration) (w : W) (ctx : GoContext) (conn : C) (w1 : W) : Prop :=
  exists authentication, native_New (cf_stableID config) [] = Ok authentication /\
    ctx = MkContext (Some (time_Now w + cf_timeout config)) /\
    dialer_Dial (MkDialer 771 roots authentication) ctx
      (MkEndpoint id (cf_address config) (cf_serverName config) TransportDirectTLS) w = (inl conn, w1).

(** What a tool did. It made no connection and failed, with the context canceled if
    it had come that far; or the connection was made with these roots for this
    configuration, and the last things the tool did are to close it and to cancel
    the context; then a result has been verified. *)
Definition tool_outcome {B} (roots_of : ST W (R + toolError)) (id : EndpointID) (config : configuration)
    (verified : GoContext -> C -> W -> B -> W -> Prop) (w : W) (r : B + toolError) (w' : W) : Prop :=
  ((exists err, r = inr err) /\
   forall roots w0, roots_of w = (inl roots, w0) ->
     (forall ctx conn w1, ~ session roots id config w0 ctx conn w1) /\
     (forall auth, native_New (cf_stableID config) [] = Ok auth ->
        exists w1, w' = snd (context_cancel (MkContext (Some (time_Now w0 + cf_timeout config))) w1))) \/
  exists roots w0 ctx conn w1 w2, roots_of w = (inl roots, w0) /\ session roots id config w0 ctx conn w1 /\
    w' = snd (context_cancel ctx (snd (conn_Close conn w2))) /\ forall b, r = inl b -> verified ctx conn w1 b w2.

Lemma toolContext_deadline config w : toolContext config w = MkContext (Some (time_Now w + cf_timeout config)).
Proof. done. Qed.

Lemma withConnection_outcome {B} roots_of id config (body : GoContext -> C -> ST W (option (B + toolError))) verified w w0 roots r w' :
  roots_of w = (inl roots, w0) ->
  (forall ctx conn w1 b w2, body ctx conn w1 = (Some (inl b), w2) -> verified ctx conn w1 b w2) ->
  withConnection roots id config body w0 = (Some r, w') -> tool_outcome roots_of id config verified w r w'.
Proof.
  intros Hr Hb. unfold withConnection, tool_outcome, session. rewrite toolContext_deadline.
  set (ctx := MkContext (Some (time_Now w0 + cf_timeout config))). destruct (native_New _ _) as [auth|err] eqn:En.
  2:{ intros [= <- <-]. left. split; [by eexists|]. intros ? ? _. split; [|done]. intros ? ? ? (? & ? & _). congruence. }
  cbv zeta. destruct (dialer_Dial _ _ _ w0) as [[conn|err] w1] eqn:Ed.
  2:{ destruct (context_cancel ctx w1) as [u w2] eqn:Ec. intros [= <- <-]. left. split; [by eexists|]. intros roots' w0' Hr'.
      rewrite Hr in Hr'. injection Hr' as <- <-. split; [|intros _ _; exists w1; fold ctx; by rewrite Ec].
      intros ? ? ? (auth' & Ha & -> & Hd). injection Ha as <-. fold ctx in Hd. unfold toolDialer, toolEndpoint, VersionTLS12 in Ed. congruence. }
  destruct (body ctx conn w1) as [[res|] w2] eqn:Eb; [|done]. destruct (conn_Close conn w2) as [closed w3] eqn:Ec.
  destruct (context_cancel ctx w3) as [u w4] eqn:Ex. intros [= -> ->]. right. exists roots, w0, ctx, conn, w1, w2.
  split; [done|]. split; [by exists auth|]. split; [by rewrite Ec; cbn; rewrite Ex|]. intros b ->. by apply Hb.
Qed.

Lemma roots_failed {B} roots_of id config (verified : GoContext -> C -> W -> B -> W -> Prop) w err w' : roots_of w = (inr err, w') ->
  tool_outcome roots_of id config verified w (inr err) w'.
Proof. intros Hr. left. split; [by eexists|]. intros. congruence. Qed.

Lemma requireIdentity_ok anonymous ctx conn w identity w' : requireIdentity anonymous ctx conn w = (inl identity, w') ->
  WhoAmI (Some (conn_Executor conn ctx)) w = (inl identity, w') /\ identity <> [] /\ utf8_Valid identity = true.
Proof.
  unfold requireIdentity. destruct (WhoAmI _ w) as [[id|err] w1] eqn:E; [|done]. case_bool_decide; [done|]. intros [= <- <-].
  split; [done|]. split; [done|]. assert (fst (WhoAmI (Some (conn_Executor conn ctx)) w) = inl id) as Hw by by rewrite E.
  apply whoami_exact in Hw as (? & ? & ? & ? & ? & ? & ? & _ & _ & _ & _ & _ & Hi). apply Hi.
Qed.

(** The server named an identity and closing the connection gave no error. *)
Definition identified (ctx : GoContext) (conn : C) (w1 : W) (identity : bytes) (w2 : W) : Prop :=
  identity <> [] /\ utf8_Valid identity = true /\
  exists w3, WhoAmI (Some (conn_Executor conn ctx)) w1 = (inl identity, w3) /\ conn_Close conn w3 = (None, w2).

(** It also described itself as an LDAPv3 server. *)
Definition checked (fuel : nat) (ctx : GoContext) (conn : C) (w1 : W) (identities : bytes * bytes) (w2 : W) : Prop :=
  identities.1 <> [] /\ utf8_Valid identities.1 = true /\
  exists w3 w4 w5 rootDSE, WhoAmI (Some (conn_Executor conn ctx)) w1 = (inl identities.1, w3) /\
    RootDSE (Executor0 := conn_Executor conn ctx) fuel rootAttributes w3 = (Some (inl rootDSE), w4) /\
    Entry_Contains rootDSE (bs "supportedLDAPVersion") (bs "3") = true /\
    conn_Identity conn w4 = (MkIdentity identities.2, w5) /\ conn_Close conn w5 = (None, w2).

Lemma whoami_body_ok ctx conn w1 b w2 : whoami_body ctx conn w1 = (Some (inl b), w2) -> identified ctx conn w1 b w2.
Proof.
  unfold whoami_body. destruct (requireIdentity _ ctx conn w1) as [[id|err] w3] eqn:Er; [|done].
  destruct (conn_Close conn w3) as [[err|] w4] eqn:Ec; [done|]. intros [= <- <-].
  apply requireIdentity_ok in Er as (Hw & Hne & Hu). split; [done|]. split; [done|]. by exists w3.
Qed.

Lemma smoke_body_ok fuel ctx conn w1 b w2 : smoke_body fuel ctx conn w1 = (Some (inl b), w2) -> checked fuel ctx conn w1 b w2.
Proof.
  unfold smoke_body. destruct (requireIdentity _ ctx conn w1) as [[id|err] w3] eqn:Er; [|done].
  destruct (RootDSE _ _ w3) as [[[rootDSE|err]|] w4] eqn:Ed; [|done|done].
  destruct (Entry_Contains _ _ _) eqn:Ee; [|done]. cbn [negb]. destruct (conn_Identity conn w4) as [[identity] w5] eqn:Ei.
  destruct (conn_Close conn w5) as [[err|] w6] eqn:Ec; [done|]. intros [= <- <-].
  apply requireIdentity_ok in Er as (Hw & Hne & Hu). split; [done|]. split; [done|]. by exists w3, w4, w5, rootDSE.
Qed.

Lemma whoami_body_returns ctx conn w1 : fst (whoami_body ctx conn w1) <> None.
Proof.
  unfold whoami_body. destruct (requireIdentity _ ctx conn w1) as [[id|err] w3]; [|done]. by destruct (conn_Close conn w3) as [[err|] w4].
Qed.

Lemma loadRoots_config caFile optional reading empty w roots w0 : loadRoots caFile optional reading empty w = (inl roots, w0) ->
  optional = true /\ caFile = [] \/ exists pool pem w1, os_ReadFile caFile w1 = (inl pem, w0) /\ AppendCertsFromPEM pool pem = (true, roots).
Proof.
  unfold loadRoots, addRoots. destruct (systemRoots w) as [[pool|] w1]; [|done]. destruct (optional && _) eqn:E.
  - intros _. left. apply andb_true_iff in E as [-> Hc]. by apply bool_decide_eq_true in Hc.
  - destruct (os_ReadFile caFile w1) as [[pem|] w2] eqn:Ep; [|done].
    destruct (AppendCertsFromPEM pool pem) as [[|] roots'] eqn:Ea; [|done]. intros [= -> ->]. right. by exists pool, pem, w1.
Qed.

(** A configuration that can be dialed. *)
Definition usable (id : EndpointID) (config : configuration) : Prop :=
  Endpoint_Validate (toolEndpoint id config) = None /\ 0 < cf_timeout config < 2 ^ 63.

Lemma toolEndpoint_valid id config : id <> ""%string -> cf_address config <> [] -> cf_serverName config <> [] ->
  Endpoint_Validate (toolEndpoint id config) = None.
Proof.
  intros Hid Ha Hs. unfold Endpoint_Validate, EndpointID_Validate. cbn [ep_ID ep_Address ep_ServerName ep_Transport toolEndpoint].
  by rewrite !bool_decide_false.
Qed.

Lemma loadConfiguration_usable Getenv config : loadConfiguration Getenv = Ok config ->
  usable "freeipa-compose" config /\ cf_caFile config = Getenv "ARDEN_CA_FILE" /\ cf_caFile config <> [] /\
  cf_address config = Getenv "ARDEN_ADDRESS" /\ cf_serverName config = Getenv "ARDEN_SERVER_NAME" /\ cf_stableID config <> [].
Proof.
  unfold loadConfiguration. set (sid := if bool_decide _ then bs "freeipa-compose-client" else _).
  assert (sid <> []) as Hsid by (unfold sid; by case_bool_decide). set (timeout := if bool_decide _ then _ else _).
  assert (forall t, timeout = Ok t -> t < 2 ^ 63) as Ht.
  { unfold timeout. case_bool_decide; [by intros t [= <-]|]. destruct (ParseDuration _) as [d|] eqn:Ed; [|done].
    intros t [= <-]. apply ParseDuration_range in Ed. lia. }
  destruct timeout as [t|]; [|done]. specialize (Ht t eq_refl). cbn [mbind result_bind cf_address cf_serverName cf_caFile cf_timeout].
  case_bool_decide; [done|]. case_bool_decide; [done|]. case_bool_decide; [done|]. destruct (t <=? 0) eqn:E0; [done|].
  intros [= <-]. cbn [cf_caFile cf_stableID cf_address cf_serverName]. split; [|done]. split; [by apply toolEndpoint_valid|]. cbn. lia.
Qed.

Lemma withConnection_stuck {B} id config (body : GoContext -> C -> ST W (option (B + toolError))) roots w w' :
  withConnection roots id config body w = (None, w') ->
  exists ctx conn w1, session roots id config w ctx conn w1 /\ body ctx conn w1 = (None, w').
Proof.
  unfold withConnection, session. rewrite toolContext_deadline.
  set (ctx := MkContext (Some (time_Now w + cf_timeout config))). destruct (native_New _ _) as [auth|err] eqn:En; [|done]. cbv zeta.
  destruct (dialer_Dial _ _ _ w) as [[conn|err] w1] eqn:Ed; [|by destruct (context_cancel ctx w1)].
  destruct (body ctx conn w1) as [[res|] w2] eqn:Eb.
  - destruct (conn_Close conn w2) as [closed w3]. by destruct (context_cancel ctx w3).
  - intros [= ->]. exists ctx, conn, w1. eauto 6.
Qed.

Lemma whoami_run_outcome Getenv config w : loadConfiguration Getenv = Ok config -> exists r w',
  whoami_run Getenv w = (Some r, w') /\
  tool_outcome (whoami_roots config) "freeipa-compose" config identified w r w'.
Proof.
  intros Hc. unfold whoami_run. rewrite Hc. destruct (whoami_roots config w) as [[roots|err] w0] eqn:Er.
  2:{ eexists _, _. split; [done|]. by apply roots_failed. }
  destruct (withConnection roots _ config whoami_body w0) as [[r|] w'] eqn:Ew.
  - eexists _, _. split; [done|]. by eapply withConnection_outcome; [|apply whoami_body_ok|].
  - apply withConnection_stuck in Ew as (ctx & conn & w1 & _ & Hb). by destruct (whoami_body_returns ctx conn w1); rewrite Hb.
Qed.

Lemma smoke_run_outcome fuel config w : checkConfiguration config = None ->
  match smoke_run fuel config w with
  | (Some r, w') => tool_outcome (smoke_roots config) "freeipa-gssapi-smoke" config (checked fuel) w r w'
  | (None, w') => exists roots w0 ctx conn w1 w2, smoke_roots config w = (inl roots, w0) /\
      session roots "freeipa-gssapi-smoke" config w0 ctx conn w1 /\
      RootDSE (Executor0 := conn_Executor conn ctx) fuel rootAttributes w2 = (None, w')
  end.
Proof.
  intros Hc. unfold smoke_run. rewrite Hc. destruct (smoke_roots config w) as [[roots|err] w0] eqn:Er; [|by apply roots_failed].
  destruct (withConnection roots _ config (smoke_body fuel) w0) as [[r|] w'] eqn:Ew.
  - by eapply withConnection_outcome; [|apply smoke_body_ok|].
  - apply withConnection_stuck in Ew as (ctx & conn & w1 & Hs & Hb). unfold smoke_body in Hb.
    destruct (requireIdentity _ ctx conn w1) as [[id|err] w2]; [|done]. exists roots, w0, ctx, conn, w1, w2. split; [done|]. split; [done|].
    destruct (RootDSE _ _ w2) as [[[rootDSE|err]|] w3]; [|done|naive_solver]. destruct (negb _); [done|].
    destruct (conn_Identity conn w3) as [identity w4]. by destruct (conn_Close conn w4) as [[err|] w5].
Qed.

Lemma checkConfiguration_dialable config : checkConfiguration config = None ->
  Endpoint_Validate (toolEndpoint "freeipa-gssapi-smoke" config) = None /\ 0 < cf_timeout config.
Proof.
  unfold checkConfiguration. case_bool_decide; [done|]. case_bool_decide; [done|]. cbn [orb]. destruct (_ <=? 0) eqn:E; [done|].
  intros _. split; [by apply toolEndpoint_valid|lia].
Qed.

(** C36. The command-line tools own the connection they make. With a configuration
    that is refused, they do nothing but report it: no file is read and nothing is
    dialed. Otherwise the endpoint is a valid one of direct TLS, and it is dialed
    with TLS 1.2 as the oldest version, the GSSAPI mechanism of the configured
    identity and a context whose deadline is the positive timeout of the
    configuration after the start; for the whoami command, the certificates of the
    CA file are among the roots. A tool that gets a connection closes it and then
    cancels the context, on every path on which it returns, as the last things it
    does; one that gets none fails, and cancels the context if it had made it. A
    success means that with that context the server named a non-empty UTF-8 identity
    on that connection, for the smoke test also that its root DSE lists LDAP version
    3, and that closing the connection gave no error. *)
Theorem tools_own_connections :
  (forall Getenv w,
    match loadConfiguration Getenv with
    | Err err => whoami_run Getenv w = (Some (inr (ToolError (Plain err))), w)
    | Ok config => usable "freeipa-compose" config /\ cf_caFile config = Getenv "ARDEN_CA_FILE" /\
        (forall w roots w0, whoami_roots config w = (inl roots, w0) ->
           exists pool pem w1, os_ReadFile (cf_caFile config) w1 = (inl pem, w0) /\ AppendCertsFromPEM pool pem = (true, roots)) /\
        exists r w', whoami_run Getenv w = (Some r, w') /\
          tool_outcome (whoami_roots config) "freeipa-compose" config identified w r w'
    end) /\
  (forall fuel config w,
    match checkConfiguration config with
    | Some err => smoke_run fuel config w = (Some (inr (ToolError (Plain err))), w)
    | None => Endpoint_Validate (toolEndpoint "freeipa-gssapi-smoke" config) = None /\ 0 < cf_timeout config /\
        match smoke_run fuel config w with
        | (Some r, w') => tool_outcome (smoke_roots config) "freeipa-gssapi-smoke" config (checked fuel) w r w'
        | (None, w') => exists roots w0 ctx conn w1 w2, smoke_roots config w = (inl roots, w0) /\
            session roots "freeipa-gssapi-smoke" config w0 ctx conn w1 /\
            RootDSE (Executor0 := conn_Executor conn ctx) fuel rootAttributes w2 = (None, w')
        end
    end).
Proof.
  split.
  - intros Getenv w. destruct (loadConfiguration Getenv) as [config|err] eqn:Ec; [|unfold whoami_run; by rewrite Ec].
    destruct (loadConfiguration_usable _ _ Ec) as (Hu & Hca & _). split; [done|]. split; [done|].
    split; [|by apply whoami_run_outcome]. intros w1 roots w0 [[? _]|Hr]%loadRoots_config; [done|exact Hr].
  - intros fuel config w. destruct (checkConfiguration config) as [err|] eqn:Ec; [unfold smoke_run; by rewrite Ec|].
    destruct (checkConfiguration_dialable _ Ec) as [He Ht]. split; [done|]. split; [done|]. by apply smoke_run_outcome.
Qed.
End tools.

(** ** The whoami command over a network that splits every write *)

Definition sample_whoami_reply : Reply := MkReply sample_identity_tree false [].
Definition sample_whoami_server (data : bytes) : bytes :=
  match ParseResponse data DefaultLimits with
  | Ok m => enc (reply_tree (rsp_MessageID m) sample_whoami_reply)
  | Err _ => []
  end.

Definition sample_platform : Platform (Conn * Net) nat unit := {|
  x509_SystemCertPool w := (None, None, w);
  x509_NewCertPool := O;
  AppendCertsFromPEM roots pem := (negb (bool_decide (pem = [])), S roots);
  os_ReadFile name w := (if bool_decide (name = bs "ca.pem") then inl [1] else inr (Plain (ErrorString "no such file")), w);
  gogssapi_NewProvider name w := (Some tt, None, w);
  time_Now _ := 1000;
  context_cancel _ w := (tt, w)
|}.

(** Dialing by the deadline makes the connection of the state, closing retires it. *)
Definition sample_connections : Connections (Conn * Net) nat unit unit OpRef := {|
  dialer_Dial d ctx endpoint w :=
    match Endpoint_Validate endpoint, dl_RootCAs d, bool_decide (cx_Deadline ctx = Some (1000 + 90 * Second)) with
    | None, S O, true => (inl tt, (sample_new, sample_net))
    | _, _, _ => (inr (Plain (ErrorString "refused")), w)
    end;
  conn_Executor _ _ := conn_executor sample_whoami_server;
  conn_Identity _ w := (MkIdentity (bs "a"), w);
  conn_Close _ '(c, n) := (None, (retire (Some ErrClosed) c, n))
|}.

Definition sample_env (name : string) : bytes :=
  if bool_decide (name = "ARDEN_ADDRESS"%string) then bs "ipa:636"
  else if bool_decide (name = "ARDEN_SERVER_NAME"%string) then bs "ipa"
  else if bool_decide (name = "ARDEN_CA_FILE"%string) then bs "ca.pem"
  else if bool_decide (name = "ARDEN_TIMEOUT"%string) then bs "1m30s" else [].

Definition whoami_sample (env : string -> bytes) : option (bytes + toolError) * bool :=
  let '(r, (c, _)) := whoami_run (Platform0 := sample_platform) (Connections0 := sample_connections) env (sample_new, sample_net) in
  (r, bool_decide (c_err c = None)).

Example whoami_prints_identity : whoami_sample sample_env = (Some (inl (ext_ResponseValue sample_identity)), false).
Proof. vm_compute. reflexivity. Qed.

Example whoami_bad_timeout :
  whoami_sample (fun name => if bool_decide (name = "ARDEN_TIMEOUT"%string) then bs "0.0s" else sample_env name) =
  (Some (inr (tool_fails "ARDEN_TIMEOUT must be positive")), true).
Proof. vm_compute. reflexivity. Qed.

Example durations :
  map (fun s => ParseDuration (bs s)) ["1m30s"; "-2h45m"; ".5s"; "0.3333333333333333333h"; "9007199254.740993ms"; "-9223372036854775808ns"]%string =
  map Ok [90 * Second; - 165 * Minute; Second / 2; 20 * Minute; 2 ^ 53 + 1; - 2 ^ 63].
Proof. vm_compute. reflexivity. Qed.
