(* ===== verification/Gen.v ===== *)
(** * The model generator: resolution of a configuration

    Models src/gen: the configuration (config.go), the syntax table and naming rules
    (syntax.go), the resolution of schema and models (resolve.go) and the quoting and
    output paths of generate.go. Reading YAML and expanding the text templates are
    not modelled.

    A map of the source is a [gmap]; where the code ranges over one without sorting
    its keys, the order only decides which of several errors is reported, and the
    model uses the sorted order. Identifiers and expressions of Go are recognized by
    packages [go/token], [go/ast] and [go/parser]: on ASCII text the first two are
    written out, the parser is a parameter that returns the alternatives the code
    distinguishes. *)

From S2P Require Import Prelude Wire Packet Reader Decoder Types Result Attributes ModelCodecs Model.

(** ** Configuration *)

Record GenAttribute := MkGenAttribute {
  ga_OID : bytes;
  ga_Description : bytes;
  ga_Sup : bytes;
  ga_Syntax : bytes;
  ga_Equality : bytes;
  ga_Ordering : bytes;
  ga_Substr : bytes;
  ga_SingleValue : option bool
}.

Record GenClass := MkGenClass {
  gc_OID : bytes;
  gc_Description : bytes;
  gc_Sup : list bytes;
  gc_Kind : bytes;
  gc_Must : list bytes;
  gc_May : list bytes
}.

Record Override := MkOverride { o_Name : bytes; o_Type : bytes; o_Codec : bytes; o_Read : bytes }.
#[export] Instance Zero_Override : Zero Override := MkOverride [] [] [] [].

Record GenModel := MkGenModel {
  gm_Name : bytes;
  gm_Package : bytes;
  gm_Constructor : bytes;
  gm_AttributePrefix : bytes;
  gm_ObjectClasses : list bytes;
  gm_Scope : bytes;
  gm_NamingAttribute : bytes;
  gm_Overrides : gmap bytes Override;
  gm_Imports : gmap bytes bytes;
  gm_Validate : bytes;
  gm_Equality : list bytes
}.

Record Schema := MkSchema {
  sc_Origin : bytes;
  sc_attributeBase : bytes;
  sc_classBase : bytes;
  sc_externalAttributes : gmap bytes GenAttribute;
  sc_externalClasses : list bytes;
  sc_Attributes : gmap bytes GenAttribute;
  sc_ObjectClasses : gmap bytes GenClass
}.

Record Config := MkConfig { cf_Version : Z; cf_Schema : Schema; cf_Models : list GenModel }.

(** ** Syntaxes and names *)

Record syntaxInfo := MkSyntax { sy_oid : bytes; sy_goType : bytes; sy_codec : bytes }.

Definition syntaxes : list (bytes * syntaxInfo) :=
  [(bs "directoryString", MkSyntax (bs "1.3.6.1.4.1.1466.115.121.1.15") (bs "string") (bs "ldapmodel.DirectoryStringCodec"));
   (bs "ia5String", MkSyntax (bs "1.3.6.1.4.1.1466.115.121.1.26") (bs "string") (bs "ldapmodel.IA5StringCodec"));
   (bs "numericString", MkSyntax (bs "1.3.6.1.4.1.1466.115.121.1.36") (bs "string") (bs "ldapmodel.NumericStringCodec"));
   (bs "boolean", MkSyntax (bs "1.3.6.1.4.1.1466.115.121.1.7") (bs "bool") (bs "ldapmodel.BoolCodec"));
   (bs "integer", MkSyntax (bs "1.3.6.1.4.1.1466.115.121.1.27") (bs "int64") (bs "ldapmodel.Int64Codec"));
   (bs "octetString", MkSyntax (bs "1.3.6.1.4.1.1466.115.121.1.40") (bs "[]byte") (bs "ldapmodel.BytesCodec"));
   (bs "dn", MkSyntax (bs "1.3.6.1.4.1.1466.115.121.1.12") (bs "arden.LDAPDN") (bs "ldapmodel.DNCodec"));
   (bs "generalizedTime", MkSyntax (bs "1.3.6.1.4.1.1466.115.121.1.24") (bs "time.Time") (bs "ldapmodel.GeneralizedTimeCodec"))].

Definition typeCodecs : list (bytes * bytes) :=
  [(bs "string", bs "ldapmodel.StringCodec"); (bs "bool", bs "ldapmodel.BoolCodec");
   (bs "int64", bs "ldapmodel.Int64Codec"); (bs "uint32", bs "ldapmodel.Uint32Codec"); (bs "uint64", bs "ldapmodel.Uint64Codec");
   (bs "[]byte", bs "ldapmodel.BytesCodec"); (bs "arden.LDAPDN", bs "ldapmodel.DNCodec");
   (bs "time.Time", bs "ldapmodel.GeneralizedTimeCodec")].

Definition assoc {V} (key : bytes) (l : list (bytes * V)) : option V :=
  snd <$> List.find (fun '(k, _) => bool_decide (k = key)) l.

Definition syntaxFor (value : bytes) : syntaxInfo :=
  match assoc value syntaxes with
  | Some s => s
  | None =>
      match List.find (fun '(_, s) => bool_decide (sy_oid s = value)) syntaxes with
      | Some (_, s) => s
      | None => MkSyntax value [] []
      end
  end.

(** Go's treatment of text beyond ASCII, and its expression parser. *)
Inductive Expr :=
| Ident (Name : bytes)
| SelectorExpr (X : Expr) (Sel : bytes)
| ArrayType (hasLen : bool) (Elt : Expr)
| StarExpr (X : Expr)
| OtherExpr.

Class GoSource := {
  upperUnicode : bytes -> bytes;
  identifierUnicode : bytes -> bool;
  exportedUnicode : bytes -> bool;
  ParseExpr : bytes -> option Expr
}.

Definition keywords : list bytes :=
  map bs ["break"; "case"; "chan"; "const"; "continue"; "default"; "defer"; "else"; "fallthrough"; "for"; "func"; "go";
          "goto"; "if"; "import"; "interface"; "map"; "package"; "range"; "return"; "select"; "struct"; "switch"; "type";
          "var"]%string.

Definition identifierChar (c : Z) : bool := isLetter c || isDigit c || (c =? 95).

Section names.
Context `{U : GoUnicode, F : GoFold, G : GoSource}.

(** [token.IsIdentifier] and [ast.IsExported]. *)
Definition IsIdentifier (name : bytes) : bool :=
  if isASCII name then
    match name with
    | [] => false
    | c :: _ => negb (isDigit c) && forallb identifierChar name && negb (bool_decide (name ∈ keywords))
    end
  else identifierUnicode name.
Definition IsExported (name : bytes) : bool :=
  match name with
  | [] => false
  | c :: _ => if c <? 0x80 then in_range 65 90 c else exportedUnicode name
  end.

Definition exported (name : bytes) : bytes :=
  match name with
  | [] => []
  | c :: rest => if c <? 0x80 then (if in_range 97 122 c then c - 32 else c) :: rest else upperUnicode name
  end.

Definition HasSuffix (s suffix : bytes) : bool :=
  bool_decide (drop (length s - length suffix) s = suffix).
Definition TrimPrefix (s prefix : bytes) : bytes :=
  if bool_decide (take (length prefix) s = prefix) then drop (length prefix) s else s.

Definition plural (name : bytes) : bytes :=
  let lower := ToLower name in
  if HasSuffix lower (bs "y") && (len lower >? 1) &&
     negb (existsb (Z.eqb (nth (length lower - 2) lower 0)) (bs "aeiou"))
  then take (length name - 1) name ++ bs "ies"
  else if existsb (HasSuffix lower) [bs "s"; bs "x"; bs "z"; bs "ch"; bs "sh"] then name ++ bs "es"
  else name ++ bs "s".

(** ** Object identifiers *)

Fixpoint SplitOn (sep : Z) (s : bytes) : list bytes :=
  match s with
  | [] => [[]]
  | c :: s =>
      if c =? sep then [] :: SplitOn sep s
      else match SplitOn sep s with part :: parts => (c :: part) :: parts | [] => [[c]] end
  end.

(** The regular expressions: a number without leading zeros; 0, 1 or 2 followed by
    one or more dots with numbers; a letter followed by letters, digits and hyphens. *)
Definition oidSuffix (s : bytes) : bool := bool_decide (s = [48]) || canonical s.
Definition numericOID (s : bytes) : bool :=
  match SplitOn 46 s with
  | first :: ((_ :: _) as rest) => existsb (fun d => bool_decide (first = bs d)) ["0"; "1"; "2"]%string && forallb oidSuffix rest
  | _ => false
  end.
Definition ldapName (s : bytes) : bool := rdnAttributeName s.

Definition expandOID (base value : bytes) : result bytes :=
  let value := if oidSuffix value && negb (bool_decide (base = [])) then base ++ bs "." ++ value else value in
  if negb (numericOID value) then Err (FormatError "invalid OID %q" [value])
  else
    match SplitOn 46 value with
    | first :: second :: _ =>
        if bool_decide (first = bs "2") then Ok value
        else
          match ParseInt second 64 with
          | (_, Some _) => Err (FormatError "invalid OID %q" [value])
          | (n, None) => if n >? 39 then Err (FormatError "invalid OID %q" [value]) else Ok value
          end
    | _ => Ok value
    end.

(** ** Resolved definitions *)

Record resolvedAttribute := MkResolvedAttribute { ra_Name : bytes; ra_Attribute : GenAttribute }.
Record resolvedClass := MkResolvedClass { rc_Name : bytes; rc_Class : GenClass }.
Record field := MkField { f_LDAP : bytes; f_Name : bytes; f_Type : bytes; f_Codec : bytes; f_Read : bytes }.
Record resolvedModel := MkResolvedModel {
  rm_Model : GenModel;
  rm_Fields : list field;
  rm_Classes : list bytes;
  rm_Naming : bytes;
  rm_Predicates : list field;
  rm_UsedImports : gmap bytes bytes
}.
Record resolved := MkResolved {
  r_attrs : gmap bytes resolvedAttribute;
  r_classes : gmap bytes resolvedClass;
  r_ownedAttrs : list bytes;
  r_ownedClasses : list bytes;
  r_models : list resolvedModel
}.

Definition sortedKeys {V} (m : gmap bytes V) : list bytes := Sort (map fst (map_to_list m)).

(** ** Inheritance of attributes *)

Definition orElse (value inherited : bytes) : bytes := if bool_decide (value = []) then inherited else value.
Definition orElseFlag (value inherited : option bool) : option bool :=
  match value with None => inherited | Some _ => value end.

(** What an attribute takes from its resolved parent. *)
Definition inherit (a parent : GenAttribute) : GenAttribute :=
  MkGenAttribute (ga_OID a) (ga_Description a) (ga_Sup a) (orElse (ga_Syntax a) (ga_Syntax parent))
    (orElse (ga_Equality a) (ga_Equality parent)) (orElse (ga_Ordering a) (ga_Ordering parent))
    (orElse (ga_Substr a) (ga_Substr parent)) (orElseFlag (ga_SingleValue a) (ga_SingleValue parent)).
Definition with_syntax (a : GenAttribute) (syntax : bytes) : GenAttribute :=
  MkGenAttribute (ga_OID a) (ga_Description a) (ga_Sup a) syntax (ga_Equality a) (ga_Ordering a) (ga_Substr a)
    (ga_SingleValue a).

Definition validRule (rule : bytes) : bool := bool_decide (rule = []) || ldapName rule || numericOID rule.

(** The checks after inheritance. *)
Definition finishAttribute (name : bytes) (a : GenAttribute) : result resolvedAttribute :=
  let a := with_syntax a (sy_oid (syntaxFor (ga_Syntax a))) in
  match expandOID [] (ga_Syntax a) with
  | Err _ => Err (FormatError "attribute %s: invalid syntax %q" [name; ga_Syntax a])
  | Ok _ =>
      match List.find (fun rule => negb (validRule rule)) [ga_Equality a; ga_Ordering a; ga_Substr a] with
      | Some rule => Err (FormatError "attribute %s: invalid matching rule %q" [name; rule])
      | None => Ok (MkResolvedAttribute name a)
      end
  end.

(** The recursion follows [sup]; every round adds a key to [visiting]. *)
Fixpoint attribute (fuel : nat) (attrs : gmap bytes resolvedAttribute) (key : bytes) (visiting : gset bytes)
    : result resolvedAttribute :=
  match fuel with
  | O => Err FuelExhausted
  | S fuel =>
      let key := ToLower key in
      match attrs !! key with
      | None => Err (FormatError "unknown attribute %q" [key])
      | Some (MkResolvedAttribute name a) =>
          if bool_decide (key ∈ visiting) then Err (FormatError "attribute inheritance cycle at %s" [name])
          else if bool_decide (ga_Sup a = []) then finishAttribute name a
          else
            parent ← attribute fuel attrs (ga_Sup a) ({[key]} ∪ visiting);
            let a' := inherit a (ra_Attribute parent) in
            if bool_decide (ga_SingleValue (ra_Attribute parent) = Some true) && bool_decide (ga_SingleValue a' = Some false)
            then Err (FormatError "attribute %s cannot relax inherited singleValue" [name])
            else finishAttribute name a'
      end
  end.
Definition resolved_attribute (attrs : gmap bytes resolvedAttribute) (key : bytes) : result resolvedAttribute :=
  attribute (S (size attrs)) attrs key ∅.

(** ** Members of object classes *)

Record walkState := MkWalk {
  wk_classes : list bytes;
  wk_attrs : gmap bytes bool;
  wk_seen : gset bytes;
  wk_active : gset bytes
}.

(** One list of members: [declared] are those of the class so far. *)
Fixpoint declareMembers (known : gmap bytes resolvedAttribute) (class : bytes) (required : bool) (names : list bytes)
    (declared : gset bytes) (attrs : gmap bytes bool) : result (gset bytes * gmap bytes bool) :=
  match names with
  | [] => Ok (declared, attrs)
  | name :: names =>
      let a := ToLower name in
      match known !! a with
      | None => Err (FormatError "object class %s: unknown attribute %q" [class; name])
      | Some _ =>
          if bool_decide (a ∈ declared) then Err (FormatError "object class %s: duplicate member %s" [class; name])
          else declareMembers known class required names ({[a]} ∪ declared)
                 (<[a := default false (attrs !! a) || required]> attrs)
      end
  end.
Definition declareClass (known : gmap bytes resolvedAttribute) (cl : resolvedClass) (attrs : gmap bytes bool)
    : result (gmap bytes bool) :=
  '(declared, attrs) ← declareMembers known (rc_Name cl) true (gc_Must (rc_Class cl)) ∅ attrs;
  '(_, attrs) ← declareMembers known (rc_Name cl) false (gc_May (rc_Class cl)) declared attrs;
  Ok attrs.

Definition walkAll (walk : bytes -> walkState -> result walkState) : list bytes -> walkState -> result walkState :=
  fix loop (names : list bytes) (w : walkState) : result walkState :=
    match names with
    | [] => Ok w
    | name :: names => w ← walk name w; loop names w
    end.

Fixpoint walk (fuel : nat) (known : gmap bytes resolvedAttribute) (classes : gmap bytes resolvedClass) (key : bytes)
    (w : walkState) : result walkState :=
  match fuel with
  | O => Err FuelExhausted
  | S fuel =>
      let key := ToLower key in
      match classes !! key with
      | None => Err (FormatError "unknown object class %q" [key])
      | Some cl =>
          if bool_decide (key ∈ wk_active w) then Err (FormatError "object class inheritance cycle at %s" [rc_Name cl])
          else if bool_decide (key ∈ wk_seen w) then Ok w
          else
            w ← walkAll (walk fuel known classes) (gc_Sup (rc_Class cl))
                  (MkWalk (wk_classes w) (wk_attrs w) (wk_seen w) ({[key]} ∪ wk_active w));
            attrs ← declareClass known cl (wk_attrs w);
            Ok (MkWalk (wk_classes w ++ [rc_Name cl]) attrs ({[key]} ∪ wk_seen w) (wk_active w ∖ {[key]}))
      end
  end.
Definition members (known : gmap bytes resolvedAttribute) (classes : gmap bytes resolvedClass) (roots : list bytes)
    : result (list bytes * gmap bytes bool) :=
  w ← walkAll (walk (S (size classes)) known classes) roots (MkWalk [] ∅ ∅ ∅);
  Ok (wk_classes w, wk_attrs w).

(** ** Expressions of the configuration *)

Definition badPath (s : bytes) : bool := existsb (fun c => existsb (Z.eqb c) [10; 13; 34; 92; 32]) s.
Definition knownImports : list (bytes * bytes) :=
  [(bs "arden", bs "github.com/wyattanderson/arden"); (bs "ldapmodel", bs "github.com/wyattanderson/arden/ldapmodel");
   (bs "time", bs "time")].

Definition unsupported (value : bytes) : error :=
  FormatError "unsupported Go expression %q: use a type or named symbol" [value].

Definition selectorImport (imports : gmap bytes bytes) (value alias sel : bytes) (used : gmap bytes bytes)
    : result (gmap bytes bytes) :=
  let path := default [] (assoc alias knownImports) in
  let custom := default [] (imports !! alias) in
  if negb (bool_decide (custom = [])) && negb (bool_decide (path = [])) && negb (bool_decide (path = custom))
  then Err (FormatError "reserved import alias %s" [alias])
  else
    let path := if bool_decide (custom = []) then path else custom in
    if bool_decide (path = []) || badPath path || negb (IsExported sel)
    then Err (FormatError "invalid or missing import for %q" [value])
    else Ok (<[alias := path]> used).

Fixpoint walkExpr (imports : gmap bytes bytes) (value : bytes) (isType : bool) (e : Expr) (used : gmap bytes bytes)
    : result (gmap bytes bytes) :=
  match e with
  | Ident name => if bool_decide (name = bs "_") then Err (ErrorString "blank Go identifier") else Ok used
  | SelectorExpr (Ident alias) sel => selectorImport imports value alias sel used
  | ArrayType false elt => if isType then walkExpr imports value isType elt used else Err (unsupported value)
  | StarExpr x => if isType then walkExpr imports value isType x used else Err (unsupported value)
  | _ => Err (unsupported value)
  end.
Definition expression (imports : gmap bytes bytes) (value : bytes) (isType : bool) (used : gmap bytes bytes)
    : result (gmap bytes bytes) :=
  match ParseExpr value with
  | None => Err (FormatError "invalid Go expression %q" [value])
  | Some e => walkExpr imports value isType e used
  end.

(** ** Models *)

Definition check (ok : bool) (err : error) : result unit := if ok then Ok tt else Err err.

Fixpoint checkImports (imports : list (bytes * bytes)) : result unit :=
  match imports with
  | [] => Ok tt
  | (alias, imported) :: imports =>
      _ ← check (IsIdentifier alias && negb (bool_decide (alias = bs "_")) && negb (bool_decide (imported = [])) &&
                 negb (badPath imported)) (FormatError "invalid import %q" [alias]);
      _ ← check (negb (bool_decide (alias = bs "fmt"))) (ErrorString "reserved import alias fmt");
      checkImports imports
  end.

Fixpoint foldOverrides (attrs : gmap bytes bool) (names : list (bytes * Override)) (overrides : gmap bytes Override)
    : result (gmap bytes Override) :=
  match names with
  | [] => Ok overrides
  | (name, override) :: names =>
      let key := ToLower name in
      match attrs !! key, overrides !! key with
      | None, _ => Err (FormatError "override references nonmember %q" [name])
      | Some _, Some _ => Err (FormatError "duplicate override %q" [name])
      | Some _, None => foldOverrides attrs names (<[key := override]> overrides)
      end
  end.

Record fieldState := MkFieldState {
  fs_usedNames : gset bytes;
  fs_imports : gmap bytes bytes;
  fs_fields : list field;
  fs_naming : bytes
}.

(** The name of the Go field. *)
Definition fieldName (m : GenModel) (attr : bytes) (single : bool) (o : Override) : bytes :=
  let name := exported (TrimPrefix attr (gm_AttributePrefix m)) in
  let name := if single then name else plural name in
  if bool_decide (o_Name o = []) then name else o_Name o.

(** Its type and codec. *)
Definition fieldType (syntax : bytes) (o : Override) : bytes * bytes :=
  let s := syntaxFor syntax in
  let '(type, codec) :=
    if negb (bool_decide (o_Type o = [])) && negb (bool_decide (o_Type o = sy_goType s))
    then (o_Type o, default [] (assoc (o_Type o) typeCodecs)) else (sy_goType s, sy_codec s) in
  (type, if bool_decide (o_Codec o = []) then codec else o_Codec o).

(** How it is read. *)
Definition fieldRead (single required : bool) (o : Override) : bytes :=
  let read := match single, required with
              | true, true => bs "requiredOne"
              | true, false => bs "optionalOne"
              | false, true => bs "requiredMany"
              | false, false => bs "optionalMany"
              end in
  if bool_decide (o_Read o = []) then read else o_Read o.
Definition reads : list bytes :=
  [bs "requiredOne"; bs "optionalOne"; bs "requiredMany"; bs "optionalMany"; bs "none"].

Definition resolveField (attrs : gmap bytes resolvedAttribute) (m : GenModel) (overrides : gmap bytes Override)
    (key : bytes) (required : bool) (st : fieldState) : result fieldState :=
  if bool_decide (key = bs "objectclass") then Ok st
  else
    '(MkResolvedAttribute attr a) ← resolved_attribute attrs key;
    let single := bool_decide (ga_SingleValue a = Some true) in
    let o := default zero (overrides !! key) in
    let name := fieldName m attr single o in
    _ ← check (IsIdentifier name && IsExported name && negb (bool_decide (name ∈ fs_usedNames st)))
          (FormatError "invalid or duplicate inferred field %q; set a name override" [name]);
    let '(type, codec) := fieldType (ga_Syntax a) o in
    _ ← check (negb (bool_decide (type = [])) && negb (bool_decide (codec = [])))
          (FormatError "attribute %s needs an explicit type and codec" [attr]);
    used ← expression (gm_Imports m) type true (fs_imports st);
    used ← expression (gm_Imports m) codec false used;
    let read := fieldRead single required o in
    _ ← check (bool_decide (read ∈ reads)) (FormatError "attribute %s: invalid read %q" [attr; read]);
    let naming := EqualFold (gm_NamingAttribute m) attr in
    _ ← check (negb naming || bool_decide (type = bs "string"))
          (ErrorString "namingAttribute must have Go value type string");
    Ok (MkFieldState ({[name]} ∪ fs_usedNames st) used (fs_fields st ++ [MkField attr name type codec read])
          (if naming then name else fs_naming st)).

Fixpoint resolveFields (attrs : gmap bytes resolvedAttribute) (m : GenModel) (overrides : gmap bytes Override)
    (required : gmap bytes bool) (keys : list bytes) (st : fieldState) : result fieldState :=
  match keys with
  | [] => Ok st
  | key :: keys =>
      st ← resolveField attrs m overrides key (default false (required !! key)) st;
      resolveFields attrs m overrides required keys st
  end.

(** The fields an equality index names; each needs an equality rule. *)
Fixpoint indexedFields (attrs : gmap bytes resolvedAttribute) (name : bytes) (fields : list field) : result (list field) :=
  match fields with
  | [] => Ok []
  | f :: fields =>
      if EqualFold (f_LDAP f) name then
        a ← resolved_attribute attrs (ToLower name);
        _ ← check (negb (bool_decide (ga_Equality (ra_Attribute a) = [])))
              (FormatError "indexed attribute %s has no equality matching rule" [name]);
        rest ← indexedFields attrs name fields;
        Ok (f :: rest)
      else indexedFields attrs name fields
  end.
Fixpoint resolveIndexes (attrs : gmap bytes resolvedAttribute) (fields : list field) (names : list bytes)
    (indexed : gset bytes) : result (list field) :=
  match names with
  | [] => Ok []
  | name :: names =>
      let key := ToLower name in
      _ ← check (negb (bool_decide (key ∈ indexed))) (FormatError "duplicate equality index %q" [name]);
      found ← indexedFields attrs name fields;
      _ ← check (negb (bool_decide (found = []))) (FormatError "equality index references nonmember %q" [name]);
      rest ← resolveIndexes attrs fields names ({[key]} ∪ indexed);
      Ok (found ++ rest)
  end.

Definition with_defaults (m : GenModel) : GenModel :=
  MkGenModel (gm_Name m) (gm_Package m)
    (if bool_decide (gm_Constructor m = []) then plural (gm_Name m) else gm_Constructor m)
    (gm_AttributePrefix m) (gm_ObjectClasses m)
    (if bool_decide (gm_Scope m = []) then bs "children" else gm_Scope m)
    (gm_NamingAttribute m) (gm_Overrides m) (gm_Imports m) (gm_Validate m) (gm_Equality m).

Definition ranged {V} (m : gmap bytes V) : list (bytes * V) :=
  omap (fun key => (fun v => (key, v)) <$> m !! key) (sortedKeys m).

(** [r.model]. *)
Definition resolveModel (attrs : gmap bytes resolvedAttribute) (classes : gmap bytes resolvedClass) (m : GenModel)
    : result resolvedModel :=
  _ ← checkImports (ranged (gm_Imports m));
  _ ← check (IsIdentifier (gm_Name m) && IsExported (gm_Name m)) (ErrorString "name must be an exported Go identifier");
  _ ← check (IsIdentifier (gm_Package m) && negb (bool_decide (gm_Package m = bs "_")) &&
             negb (bool_decide (gm_Package m = bs "main"))) (ErrorString "package must be a non-main Go identifier");
  let m' := with_defaults m in
  _ ← check (IsIdentifier (gm_Constructor m') && IsExported (gm_Constructor m'))
        (ErrorString "constructor must be an exported Go identifier");
  _ ← check (bool_decide (gm_Scope m' ∈ [bs "base"; bs "children"; bs "subtree"]))
        (FormatError "invalid scope %q" [gm_Scope m']);
  _ ← check (negb (bool_decide (gm_ObjectClasses m = []))) (ErrorString "objectClasses is empty");
  '(names, required) ← members attrs classes (gm_ObjectClasses m);
  overrides ← foldOverrides required (ranged (gm_Overrides m)) ∅;
  st ← resolveFields attrs m overrides required (sortedKeys required) (MkFieldState {[bs "DN"]} ∅ [] []);
  _ ← check (negb (bool_decide (fs_naming st = []))) (ErrorString "namingAttribute must reference a model attribute");
  predicates ← resolveIndexes attrs (fs_fields st) (gm_Equality m) ∅;
  used ← if bool_decide (gm_Validate m = []) then Ok (fs_imports st)
         else expression (gm_Imports m) (gm_Validate m) false (fs_imports st);
  Ok (MkResolvedModel m' (fs_fields st) names (fs_naming st) predicates used).

(** ** The whole configuration *)

Record claims := MkClaims { cl_names : gset bytes; cl_oids : gset bytes }.

Definition claim (name oid : bytes) (c : claims) : result claims :=
  let key := ToLower name in
  _ ← check (ldapName name) (FormatError "invalid LDAP name %q" [name]);
  _ ← check (negb (bool_decide (key ∈ cl_names c))) (FormatError "duplicate LDAP name %q" [name]);
  if bool_decide (oid = []) then Ok (MkClaims ({[key]} ∪ cl_names c) (cl_oids c))
  else
    _ ← check (negb (bool_decide (oid ∈ cl_oids c))) (FormatError "duplicate OID %s" [oid]);
    Ok (MkClaims ({[key]} ∪ cl_names c) ({[oid]} ∪ cl_oids c)).

Definition with_oid (a : GenAttribute) (oid : bytes) : GenAttribute :=
  MkGenAttribute oid (ga_Description a) (ga_Sup a) (ga_Syntax a) (ga_Equality a) (ga_Ordering a) (ga_Substr a)
    (ga_SingleValue a).
Definition class_oid (c : GenClass) (oid : bytes) : GenClass :=
  MkGenClass oid (gc_Description c) (gc_Sup c) (gc_Kind c) (gc_Must c) (gc_May c).

(** An attribute of the schema: [base] is [None] for external ones. *)
Definition checkAttribute (base : option bytes) (name : bytes) (a : GenAttribute) : result GenAttribute :=
  match base with
  | None =>
      _ ← check (negb (bool_decide (ga_Syntax a = [])) && negb (bool_decide (ga_SingleValue a = None)))
            (FormatError "external attribute %s requires syntax and singleValue" [name]);
      _ ← check (bool_decide (ga_OID a = [])) (FormatError "external attribute %s must not declare an owned OID" [name]);
      Ok a
  | Some base =>
      match expandOID base (ga_OID a) with
      | Err err => Err (WrapError err "attribute %s: %w")
      | Ok oid => Ok (with_oid a oid)
      end
  end.

Fixpoint addAttributes (base : option bytes) (l : list (bytes * GenAttribute)) (c : claims) (r : resolved)
    : result (claims * resolved) :=
  match l with
  | [] => Ok (c, r)
  | (name, a) :: l =>
      a ← checkAttribute base name a;
      c ← claim name (ga_OID a) c;
      addAttributes base l c
        (MkResolved (<[ToLower name := MkResolvedAttribute name a]> (r_attrs r)) (r_classes r)
           (match base with Some _ => r_ownedAttrs r ++ [ToLower name] | None => r_ownedAttrs r end) (r_ownedClasses r) (r_models r))
  end.

Fixpoint addExternalClasses (l : list bytes) (c : claims) (r : resolved) : result (claims * resolved) :=
  match l with
  | [] => Ok (c, r)
  | name :: l =>
      c ← claim name [] c;
      addExternalClasses l c
        (MkResolved (r_attrs r) (<[ToLower name := MkResolvedClass name (MkGenClass [] [] [] [] [] [])]> (r_classes r))
           (r_ownedAttrs r) (r_ownedClasses r) (r_models r))
  end.

Fixpoint addClasses (base : bytes) (l : list (bytes * GenClass)) (c : claims) (r : resolved) : result (claims * resolved) :=
  match l with
  | [] => Ok (c, r)
  | (name, cl) :: l =>
      match expandOID base (gc_OID cl) with
      | Err err => Err (WrapError err "object class %s: %w")
      | Ok oid =>
          c ← claim name oid c;
          _ ← check (bool_decide (gc_Kind cl ∈ [bs "structural"; bs "auxiliary"; bs "abstract"]))
                (FormatError "object class %s: invalid kind %q" [name; gc_Kind cl]);
          addClasses base l c
            (MkResolved (r_attrs r) (<[ToLower name := MkResolvedClass name (class_oid cl oid)]> (r_classes r))
               (r_ownedAttrs r) (r_ownedClasses r ++ [ToLower name]) (r_models r))
      end
  end.

Fixpoint each {A} (f : A -> result unit) (l : list A) : result unit :=
  match l with [] => Ok tt | x :: l => _ ← f x; each f l end.

Fixpoint resolveModels (attrs : gmap bytes resolvedAttribute) (classes : gmap bytes resolvedClass) (ms : list GenModel)
    : result (list resolvedModel) :=
  match ms with
  | [] => Ok []
  | m :: ms =>
      match resolveModel attrs classes m with
      | Err err => Err (WrapError err "model %s: %w")
      | Ok model => rest ← resolveModels attrs classes ms; Ok (model :: rest)
      end
  end.

(** The package-level names of a generated model. *)
Definition modelSymbols (m : resolvedModel) : list bytes :=
  let name := gm_Name (rm_Model m) in
  map (fun symbol => gm_Package (rm_Model m) ++ bs "." ++ symbol)
    ([name; gm_Constructor (rm_Model m); name ++ bs "Attributes"; bs "Decode" ++ name; bs "decode" ++ name ++ bs "Error";
      bs "projection" ++ name] ++ map (fun f => f_Name f ++ bs "Is") (rm_Predicates m)).
Fixpoint claimSymbols (l : list bytes) (symbols : gset bytes) : result unit :=
  match l with
  | [] => Ok tt
  | key :: l =>
      _ ← check (negb (bool_decide (key ∈ symbols))) (FormatError "duplicate generated symbol %s" [key]);
      claimSymbols l ({[key]} ∪ symbols)
  end.

Definition checkBase (base : bytes) : result unit :=
  if bool_decide (base = []) then Ok tt else _ ← expandOID [] base; Ok tt.

(** The definitions of the schema, before they are validated. *)
Definition resolveSchema (s : Schema) : result (claims * resolved) :=
  _ ← each checkBase [sc_attributeBase s; sc_classBase s];
  '(c, r) ← addAttributes None (ranged (sc_externalAttributes s)) (MkClaims ∅ ∅) (MkResolved ∅ ∅ [] [] []);
  '(c, r) ← addAttributes (Some (sc_attributeBase s)) (ranged (sc_Attributes s)) c r;
  '(c, r) ← addExternalClasses (sc_externalClasses s) c r;
  addClasses (sc_classBase s) (ranged (sc_ObjectClasses s)) c r.

Definition resolve (c : Config) : result resolved :=
  _ ← check (cf_Version c =? 1) (FormatError "gen: unsupported format version %d" [[cf_Version c]]);
  '(_, r) ← resolveSchema (cf_Schema c);
  _ ← each (fun key => _ ← resolved_attribute (r_attrs r) key; Ok tt) (sortedKeys (r_attrs r));
  _ ← each (fun key => _ ← members (r_attrs r) (r_classes r) [key]; Ok tt) (sortedKeys (r_classes r));
  models ← resolveModels (r_attrs r) (r_classes r) (cf_Models c);
  _ ← claimSymbols (concat (map modelSymbols models)) ∅;
  Ok (MkResolved (r_attrs r) (r_classes r) (r_ownedAttrs r) (r_ownedClasses r) models).

(** ** Output *)

(** [schemaQuote]: quoted strings of RFC 4512; 39 is the single quote, 92 the
    backslash. *)
Definition quoteByte (c : Z) : bytes :=
  if (c <? 32) || (c >? 126) || (c =? 39) || (c =? 92) then [92; hex (Z.shiftr c 4); hex (Z.land c 15)] else [c].
Definition schemaQuote (s : bytes) : bytes := [39] ++ concat (map quoteByte s) ++ [39].

Definition projection (m : resolvedModel) : list field :=
  List.filter (fun f => negb (bool_decide (f_Read f = bs "none"))) (rm_Fields m).

(** [path.Join(m.Package, strings.ToLower(m.Name)+"_gen.go")] of two identifiers. *)
Definition outputPath (m : resolvedModel) : bytes :=
  gm_Package (rm_Model m) ++ bs "/" ++ ToLower (gm_Name (rm_Model m)) ++ bs "_gen.go".

(** The template engine and the formatter of Go's standard library, on the
    templates of the package. *)
Class Templates := {
  executeSchema : bytes -> list resolvedAttribute -> list resolvedClass -> result bytes;
  executeModel : resolvedModel -> list field -> result bytes
}.
Context `{P : Templates}.

Definition renderSchema (c : Config) (r : resolved) : result bytes :=
  executeSchema (sc_Origin (cf_Schema c)) (omap (fun key => r_attrs r !! key) (r_ownedAttrs r))
    (omap (fun key => r_classes r !! key) (r_ownedClasses r)).

Definition renderModel (m : resolvedModel) : result bytes :=
  let imports := <[bs "ldapmodel" := bs "github.com/wyattanderson/arden/ldapmodel"]>
    (<[bs "arden" := bs "github.com/wyattanderson/arden"]> (<[bs "fmt" := bs "fmt"]> (rm_UsedImports m))) in
  executeModel (MkResolvedModel (rm_Model m) (rm_Fields m) (rm_Classes m) (rm_Naming m) (rm_Predicates m) imports)
    (projection m).

Fixpoint renderModels (ms : list resolvedModel) (files : gmap bytes bytes) : result (gmap bytes bytes) :=
  match ms with
  | [] => Ok files
  | m :: ms =>
      match files !! outputPath m with
      | Some _ => Err (FormatError "gen: duplicate output path %s" [outputPath m])
      | None =>
          match renderModel m with
          | Err err => Err (WrapError err "gen: model %s: %w")
          | Ok code => renderModels ms (<[outputPath m := code]> files)
          end
      end
  end.

Definition Generate (c : Config) : result (bytes * gmap bytes bytes) :=
  match resolve c with
  | Err err => Err (WrapError err "gen: %w")
  | Ok r =>
      match renderSchema c r with
      | Err err => Err (WrapError err "gen: schema: %w")
      | Ok schema => models ← renderModels (r_models r) ∅; Ok (schema, models)
      end
  end.
End names.
