(* ===== verification/GenSafety.v ===== *)
(** * Correctness of the generator's resolution

    The walk over object classes returns a superclass-first order of exactly the
    classes that are reachable and fails only for a reason; inheritance of
    attributes ends and never relaxes; and what [resolve] accepts is well formed. *)

From S2P Require Import Prelude Wire Packet Reader Decoder Types Result Attributes ModelCodecs Model Gen.

(** ** Members of object classes *)

Section members.
Context `{U : GoUnicode} (known : gmap bytes resolvedAttribute) (classes : gmap bytes resolvedClass).

(** A class and one of its direct superclasses, by key. *)
Definition sup_edge (k k' : bytes) : Prop :=
  exists cl sup, classes !! k = Some cl /\ sup ∈ gc_Sup (rc_Class cl) /\ k' = ToLower sup.
Definition reachable (roots : list bytes) (k : bytes) : Prop :=
  exists root, root ∈ roots /\ rtc sup_edge (ToLower root) k.

Definition must (cl : resolvedClass) : list bytes := map ToLower (gc_Must (rc_Class cl)).
Definition may (cl : resolvedClass) : list bytes := map ToLower (gc_May (rc_Class cl)).

(** The members of a class are known attributes, each listed once. *)
Definition class_ok (cl : resolvedClass) : Prop :=
  NoDup (must cl ++ may cl) /\ Forall (fun a => is_Some (known !! a)) (must cl ++ may cl).

(** What makes a class unusable: it is unknown, its members are wrong, or it
    inherits from itself. *)
Definition bad_class (k : bytes) : Prop :=
  classes !! k = None \/ (exists cl, classes !! k = Some cl /\ ~ class_ok cl) \/ tc sup_edge k k.

(** Every class comes after its superclasses. *)
Inductive superclass_first : list bytes -> Prop :=
| first_nil : superclass_first []
| first_snoc ks k cl :
    superclass_first ks -> k ∉ ks -> classes !! k = Some cl -> class_ok cl ->
    Forall (fun sup => ToLower sup ∈ ks) (gc_Sup (rc_Class cl)) -> superclass_first (ks ++ [k]).

Definition class_names (ks : list bytes) : list bytes := omap (fun k => rc_Name <$> classes !! k) ks.

(** The union of the members of [ks]; a required member wins. *)
Definition members_of (ks : list bytes) (attrs : gmap bytes bool) : Prop := forall a,
  (is_Some (attrs !! a) <-> exists k cl, k ∈ ks /\ classes !! k = Some cl /\ a ∈ must cl ++ may cl) /\
  (attrs !! a = Some true <-> exists k cl, k ∈ ks /\ classes !! k = Some cl /\ a ∈ must cl).

(** *** One class *)

Lemma declareMembers_exact class required names : forall declared attrs,
  match declareMembers known class required names declared attrs with
  | Ok (declared', attrs') =>
      let lower := map ToLower names in
      NoDup lower /\ Forall (fun a => is_Some (known !! a)) lower /\ Forall (fun a => a ∉ declared) lower /\
      declared' = declared ∪ list_to_set lower /\
      forall a, (is_Some (attrs' !! a) <-> is_Some (attrs !! a) \/ a ∈ lower) /\
                (attrs' !! a = Some true <-> attrs !! a = Some true \/ (required = true /\ a ∈ lower))
  | Err e => e <> FuelExhausted /\
      ~ (NoDup (map ToLower names) /\ Forall (fun a => is_Some (known !! a)) (map ToLower names) /\
         Forall (fun a => a ∉ declared) (map ToLower names))
  end.
Proof.
  induction names as [|name names IH]; intros declared attrs; cbn [declareMembers map].
  { cbn. split_and!; [constructor..|set_solver|]. intros a. set_solver. }
  destruct (known !! ToLower name) as [ra|] eqn:Hk.
  2:{ split; [done|]. intros (_ & Hf & _). apply Forall_cons in Hf as [[? Hf] _]. congruence. }
  case_bool_decide as Hd.
  { split; [done|]. intros (_ & _ & Hf). by apply Forall_cons in Hf as [Hf _]. }
  specialize (IH ({[ToLower name]} ∪ declared) (<[ToLower name := default false (attrs !! ToLower name) || required]> attrs)).
  destruct (declareMembers _ _ _ _ _ _) as [[declared' attrs']|e].
  - destruct IH as (Hnd & Hkn & Hdis & -> & Hat). rewrite Forall_forall in Hdis.
    split_and!.
    + constructor; [|done]. intros Hin. apply (Hdis _ Hin). set_solver.
    + by constructor.
    + constructor; [done|]. apply Forall_forall. intros x Hx. specialize (Hdis x Hx). set_solver.
    + cbn. set_solver.
    + intros a. destruct (Hat a) as [H1 H2]. rewrite H1, H2.
      destruct (decide (a = ToLower name)) as [->|Hne].
      * rewrite lookup_insert_eq. split; [set_solver|].
        destruct (attrs !! ToLower name) as [[]|], required; cbn; naive_solver set_solver.
      * rewrite lookup_insert_ne by done. set_solver.
  - destruct IH as [He Hno]. split; [done|]. intros (Hnd & Hkn & Hdis). apply Hno.
    apply NoDup_cons in Hnd as [Hn Hnd]. apply Forall_cons in Hkn as [_ Hkn]. apply Forall_cons in Hdis as [_ Hdis].
    split_and!; [done..|]. apply Forall_forall. intros x Hx. rewrite Forall_forall in Hdis. specialize (Hdis x Hx). set_solver.
Qed.

Lemma declareClass_exact cl attrs :
  match declareClass known cl attrs with
  | Ok attrs' => class_ok cl /\ forall a,
      (is_Some (attrs' !! a) <-> is_Some (attrs !! a) \/ a ∈ must cl ++ may cl) /\
      (attrs' !! a = Some true <-> attrs !! a = Some true \/ a ∈ must cl)
  | Err e => e <> FuelExhausted /\ ~ class_ok cl
  end.
Proof.
  assert (class_ok cl <-> (NoDup (must cl) /\ (forall x, x ∈ must cl -> x ∉ may cl) /\ NoDup (may cl)) /\
    Forall (fun a => is_Some (known !! a)) (must cl) /\ Forall (fun a => is_Some (known !! a)) (may cl)) as Hok
    by (unfold class_ok; by rewrite NoDup_app, Forall_app).
  unfold declareClass.
  pose proof (declareMembers_exact (rc_Name cl) true (gc_Must (rc_Class cl)) ∅ attrs) as H1. fold (must cl) in H1.
  destruct (declareMembers _ _ true _ _ _) as [[declared attrs1]|e]; cbn [mbind result_bind].
  2:{ destruct H1 as [He Hno]. split; [done|]. rewrite Hok. intros [(Hn & _ & _) [Hk _]]. apply Hno. split_and!; [done..|].
      apply Forall_forall. set_solver. }
  destruct H1 as (Hn1 & Hk1 & _ & -> & Ha1).
  pose proof (declareMembers_exact (rc_Name cl) false (gc_May (rc_Class cl)) (∅ ∪ list_to_set (must cl)) attrs1) as H2.
  fold (may cl) in H2. destruct (declareMembers _ _ false _ _ _) as [[declared' attrs2]|e]; cbn [mbind result_bind].
  - destruct H2 as (Hn2 & Hk2 & Hd & _ & Ha2). rewrite Forall_forall in Hd. split.
    + apply Hok. split_and!; [done| |done..]. intros x Hx Hy. specialize (Hd x Hy). set_solver.
    + intros a. destruct (Ha1 a) as [H1 H1']. destruct (Ha2 a) as [H2 H2']. rewrite H2, H1, H2', H1'. set_solver.
  - destruct H2 as [He Hno]. split; [done|]. rewrite Hok. intros [(_ & Hdis & Hn2) [_ Hk2]]. apply Hno. split_and!; [done..|].
    apply Forall_forall. intros x Hx Hin. apply (Hdis x); [set_solver|done].
Qed.

(** *** The walk *)

(** [ks] are the classes the walk has finished, in order. *)
Record walked (w : walkState) (ks : list bytes) : Prop := {
  wd_first : superclass_first ks;
  wd_seen : wk_seen w = list_to_set ks;
  wd_names : wk_classes w = class_names ks;
  wd_members : members_of ks (wk_attrs w)
}.

(** The classes being walked lead to the key, and are known. *)
Definition leads_to (active : gset bytes) (k : bytes) : Prop :=
  (forall x, x ∈ active -> tc sup_edge x k) /\ active ⊆ dom classes.

Definition walk_post (ks : list bytes) (active : gset bytes) (k : bytes) (res : result walkState) : Prop :=
  match res with
  | Ok w => exists more, walked w (ks ++ more) /\ wk_active w = active /\ k ∈ ks ++ more /\
      Forall (fun x => (x ∉ active) /\ rtc sup_edge k x) more
  | Err e => e <> FuelExhausted /\ exists x, rtc sup_edge k x /\ bad_class x
  end.

(** [R] is what the keys of [names] lead to. *)
Lemma walkAll_post f (R : bytes -> Prop) active names :
  (forall name w ks, name ∈ names -> walked w ks -> wk_active w = active ->
     walk_post ks active (ToLower name) (f name w)) ->
  (forall name x, name ∈ names -> rtc sup_edge (ToLower name) x -> R x) ->
  forall w ks, walked w ks -> wk_active w = active ->
  match walkAll f names w with
  | Ok w' => exists more, walked w' (ks ++ more) /\ wk_active w' = active /\
      Forall (fun name => ToLower name ∈ ks ++ more) names /\ Forall (fun x => (x ∉ active) /\ R x) more
  | Err e => e <> FuelExhausted /\ exists x, R x /\ bad_class x
  end.
Proof.
  intros Hf HR. induction names as [|name names IH]; intros w ks Hw Hact; cbn [walkAll].
  { exists []. rewrite app_nil_r. split_and!; [done..|constructor|constructor]. }
  pose proof (Hf name w ks ltac:(set_solver) Hw Hact) as Hp. destruct (f name w) as [w1|e]; cbn [mbind result_bind walk_post] in *.
  2:{ destruct Hp as (Hne & x & Hx & Hb). split; [done|]. exists x. split; [|done]. eapply HR; [|done]. set_solver. }
  destruct Hp as (more1 & Hw1 & Ha1 & Hin1 & Hm1).
  specialize (IH ltac:(intros; apply Hf; [set_solver|done..]) ltac:(intros; eapply HR; [|done]; set_solver) w1 (ks ++ more1) Hw1 Ha1).
  destruct (walkAll f names w1) as [w2|e]; [|done].
  destruct IH as (more2 & Hw2 & Ha2 & Hin2 & Hm2). exists (more1 ++ more2). rewrite app_assoc.
  split_and!; [done..| |].
  - constructor; [set_solver|done].
  - apply Forall_app. split; [|done]. eapply Forall_impl; [exact Hm1|]. cbn. intros x [Hx Hr]. split; [done|].
    eapply HR; [|done]. set_solver.
Qed.

Lemma members_snoc ks k cl attrs attrs' : classes !! k = Some cl -> members_of ks attrs ->
  (forall a, (is_Some (attrs' !! a) <-> is_Some (attrs !! a) \/ a ∈ must cl ++ may cl) /\
             (attrs' !! a = Some true <-> attrs !! a = Some true \/ a ∈ must cl)) -> members_of (ks ++ [k]) attrs'.
Proof.
  intros Hk Hm Ha a. destruct (Ha a) as [H1 H2]. destruct (Hm a) as [H3 H4]. rewrite H1, H2, H3, H4.
  setoid_rewrite elem_of_app. setoid_rewrite list_elem_of_singleton. split; split.
  - intros [(k' & cl' & ? & ? & ?)|?]; [by exists k', cl'; auto|by exists k, cl; auto].
  - intros (k' & cl' & [?| ->] & ? & ?); [left; by exists k', cl'|right; by simplify_eq].
  - intros [(k' & cl' & ? & ? & ?)|?]; [by exists k', cl'; auto|by exists k, cl; auto].
  - intros (k' & cl' & [?| ->] & ? & ?); [left; by exists k', cl'|right; by simplify_eq].
Qed.

Lemma walk_exact fuel : forall key w ks, walked w ks -> leads_to (wk_active w) (ToLower key) ->
  (size classes < fuel + size (wk_active w))%nat ->
  walk_post ks (wk_active w) (ToLower key) (walk fuel known classes key w).
Proof.
  induction fuel as [|fuel IH]; intros key w ks Hw [Hlead Hdom] Hsize.
  { exfalso. apply subseteq_size in Hdom. rewrite size_dom in Hdom. lia. }
  cbn [walk]. set (k := ToLower key) in *. destruct (classes !! k) as [cl|] eqn:Hk.
  2:{ split; [done|]. exists k. split; [done|by left]. }
  case_bool_decide as Hact.
  { split; [done|]. exists k. split; [done|]. right. right. by apply Hlead. }
  case_bool_decide as Hseen.
  { exists []. rewrite app_nil_r. split_and!; [done..| |constructor]. rewrite (wd_seen _ _ Hw) in Hseen. set_solver. }
  set (w0 := MkWalk _ _ _ ({[k]} ∪ wk_active w)).
  assert (walked w0 ks) as Hw0 by (by destruct Hw).
  assert (k ∈ dom classes) as Hkd by (by apply elem_of_dom).
  assert (size ({[k]} ∪ wk_active w) = S (size (wk_active w))) as Hs by (rewrite size_union by set_solver; by rewrite size_singleton).
  assert (forall name, name ∈ gc_Sup (rc_Class cl) -> sup_edge k (ToLower name)) as Hedge by (intros name Hn; by exists cl, name).
  pose proof (walkAll_post (walk fuel known classes) (rtc sup_edge k) ({[k]} ∪ wk_active w) (gc_Sup (rc_Class cl))) as Hall.
  specialize (Hall ltac:(intros name w1 ks1 Hn Hw1 Ha1; rewrite <- Ha1; apply IH; [done| |rewrite Ha1; lia];
    rewrite Ha1; split; [|set_solver]; intros x [->%elem_of_singleton|Hx]%elem_of_union;
    [by apply tc_once, Hedge|by eapply tc_r; [apply Hlead|apply Hedge]])).
  specialize (Hall ltac:(intros name x Hn Hx; eapply rtc_l; [by apply Hedge|done]) w0 ks Hw0 eq_refl).
  destruct (walkAll _ _ w0) as [w1|e]; cbn [mbind result_bind]; [|done].
  destruct Hall as (more & Hw1 & Ha1 & Hsup & Hmore).
  pose proof (declareClass_exact cl (wk_attrs w1)) as Hdecl.
  destruct (declareClass known cl (wk_attrs w1)) as [attrs|e]; cbn [mbind result_bind].
  2:{ destruct Hdecl as [He Hno]. split; [done|]. exists k. split; [done|]. right. left. eauto. }
  destruct Hdecl as [Hok Hattrs].
  assert (k ∉ ks ++ more) as Hnew.
  { rewrite (wd_seen _ _ Hw) in Hseen. intros [Hin|Hin]%elem_of_app; [set_solver|].
    rewrite Forall_forall in Hmore. destruct (Hmore k Hin). set_solver. }
  exists (more ++ [k]). rewrite app_assoc. cbn [wk_active]. split_and!.
  - destruct Hw1 as [H1 H2 H3 H4]. constructor; cbn.
    + by eapply first_snoc.
    + rewrite H2. set_solver.
    + unfold class_names. rewrite omap_app. cbn. rewrite Hk. cbn. by rewrite H3.
    + by eapply members_snoc.
  - rewrite Ha1. set_solver.
  - set_solver.
  - apply Forall_app. split; [|by repeat constructor].
    eapply Forall_impl; [exact Hmore|]. cbn. intros x [Hx Hr]. split; [set_solver|done].
Qed.

(** *** What the order means *)

Lemma first_known ks k : superclass_first ks -> k ∈ ks -> exists cl, classes !! k = Some cl /\ class_ok cl.
Proof. induction 1 as [|ks k' cl Hf IH Hn Hk Hok Hs]; [set_solver|]. intros [?| ->%list_elem_of_singleton]%elem_of_app; eauto. Qed.

Lemma first_closed ks k k' : superclass_first ks -> k ∈ ks -> sup_edge k k' -> k' ∈ ks.
Proof.
  induction 1 as [|ks k0 cl Hf IH Hn Hk Hok Hs]; [set_solver|]. intros [Hin| ->%list_elem_of_singleton]%elem_of_app He.
  - apply elem_of_app. left. auto.
  - destruct He as (cl' & sup & Hk' & Hsup & ->). simplify_eq. rewrite Forall_forall in Hs. specialize (Hs sup Hsup). set_solver.
Qed.

Lemma first_closed_rtc ks k k' : superclass_first ks -> rtc sup_edge k k' -> k ∈ ks -> k' ∈ ks.
Proof. intros Hf. induction 1; [done|]. intros Hin. apply IHrtc. by eapply first_closed. Qed.

Lemma first_acyclic ks k : superclass_first ks -> k ∈ ks -> ~ tc sup_edge k k.
Proof.
  induction 1 as [|ks k0 cl Hf IH Hn Hk Hok Hs]; [set_solver|]. intros [Hin| ->%list_elem_of_singleton]%elem_of_app; [by apply IH|].
  intros Htc. assert (exists y, sup_edge k0 y /\ rtc sup_edge y k0) as (y & (cl' & sup & Hk' & Hsup & ->) & Hr).
  { inversion Htc; subst; eauto using tc_rtc. }
  simplify_eq.
  rewrite Forall_forall in Hs. apply Hn. eapply first_closed_rtc; [done..|]. by apply Hs.
Qed.

Lemma members_spec roots :
  match members known classes roots with
  | Ok (names, attrs) =>
      (forall k, reachable roots k -> ~ bad_class k) /\
      exists ks, superclass_first ks /\ (forall k, k ∈ ks <-> reachable roots k) /\
                 names = class_names ks /\ members_of ks attrs
  | Err e => e <> FuelExhausted /\ exists k, reachable roots k /\ bad_class k
  end.
Proof.
  unfold members.
  pose proof (walkAll_post (walk (S (size classes)) known classes) (reachable roots) ∅ roots) as Hall.
  specialize (Hall ltac:(intros name w ks _ Hw Ha; rewrite <- Ha; apply walk_exact; [done| |lia];
    rewrite Ha; split; [set_solver|set_solver])).
  specialize (Hall ltac:(intros name x Hn Hx; by exists name) (MkWalk [] ∅ ∅ ∅) []).
  specialize (Hall ltac:(constructor; [constructor|set_solver|done|];
    intros a; cbn; rewrite lookup_empty; split; [rewrite is_Some_alt|]; set_solver) eq_refl).
  destruct (walkAll _ _ _) as [w|e]; cbn [mbind result_bind]; [|done].
  destruct Hall as (ks & [Hf Hs Hn Hm] & _ & Hroots & Hreach). cbn [app] in *.
  assert (forall k, k ∈ ks <-> reachable roots k) as Hks.
  { intros k. split.
    - intros Hin. rewrite Forall_forall in Hreach. by apply Hreach.
    - intros (root & Hin & Hr). eapply first_closed_rtc; [done..|]. rewrite Forall_forall in Hroots. by apply Hroots. }
  split; [|by exists ks]. intros k Hk%Hks [Hnone|[(cl & Hc & Hno)|Hcyc]].
  - destruct (first_known ks k Hf Hk) as (? & ? & ?). congruence.
  - destruct (first_known ks k Hf Hk) as (? & ? & ?). simplify_eq. done.
  - by eapply first_acyclic.
Qed.

(** C28. Object classes resolve exactly. For every schema and all root classes the
    walk ends. It succeeds if and only if no class that is reachable through
    superclasses is unknown, has unknown or repeated members or inherits from
    itself. Then it lists the reachable classes, each once and after all of its
    superclasses, and the members are the union over these classes: an attribute
    is a member if one of them lists it, and required if one of them requires it. *)
Theorem members_exact roots :
  match members known classes roots with
  | Ok (names, attrs) =>
      (forall k, reachable roots k -> ~ bad_class k) /\
      exists ks, superclass_first ks /\ (forall k, k ∈ ks <-> reachable roots k) /\
                 names = class_names ks /\ members_of ks attrs
  | Err e => e <> FuelExhausted /\ exists k, reachable roots k /\ bad_class k
  end.
Proof. exact (members_spec roots). Qed.
End members.

(** ** Inheritance of attributes *)

Section inheritance.
Context `{U : GoUnicode} (attrs : gmap bytes resolvedAttribute).

Definition attr_edge (k k' : bytes) : Prop :=
  exists ra, attrs !! k = Some ra /\ ga_Sup (ra_Attribute ra) <> [] /\ k' = ToLower (ga_Sup (ra_Attribute ra)).

(** Whether an attribute gives up a single value that its parent has. *)
Definition relaxes (a parent : GenAttribute) : bool :=
  bool_decide (ga_SingleValue parent = Some true) && bool_decide (ga_SingleValue (inherit a parent) = Some false).

(** The meaning of inheritance: an attribute without a superior is itself, any
    other one completes itself from its resolved superior. *)
Inductive resolves : bytes -> resolvedAttribute -> Prop :=
| resolves_top k name a r :
    attrs !! k = Some (MkResolvedAttribute name a) -> ga_Sup a = [] -> finishAttribute name a = Ok r -> resolves k r
| resolves_sup k name a parent r :
    attrs !! k = Some (MkResolvedAttribute name a) -> ga_Sup a <> [] -> resolves (ToLower (ga_Sup a)) parent ->
    relaxes a (ra_Attribute parent) = false -> finishAttribute name (inherit a (ra_Attribute parent)) = Ok r -> resolves k r.

Lemma resolves_unique k r : resolves k r -> forall r', resolves k r' -> r = r'.
Proof.
  induction 1 as [k name a r Hk Hs Hf|k name a parent r Hk Hs Hp IH Hr Hf]; intros r' Hr'; inversion Hr'; simplify_eq; try congruence.
  match goal with H : resolves _ ?p |- _ => apply IH in H; subst p end. congruence.
Qed.

Lemma edge_functional k k1 k2 : attr_edge k k1 -> attr_edge k k2 -> k1 = k2.
Proof. intros (? & ? & _ & ->) (? & ? & _ & ->). by simplify_eq. Qed.

Lemma resolves_acyclic k r : resolves k r -> ~ tc attr_edge k k.
Proof.
  induction 1 as [k name a r Hk Hs Hf|k name a parent r Hk Hs Hp IH Hr Hf]; intros Htc.
  all: assert (exists y, attr_edge k y /\ rtc attr_edge y k) as (y & He & Hy) by (inversion Htc; subst; eauto using tc_rtc).
  - destruct He as (? & ? & ? & _). by simplify_eq.
  - assert (attr_edge k (ToLower (ga_Sup a))) as He' by (by eexists).
    rewrite (edge_functional _ _ _ He He') in *. apply IH. by eapply tc_rtc_l; [|apply tc_once].
Qed.

Lemma finish_error name a e : finishAttribute name a = Err e -> e <> FuelExhausted.
Proof. unfold finishAttribute. intros. repeat case_match; simplify_eq; done. Qed.

Lemma attribute_exact fuel : forall key visiting, (forall x, x ∈ visiting -> tc attr_edge x (ToLower key)) ->
  visiting ⊆ dom attrs -> (size attrs < fuel + size visiting)%nat ->
  match attribute fuel attrs key visiting with
  | Ok r => resolves (ToLower key) r
  | Err e => e <> FuelExhausted /\ forall r, ~ resolves (ToLower key) r
  end.
Proof.
  induction fuel as [|fuel IH]; intros key visiting Hv Hd Hs.
  { exfalso. apply subseteq_size in Hd. rewrite size_dom in Hd. lia. }
  cbn [attribute]. set (k := ToLower key) in *. destruct (attrs !! k) as [[name a]|] eqn:Hk.
  2:{ split; [done|]. intros r Hr. inversion Hr; congruence. }
  case_bool_decide as Hin.
  { split; [done|]. intros r Hr. eapply resolves_acyclic; [done|]. by apply Hv. }
  case_bool_decide as Hsup.
  { destruct (finishAttribute name a) as [r|e] eqn:Hf; [by eapply resolves_top|].
    split; [by eapply finish_error|]. intros r Hr. inversion Hr; simplify_eq; congruence. }
  assert (attr_edge k (ToLower (ga_Sup a))) as Hedge by (by eexists).
  specialize (IH (ga_Sup a) ({[k]} ∪ visiting)).
  specialize (IH ltac:(intros x [->%elem_of_singleton|Hx]%elem_of_union; [by apply tc_once|by eapply tc_r; [apply Hv|]])).
  specialize (IH ltac:(apply union_subseteq; split; [apply singleton_subseteq_l, elem_of_dom; eauto|done])).
  specialize (IH ltac:(rewrite size_union by set_solver; rewrite size_singleton; lia)).
  destruct (attribute fuel attrs (ga_Sup a) _) as [parent|e]; cbn [mbind result_bind].
  2:{ destruct IH as [He Hno]. split; [done|]. intros r Hr. inversion Hr; simplify_eq; try congruence. by eapply Hno. }
  fold (relaxes a (ra_Attribute parent)). destruct (relaxes a (ra_Attribute parent)) eqn:Hrel.
  { split; [done|]. intros r Hr. inversion Hr; simplify_eq; try congruence.
    match goal with H : resolves _ ?p |- _ => rewrite (resolves_unique _ _ H _ IH) in * end. congruence. }
  destruct (finishAttribute name _) as [r|e] eqn:Hf; [by eapply resolves_sup|].
  split; [by eapply finish_error|]. intros r Hr. inversion Hr; simplify_eq; try congruence.
  match goal with H : resolves _ ?p |- _ => rewrite (resolves_unique _ _ H _ IH) in * end. congruence.
Qed.

(** Resolution computes the meaning of inheritance, for every schema. *)
Lemma resolved_attribute_exact key :
  match resolved_attribute attrs key with
  | Ok r => resolves (ToLower key) r
  | Err e => e <> FuelExhausted /\ forall r, ~ resolves (ToLower key) r
  end.
Proof. apply attribute_exact; [set_solver|set_solver|lia]. Qed.

Lemma finish_single name a r : finishAttribute name a = Ok r -> ga_SingleValue (ra_Attribute r) = ga_SingleValue a.
Proof. unfold finishAttribute. intros. repeat case_match; simplify_eq; done. Qed.

(** A single value is inherited by all descendants. *)
Lemma single_inherited k k' r : rtc attr_edge k k' -> resolves k r -> exists r', resolves k' r' /\
  (ga_SingleValue (ra_Attribute r') = Some true -> ga_SingleValue (ra_Attribute r) = Some true).
Proof.
  intros Hr. revert r. induction Hr as [k|k k1 k2 He Hr IH]; intros r Hres; [by eauto|].
  inversion Hres as [? name a ? Hk Hs Hf|? name a parent ? Hk Hs Hp Hrel Hf]; subst.
  { destruct He as (? & ? & ? & _). by simplify_eq. }
  rewrite (edge_functional _ _ _ He (ex_intro _ _ (conj Hk (conj Hs eq_refl)))) in *. cbn in *.
  destruct (IH parent Hp) as (r' & Hr' & Hsingle). exists r'. split; [done|]. intros Ht. specialize (Hsingle Ht).
  apply finish_single in Hf. rewrite Hf. unfold relaxes, inherit, orElseFlag in *. cbn in *. rewrite Hsingle in Hrel |- *.
  destruct (ga_SingleValue a) as [[]|]; done.
Qed.
End inheritance.

(** ** What [resolve] accepts *)

Ltac bind_ok H :=
  repeat (cbn [mbind result_bind] in H;
    match type of H with
    | mbind _ ?m = Ok _ => let E := fresh "E" in destruct m eqn:E; cbn [mbind result_bind] in H; [|discriminate H]
    | (match ?m with Ok _ => _ | Err _ => _ end) = Ok _ => let E := fresh "E" in destruct m eqn:E; [|discriminate H]
    end).

Section resolution.
Context `{U : GoUnicode, F : GoFold, G : GoSource}.

Lemma check_ok b e u : check b e = Ok u -> b = true.
Proof. by destruct b. Qed.

Lemma each_ok {A} (f : A -> result unit) l u : each f l = Ok u -> Forall (fun x => f x = Ok tt) l.
Proof.
  revert u. induction l as [|x l IH]; intros u; cbn [each]; [constructor|]. intros H. bind_ok H. destruct a.
  constructor; eauto.
Qed.

Lemma sortedKeys_in {V} (m : gmap bytes V) k : k ∈ sortedKeys m <-> k ∈ dom m.
Proof.
  unfold sortedKeys. rewrite Sort_perm, elem_of_dom. split.
  - intros ([k' v] & -> & Hin%elem_of_map_to_list)%list_elem_of_fmap. by exists v.
  - intros [v Hv]. apply list_elem_of_fmap. exists (k, v). split; [done|by apply elem_of_map_to_list].
Qed.

(** The definitions of a schema by key, with their identifiers. *)
Definition defines (r : resolved) (k name oid : bytes) : Prop :=
  (exists a, r_attrs r !! k = Some (MkResolvedAttribute name a) /\ oid = ga_OID a) \/
  (exists cl, r_classes r !! k = Some (MkResolvedClass name cl) /\ oid = gc_OID cl).

Record schema_ok (r : resolved) : Prop := {
  so_names : forall k name oid, defines r k name oid -> k = ToLower name /\ ldapName name = true;
  so_disjoint : dom (r_attrs r) ## dom (r_classes r);
  so_oids : forall k1 k2 n1 n2 oid, defines r k1 n1 oid -> defines r k2 n2 oid -> oid <> [] -> k1 = k2
}.

(** The claims cover the definitions. *)
Definition claimed (c : claims) (r : resolved) : Prop :=
  forall k name oid, defines r k name oid -> k ∈ cl_names c /\ (oid <> [] -> oid ∈ cl_oids c).

Lemma claim_spec name oid c c' : claim name oid c = Ok c' ->
  ldapName name = true /\ (ToLower name ∉ cl_names c) /\ cl_names c' = {[ToLower name]} ∪ cl_names c /\
  (oid <> [] -> (oid ∉ cl_oids c) /\ oid ∈ cl_oids c') /\ cl_oids c ⊆ cl_oids c'.
Proof.
  unfold claim. intros H. bind_ok H. apply check_ok in E, E0. apply negb_true_iff, bool_decide_eq_false in E0.
  case_bool_decide; [injection H as <-; cbn; set_solver|]. bind_ok H. apply check_ok, negb_true_iff, bool_decide_eq_false in E1.
  injection H as <-. cbn. set_solver.
Qed.

(** One more definition under a fresh key. *)
Lemma schema_add c c' r r' k0 name0 oid0 : claim name0 oid0 c = Ok c' -> k0 = ToLower name0 ->
  (forall k name oid, defines r' k name oid -> defines r k name oid \/ (k = k0 /\ name = name0 /\ oid = oid0)) ->
  (dom (r_attrs r) ## dom (r_classes r) -> k0 ∉ dom (r_attrs r) -> k0 ∉ dom (r_classes r) ->
   dom (r_attrs r') ## dom (r_classes r')) ->
  schema_ok r -> claimed c r -> schema_ok r' /\ claimed c' r'.
Proof.
  intros Hc -> Hdef Hdis [Hn Hd Ho] Hcl. apply claim_spec in Hc as (Hname & Hfresh & Hnames & Hoid & Hsub).
  split; [constructor|].
  - intros k name oid [H|(-> & -> & ->)]%Hdef; [by eapply Hn|done].
  - apply Hdis; [done|..]; intros [x Hx]%elem_of_dom; apply Hfresh; destruct x as [n a];
      eapply (Hcl _ n); [left|right]; eauto.
  - intros k1 k2 n1 n2 oid [H1|(-> & -> & ->)]%Hdef [H2|(-> & -> & ?)]%Hdef Hne; subst; [by eapply Ho|..|done];
      exfalso; apply Hcl in H1 || apply Hcl in H2; naive_solver.
  - intros k name oid [H|(-> & -> & ->)]%Hdef; [|split; [set_solver|naive_solver]].
    apply Hcl in H as [H1 H2]. split; [set_solver|]. intros Hne. apply Hsub. auto.
Qed.

Lemma addAttributes_ok base l : forall c r c' r', addAttributes base l c r = Ok (c', r') ->
  schema_ok r -> claimed c r -> schema_ok r' /\ claimed c' r'.
Proof.
  induction l as [|[name a] l IH]; intros c r c' r'; cbn [addAttributes]; [by intros [= <- <-]|]. intros H Hok Hcl.
  bind_ok H. match type of H with addAttributes _ _ ?c1 ?r1 = _ =>
    assert (schema_ok r1 /\ claimed c1 r1) as [? ?]; [|by eapply IH in H] end. clear H IH.
  eapply schema_add; [done|done| | |done|done].
  - intros k n o [(x & Hx & ->)|(x & Hx & ->)]; cbn in Hx; [|left; right; eauto].
    apply lookup_insert_Some in Hx as [[<- [= <- <-]]|[_ Hx]]; [by right|left; left; eauto].
  - cbn. rewrite dom_insert. set_solver.
Qed.

Lemma addExternalClasses_ok l : forall c r c' r', addExternalClasses l c r = Ok (c', r') ->
  schema_ok r -> claimed c r -> schema_ok r' /\ claimed c' r'.
Proof.
  induction l as [|name l IH]; intros c r c' r'; cbn [addExternalClasses]; [by intros [= <- <-]|]. intros H Hok Hcl.
  bind_ok H. match type of H with addExternalClasses _ ?c1 ?r1 = _ =>
    assert (schema_ok r1 /\ claimed c1 r1) as [? ?]; [|by eapply IH in H] end. clear H IH.
  eapply schema_add; [done|done| | |done|done].
  - intros k n o [(x & Hx & ->)|(x & Hx & ->)]; cbn in Hx; [left; left; eauto|].
    apply lookup_insert_Some in Hx as [[<- [= <- <-]]|[_ Hx]]; [by right|left; right; eauto].
  - cbn. rewrite dom_insert. set_solver.
Qed.

Lemma addClasses_ok base l : forall c r c' r', addClasses base l c r = Ok (c', r') ->
  schema_ok r -> claimed c r -> schema_ok r' /\ claimed c' r'.
Proof.
  induction l as [|[name cl] l IH]; intros c r c' r'; cbn [addClasses]; [by intros [= <- <-]|]. intros H Hok Hcl.
  destruct (expandOID base (gc_OID cl)) as [oid|]; [|done].
  bind_ok H. match type of H with addClasses _ _ ?c1 ?r1 = _ =>
    assert (schema_ok r1 /\ claimed c1 r1) as [? ?]; [|by eapply IH in H] end. clear H IH.
  eapply schema_add; [done|done| | |done|done].
  - intros k n o [(x & Hx & ->)|(x & Hx & ->)]; cbn in Hx; [left; left; eauto|].
    apply lookup_insert_Some in Hx as [[<- [= <- <-]]|[_ Hx]]; [by right|left; right; eauto].
  - cbn. rewrite dom_insert. set_solver.
Qed.

Lemma resolveSchema_ok s c r : resolveSchema s = Ok (c, r) -> schema_ok r.
Proof.
  unfold resolveSchema. intros H. bind_ok H. destruct a0 as [c0 r0]. bind_ok H. destruct a0 as [c1 r1]. bind_ok H.
  destruct a0 as [c2 r2].
  assert (forall k n o, ~ defines (MkResolved ∅ ∅ [] [] []) k n o) as Hnone.
  { intros k n o [(x & Hx & _)|(x & Hx & _)]; cbn in Hx; by rewrite lookup_empty in Hx. }
  assert (schema_ok (MkResolved ∅ ∅ [] [] []) /\ claimed (MkClaims ∅ ∅) (MkResolved ∅ ∅ [] [] [])) as [H1 H2].
  { split; [constructor|]; [intros; exfalso; by eapply Hnone|cbn; set_solver|intros; exfalso; by eapply Hnone|
      intros ? ? ? ?; exfalso; by eapply Hnone]. }
  eapply addAttributes_ok in E0 as [H3 H4]; [|done..]. eapply addAttributes_ok in E1 as [H5 H6]; [|done..].
  eapply addExternalClasses_ok in E2 as [H7 H8]; [|done..]. by eapply addClasses_ok in H as [? _].
Qed.

(** *** Models *)

(** A field that Go accepts, with a type, a codec and a way to be read. *)
Definition field_ok (f : field) : Prop :=
  IsIdentifier (f_Name f) = true /\ IsExported (f_Name f) = true /\ f_Name f <> bs "DN" /\
  f_Type f <> [] /\ f_Codec f <> [] /\ f_Read f ∈ reads.

Record fields_ok (st : fieldState) : Prop := {
  fo_distinct : NoDup (map f_Name (fs_fields st));
  fo_used : fs_usedNames st = {[bs "DN"]} ∪ list_to_set (map f_Name (fs_fields st));
  fo_fields : Forall field_ok (fs_fields st);
  fo_naming : fs_naming st = [] \/
    exists f, f ∈ fs_fields st /\ f_Name f = fs_naming st /\ f_Type f = bs "string"
}.

Lemma resolveField_ok attrs m overrides key required st st' :
  resolveField attrs m overrides key required st = Ok st' -> fields_ok st -> fields_ok st'.
Proof.
  unfold resolveField. case_bool_decide as Hoc; [by intros [= <-]|]. intros H [Hd Hu Hf Hn]. bind_ok H. destruct a as [attr a].
  bind_ok H. destruct (fieldType _ _) as [type codec] eqn:Et. bind_ok H. injection H as <-.
  repeat match goal with E : check _ _ = Ok _ |- _ => apply check_ok in E end. zbool.
  repeat match goal with E : negb (bool_decide _) = true |- _ => apply negb_true_iff, bool_decide_eq_false in E end.
  set (f := MkField _ _ _ _ _). rewrite Hu in *.
  constructor; cbn [fs_fields fs_usedNames fs_naming]; rewrite ?map_app; cbn [map f_Name f].
  - apply NoDup_app. split_and!; [done| |by apply NoDup_singleton]. intros x Hx ->%list_elem_of_singleton. set_solver.
  - rewrite list_to_set_app_L. cbn. set_solver.
  - apply Forall_app. split; [done|]. constructor; [|constructor]. unfold field_ok. cbn [f_Name f_Type f_Codec f_Read f].
    split_and!; try done; [set_solver|].
    match goal with E : bool_decide (_ ∈ reads) = true |- _ => by apply bool_decide_eq_true in E end.
  - destruct (EqualFold _ _).
    + right. exists f. split; [set_solver|]. split; [done|].
      match goal with E : _ \/ bool_decide (type = _) = true |- _ => destruct E as [E|E]; [done|by apply bool_decide_eq_true in E] end.
    + destruct Hn as [?|(g & ? & ? & ?)]; [by left|right]. exists g. set_solver.
Qed.

Lemma resolveFields_ok attrs m overrides required keys : forall st st',
  resolveFields attrs m overrides required keys st = Ok st' -> fields_ok st -> fields_ok st'.
Proof.
  induction keys as [|key keys IH]; intros st st'; cbn [resolveFields]; [by intros [= <-]|]. intros H Hok. bind_ok H.
  eapply IH; [done|]. by eapply resolveField_ok.
Qed.

Lemma indexedFields_in attrs name fields : forall found, indexedFields attrs name fields = Ok found -> forall f, f ∈ found -> f ∈ fields.
Proof.
  induction fields as [|g fields IH]; intros found; cbn [indexedFields]; [intros [= <-]; set_solver|].
  destruct (EqualFold _ _); intros H f Hin; [|apply list_elem_of_further; by eapply IH].
  bind_ok H. injection H as <-. apply elem_of_cons in Hin as [->|Hin]; [left|right; by eapply IH].
Qed.

Lemma resolveIndexes_in attrs fields names : forall indexed found, resolveIndexes attrs fields names indexed = Ok found ->
  forall f, f ∈ found -> f ∈ fields.
Proof.
  induction names as [|name names IH]; intros indexed found; cbn [resolveIndexes]; [intros [= <-]; set_solver|].
  intros H f Hin. bind_ok H. injection H as <-. apply elem_of_app in Hin as [Hin|Hin]; [by eapply indexedFields_in|by eapply IH].
Qed.

(** What the templates rely on. *)
Record model_ok (classes : gmap bytes resolvedClass) (m : resolvedModel) : Prop := {
  mo_fields : Forall field_ok (rm_Fields m);
  mo_distinct : NoDup (map f_Name (rm_Fields m));
  mo_naming : exists f, f ∈ rm_Fields m /\ f_Name f = rm_Naming m /\ f_Type f = bs "string";
  mo_predicates : forall f, f ∈ rm_Predicates m -> f ∈ rm_Fields m;
  mo_classes : exists ks, NoDup ks /\ rm_Classes m = class_names classes ks /\
    forall k, k ∈ ks <-> reachable classes (gm_ObjectClasses (rm_Model m)) k
}.

Lemma first_NoDup known classes ks : superclass_first known classes ks -> NoDup ks.
Proof.
  induction 1 as [|ks k cl Hf IH Hn]; [constructor|]. apply NoDup_app. split_and!; [done| |by apply NoDup_singleton].
  intros x Hx ->%list_elem_of_singleton. done.
Qed.

Lemma resolveModel_ok attrs classes m m' : resolveModel attrs classes m = Ok m' -> model_ok classes m'.
Proof.
  unfold resolveModel. intros H. bind_ok H. destruct a5 as [names required]. bind_ok H. injection H as <-.
  pose proof (members_spec attrs classes (gm_ObjectClasses m)) as Hm.
  match goal with E : members _ _ _ = Ok _ |- _ => rewrite E in Hm end. destruct Hm as [_ (ks & Hf & Hks & -> & _)].
  match goal with E : resolveFields _ _ _ _ _ _ = Ok _ |- _ => apply resolveFields_ok in E as [Hd Hu Hok Hn] end.
  2:{ constructor; cbn; [constructor|set_solver|constructor|by left]. }
  match goal with E : check (negb (bool_decide (fs_naming _ = []))) _ = Ok _ |- _ =>
    apply check_ok, negb_true_iff, bool_decide_eq_false in E end.
  constructor; cbn; [done|done|by destruct Hn| |].
  - match goal with E : resolveIndexes _ _ _ _ = Ok _ |- _ => exact (resolveIndexes_in _ _ _ _ _ E) end.
  - exists ks. split; [by eapply first_NoDup|]. done.
Qed.

Lemma resolveModels_ok attrs classes ms : forall rms, resolveModels attrs classes ms = Ok rms -> Forall (model_ok classes) rms.
Proof.
  induction ms as [|m ms IH]; intros rms; cbn [resolveModels]; [intros [= <-]; constructor|].
  destruct (resolveModel attrs classes m) as [model|] eqn:E; [|done]. intros H. bind_ok H. injection H as <-.
  constructor; [by eapply resolveModel_ok|by apply IH].
Qed.

Lemma claimSymbols_ok l : forall symbols u, claimSymbols l symbols = Ok u -> NoDup l /\ forall x, x ∈ l -> x ∉ symbols.
Proof.
  induction l as [|key l IH]; intros symbols u; cbn [claimSymbols]; [intros _; split; [constructor|set_solver]|].
  intros H. bind_ok H. apply check_ok, negb_true_iff, bool_decide_eq_false in E. apply IH in H as [Hn Hd].
  split; [|intros x [->|Hx]%elem_of_cons; [done|specialize (Hd x Hx); set_solver]].
  constructor; [|done]. intros Hin. apply (Hd _ Hin). set_solver.
Qed.

Lemma lower_idempotent s : ldapName s = true -> ToLower (ToLower s) = ToLower s.
Proof.
  intros Hs. assert (isASCII s = true) as Ha.
  { unfold ldapName, rdnAttributeName, isASCII in *. destruct s as [|c s]; [done|]. apply andb_true_iff in Hs as [Hc Hs].
    cbn. apply andb_true_iff. split; [unfold isLetter, in_range in Hc; lia|]. rewrite forallb_forall in Hs |- *.
    intros x Hx. specialize (Hs x Hx). unfold isLetter, isDigit, in_range in Hs. lia. }
  unfold ToLower. rewrite Ha. assert (isASCII (map lowerByte s) = true) as ->.
  { unfold isASCII in *. rewrite forallb_forall in Ha |- *. intros x (y & <- & Hy)%in_map_iff. specialize (Ha y Hy).
    unfold lowerByte, in_range. case_ifs; lia. }
  rewrite map_map. apply map_ext. intros b. unfold lowerByte, in_range. case_ifs; lia.
Qed.

(** C29. What the generator accepts is well formed. If [resolve] succeeds, every
    attribute and class is stored under the lowered form of its valid LDAP name, no
    name belongs to both an attribute and a class, and no two definitions share an
    object identifier; every attribute resolves through its superiors; no class is
    part of an inheritance cycle, has an unknown superclass or unknown or repeated
    members; every model has distinct fields that are exported Go identifiers other
    than [DN], with a type, a codec and a valid way to be read, a naming field of
    type string, equality predicates for its own fields only, and exactly the
    classes reachable from its object classes; and the package-level symbols of all
    models are distinct. *)
Theorem resolve_well_formed c r : resolve c = Ok r ->
  schema_ok r /\
  (forall k, k ∈ dom (r_attrs r) -> exists ra, resolves (r_attrs r) k ra) /\
  (forall k, k ∈ dom (r_classes r) -> ~ bad_class (r_attrs r) (r_classes r) k) /\
  Forall (model_ok (r_classes r)) (r_models r) /\
  NoDup (concat (map modelSymbols (r_models r))).
Proof.
  unfold resolve. intros H. bind_ok H. destruct a0 as [cs r0]. bind_ok H. injection H as <-.
  apply resolveSchema_ok in E0 as Hok. apply resolveModels_ok in E3. apply claimSymbols_ok in E4 as [Hsym _].
  apply each_ok in E1, E2. rewrite Forall_forall in E1, E2.
  assert (forall k, k ∈ dom (r_attrs r0) \/ k ∈ dom (r_classes r0) -> ToLower k = k) as Hlow.
  { intros k Hk. assert (exists n o, defines r0 k n o) as (n & o & Hdef).
    { destruct Hk as [[[n x] Hx]%elem_of_dom|[[n x] Hx]%elem_of_dom]; eexists n, _; [left|right]; eauto. }
    apply (so_names _ Hok) in Hdef as [-> Hn]. by apply lower_idempotent. }
  cbn [r_attrs r_classes r_models]. split_and!; [by destruct Hok| | |done|done].
  - intros k Hk. pose proof (resolved_attribute_exact (r_attrs r0) k) as Hr. rewrite Hlow in Hr by auto.
    specialize (E1 k (proj2 (sortedKeys_in _ _) Hk)). cbn beta in E1. destruct (resolved_attribute (r_attrs r0) k); [eauto|done].
  - intros k Hk. pose proof (members_spec (r_attrs r0) (r_classes r0) [k]) as Hm.
    specialize (E2 k (proj2 (sortedKeys_in _ _) Hk)). cbn beta in E2. destruct (members _ _ [k]) as [[names attrs]|]; [|done].
    destruct Hm as [Hm _]. apply Hm. exists k. split; [set_solver|]. by rewrite Hlow by auto.
Qed.
End resolution.

(** ** Quoting *)

(** A reader of quoted strings: characters up to the closing quote, a backslash
    with two hexadecimal digits for any byte. *)
Definition unhexDigit (c : Z) : option Z :=
  if in_range 48 57 c then Some (c - 48) else if in_range 97 102 c then Some (c - 87) else None.
Fixpoint readQuoted (s : bytes) : option (bytes * bytes) :=
  match s with
  | [] => None
  | c :: s1 =>
      if c =? 39 then Some ([], s1)
      else if c =? 92 then
        match s1 with
        | h :: l :: s2 =>
            high ← unhexDigit h; low ← unhexDigit l; '(value, rest) ← readQuoted s2; Some (16 * high + low :: value, rest)
        | _ => None
        end
      else '(value, rest) ← readQuoted s1; Some (c :: value, rest)
  end.

Lemma quoteByte_read b s : is_byte b ->
  readQuoted (quoteByte b ++ s) = '(value, rest) ← readQuoted s; Some (b :: value, rest).
Proof.
  intros Hb. unfold quoteByte. destruct (_ || (b =? 92)) eqn:Hq.
  - byte_enum (fun b => bool_decide (unhexDigit (hex (Z.shiftr b 4)) = Some (Z.shiftr b 4))
      && bool_decide (unhexDigit (hex (Z.land b 15)) = Some (Z.land b 15)) && (16 * Z.shiftr b 4 + Z.land b 15 =? b)) b.
    zbool. apply bool_decide_eq_true in H, H1. cbn [app readQuoted]. change (92 =? 39) with false. change (92 =? 92) with true.
    cbv iota. rewrite H, H1. cbn [mbind option_bind]. by rewrite H0.
  - zbool. cbn [app readQuoted]. replace (b =? 39) with false by lia. by replace (b =? 92) with false by lia.
Qed.

(** Quoting keeps every text inside its quotes. *)
Lemma schemaQuote_read s rest : Forall is_byte s -> readQuoted (drop 1 (schemaQuote s ++ rest)) = Some (s, rest).
Proof.
  intros Hs. change (drop 1 (schemaQuote s ++ rest)) with ((concat (map quoteByte s) ++ [39]) ++ rest). rewrite <- app_assoc.
  induction Hs as [|b s Hb Hs IH]; [done|]. cbn [map concat]. by rewrite <- app_assoc, quoteByte_read, IH.
Qed.

(** ** A configuration *)

#[local] Existing Instance ascii_unicode.
#[local] Instance sample_fold : GoFold := {| equalFoldUnicode s t := bool_decide (s = t) |}.

(** Names and selectors, as far as the sample needs them. *)
#[local] Instance sample_source : GoSource := {|
  upperUnicode s := s;
  identifierUnicode _ := false;
  exportedUnicode _ := false;
  ParseExpr s :=
    match SplitOn 46 s with
    | [name] => Some (Ident name)
    | [alias; name] => Some (SelectorExpr (Ident alias) name)
    | _ => None
    end
|}.

Definition sampleConfig : Config :=
  let attr sup syntax single := MkGenAttribute [] [] (bs sup) (bs syntax) (bs "caseIgnoreMatch") [] [] single in
  MkConfig 1
    (MkSchema [] (bs "1.3.6.1.4.1.1") (bs "1.3.6.1.4.1.2")
       {[ bs "uid" := attr "" "directoryString" (Some true); bs "name" := attr "" "directoryString" (Some false) ]}
       [bs "top"]
       {[ bs "nick" := MkGenAttribute (bs "7") [] (bs "name") [] [] [] [] None ]}
       {[ bs "account" := MkGenClass (bs "1") [] [bs "top"] (bs "structural") [bs "uid"] [];
          bs "player" := MkGenClass (bs "2") [] [bs "Account"] (bs "structural") [] [bs "nick"; bs "name"] ]})
    [MkGenModel (bs "Player") (bs "players") [] [] [bs "player"] [] (bs "UID") ∅ ∅ [] [bs "uid"]].

Definition sampleResolved : resolved :=
  match resolve sampleConfig with Ok r => r | Err _ => MkResolved ∅ ∅ [] [] [] end.

Example sample_fields :
  map (fun m => (rm_Classes m, map f_Name (rm_Fields m), rm_Naming m)) (r_models sampleResolved) =
  [([bs "top"; bs "account"; bs "player"], [bs "Names"; bs "Nicks"; bs "Uid"], bs "Uid")].
Proof. vm_compute. reflexivity. Qed.

Lemma resolve_well_formed_witness : resolve sampleConfig = Ok sampleResolved /\
  NoDup (concat (map modelSymbols (r_models sampleResolved))).
Proof.
  assert (resolve sampleConfig = Ok sampleResolved) as H by (vm_compute; reflexivity).
  split; [exact H|]. apply (resolve_well_formed sampleConfig sampleResolved H).
Defined.
