(* ===== verification/Command.v ===== *)
(** * The generator command

    Models src/cmd/gen/main.go (the command's [run] and [atomicWrite]) and the
    reader of src/gen/config.go ([Parse], [plainYAML]) over a file system. The YAML
    library is a parameter, class [Yaml]; paths are those of a Unix system, with
    [path/filepath] written out.

    The file system maps absolute paths to nodes. A list of faults decides which
    system calls fail: every call takes the next one. A write that fails may leave
    any first part of its data and [MkdirAll] some of the directories; the other
    calls change nothing when they fail. Symbolic links, and other programs that
    change files meanwhile, are not modelled. *)

From S2P Require Import Prelude Wire Packet Reader Decoder Types Result Attributes ModelCodecs Model Gen.

Open Scope run_scope.

(** ** Paths *)

Definition slash : Z := 47.
Definition dot : bytes := [46].
Definition dotdot : bytes := [46; 46].

Fixpoint joinSlash (parts : list bytes) : bytes :=
  match parts with
  | [] => []
  | [part] => part
  | part :: parts => part ++ slash :: joinSlash parts
  end.

(** The elements that [Clean] keeps, the last one first. *)
Fixpoint cleanLoop (rooted : bool) (parts stack : list bytes) : list bytes :=
  match parts with
  | [] => stack
  | part :: parts =>
      if bool_decide (part = []) || bool_decide (part = dot) then cleanLoop rooted parts stack
      else if bool_decide (part = dotdot) then
        match stack with
        | top :: rest => if bool_decide (top = dotdot) then cleanLoop rooted parts (part :: stack) else cleanLoop rooted parts rest
        | [] => if rooted then cleanLoop rooted parts [] else cleanLoop rooted parts [part]
        end
      else cleanLoop rooted parts (part :: stack)
  end.

Definition IsAbs (p : bytes) : bool := match p with c :: _ => c =? slash | [] => false end.

Definition Clean (p : bytes) : bytes :=
  let body := joinSlash (rev (cleanLoop (IsAbs p) (SplitOn slash p) [])) in
  if IsAbs p then slash :: body else match body with [] => dot | _ => body end.

Definition JoinPath (a b : bytes) : bytes :=
  match a, b with
  | [], [] => []
  | [], _ => Clean b
  | _, _ => Clean (a ++ slash :: b)
  end.

Fixpoint dropBase (reversed : bytes) : bytes :=
  match reversed with
  | [] => []
  | c :: reversed' => if c =? slash then reversed else dropBase reversed'
  end.
Definition Dir (p : bytes) : bytes := Clean (rev (dropBase (rev p))).

(** ** The file system *)

(** [Irregular]: a directory or a device. *)
Inductive node := Regular (content : bytes) | Irregular.
#[export] Instance node_eq_dec : EqDecision node.
Proof. solve_decision. Defined.

(** The error of a call that fails, and how far it came: a write and [MkdirAll] may
    fail after a part of their work is done. *)
Record fault := MkFault { ft_err : error; ft_done : nat }.

Record FS := MkFS { fs_cwd : bytes; fs_files : gmap bytes node; fs_faults : list (option fault) }.

Definition with_files (files : gmap bytes node) (fs : FS) : FS := MkFS (fs_cwd fs) files (fs_faults fs).

(** The absolute path of a name. *)
Definition absolute (cwd p : bytes) : bytes := if IsAbs p then Clean p else JoinPath cwd p.
Definition at_path (fs : FS) (p : bytes) : option node := fs_files fs !! absolute (fs_cwd fs) p.

Definition ErrNotExist : error := ErrorString "file does not exist".

(** A system call: the next fault with what it leaves, or the call itself. *)
Definition syscall_leaving {A : Type} (partial : nat -> FS -> gmap bytes node) (f : FS -> result A * FS) : ST FS (result A) := fun fs =>
  match fs_faults fs with
  | [] => f fs
  | fault :: faults =>
      let fs := MkFS (fs_cwd fs) (fs_files fs) faults in
      match fault with
      | Some fault => (Err (ft_err fault), with_files (partial (ft_done fault) fs) fs)
      | None => f fs
      end
  end.

(** One that changes nothing when it fails. *)
Definition syscall {A : Type} : (FS -> result A * FS) -> ST FS (result A) := syscall_leaving (fun _ => fs_files).

(** [filepath.Abs] asks for the working directory if the path is relative. *)
Definition Abs (p : bytes) : ST FS (result bytes) :=
  if IsAbs p then sret (Ok (Clean p)) else syscall (fun fs => (Ok (absolute (fs_cwd fs) p), fs)).

Definition ReadFile (p : bytes) : ST FS (result bytes) := syscall (fun fs =>
  (match at_path fs p with
   | Some (Regular content) => Ok content
   | Some Irregular => Err (ErrorString "is a directory")
   | None => Err ErrNotExist
   end, fs)).

(** [os.Lstat]: is it a regular file? *)
Definition Lstat (p : bytes) : ST FS (result bool) := syscall (fun fs =>
  (match at_path fs p with
   | Some (Regular _) => Ok true
   | Some Irregular => Ok false
   | None => Err ErrNotExist
   end, fs)).

(** The directories on the way to an absolute path, with the path. *)
Fixpoint prefixes (above : bytes) (parts : list bytes) : list bytes :=
  match parts with
  | [] => []
  | part :: parts =>
      let here := above ++ slash :: part in
      here :: prefixes here parts
  end.
Definition directories (p : bytes) : list bytes := prefixes [] (rev (cleanLoop true (SplitOn slash p) [])).

Definition is_file (files : gmap bytes node) (p : bytes) : bool :=
  match files !! p with Some (Regular _) => true | _ => false end.
Definition make_directory (files : gmap bytes node) (p : bytes) : gmap bytes node :=
  match files !! p with Some _ => files | None => <[p := Irregular]> files end.

Definition MkdirAll (p : bytes) : ST FS (result unit) := syscall_leaving
  (fun k fs => foldl make_directory (fs_files fs) (take k (directories (absolute (fs_cwd fs) p)))) (fun fs =>
  let dirs := directories (absolute (fs_cwd fs) p) in
  if existsb (is_file (fs_files fs)) dirs then (Err (ErrorString "not a directory"), fs)
  else (Ok tt, with_files (foldl make_directory (fs_files fs) dirs) fs)).

(** A name that no file has: longer than all of them. *)
Definition longest (files : gmap bytes node) : nat := list_max (map (fun '(p, _) => length p) (map_to_list files)).
Definition temporary (fs : FS) (dir : bytes) : bytes :=
  absolute (fs_cwd fs) dir ++ bs "/.arden-gen-" ++ replicate (S (longest (fs_files fs))) 48.

Definition CreateTemp (dir : bytes) : ST FS (result bytes) := syscall (fun fs =>
  let t := temporary fs dir in (Ok t, with_files (<[t := Regular []]> (fs_files fs)) fs)).

Definition WriteTemp (t data : bytes) : ST FS (result unit) := syscall_leaving
  (fun k fs => <[t := Regular (take k data)]> (fs_files fs)) (fun fs =>
  (Ok tt, with_files (<[t := Regular data]> (fs_files fs)) fs)).

(** [Close] and [Chmod] do not change the contents. *)
Definition TouchTemp (t : bytes) : ST FS (result unit) := syscall (fun fs => (Ok tt, fs)).

Definition Rename (t file : bytes) : ST FS (result unit) := syscall (fun fs =>
  let target := absolute (fs_cwd fs) file in
  match fs_files fs !! t, fs_files fs !! target with
  | None, _ => (Err ErrNotExist, fs)
  | _, Some Irregular => (Err (ErrorString "file exists"), fs)
  | Some n, _ => (Ok tt, with_files (<[target := n]> (delete t (fs_files fs))) fs)
  end).

Definition Remove (t : bytes) : ST FS (result unit) := syscall (fun fs =>
  (Ok tt, with_files (delete t (fs_files fs)) fs)).

(** ** Writing *)

(** An error is a list: [errors.Join] keeps the errors that are not nil. *)
Definition errorOf {A} (r : result A) : list error := match r with Ok _ => [] | Err err => [err] end.

Definition fillTemp (t file data : bytes) : ST FS (list error) :=
  let* written := WriteTemp t data in
  let* closed := TouchTemp t in
  match errorOf written ++ errorOf closed with
  | [] =>
      let* mode := TouchTemp t in
      match mode with
      | Err err => sret [err]
      | Ok _ =>
          let* renamed := Rename t file in
          match renamed with
          | Err err => sret [WrapError err "write %s: %w"]
          | Ok _ => sret []
          end
      end
  | errs => sret errs
  end.

Definition atomicWrite (file data : bytes) : ST FS (list error) :=
  let* made := MkdirAll (Dir file) in
  match made with
  | Err err => sret [err]
  | Ok _ =>
      let* temp := CreateTemp (Dir file) in
      match temp with
      | Err err => sret [err]
      | Ok t =>
          let* errs := fillTemp t file data in
          let* _ := Remove t in sret errs
      end
  end.

(** ** The configuration file *)

(** A node of [gopkg.in/yaml.v3], as far as the code looks at it. *)
Inductive YamlNode := MkYamlNode (alias : bool) (anchor tag : bytes) (line : Z) (children : list YamlNode).

(** [Unmarshal] into a node; a decoder with [KnownFields]: its first document, and
    the error of its second call (none if there is another document). *)
Class Yaml := {
  yaml_Unmarshal : bytes -> result YamlNode;
  yaml_Decode : bytes -> result Config;
  yaml_DecodeNext : bytes -> option error
}.

Definition plainNode (alias : bool) (anchor tag : bytes) : bool :=
  negb alias && bool_decide (anchor = []) && negb (bool_decide (tag = bs "!!merge")).

Fixpoint plainYAML (n : YamlNode) : option error :=
  match n with
  | MkYamlNode alias anchor tag line children =>
      if negb (plainNode alias anchor tag)
      then Some (FormatError "gen: YAML line %d: anchors, aliases, and merges are unsupported" [[line]])
      else
        (fix each (children : list YamlNode) : option error :=
           match children with
           | [] => None
           | child :: children => match plainYAML child with Some err => Some err | None => each children end
           end) children
  end.

Definition Parse `{Yaml} (data : bytes) : result Config :=
  match yaml_Unmarshal data with
  | Err err => Err (WrapError err "gen: YAML: %w")
  | Ok root =>
      match plainYAML root with
      | Some err => Err err
      | None =>
          match yaml_Decode data with
          | Err err => Err (WrapError err "gen: YAML: %w")
          | Ok c =>
              if negb (match yaml_DecodeNext data with Some err => errors_Is err EOF | None => false end)
              then Err (ErrorString "gen: expected exactly one YAML document")
              else if negb (cf_Version c =? 1) then Err (FormatError "gen: unsupported format version %d" [[cf_Version c]])
              else Ok c
          end
      end
  end.

(** ** The command *)

(** What [flag] returns: help was asked for, an error, or the flags. *)
Record Flags := MkFlags { fl_config : bytes; fl_out : bytes; fl_schema : bytes; fl_check : bool; fl_NArg : Z }.
Inductive parsedFlags := FlagsHelp | FlagsError (err : error) | FlagsOk (flags : Flags).

Definition marker : bytes := bs "Code generated by arden gen. DO NOT EDIT.".
Definition HasPrefix (s prefix : bytes) : bool := bool_decide (take (length prefix) s = prefix).
Definition generatedFile (content : bytes) : bool :=
  HasPrefix content (bs "// " ++ marker) || HasPrefix content (bs "# " ++ marker).

(** The outputs by path; the schema first. *)
Fixpoint addModels (out : bytes) (models : list (bytes * bytes)) (outputs : gmap bytes bytes) : result (gmap bytes bytes) :=
  match models with
  | [] => Ok outputs
  | (name, content) :: models =>
      let file := JoinPath out name in
      match outputs !! file with
      | Some _ => Err (FormatError "duplicate output %s" [file])
      | None => addModels out models (<[file := content]> outputs)
      end
  end.

Definition buildOutputs (flags : Flags) (schema : bytes) (models : gmap bytes bytes) : result (gmap bytes bytes) :=
  let outputs : gmap bytes bytes := if bool_decide (fl_schema flags = []) then ∅ else {[ Clean (fl_schema flags) := schema ]} in
  if bool_decide (fl_out flags = []) then Ok outputs else addModels (fl_out flags) (map_to_list models) outputs.

(** The check of one destination: an error that ends the run, or whether the
    output is missing or stale. *)
Definition preflightFile (check : bool) (inputAbs file content : bytes) : ST FS (error + bool) :=
  let* abs := Abs file in
  match abs with
  | Err err => sret (inl err)
  | Ok abs =>
      if bool_decide (abs = inputAbs) then sret (inl (ErrorString "refusing to overwrite the YAML input"))
      else
        let* info := Lstat file in
        match info with
        | Ok false => sret (inl (FormatError "output is not a regular file: %s" [file]))
        | _ =>
            let* current := ReadFile file in
            match current with
            | Err err => if negb (errors_Is err ErrNotExist) then sret (inl err) else sret (inr true)
            | Ok current =>
                if bool_decide (current = content) then sret (inr false)
                else if check then sret (inr true)
                else if negb (generatedFile current)
                then sret (inl (FormatError "refusing to overwrite handwritten file %s; move it aside before first generation" [file]))
                else sret (inr true)
            end
        end
  end.

Fixpoint preflight (check : bool) (inputAbs : bytes) (outputs : list (bytes * bytes)) (problems : list error)
    : ST FS (error + list error) :=
  match outputs with
  | [] => sret (inr problems)
  | (file, content) :: outputs =>
      let* r := preflightFile check inputAbs file content in
      match r with
      | inl err => sret (inl err)
      | inr stale =>
          preflight check inputAbs outputs
            (if check && stale then problems ++ [FormatError "generated output missing or stale: %s" [file]] else problems)
      end
  end.

Fixpoint writeAllFiles (outputs : list (bytes * bytes)) : ST FS (list error) :=
  match outputs with
  | [] => sret []
  | (file, content) :: outputs =>
      let* errs := atomicWrite file content in
      match errs with [] => writeAllFiles outputs | _ => sret errs end
  end.

(** The outputs in the order of their paths. *)
Definition ordered (outputs : gmap bytes bytes) : list (bytes * bytes) :=
  omap (fun file => pair file <$> outputs !! file) (sortedKeys outputs).

Definition produce (flags : Flags) (outputs : gmap bytes bytes) : ST FS (list error) :=
  let* inputAbs := Abs (fl_config flags) in
  match inputAbs with
  | Err err => sret [err]
  | Ok inputAbs =>
      let* r := preflight (fl_check flags) inputAbs (ordered outputs) [] in
      match r with
      | inl err => sret [err]
      | inr problems => if fl_check flags then sret problems else writeAllFiles (ordered outputs)
      end
  end.

Definition usage (flags : Flags) : bool :=
  negb (fl_NArg flags =? 0) || bool_decide (fl_config flags = []) ||
  (bool_decide (fl_out flags = []) && bool_decide (fl_schema flags = [])).

Section command.
Context `{U : GoUnicode, F : GoFold, G : GoSource, T : Templates, Y : Yaml}.

(** From the input file to the outputs. *)
Definition plan (flags : Flags) (data : bytes) : result (gmap bytes bytes) :=
  c ← Parse data;
  '(schema, models) ← Generate c;
  buildOutputs flags schema models.

Definition run (args : parsedFlags) : ST FS (list error) :=
  match args with
  | FlagsHelp => sret []
  | FlagsError err => sret [err]
  | FlagsOk flags =>
      if usage flags
      then sret [ErrorString "usage: gen -config schema.yaml [-out directory] [-schema schema.ldif] [-check]"]
      else
        let* data := ReadFile (fl_config flags) in
        match data with
        | Err err => sret [err]
        | Ok data =>
            match plan flags data with
            | Err err => sret [err]
            | Ok outputs => produce flags outputs
            end
        end
  end.
End command.
