(* ===== verification/CommandSafety.v ===== *)
(** * What the generator command does to files

    The command never touches what it must not: directories, its input, and files
    that were not generated. It writes nothing before it has looked at every
    destination, replaces files whole, and in check mode writes nothing at all. *)

From S2P Require Import Prelude Wire Packet Reader Decoder Types Result Attributes ModelCodecs Model Gen GenSafety Command.

Open Scope run_scope.

(** ** Documents without aliases *)

(** A node and the nodes below it. *)
Fixpoint nodes (n : YamlNode) : list YamlNode :=
  match n with MkYamlNode _ _ _ _ children => n :: concat (map nodes children) end.
Definition plain (n : YamlNode) : Prop :=
  match n with MkYamlNode alias anchor tag _ _ => plainNode alias anchor tag = true end.

(** Induction on a node through the list of its children. *)
Lemma YamlNode_nested (Q : YamlNode -> Prop) :
  (forall alias anchor tag line children, Forall Q children -> Q (MkYamlNode alias anchor tag line children)) -> forall n, Q n.
Proof.
  intros H. fix IH 1. intros [alias anchor tag line children]. apply H. induction children as [|c cs IHcs]; constructor; [apply IH|exact IHcs].
Qed.

Lemma plainYAML_exact n : plainYAML n = None <-> Forall plain (nodes n).
Proof.
  induction n as [alias anchor tag line children IH] using YamlNode_nested. cbn [plainYAML nodes].
  destruct (plainNode alias anchor tag) eqn:E; cbn [negb].
  2:{ split; [done|]. intros H. apply Forall_cons in H as [H _]. cbn in H. congruence. }
  rewrite Forall_cons. cbn [plain]. induction IH as [|c cs Hc _ IHcs]; [done|]. cbn [map concat].
  rewrite Forall_app, <- Hc. destruct (plainYAML c); naive_solver.
Qed.

(** What [Parse] accepts is one document of version 1 without anchors, aliases or
    merges anywhere. *)
Lemma Parse_plain `{Yaml} data c : Parse data = Ok c ->
  cf_Version c = 1 /\ yaml_Decode data = Ok c /\ exists root, yaml_Unmarshal data = Ok root /\ Forall plain (nodes root).
Proof.
  unfold Parse. destruct (yaml_Unmarshal data) as [root|] eqn:E1; [|done]. destruct (plainYAML root) eqn:E2; [done|].
  destruct (yaml_Decode data) as [c'|]; [|done]. destruct (negb _); [done|]. destruct (negb (cf_Version c' =? 1)) eqn:E3; [done|].
  intros [= <-]. apply negb_false_iff, Z.eqb_eq in E3. split; [done|]. split; [done|]. exists root. split; [done|]. by apply plainYAML_exact.
Qed.

(** ** System calls *)

(** Failing calls do not claim that a file is missing. *)
Definition honest (fs : FS) : Prop :=
  Forall (fun fault => match fault with Some fault => errors_Is (ft_err fault) ErrNotExist = false | None => True end) (fs_faults fs).

(** A computation that keeps the working directory and the honesty of faults, and
    whose effect on the files is [Post]. *)
Definition does {A} (m : ST FS A) (fs : FS) (Post : A -> gmap bytes node -> Prop) : Prop :=
  let '(x, fs') := m fs in
  fs_cwd fs' = fs_cwd fs /\ (honest fs -> honest fs') /\ Post x (fs_files fs').

Lemma does_ret {A} (x : A) (fs : FS) (Post : A -> gmap bytes node -> Prop) : Post x (fs_files fs) -> does (sret x) fs Post.
Proof. by intros H. Qed.

Lemma does_bind {A B} (m : ST FS A) (k : A -> ST FS B) (fs : FS) Mid Post : does m fs Mid ->
  (forall x fs1, fs_cwd fs1 = fs_cwd fs -> (honest fs -> honest fs1) -> Mid x (fs_files fs1) -> does (k x) fs1 Post) ->
  does (sbind m k) fs Post.
Proof.
  unfold does, sbind. intros Hm Hk. destruct (m fs) as [x fs1]. destruct Hm as (Hc & Hh & Hp).
  specialize (Hk x fs1 Hc Hh Hp). destruct (k x fs1) as [y fs2]. destruct Hk as (Hc' & Hh' & Hp').
  split; [congruence|]. split; [auto|done].
Qed.

Lemma does_weaken {A} (m : ST FS A) (fs : FS) (Post Post' : A -> gmap bytes node -> Prop) : does m fs Post ->
  (forall x files, Post x files -> Post' x files) -> does m fs Post'.
Proof. unfold does. destruct (m fs) as [x fs1]. intros (H1 & H2 & H3) Hp. auto. Qed.

Definition no_fault (err : error) (fs : FS) : Prop := honest fs -> errors_Is err ErrNotExist = false.

Lemma does_syscall_leaving {A : Type} (partial : nat -> FS -> gmap bytes node) (f : FS -> result A * FS) (fs : FS) (Post : result A -> gmap bytes node -> Prop) :
  (forall err k fs1, no_fault err fs -> fs_cwd fs1 = fs_cwd fs -> fs_files fs1 = fs_files fs -> Post (Err err) (partial k fs1)) ->
  (forall fs1, fs_cwd fs1 = fs_cwd fs -> fs_files fs1 = fs_files fs -> let '(x, fs2) := f fs1 in
     fs_cwd fs2 = fs_cwd fs1 /\ fs_faults fs2 = fs_faults fs1 /\ Post x (fs_files fs2)) ->
  does (syscall_leaving partial f) fs Post.
Proof.
  intros He Hf. unfold does, syscall_leaving, no_fault, honest in *. destruct fs as [cwd files [|[[err k]|] faults]]; cbn in *.
  - specialize (Hf (MkFS cwd files []) eq_refl eq_refl). destruct (f _) as [x fs2]. destruct Hf as (H1 & H2 & H3). cbn in *.
    by rewrite H2.
  - split; [done|]. split; [intros H; by inversion H|]. apply He; [|done|done]. intros H. by inversion H.
  - specialize (Hf (MkFS cwd files faults) eq_refl eq_refl). destruct (f _) as [x fs2]. destruct Hf as (H1 & H2 & H3). cbn in *.
    split; [done|]. rewrite H2. split; [intros H; by inversion H|done].
Qed.

Lemma does_syscall {A} (f : FS -> result A * FS) (fs : FS) (Post : result A -> gmap bytes node -> Prop) :
  (forall err, no_fault err fs -> Post (Err err) (fs_files fs)) ->
  (forall fs1, fs_cwd fs1 = fs_cwd fs -> fs_files fs1 = fs_files fs -> let '(x, fs2) := f fs1 in
     fs_cwd fs2 = fs_cwd fs1 /\ fs_faults fs2 = fs_faults fs1 /\ Post x (fs_files fs2)) ->
  does (syscall f) fs Post.
Proof. intros He Hf. apply does_syscall_leaving; [|done]. intros err k fs1 Hn _ ->. auto. Qed.

(** ** Looking at the destinations *)

Section paths.
Variable cwd : bytes.

(** What the checks establish of one destination. *)
Definition checked (check : bool) (inputAbs : bytes) (files : gmap bytes node) (file content : bytes) : Prop :=
  absolute cwd file <> inputAbs /\
  match files !! absolute cwd file with
  | None => True
  | Some Irregular => False
  | Some (Regular b) => b = content \/ check = true \/ generatedFile b = true
  end.

Definition in_place (files : gmap bytes node) (file content : bytes) : Prop :=
  files !! absolute cwd file = Some (Regular content).

Lemma preflightFile_does check inputAbs file content fs : fs_cwd fs = cwd -> honest fs ->
  does (preflightFile check inputAbs file content) fs (fun r files => files = fs_files fs /\
    match r with
    | inl _ => True
    | inr stale => checked check inputAbs files file content /\ (stale = false <-> in_place files file content)
    end).
Proof.
  intros Hcwd Hh. unfold preflightFile.
  eapply (does_bind _ _ _ (fun r files => files = fs_files fs /\ match r with Ok abs => abs = absolute cwd file | Err _ => True end)).
  { unfold Abs, absolute. destruct (IsAbs file) eqn:E; [by apply does_ret|]. apply does_syscall; [done|].
    intros fs1 Hc1 Hf1. rewrite Hc1, Hcwd. done. }
  intros [abs|err] fs1 Hc1 Hh1 [Hf1 Habs]; [|by apply does_ret]. subst abs.
  case_bool_decide as Hin; [by apply does_ret|].
  eapply (does_bind _ _ _ (fun r files => files = fs_files fs /\ (r = Ok false \/ True))).
  { apply does_syscall; [by auto|]. intros fs2 Hc2 Hf2. rewrite Hf2, Hf1. split; [done|]. split; [done|]. split; [done|auto]. }
  intros info fs2 Hc2 Hh2 [Hf2 _].
  assert (does (let* current := ReadFile file in
    match current with
    | Err err => if negb (errors_Is err ErrNotExist) then sret (inl err) else sret (inr true)
    | Ok current =>
        if bool_decide (current = content) then sret (inr false)
        else if check then sret (inr true)
        else if negb (generatedFile current)
        then sret (inl (FormatError "refusing to overwrite handwritten file %s; move it aside before first generation" [file]))
        else sret (inr true)
    end) fs2 (fun r files => files = fs_files fs /\
    match r with
    | inl _ => True
    | inr stale => checked check inputAbs files file content /\ (stale = false <-> in_place files file content)
    end)) as Hread.
  { eapply (does_bind _ _ _ (fun r files => files = fs_files fs /\
      match r with
      | Ok b => fs_files fs !! absolute cwd file = Some (Regular b)
      | Err err => errors_Is err ErrNotExist = false \/ fs_files fs !! absolute cwd file = None
      end)).
    { apply does_syscall.
      - intros err Hn. split; [done|]. left. apply Hn. auto.
      - intros fs3 Hc3 Hf3. unfold at_path. rewrite Hc3, Hc2, Hc1, Hcwd, Hf3, Hf2.
        destruct (fs_files fs !! absolute cwd file) as [[b|]|]; auto. }
    intros [b|err] fs3 Hc3 Hh3 [Hf3 Hr].
    - assert (in_place (fs_files fs3) file content <-> b = content) as Hp.
      { unfold in_place. rewrite Hf3, Hr. split; [by intros [= ->]|by intros ->]. }
      case_bool_decide as Hb; [|destruct check; [|destruct (generatedFile b) eqn:Eg; cbn [negb]]]; apply does_ret;
        (split; [done|]); try done; (split; [split; [done|]; rewrite Hf3, Hr; auto|]); rewrite Hp; split; congruence.
    - destruct (errors_Is err ErrNotExist) eqn:Ee; cbn [negb]; [|by apply does_ret]. destruct Hr as [Hr|Hr]; [congruence|].
      apply does_ret. split; [done|]. unfold checked, in_place. rewrite Hf3, Hr. done. }
  destruct info as [[|]|]; try exact Hread. by apply does_ret.
Qed.

Lemma preflight_does check inputAbs outputs : forall problems fs, fs_cwd fs = cwd -> honest fs ->
  does (preflight check inputAbs outputs problems) fs (fun r files => files = fs_files fs /\
    match r with
    | inl _ => True
    | inr problems' => Forall (fun '(file, content) => checked check inputAbs files file content) outputs /\
        (check = true -> problems' = [] <-> problems = [] /\ Forall (fun '(file, content) => in_place files file content) outputs)
    end).
Proof.
  induction outputs as [|[file content] outputs IH]; intros problems fs Hcwd Hh; cbn [preflight].
  { apply does_ret. split; [done|]. split; [constructor|]. intros _. split; [|by intros []]. intros ->. by split. }
  eapply does_bind; [by apply preflightFile_does|]. intros [err|stale] fs1 Hc1 Hh1 [Hf1 Hr]; [by apply does_ret|].
  destruct Hr as [Hck Hst]. eapply does_weaken; [apply IH; [congruence|auto]|]. intros [err|problems'] files [-> Hp].
  { by rewrite Hf1. }
  destruct Hp as [Hall Hp]. split; [done|]. rewrite Hf1 in *. split; [by constructor|]. intros ->. rewrite (Hp eq_refl).
  rewrite Forall_cons, <- Hst. destruct stale; cbn [andb]; [|tauto].
  split; [intros [H _]; by apply app_nil in H as [_ H]|by intros (_ & H & _)].
Qed.
End paths.

(** ** Writing *)

(** Existing nodes stay as they are, but for [t], and [target] may become [data]. *)
Definition replaced (t target data : bytes) (files files' : gmap bytes node) : Prop := forall q n,
  q <> t -> files !! q = Some n -> files' !! q = Some n \/ q = target /\ files' !! q = Some (Regular data).

Lemma replaced_trans t target data a b c : replaced t target data a b -> replaced t target data b c -> replaced t target data a c.
Proof.
  intros H1 H2 q n Hq Hn. destruct (H1 q n Hq Hn) as [H|[-> H]]; [by apply H2|].
  destruct (H2 target _ Hq H) as [H'|H']; auto.
Qed.

Lemma replaced_refl t target data files : replaced t target data files files.
Proof. intros q n _. by left. Qed.

Lemma replaced_temp t target data files n : replaced t target data files (<[t := n]> files).
Proof. intros q m Hq Hm. left. by rewrite lookup_insert_ne. Qed.

Lemma replaced_remove t target data files : replaced t target data files (delete t files).
Proof. intros q m Hq Hm. left. by rewrite lookup_delete_ne. Qed.

Lemma make_directory_keeps files p q n : files !! q = Some n -> make_directory files p !! q = Some n.
Proof.
  unfold make_directory. intros H. destruct (files !! p) eqn:E; [done|]. rewrite lookup_insert_ne; [done|]. intros ->. congruence.
Qed.

Lemma make_directories_keep dirs : forall files q n, files !! q = Some n -> foldl make_directory files dirs !! q = Some n.
Proof. induction dirs as [|p dirs IH]; intros files q n H; [done|]. by apply IH, make_directory_keeps. Qed.

Lemma longest_le files p n : files !! p = Some n -> (length p <= longest files)%nat.
Proof.
  intros H. apply elem_of_map_to_list in H. unfold longest.
  assert (length p ∈ map (fun '(p, _) => length p) (map_to_list files)) as Hin by (apply list_elem_of_fmap; by exists (p, n)).
  pose proof (proj1 (list_max_le (map (fun '(p, _) => length p) (map_to_list files)) _) (le_n _)) as Hall.
  rewrite List.Forall_forall in Hall. by apply Hall, list_elem_of_In.
Qed.

Lemma temporary_fresh fs dir : fs_files fs !! temporary fs dir = None.
Proof.
  destruct (fs_files fs !! temporary fs dir) as [n|] eqn:E; [|done]. apply longest_le in E. unfold temporary in E.
  rewrite !length_app, length_replicate in E. lia.
Qed.

(** The names of temporary files. *)
Definition is_temp (p : bytes) : Prop := exists dir n, p = dir ++ bs "/.arden-gen-" ++ replicate n 48.

Lemma touch_does t fs : does (TouchTemp t) fs (fun _ files => files = fs_files fs).
Proof. apply does_syscall; [done|]. intros fs1 Hc Hf. by rewrite Hf. Qed.

Lemma fillTemp_does t file data fs : is_Some (fs_files fs !! t) ->
  does (fillTemp t file data) fs (fun errs files =>
    replaced t (absolute (fs_cwd fs) file) data (fs_files fs) files /\
    (errs = [] -> files !! absolute (fs_cwd fs) file = Some (Regular data))).
Proof.
  intros Ht. unfold fillTemp.
  eapply (does_bind _ _ _ (fun r files => replaced t (absolute (fs_cwd fs) file) data (fs_files fs) files /\
    (errorOf r = [] -> files !! t = Some (Regular data)))).
  { apply does_syscall_leaving; [intros err k fs1 _ _ ->; split; [apply replaced_temp|done]|].
    intros fs1 Hc Hf. cbn. split; [done|]. split; [done|]. rewrite Hf. split; [apply replaced_temp|]. intros _. by rewrite lookup_insert_eq. }
  intros written fs1 Hc1 _ [Hr1 Hw]. eapply does_bind; [apply touch_does|]. intros closed fs2 Hc2 _ Hf2.
  destruct (errorOf written) as [|e es]; cbn [app].
  2:{ apply does_ret. rewrite Hf2. by split. }
  destruct (errorOf closed) as [|e es].
  2:{ apply does_ret. rewrite Hf2. by split. }
  eapply does_bind; [apply touch_does|]. intros [u|err] fs3 Hc3 _ Hf3; [|apply does_ret; rewrite Hf3, Hf2; by split].
  eapply (does_bind _ _ _ (fun r files => replaced t (absolute (fs_cwd fs) file) data (fs_files fs3) files /\
    (errorOf r = [] -> files !! absolute (fs_cwd fs) file = Some (Regular data)))).
  { apply does_syscall; [intros; split; [apply replaced_refl|done]|]. intros fs4 Hc4 Hf4.
    rewrite Hc4, Hc3, Hc2, Hc1, Hf4, Hf3, Hf2, (Hw eq_refl).
    assert (forall files, replaced t (absolute (fs_cwd fs) file) data files
      (<[absolute (fs_cwd fs) file := Regular data]> (delete t files))) as Hren.
    { intros files q n Hq Hn. destruct (decide (q = absolute (fs_cwd fs) file)) as [->|Hne].
      - right. by rewrite lookup_insert_eq.
      - left. by rewrite lookup_insert_ne, lookup_delete_ne. }
    cbv beta iota zeta.
    match goal with |- context [match ?e with Some _ => _ | None => _ end] => destruct e as [[b|]|] end; cbn; rewrite ?Hf4, ?Hf3, ?Hf2; (split; [congruence|]); (split; [done|]).
    all: try (split; [apply replaced_refl|done]).
    all: split; [apply Hren|]; intros _; by rewrite lookup_insert_eq. }
  intros [u'|err] fs4 Hc4 _ [Hr4 Hd]; apply does_ret; (split; [|by intros H; apply Hd || done]);
    (eapply replaced_trans; [exact Hr1|]); rewrite <- Hf2, <- Hf3; exact Hr4.
Qed.

(** One destination: all that exists stays, but for the destination, which is
    written whole if there is no error. *)
Lemma atomicWrite_does file data fs : does (atomicWrite file data) fs (fun errs files =>
  (forall q n, fs_files fs !! q = Some n ->
     files !! q = Some n \/ q = absolute (fs_cwd fs) file /\ files !! q = Some (Regular data)) /\
  (errs = [] -> ~ is_temp (absolute (fs_cwd fs) file) -> files !! absolute (fs_cwd fs) file = Some (Regular data))).
Proof.
  unfold atomicWrite.
  eapply (does_bind _ _ _ (fun r files => forall q n, fs_files fs !! q = Some n -> files !! q = Some n)).
  { apply does_syscall_leaving; [intros err k fs1 _ _ -> q n; apply make_directories_keep|].
    intros fs1 Hc Hf. cbv beta zeta. destruct (existsb _ _); [by rewrite Hf|]. cbn. rewrite Hf. split; [done|]. split; [done|].
    intros q n. apply make_directories_keep. }
  intros [u|err] fs1 Hc1 _ Hk1; [|apply does_ret; split; [auto|done]].
  eapply (does_bind _ _ _ (fun r files => match r with
    | Ok t => is_temp t /\ fs_files fs1 !! t = None /\ files = <[t := Regular []]> (fs_files fs1)
    | Err _ => files = fs_files fs1
    end)).
  { apply does_syscall; [done|]. intros fs2 Hc Hf. cbn. split; [done|]. split; [done|]. split; [by eexists _, _|].
    split; [|by rewrite Hf]. rewrite <- Hf. apply temporary_fresh. }
  intros [t|err] fs2 Hc2 _ Hf2; [|apply does_ret; rewrite Hf2; split; [auto|done]].
  destruct Hf2 as (Htemp & Hfresh & Hf2). eapply does_bind; [apply fillTemp_does; rewrite Hf2; by rewrite lookup_insert_eq|].
  intros errs fs3 Hc3 _ [Hr3 Hd3]. rewrite Hc2, Hc1 in Hr3, Hd3.
  eapply (does_bind _ _ _ (fun _ files => files = fs_files fs3 \/ files = delete t (fs_files fs3))).
  { apply does_syscall; [by left|]. intros fs4 Hc Hf. cbn. rewrite Hf. auto. }
  intros r fs4 Hc4 _ Hf4. apply does_ret. split.
  - intros q n Hn. assert (q <> t) as Hq. { intros ->. apply Hk1 in Hn. congruence. }
    destruct (Hr3 q n Hq) as [H|[-> H]]; [rewrite Hf2, lookup_insert_ne by done; by apply Hk1| |].
    + left. destruct Hf4 as [->| ->]; [done|by rewrite lookup_delete_ne].
    + right. split; [done|]. destruct Hf4 as [->| ->]; [done|by rewrite lookup_delete_ne].
  - intros He Hn. specialize (Hd3 He). destruct Hf4 as [->| ->]; [done|]. rewrite lookup_delete_ne; [done|]. by intros ->.
Qed.

(** Existing nodes stay, or are outputs at their path. *)
Definition overwritten (cwd : bytes) (outputs : list (bytes * bytes)) (files files' : gmap bytes node) : Prop :=
  forall q n, files !! q = Some n -> files' !! q = Some n \/
    exists file content, (file, content) ∈ outputs /\ absolute cwd file = q /\ files' !! q = Some (Regular content).

(** The destination of an output is its own: not a temporary name, and no output
    with another content has it. *)
Definition own_path (cwd : bytes) (outputs : list (bytes * bytes)) (file content : bytes) : Prop :=
  ~ is_temp (absolute cwd file) /\
  forall file' content', (file', content') ∈ outputs -> absolute cwd file' = absolute cwd file -> content' = content.

Lemma writeAllFiles_does outputs : forall fs, does (writeAllFiles outputs) fs (fun errs files =>
  overwritten (fs_cwd fs) outputs (fs_files fs) files /\
  (errs = [] -> forall file content, (file, content) ∈ outputs -> own_path (fs_cwd fs) outputs file content ->
     in_place (fs_cwd fs) files file content)).
Proof.
  induction outputs as [|[file content] outputs IH]; intros fs; cbn [writeAllFiles].
  { apply does_ret. split; [intros q n; by left|]. intros _ file content H. by apply elem_of_nil in H. }
  eapply does_bind; [apply atomicWrite_does|]. intros errs fs1 Hc1 _ [Hk1 Hd1].
  assert (overwritten (fs_cwd fs) ((file, content) :: outputs) (fs_files fs) (fs_files fs1)) as Ho1.
  { intros q n Hn. destruct (Hk1 q n Hn) as [H|[-> H]]; [by left|right]. exists file, content. split; [by left|done]. }
  destruct errs as [|err errs]; [|by apply does_ret].
  eapply does_weaken; [apply IH|]. rewrite Hc1. intros errs files [Ho2 Hd2]. split.
  - intros q n Hn. destruct (Ho1 q n Hn) as [H|(f & c & Hin & Hq & H)]; destruct (Ho2 q _ H) as [H'|(f' & c' & Hin' & Hq' & H')].
    + by left.
    + right. exists f', c'. split; [by right|done].
    + right. by exists f, c.
    + right. exists f', c'. split; [by right|done].
  - intros He f c Hin [Htemp Hown].
    assert (in_place (fs_cwd fs) (fs_files fs1) f c -> in_place (fs_cwd fs) files f c) as Hkeep.
    { intros H. destruct (Ho2 _ _ H) as [H'|(f' & c' & Hin' & Hq' & H')]; [done|].
      by rewrite (Hown f' c') in H'; [|right|]. }
    apply elem_of_cons in Hin as [[= -> ->]|Hin]; [apply Hkeep, Hd1; done|].
    apply Hd2; [done|done|]. split; [done|]. intros f' c' Hin'. apply Hown. by right.
Qed.

Lemma ordered_elem outputs file content : (file, content) ∈ ordered outputs <-> outputs !! file = Some content.
Proof.
  unfold ordered. rewrite list_elem_of_omap. split.
  - intros (f & _ & H). destruct (outputs !! f) eqn:E; [|done]. cbn in H. by injection H as -> ->.
  - intros H. exists file. rewrite H. split; [|done]. unfold sortedKeys. rewrite Sort_perm.
    apply list_elem_of_fmap. exists (file, content). split; [done|]. by apply elem_of_map_to_list.
Qed.

Lemma Abs_does p fs : does (Abs p) fs (fun r files => files = fs_files fs /\
  match r with Ok abs => abs = absolute (fs_cwd fs) p | Err _ => True end).
Proof.
  unfold Abs, absolute. destruct (IsAbs p); [by apply does_ret|]. apply does_syscall; [done|]. intros fs1 Hc Hf. by rewrite Hc.
Qed.

Lemma produce_does flags outputs fs : honest fs -> does (produce flags outputs) fs (fun errs files =>
  files = fs_files fs /\ (errs = [] -> fl_check flags = true /\
    forall file content, outputs !! file = Some content -> in_place (fs_cwd fs) files file content) \/
  fl_check flags = false /\
  (forall file content, outputs !! file = Some content ->
     checked (fs_cwd fs) false (absolute (fs_cwd fs) (fl_config flags)) (fs_files fs) file content) /\
  overwritten (fs_cwd fs) (ordered outputs) (fs_files fs) files /\
  (errs = [] -> forall file content, outputs !! file = Some content -> own_path (fs_cwd fs) (ordered outputs) file content ->
     in_place (fs_cwd fs) files file content)).
Proof.
  intros Hh. unfold produce. eapply does_bind; [apply Abs_does|].
  intros [inputAbs|err] fs1 Hc1 Hh1 [Hf1 Ha]; [|apply does_ret; left; by split]. subst inputAbs.
  eapply does_bind; [apply (preflight_does (fs_cwd fs)); [done|auto]|].
  intros [err|problems] fs2 Hc2 Hh2 [Hf2 Hp]; [apply does_ret; left; rewrite Hf2, Hf1; by split|].
  destruct Hp as [Hck Hst]. destruct (fl_check flags) eqn:Ec.
  - apply does_ret. left. split; [by rewrite Hf2|]. intros ->. split; [done|]. intros file content Ho.
    destruct (proj1 (Hst eq_refl) eq_refl) as [_ Hall].
    by apply (proj1 (Forall_forall _ _) Hall (file, content)), ordered_elem.
  - eapply does_weaken; [apply writeAllFiles_does|]. rewrite Hc2, Hc1, Hf2, Hf1. intros errs files [Ho Hd]. right.
    split; [done|]. split; [|split; [done|]].
    + intros file content H. rewrite Hf2, Hf1 in Hck. by apply (proj1 (Forall_forall _ _) Hck (file, content)), ordered_elem.
    + intros He file content H. apply Hd; [done|]. by apply ordered_elem.
Qed.

(** ** The command *)

Section command.
Context `{U : GoUnicode, F : GoFold, G : GoSource, T : Templates, Y : Yaml}.

(** What the command plans to write, from the input as it is on disk. *)
Definition planned (flags : Flags) (fs : FS) (outputs : gmap bytes bytes) : Prop :=
  exists data, at_path fs (fl_config flags) = Some (Regular data) /\ plan flags data = Ok outputs.

Lemma run_does flags fs : honest fs -> does (run (FlagsOk flags)) fs (fun errs files =>
  files = fs_files fs /\ errs <> [] \/
  exists outputs, planned flags fs outputs /\
    (files = fs_files fs /\ (errs = [] -> fl_check flags = true /\
       forall file content, outputs !! file = Some content -> in_place (fs_cwd fs) files file content) \/
     fl_check flags = false /\
     (forall file content, outputs !! file = Some content ->
        checked (fs_cwd fs) false (absolute (fs_cwd fs) (fl_config flags)) (fs_files fs) file content) /\
     overwritten (fs_cwd fs) (ordered outputs) (fs_files fs) files /\
     (errs = [] -> forall file content, outputs !! file = Some content -> own_path (fs_cwd fs) (ordered outputs) file content ->
        in_place (fs_cwd fs) files file content))).
Proof.
  intros Hh. unfold run. destruct (usage flags); [apply does_ret; by left|].
  eapply (does_bind _ _ _ (fun r files => files = fs_files fs /\
    match r with Ok data => at_path fs (fl_config flags) = Some (Regular data) | Err _ => True end)).
  { apply does_syscall; [done|]. intros fs1 Hc Hf. unfold at_path. rewrite Hc, Hf.
    by destruct (fs_files fs !! absolute (fs_cwd fs) (fl_config flags)) as [[data|]|]. }
  intros [data|err] fs1 Hc1 Hh1 [Hf1 Hd]; [|apply does_ret; by left].
  destruct (plan flags data) as [outputs|err] eqn:Ep; [|apply does_ret; by left].
  eapply does_weaken; [apply produce_does; auto|]. rewrite Hc1, Hf1. intros errs files H. right. exists outputs. split; [by exists data|].
  exact H.
Qed.

(** What the command must not touch: directories and devices, its input, and
    files it did not generate. *)
Definition protected (flags : Flags) (fs : FS) (q : bytes) (n : node) : Prop :=
  q = absolute (fs_cwd fs) (fl_config flags) \/
  match n with Irregular => True | Regular content => generatedFile content = false end.

(** A destination that holds something else than what would be written and was not
    generated. *)
Definition conflict (flags : Flags) (fs : FS) (outputs : gmap bytes bytes) : Prop :=
  exists file content b, outputs !! file = Some content /\ at_path fs file = Some (Regular b) /\ b <> content /\
    generatedFile b = false.

(** C30. The generator command is safe for files, whatever system calls fail, a
    write or [MkdirAll] perhaps half way (as long as a failing call does not claim
    that a file is missing). Directories, the input and files that were not
    generated stay as they are. Every other existing file stays as it is or becomes,
    whole, an output for its path. In check mode no file changes. If a destination
    holds a file that was not generated and differs from its output, nothing at all
    is written and there is an error: all destinations are looked at before the
    first is written. If there is no error, every output with a destination of its
    own is in place. *)
Theorem generate_command_safe flags fs errs fs' : honest fs -> run (FlagsOk flags) fs = (errs, fs') ->
  (forall q n, fs_files fs !! q = Some n -> protected flags fs q n -> fs_files fs' !! q = Some n) /\
  (forall q n, fs_files fs !! q = Some n -> fs_files fs' !! q = Some n \/
     exists outputs file content, planned flags fs outputs /\ outputs !! file = Some content /\
       absolute (fs_cwd fs) file = q /\ fs_files fs' !! q = Some (Regular content)) /\
  (fl_check flags = true -> fs_files fs' = fs_files fs) /\
  (forall outputs, fl_check flags = false -> planned flags fs outputs -> conflict flags fs outputs ->
     fs_files fs' = fs_files fs /\ errs <> []) /\
  (errs = [] -> exists outputs, planned flags fs outputs /\ forall file content, outputs !! file = Some content ->
     fl_check flags = true \/ own_path (fs_cwd fs) (ordered outputs) file content -> at_path fs' file = Some (Regular content)).
Proof.
  intros Hh Hrun. pose proof (run_does flags fs Hh) as H. unfold does in H. rewrite Hrun in H. destruct H as (Hc & _ & H).
  destruct H as [[-> He]|(outputs & Hplan & [[Hf Hd]|(Hck & Hpre & Ho & Hd)])].
  - split_and!; try done; auto.
  - rewrite Hf. split_and!; try done; auto.
    + intros outputs' Hc' _ _. split; [done|]. intros ->. destruct (Hd eq_refl). congruence.
    + intros ->. destruct (Hd eq_refl) as [_ Hin]. exists outputs. split; [done|]. intros file content Hl _. unfold at_path.
      rewrite Hc, Hf. rewrite Hf in Hin. by apply Hin.
  - split_and!.
    + intros q n Hn Hp. destruct (Ho q n Hn) as [H|(file & content & Hin & <- & H)]; [done|].
      apply ordered_elem, Hpre in Hin as [Hinput Hnode]. rewrite Hn in Hnode.
      destruct Hp as [Hp|Hp]; [congruence|]. destruct n as [b|]; [|done].
      destruct Hnode as [-> |[?|?]]; congruence.
    + intros q n Hn. destruct (Ho q n Hn) as [H|(file & content & Hin & Hq & H)]; [by left|right].
      apply ordered_elem in Hin. by exists outputs, file, content.
    + congruence.
    + intros outputs' _ (data' & Hd' & Hp') (file & content & b & Hl & Hb & Hne & Hg). exfalso.
      destruct Hplan as (data & Hdata & Hp). assert (outputs' = outputs) as ->. { congruence. }
      destruct (Hpre _ _ Hl) as [_ Hnode]. unfold at_path in Hb. rewrite Hb in Hnode. destruct Hnode as [?|[?|?]]; congruence.
    + intros He. exists outputs. split; [done|]. intros file content Hl [?|Hown]; [congruence|]. unfold at_path. rewrite Hc.
      by apply Hd.
Qed.
End command.

(** ** A run *)

#[local] Existing Instances ascii_unicode sample_fold sample_source.

Definition sampleSchemaText : bytes := bs "# " ++ marker.
Definition sampleModelText : bytes := bs "// " ++ marker ++ bs " package players".
#[local] Instance sample_templates : Templates := {|
  executeSchema _ _ _ := Ok sampleSchemaText;
  executeModel _ _ := Ok sampleModelText
|}.
#[local] Instance sample_yaml : Yaml := {|
  yaml_Unmarshal _ := Ok (MkYamlNode false [] (bs "!!map") 1 []);
  yaml_Decode _ := Ok sampleConfig;
  yaml_DecodeNext _ := Some EOF
|}.

Definition sampleFlags (schema : string) : Flags := MkFlags (bs "in.yaml") (bs "out") (bs schema) false 0.
Definition sampleModelFile : bytes := bs "/w/out/players/player_gen.go".

(** An older model and a file of the user's are there. *)
Definition sampleFS (faults : list (option fault)) : FS :=
  MkFS (bs "/w") {[ bs "/w" := Irregular; bs "/w/in.yaml" := Regular (bs "version: 1"); bs "/w/notes" := Regular (bs "mine");
                    sampleModelFile := Regular (bs "// " ++ marker) ]} faults.

Example sample_generates : exists fs', run (FlagsOk (sampleFlags "schema.ldif")) (sampleFS []) = ([], fs') /\
  at_path fs' (bs "out/players/player_gen.go") = Some (Regular sampleModelText) /\
  at_path fs' (bs "schema.ldif") = Some (Regular sampleSchemaText) /\
  at_path fs' (bs "notes") = Some (Regular (bs "mine")).
Proof. eexists. split; [vm_compute; reflexivity|]. vm_compute. auto. Qed.

Lemma generate_command_safe_witness : exists errs fs',
  run (FlagsOk (sampleFlags "notes")) (sampleFS [None; Some (MkFault (ErrorString "permission denied") 0)]) = (errs, fs') /\ errs <> [] /\
  fs_files fs' !! bs "/w/notes" = Some (Regular (bs "mine")).
Proof.
  destruct (run (FlagsOk (sampleFlags "notes")) (sampleFS [None; Some (MkFault (ErrorString "permission denied") 0)])) as [errs fs'] eqn:E.
  exists errs, fs'. split; [reflexivity|]. split; [vm_compute in E; injection E as <- _; discriminate|].
  destruct (generate_command_safe (sampleFlags "notes") (sampleFS [None; Some (MkFault (ErrorString "permission denied") 0)]) errs fs') as
    (Hkept & _); [repeat constructor|exact E|].
  apply Hkept; [vm_compute; reflexivity|]. right. vm_compute. reflexivity.
Defined.

(** Two outputs can have one destination: the check for duplicates compares the
    paths as they are written, so that an absolute schema path and a relative
    output directory pass it. The run reports success, and the schema is lost. *)
Theorem duplicate_output_missed : exists fs',
  run (FlagsOk (sampleFlags "/w/out/players/player_gen.go")) (sampleFS []) = ([], fs') /\
  at_path fs' (bs "/w/out/players/player_gen.go") = Some (Regular sampleModelText) /\
  sampleModelText <> sampleSchemaText.
Proof. eexists. split; [vm_compute; reflexivity|]. split; [vm_compute; reflexivity|]. vm_compute. discriminate. Qed.
